(* ===== verification/_CoqProject ===== *)
-Q . S2P
Prelude.v
Decimal.v
Message.v
WireInstance.v
Codec.v
CodecTests.v
UserState.v
Prog.v
Redis.v
RedisInstance.v
Scripts.v
Sys.v
MessageStore.v
StoreSpec.v
StoreRefine.v
LateIds.v
StoreReads.v
StoreGuarantees.v
Dispatcher.v
StoreService.v
ServerLogic.v
ServerSpec.v
DispatcherRefine.v
ServerRun.v
ServerSafety.v
ServerDelivery.v
Interleave.v
Backed.v
ServerFaults.v
ServerExamples.v
ThreadPool.v
ChatServer.v
ServerFront.v
Lifecycle.v
Client.v
Tokens.v
Budget.v
ClientSafety.v
Retransmit.v
ClientStream.v
RedisClient.v
RedisPool.v
Pooled.v
Reliability.v
Conversation.v
Arrival.v
EndToEnd.v
LostRequests.v
PerfStats.v
PerfFacts.v
WireTypes.v
Stress.v
StressFacts.v
StressSummary.v
