(* ===== verification/Prelude.v ===== *)
(** * ReliableMessageDelivery: verification library (root)

    ReliableMessageDelivery is a chat server written in C++ that promises to
    deliver messages reliably, and a client for it.  A client sends a chat
    request over TCP; the server stores it in Redis, acknowledges it, pushes it
    to the receiver if he is on line and keeps it pending otherwise; the
    receiver acknowledges the push; a background thread pushes again what is
    not acknowledged in time; a login delivers what is pending.  This library
    models the program function by function and proves what makes it correct.
    This file holds what all the others share: machine integers, list lemmas,
    the hint database [rmd] and the scope [rmd_scope].

    ** The parts and their files

    Wire format (src/common/protocol).
    - Message: [Message.proto] as records and a tagged union,
      [EnvelopeFactory.h], [EnvelopeInspector.h]; the class [Protobuf] is the
      interface of the code protoc generates, WireInstance an instance of it.
    - Codec: [Codec.h], framing and the decoding loop; CodecTests: its test
      driver, [codec_test.cpp], as a function of the codec.
    - Decimal: the conversions between integers and text of the C library.

    Server (src/server).
    - UserState: [UserStateService.cpp], the on-line table.
    - Prog: programs as trees of atomic operations, run sequentially or
      interleaved; Sys: the operations of the server's threads and the state
      they act on (Redis behind its client, the clock, the table, the
      connections).
    - Redis: the command interface of Redis as a class with its documented
      behaviour; RedisInstance: an executable instance.
    - Scripts, MessageStore: [MessageStore.cpp], the six Lua scripts as
      programs over Redis commands, the parsing of replies, every method.
    - StoreSpec: the abstract store (a finite map and a counter), and how Redis
      represents it; StoreRefine, StoreReads, StoreGuarantees: every method
      implements its abstract operation, under lost requests and replies too;
      StoreService: that promise as a class, the interface of the dispatcher.
    - Dispatcher: [ServerEventDispatcher.cpp], its handlers and the delivery
      loop.  ServerLogic: rules for running them on an abstract server;
      ServerSpec: the abstract server as a step relation; DispatcherRefine,
      ServerRun: the handlers implement it, for single jobs and for runs.
      ServerSafety, ServerDelivery: what the runs guarantee.  Interleave: all
      interleavings of the threads at their operations; Backed: what its
      answers are backed by there.  ServerFaults: the server under faults.
      ServerExamples: concrete runs.
    - ThreadPool: [ShardedThreadPool.h].  ChatServer: the callbacks of
      [ChatServer.cpp] and its sessions.  ServerFront: callbacks, the queueing
      half of the dispatcher and the pool interleaved; status and printing.
      Lifecycle: construction, logging and [ChatServer::start], from wiring
      the callbacks to the return, among all those threads.
    - RedisClient: [RedisClient.cpp], the pool of connections; RedisPool: its
      theorems; Pooled: the threads of the server over the pool.
    - PerfStats: [PerfStats.cpp], the counters; PerfFacts: its theorems.

    Client (src/client).
    - Client: [Client.cpp], every method, the receiving and the retry thread.
      Tokens: a method for invariants with numbers that threads own; Budget:
      one for how often threads may do something.  ClientSafety, Retransmit
      and ClientStream: its theorems.
    - Reliability: clients, connections, sessions, the server's threads and the
      store together; Conversation: a run of them.  Arrival: a message that
      arrives.  EndToEnd: concrete clients and servers.
    - WireTypes: which envelopes server and client write.
    - Stress: [main_client.cpp], a driver of many clients; StressFacts and
      StressSummary: its theorems.

    State and operations keep the names of the sources.  A function that only
    computes is a function; one that runs under a mutex is an atomic function
    on the state the mutex guards; one that performs several such actions is a
    program ([prog]) over an operation type ([sysE], [clientE], [stressE],
    [perfE]), or, where condition variables matter ([ThreadPool],
    [RedisClient]), a step relation with a program counter per thread.

    ** What is shown

    - The store: any sequence of calls, under any faults, does to Redis what
      the abstract store prescribes (StoreRefine); creation is idempotent in
      the sender and the client message id; the queries are exact.
    - The server: processed one by one, events and scans implement the abstract
      server (ServerRun), which keeps messages, lets only the receiver
      acknowledge and pushes only to their owners.  Handling a login writes the
      response and what is pending, a scan exactly the deliveries that are
      overdue and are repeated (ServerDelivery).  In every interleaving and under
      any faults Redis still holds an abstract store and the on-line table is
      consistent (Interleave); an acknowledgement means a stored message, a
      push carries one, and every stored message was asked for (Backed).
    - End to end: with TCP delivering prefixes of what was written, in every
      interleaving and under any faults of Redis, a positive acknowledgement a
      client has received means its own message is stored, a push it queued is
      a message its sender sent, and a message marked Acked was delivered to
      the client of its receiver (Reliability).  When nothing fails, a message
      arrives, is acknowledged and is forgotten by its sender (Arrival).
    - The network side: cutting the stream does not matter, the events of a
      connection reach one worker in order, and the pool drains before it
      stops.  From the call of [start] to its return no event precedes the
      callbacks and none is refused while the loop runs (Lifecycle).
    - The client: requests have their own sequence numbers and message ids in
      every interleaving, retries follow their schedule and repeat the same
      frame, which is written six times at most, and pushes are acknowledged
      once and queued in order.  What server and client write is typed
      (WireTypes).
    - The connection pool: connections are used by one call at a time, calls
      return, and seen from outside each is one atomic request that may be
      lost before or after it is executed.  This is the fault model under
      which the store and the server are verified, and a run of the server
      over the pool refines a run with such requests (Pooled).
    - The counters: recording without locks gives the figures of recording in
      turn.  The driver: its exit code accounts for every send, its closing
      groups cover the clients, its wait ends at the deadline, its summary is
      consistent.  The codec tests pass with any serialisation code that keeps
      its laws.

    ** What the program does not do

    Theorems of their own show where the code does not do what it means to.

    In general: a lost reply strands a message until the next login
    ([lost_reply_strands_message]); the client forgets a refused message
    ([outage_loses_message]); from id 10^14 on every creation fails and records
    overwrite each other ([late_ids_collide]); envelopes decoded before
    malformed bytes are dropped with them ([decoded_then_dropped]); frames
    beyond the limit are sent ([Encode_rejected]).

    By a run: an acknowledgement overtaken by [markDelivered] is undone
    ([early_ack_is_undone]); replay within a millisecond follows the text of
    the ids ([replay_order_is_textual]); stopping the pool can hang
    ([stop_can_hang]); a fresh request can be repeated at once
    ([fresh_request_is_resent]); the destructor of the connection pool can
    finish before a last notification ([destroyed_while_notifying]); the time
    of the last statistics can go back ([log_clock_can_go_back]); the number of
    messages the driver expects can overflow ([total_overflows]).

    ** Bounds

    - The decoding loop has the length of its input as fuel and [sendAll] the
      length of its frame; both are proved enough, as every turn consumes a
      byte or more.  [close_groups] has the number of clients.
    - Loops that run until the program stops ([receiverLoop], [retryLoop],
      [deliveryLoop], [wait_loop]) take a number of turns over which the
      theorems quantify; the wait is proved to end within
      [10 * timeout + 1] turns.
    - [room] bounds how many operations a run performs: ids stay below 10^14
      ([lua_exact]), from which on Lua prints numbers in scientific notation,
      and retry counts below 2^53 ([exact_score]), from which on doubles are
      not exact.
    - [uint64_t], [uint32_t] and [int] wrap where the source computes with
      them; signed overflow, undefined in C++, is modelled as wrapping.

    ** What is not modelled

    Muduo (event loop, buffers, threads), hiredis, Redis itself and the code
    protoc generates are not part of the sources: they are parameters with
    documented behaviour, or outcomes the outside decides; so are the results
    of the system calls with which the client connects.  Whether a connection
    is connected, which the dispatcher asks before it pushes ([online_target]),
    is answered from a set that stays fixed during a run: a connection that
    drops between two of its operations is not modelled there, only its
    closing as an event.  The process-wide counters of [Client::sendMessage]
    are a field of each client: the theorems on one client speak of one client
    per process, and only Stress shares them.  Memory is sequentially
    consistent: neither the reordering of relaxed operations on different
    counters nor a relaxed load that returns an old value is modelled, and the
    theorems on the counters speak of one counter at a time.  Log lines and printing ([verbose]) are left out except
    where a function computes the text; the rounding of [double] is kept out
    of the statistics and of the driver's summary.  The web gateway, a separate
    TypeScript program, is not modelled. *)

From stdpp Require Export base gmap strings list sorting pretty relations.
From Stdlib Require Import Lia.

#[export] Set Default Goal Selector "!".

(** ** Machine integers

    [uint64_t], [uint32_t] and [size_t] values are [N]; [int] and [long]
    values are [Z].  Every operation that can wrap is written with its
    reduction. *)

Declare Scope rmd_scope.
Delimit Scope rmd_scope with rmd.

Definition two32 : N := 4294967296.
Definition two64 : N := 18446744073709551616.

(** Reduction of an unbounded value to a [uint64_t] or a [uint32_t]. *)
Definition u64 (n : N) : N := N.modulo n two64.
Definition u32 (n : N) : N := N.modulo n two32.

(** [a - b] on [uint64_t]. *)
Definition usub64 (a b : N) : N := u64 (a + (two64 - b)).

(** [static_cast<int>] of a wider integer (two's complement wrap-around). *)
Definition int32 (z : Z) : Z := ((z + 2147483648) mod 4294967296 - 2147483648)%Z.

Notation "a -₆₄ b" := (usub64 a b) (at level 50, left associativity) : rmd_scope.

Create HintDb rmd.
Create Rewrite HintDb rmd.

Section machine_integers.
Local Open Scope N_scope.

Lemma u64_small n : n < two64 → u64 n = n.
Proof. intros ?. by apply N.mod_small. Qed.

Lemma u32_small n : n < two32 → u32 n = n.
Proof. intros ?. by apply N.mod_small. Qed.

Lemma u64_lt n : u64 n < two64.
Proof. by apply N.mod_lt. Qed.

Lemma usub64_le a b : b ≤ a → a < two64 → usub64 a b = a - b.
Proof.
  intros ??. unfold usub64, u64.
  replace (a + (two64 - b)) with (a - b + 1 * two64) by (unfold two64 in *; lia).
  rewrite N.Div0.mod_add. apply N.mod_small. lia.
Qed.

(** The borrow case: the difference wraps to the top of the range. *)
Lemma usub64_wrap a b : a < b → b < two64 → usub64 a b = two64 - (b - a).
Proof.
  intros ??. unfold usub64, u64.
  rewrite N.mod_small; unfold two64 in *; lia.
Qed.
End machine_integers.

Lemma int32_small z : (-2147483648 ≤ z < 2147483648)%Z → int32 z = z.
Proof. intros ?. unfold int32. rewrite Z.mod_small; lia. Qed.

#[export] Hint Resolve u64_small u32_small u64_lt int32_small : rmd.
#[export] Hint Rewrite u64_small u32_small using (unfold two64, two32 in *; lia) : rmd.

(** ** Lists *)

(** The elements of [l] in the order [l'] lists them: a fold of an
    [unordered_map] visits its elements in an order the standard leaves open,
    so theorems about such loops quantify over it. *)
Definition iteration_order `{Countable K} {V} (m : gmap K V) (l : list (K * V)) : Prop :=
  l ≡ₚ map_to_list m.

Lemma filter_all {A} (P : A → Prop) `{!∀ x, Decision (P x)} l :
  Forall P l → filter P l = l.
Proof.
  induction 1 as [|x l Hx _ IH]; [done|]. rewrite filter_cons. by rewrite decide_True, IH.
Qed.

Lemma filter_fmap {A B} (f : A → B) (P : B → Prop) `{!∀ x, Decision (P x)} (l : list A) :
  filter P (f <$> l) = f <$> filter (λ x, P (f x)) l.
Proof.
  induction l as [|x l IH]; [done|]. rewrite fmap_cons, !filter_cons.
  case_decide; [rewrite fmap_cons|]; by rewrite IH.
Qed.

Lemma StronglySorted_filter {A} (R : relation A) (P : A → Prop) `{!∀ x, Decision (P x)} l :
  StronglySorted R l → StronglySorted R (filter P l).
Proof.
  induction 1 as [|x l _ IH Hx]; [constructor|]. rewrite filter_cons.
  case_decide; [constructor; [done|]|done].
  rewrite Forall_forall in *. intros y [_ Hy]%list_elem_of_filter. by apply Hx.
Qed.

Lemma reverse_sublist {A} (l k : list A) :
  l `sublist_of` k → reverse l `sublist_of` reverse k.
Proof.
  induction 1 as [|x l k _ IH|x l k _ IH]; rewrite ?reverse_cons;
    [done|by apply sublist_app|by apply sublist_inserts_r].
Qed.

(** What replacing an element does to a sum over a list. *)
Lemma sum_insert {A} (f : A → nat) l i x y :
  l !! i = Some x → sum_list_with f (<[i := y]> l) + f x = sum_list_with f l + f y.
Proof.
  revert i. induction l as [|z l IH]; intros [|i]; try done; simpl.
  - intros [= ->]. lia.
  - intros Hi%IH. lia.
Qed.

Lemma sum_zero {A} (f : A → nat) l x : sum_list_with f l = 0 → x ∈ l → f x = 0.
Proof.
  induction l as [|z l IH]; simpl; intros Hs; [by intros ?%not_elem_of_nil|].
  intros [->|Hx]%elem_of_cons; [lia|]. apply IH; [lia|done].
Qed.

(** A part of [a ++ b] ends within [a] or after it. *)
Lemma prefix_app_cases {A} (d a b : list A) :
  d `prefix_of` a ++ b → (d `prefix_of` a ∧ d ≠ a) ∨ ∃ d', d = a ++ d' ∧ d' `prefix_of` b.
Proof.
  revert d. induction a as [|x a IH]; intros d Hd; [right; by exists d|].
  destruct d as [|y d]; [left; split; [apply prefix_nil|done]|].
  cbn [app] in Hd. apply prefix_cons_inv_1 in Hd as Hx. subst y.
  apply prefix_cons_inv_2 in Hd. destruct (IH d Hd) as [[Hp Hne]|(d' & -> & Hd')].
  - left. split; [by apply prefix_cons|]. by intros [=].
  - right. by exists d'.
Qed.

(** ** Reachability *)

(** Invariants of a step relation hold in every reachable state. *)
Lemma rtc_invariant {A} (R : relation A) (I : A → Prop) :
  (∀ x y, I x → R x y → I y) → ∀ x y, rtc R x y → I x → I y.
Proof. intros Hstep x y. induction 1; eauto. Qed.

(** Invariants indexed by the number of steps taken. *)
Lemma nsteps_invariant {A} (R : relation A) (I : nat → A → Prop) :
  (∀ n x y, I n x → R x y → I (S n) y) →
  ∀ k n x y, nsteps R k x y → I n x → I (k + n) y.
Proof.
  intros Hstep k. induction k as [|k IH]; intros n x y Hs Hi.
  - by inversion Hs; subst.
  - inversion Hs as [|? ? z ? H1 H2]; subst.
    replace (S k + n) with (k + S n) by lia. eauto.
Qed.

(** ** Tactics *)

(** Split conjunctions and existentials of the context. *)
Ltac deex :=
  repeat match goal with
  | H : ∃ _, _ |- _ => let x := fresh "x" in destruct H as [x H]
  | H : _ ∧ _ |- _ => let H' := fresh H in destruct H as [H H']
  end.

(** Reduce a [match] or [if] of the goal by cases, then clean up. *)
Ltac crush_match := repeat (case_match; simplify_eq/=).
