(* ===== verification/Decimal.v ===== *)
(** * Decimal text of integers

    [std::to_string], [strtoull], [strtol] and [atoi] as the C++ sources use
    them on Redis replies, keys and environment variables. *)

From S2P Require Import Prelude.
From Stdlib Require Import Ascii.
Local Open Scope N_scope.

(** [std::to_string] of an unsigned and of a signed integer. *)
Definition to_string (n : N) : string := pretty n.
Definition to_string_int (z : Z) : string := pretty z.

(** [std::string::c_str()] read as a C string: it ends at the first NUL. *)
Fixpoint c_str (s : string) : string :=
  match s with
  | EmptyString => EmptyString
  | String c s' =>
      if decide (c = Ascii.zero) then EmptyString else String c (c_str s')
  end.

Definition digit_value (c : Ascii.ascii) : option N :=
  N.of_nat <$> Ascii.is_nat c.

Fixpoint skip_space (s : string) : string :=
  match s with
  | String c s' => if Ascii.is_space c then skip_space s' else s
  | EmptyString => s
  end.

(** The optional sign both functions accept. *)
Definition read_sign (s : string) : bool * string :=
  match s with
  | String "-"%char s' => (true, s')
  | String "+"%char s' => (false, s')
  | _ => (false, s)
  end.

(** Longest run of digits, accumulated onto [acc]; the rest of the text. *)
Fixpoint read_digits (acc : N) (s : string) : N * string :=
  match s with
  | String c s' =>
      match digit_value c with
      | Some d => read_digits (acc * 10 + d) s'
      | None => (acc, s)
      end
  | EmptyString => (acc, s)
  end.

(** Sign, magnitude and end of the subject sequence; [None] if it is empty. *)
Definition read_number (s : string) : option (bool * N * string) :=
  let (neg, s1) := read_sign (skip_space s) in
  match s1 with
  | String c _ =>
      match digit_value c with
      | Some _ => let (v, rest) := read_digits 0 s1 in Some (neg, v, rest)
      | None => None
      end
  | EmptyString => None
  end.

(** [strtoull(text, &end, 10)]: the value and the text at [end].  Without a
    subject sequence the result is 0 and [end] is [text]; magnitudes out of
    range give [ULLONG_MAX]; a minus sign negates in [unsigned long long]. *)
Definition strtoull (text : string) : N * string :=
  match read_number (c_str text) with
  | None => (0, c_str text)
  | Some (neg, v, rest) =>
      (if two64 <=? v then two64 - 1 else if neg then u64 (two64 - v) else v, rest)
  end.

(** [strtol(text, &end, 10)] on a 64-bit [long], saturating at its bounds. *)
Definition strtol (text : string) : Z * string :=
  match read_number (c_str text) with
  | None => (0%Z, c_str text)
  | Some (neg, v, rest) =>
      let z := if neg then (- Z.of_N v)%Z else Z.of_N v in
      (Z.max (-9223372036854775808) (Z.min 9223372036854775807 z), rest)
  end.

(** ** Digits *)

Lemma digit_value_char x : x < 10 → digit_value (pretty_N_char x) = Some x.
Proof.
  intros ?. assert (x = 0 ∨ x = 1 ∨ x = 2 ∨ x = 3 ∨ x = 4 ∨ x = 5 ∨ x = 6
    ∨ x = 7 ∨ x = 8 ∨ x = 9) as Hx by lia.
  by repeat destruct Hx as [->|Hx]; [..|subst].
Qed.

(** Text that starts like a decimal number: the shape of [to_string]. *)
Definition starts_with_digit (s : string) : Prop :=
  ∃ c s', s = String c s' ∧ is_Some (digit_value c).

Lemma read_digits_go x s : read_digits 0 (pretty_N_go x s) = read_digits x s.
Proof.
  revert s. induction (N.lt_wf_0 x) as [x _ IH]; intros s.
  destruct (decide (x = 0)) as [->|Hx]; [done|].
  rewrite pretty_N_go_step by lia. rewrite IH by (apply N.div_lt; lia). simpl.
  rewrite digit_value_char by (apply N.mod_lt; lia).
  f_equal. rewrite (N.div_mod x 10) at 3 by lia. lia.
Qed.

Lemma pretty_N_go_app x s s' : pretty_N_go x s +:+ s' = pretty_N_go x (s +:+ s').
Proof.
  revert s. induction (N.lt_wf_0 x) as [x _ IH]; intros s.
  destruct (decide (x = 0)) as [->|Hx]; [done|].
  rewrite !(pretty_N_go_step x) by lia. by rewrite IH by (apply N.div_lt; lia).
Qed.

(** Reading a decimal number followed by any text gives the number back. *)
Lemma read_digits_to_string x s : read_digits 0 (to_string x +:+ s) = read_digits x s.
Proof.
  unfold to_string, pretty, pretty_N. case_decide as Hx; [by subst|].
  rewrite pretty_N_go_app. apply read_digits_go.
Qed.

Lemma string_app_nil_r s : s +:+ "" = s.
Proof. induction s as [|c s IH]; [done|]. unfold String.append; fold String.append.
  by rewrite IH. Qed.

Lemma pretty_N_go_digit x s :
  0 < x → starts_with_digit (pretty_N_go x s).
Proof.
  revert s. induction (N.lt_wf_0 x) as [x _ IH]; intros s Hx.
  rewrite pretty_N_go_step by done.
  destruct (decide (x / 10 = 0)) as [->|Hd].
  - rewrite pretty_N_go_0. eexists _, _. split; [done|].
    rewrite digit_value_char; [eauto|]. apply N.mod_lt; lia.
  - apply IH; [apply N.div_lt; lia|by apply N.neq_0_lt_0].
Qed.

Lemma to_string_digit x : starts_with_digit (to_string x).
Proof.
  unfold to_string, pretty, pretty_N. case_decide.
  - eexists _, _. split; [done|]. by eexists.
  - apply pretty_N_go_digit. lia.
Qed.

Lemma to_string_nonempty x : to_string x ≠ "".
Proof. by destruct (to_string_digit x) as (c & s & -> & _). Qed.

#[export] Instance to_string_inj : Inj (=) (=) to_string.
Proof. unfold to_string. apply _. Qed.

(** The separator of composite keys: what follows a number is recovered as
    long as it does not start with a digit. *)
Lemma to_string_app_inj x y s s' :
  ¬ starts_with_digit s → ¬ starts_with_digit s' →
  to_string x +:+ s = to_string y +:+ s' → x = y ∧ s = s'.
Proof.
  intros Hs Hs' Heq. pose proof (f_equal (read_digits 0) Heq) as H.
  rewrite !read_digits_to_string in H.
  assert (∀ z t, ¬ starts_with_digit t → read_digits z t = (z, t)) as Hstop.
  { intros z [|c t] Ht; [done|]. simpl. destruct (digit_value c) eqn:E; [|done].
    destruct Ht. exists c, t. by rewrite E. }
  rewrite !Hstop in H by done. by simplify_eq.
Qed.

(** ** Round trips *)

Fixpoint all_digits (s : string) : Prop :=
  match s with
  | EmptyString => True
  | String c s' => is_Some (digit_value c) ∧ all_digits s'
  end.

Lemma all_digits_go x s : all_digits s → all_digits (pretty_N_go x s).
Proof.
  revert s. induction (N.lt_wf_0 x) as [x _ IH]; intros s Hs.
  destruct (decide (x = 0)) as [->|Hx]; [done|].
  rewrite pretty_N_go_step by lia. apply IH; [apply N.div_lt; lia|].
  split; [|done]. rewrite digit_value_char; [eauto|]. apply N.mod_lt; lia.
Qed.

Lemma all_digits_to_string x : all_digits (to_string x).
Proof.
  unfold to_string, pretty, pretty_N. case_decide; [by repeat split; eauto|].
  by apply all_digits_go.
Qed.

Lemma c_str_all_digits s : all_digits s → c_str s = s.
Proof.
  induction s as [|c s IH]; [done|]. intros [Hc Hs]. simpl.
  rewrite IH by done. case_decide as Hz; [|done]. subst. by destruct Hc.
Qed.

(** A digit is neither white space nor a sign. *)
Lemma digit_not_space c : is_Some (digit_value c) → Ascii.is_space c = false.
Proof. intros [d Hd]. by destruct c as [[] [] [] [] [] [] [] []]. Qed.

Lemma read_sign_digit c s :
  is_Some (digit_value c) → read_sign (String c s) = (false, String c s).
Proof. intros [d Hd]. by destruct c as [[] [] [] [] [] [] [] []]. Qed.

Lemma read_number_to_string x : read_number (to_string x) = Some (false, x, "").
Proof.
  pose proof (read_digits_to_string x "") as Hr. rewrite string_app_nil_r in Hr.
  destruct (to_string_digit x) as (c & s & Heq & Hc). rewrite Heq in Hr |- *.
  unfold read_number. cbn [skip_space]. rewrite digit_not_space by done.
  rewrite read_sign_digit by done. destruct Hc as [d Hd]. rewrite Hd. by rewrite Hr.
Qed.

Lemma strtoull_to_string n : n < two64 → strtoull (to_string n) = (n, "").
Proof.
  intros ?. unfold strtoull.
  rewrite c_str_all_digits, read_number_to_string by apply all_digits_to_string.
  case_match eqn:E; [|done]. apply N.leb_le in E. lia.
Qed.

Lemma strtol_to_string n :
  n < 9223372036854775808 → strtol (to_string n) = (Z.of_N n, "").
Proof.
  intros ?. unfold strtol.
  rewrite c_str_all_digits, read_number_to_string by apply all_digits_to_string.
  f_equal. lia.
Qed.

#[export] Hint Resolve to_string_nonempty all_digits_to_string : rmd.
