(* ===== verification/Message.v ===== *)
(** * The wire messages (common/protocol)

    The data of [Message.proto], the [EnvelopeFactory] constructors, the
    [EnvelopeInspector] printer, and the interface of the code protoc
    generates from [Message.proto] (serialisation and parsing). *)

From S2P Require Import Prelude Decimal.
From Stdlib Require Import Strings.Byte.
Local Open Scope N_scope.

Abbreviation bytes := (list byte).

(** ** Data of Message.proto *)

(** proto3 enums are open: a value outside the declared ones is kept. *)
Inductive MessageType :=
  | UNKNOWN | LOGIN_REQ | LOGIN_RESP | CHAT_REQ | CHAT_PUSH | ACK | HEARTBEAT
  | OTHER_TYPE (value : Z).

Record LoginRequest := { login_req_uid : N }.
Record LoginResponse := { login_resp_ok : bool; login_resp_reason : string }.
Record ChatRequest := {
  chat_req_from_uid : N; chat_req_to_uid : N;
  chat_req_content : string; chat_req_client_msg_id : string }.
Record ChatPush := {
  push_msg_id : N; push_from_uid : N; push_to_uid : N; push_content : string;
  push_server_timestamp_ms : N; push_history : bool }.
Record Ack := { ack_msg_id : N; ack_seq : N; ack_ok : bool; ack_reason : string }.
Record Heartbeat := { heartbeat_uid : N }.

(** The [oneof payload]. *)
Inductive Payload :=
  | PAYLOAD_NOT_SET
  | kLoginReq (m : LoginRequest) | kLoginResp (m : LoginResponse)
  | kChatReq (m : ChatRequest) | kChatPush (m : ChatPush)
  | kAck (m : Ack) | kHeartbeat (m : Heartbeat).

Record Envelope := {
  env_type : MessageType; env_seq : N; env_timestamp_ms : N; env_payload : Payload }.

Definition has_login_req (e : Envelope) : bool :=
  match env_payload e with kLoginReq _ => true | _ => false end.
Definition has_login_resp (e : Envelope) : bool :=
  match env_payload e with kLoginResp _ => true | _ => false end.
Definition has_chat_req (e : Envelope) : bool :=
  match env_payload e with kChatReq _ => true | _ => false end.
Definition has_chat_push (e : Envelope) : bool :=
  match env_payload e with kChatPush _ => true | _ => false end.
Definition has_ack (e : Envelope) : bool :=
  match env_payload e with kAck _ => true | _ => false end.

(** The accessors of an absent member return its default instance. *)
Definition login_req (e : Envelope) : LoginRequest :=
  match env_payload e with kLoginReq m => m | _ => Build_LoginRequest 0 end.
Definition login_resp (e : Envelope) : LoginResponse :=
  match env_payload e with kLoginResp m => m | _ => Build_LoginResponse false "" end.
Definition chat_req (e : Envelope) : ChatRequest :=
  match env_payload e with kChatReq m => m | _ => Build_ChatRequest 0 0 "" "" end.
Definition chat_push (e : Envelope) : ChatPush :=
  match env_payload e with kChatPush m => m | _ => Build_ChatPush 0 0 0 "" 0 false end.
Definition ack (e : Envelope) : Ack :=
  match env_payload e with kAck m => m | _ => Build_Ack 0 0 false "" end.

Definition default_Envelope : Envelope :=
  {| env_type := UNKNOWN; env_seq := 0; env_timestamp_ms := 0; env_payload := PAYLOAD_NOT_SET |}.

#[export] Instance MessageType_eq_dec : EqDecision MessageType.
Proof. solve_decision. Defined.
#[export] Instance LoginRequest_eq_dec : EqDecision LoginRequest.
Proof. solve_decision. Defined.
#[export] Instance LoginResponse_eq_dec : EqDecision LoginResponse.
Proof. solve_decision. Defined.
#[export] Instance ChatRequest_eq_dec : EqDecision ChatRequest.
Proof. solve_decision. Defined.
#[export] Instance ChatPush_eq_dec : EqDecision ChatPush.
Proof. solve_decision. Defined.
#[export] Instance Ack_eq_dec : EqDecision Ack.
Proof. solve_decision. Defined.
#[export] Instance Heartbeat_eq_dec : EqDecision Heartbeat.
Proof. solve_decision. Defined.
#[export] Instance Payload_eq_dec : EqDecision Payload.
Proof. solve_decision. Defined.
#[export] Instance Envelope_eq_dec : EqDecision Envelope.
Proof. solve_decision. Defined.

(** ** EnvelopeFactory

    [now] is the value the call to [NowMs()] returned; [CreateChatPush] calls
    it a second time when no server timestamp is given ([now2]). *)
Module EnvelopeFactory.
Definition CreateLoginRequest (now seq uid : N) : Envelope :=
  {| env_type := LOGIN_REQ; env_seq := seq; env_timestamp_ms := now;
     env_payload := kLoginReq {| login_req_uid := uid |} |}.

Definition CreateLoginResponse (now seq : N) (ok : bool) (reason : string) : Envelope :=
  {| env_type := LOGIN_RESP; env_seq := seq; env_timestamp_ms := now;
     env_payload := kLoginResp {| login_resp_ok := ok; login_resp_reason := reason |} |}.

Definition CreateChatRequest (now seq from_uid to_uid : N)
    (content client_msg_id : string) : Envelope :=
  {| env_type := CHAT_REQ; env_seq := seq; env_timestamp_ms := now;
     env_payload := kChatReq {| chat_req_from_uid := from_uid; chat_req_to_uid := to_uid;
       chat_req_content := content; chat_req_client_msg_id := client_msg_id |} |}.

Definition CreateChatPush (now now2 seq msg_id from_uid to_uid : N) (content : string)
    (server_timestamp_ms : N) (history : bool) : Envelope :=
  {| env_type := CHAT_PUSH; env_seq := seq; env_timestamp_ms := now;
     env_payload := kChatPush {| push_msg_id := msg_id; push_from_uid := from_uid;
       push_to_uid := to_uid; push_content := content;
       push_server_timestamp_ms :=
         if server_timestamp_ms =? 0 then now2 else server_timestamp_ms;
       push_history := history |} |}.

Definition CreateAck (now seq msg_id : N) (ok : bool) (reason : string) : Envelope :=
  {| env_type := ACK; env_seq := seq; env_timestamp_ms := now;
     env_payload := kAck {| ack_msg_id := msg_id; ack_seq := seq; ack_ok := ok;
       ack_reason := reason |} |}.
End EnvelopeFactory.

(** ** EnvelopeInspector *)
Module EnvelopeInspector.
Definition MessageTypeToString (t : MessageType) : string :=
  match t with
  | UNKNOWN => "UNKNOWN" | LOGIN_REQ => "LOGIN_REQ" | LOGIN_RESP => "LOGIN_RESP"
  | CHAT_REQ => "CHAT_REQ" | CHAT_PUSH => "CHAT_PUSH" | ACK => "ACK"
  | HEARTBEAT => "HEARTBEAT" | OTHER_TYPE _ => "UNRECOGNIZED"
  end.

Definition quote : string := String (Ascii.ascii_of_nat 34) EmptyString.
Definition bool_text (b : bool) : string := if b then "true" else "false".
Definition quoted (s : string) : string := quote +:+ s +:+ quote.

Definition payload_text (p : Payload) : string :=
  match p with
  | kLoginReq m => ", login_req={uid=" +:+ to_string (login_req_uid m) +:+ "}"
  | kLoginResp m => ", login_resp={ok=" +:+ bool_text (login_resp_ok m)
      +:+ ", reason=" +:+ quoted (login_resp_reason m) +:+ "}"
  | kChatReq m => ", chat_req={from_uid=" +:+ to_string (chat_req_from_uid m)
      +:+ ", to_uid=" +:+ to_string (chat_req_to_uid m)
      +:+ ", content=" +:+ quoted (chat_req_content m)
      +:+ ", client_msg_id=" +:+ quoted (chat_req_client_msg_id m) +:+ "}"
  | kChatPush m => ", chat_push={msg_id=" +:+ to_string (push_msg_id m)
      +:+ ", from_uid=" +:+ to_string (push_from_uid m)
      +:+ ", to_uid=" +:+ to_string (push_to_uid m)
      +:+ ", content=" +:+ quoted (push_content m)
      +:+ ", server_timestamp_ms=" +:+ to_string (push_server_timestamp_ms m)
      +:+ ", history=" +:+ bool_text (push_history m) +:+ "}"
  | kAck m => ", ack={msg_id=" +:+ to_string (ack_msg_id m)
      +:+ ", seq=" +:+ to_string (ack_seq m)
      +:+ ", ok=" +:+ bool_text (ack_ok m)
      +:+ ", reason=" +:+ quoted (ack_reason m) +:+ "}"
  | kHeartbeat m => ", heartbeat={uid=" +:+ to_string (heartbeat_uid m) +:+ "}"
  | PAYLOAD_NOT_SET => ", payload=not_set"
  end.

Definition ToString (e : Envelope) : string :=
  "Envelope{type=" +:+ MessageTypeToString (env_type e)
    +:+ ", seq=" +:+ to_string (env_seq e)
    +:+ ", timestamp_ms=" +:+ to_string (env_timestamp_ms e)
    +:+ payload_text (env_payload e) +:+ "}".
End EnvelopeInspector.

(** ** The generated serialisation code

    [Message.pb.h] is generated by protoc and not part of the sources: its two
    functions are parameters.  [ParseFromArray data size] reads [size] bytes
    at [data]. *)
Class Protobuf := {
  SerializeToString : Envelope → option bytes;
  ParseFromArray : bytes → Z → option Envelope }.

(** What the sources rely on, as protobuf documents it: parsing reads exactly
    [size] bytes, and parsing the serialisation of a representable message
    (string fields valid UTF-8, integers in range) gives the message back. *)
Class ProtobufLaws `(P : Protobuf) := {
  representable : Envelope → Prop;
  parse_reads_size : ∀ (data rest : bytes) (size : Z),
    size = Z.of_nat (length data) →
    ParseFromArray (data ++ rest) size = ParseFromArray data size;
  parse_serialize : ∀ e body,
    representable e → SerializeToString e = Some body →
    ParseFromArray body (Z.of_nat (length body)) = Some e }.
