(* ===== verification/WireInstance.v ===== *)
(** * A concrete serialisation

    An instance of [Protobuf] with its laws, used by the witnesses to evaluate
    theorems that are stated for any serialisation.  It is not the protobuf
    wire format: an envelope is encoded as the bits of its stdpp code, and the
    default envelope, as in proto3, as the empty byte sequence. *)

From S2P Require Import Prelude Message.
From Stdlib Require Import Strings.Byte.

(** ** Envelopes are countable *)

Abbreviation type_sum := (nat + Z)%type.
Abbreviation payload_sum :=
  (unit + (N + (bool * string + (N * N * string * string +
    (N * N * N * string * N * bool + (N * N * bool * string + N))))))%type.

Definition type_to_sum (t : MessageType) : type_sum :=
  match t with
  | UNKNOWN => inl 0 | LOGIN_REQ => inl 1 | LOGIN_RESP => inl 2 | CHAT_REQ => inl 3
  | CHAT_PUSH => inl 4 | ACK => inl 5 | HEARTBEAT => inl 6 | OTHER_TYPE z => inr z
  end.

Definition type_of_sum (s : type_sum) : MessageType :=
  match s with
  | inl 0 => UNKNOWN | inl 1 => LOGIN_REQ | inl 2 => LOGIN_RESP | inl 3 => CHAT_REQ
  | inl 4 => CHAT_PUSH | inl 5 => ACK | inl _ => HEARTBEAT | inr z => OTHER_TYPE z
  end.

Definition payload_to_sum (p : Payload) : payload_sum :=
  match p with
  | PAYLOAD_NOT_SET => inl ()
  | kLoginReq (Build_LoginRequest u) => inr (inl u)
  | kLoginResp (Build_LoginResponse b r) => inr (inr (inl (b, r)))
  | kChatReq (Build_ChatRequest f t c i) => inr (inr (inr (inl (f, t, c, i))))
  | kChatPush (Build_ChatPush m f t c s h) =>
      inr (inr (inr (inr (inl (m, f, t, c, s, h)))))
  | kAck (Build_Ack m s b r) => inr (inr (inr (inr (inr (inl (m, s, b, r))))))
  | kHeartbeat (Build_Heartbeat u) => inr (inr (inr (inr (inr (inr u)))))
  end.

Definition payload_of_sum (s : payload_sum) : Payload :=
  match s with
  | inl _ => PAYLOAD_NOT_SET
  | inr (inl u) => kLoginReq (Build_LoginRequest u)
  | inr (inr (inl (b, r))) => kLoginResp (Build_LoginResponse b r)
  | inr (inr (inr (inl (f, t, c, i)))) => kChatReq (Build_ChatRequest f t c i)
  | inr (inr (inr (inr (inl (m, f, t, c, s, h))))) =>
      kChatPush (Build_ChatPush m f t c s h)
  | inr (inr (inr (inr (inr (inl (m, s, b, r)))))) => kAck (Build_Ack m s b r)
  | inr (inr (inr (inr (inr (inr u))))) => kHeartbeat (Build_Heartbeat u)
  end.

#[export] Instance MessageType_countable : Countable MessageType.
Proof. refine (inj_countable' type_to_sum type_of_sum _). by intros []. Defined.

#[export] Instance Payload_countable : Countable Payload.
Proof. refine (inj_countable' payload_to_sum payload_of_sum _). by intros [|[]|[]|[]|[]|[]|[]]. Defined.

#[export] Instance Envelope_countable : Countable Envelope.
Proof.
  refine (inj_countable'
    (λ e, (env_type e, env_seq e, env_timestamp_ms e, env_payload e))
    (λ '(t, s, n, p), Build_Envelope t s n p) _). by intros [].
Defined.

(** ** Bits as bytes *)

Fixpoint pos_to_bytes (p : positive) : bytes :=
  match p with
  | xH => [x02]
  | xO p => x00 :: pos_to_bytes p
  | xI p => x01 :: pos_to_bytes p
  end.

Fixpoint pos_of_bytes (b : bytes) : option positive :=
  match b with
  | [x02] => Some xH
  | x00 :: b => xO <$> pos_of_bytes b
  | x01 :: b => xI <$> pos_of_bytes b
  | _ => None
  end.

Lemma pos_of_to_bytes p : pos_of_bytes (pos_to_bytes p) = Some p.
Proof. induction p as [p IH|p IH|]; simpl; rewrite ?IH; done. Qed.

Lemma pos_to_bytes_nonempty p : pos_to_bytes p ≠ [].
Proof. by destruct p. Qed.

#[export] Instance bits_protobuf : Protobuf := {
  SerializeToString e :=
    Some (if decide (e = default_Envelope) then [] else pos_to_bytes (encode e));
  ParseFromArray data size :=
    match take (Z.to_nat size) data with
    | [] => Some default_Envelope
    | body => pos_of_bytes body ≫= decode
    end }.

#[export, refine] Instance bits_protobuf_laws : ProtobufLaws bits_protobuf := {
  representable := λ _, True }.
Proof.
  - intros data rest size ->. simpl. by rewrite Nat2Z.id, take_app_length, take_ge.
  - intros e body _ [= <-]. simpl. rewrite Nat2Z.id, take_ge by done.
    case_decide as He; [by subst|].
    pose proof (pos_of_to_bytes (encode e)) as Hb.
    destruct (pos_to_bytes (encode e)) as [|b l] eqn:E;
      [by destruct (pos_to_bytes_nonempty (encode e))|].
    change (pos_of_bytes (b :: l) ≫= decode = Some e).
    rewrite Hb. apply decode_encode.
Defined.
