(* ===== verification/Codec.v ===== *)
(** * MessageCodec (common/protocol/Codec.h)

    Length-prefixed framing of envelopes on a TCP byte stream. *)

From S2P Require Import Prelude Decimal Message WireInstance.
From Stdlib Require Import Strings.Byte.
Local Open Scope N_scope.

(** ** Byte order *)

Definition byte_of_N (n : N) : byte :=
  match Byte.of_N (N.modulo n 256) with Some b => b | None => x00 end.

(** The four bytes of [htonl(n)] in memory order, and [ntohl] of four bytes. *)
Definition htonl_bytes (n : N) : bytes :=
  [byte_of_N (n / 16777216); byte_of_N (n / 65536); byte_of_N (n / 256); byte_of_N n].

Definition ntohl_bytes (b : bytes) : N :=
  foldl (λ acc x, acc * 256 + Byte.to_N x) 0 b.

Lemma byte_to_of_N n : Byte.to_N (byte_of_N n) = n mod 256.
Proof.
  unfold byte_of_N. destruct (Byte.of_N (n mod 256)) eqn:E.
  - by apply Byte.to_of_N.
  - apply Byte.of_N_None_iff in E. pose proof (N.mod_lt n 256). lia.
Qed.

Lemma ntohl_htonl n : n < two32 → ntohl_bytes (htonl_bytes n) = n.
Proof.
  intros Hn. unfold ntohl_bytes, htonl_bytes. cbn [foldl].
  rewrite !byte_to_of_N. unfold two32 in Hn.
  rewrite (N.mod_small (n / 16777216)) by (apply N.Div0.div_lt_upper_bound; lia).
  replace (n / 16777216) with (n / 256 / 256 / 256)
    by (rewrite !N.Div0.div_div; by f_equal).
  replace (n / 65536) with (n / 256 / 256) by (rewrite !N.Div0.div_div; by f_equal).
  pose proof (N.div_mod n 256). pose proof (N.div_mod (n / 256) 256).
  pose proof (N.div_mod (n / 256 / 256) 256). lia.
Qed.

Lemma htonl_bytes_length n : length (htonl_bytes n) = 4%nat.
Proof. done. Qed.

Lemma ntohl_bytes_lt b : (length b = 4)%nat → ntohl_bytes b < two32.
Proof.
  intros Hb. destruct b as [|a [|b [|c [|d [|]]]]]; try done. unfold ntohl_bytes.
  cbn [foldl]. pose proof (Byte.to_N_bounded a). pose proof (Byte.to_N_bounded b).
  pose proof (Byte.to_N_bounded c). pose proof (Byte.to_N_bounded d).
  unfold two32. lia.
Qed.

Inductive DecodeStatus := kOk | kNeedMoreData | kInvalidLength | kParseError.

Record DecodeResult := {
  status : DecodeStatus; envelopes : list Envelope; consumed_bytes : N }.

Definition kHeaderLength : N := 4.
Definition kDefaultMaxFrameLength : N := 1024 * 1024.

#[export] Instance DecodeStatus_eq_dec : EqDecision DecodeStatus.
Proof. solve_decision. Defined.

#[export] Instance byte_eq_dec : EqDecision byte := Byte.byte_eq_dec.

(** Length of a byte sequence, as [size_t]. *)
Definition bsize (b : bytes) : N := N.of_nat (length b).

Lemma size_app (a b : bytes) : bsize (a ++ b) = bsize a + bsize b.
Proof. unfold bsize. rewrite length_app. lia. Qed.

Lemma size_drop n (a : bytes) : bsize (drop n a) = bsize a - N.of_nat n.
Proof. unfold bsize. rewrite length_drop. lia. Qed.

Section codec.
Context {P : Protobuf}.

Definition Encode (envelope : Envelope) : bytes :=
  match SerializeToString envelope with
  | None => []
  | Some body => htonl_bytes (u32 (bsize body)) ++ body
  end.

(** The [while (offset < len)] loop: [rest] is the data from [offset] on.
    Every iteration consumes at least the header, so [length rest] bounds
    the number of iterations; [None] only if the fuel runs out. *)
Fixpoint decode_loop (fuel : nat) (max_frame_length : N) (rest : bytes)
    (offset : N) (acc : list Envelope) : option DecodeResult :=
  match fuel with
  | O => None
  | S fuel =>
      let stop st := Some {| status := st; envelopes := acc; consumed_bytes := offset |} in
      let remaining_bytes := bsize rest in
      if remaining_bytes =? 0 then stop kOk
      else if remaining_bytes <? kHeaderLength then stop kNeedMoreData
      else
        let body_length := ntohl_bytes (take 4 rest) in
        if (body_length =? 0) || (max_frame_length <? body_length)
        then stop kInvalidLength
        else
          let frame_length := kHeaderLength + body_length in
          if remaining_bytes <? frame_length then stop kNeedMoreData
          else
            match ParseFromArray (drop 4 rest) (int32 (Z.of_N body_length)) with
            | None => stop kParseError
            | Some envelope =>
                decode_loop fuel max_frame_length
                  (drop (N.to_nat frame_length) rest)
                  (offset + frame_length) (acc ++ [envelope])
            end
  end.

Definition DecodeAll (data : bytes) (max_frame_length : N) : DecodeResult :=
  default {| status := kNeedMoreData; envelopes := []; consumed_bytes := 0 |}
    (decode_loop (S (length data)) max_frame_length data 0 []).

(** ** One iteration of the loop

    [next_frame] is the body of the loop: it either stops with a status or
    yields the envelope of the first frame and the frame's length. *)
Definition next_frame (max : N) (rest : bytes) : DecodeStatus + (Envelope * N) :=
  if bsize rest =? 0 then inl kOk
  else if bsize rest <? kHeaderLength then inl kNeedMoreData
  else
    let n := ntohl_bytes (take 4 rest) in
    if (n =? 0) || (max <? n) then inl kInvalidLength
    else if bsize rest <? kHeaderLength + n then inl kNeedMoreData
    else match ParseFromArray (drop 4 rest) (int32 (Z.of_N n)) with
         | None => inl kParseError
         | Some e => inr (e, kHeaderLength + n)
         end.

Lemma decode_loop_S fuel max rest offset acc :
  decode_loop (S fuel) max rest offset acc =
    match next_frame max rest with
    | inl st => Some {| status := st; envelopes := acc; consumed_bytes := offset |}
    | inr (e, n) => decode_loop fuel max (drop (N.to_nat n) rest) (offset + n) (acc ++ [e])
    end.
Proof. cbn [decode_loop]. unfold next_frame. by repeat case_match; simplify_eq. Qed.

(** A frame is longer than its header and lies within the data. *)
Lemma next_frame_length max rest e n :
  next_frame max rest = inr (e, n) → 4 < n ≤ bsize rest.
Proof.
  unfold next_frame, kHeaderLength. intros H. repeat case_match; simplify_eq.
  apply orb_false_iff in H2 as [Hz _]. apply N.eqb_neq in Hz. apply N.ltb_ge in H3. lia.
Qed.

Lemma next_frame_ok max rest : next_frame max rest = inl kOk → rest = [].
Proof.
  unfold next_frame, bsize. intros H. repeat case_match; simplify_eq.
  apply N.eqb_eq in H0. destruct rest; [done|]. simpl in H0. lia.
Qed.

(** ** What a byte sequence decodes to

    [decodes max rest es st c]: decoding [rest] emits [es], stops with [st]
    and consumes [c] bytes. *)
Inductive decodes (max : N) : bytes → list Envelope → DecodeStatus → N → Prop :=
| decodes_stop rest st :
    next_frame max rest = inl st → decodes max rest [] st 0
| decodes_frame rest e n es st c :
    next_frame max rest = inr (e, n) →
    decodes max (drop (N.to_nat n) rest) es st c →
    decodes max rest (e :: es) st (n + c).

Lemma decodes_total max rest : ∃ es st c, decodes max rest es st c.
Proof.
  induction rest as [rest IH] using (induction_ltof1 _ length); unfold ltof in IH.
  destruct (next_frame max rest) as [st|[e n]] eqn:Hn.
  { eauto using decodes. }
  destruct (IH (drop (N.to_nat n) rest)) as (es & st & c & Hd).
  { apply next_frame_length in Hn. rewrite length_drop. unfold bsize in Hn. lia. }
  eauto using decodes.
Qed.

Lemma decodes_loop max rest es st c fuel offset acc :
  decodes max rest es st c → (length rest < fuel)%nat →
  decode_loop fuel max rest offset acc =
    Some {| status := st; envelopes := acc ++ es; consumed_bytes := offset + c |}.
Proof.
  intros Hd. revert fuel offset acc.
  induction Hd as [rest st Hn|rest e n es st c Hn Hd IH]; intros fuel offset acc Hf;
    (destruct fuel as [|fuel]; [lia|]); rewrite decode_loop_S, Hn.
  - by rewrite app_nil_r, N.add_0_r.
  - apply next_frame_length in Hn. unfold bsize in Hn.
    rewrite IH by (rewrite length_drop; lia).
    by rewrite <-app_assoc, N.add_assoc.
Qed.

Lemma decodes_DecodeAll max data es st c :
  decodes max data es st c →
  DecodeAll data max = {| status := st; envelopes := es; consumed_bytes := c |}.
Proof. intros Hd. unfold DecodeAll. by rewrite (decodes_loop _ _ _ _ _ _ _ _ Hd) by lia. Qed.

Lemma DecodeAll_decodes max data :
  let r := DecodeAll data max in
  decodes max data (envelopes r) (status r) (consumed_bytes r).
Proof.
  destruct (decodes_total max data) as (es & st & c & Hd).
  intros r. unfold r. by rewrite (decodes_DecodeAll _ _ _ _ _ Hd).
Qed.

Lemma decodes_consumed max data es st c : decodes max data es st c → c ≤ bsize data.
Proof.
  induction 1 as [|rest e n es st c Hn Hd IH]; [lia|].
  apply next_frame_length in Hn. unfold bsize in *. rewrite length_drop in IH. lia.
Qed.

Lemma decodes_ok max data es c : decodes max data es kOk c → c = bsize data.
Proof.
  remember kOk as st eqn:Hst.
  induction 1 as [rest st Hn|rest e n es st c Hn Hd IH]; subst.
  - by rewrite (next_frame_ok _ _ Hn).
  - apply next_frame_length in Hn. rewrite IH by done.
    unfold bsize in *. rewrite length_drop. lia.
Qed.
End codec.

(** ** Frames and streams *)
Section codec_laws.
Context {P : Protobuf} {PL : ProtobufLaws P}.
Variable max : N.
(** The length passed to [ParseFromArray] is an [int]. *)
Hypothesis max_int : max < 2147483648.

(** Envelopes whose frame the decoder accepts. *)
Definition frameable (e : Envelope) : Prop :=
  representable e ∧
  ∃ body, SerializeToString e = Some body ∧ body ≠ [] ∧ bsize body ≤ max.

Lemma Encode_eq e body :
  SerializeToString e = Some body → bsize body ≤ max →
  Encode e = htonl_bytes (bsize body) ++ body.
Proof.
  intros Hs Hm. unfold Encode. rewrite Hs. by rewrite u32_small by (unfold two32; lia).
Qed.

(** The header and the comparison with the announced length, spelled out. *)
Lemma next_frame_header h tail :
  length h = 4%nat → 0 < ntohl_bytes h ≤ max →
  next_frame max (h ++ tail) =
    if bsize tail <? ntohl_bytes h then inl kNeedMoreData
    else match ParseFromArray tail (int32 (Z.of_N (ntohl_bytes h))) with
         | None => inl kParseError
         | Some e => inr (e, kHeaderLength + ntohl_bytes h)
         end.
Proof.
  intros Hh Hn. unfold next_frame. rewrite size_app.
  rewrite take_app_le, drop_app_le by lia. rewrite take_ge, drop_ge by lia.
  assert (bsize h = 4) as -> by (unfold bsize; lia). unfold kHeaderLength.
  set (n := ntohl_bytes h) in *. cbn [app].
  destruct (4 + bsize tail =? 0) eqn:E1; [apply N.eqb_eq in E1; lia|].
  destruct (4 + bsize tail <? 4) eqn:E2; [apply N.ltb_lt in E2; lia|].
  destruct (n =? 0) eqn:E3; [apply N.eqb_eq in E3; lia|].
  destruct (max <? n) eqn:E4; [apply N.ltb_lt in E4; lia|]. simpl.
  destruct (4 + bsize tail <? 4 + n) eqn:E5, (bsize tail <? n) eqn:E6; try done;
    rewrite ?N.ltb_lt, ?N.ltb_ge in *; lia.
Qed.

(** A complete frame: header, body, and the parse of the body alone. *)
Lemma next_frame_inr rest e n :
  next_frame max rest = inr (e, n) ↔
  ∃ h body tail, rest = h ++ body ++ tail ∧ length h = 4%nat ∧
    ntohl_bytes h = bsize body ∧ 0 < bsize body ≤ max ∧ n = 4 + bsize body ∧
    ParseFromArray body (Z.of_nat (length body)) = Some e.
Proof.
  split.
  - intros Hf. pose proof (next_frame_length _ _ _ _ Hf) as Hl.
    rewrite <-(take_drop 4 rest) in Hf.
    assert (length (take 4 rest) = 4%nat) as Hh.
    { rewrite length_take. unfold bsize in Hl. lia. }
    set (h := take 4 rest) in *. set (tl := drop 4 rest) in *.
    assert (0 < ntohl_bytes h ≤ max) as Hn.
    { unfold next_frame in Hf. rewrite take_app_le, take_ge in Hf by lia.
      repeat case_match; simplify_eq. rewrite orb_false_iff in *. destruct_and?.
      rewrite ?N.eqb_neq, ?N.ltb_ge in *. lia. }
    rewrite next_frame_header in Hf by done.
    destruct (bsize tl <? ntohl_bytes h) eqn:Et; [done|]. apply N.ltb_ge in Et.
    exists h, (take (N.to_nat (ntohl_bytes h)) tl), (drop (N.to_nat (ntohl_bytes h)) tl).
    assert (bsize (take (N.to_nat (ntohl_bytes h)) tl) = ntohl_bytes h) as Hs.
    { unfold bsize in *. rewrite length_take. lia. }
    rewrite Hs, !take_drop. destruct (ParseFromArray tl _) as [e'|] eqn:Hp; simplify_eq.
    repeat split; [by unfold h, tl; rewrite take_drop|done|lia..|].
    rewrite <-(take_drop (N.to_nat (ntohl_bytes h)) tl), int32_small,
      parse_reads_size in Hp by (unfold bsize in *; lia).
    rewrite <-Hp. f_equal. unfold bsize in *. lia.
  - intros (h & body & tail & -> & Hh & Hn & Hb & -> & Hp).
    rewrite next_frame_header by (rewrite ?Hn; done).
    rewrite Hn, size_app. destruct (_ <? _) eqn:E; [apply N.ltb_lt in E; lia|].
    rewrite int32_small, parse_reads_size by (unfold bsize in *; lia).
    unfold bsize at 1. by rewrite nat_N_Z, Hp.
Qed.

Lemma frameable_Encode e :
  frameable e → ∃ body, Encode e = htonl_bytes (bsize body) ++ body ∧
    0 < bsize body ≤ max ∧ ParseFromArray body (Z.of_nat (length body)) = Some e.
Proof.
  intros (Hr & body & Hs & Hb & Hm). exists body.
  rewrite (Encode_eq _ _ Hs) by done. split; [done|].
  split; [|by apply parse_serialize]. destruct body; [done|]. unfold bsize in *. simpl in *. lia.
Qed.

Lemma next_frame_Encode e tail :
  frameable e → next_frame max (Encode e ++ tail) = inr (e, bsize (Encode e)).
Proof.
  intros (body & -> & Hb & Hp)%frameable_Encode. apply next_frame_inr.
  exists (htonl_bytes (bsize body)), body, tail. rewrite <-app_assoc, size_app.
  repeat split; try done; [|lia..]. apply ntohl_htonl. unfold two32. lia.
Qed.

(** Decoding the frames of [es] leaves exactly what follows them. *)
Lemma decodes_frames es tail es' st c :
  Forall frameable es → decodes max tail es' st c →
  decodes max (concat (Encode <$> es) ++ tail) (es ++ es') st
    (bsize (concat (Encode <$> es)) + c).
Proof.
  intros Hes Ht. induction Hes as [|e es He Hes IH]; [done|].
  cbn [fmap list_fmap concat app]. rewrite size_app, <-N.add_assoc, <-app_assoc.
  apply decodes_frame; [by apply next_frame_Encode|].
  unfold bsize at 1. by rewrite Nat2N.id, drop_app_length.
Qed.

(** A strict, non-empty prefix of a frame asks for more data. *)
Lemma next_frame_partial e k :
  frameable e → (0 < k < length (Encode e))%nat →
  next_frame max (take k (Encode e)) = inl kNeedMoreData.
Proof.
  intros (body & -> & Hb & Hp)%frameable_Encode.
  rewrite length_app, htonl_bytes_length. intros Hk.
  destruct (decide (k < 4)%nat) as [Hk4|Hk4].
  - unfold next_frame. rewrite take_app_le by (rewrite htonl_bytes_length; lia).
    assert (bsize (take k (htonl_bytes (bsize body))) = N.of_nat k) as ->.
    { unfold bsize. rewrite length_take, htonl_bytes_length. lia. }
    destruct (_ =? 0) eqn:E; [apply N.eqb_eq in E; lia|].
    destruct (_ <? _) eqn:E2; [done|apply N.ltb_ge in E2; unfold kHeaderLength in E2; lia].
  - rewrite take_app_ge, htonl_bytes_length by (rewrite htonl_bytes_length; lia).
    assert (ntohl_bytes (htonl_bytes (bsize body)) = bsize body) as Hn
      by (apply ntohl_htonl; unfold two32; lia).
    rewrite next_frame_header by (rewrite ?Hn; done). rewrite Hn.
    destruct (_ <? _) eqn:E; [done|]. apply N.ltb_ge in E.
    unfold bsize in E. rewrite length_take in E. lia.
Qed.

(** ** Streaming *)

(** More bytes change neither a complete frame nor an error. *)
Lemma next_frame_app rest more e n :
  next_frame max rest = inr (e, n) → next_frame max (rest ++ more) = inr (e, n).
Proof.
  rewrite !next_frame_inr. intros (h & body & tail & -> & H).
  exists h, body, (tail ++ more). by rewrite <-!app_assoc.
Qed.

Definition stream_error (st : DecodeStatus) : Prop :=
  st = kInvalidLength ∨ st = kParseError.

Lemma next_frame_app_error rest more st :
  stream_error st → next_frame max rest = inl st → next_frame max (rest ++ more) = inl st.
Proof.
  intros Hst Hf. assert (4 ≤ bsize rest) as Hl.
  { unfold next_frame in Hf. unfold kHeaderLength in *. unfold stream_error in *.
    repeat case_match; simplify_eq; rewrite ?N.ltb_ge in *; try lia;
      destruct Hst; simplify_eq. }
  assert (length (take 4 rest) = 4%nat) as Hh by (rewrite length_take; unfold bsize in Hl; lia).
  rewrite <-(take_drop 4 rest), <-app_assoc. rewrite <-(take_drop 4 rest) in Hf.
  set (h := take 4 rest) in *. set (tl := drop 4 rest) in *.
  destruct (decide (0 < ntohl_bytes h ≤ max)) as [Hn|Hn].
  - rewrite next_frame_header in Hf |- * by done. rewrite size_app.
    destruct (bsize tl <? ntohl_bytes h) eqn:Et; [by destruct Hst; simplify_eq|].
    apply N.ltb_ge in Et.
    destruct (_ <? _) eqn:E2; [apply N.ltb_lt in E2; lia|].
    rewrite int32_small in Hf |- * by lia.
    assert (∀ t, ParseFromArray (tl ++ t) (Z.of_N (ntohl_bytes h)) =
      ParseFromArray (take (N.to_nat (ntohl_bytes h)) tl) (Z.of_N (ntohl_bytes h))) as Hp.
    { intros t. rewrite <-(take_drop (N.to_nat (ntohl_bytes h)) tl) at 1.
      rewrite <-app_assoc. apply parse_reads_size. rewrite length_take. unfold bsize in *. lia. }
    rewrite Hp. specialize (Hp []). rewrite app_nil_r in Hp. by rewrite Hp in Hf.
  - assert (∀ t, next_frame max (h ++ t) = inl kInvalidLength) as Hi.
    { intros t. unfold next_frame. rewrite size_app, take_app_le, take_ge by lia.
      assert (bsize h = 4) as -> by (unfold bsize; lia). unfold kHeaderLength.
      destruct (_ =? 0) eqn:E1; [apply N.eqb_eq in E1; lia|].
      destruct (_ <? 4) eqn:E2; [apply N.ltb_lt in E2; lia|].
      destruct (_ || _) eqn:E3; [done|]. rewrite orb_false_iff in E3.
      rewrite N.eqb_neq, N.ltb_ge in E3. lia. }
    by rewrite Hi in Hf |- *.
Qed.

(** Decoding a stream in two reads, keeping the unconsumed rest between
    them, is decoding it in one. *)
Lemma decodes_app d1 d2 es1 st1 c1 es2 st2 c2 :
  decodes max d1 es1 st1 c1 → ¬ stream_error st1 →
  decodes max (drop (N.to_nat c1) d1 ++ d2) es2 st2 c2 →
  decodes max (d1 ++ d2) (es1 ++ es2) st2 (c1 + c2).
Proof.
  intros H1 Hst. induction H1 as [rest st Hn|rest e n es st c Hn Hd IH]; intros H2.
  - done.
  - cbn [app]. rewrite <-N.add_assoc.
    apply decodes_frame; [by apply next_frame_app|].
    pose proof (next_frame_length _ _ _ _ Hn) as Hl.
    rewrite drop_app_le by (unfold bsize in Hl; lia). apply IH; [done|].
    rewrite drop_drop. by rewrite N2Nat.inj_add in H2.
Qed.

Lemma decodes_app_error d1 d2 es st c :
  decodes max d1 es st c → stream_error st → decodes max (d1 ++ d2) es st c.
Proof.
  intros H Hst. induction H as [rest st Hn|rest e n es st c Hn Hd IH].
  - constructor. by apply next_frame_app_error.
  - apply decodes_frame; [by apply next_frame_app|].
    pose proof (next_frame_length _ _ _ _ Hn) as Hl.
    rewrite drop_app_le by (unfold bsize in Hl; lia). by apply IH.
Qed.
(** ** What a part of a stream decodes to

    Envelopes whose serialisation is shorter than 4 GiB.  Those the decoder
    refuses end the stream. *)
Definition sendable (e : Envelope) : Prop :=
  representable e ∧ ∃ body, SerializeToString e = Some body ∧ bsize body < two32.

Lemma next_frame_sendable e tail :
  sendable e →
  next_frame max (Encode e ++ tail) = inr (e, bsize (Encode e)) ∨
  next_frame max (Encode e ++ tail) = inl kInvalidLength.
Proof.
  intros (Hr & body & Hs & Hlt). destruct (decide (0 < bsize body ≤ max)) as [Hb|Hb].
  - left. apply next_frame_Encode. split; [done|]. exists body. split; [done|].
    split; [|lia]. intros ->. unfold bsize in Hb. cbn in Hb. lia.
  - right. unfold Encode. rewrite Hs, u32_small by done. unfold next_frame, kHeaderLength.
    rewrite <-app_assoc, size_app. change (bsize (htonl_bytes _)) with 4.
    change (take 4 (htonl_bytes (bsize body) ++ body ++ tail)) with (htonl_bytes (bsize body)).
    rewrite ntohl_htonl by done.
    destruct (_ =? 0) eqn:E1; [apply N.eqb_eq in E1; lia|].
    destruct (_ <? 4) eqn:E2; [apply N.ltb_lt in E2; lia|].
    destruct (_ || _) eqn:E3; [done|]. rewrite orb_false_iff, N.eqb_neq, N.ltb_ge in E3. lia.
Qed.

(** A part of a frame is not a frame. *)
Lemma next_frame_part e d :
  sendable e → d `prefix_of` Encode e → d ≠ Encode e → ∃ st, next_frame max d = inl st.
Proof.
  intros He [tail Hd] Hne. destruct (next_frame max d) as [st|[e' n]] eqn:Hf; [by exists st|].
  pose proof (next_frame_app d tail e' n Hf) as Ht. rewrite <-Hd, <-(app_nil_r (Encode e)) in Ht.
  destruct (next_frame_sendable e [] He) as [H|H]; rewrite H in Ht; [|done].
  injection Ht as _ Hn. apply next_frame_length in Hf. rewrite <-Hn, Hd, size_app in Hf.
  destruct tail; [by rewrite app_nil_r in Hd|]. unfold bsize in Hf. cbn in Hf. lia.
Qed.

Lemma decodes_prefix es d :
  Forall sendable es → d `prefix_of` concat (Encode <$> es) →
  envelopes (DecodeAll d max) `prefix_of` es.
Proof.
  intros Hes. assert (∀ es', es' `prefix_of` es →
    ∀ st c, decodes max d es' st c → envelopes (DecodeAll d max) `prefix_of` es) as Hwrap
    by (intros es' Hp st c Hd; by rewrite (decodes_DecodeAll _ _ _ _ _ Hd)).
  intros Hd. enough (∃ es' st c, es' `prefix_of` es ∧ decodes max d es' st c) as (es' & st & c & ? & ?)
    by eauto. clear Hwrap. revert d Hd. induction Hes as [|e es He Hes IH]; intros d Hd.
  - cbn in Hd. apply prefix_nil_inv in Hd as ->. exists [], kOk, 0. split; [done|]. by constructor.
  - cbn [fmap list_fmap concat] in Hd. apply prefix_app_cases in Hd as [[Hp Hne]|(d' & -> & Hd')].
    + destruct (next_frame_part e d He Hp Hne) as [st Hf]. exists [], st, 0.
      split; [apply prefix_nil|by constructor].
    + destruct (next_frame_sendable e d' He) as [Hf|Hf].
      * destruct (IH d' Hd') as (es' & st & c & Hes' & Hdec). exists (e :: es'), st, (bsize (Encode e) + c).
        split; [by apply prefix_cons|]. apply decodes_frame; [done|].
        unfold bsize at 1. by rewrite Nat2N.id, drop_app_length.
      * exists [], kInvalidLength, 0. split; [apply prefix_nil|by constructor].
Qed.
End codec_laws.

#[global] Arguments DecodeAll : simpl never.

(** ** Properties *)
Section properties.
Context {P : Protobuf}.

(** The decoding loop ends: with one unit of fuel more than there are
    bytes it always produces a result (each iteration consumes a frame of
    at least five bytes), so [DecodeAll] never falls back to its default. *)
Theorem decode_loop_terminates max data :
  ∃ r, decode_loop (S (length data)) max data 0 [] = Some r ∧ DecodeAll data max = r ∧
    consumed_bytes r ≤ bsize data ∧ (status r = kOk → consumed_bytes r = bsize data).
Proof.
  destruct (decodes_total max data) as (es & st & c & Hd).
  exists {| status := st; envelopes := es; consumed_bytes := c |}.
  rewrite (decodes_DecodeAll _ _ _ _ _ Hd), (decodes_loop _ _ _ _ _ _ _ _ Hd) by lia.
  repeat split; [by eapply decodes_consumed|].
  cbn. intros ->. by eapply decodes_ok.
Qed.

Context {PL : ProtobufLaws P}.

(** Frames and the beginning of another. *)
Lemma DecodeAll_stream max es e k :
  max < 2147483648 → Forall (frameable max) es → frameable max e →
  (k < length (Encode e))%nat →
  DecodeAll (concat (Encode <$> es) ++ take k (Encode e)) max =
    {| status := if decide (k = 0)%nat then kOk else kNeedMoreData;
       envelopes := es; consumed_bytes := bsize (concat (Encode <$> es)) |}.
Proof.
  intros Hm Hes He Hk. apply decodes_DecodeAll.
  rewrite <-(app_nil_r es) at 2. rewrite <-(N.add_0_r (bsize _)).
  apply decodes_frames; [done..|]. constructor. case_decide as H0; [by subst|].
  apply next_frame_partial; [done..|lia].
Qed.

(** C29. Round trip over a byte stream: decoding the concatenated frames of
    any envelopes the decoder accepts, followed by an incomplete frame
    ([k = 0]: by nothing), returns exactly these envelopes in order,
    consumes exactly their frames and reports the half frame. *)
Theorem decode_encode_stream max es e k :
  max < 2147483648 → Forall (frameable max) es → frameable max e →
  (k < length (Encode e))%nat →
  DecodeAll (concat (Encode <$> es) ++ take k (Encode e)) max =
    {| status := if decide (k = 0)%nat then kOk else kNeedMoreData;
       envelopes := es; consumed_bytes := bsize (concat (Encode <$> es)) |}.
Proof.
  apply DecodeAll_stream.
Qed.

(** Reading a stream in two pieces, with the unconsumed rest of the
    first kept in front of the second, decodes the same envelopes, status
    and byte count as reading it at once; an error met in the first piece
    is the error of the whole. *)
Theorem DecodeAll_split max d1 d2 :
  max < 2147483648 →
  let r1 := DecodeAll d1 max in
  let r2 := DecodeAll (drop (N.to_nat (consumed_bytes r1)) d1 ++ d2) max in
  let r := DecodeAll (d1 ++ d2) max in
  if decide (status r1 = kInvalidLength ∨ status r1 = kParseError) then r = r1
  else r = {| status := status r2; envelopes := envelopes r1 ++ envelopes r2;
              consumed_bytes := consumed_bytes r1 + consumed_bytes r2 |}.
Proof.
  intros Hm r1 r2 r. pose proof (DecodeAll_decodes max d1) as H1. fold r1 in H1.
  pose proof (DecodeAll_decodes max (drop (N.to_nat (consumed_bytes r1)) d1 ++ d2)) as H2.
  fold r2 in H2. cbv zeta in H1, H2. case_decide as Hst; unfold r.
  - rewrite (decodes_DecodeAll _ _ _ _ _ (decodes_app_error _ Hm _ d2 _ _ _ H1 Hst)).
    unfold r1. by destruct (DecodeAll d1 max).
  - by rewrite (decodes_DecodeAll _ _ _ _ _ (decodes_app _ Hm _ _ _ _ _ _ _ _ H1 Hst H2)).
Qed.

(** C33. [Encode] does not bound what it frames: a body that is empty (the
    serialisation of an all-default envelope) or longer than the receiver's
    maximum is framed without error, and the receiver answers
    [kInvalidLength] with nothing consumed. *)
Theorem Encode_rejected max e body :
  SerializeToString e = Some body → bsize body < two32 →
  bsize body = 0 ∨ max < bsize body →
  Encode e ≠ [] ∧ DecodeAll (Encode e) max =
    {| status := kInvalidLength; envelopes := []; consumed_bytes := 0 |}.
Proof.
  intros Hs H32 Hb. unfold Encode. rewrite Hs, u32_small by done. split; [done|].
  apply decodes_DecodeAll. constructor. unfold next_frame, kHeaderLength.
  rewrite size_app. change (bsize (htonl_bytes _)) with 4.
  change (take 4 (htonl_bytes (bsize body) ++ body)) with (htonl_bytes (bsize body)).
  rewrite ntohl_htonl by done.
  destruct (_ =? 0) eqn:E1; [apply N.eqb_eq in E1; lia|].
  destruct (_ <? 4) eqn:E2; [apply N.ltb_lt in E2; lia|].
  destruct (_ || _) eqn:E3; [done|].
  apply orb_false_iff in E3 as [E3%N.eqb_neq E4%N.ltb_ge]. lia.
Qed.
End properties.

(** ** Concrete instances *)

Definition example_chat : Envelope :=
  EnvelopeFactory.CreateChatRequest 5 7 1 2 "hi" "c".

Lemma example_frameable e max :
  e ≠ default_Envelope → bsize (Encode e) ≤ max → frameable max e.
Proof.
  intros He Hm. split; [done|]. eexists. split; [reflexivity|].
  rewrite decide_False by done. split; [apply pos_to_bytes_nonempty|].
  unfold Encode in Hm. simpl in Hm. rewrite decide_False in Hm by done.
  change (x00 :: x00 :: x00 :: x00 :: []) with (htonl_bytes 0) in Hm.
  unfold bsize in *. simpl in Hm. lia.
Qed.

Lemma small_sendable e : bsize (Encode e) < two32 → sendable e.
Proof.
  intros Hb. split; [done|]. eexists. split; [reflexivity|]. unfold Encode in Hb. cbn [SerializeToString] in Hb.
  cbn [SerializeToString bits_protobuf] in Hb. rewrite size_app in Hb. lia.
Qed.

Lemma decode_encode_stream_witness :
  DecodeAll (concat (Encode <$> [example_chat]) ++ take 3 (Encode example_chat)) 4096 =
    {| status := kNeedMoreData; envelopes := [example_chat];
       consumed_bytes := bsize (concat (Encode <$> [example_chat])) |}.
Proof.
  assert (frameable 4096 example_chat) as He
    by (apply example_frameable; vm_compute; congruence).
  apply (decode_encode_stream 4096 [example_chat] example_chat 3);
    [lia|by apply Forall_singleton|done|vm_compute; lia].
Defined.

Lemma DecodeAll_split_witness :
  let d1 := Encode example_chat ++ take 2 (Encode example_chat) in
  let d2 := drop 2 (Encode example_chat) in
  envelopes (DecodeAll (d1 ++ d2) 4096) = [example_chat; example_chat].
Proof.
  intros d1 d2. assert (4096 < 2147483648) as Hm by lia.
  pose proof (DecodeAll_split 4096 d1 d2 Hm) as H. vm_compute in H |- *.
  exact (f_equal envelopes H).
Defined.

Lemma Encode_rejected_witness :
  DecodeAll (Encode default_Envelope) kDefaultMaxFrameLength =
    {| status := kInvalidLength; envelopes := []; consumed_bytes := 0 |}.
Proof.
  apply (Encode_rejected kDefaultMaxFrameLength default_Envelope []);
    [reflexivity|reflexivity|by left].
Defined.
