(* ===== verification/CodecTests.v ===== *)
(** * The codec tests (tests/codec_test.cpp)

    The test driver as a function of the codec and of the generated
    serialisation code, with what it prints. *)

From S2P Require Import Prelude Decimal Message WireInstance Codec.
Local Open Scope N_scope.

(** A test returns its verdict and what it has printed; [&&] stops at the first
    failure. *)
Definition test : Type := bool * list string.

Definition Expect (condition : bool) (msg : string) : test :=
  if condition then (true, []) else (false, ["FAILED: " +:+ msg]).

Definition both (a b : test) : test := if a.1 then (b.1, a.2 ++ b.2) else a.

Notation "a '&&&' b" := (both a b) (at level 40, left associativity).

Definition MakeEnvelope (seq : N) (content : string) : Envelope :=
  {| env_type := CHAT_REQ; env_seq := seq; env_timestamp_ms := 123456;
     env_payload := kChatReq {| chat_req_from_uid := 1; chat_req_to_uid := 2;
       chat_req_content := content; chat_req_client_msg_id := "client-message-1" |} |}.

Section tests.
Context {P : Protobuf}.

(** [result.envelopes[i]], for an index within bounds. *)
Definition envelope_at (i : nat) (r : DecodeResult) : Envelope := default default_Envelope (envelopes r !! i).

Definition count (r : DecodeResult) : nat := length (envelopes r).

Definition TestSingleFrame : test :=
  let frame := Encode (MakeEnvelope 7 "hello") in
  let result := DecodeAll frame kDefaultMaxFrameLength in
  Expect (negb (bool_decide (frame = []))) "encoded frame should not be empty"
  &&& Expect (bool_decide (status result = kOk)) "single frame should decode completely"
  &&& Expect (consumed_bytes result =? bsize frame) "single frame should be fully consumed"
  &&& Expect (count result =? 1)%nat "single frame should contain one envelope"
  &&& Expect (env_seq (envelope_at 0 result) =? 7) "decoded sequence should match"
  &&& Expect (String.eqb (chat_req_content (chat_req (envelope_at 0 result))) "hello")
        "decoded content should match".

Definition TestPartialFrame : test :=
  let frame := Encode (MakeEnvelope 8 "partial") in
  let result := DecodeAll (take (length frame - 1) frame) kDefaultMaxFrameLength in
  Expect (bool_decide (status result = kNeedMoreData)) "partial frame should request more data"
  &&& Expect (consumed_bytes result =? 0) "partial frame should not be consumed"
  &&& Expect (bool_decide (envelopes result = [])) "partial frame should not emit an envelope".

Definition TestMultipleFrames : test :=
  let first := Encode (MakeEnvelope 9 "first") in
  let second := Encode (MakeEnvelope 10 "second") in
  let data := first ++ second in
  let result := DecodeAll data kDefaultMaxFrameLength in
  Expect (bool_decide (status result = kOk)) "combined frames should decode completely"
  &&& Expect (consumed_bytes result =? bsize data) "combined frames should be fully consumed"
  &&& Expect (count result =? 2)%nat "combined frames should emit two envelopes"
  &&& Expect ((env_seq (envelope_at 0 result) =? 9) && (env_seq (envelope_at 1 result) =? 10))
        "combined frames should preserve order".

Definition TestCompleteAndPartialFrames : test :=
  let first := Encode (MakeEnvelope 11 "complete") in
  let second := Encode (MakeEnvelope 12 "partial") in
  let data := first ++ take (length second - 1) second in
  let result := DecodeAll data kDefaultMaxFrameLength in
  Expect (bool_decide (status result = kNeedMoreData)) "trailing partial frame should request more data"
  &&& Expect (consumed_bytes result =? bsize first) "only the complete frame should be consumed"
  &&& Expect ((count result =? 1)%nat && (env_seq (envelope_at 0 result) =? 11))
        "the complete frame should still be emitted".

Definition TestInvalidLength : test :=
  let data := htonl_bytes 0 in
  let result := DecodeAll data kDefaultMaxFrameLength in
  Expect (bool_decide (status result = kInvalidLength)) "zero length should be rejected"
  &&& Expect (consumed_bytes result =? 0) "invalid frame should not be consumed".

(** [main]: the exit code and what it has printed. *)
Definition main_codec_test : N * list string :=
  let t := TestSingleFrame &&& TestPartialFrame &&& TestMultipleFrames
    &&& TestCompleteAndPartialFrames &&& TestInvalidLength in
  if t.1 then (0, t.2 ++ ["codec tests passed"]) else (1, t.2).

Definition test_envelopes : list Envelope :=
  [MakeEnvelope 7 "hello"; MakeEnvelope 8 "partial"; MakeEnvelope 9 "first"; MakeEnvelope 10 "second";
   MakeEnvelope 11 "complete"; MakeEnvelope 12 "partial"].
End tests.

(** ** The tests pass *)
Section passes.
Context {P : Protobuf} {PL : ProtobufLaws P}.

Lemma Expect_true c msg : c = true → Expect c msg = (true, []).
Proof. by intros ->. Qed.

Lemma kMax_int : kDefaultMaxFrameLength < 2147483648.
Proof. done. Qed.

Lemma DecodeAll_all es e :
  Forall (frameable kDefaultMaxFrameLength) (es ++ [e]) →
  DecodeAll (concat (Encode <$> es)) kDefaultMaxFrameLength =
    {| status := kOk; envelopes := es; consumed_bytes := bsize (concat (Encode <$> es)) |}.
Proof.
  intros [Hes He]%Forall_app. rewrite Forall_singleton in He.
  pose proof (DecodeAll_stream kDefaultMaxFrameLength es e 0 kMax_int Hes He) as H.
  rewrite take_0, app_nil_r, decide_True in H by done. apply H.
  destruct (frameable_Encode _ kMax_int _ He) as (body & -> & _). cbn. lia.
Qed.

Lemma DecodeAll_all_but_one es e :
  Forall (frameable kDefaultMaxFrameLength) (es ++ [e]) →
  DecodeAll (concat (Encode <$> es) ++ take (length (Encode e) - 1) (Encode e)) kDefaultMaxFrameLength =
    {| status := kNeedMoreData; envelopes := es; consumed_bytes := bsize (concat (Encode <$> es)) |}.
Proof.
  intros [Hes He]%Forall_app. rewrite Forall_singleton in He.
  assert (5 <= length (Encode e))%nat as Hlen.
  { destruct (frameable_Encode _ kMax_int _ He) as (body & -> & Hb & _).
    rewrite length_app, htonl_bytes_length. unfold bsize in Hb. lia. }
  rewrite (DecodeAll_stream kDefaultMaxFrameLength es e (length (Encode e) - 1) kMax_int Hes He) by lia.
  by rewrite decide_False by lia.
Qed.

(** The tests pass with any serialisation code that keeps its laws and under
    which the six test messages have bodies the decoder accepts. *)
Theorem codec_tests_pass :
  Forall (frameable kDefaultMaxFrameLength) test_envelopes →
  main_codec_test = (0, ["codec tests passed"]).
Proof.
  unfold test_envelopes. rewrite !Forall_cons. intros (H7 & H8 & H9 & H10 & H11 & H12 & _).
  assert (Encode (MakeEnvelope 7 "hello") ≠ []) as Hne
    by (by destruct (frameable_Encode _ kMax_int _ H7) as (body & -> & _)).
  assert (TestSingleFrame = (true, [])) as Ht1.
  { pose proof (DecodeAll_all [MakeEnvelope 7 "hello"] (MakeEnvelope 8 "partial")) as Hd.
    cbn [fmap list_fmap concat app] in Hd. rewrite app_nil_r in Hd.
    unfold TestSingleFrame. rewrite Hd by (rewrite ?Forall_cons, ?Forall_nil; tauto). rewrite bool_decide_false by done.
    cbn -[Encode bsize]. by rewrite N.eqb_refl. }
  assert (TestPartialFrame = (true, [])) as Ht2.
  { pose proof (DecodeAll_all_but_one [] (MakeEnvelope 8 "partial")) as Hd. cbn [fmap list_fmap concat app] in Hd.
    unfold TestPartialFrame. by rewrite Hd by (rewrite ?Forall_cons, ?Forall_nil; tauto). }
  assert (TestMultipleFrames = (true, [])) as Ht3.
  { pose proof (DecodeAll_all [MakeEnvelope 9 "first"; MakeEnvelope 10 "second"] (MakeEnvelope 8 "partial")) as Hd.
    cbn [fmap list_fmap concat app] in Hd. rewrite app_nil_r in Hd.
    unfold TestMultipleFrames. rewrite Hd by (rewrite ?Forall_cons, ?Forall_nil; tauto).
    cbn -[Encode bsize]. by rewrite N.eqb_refl. }
  assert (TestCompleteAndPartialFrames = (true, [])) as Ht4.
  { pose proof (DecodeAll_all_but_one [MakeEnvelope 11 "complete"] (MakeEnvelope 12 "partial")) as Hd.
    cbn [fmap list_fmap concat app] in Hd. rewrite app_nil_r in Hd.
    unfold TestCompleteAndPartialFrames. rewrite Hd by (rewrite ?Forall_cons, ?Forall_nil; tauto).
    cbn -[Encode bsize]. by rewrite N.eqb_refl. }
  unfold main_codec_test. rewrite Ht1, Ht2, Ht3, Ht4. reflexivity.
Qed.
End passes.

Lemma codec_tests_pass_witness : main_codec_test (P := bits_protobuf) = (0, ["codec tests passed"]).
Proof.
  apply codec_tests_pass. unfold test_envelopes.
  rewrite !Forall_cons, Forall_nil. split_and!; try done; apply example_frameable; done || (vm_compute; congruence).
Defined.
