(* ===== verification/UserState.v ===== *)
(** * UserStateService (server/src/UserStateService.cpp)

    The on-line table: which connection a user is bound to and which user a
    connection has authenticated as.  Every method runs under [mutex_], so
    each is one atomic function on the state. *)

From S2P Require Import Prelude.
Local Open Scope N_scope.

(** A connection is named by its [TcpConnection*]; a [TcpConnectionPtr] is a
    connection or the null pointer. *)
Abbreviation Conn := N (only parsing).
Abbreviation TcpConnectionPtr := (option N) (only parsing).

Inductive UserConnectionState := Connected | Authenticated.

#[export] Instance UserConnectionState_eq_dec : EqDecision UserConnectionState.
Proof. solve_decision. Defined.

Record UserState := {
  uid : N; conn : TcpConnectionPtr; state : UserConnectionState; last_active_ms : N }.

Definition default_UserState : UserState :=
  {| uid := 0; conn := None; state := Connected; last_active_ms := 0 |}.

Record UserStateService := {
  conn_states_ : gmap Conn UserState;
  uid_to_conn_ : gmap N TcpConnectionPtr }.

Definition empty_service : UserStateService :=
  {| conn_states_ := ∅; uid_to_conn_ := ∅ |}.

(** [conn_states_[p]]: a missing entry is default-constructed. *)
Definition conn_state_or_default (s : UserStateService) (c : Conn) : UserState :=
  default default_UserState (conn_states_ s !! c).

(** Erase [uid -> conn] if the index still names [c]. *)
Definition erase_online (c : Conn) (u : N) (m : gmap N TcpConnectionPtr)
    : gmap N TcpConnectionPtr :=
  if u =? 0 then m
  else match m !! u with
       | Some p => if decide (p = Some c) then delete u m else m
       | None => m
       end.

(** [now] is the result of [nowMs()]. *)
Definition addConnection (now : N) (p : TcpConnectionPtr) (s : UserStateService)
    : UserStateService :=
  match p with
  | None => s
  | Some c =>
      let st := conn_state_or_default s c in
      {| conn_states_ := <[c := {| uid := uid st; conn := p; state := state st;
                                   last_active_ms := now |}]> (conn_states_ s);
         uid_to_conn_ := uid_to_conn_ s |}
  end.

Definition removeConnection (p : TcpConnectionPtr) (s : UserStateService)
    : UserStateService :=
  match p with
  | None => s
  | Some c =>
      match conn_states_ s !! c with
      | None => s
      | Some st =>
          {| conn_states_ := delete c (conn_states_ s);
             uid_to_conn_ := erase_online c (uid st) (uid_to_conn_ s) |}
      end
  end.

(** The old connection of a user falls back to [Connected]. *)
Definition demote (st : UserState) : UserState :=
  {| uid := 0; conn := conn st; state := Connected; last_active_ms := last_active_ms st |}.

Definition demote_existing (c : Conn) (existing : option TcpConnectionPtr)
    (m : gmap Conn UserState) : gmap Conn UserState :=
  match existing with
  | Some (Some c') => if decide (c' = c) then m else alter demote c' m
  | _ => m
  end.

Definition bindUser (now : N) (p : TcpConnectionPtr) (u : N) (s : UserStateService)
    : UserStateService * bool :=
  match p with
  | None => (s, false)
  | Some c =>
      if u =? 0 then (s, false)
      else
        let st := conn_state_or_default s c in
        let online := erase_online c (uid st) (uid_to_conn_ s) in
        let states := demote_existing c (online !! u) (conn_states_ s) in
        ({| conn_states_ := <[c := {| uid := u; conn := p; state := Authenticated;
                                      last_active_ms := now |}]> states;
            uid_to_conn_ := <[u := p]> online |}, true)
  end.

Definition getUidByConn (p : TcpConnectionPtr) (s : UserStateService) : N :=
  match p with
  | None => 0
  | Some c =>
      match conn_states_ s !! c with
      | None => 0
      | Some st => if decide (state st = Authenticated) then uid st else 0
      end
  end.

Definition getConnByUid (u : N) (s : UserStateService) : TcpConnectionPtr :=
  match uid_to_conn_ s !! u with None => None | Some p => p end.

Definition isAuthenticated (p : TcpConnectionPtr) (s : UserStateService) : bool :=
  negb (getUidByConn p s =? 0).

Definition getState (p : TcpConnectionPtr) (s : UserStateService) : UserConnectionState :=
  match p with
  | None => Connected
  | Some c => match conn_states_ s !! c with None => Connected | Some st => state st end
  end.

Definition updateHeartbeat (now : N) (p : TcpConnectionPtr) (s : UserStateService)
    : UserStateService :=
  match p with
  | None => s
  | Some c =>
      match conn_states_ s !! c with
      | None => s
      | Some st =>
          {| conn_states_ := <[c := {| uid := uid st; conn := conn st; state := state st;
                                       last_active_ms := now |}]> (conn_states_ s);
             uid_to_conn_ := uid_to_conn_ s |}
      end
  end.

(** ** Invariant

    A user is indexed exactly by the connection that is authenticated as it. *)
Record users_wf (s : UserStateService) : Prop := {
  wf_online : ∀ u p, uid_to_conn_ s !! u = Some p →
    u ≠ 0 ∧ ∃ c st, p = Some c ∧ conn_states_ s !! c = Some st ∧ uid st = u;
  wf_conn : ∀ c st, conn_states_ s !! c = Some st → conn st = Some c;
  wf_auth : ∀ c st, conn_states_ s !! c = Some st → uid st ≠ 0 →
    state st = Authenticated ∧ uid_to_conn_ s !! uid st = Some (Some c);
  wf_anon : ∀ c st, conn_states_ s !! c = Some st → uid st = 0 → state st = Connected }.

Lemma users_wf_empty : users_wf empty_service.
Proof. by constructor. Qed.

Lemma erase_online_lookup s c v :
  users_wf s →
  erase_online c (uid (conn_state_or_default s c)) (uid_to_conn_ s) !! v =
    if decide (uid_to_conn_ s !! v = Some (Some c)) then None else uid_to_conn_ s !! v.
Proof.
  intros Hwf. unfold erase_online, conn_state_or_default.
  assert (∀ v, uid_to_conn_ s !! v = Some (Some c) →
    ∃ st, conn_states_ s !! c = Some st ∧ uid st = v ∧ v ≠ 0) as Hon.
  { intros v' Hv'. apply (wf_online _ Hwf) in Hv' as (? & c' & st & [= <-] & ? & ?). eauto. }
  destruct (conn_states_ s !! c) as [st|] eqn:Hc; simpl.
  - destruct (uid st =? 0) eqn:H0.
    + apply N.eqb_eq in H0. case_decide as Hv; [|done].
      destruct (Hon _ Hv) as (st' & ? & ? & ?). simplify_eq.
    + apply N.eqb_neq in H0. destruct (wf_auth _ Hwf _ _ Hc H0) as [_ Hu]. rewrite Hu.
      rewrite decide_True by done. destruct (decide (uid st = v)) as [<-|Hne].
      * by rewrite lookup_delete_eq, decide_True.
      * rewrite lookup_delete_ne by done. case_decide as Hv; [|done].
        destruct (Hon _ Hv) as (st' & ? & ? & ?). simplify_eq.
  - case_decide as Hv; [|done]. by destruct (Hon _ Hv) as (? & ? & _).
Qed.

Lemma removeConnection_wf p s : users_wf s → users_wf (removeConnection p s).
Proof.
  intros Hwf. destruct p as [c|]; [|done]. simpl.
  destruct (conn_states_ s !! c) as [st|] eqn:Hc; [|done].
  assert (uid st = uid (conn_state_or_default s c)) as Hu
    by (unfold conn_state_or_default; by rewrite Hc).
  rewrite Hu. constructor; simpl.
  - intros u p. rewrite erase_online_lookup by done. case_decide as Hne; [done|].
    intros Hp. destruct (wf_online _ Hwf _ _ Hp) as (? & c' & st' & -> & ? & ?).
    split; [done|]. exists c', st'. by rewrite lookup_delete_ne by congruence.
  - intros c' st' [_ ?]%lookup_delete_Some. by eapply wf_conn.
  - intros c' st' [Hne Hc']%lookup_delete_Some Hu'.
    destruct (wf_auth _ Hwf _ _ Hc' Hu') as [? Ho]. split; [done|].
    rewrite erase_online_lookup by done. rewrite decide_False by congruence. done.
  - intros c' st' [_ ?]%lookup_delete_Some. by eapply wf_anon.
Qed.

(** Lookups in the state [bindUser] leaves. *)
Lemma bindUser_online now c u s v :
  users_wf s → u ≠ 0 →
  uid_to_conn_ (bindUser now (Some c) u s).1 !! v =
    if decide (v = u) then Some (Some c)
    else if decide (uid_to_conn_ s !! v = Some (Some c)) then None
    else uid_to_conn_ s !! v.
Proof.
  intros Hwf Hu. apply N.eqb_neq in Hu. simpl. rewrite Hu. simpl.
  rewrite lookup_insert. destruct (decide (u = v)) as [->|Hne].
  - by rewrite decide_True.
  - rewrite decide_False by done. by apply erase_online_lookup.
Qed.

Lemma bindUser_states now c u s c' :
  users_wf s → u ≠ 0 →
  conn_states_ (bindUser now (Some c) u s).1 !! c' =
    if decide (c' = c) then
      Some {| uid := u; conn := Some c; state := Authenticated; last_active_ms := now |}
    else if decide (uid_to_conn_ s !! u = Some (Some c')) then
      demote <$> conn_states_ s !! c'
    else conn_states_ s !! c'.
Proof.
  intros Hwf Hu. pose proof (erase_online_lookup s c u Hwf) as He.
  apply N.eqb_neq in Hu. simpl. rewrite Hu. simpl. rewrite He, lookup_insert.
  destruct (decide (c = c')) as [->|Hne]; [by destruct (decide (c' = c'))|].
  destruct (decide (c' = c)) as [?|_]; [congruence|]. unfold demote_existing.
  destruct (uid_to_conn_ s !! u) as [[d|]|] eqn:Ho.
  - destruct (decide (Some (Some d) = Some (Some c))) as [Hd|Hd].
    + rewrite decide_False by congruence. done.
    + rewrite decide_False by congruence. rewrite lookup_alter.
      repeat case_decide; simplify_eq; done.
  - by rewrite !decide_False by congruence.
  - by rewrite !decide_False by congruence.
Qed.

Lemma bindUser_wf now p u s : users_wf s → users_wf (bindUser now p u s).1.
Proof.
  intros Hwf. destruct p as [c|]; [|done].
  destruct (decide (u = 0)) as [->|Hu]; [done|].
  pose proof (bindUser_online now c u s) as Hon.
  pose proof (bindUser_states now c u s) as Hst.
  set (s' := (bindUser now (Some c) u s).1) in *. constructor.
  - intros v p. rewrite Hon by done. case_decide as Hv; [|case_decide as Hv'; [done|]].
    + intros [= <-]. subst v. split; [done|]. eexists c, _. split; [done|].
      by rewrite Hst, decide_True by done.
    + intros Hp. destruct (wf_online _ Hwf _ _ Hp) as (? & d & st & -> & Hd & Hud).
      split; [done|]. exists d, st. split; [done|]. rewrite Hst by done.
      rewrite decide_False by congruence. rewrite decide_False; [done|].
      intros Hx. destruct (wf_online _ Hwf _ _ Hx) as (_ & ? & ? & ? & ? & ?). congruence.
  - intros d st. rewrite Hst by done. case_decide as Hd; [intros [= <-]; by subst|].
    case_decide as Hx; [|by eapply wf_conn].
    destruct (conn_states_ s !! d) as [st0|] eqn:E; intros [= <-]. by eapply wf_conn in E.
  - intros d st. rewrite Hst by done. rewrite Hon by done.
    case_decide as Hd; [intros [= <-]; simpl; by rewrite decide_True by done; subst|].
    case_decide as Hx; [destruct (conn_states_ s !! d); intros [= <-]; done|].
    intros Hl Hn. destruct (wf_auth _ Hwf _ _ Hl Hn) as [? Ho]. split; [done|].
    rewrite decide_False by congruence. rewrite decide_False by congruence. done.
  - intros d st. rewrite Hst by done. case_decide as Hd; [by intros [= <-]|].
    case_decide as Hx; [destruct (conn_states_ s !! d); by intros [= <-]|].
    by apply wf_anon.
Qed.

(** Operations that touch neither binding nor state of any connection. *)
Lemma touch_wf s c st now :
  users_wf s → conn_states_ s !! c = Some st →
  users_wf {| conn_states_ := <[c := {| uid := uid st; conn := Some c; state := state st;
                                        last_active_ms := now |}]> (conn_states_ s);
              uid_to_conn_ := uid_to_conn_ s |}.
Proof.
  intros Hwf Hc. constructor; simpl.
  - intros u p Hp. destruct (wf_online _ Hwf _ _ Hp) as (? & d & st' & -> & ? & ?).
    split; [done|]. destruct (decide (c = d)) as [->|].
    + eexists d, _. rewrite lookup_insert_eq. by simplify_eq.
    + exists d, st'. by rewrite lookup_insert_ne.
  - intros d st' [[<- <-]|[_ ?]]%lookup_insert_Some; [done|by eapply wf_conn].
  - intros d st' [[<- <-]|[_ ?]]%lookup_insert_Some; simpl; by apply wf_auth.
  - intros d st' [[<- <-]|[_ ?]]%lookup_insert_Some; simpl; by eapply wf_anon.
Qed.

Lemma updateHeartbeat_wf now p s : users_wf s → users_wf (updateHeartbeat now p s).
Proof.
  intros Hwf. destruct p as [c|]; [|done]. simpl.
  destruct (conn_states_ s !! c) as [st|] eqn:Hc; [|done].
  rewrite (wf_conn _ Hwf _ _ Hc). by apply touch_wf.
Qed.

Lemma addConnection_wf now p s : users_wf s → users_wf (addConnection now p s).
Proof.
  intros Hwf. destruct p as [c|]; [|done]. simpl. unfold conn_state_or_default.
  destruct (conn_states_ s !! c) as [st|] eqn:Hc; simpl; [by apply touch_wf|].
  constructor; simpl.
  - intros u p Hp. destruct (wf_online _ Hwf _ _ Hp) as (? & d & st' & -> & ? & ?).
    split; [done|]. exists d, st'. rewrite lookup_insert_ne by congruence. done.
  - intros d st' [[<- <-]|[_ ?]]%lookup_insert_Some; [done|by eapply wf_conn].
  - intros d st' [[<- <-]|[_ ?]]%lookup_insert_Some; simpl; [done|by apply wf_auth].
  - intros d st' [[<- <-]|[_ ?]]%lookup_insert_Some; simpl; [done|by eapply wf_anon].
Qed.

#[export] Hint Resolve users_wf_empty removeConnection_wf bindUser_wf updateHeartbeat_wf
  addConnection_wf : rmd.

(** ** The service as a state machine *)

Inductive users_op :=
  | OpAdd (now : N) (p : TcpConnectionPtr) | OpRemove (p : TcpConnectionPtr)
  | OpBind (now : N) (p : TcpConnectionPtr) (u : N)
  | OpHeartbeat (now : N) (p : TcpConnectionPtr).

Definition users_apply (s : UserStateService) (o : users_op) : UserStateService :=
  match o with
  | OpAdd now p => addConnection now p s
  | OpRemove p => removeConnection p s
  | OpBind now p u => (bindUser now p u s).1
  | OpHeartbeat now p => updateHeartbeat now p s
  end.

Lemma users_apply_wf s o : users_wf s → users_wf (users_apply s o).
Proof. destruct o; simpl; auto with rmd. Qed.

(** [getUidByConn] and [getConnByUid] are inverse of each other. *)
Lemma users_inverse s c u :
  users_wf s → u ≠ 0 →
  getUidByConn (Some c) s = u ↔ getConnByUid u s = Some c.
Proof.
  intros Hwf Hu. simpl. unfold getConnByUid. split.
  - destruct (conn_states_ s !! c) as [st|] eqn:Hc; [|done].
    case_decide; [|done]. intros <-. by destruct (wf_auth _ Hwf _ _ Hc Hu) as [_ ->].
  - destruct (uid_to_conn_ s !! u) as [p|] eqn:Hp; [|done]. intros ->.
    destruct (wf_online _ Hwf _ _ Hp) as (_ & d & st & [= <-] & Hc & <-). rewrite Hc.
    by destruct (wf_auth _ Hwf _ _ Hc Hu) as [-> _].
Qed.

(** C34. In every state the service reaches by any sequence of its methods the
    two tables agree: a connection is authenticated as a user exactly when the
    user is indexed by that connection, so a user has at most one connection
    and a connection at most one user. *)
Theorem users_tables_agree ops c u :
  let s := foldl users_apply empty_service ops in
  u ≠ 0 →
  (getUidByConn (Some c) s = u ↔ getConnByUid u s = Some c) ∧
  (isAuthenticated (Some c) s = true ↔ getState (Some c) s = Authenticated).
Proof.
  intros s Hu. assert (users_wf s) as Hwf.
  { unfold s. clear. assert (∀ s, users_wf s → users_wf (foldl users_apply s ops)) as H.
    { induction ops as [|o ops IH]; intros s Hs; [done|]. apply IH. by apply users_apply_wf. }
    apply H, users_wf_empty. }
  split; [by apply users_inverse|].
  unfold isAuthenticated. simpl. destruct (conn_states_ s !! c) as [st|] eqn:Hc; [|done].
  destruct (decide (state st = Authenticated)) as [Ha|Ha]; [|done].
  rewrite Ha. split; [done|]. intros _. destruct (uid st =? 0) eqn:E; [|done].
  apply N.eqb_eq in E. by rewrite (wf_anon _ Hwf _ _ Hc E) in Ha.
Qed.

Lemma users_tables_agree_witness :
  let s := foldl users_apply empty_service
             [OpBind 5 (Some 100) 7; OpBind 6 (Some 200) 7] in
  getUidByConn (Some 200) s = 7 ∧ getConnByUid 7 s = Some 200 ∧ getUidByConn (Some 100) s = 0.
Proof.
  intros s. assert (getConnByUid 7 s = Some 200) as H by (vm_compute; reflexivity).
  split; [|split; [exact H|vm_compute; reflexivity]].
  apply (users_tables_agree [OpBind 5 (Some 100) 7; OpBind 6 (Some 200) 7] 200 7
    ltac:(done)). exact H.
Defined.

(** What a successful [bindUser] changes: the connection and the user are
    bound to each other; the user's former connection and the connection's
    former user lose their binding; every other pair keeps its own. *)
Theorem bindUser_spec now c u s :
  users_wf s → u ≠ 0 →
  let s' := (bindUser now (Some c) u s).1 in
  (bindUser now (Some c) u s).2 = true ∧
  getUidByConn (Some c) s' = u ∧ getConnByUid u s' = Some c ∧
  (∀ c', c' ≠ c → getUidByConn (Some c') s' =
     if decide (getConnByUid u s = Some c') then 0 else getUidByConn (Some c') s) ∧
  (∀ v, v ≠ u → getConnByUid v s' =
     if decide (getConnByUid v s = Some c) then None else getConnByUid v s).
Proof.
  intros Hwf Hu s'. pose proof (bindUser_wf now (Some c) u s Hwf) as Hwf'. fold s' in Hwf'.
  assert (getConnByUid u s' = Some c) as Hc.
  { unfold getConnByUid, s'. by rewrite bindUser_online, decide_True. }
  split; [by apply N.eqb_neq in Hu; simpl; rewrite Hu|].
  split; [by apply users_inverse|]. split; [done|]. split.
  - intros c' Hne. unfold getUidByConn, s'. rewrite bindUser_states by done.
    rewrite decide_False by done. unfold getConnByUid.
    destruct (uid_to_conn_ s !! u) as [[d|]|] eqn:Ho; [|by rewrite !decide_False..].
    destruct (decide (d = c')) as [->|Hd]; [|by rewrite !decide_False by congruence].
    rewrite !decide_True by done. by destruct (conn_states_ s !! c').
  - intros v Hv. unfold getConnByUid, s'. rewrite bindUser_online by done.
    rewrite decide_False by done.
    destruct (uid_to_conn_ s !! v) as [[d|]|] eqn:Ho; [|done..].
    destruct (decide (d = c)) as [->|Hd]; [by rewrite !decide_True|].
    by rewrite !decide_False by congruence.
Qed.

Lemma bindUser_spec_witness :
  getUidByConn (Some 100) (bindUser 9 (Some 200) 7 (bindUser 5 (Some 100) 7 empty_service).1).1 = 0.
Proof.
  pose proof (bindUser_spec 9 200 7 (bindUser 5 (Some 100) 7 empty_service).1
    (bindUser_wf 5 (Some 100) 7 _ users_wf_empty) ltac:(done)) as (_ & _ & _ & H & _).
  rewrite (H 100) by done. vm_compute. reflexivity.
Defined.

(** A connection that closes takes down only its own binding: its user
    goes off line, unless the user has moved to a newer connection, whose
    binding stays; all other users and connections are untouched. *)
Theorem removeConnection_spec c s :
  users_wf s →
  let s' := removeConnection (Some c) s in
  getUidByConn (Some c) s' = 0 ∧
  (∀ c', c' ≠ c → getUidByConn (Some c') s' = getUidByConn (Some c') s) ∧
  (∀ v, getConnByUid v s' =
     if decide (getConnByUid v s = Some c) then None else getConnByUid v s).
Proof.
  intros Hwf s'. unfold s', getUidByConn, getConnByUid. simpl.
  destruct (conn_states_ s !! c) as [st|] eqn:Hc; simpl.
  - assert (uid st = uid (conn_state_or_default s c)) as Hu
      by (unfold conn_state_or_default; by rewrite Hc).
    rewrite lookup_delete_eq. split; [done|]. split.
    + intros c' Hne. by rewrite lookup_delete_ne.
    + intros v. rewrite Hu, erase_online_lookup by done.
      destruct (uid_to_conn_ s !! v) as [[d|]|] eqn:Ho; [|done..].
      destruct (decide (d = c)) as [->|Hd]; [by rewrite !decide_True|].
      by rewrite !decide_False by congruence.
  - rewrite Hc. split; [done|]. split; [done|]. intros v. case_decide as Hv; [|done].
    destruct (uid_to_conn_ s !! v) as [p|] eqn:Ho; [|done]. subst p.
    destruct (wf_online _ Hwf _ _ Ho) as (_ & ? & ? & ? & ? & _). congruence.
Qed.

Lemma removeConnection_spec_witness :
  let s := (bindUser 9 (Some 200) 7 (bindUser 5 (Some 100) 7 empty_service).1).1 in
  getConnByUid 7 (removeConnection (Some 100) s) = Some 200.
Proof.
  intros s. assert (users_wf s) as Hwf by (apply bindUser_wf, bindUser_wf, users_wf_empty).
  pose proof (removeConnection_spec 100 s Hwf) as (_ & _ & H).
  rewrite (H 7). vm_compute. reflexivity.
Defined.
