(* ===== verification/Prog.v ===== *)
(** * Programs over atomic operations

    A function of the sources that talks to the outside (Redis, the clock, the
    tables guarded by a mutex, a connection) is a program: a tree of atomic
    operations [E X], each answered by an [X].  The same tree is executed
    sequentially ([run]) or interleaved with others ([tstep]). *)

From S2P Require Import Prelude.

Section prog.
Context {E : Type → Type}.

Inductive prog (A : Type) : Type :=
| Ret (a : A)
| Do {X : Type} (e : E X) (k : X → prog A).

Fixpoint bind {A B} (p : prog A) (f : A → prog B) : prog B :=
  match p with
  | Ret _ a => f a
  | Do _ e k => Do _ e (λ x, bind (k x) f)
  end.

Definition trigger {X} (e : E X) : prog X := Do _ e (Ret _).

(** [for (x : l) body(x);] *)
Fixpoint for_each {A} (l : list A) (body : A → prog unit) : prog unit :=
  match l with
  | [] => Ret _ tt
  | x :: l => bind (body x) (λ _, for_each l body)
  end.

(** A loop that appends the results its body yields. *)
Fixpoint collect {A B} (l : list A) (body : A → prog (option B)) : prog (list B) :=
  match l with
  | [] => Ret _ []
  | x :: l =>
      bind (body x) (λ o, bind (collect l body) (λ r,
        Ret _ (match o with Some b => b :: r | None => r end)))
  end.

(** ** Sequential execution *)
Context {S : Type} (exec : ∀ X, E X → S → S * X).

Fixpoint run {A} (p : prog A) (s : S) : S * A :=
  match p with
  | Ret _ a => (s, a)
  | Do _ e k => let (s', x) := exec _ e s in run (k x) s'
  end.

Lemma run_bind {A B} (p : prog A) (f : A → prog B) s :
  run (bind p f) s = let (s', a) := run p s in run (f a) s'.
Proof.
  revert s. induction p as [a|X e k IH]; intros s; simpl; [done|].
  destruct (exec X e s) as [s' x]. apply IH.
Qed.

(** A postcondition of a program started in a state satisfying [I]. *)
Lemma run_for_each_inv {A} (I : S → Prop) (l : list A) body s :
  (∀ x s, x ∈ l → I s → I (run (body x) s).1) → I s → I (run (for_each l body) s).1.
Proof.
  revert s. induction l as [|x l IH]; intros s Hb Hs; simpl; [done|].
  rewrite run_bind. pose proof (Hb x s ltac:(left) Hs) as Hx.
  destruct (run (body x) s) as [s' []]. simpl in Hx. apply IH; [|done].
  intros y s'' Hy. apply Hb. by right.
Qed.

(** ** Interleaved execution

    A configuration is the shared state and a list of threads; a step
    executes the next operation of one of them. *)
Inductive tstep : S * list (prog unit) → S * list (prog unit) → Prop :=
| tstep_do s ts i X (e : E X) k :
    ts !! i = Some (Do _ e k) →
    tstep (s, ts) ((exec X e s).1, <[i := k (exec X e s).2]> ts).

(** One step of thread [i], and the steps of a schedule; [None] if a thread
    of the schedule has ended. *)
Definition step_thread (i : nat) (c : S * list (prog unit)) : option (S * list (prog unit)) :=
  match c.2 !! i with
  | Some (Do _ e k) => let (s', x) := exec _ e c.1 in Some (s', <[i := k x]> c.2)
  | _ => None
  end.
Fixpoint run_schedule (sch : list nat) (c : S * list (prog unit)) : option (S * list (prog unit)) :=
  match sch with
  | [] => Some c
  | i :: sch => match step_thread i c with Some c' => run_schedule sch c' | None => None end
  end.

Lemma run_schedule_steps sch c c' :
  run_schedule sch c = Some c' → nsteps tstep (length sch) c c'.
Proof.
  revert c. induction sch as [|i sch IH]; intros [s ts]; simpl.
  - intros [= <-]. constructor.
  - unfold step_thread. simpl. destruct (ts !! i) as [[|X e k]|] eqn:Hi; [done| |done].
    pose proof (tstep_do s ts i X e k Hi) as Hstep.
    destruct (exec X e s) as [s' x]. intros Hrun. econstructor; [exact Hstep|by apply IH].
Qed.

(** Every operation a program can issue satisfies [Q], provided the answers
    it got satisfy [V]. *)
Fixpoint all_ops {A} (Q : ∀ X, E X → Prop) (V : ∀ X, E X → X → Prop) (p : prog A) : Prop :=
  match p with
  | Ret _ _ => True
  | Do _ e k => Q _ e ∧ ∀ x, V _ e x → all_ops Q V (k x)
  end.

Lemma all_ops_bind {A B} Q V (p : prog A) (f : A → prog B) :
  all_ops Q V p → (∀ a, all_ops Q V (f a)) → all_ops Q V (bind p f).
Proof.
  intros Hp Hf. induction p as [a|X e k IH]; simpl in *; [done|].
  destruct Hp as [He Hk]. split; [done|]. intros x Hx. by apply IH, Hk.
Qed.

Lemma all_ops_for_each {A} Q V (l : list A) body :
  (∀ x, all_ops Q V (body x)) → all_ops Q V (for_each l body).
Proof. intros Hb. induction l as [|x l IH]; simpl; [done|]. by apply all_ops_bind. Qed.

Lemma all_ops_collect {A B} Q V (l : list A) (body : A → prog (option B)) :
  (∀ x, all_ops Q V (body x)) → all_ops Q V (collect l body).
Proof.
  intros Hb. induction l as [|x l IH]; simpl; [done|].
  apply all_ops_bind; [done|]. intros o. by apply all_ops_bind.
Qed.

(** An invariant that every allowed operation keeps, at the cost of one unit
    of a budget, holds in every interleaving of programs that issue only
    allowed operations. *)
Lemma tsteps_invariant (I : nat → S → Prop) Q V :
  (∀ n s X e, I (Datatypes.S n) s → Q X e → I n (exec X e s).1 ∧ V X e (exec X e s).2) →
  ∀ k s ts s' ts' n, nsteps tstep k (s, ts) (s', ts') → Forall (all_ops Q V) ts →
    I (k + n)%nat s → I n s' ∧ Forall (all_ops Q V) ts'.
Proof.
  intros Hop k. induction k as [|k IH]; intros s ts s' ts' n Hk Hts Hs.
  - inversion Hk; subst. done.
  - inversion Hk as [|? ? y ? Hstep Hrest]; subst. inversion Hstep as [? ? i X e c Hi]; subst.
    rewrite Forall_lookup in Hts. destruct (Hts _ _ Hi) as [He Hc].
    destruct (Hop (k + n)%nat s X e Hs He) as [Hs' Hv].
    apply (IH _ _ _ _ n) in Hrest; [done| |done].
    apply Forall_insert; [by apply Forall_lookup|]. by apply Hc.
Qed.

(** The same with a postcondition [R] of the result. *)
Fixpoint ensures {A} (Q : ∀ X, E X → Prop) (V : ∀ X, E X → X → Prop) (R : A → Prop) (p : prog A)
    : Prop :=
  match p with
  | Ret _ a => R a
  | Do _ e k => Q _ e ∧ ∀ x, V _ e x → ensures Q V R (k x)
  end.

Lemma ensures_bind {A B} Q V (R : A → Prop) (R' : B → Prop) p (f : A → prog B) :
  ensures Q V R p → (∀ a, R a → ensures Q V R' (f a)) → ensures Q V R' (bind p f).
Proof.
  intros Hp Hf. induction p as [a|X e k IH]; simpl in *; [by apply Hf|].
  destruct Hp as [He Hk]. split; [done|]. intros x Hx. by apply IH, Hk.
Qed.

Lemma ensures_mono {A} Q V (R R' : A → Prop) p :
  (∀ a, R a → R' a) → ensures Q V R p → ensures Q V R' p.
Proof.
  intros HR. induction p as [a|X e k IH]; simpl; [by apply HR|].
  intros [He Hk]. split; [done|]. intros x Hx. by apply IH, Hk.
Qed.

Lemma ensures_ops {A} Q V (R : A → Prop) p : ensures Q V R p → all_ops Q V p.
Proof.
  induction p as [a|X e k IH]; simpl; [done|]. intros [He Hk]. split; [done|].
  intros x Hx. by apply IH, Hk.
Qed.

Lemma ensures_for_each {A} Q V (l : list A) body :
  (∀ x, x ∈ l → ensures Q V (λ _, True) (body x)) → ensures Q V (λ _, True) (for_each l body).
Proof.
  induction l as [|x l IH]; intros Hb; simpl; [done|].
  apply (ensures_bind _ _ (λ _, True)); [apply Hb; by left|]. intros [] _. apply IH.
  intros y Hy. apply Hb. by right.
Qed.

Lemma ensures_collect {A B} Q V (R : B → Prop) (l : list A) (body : A → prog (option B)) :
  (∀ x, ensures Q V (λ o, ∀ b, o = Some b → R b) (body x)) →
  ensures Q V (λ bs, ∀ b, b ∈ bs → R b) (collect l body).
Proof.
  intros Hb. induction l as [|x l IH]; simpl; [by intros b ?%not_elem_of_nil|].
  eapply ensures_bind; [apply Hb|]. intros o Ho. eapply ensures_bind; [exact IH|].
  intros bs Hbs. simpl. destruct o as [b|]; [|done]. intros b' [->|Hb']%elem_of_cons; [by apply Ho|by apply Hbs].
Qed.

(** A run with a ghost state that only grows.  [I] holds of the ghost and the
    state along the run of programs that issue operations allowed by [Q].  What
    the answers mean may refer to the ghost [F] at the end of the run: if the
    programs also keep to [Q2 F], given answers that satisfy [V2 F], then [J F]
    is an invariant too. *)
Lemma tsteps_final {G} (I : nat → G → S → Prop) (le : G → G → Prop) `{!PreOrder le} Q V
    (Q2 : G → ∀ X, E X → Prop) (V2 : G → ∀ X, E X → X → Prop) (J : G → G → S → Prop) :
  (∀ n g s X e, I (Datatypes.S n) g s → Q X e → ∃ g', I n g' (exec X e s).1 ∧ le g g' ∧
    V X e (exec X e s).2 ∧
    ∀ F, le g' F → Q2 F X e → J F g s → J F g' (exec X e s).1 ∧ V2 F X e (exec X e s).2) →
  ∀ k s ts s' ts' n g, nsteps tstep k (s, ts) (s', ts') → Forall (all_ops Q V) ts →
    I (k + n)%nat g s →
    ∃ F, I n F s' ∧ le g F ∧ (Forall (all_ops (Q2 F) (V2 F)) ts → J F g s → J F F s').
Proof.
  intros Hop k. induction k as [|k IH]; intros s ts s' ts' n g Hk Hts Hs.
  - inversion Hk; subst. by exists g.
  - inversion Hk as [|? ? y ? Hstep Hrest]; subst. inversion Hstep as [? ? i X e c Hi]; subst.
    rewrite Forall_lookup in Hts. destruct (Hts _ _ Hi) as [He Hc].
    destruct (Hop (k + n)%nat g s X e Hs He) as (g1 & Hs1 & Hle & Hv & Hfin).
    destruct (IH _ _ _ _ n g1 Hrest) as (F & HF & HleF & HJ); [|done|].
    { apply Forall_insert; [by apply Forall_lookup|]. by apply Hc. }
    exists F. split; [done|]. split; [by etrans|]. intros Hts2 HJ0.
    rewrite Forall_lookup in Hts2. destruct (Hts2 _ _ Hi) as [He2 Hc2].
    destruct (Hfin F HleF He2 HJ0) as [HJ1 Hv2]. apply HJ; [|done].
    apply Forall_insert; [by apply Forall_lookup|]. by apply Hc2.
Qed.
End prog.

Arguments prog : clear implicits.
Arguments Ret {E A} _.
Arguments Do {E A X} _ _.

(** Programs use stdpp's monadic notations [x ← p; q] and [p ;; q]. *)
#[export] Instance prog_ret E : MRet (prog E) := λ A, Ret.
#[export] Instance prog_bind E : MBind (prog E) := λ A B f p, bind p f.

#[export] Hint Resolve all_ops_bind all_ops_for_each all_ops_collect : rmd.
