(* ===== verification/Redis.v ===== *)
(** * The Redis service

    Redis is not part of the sources.  Its command interface is a parameter
    (class [Redis]) and what the sources rely on is its documented behaviour
    (relation [redis_doc], class [RedisLaws]).  The Lua scripts the sources
    send are programs over its commands.  [ref_redis] is a concrete instance
    on finite maps, for the witnesses. *)

From S2P Require Import Prelude Decimal Prog.
Local Open Scope N_scope.

(** ** Replies (hiredis [redisReply], by [type]) *)

Inductive reply :=
  | RNil | RStr (s : string) | RInt (z : Z) | RStatus (s : string)
  | RErr (s : string) | RArr (l : list reply).

(** A command executed inside the server: argument texts, one reply. *)
Class Redis := {
  redis_db : Type;
  redis_call : list string → redis_db → redis_db * reply;
  (** The text of a Lua number passed as an argument of [redis.call]. *)
  redis_number : Z → string }.

(** ** Documented behaviour of the commands used *)

Inductive rvalue :=
  | VStr (s : string) | VHash (h : gmap string string) | VZSet (z : gmap string N).

Abbreviation keyspace := (gmap string rvalue).

(** A missing key reads as the empty hash or sorted set; a key of another
    type is an error the documentation leaves the state unchanged for. *)
Definition hash_at (m : keyspace) (k : string) : option (gmap string string) :=
  match m !! k with None => Some ∅ | Some (VHash h) => Some h | _ => None end.
Definition zset_at (m : keyspace) (k : string) : option (gmap string N) :=
  match m !! k with None => Some ∅ | Some (VZSet z) => Some z | _ => None end.

(** Empty sorted sets are removed from the key space. *)
Definition store_zset (k : string) (z : gmap string N) (m : keyspace) : keyspace :=
  if decide (z = ∅) then delete k m else <[k := VZSet z]> m.

(** [HSET k f v f v ...] *)
Fixpoint hset (fvs : list (string * string)) (h : gmap string string) :=
  match fvs with
  | [] => h
  | (f, v) :: fvs => hset fvs (<[f := v]> h)
  end.

Definition flatten_fields (fvs : list (string * string)) : list string :=
  fvs ≫= λ '(f, v), [f; v].

Definition bulk (o : option string) : reply :=
  match o with Some s => RStr s | None => RNil end.

(** Members of a sorted set are ordered by score, then by their bytes. *)
Definition zle (a b : N * string) : Prop :=
  a.1 < b.1 ∨ a.1 = b.1 ∧ String.le a.2 b.2.

Definition zmembers (z : gmap string N) : list (N * string) :=
  (λ '(m, s), (s, m)) <$> map_to_list z.

(** Scores are doubles: integers below 2^53 are exact. *)
Definition exact_score : N := 9007199254740992.

(** [redis_doc argv m m' r]: issued on a server whose key space is [m], the
    command succeeds, leaves [m'] and replies [r]. *)
Inductive redis_doc : list string → keyspace → keyspace → reply → Prop :=
| doc_GET_nil m k : m !! k = None → redis_doc ["GET"; k] m m RNil
| doc_GET m k s : m !! k = Some (VStr s) → redis_doc ["GET"; k] m m (RStr s)
| doc_SET m k s : redis_doc ["SET"; k; s] m (<[k := VStr s]> m) (RStatus "OK")
| doc_EXISTS m k :
    redis_doc ["EXISTS"; k] m m (RInt (if decide (is_Some (m !! k)) then 1 else 0))
| doc_INCR_new m k :
    m !! k = None → redis_doc ["INCR"; k] m (<[k := VStr (to_string 1)]> m) (RInt 1)
| doc_INCR m k n :
    m !! k = Some (VStr (to_string n)) → n + 1 < 9223372036854775808 →
    redis_doc ["INCR"; k] m (<[k := VStr (to_string (n + 1))]> m) (RInt (Z.of_N (n + 1)))
| doc_HGET m k f h : hash_at m k = Some h → redis_doc ["HGET"; k; f] m m (bulk (h !! f))
| doc_HMGET m k fs h :
    hash_at m k = Some h →
    redis_doc ("HMGET" :: k :: fs) m m (RArr ((λ f, bulk (h !! f)) <$> fs))
| doc_HSET m k fvs h n :
    hash_at m k = Some h → fvs ≠ [] →
    n = Z.of_nat (size (hset fvs h)) →
    redis_doc ("HSET" :: k :: flatten_fields fvs) m
      (<[k := VHash (hset fvs h)]> m) (RInt (n - Z.of_nat (size h)))
| doc_HINCRBY m k f h v :
    hash_at m k = Some h → h !! f = Some (to_string v) → v + 1 < 9223372036854775808 →
    redis_doc ["HINCRBY"; k; f; "1"] m
      (<[k := VHash (<[f := to_string (v + 1)]> h)]> m) (RInt (Z.of_N (v + 1)))
| doc_ZADD m k sc mem z :
    zset_at m k = Some z → sc < exact_score →
    redis_doc ["ZADD"; k; to_string sc; mem] m
      (<[k := VZSet (<[mem := sc]> z)]> m)
      (RInt (if decide (is_Some (z !! mem)) then 0 else 1))
| doc_ZREM m k mem z :
    zset_at m k = Some z →
    redis_doc ["ZREM"; k; mem] m (store_zset k (delete mem z) m)
      (RInt (if decide (is_Some (z !! mem)) then 1 else 0))
| doc_ZRANGE m k z l :
    zset_at m k = Some z → StronglySorted zle l → l ≡ₚ zmembers z →
    redis_doc ["ZRANGE"; k; "0"; "-1"] m m (RArr (RStr ∘ snd <$> l))
| doc_ZREVRANGE m k z l stop :
    zset_at m k = Some z → StronglySorted zle l → l ≡ₚ zmembers z →
    stop < 9223372036854775808 →
    redis_doc ["ZREVRANGE"; k; "0"; to_string stop] m m
      (RArr (RStr ∘ snd <$> take (N.to_nat (stop + 1)) (reverse l)))
| doc_ZRANGEBYSCORE m k z l hi :
    zset_at m k = Some z → StronglySorted zle l → l ≡ₚ zmembers z → hi < exact_score →
    redis_doc ["ZRANGEBYSCORE"; k; "0"; to_string hi] m m
      (RArr (RStr ∘ snd <$> filter (λ x, x.1 ≤ hi) l)).

(** The service behaves as documented: some relation [represents] ties its
    state to a key space and is kept by every command. *)
Class RedisLaws `(R : Redis) := {
  represents : redis_db → keyspace → Prop;
  redis_documented d m argv m' r :
    represents d m → redis_doc argv m m' r →
    ∃ d', redis_call argv d = (d', r) ∧ represents d' m';
  redis_number_exact n :
    n < exact_score → redis_number (Z.of_N n) = to_string n }.
