(* ===== verification/RedisInstance.v ===== *)
(** * A concrete Redis

    An executable instance of [Redis] on finite maps with its laws; the
    witnesses and the counterexamples evaluate on it. *)

From S2P Require Import Prelude Decimal Prog Redis.
Local Open Scope N_scope.

#[export] Instance zle_dec a b : Decision (zle a b).
Proof. unfold zle. apply _. Defined.

#[export] Instance zle_trans : Transitive zle.
Proof.
  intros [s1 m1] [s2 m2] [s3 m3] [?|[? H1]] [?|[? H2]]; unfold zle in *; simpl in *;
    [left; lia..|right]. split; [lia|]. by etrans.
Qed.

#[export] Instance zle_total : Total zle.
Proof.
  intros [s1 m1] [s2 m2]. unfold zle; simpl.
  destruct (N.lt_total s1 s2) as [?|[->|?]]; [by left; left| |by right; left].
  destruct (total String.le m1 m2); auto.
Qed.

#[export] Instance zle_antisymm : AntiSymm (=) zle.
Proof.
  intros [s1 m1] [s2 m2] [H1|[H1 H1']] [H2|[H2 H2']]; simpl in *; try lia.
  f_equal; [done|]. by apply (anti_symm String.le).
Qed.

Definition zsorted (z : gmap string N) : list (N * string) := merge_sort zle (zmembers z).

Lemma zsorted_spec z : StronglySorted zle (zsorted z) ∧ zsorted z ≡ₚ zmembers z.
Proof. split; [apply StronglySorted_merge_sort; apply _|apply merge_sort_Permutation]. Qed.

Lemma zsorted_unique z l : StronglySorted zle l → l ≡ₚ zmembers z → l = zsorted z.
Proof.
  intros Hs Hp. destruct (zsorted_spec z) as [Hs' Hp'].
  apply (StronglySorted_unique zle); [done..|]. by rewrite Hp.
Qed.

(** Field-value pairs of an [HSET]. *)
Fixpoint unflatten_fields (l : list string) : list (string * string) :=
  match l with
  | f :: v :: l => (f, v) :: unflatten_fields l
  | _ => []
  end.

Lemma unflatten_flatten fvs : unflatten_fields (flatten_fields fvs) = fvs.
Proof. induction fvs as [|[f v] fvs IH]; [done|]. cbn. by f_equal. Qed.

Definition wrong_type (m : keyspace) : keyspace * reply := (m, RErr "WRONGTYPE").

Definition ref_zset (k : string) (m : keyspace)
    (f : gmap string N → keyspace * reply) : keyspace * reply :=
  match zset_at m k with Some z => f z | None => wrong_type m end.
Definition ref_hash (k : string) (m : keyspace)
    (f : gmap string string → keyspace * reply) : keyspace * reply :=
  match hash_at m k with Some h => f h | None => wrong_type m end.

Definition members_reply (l : list (N * string)) : reply := RArr (RStr ∘ snd <$> l).

Definition ref_redis_call (argv : list string) (m : keyspace) : keyspace * reply :=
  match argv with
  | cmd :: k :: args =>
      if decide (cmd = "GET") then
        match m !! k with
        | None => (m, RNil) | Some (VStr s) => (m, RStr s) | _ => wrong_type m
        end
      else if decide (cmd = "SET") then
        (<[k := VStr (default "" (head args))]> m, RStatus "OK")
      else if decide (cmd = "EXISTS") then
        (m, RInt (if decide (is_Some (m !! k)) then 1 else 0))
      else if decide (cmd = "INCR") then
        match m !! k with
        | None => (<[k := VStr (to_string 1)]> m, RInt 1)
        | Some (VStr s) =>
            let n := (strtoull s).1 in
            (<[k := VStr (to_string (n + 1))]> m, RInt (Z.of_N (n + 1)))
        | _ => wrong_type m
        end
      else if decide (cmd = "HGET") then
        ref_hash k m (λ h, (m, bulk (h !! default "" (head args))))
      else if decide (cmd = "HMGET") then
        ref_hash k m (λ h, (m, RArr ((λ f, bulk (h !! f)) <$> args)))
      else if decide (cmd = "HSET") then
        ref_hash k m (λ h, let h' := hset (unflatten_fields args) h in
          (<[k := VHash h']> m, RInt (Z.of_nat (size h') - Z.of_nat (size h))))
      else if decide (cmd = "HINCRBY") then
        ref_hash k m (λ h, let f := default "" (head args) in
          let v := (strtoull (default "" (h !! f))).1 in
          (<[k := VHash (<[f := to_string (v + 1)]> h)]> m, RInt (Z.of_N (v + 1))))
      else if decide (cmd = "ZADD") then
        ref_zset k m (λ z, match args with
          | [sc; mem] => (<[k := VZSet (<[mem := (strtoull sc).1]> z)]> m,
                          RInt (if decide (is_Some (z !! mem)) then 0 else 1))
          | _ => (m, RErr "ERR syntax error")
          end)
      else if decide (cmd = "ZREM") then
        ref_zset k m (λ z, let mem := default "" (head args) in
          (store_zset k (delete mem z) m,
           RInt (if decide (is_Some (z !! mem)) then 1 else 0)))
      else if decide (cmd = "ZRANGE") then
        ref_zset k m (λ z, (m, members_reply (zsorted z)))
      else if decide (cmd = "ZREVRANGE") then
        ref_zset k m (λ z, let stop := (strtoull (default "" (last args))).1 in
          (m, members_reply (take (N.to_nat (stop + 1)) (reverse (zsorted z)))))
      else if decide (cmd = "ZRANGEBYSCORE") then
        ref_zset k m (λ z, let hi := (strtoull (default "" (last args))).1 in
          (m, members_reply (filter (λ x, x.1 ≤ hi) (zsorted z))))
      else (m, RErr "ERR unknown command")
  | _ => (m, RErr "ERR wrong number of arguments")
  end.

#[export] Instance ref_redis : Redis := {
  redis_db := keyspace;
  redis_call := ref_redis_call;
  redis_number z := to_string_int z }.

#[local] Ltac ref_simp :=
  repeat match goal with
  | H : zset_at ?m ?k = Some _ |- context [ref_zset ?k ?m _] => unfold ref_zset; rewrite H
  | H : hash_at ?m ?k = Some _ |- context [ref_hash ?k ?m _] => unfold ref_hash; rewrite H
  | H : ?x = Some _ |- context [?x] => rewrite H
  | H : ?x = None |- context [?x] => rewrite H
  end.

#[export, refine] Instance ref_redis_laws : RedisLaws ref_redis := {
  represents d m := d = m }.
Proof.
  - intros d m argv m' r -> Hdoc.
    assert (ref_redis_call argv m = (m', r)) as Hc.
    { destruct Hdoc; cbn -[to_string strtoull String.eq_dec] in *;
        repeat (rewrite decide_False by done); try (rewrite decide_True by done);
        ref_simp; rewrite ?strtoull_to_string by (unfold two64, exact_score in *; lia);
        try match goal with
        | H1 : StronglySorted zle ?l, H2 : ?l ≡ₚ zmembers ?z |- _ =>
            rewrite (zsorted_unique z l H1 H2)
        end; try done.
      - rewrite unflatten_flatten. by subst.
      - change (default "" (Some (to_string v))) with (to_string v).
        by rewrite strtoull_to_string by (unfold two64; lia). }
    by exists m'.
  - intros n _. by destruct n.
Defined.
