(* ===== verification/Scripts.v ===== *)
(** * The Lua scripts of MessageStore.cpp

    Each script is a program over [redis.call], written with the Lua
    operations it uses; [eval_script] runs it inside the server as one atomic
    step.  An error reply of a command aborts the script and keeps the writes
    made so far. *)

From S2P Require Import Prelude Decimal Prog Redis.
Local Open Scope N_scope.

(** ** Lua values *)

Inductive lua :=
  | LFalse | LNum (z : Z) | LStr (s : string) | LStatus (s : string) | LTable (l : list lua).

Definition truthy (v : lua) : bool := match v with LFalse => false | _ => true end.

(** [a or b] *)
Definition lua_or (a b : lua) : lua := if truthy a then a else b.

(** [a == b] on the values compared in the scripts. *)
Definition lua_eqb (a b : lua) : bool :=
  match a, b with
  | LStr s, LStr t => bool_decide (s = t)
  | LNum x, LNum y => (x =? y)%Z
  | LFalse, LFalse => true
  | _, _ => false
  end.

(** Lua prints a number with ["%.14g"]: up to fourteen significant digits,
    then an exponent.  [g14 n] is that text for a non-negative integer. *)
Definition lua_exact : N := 100000000000000.

(** [x / 10^k] rounded to nearest, ties to even. *)
Definition round_half_even (n d : N) : N :=
  let q := n / d in let r := n mod d in
  if 2 * r <? d then q
  else if d <? 2 * r then q + 1
  else if N.even q then q else q + 1.

Fixpoint strip_zeros (fuel : nat) (n : N) : N :=
  match fuel with
  | O => n
  | S fuel => if (n mod 10 =? 0) && (0 <? n) then strip_zeros fuel (n / 10) else n
  end.

Definition exponent_text (e : N) : string :=
  (if e <? 10 then "e+0" else "e+") +:+ to_string e.

Definition g14 (n : N) : string :=
  if n <? lua_exact then to_string n
  else
    let e := N.of_nat (String.length (to_string n)) - 1 in
    let q := round_half_even n (10 ^ (e - 13)) in
    let (q, e) := if q =? lua_exact then (q / 10, e + 1) else (q, e) in
    let digits := to_string (strip_zeros 14 q) in
    match digits with
    | String c EmptyString => digits +:+ exponent_text e
    | String c rest => String c EmptyString +:+ "." +:+ rest +:+ exponent_text e
    | EmptyString => EmptyString
    end.

Definition lua_number_text (z : Z) : string :=
  if (z <? 0)%Z then "-" +:+ g14 (Z.to_N (- z)) else g14 (Z.to_N z).

(** [tostring(v)] of a string or number; concatenation accepts only these. *)
Definition lua_tostring (v : lua) : option string :=
  match v with
  | LStr s => Some s
  | LNum z => Some (lua_number_text z)
  | _ => None
  end.

(** Redis replies as Lua values, and the value a script returns as a reply. *)
Fixpoint lua_of_reply (r : reply) : lua :=
  match r with
  | RNil => LFalse | RStr s => LStr s | RInt z => LNum z
  | RStatus s => LStatus s | RErr s => LTable [LStr s]
  | RArr l => LTable (lua_of_reply <$> l)
  end.

Fixpoint lua_to_reply (v : lua) : reply :=
  match v with
  | LFalse => RNil | LStr s => RStr s | LNum z => RInt z
  | LStatus s => RStatus s | LTable l => RArr (lua_to_reply <$> l)
  end.

(** [table.insert(t, 1, v)] *)
Definition table_insert_front (v t : lua) : lua :=
  match t with LTable l => LTable (v :: l) | _ => t end.

(** ** Scripts *)

Inductive script :=
  | SReturn (v : lua)
  | SError (e : string)
  | SCall (argv : list lua) (k : lua → script).

Declare Scope script_scope.
Delimit Scope script_scope with script.
Bind Scope script_scope with script.
Local Notation "'local' x ':=' 'CALL' a ';;' q" := (SCall a (λ x, q))
  (at level 20, x name, a at level 99, q at level 200, only parsing) : script_scope.
Local Notation "'CALL' a ';;' q" := (SCall a (λ _, q))
  (at level 20, a at level 99, q at level 200, only parsing) : script_scope.

(** [a .. b] *)
Definition concat_in (a b : lua) (k : lua → script) : script :=
  match lua_tostring a, lua_tostring b with
  | Some s, Some t => k (LStr (s +:+ t))
  | _, _ => SError "attempt to concatenate a value"
  end.
Local Notation "'local' x ':=' 'CONCAT' a b ';;' q" := (concat_in a b (λ x, q))
  (at level 20, x name, a at level 9, b at level 9, q at level 200, only parsing)
  : script_scope.

(** [KEYS[i]] and [ARGV[i]]; out of range is [nil]. *)
Definition arg (l : list string) (i : nat) : lua :=
  match l !! pred i with Some s => LStr s | None => LFalse end.

Section scripts.
Variables KEYS ARGV : list string.
Local Abbreviation KEY i := (arg KEYS i%nat).
Local Abbreviation ARG i := (arg ARGV i%nat).
Local Open Scope script_scope.

(** The fields read by [HMGET], in the order [BuildRecordFromFields] expects. *)
Definition record_fields : list string :=
  ["msg_id"; "from_uid"; "to_uid"; "content"; "client_msg_id"; "status";
   "created_at_ms"; "delivered_at_ms"; "acked_at_ms"; "retry_count"].

Definition create_new : script :=
  local msg_id := CALL [LStr "INCR"; KEY 2] ;;
  local msg_key := CONCAT (ARG 1) msg_id ;;
  CALL [LStr "SET"; KEY 1; msg_id] ;;
  CALL [LStr "HSET"; msg_key;
        LStr "msg_id"; msg_id; LStr "from_uid"; ARG 2; LStr "to_uid"; ARG 3;
        LStr "content"; ARG 4; LStr "client_msg_id"; ARG 5; LStr "status"; LStr "Pending";
        LStr "created_at_ms"; ARG 6; LStr "delivered_at_ms"; LStr "0";
        LStr "acked_at_ms"; LStr "0"; LStr "retry_count"; LStr "0"] ;;
  CALL [LStr "ZADD"; KEY 3; ARG 6; msg_id] ;;
  CALL [LStr "ZADD"; KEY 4; ARG 6; msg_id] ;;
  CALL [LStr "ZADD"; KEY 5; ARG 6; msg_id] ;;
  match lua_tostring msg_id with
  | Some id_text =>
      SReturn (LTable [LStr "1"; LStr id_text; ARG 2; ARG 3; ARG 4; ARG 5;
                       LStr "Pending"; ARG 6; LStr "0"; LStr "0"; LStr "0"])
  | None => SError "tostring"
  end.

Definition kCreateMessageScript : script :=
  local msg_id := CALL [LStr "GET"; KEY 1] ;;
  if truthy msg_id then
    local msg_key := CONCAT (ARG 1) msg_id ;;
    local found := CALL [LStr "EXISTS"; msg_key] ;;
    if lua_eqb found (LNum 1) then
      local fields := CALL (LStr "HMGET" :: msg_key :: (LStr <$> record_fields)) ;;
      SReturn (table_insert_front (LStr "0") fields)
    else create_new
  else create_new.

Definition kMarkDeliveredScript : script :=
  local to_uid := CALL [LStr "HGET"; KEY 1; LStr "to_uid"] ;;
  if negb (truthy to_uid) then SReturn (LNum 0)
  else
    CALL [LStr "HSET"; KEY 1; LStr "status"; LStr "Delivered";
          LStr "delivered_at_ms"; ARG 2] ;;
    local pending_key := CONCAT (ARG 3) to_uid ;;
    CALL [LStr "ZREM"; pending_key; ARG 1] ;;
    CALL [LStr "ZADD"; KEY 2; ARG 2; ARG 1] ;;
    SReturn (LNum 1).

Definition kMarkPendingScript : script :=
  local to_uid := CALL [LStr "HGET"; KEY 1; LStr "to_uid"] ;;
  if negb (truthy to_uid) then SReturn (LNum 0)
  else
    local created := CALL [LStr "HGET"; KEY 1; LStr "created_at_ms"] ;;
    let created_at_ms := lua_or created (ARG 2) in
    CALL [LStr "HSET"; KEY 1; LStr "status"; LStr "Pending"] ;;
    CALL [LStr "ZREM"; KEY 2; ARG 1] ;;
    local pending_key := CONCAT (ARG 3) to_uid ;;
    CALL [LStr "ZADD"; pending_key; created_at_ms; ARG 1] ;;
    SReturn (LNum 1).

Definition kMarkAckedScript : script :=
  local to_uid := CALL [LStr "HGET"; KEY 1; LStr "to_uid"] ;;
  if negb (truthy to_uid) then SReturn (LNum 0)
  else if negb (lua_eqb to_uid (ARG 2)) then SReturn (LNum 0)
  else
    CALL [LStr "HSET"; KEY 1; LStr "status"; LStr "Acked"; LStr "acked_at_ms"; ARG 3] ;;
    CALL [LStr "ZREM"; KEY 2; ARG 1] ;;
    local pending_key := CONCAT (ARG 4) to_uid ;;
    CALL [LStr "ZREM"; pending_key; ARG 1] ;;
    SReturn (LNum 1).

Definition kMarkFailedScript : script :=
  local to_uid := CALL [LStr "HGET"; KEY 1; LStr "to_uid"] ;;
  if negb (truthy to_uid) then SReturn (LNum 0)
  else
    CALL [LStr "HSET"; KEY 1; LStr "status"; LStr "Failed"] ;;
    CALL [LStr "ZREM"; KEY 2; ARG 1] ;;
    local pending_key := CONCAT (ARG 3) to_uid ;;
    CALL [LStr "ZREM"; pending_key; ARG 1] ;;
    SReturn (LNum 1).

Definition kIncrementRetryScript : script :=
  local found := CALL [LStr "EXISTS"; KEY 1] ;;
  if lua_eqb found (LNum 0) then SReturn (LNum 0)
  else
    CALL [LStr "HINCRBY"; KEY 1; LStr "retry_count"; LNum 1] ;;
    SReturn (LNum 1).
End scripts.

(** ** Evaluation inside the server *)
Section eval.
Context {R : Redis}.

(** Arguments of [redis.call] must be strings or numbers. *)
Definition lua_arg_text (v : lua) : option string :=
  match v with
  | LStr s => Some s
  | LNum z => Some (redis_number z)
  | _ => None
  end.

Fixpoint eval_script (p : script) (d : redis_db) : redis_db * reply :=
  match p with
  | SReturn v => (d, lua_to_reply v)
  | SError e => (d, RErr e)
  | SCall argv k =>
      match mapM lua_arg_text argv with
      | None => (d, RErr "Lua redis() command arguments must be strings or integers")
      | Some texts =>
          let (d', r) := redis_call texts d in
          match r with
          | RErr e => (d', RErr e)
          | _ => eval_script (k (lua_of_reply r)) d'
          end
      end
  end.

Context {RL : RedisLaws R}.

Definition no_error (r : reply) : Prop := match r with RErr _ => False | _ => True end.

(** [script_triple p m m' r]: on a server whose key space is [m] the script
    replies [r] and leaves [m']. *)
Definition script_triple (p : script) (m m' : keyspace) (r : reply) : Prop :=
  ∀ d, represents d m → ∃ d', eval_script p d = (d', r) ∧ represents d' m'.

Lemma triple_return v m : script_triple (SReturn v) m m (lua_to_reply v).
Proof. intros d Hd. by exists d. Qed.

Lemma triple_call argv texts k m m1 m2 r1 r2 :
  mapM lua_arg_text argv = Some texts → redis_doc texts m m1 r1 → no_error r1 →
  script_triple (k (lua_of_reply r1)) m1 m2 r2 →
  script_triple (SCall argv k) m m2 r2.
Proof.
  intros Ht Hdoc Hr Hk d Hd. destruct (redis_documented d m _ m1 r1 Hd Hdoc) as (d1 & Hc & Hd1).
  destruct (Hk d1 Hd1) as (d2 & He & Hd2). exists d2. split; [|done].
  cbn [eval_script]. rewrite Ht, Hc. by destruct r1.
Qed.

(** An argument that is an exact number. *)
Lemma lua_arg_number n : n < exact_score → lua_arg_text (LNum (Z.of_N n)) = Some (to_string n).
Proof. intros ?. simpl. by rewrite redis_number_exact. Qed.

Lemma lua_args_strings l : mapM lua_arg_text (LStr <$> l) = Some l.
Proof. induction l as [|x l IH]; [done|]. cbn. cbn in IH. by rewrite IH. Qed.

(** ** One rule per command *)

Lemma call_GET k q m m2 r :
  (∀ v, m !! k = v → match v with
     | None => script_triple (q LFalse) m m2 r
     | Some (VStr s) => script_triple (q (LStr s)) m m2 r
     | _ => False end) →
  script_triple (SCall [LStr "GET"; LStr k] q) m m2 r.
Proof.
  intros H. specialize (H _ eq_refl). destruct (m !! k) as [[s| |]|] eqn:E; try done.
  - by eapply triple_call; [done|apply doc_GET| |].
  - by eapply triple_call; [done|apply doc_GET_nil| |].
Qed.

Lemma call_EXISTS k q m m2 r :
  script_triple (q (LNum (if decide (is_Some (m !! k)) then 1 else 0))) m m2 r →
  script_triple (SCall [LStr "EXISTS"; LStr k] q) m m2 r.
Proof. intros H. by eapply triple_call; [done|apply doc_EXISTS| |]. Qed.

Lemma call_HGET k f h q m m2 r :
  hash_at m k = Some h →
  script_triple (q (match h !! f with Some s => LStr s | None => LFalse end)) m m2 r →
  script_triple (SCall [LStr "HGET"; LStr k; LStr f] q) m m2 r.
Proof.
  intros Hh H. eapply triple_call; [done|by eapply doc_HGET| |]; by destruct (h !! f).
Qed.

Lemma call_HMGET k fs h q m m2 r :
  hash_at m k = Some h →
  script_triple (q (lua_of_reply (RArr ((λ f, bulk (h !! f)) <$> fs)))) m m2 r →
  script_triple (SCall (LStr "HMGET" :: LStr k :: (LStr <$> fs)) q) m m2 r.
Proof.
  intros Hh H. eapply triple_call; [|by eapply doc_HMGET| |]; [|done|done].
  apply (lua_args_strings ("HMGET" :: k :: fs)).
Qed.

Lemma call_HSET k fvs h argv q m m2 r :
  hash_at m k = Some h → fvs ≠ [] →
  mapM lua_arg_text argv = Some ("HSET" :: k :: flatten_fields fvs) →
  (∀ v, script_triple (q v) (<[k := VHash (hset fvs h)]> m) m2 r) →
  script_triple (SCall argv q) m m2 r.
Proof. intros Hh Hf Ha H. by eapply triple_call; [done|by eapply doc_HSET| |]. Qed.

Lemma call_HINCRBY k f h v q m m2 r :
  hash_at m k = Some h → h !! f = Some (to_string v) → v + 1 < exact_score →
  (∀ x, script_triple (q x) (<[k := VHash (<[f := to_string (v + 1)]> h)]> m) m2 r) →
  script_triple (SCall [LStr "HINCRBY"; LStr k; LStr f; LNum 1] q) m m2 r.
Proof.
  intros Hh Hf Hv H.
  assert (v + 1 < 9223372036854775808) as Hv' by (unfold exact_score in *; lia).
  eapply triple_call; [|by apply (doc_HINCRBY _ _ _ _ _ Hh Hf Hv')|done|apply H].
  cbn [mapM]. change (LNum 1) with (LNum (Z.of_N 1)). by rewrite (lua_arg_number 1).
Qed.

Lemma call_INCR k n q m m2 r :
  m !! k = Some (VStr (to_string n)) ∨ m !! k = None ∧ n = 0 →
  n + 1 < exact_score →
  script_triple (q (LNum (Z.of_N (n + 1)))) (<[k := VStr (to_string (n + 1))]> m) m2 r →
  script_triple (SCall [LStr "INCR"; LStr k] q) m m2 r.
Proof.
  intros [Hk|[Hk ->]] Hn H.
  - eapply triple_call; [done|apply doc_INCR| |]; [done| |done|done]. unfold exact_score in *. lia.
  - by eapply triple_call; [done|apply doc_INCR_new| |].
Qed.

Lemma call_SET k s argv q m m2 r :
  mapM lua_arg_text argv = Some ["SET"; k; s] →
  (∀ v, script_triple (q v) (<[k := VStr s]> m) m2 r) →
  script_triple (SCall argv q) m m2 r.
Proof. intros Ha H. by eapply triple_call; [done|apply doc_SET| |]. Qed.

Lemma call_ZADD k sc mem z argv q m m2 r :
  zset_at m k = Some z → sc < exact_score →
  mapM lua_arg_text argv = Some ["ZADD"; k; to_string sc; mem] →
  (∀ v, script_triple (q v) (<[k := VZSet (<[mem := sc]> z)]> m) m2 r) →
  script_triple (SCall argv q) m m2 r.
Proof. intros Hz Hs Ha H. by eapply triple_call; [done|by apply doc_ZADD| |]. Qed.

Lemma call_ZREM k mem z q m m2 r :
  zset_at m k = Some z →
  (∀ v, script_triple (q v) (store_zset k (delete mem z) m) m2 r) →
  script_triple (SCall [LStr "ZREM"; LStr k; LStr mem] q) m m2 r.
Proof. intros Hz H. by eapply triple_call; [done|by apply doc_ZREM| |]. Qed.
End eval.

(** Below [lua_exact] the text of a Lua number is its decimal text, so a key
    built by concatenation is the key the C++ side builds. *)
Lemma lua_number_text_exact n : n < lua_exact → lua_number_text (Z.of_N n) = to_string n.
Proof.
  intros Hn. unfold lua_number_text, g14.
  rewrite (proj2 (Z.ltb_ge _ _)) by lia. rewrite N2Z.id.
  by rewrite (proj2 (N.ltb_lt _ _)).
Qed.
