(* ===== verification/Sys.v ===== *)
(** * The server's surroundings

    The atomic operations of the server's threads and the state they act on:
    the Redis service behind its client, the clock, the on-line table guarded
    by its mutex, and the TCP connections (Muduo). *)

From S2P Require Import Prelude Message Prog Redis Scripts UserState.
Local Open Scope N_scope.

(** A script with its two argument vectors. *)
Abbreviation script_fn := (list string → list string → script).

Inductive sysE : Type → Type :=
  (** [NowMs()] *)
  | NowMs : sysE N
  (** [RedisClient::command] and [RedisClient::eval]; [None] is a null reply. *)
  | RedisCommand (argv : list string) : sysE (option reply)
  | RedisEval (s : script_fn) (keys args : list string) : sysE (option reply)
  (** The methods of [UserStateService], each one critical section. *)
  | UsersBind (p : TcpConnectionPtr) (u : N) : sysE bool
  | UsersRemove (p : TcpConnectionPtr) : sysE unit
  | UsersHeartbeat (p : TcpConnectionPtr) : sysE unit
  | UsersUidByConn (p : TcpConnectionPtr) : sysE N
  | UsersConnByUid (u : N) : sysE TcpConnectionPtr
  (** Calls on a [TcpConnection]. *)
  | ConnConnected (c : Conn) : sysE bool
  | ConnSend (c : Conn) (frame : bytes) : sysE unit
  | ConnShutdown (c : Conn) : sysE unit.

(** A request to Redis can fail before the server executes it or after, when
    only the reply is lost (a broken connection, a time-out). *)
Inductive fault := NoFault | RequestLost | ReplyLost.

(** The calls made on connections, in order. *)
Inductive output := Sent (c : Conn) (frame : bytes) | ShutDown (c : Conn).

(** What the outside decides: the clock and the faults, by the number of
    operations executed so far. *)
Record environment := { env_clock : nat → N; env_fault : nat → fault }.

Section sys.
Context {R : Redis}.

Record world := {
  w_db : redis_db; w_tick : nat; w_users : UserStateService;
  w_live : gset Conn; w_out : list output }.

Definition set_db (d : redis_db) (w : world) : world :=
  {| w_db := d; w_tick := w_tick w; w_users := w_users w; w_live := w_live w;
     w_out := w_out w |}.
Definition set_users (s : UserStateService) (w : world) : world :=
  {| w_db := w_db w; w_tick := w_tick w; w_users := s; w_live := w_live w;
     w_out := w_out w |}.
Definition add_out (o : output) (w : world) : world :=
  {| w_db := w_db w; w_tick := w_tick w; w_users := w_users w; w_live := w_live w;
     w_out := w_out w ++ [o] |}.
Definition tick (w : world) : world :=
  {| w_db := w_db w; w_tick := S (w_tick w); w_users := w_users w; w_live := w_live w;
     w_out := w_out w |}.

Variable env : environment.

(** A request under the fault of its moment. *)
Definition redis_request (f : redis_db → redis_db * reply) (w : world)
    : world * option reply :=
  match env_fault env (w_tick w) with
  | RequestLost => (tick w, None)
  | ReplyLost => (tick (set_db (f (w_db w)).1 w), None)
  | NoFault => let (d, r) := f (w_db w) in (tick (set_db d w), Some r)
  end.

Definition exec (X : Type) (e : sysE X) (w : world) : world * X :=
  let now := env_clock env (w_tick w) in
  match e with
  | NowMs => (tick w, now)
  | RedisCommand argv => redis_request (redis_call argv) w
  | RedisEval s keys args => redis_request (eval_script (s keys args)) w
  | UsersBind p u =>
      let (s, ok) := bindUser now p u (w_users w) in (tick (set_users s w), ok)
  | UsersRemove p => (tick (set_users (removeConnection p (w_users w)) w), tt)
  | UsersHeartbeat p => (tick (set_users (updateHeartbeat now p (w_users w)) w), tt)
  | UsersUidByConn p => (tick w, getUidByConn p (w_users w))
  | UsersConnByUid u => (tick w, getConnByUid u (w_users w))
  | ConnConnected c => (tick w, bool_decide (c ∈ w_live w))
  | ConnSend c frame => (tick (add_out (Sent c frame) w), tt)
  | ConnShutdown c => (tick (add_out (ShutDown c) w), tt)
  end.
End sys.

Arguments world R : clear implicits.
Arguments world {R}.

(** The programs of the server. *)
Abbreviation sys := (prog sysE).

(** ** Runs and time *)
Section runs.
Context {R : Redis}.

Lemma exec_tick env X (e : sysE X) w : w_tick (exec env X e w).1 = S (w_tick w).
Proof.
  destruct e; cbn; try done; unfold redis_request;
    repeat (case_match; cbn); try done; by destruct (bindUser _ _ _ _).
Qed.

Lemma run_tick {A} env (p : sys A) w : (w_tick w <= w_tick (run (exec env) p w).1)%nat.
Proof.
  revert w. induction p as [x|X e k IH]; intros w; cbn; [done|].
  pose proof (exec_tick env X e w) as Ht. destruct (exec env X e w) as [w' x]. cbn in Ht.
  specialize (IH x w'). lia.
Qed.

(** Only the faults to come matter. *)
Lemma run_agree {A} env env' (p : sys A) w :
  (∀ n, env_clock env n = env_clock env' n) →
  (∀ n, (w_tick w <= n)%nat → env_fault env n = env_fault env' n) →
  run (exec env) p w = run (exec env') p w.
Proof.
  intros Hc. revert w. induction p as [x|X e k IH]; intros w Hf; cbn; [done|].
  assert (exec env X e w = exec env' X e w) as <-.
  { destruct e; cbn; unfold redis_request; rewrite ?Hc, ?Hf by done; done. }
  pose proof (exec_tick env X e w) as Ht. destruct (exec env X e w) as [w' x]. cbn in Ht.
  apply IH. intros n Hn. apply Hf. lia.
Qed.
End runs.
