(* ===== verification/MessageStore.v ===== *)
(** * MessageStore (server/src/MessageStore.cpp)

    The keys, the parsing of replies and the methods of the store, as programs
    over the clock and the Redis client. *)

From S2P Require Import Prelude Decimal Prog Redis Scripts UserState Sys.
Local Open Scope N_scope.

Inductive MessageStatus := Pending | Delivered | Acked | Failed.

#[export] Instance MessageStatus_eq_dec : EqDecision MessageStatus.
Proof. solve_decision. Defined.

Record MessageRecord := {
  msg_id : N; from_uid : N; to_uid : N; content : string; client_msg_id : string;
  status : MessageStatus; created_at_ms : N; delivered_at_ms : N; acked_at_ms : N;
  retry_count : Z }.

#[export] Instance MessageRecord_eq_dec : EqDecision MessageRecord.
Proof. solve_decision. Defined.

Definition default_MessageRecord : MessageRecord :=
  {| msg_id := 0; from_uid := 0; to_uid := 0; content := ""; client_msg_id := "";
     status := Pending; created_at_ms := 0; delivered_at_ms := 0; acked_at_ms := 0;
     retry_count := 0 |}.

Record CreateMessageResult := { record : MessageRecord; created : bool; ok : bool }.

Definition default_CreateMessageResult : CreateMessageResult :=
  {| record := default_MessageRecord; created := false; ok := false |}.

(** ** Keys *)

Definition MakeClientMsgKey (from_uid : N) (client_msg_id : string) : string :=
  to_string from_uid +:+ ":" +:+ client_msg_id.
Definition MakeMessageKey (msg_id : N) : string := "rmd:msg:" +:+ to_string msg_id.
Definition MakePendingKey (uid : N) : string := "rmd:pending:" +:+ to_string uid.
Definition MakeRecentKey (uid : N) : string := "rmd:recent:" +:+ to_string uid.
Definition MakeIdempotencyKey (from_uid : N) (client_msg_id : string) : string :=
  "rmd:idem:" +:+ MakeClientMsgKey from_uid client_msg_id.

Definition kRedisMsgNextIdKey : string := "rmd:msg:next_id".
Definition kRedisMsgKeyPrefix : string := "rmd:msg:".
Definition kRedisPendingKeyPrefix : string := "rmd:pending:".
Definition kRedisDeliveredTimeoutKey : string := "rmd:delivered_timeout".

(** ** Parsing replies

    A null [redisReply*] is [None]; an out parameter of a function returning
    [bool] is an [option] result. *)

Definition ReplyToString (r : option reply) : option string :=
  match r with
  | Some (RStr s) | Some (RStatus s) => Some s
  | Some (RInt z) => Some (to_string_int z)
  | _ => None
  end.

Definition ParseUint64 (r : option reply) : option N :=
  text ← ReplyToString r;
  if decide (text = "") then None
  else let (value, rest) := strtoull text in
       if decide (rest = "") then Some value else None.

Definition ParseInt (r : option reply) : option Z :=
  text ← ReplyToString r;
  if decide (text = "") then None
  else let (value, rest) := strtol text in
       if decide (rest = "") then Some (int32 value) else None.

Definition ParseStatus (r : option reply) : option MessageStatus :=
  text ← ReplyToString r;
  if decide (text = "Pending") then Some Pending
  else if decide (text = "Delivered") then Some Delivered
  else if decide (text = "Acked") then Some Acked
  else if decide (text = "Failed") then Some Failed
  else None.

Definition BuildRecordFromFields (r : option reply) (offset : nat) : option MessageRecord :=
  match r with
  | Some (RArr l) =>
      if decide (length l < offset + 10)%nat then None
      else
        let element i := l !! (offset + i)%nat in
        v_msg_id ← ParseUint64 (element 0%nat);
        v_from ← ParseUint64 (element 1%nat);
        v_to ← ParseUint64 (element 2%nat);
        v_content ← ReplyToString (element 3%nat);
        v_client ← ReplyToString (element 4%nat);
        v_status ← ParseStatus (element 5%nat);
        v_created ← ParseUint64 (element 6%nat);
        v_delivered ← ParseUint64 (element 7%nat);
        v_acked ← ParseUint64 (element 8%nat);
        v_retry ← ParseInt (element 9%nat);
        Some {| msg_id := v_msg_id; from_uid := v_from; to_uid := v_to;
                content := v_content; client_msg_id := v_client; status := v_status;
                created_at_ms := v_created; delivered_at_ms := v_delivered;
                acked_at_ms := v_acked; retry_count := v_retry |}
  | _ => None
  end.

Definition BuildCreateResult (r : option reply) : option CreateMessageResult :=
  match r with
  | Some (RArr l) =>
      if decide (length l = 11)%nat then
        v_created ← ReplyToString (l !! 0%nat);
        v_record ← BuildRecordFromFields r 1;
        Some {| record := v_record; created := bool_decide (v_created = "1"); ok := true |}
      else None
  | _ => None
  end.

Definition ReplyIsTrue (r : option reply) : bool :=
  match r with Some (RInt z) => (z =? 1)%Z | _ => false end.

(** ** Requests *)

Definition FetchRecord (id : N) : sys (option MessageRecord) :=
  if id =? 0 then mret None
  else
    reply ← trigger (RedisCommand ("HMGET" :: MakeMessageKey id :: record_fields));
    match reply with
    | Some (RArr l) =>
        if decide (length l = 10)%nat then mret (BuildRecordFromFields reply 0) else mret None
    | _ => mret None
    end.

Definition EvalCreateMessage (idem_key pending_key from_recent_key to_recent_key : string)
    (from to : N) (text client_id : string) (created_ms : N) : sys (option reply) :=
  trigger (RedisEval kCreateMessageScript
    [idem_key; kRedisMsgNextIdKey; pending_key; from_recent_key; to_recent_key]
    [kRedisMsgKeyPrefix; to_string from; to_string to; text; client_id;
     to_string created_ms]).

Definition EvalMsgStateScript (s : script_fn) (id timestamp_ms : N) : sys (option reply) :=
  trigger (RedisEval s [MakeMessageKey id; kRedisDeliveredTimeoutKey]
    [to_string id; to_string timestamp_ms; kRedisPendingKeyPrefix]).

Definition EvalMarkAckedScript (id ack_uid timestamp_ms : N) : sys (option reply) :=
  trigger (RedisEval kMarkAckedScript [MakeMessageKey id; kRedisDeliveredTimeoutKey]
    [to_string id; to_string ack_uid; to_string timestamp_ms; kRedisPendingKeyPrefix]).

(** ** Methods *)

Definition createMessage (from to : N) (text client_id : string) : sys CreateMessageResult :=
  now ← trigger NowMs;
  reply ← EvalCreateMessage (MakeIdempotencyKey from client_id) (MakePendingKey to)
            (MakeRecentKey from) (MakeRecentKey to) from to text client_id now;
  match reply with
  | None | Some (RErr _) => mret default_CreateMessageResult
  | _ => mret (default default_CreateMessageResult (BuildCreateResult reply))
  end.

Definition markDelivered (id : N) : sys bool :=
  now ← trigger NowMs;
  reply ← EvalMsgStateScript kMarkDeliveredScript id now;
  mret (ReplyIsTrue reply).

Definition markPending (id : N) : sys bool :=
  now ← trigger NowMs;
  reply ← EvalMsgStateScript kMarkPendingScript id now;
  mret (ReplyIsTrue reply).

Definition markAcked (id ack_uid : N) : sys bool :=
  now ← trigger NowMs;
  reply ← EvalMarkAckedScript id ack_uid now;
  mret (ReplyIsTrue reply).

Definition markFailed (id : N) : sys bool :=
  now ← trigger NowMs;
  reply ← EvalMsgStateScript kMarkFailedScript id now;
  mret (ReplyIsTrue reply).

Definition getMessage (id : N) : sys (option MessageRecord) := FetchRecord id.

Definition incrementRetryCount (id : N) : sys bool :=
  reply ← trigger (RedisEval (λ KEYS _, kIncrementRetryScript KEYS) [MakeMessageKey id] []);
  mret (ReplyIsTrue reply).

(** Fetch the record an index entry names and keep it if [keep] holds. *)
Definition fetch_entry (keep : MessageRecord → bool) (entry : reply)
    : sys (option MessageRecord) :=
  match ParseUint64 (Some entry) with
  | None => mret None
  | Some id =>
      found ← FetchRecord id;
      match found with
      | Some r => mret (if keep r then Some r else None)
      | None => mret None
      end
  end.

Definition fetch_entries (keep : MessageRecord → bool) (reply : option reply)
    : sys (list MessageRecord) :=
  match reply with
  | Some (RArr entries) => collect entries (fetch_entry keep)
  | _ => mret []
  end.

Definition getPendingMessages (uid : N) : sys (list MessageRecord) :=
  reply ← trigger (RedisCommand ["ZRANGE"; MakePendingKey uid; "0"; "-1"]);
  fetch_entries (λ r, (to_uid r =? uid) && bool_decide (status r = Pending)) reply.

Definition getRecentMessages (uid limit : N) : sys (list MessageRecord) :=
  if (uid =? 0) || (limit =? 0) then mret []
  else
    reply ← trigger (RedisCommand
      ["ZREVRANGE"; MakeRecentKey uid; "0"; to_string (limit - 1)]);
    result ← fetch_entries (λ r, (from_uid r =? uid) || (to_uid r =? uid)) reply;
    mret (reverse result).

(** The record waits for an acknowledgement and has waited long enough. *)
Definition delivery_timed_out (now_ms timeout_ms : N) (r : MessageRecord) : bool :=
  bool_decide (status r = Delivered) && (0 <? delivered_at_ms r) &&
  (delivered_at_ms r <=? now_ms) && (timeout_ms <=? usub64 now_ms (delivered_at_ms r)).

Definition getTimeoutDeliveredMessages (now_ms timeout_ms : N) : sys (list MessageRecord) :=
  let max_score := if timeout_ms <=? now_ms then usub64 now_ms timeout_ms else 0 in
  reply ← trigger (RedisCommand
    ["ZRANGEBYSCORE"; kRedisDeliveredTimeoutKey; "0"; to_string max_score]);
  fetch_entries (delivery_timed_out now_ms timeout_ms) reply.
