(* ===== verification/StoreSpec.v ===== *)
(** * What the message store promises, and how Redis holds it

    The abstract store is a finite map from message ids to records and the
    last id handed out.  [Rep] states how a Redis key space holds it: the
    counter, one hash per message, the idempotency index, and the three kinds
    of sorted sets, each the exact image of the records it indexes. *)

From S2P Require Import Prelude Decimal Prog Redis Scripts UserState Sys MessageStore.
Local Open Scope N_scope.

(** ** Abstract store *)

Record store := { st_next : N; st_msgs : gmap N MessageRecord }.

Definition empty_store : store := {| st_next := 0; st_msgs := ∅ |}.

(** The record a sender already created under a client message id. *)
Definition find_duplicate (A : store) (from : N) (client_id : string)
    : option MessageRecord :=
  head (filter (λ r, from_uid r = from ∧ client_msg_id r = client_id)
    ((map_to_list (st_msgs A)).*2)).

Definition new_record (now id from to : N) (text client_id : string) : MessageRecord :=
  {| msg_id := id; from_uid := from; to_uid := to; content := text;
     client_msg_id := client_id; status := Pending; created_at_ms := now;
     delivered_at_ms := 0; acked_at_ms := 0; retry_count := 0 |}.

(** [createMessage]: at most one record per (sender, client message id). *)
Definition st_create (now from to : N) (text client_id : string) (A : store)
    : store * (MessageRecord * bool) :=
  match find_duplicate A from client_id with
  | Some r => (A, (r, false))
  | None =>
      let id := st_next A + 1 in
      let r := new_record now id from to text client_id in
      ({| st_next := id; st_msgs := <[id := r]> (st_msgs A) |}, (r, true))
  end.

(** Updates of one record. *)
Definition set_status (s : MessageStatus) (r : MessageRecord) : MessageRecord :=
  {| msg_id := msg_id r; from_uid := from_uid r; to_uid := to_uid r; content := content r;
     client_msg_id := client_msg_id r; status := s; created_at_ms := created_at_ms r;
     delivered_at_ms := delivered_at_ms r; acked_at_ms := acked_at_ms r;
     retry_count := retry_count r |}.
Definition set_delivered (now : N) (r : MessageRecord) : MessageRecord :=
  {| msg_id := msg_id r; from_uid := from_uid r; to_uid := to_uid r; content := content r;
     client_msg_id := client_msg_id r; status := Delivered; created_at_ms := created_at_ms r;
     delivered_at_ms := now; acked_at_ms := acked_at_ms r; retry_count := retry_count r |}.
Definition set_acked (now : N) (r : MessageRecord) : MessageRecord :=
  {| msg_id := msg_id r; from_uid := from_uid r; to_uid := to_uid r; content := content r;
     client_msg_id := client_msg_id r; status := Acked; created_at_ms := created_at_ms r;
     delivered_at_ms := delivered_at_ms r; acked_at_ms := now;
     retry_count := retry_count r |}.
Definition inc_retry (r : MessageRecord) : MessageRecord :=
  {| msg_id := msg_id r; from_uid := from_uid r; to_uid := to_uid r; content := content r;
     client_msg_id := client_msg_id r; status := status r; created_at_ms := created_at_ms r;
     delivered_at_ms := delivered_at_ms r; acked_at_ms := acked_at_ms r;
     retry_count := retry_count r + 1 |}.

(** Update the record [id] if it exists; the result says whether it did. *)
Definition st_update (f : MessageRecord → MessageRecord) (id : N) (A : store)
    : store * bool :=
  match st_msgs A !! id with
  | None => (A, false)
  | Some r => ({| st_next := st_next A; st_msgs := <[id := f r]> (st_msgs A) |}, true)
  end.

Definition st_mark_delivered (now id : N) := st_update (set_delivered now) id.
Definition st_mark_pending (id : N) := st_update (set_status Pending) id.
Definition st_mark_failed (id : N) := st_update (set_status Failed) id.
Definition st_increment_retry (id : N) := st_update inc_retry id.

(** Only the receiver of a message can acknowledge it. *)
Definition st_mark_acked (now id ack_uid : N) (A : store) : store * bool :=
  match st_msgs A !! id with
  | Some r => if to_uid r =? ack_uid then st_update (set_acked now) id A else (A, false)
  | None => (A, false)
  end.

(** ** Well-formed stores

    Ids are the keys, start at one and do not exceed the counter; users,
    times and counters are in the range of their C++ types (times also exact
    as Redis scores); no two records share sender and client message id. *)
Definition record_wf (id : N) (r : MessageRecord) : Prop :=
  msg_id r = id ∧ 0 < id ∧ from_uid r < two64 ∧ to_uid r < two64 ∧
  created_at_ms r < exact_score ∧ delivered_at_ms r < exact_score ∧
  acked_at_ms r < exact_score ∧ (0 ≤ retry_count r < Z.of_N exact_score)%Z.

Record store_wf (A : store) : Prop := {
  wf_record : ∀ id r, st_msgs A !! id = Some r → record_wf id r ∧ id ≤ st_next A;
  wf_unique : ∀ id1 id2 r1 r2, st_msgs A !! id1 = Some r1 → st_msgs A !! id2 = Some r2 →
    from_uid r1 = from_uid r2 → client_msg_id r1 = client_msg_id r2 → id1 = id2;
  wf_next : st_next A < lua_exact }.

(** A record as the C++ side reads it: [retry_count] is an [int]. *)
Definition as_read (r : MessageRecord) : MessageRecord :=
  {| msg_id := msg_id r; from_uid := from_uid r; to_uid := to_uid r; content := content r;
     client_msg_id := client_msg_id r; status := status r; created_at_ms := created_at_ms r;
     delivered_at_ms := delivered_at_ms r; acked_at_ms := acked_at_ms r;
     retry_count := int32 (retry_count r) |}.

Lemma find_duplicate_Some A from c id r :
  store_wf A →
  find_duplicate A from c = Some r ∧ msg_id r = id ↔
  st_msgs A !! id = Some r ∧ from_uid r = from ∧ client_msg_id r = c.
Proof.
  intros Hwf. unfold find_duplicate. set (P := λ r, from_uid r = from ∧ client_msg_id r = c).
  assert (∀ r, r ∈ filter P ((map_to_list (st_msgs A)).*2) ↔
    P r ∧ ∃ id, st_msgs A !! id = Some r) as Hin.
  { intros r'. rewrite list_elem_of_filter, list_elem_of_fmap. split.
    - intros (HP & [i r''] & -> & Hi%elem_of_map_to_list). eauto.
    - intros (HP & i & Hi). split; [done|]. exists (i, r'). split; [done|].
      by apply elem_of_map_to_list. }
  destruct (filter P _) as [|r0 l] eqn:Hl.
  - split; [by intros [? _]|]. intros (Hi & HP). exfalso.
    assert (r ∈ @nil MessageRecord) as []%not_elem_of_nil. apply Hin. eauto.
  - assert (P r0 ∧ ∃ id, st_msgs A !! id = Some r0) as [HP0 [i0 Hi0]] by (apply Hin; by left).
    simpl. split.
    + intros [[= ->] <-]. destruct (wf_record _ Hwf _ _ Hi0) as [(-> & _) _]. by destruct HP0.
    + intros (Hi & Hf & Hc). destruct HP0 as [Hf0 Hc0].
      assert (i0 = id) as -> by (eapply (wf_unique _ Hwf); eauto; congruence).
      destruct (wf_record _ Hwf _ _ Hi) as [(-> & _) _]. split; [congruence|done].
Qed.

Lemma find_duplicate_None A from c id r :
  store_wf A → find_duplicate A from c = None →
  st_msgs A !! id = Some r → from_uid r = from → client_msg_id r = c → False.
Proof.
  intros Hwf Hn Hi Hf Hc.
  destruct (proj2 (find_duplicate_Some A from c id r Hwf)) as [? _]; [done|congruence].
Qed.

(** ** Keys

    Every key the store uses is the text of one of six forms; distinct forms
    and distinct arguments have distinct texts. *)
Inductive key :=
  | KNext | KMsg (id : N) | KPending (uid : N) | KRecent (uid : N)
  | KIdem (from : N) (client_id : string) | KDelivered.

Definition key_text (k : key) : string :=
  match k with
  | KNext => kRedisMsgNextIdKey
  | KMsg id => MakeMessageKey id
  | KPending uid => MakePendingKey uid
  | KRecent uid => MakeRecentKey uid
  | KIdem from c => MakeIdempotencyKey from c
  | KDelivered => kRedisDeliveredTimeoutKey
  end.

Lemma app_cons c s t : String c s +:+ t = String c (s +:+ t).
Proof. done. Qed.
Lemma app_empty t : "" +:+ t = t.
Proof. done. Qed.

Lemma to_string_not_next id : to_string id ≠ "next_id".
Proof.
  intros H. pose proof (to_string_digit id) as (c & s & Hs & Hc). rewrite H in Hs.
  injection Hs as <- <-. by destruct Hc.
Qed.

Lemma colon_not_digit s : ¬ starts_with_digit (":" +:+ s).
Proof. intros (c & s' & [= <- <-] & Hc). by destruct Hc. Qed.

(** The client message id is recovered from its key whatever it contains: the
    sender's number ends at the first colon. *)
Lemma MakeClientMsgKey_inj f c f' c' :
  MakeClientMsgKey f c = MakeClientMsgKey f' c' → f = f' ∧ c = c'.
Proof.
  unfold MakeClientMsgKey. intros H.
  apply to_string_app_inj in H as [-> H]; [|apply colon_not_digit..].
  split; [done|]. by injection H.
Qed.

#[export] Instance key_text_inj : Inj (=) (=) key_text.
Proof.
  intros k1 k2 H. destruct k1, k2; try done;
    unfold key_text, MakeMessageKey, MakePendingKey, MakeRecentKey, MakeIdempotencyKey,
      kRedisMsgNextIdKey, kRedisDeliveredTimeoutKey in H;
    rewrite ?app_cons, ?app_empty in H; try discriminate H; simplify_eq; try done.
  - exfalso. by eapply to_string_not_next.
  - exfalso. by eapply to_string_not_next.
  - lazymatch goal with
    | H' : MakeClientMsgKey _ _ = _ |- _ => apply MakeClientMsgKey_inj in H' as [-> ->]
    end. done.
Qed.

(** The keys the scripts build by concatenation. *)
Lemma pending_key_text uid : kRedisPendingKeyPrefix +:+ to_string uid = key_text (KPending uid).
Proof. done. Qed.
Lemma msg_key_text id : kRedisMsgKeyPrefix +:+ to_string id = key_text (KMsg id).
Proof. done. Qed.

#[global] Opaque key_text.

#[export] Instance key_eq_dec : EqDecision key.
Proof. solve_decision. Defined.

(** ** Representation *)

Definition status_text (s : MessageStatus) : string :=
  match s with
  | Pending => "Pending" | Delivered => "Delivered" | Acked => "Acked" | Failed => "Failed"
  end.

Definition record_texts (r : MessageRecord) : list string :=
  [to_string (msg_id r); to_string (from_uid r); to_string (to_uid r); content r;
   client_msg_id r; status_text (status r); to_string (created_at_ms r);
   to_string (delivered_at_ms r); to_string (acked_at_ms r);
   to_string (Z.to_N (retry_count r))].

Definition record_hash (r : MessageRecord) : gmap string string :=
  hset (zip record_fields (record_texts r)) ∅.

(** The sorted set indexing the records that satisfy [keep] by [score]. *)
Definition index_entry (keep : MessageRecord → bool) (score : MessageRecord → N)
    (r : MessageRecord) : option N :=
  if keep r then Some (score r) else None.
Definition index (keep : MessageRecord → bool) (score : MessageRecord → N)
    (msgs : gmap N MessageRecord) : gmap string N :=
  kmap to_string (omap (index_entry keep score) msgs).

Definition is_pending_for (uid : N) (r : MessageRecord) : bool :=
  (to_uid r =? uid) && bool_decide (status r = Pending).
Definition is_delivered (r : MessageRecord) : bool := bool_decide (status r = Delivered).
Definition involves (uid : N) (r : MessageRecord) : bool :=
  (from_uid r =? uid) || (to_uid r =? uid).

Definition pending_index (A : store) (uid : N) :=
  index (is_pending_for uid) created_at_ms (st_msgs A).
Definition recent_index (A : store) (uid : N) :=
  index (involves uid) created_at_ms (st_msgs A).
Definition delivered_index (A : store) := index is_delivered delivered_at_ms (st_msgs A).

Record Rep (m : keyspace) (A : store) : Prop := {
  rep_next : m !! key_text KNext = Some (VStr (to_string (st_next A))) ∨
             m !! key_text KNext = None ∧ st_next A = 0;
  rep_msg : ∀ id, m !! key_text (KMsg id) = VHash ∘ record_hash <$> st_msgs A !! id;
  rep_idem : ∀ f c, m !! key_text (KIdem f c) =
    VStr ∘ to_string ∘ msg_id <$> find_duplicate A f c;
  rep_pending : ∀ uid, zset_at m (key_text (KPending uid)) = Some (pending_index A uid);
  rep_recent : ∀ uid, zset_at m (key_text (KRecent uid)) = Some (recent_index A uid);
  rep_delivered : zset_at m (key_text KDelivered) = Some (delivered_index A) }.

Lemma Rep_empty : Rep ∅ empty_store.
Proof.
  assert (∀ keep score, index keep score ∅ = ∅) as Hi.
  { intros keep score. unfold index. by rewrite omap_empty, (kmap_empty to_string). }
  constructor; intros; unfold zset_at, pending_index, recent_index, delivered_index;
    cbn [st_msgs empty_store]; rewrite ?Hi; repeat rewrite lookup_empty; try done.
  right. by split.
Qed.

Lemma store_wf_empty : store_wf empty_store.
Proof. constructor; [intros id r|intros id1 id2 r1 r2|]; done. Qed.

(** ** Indices under updates *)

Lemma index_insert keep score msgs id r :
  index keep score (<[id := r]> msgs) =
    match index_entry keep score r with
    | Some sc => <[to_string id := sc]> (index keep score msgs)
    | None => delete (to_string id) (index keep score msgs)
    end.
Proof.
  unfold index. rewrite omap_insert.
  destruct (index_entry keep score r); [apply (kmap_insert to_string)|apply (kmap_delete to_string)].
Qed.

Lemma index_lookup keep score msgs id :
  index keep score msgs !! to_string id = msgs !! id ≫= index_entry keep score.
Proof. unfold index. by rewrite (lookup_kmap to_string), lookup_omap. Qed.

(** An update that does not change a record's entry leaves the index alone. *)
Lemma index_insert_same keep score msgs id r r' :
  msgs !! id = Some r → index_entry keep score r' = index_entry keep score r →
  index keep score (<[id := r']> msgs) = index keep score msgs.
Proof.
  intros Hi He. rewrite index_insert, He.
  pose proof (index_lookup keep score msgs id) as Hl. rewrite Hi in Hl. simpl in Hl.
  destruct (index_entry keep score r); [by apply insert_id|by apply delete_id].
Qed.

Lemma index_insert_new keep score msgs id r :
  msgs !! id = None → index_entry keep score r = None →
  index keep score (<[id := r]> msgs) = index keep score msgs.
Proof.
  intros Hi He. rewrite index_insert, He. apply delete_id. by rewrite index_lookup, Hi.
Qed.

(** ** Key spaces under writes *)

Lemma zset_at_insert m k z : zset_at (<[k := VZSet z]> m) k = Some z.
Proof. unfold zset_at. by rewrite lookup_insert_eq. Qed.

Lemma zset_at_insert_ne m k k' v : k ≠ k' → zset_at (<[k := v]> m) k' = zset_at m k'.
Proof. intros ?. unfold zset_at. by rewrite lookup_insert_ne. Qed.

Lemma zset_at_store m k z : zset_at (store_zset k z m) k = Some z.
Proof.
  unfold zset_at, store_zset. case_decide as Hz; [subst; by rewrite lookup_delete_eq|].
  by rewrite lookup_insert_eq.
Qed.

Lemma lookup_store_ne m k k' z : k ≠ k' → store_zset k z m !! k' = m !! k'.
Proof.
  intros ?. unfold store_zset. case_decide; [by rewrite lookup_delete_ne|].
  by rewrite lookup_insert_ne.
Qed.

Lemma zset_at_store_ne m k k' z : k ≠ k' → zset_at (store_zset k z m) k' = zset_at m k'.
Proof. intros ?. unfold zset_at. by rewrite lookup_store_ne. Qed.

Lemma hash_at_lookup m k h : m !! k = Some (VHash h) → hash_at m k = Some h.
Proof. intros H. unfold hash_at. by rewrite H. Qed.

(** Distinct keys, as texts. *)
Ltac key_ne :=
  lazymatch goal with
  | |- key_text _ ≠ key_text _ =>
      let H := fresh in intros H; apply (inj key_text) in H; congruence
  end.

(** Read through the writes made to other keys. *)
Ltac read_keys :=
  repeat match goal with
  | |- context [<[key_text ?k := ?v]> ?m !! key_text ?k] =>
      rewrite (lookup_insert_eq m (key_text k) v)
  | |- context [<[key_text ?k := ?v]> ?m !! key_text ?k'] =>
      rewrite (lookup_insert_ne m (key_text k) (key_text k') v) by key_ne
  | |- context [store_zset (key_text ?k) ?z ?m !! key_text ?k'] =>
      rewrite (lookup_store_ne m (key_text k) (key_text k') z) by key_ne
  | |- context [zset_at (<[key_text ?k := VZSet ?z]> ?m) (key_text ?k)] =>
      rewrite (zset_at_insert m (key_text k) z)
  | |- context [zset_at (<[key_text ?k := ?v]> ?m) (key_text ?k')] =>
      rewrite (zset_at_insert_ne m (key_text k) (key_text k') v) by key_ne
  | |- context [zset_at (store_zset (key_text ?k) ?z ?m) (key_text ?k)] =>
      rewrite (zset_at_store m (key_text k) z)
  | |- context [zset_at (store_zset (key_text ?k) ?z ?m) (key_text ?k')] =>
      rewrite (zset_at_store_ne m (key_text k) (key_text k') z) by key_ne
  end.

(** ** Updating one record *)

Definition same_identity (r r' : MessageRecord) : Prop :=
  msg_id r' = msg_id r ∧ from_uid r' = from_uid r ∧ to_uid r' = to_uid r ∧
  content r' = content r ∧ client_msg_id r' = client_msg_id r ∧
  created_at_ms r' = created_at_ms r.

Definition put_record (id : N) (r : MessageRecord) (A : store) : store :=
  {| st_next := st_next A; st_msgs := <[id := r]> (st_msgs A) |}.

Lemma st_update_Some f id A r :
  st_msgs A !! id = Some r → st_update f id A = (put_record id (f r) A, true).
Proof. intros H. unfold st_update. by rewrite H. Qed.

Lemma store_wf_put A id r r' :
  store_wf A → st_msgs A !! id = Some r → same_identity r r' → record_wf id r' →
  store_wf (put_record id r' A).
Proof.
  intros Hwf Hi (_ & Hf & _ & _ & Hc & _) Hr. constructor; simpl; [| |by apply Hwf].
  - intros i x [[<- <-]|[_ Hx]]%lookup_insert_Some; [|by apply Hwf].
    split; [done|]. by eapply (wf_record _ Hwf).
  - intros i1 i2 r1 r2 [[<- <-]|[H1 H1']]%lookup_insert_Some
      [[<- <-]|[H2 H2']]%lookup_insert_Some ??; [done| | |by eapply (wf_unique _ Hwf)].
    + eapply (wf_unique _ Hwf); eauto; congruence.
    + eapply (wf_unique _ Hwf); eauto; congruence.
Qed.

Lemma find_duplicate_id A f c id :
  store_wf A →
  msg_id <$> find_duplicate A f c = Some id ↔
  ∃ r, st_msgs A !! id = Some r ∧ from_uid r = f ∧ client_msg_id r = c.
Proof.
  intros Hwf. rewrite fmap_Some. split.
  - intros (r & Hr & ->). exists r. by apply find_duplicate_Some.
  - intros (r & Hr). exists r. apply find_duplicate_Some in Hr as [??]; auto.
Qed.

Lemma find_duplicate_put A id r r' f c :
  store_wf A → st_msgs A !! id = Some r → same_identity r r' → record_wf id r' →
  msg_id <$> find_duplicate (put_record id r' A) f c = msg_id <$> find_duplicate A f c.
Proof.
  intros Hwf Hi Hs Hr. pose proof (store_wf_put _ _ _ _ Hwf Hi Hs Hr) as Hwf'.
  destruct Hs as (_ & Hf & _ & _ & Hc & _).
  apply option_eq. intros i. rewrite !find_duplicate_id by done. simpl. split.
  - intros (x & [[<- <-]|[_ Hl]]%lookup_insert_Some & <- & <-); [|eauto].
    exists r. by rewrite Hf, Hc.
  - intros (x & Hl & <- & <-). destruct (decide (id = i)) as [->|Hne].
    + exists r'. rewrite lookup_insert_eq. by simplify_eq.
    + exists x. by rewrite lookup_insert_ne.
Qed.

(** A write of the record [id] keeps the representation if the key space
    follows it at the record's hash and in the two indices that depend on its
    status, and nowhere else. *)
Lemma Rep_put m m' A id r r' :
  Rep m A → store_wf A → st_msgs A !! id = Some r →
  same_identity r r' → record_wf id r' →
  (∀ k, k ≠ KMsg id → k ≠ KPending (to_uid r) → k ≠ KDelivered →
    m' !! key_text k = m !! key_text k) →
  m' !! key_text (KMsg id) = Some (VHash (record_hash r')) →
  zset_at m' (key_text (KPending (to_uid r))) =
    Some (index (is_pending_for (to_uid r)) created_at_ms (<[id := r']> (st_msgs A))) →
  zset_at m' (key_text KDelivered) =
    Some (index is_delivered delivered_at_ms (<[id := r']> (st_msgs A))) →
  Rep m' (put_record id r' A).
Proof.
  intros HR Hwf Hi Hs Hr Hframe Hmsg Hpend Hdel.
  pose proof Hs as (_ & Hf & Ht & _ & _ & Hc).
  assert (∀ k, k ≠ KMsg id → k ≠ KPending (to_uid r) → k ≠ KDelivered →
    zset_at m' (key_text k) = zset_at m (key_text k)) as Hframe'.
  { intros k ???. unfold zset_at. by rewrite Hframe. }
  constructor; cbn [st_next st_msgs put_record].
  - rewrite Hframe by done. exact (rep_next _ _ HR).
  - intros i. destruct (decide (id = i)) as [->|Hne].
    + by rewrite Hmsg, lookup_insert_eq.
    + rewrite Hframe, lookup_insert_ne by congruence. exact (rep_msg _ _ HR i).
  - intros f c. rewrite Hframe by done. rewrite (rep_idem _ _ HR), !option_fmap_compose.
    by rewrite (find_duplicate_put A id r r').
  - intros uid. destruct (decide (uid = to_uid r)) as [->|Hne]; [done|].
    rewrite Hframe', (rep_pending _ _ HR) by congruence. f_equal.
    symmetry. apply index_insert_same with r; [done|]. unfold index_entry, is_pending_for.
    rewrite Ht. destruct (to_uid r =? uid) eqn:E; [|done]. apply N.eqb_eq in E. congruence.
  - intros uid. rewrite Hframe', (rep_recent _ _ HR) by done. f_equal.
    symmetry. apply index_insert_same with r; [done|]. unfold index_entry, involves.
    by rewrite Hf, Ht, Hc.
  - done.
Qed.

(** ** Record hashes *)

(** The ten fields, whatever their texts. *)
Lemma hash_fields (v0 v1 v2 v3 v4 v5 v6 v7 v8 v9 : string) :
  (λ f, bulk (hset (zip record_fields [v0; v1; v2; v3; v4; v5; v6; v7; v8; v9]) ∅ !! f))
    <$> record_fields =
  RStr <$> [v0; v1; v2; v3; v4; v5; v6; v7; v8; v9].
Proof. vm_compute. reflexivity. Qed.

Lemma record_hash_fields r :
  (λ f, bulk (record_hash r !! f)) <$> record_fields = RStr <$> record_texts r.
Proof. apply hash_fields. Qed.

Lemma hash_field_to (v0 v1 v2 v3 v4 v5 v6 v7 v8 v9 : string) :
  let h := hset (zip record_fields [v0; v1; v2; v3; v4; v5; v6; v7; v8; v9]) ∅ in
  h !! "to_uid" = Some v2 ∧ h !! "created_at_ms" = Some v6 ∧ h !! "retry_count" = Some v9.
Proof. vm_compute. done. Qed.

Lemma record_hash_lookups r :
  record_hash r !! "to_uid" = Some (to_string (to_uid r)) ∧
  record_hash r !! "created_at_ms" = Some (to_string (created_at_ms r)) ∧
  record_hash r !! "retry_count" = Some (to_string (Z.to_N (retry_count r))).
Proof. apply hash_field_to. Qed.

(** Two hashes built by insertions agree field by field. *)
Ltac hash_eq :=
  apply map_eq; intros k; cbn [hset zip record_fields zip_with];
  rewrite !lookup_insert; repeat (case_decide; try congruence).

(** Overwriting fields of a hash, whatever the texts. *)
Lemma hash_set_status (v0 v1 v2 v3 v4 v5 v6 v7 v8 v9 w : string) :
  hset [("status", w)] (hset (zip record_fields [v0; v1; v2; v3; v4; v5; v6; v7; v8; v9]) ∅) =
  hset (zip record_fields [v0; v1; v2; v3; v4; w; v6; v7; v8; v9]) ∅.
Proof. hash_eq. Qed.
Lemma hash_set_delivered (v0 v1 v2 v3 v4 v5 v6 v7 v8 v9 w t : string) :
  hset [("status", w); ("delivered_at_ms", t)]
    (hset (zip record_fields [v0; v1; v2; v3; v4; v5; v6; v7; v8; v9]) ∅) =
  hset (zip record_fields [v0; v1; v2; v3; v4; w; v6; t; v8; v9]) ∅.
Proof. hash_eq. Qed.
Lemma hash_set_acked (v0 v1 v2 v3 v4 v5 v6 v7 v8 v9 w t : string) :
  hset [("status", w); ("acked_at_ms", t)]
    (hset (zip record_fields [v0; v1; v2; v3; v4; v5; v6; v7; v8; v9]) ∅) =
  hset (zip record_fields [v0; v1; v2; v3; v4; w; v6; v7; t; v9]) ∅.
Proof. hash_eq. Qed.
Lemma hash_set_retry (v0 v1 v2 v3 v4 v5 v6 v7 v8 v9 w : string) :
  <["retry_count" := w]> (hset (zip record_fields [v0; v1; v2; v3; v4; v5; v6; v7; v8; v9]) ∅) =
  hset (zip record_fields [v0; v1; v2; v3; v4; v5; v6; v7; v8; w]) ∅.
Proof. hash_eq. Qed.

Lemma record_hash_set_status s r :
  hset [("status", status_text s)] (record_hash r) = record_hash (set_status s r).
Proof. apply hash_set_status. Qed.
Lemma record_hash_set_delivered now r :
  hset [("status", "Delivered"); ("delivered_at_ms", to_string now)] (record_hash r) =
  record_hash (set_delivered now r).
Proof. apply hash_set_delivered. Qed.
Lemma record_hash_set_acked now r :
  hset [("status", "Acked"); ("acked_at_ms", to_string now)] (record_hash r) =
  record_hash (set_acked now r).
Proof. apply hash_set_acked. Qed.
Lemma record_hash_inc_retry r :
  (0 ≤ retry_count r)%Z →
  <["retry_count" := to_string (Z.to_N (retry_count r) + 1)]> (record_hash r) =
  record_hash (inc_retry r).
Proof.
  intros ?. unfold record_hash at 1, record_texts. rewrite hash_set_retry.
  unfold record_hash, record_texts. simpl. repeat f_equal. lia.
Qed.

(** ** Creating a record *)

Definition add_record (now from to : N) (text c : string) (A : store) : store :=
  {| st_next := st_next A + 1;
     st_msgs := <[st_next A + 1 := new_record now (st_next A + 1) from to text c]> (st_msgs A) |}.

Lemma next_fresh A : store_wf A → st_msgs A !! (st_next A + 1) = None.
Proof.
  intros Hwf. destruct (st_msgs A !! _) eqn:E; [|done].
  apply (wf_record _ Hwf) in E as [_ ?]. lia.
Qed.

Lemma store_wf_add A now from to text c :
  store_wf A → find_duplicate A from c = None → st_next A + 1 < lua_exact →
  from < two64 → to < two64 → now < exact_score →
  store_wf (add_record now from to text c A).
Proof.
  intros Hwf Hd Hn Hf Ht Hnow. constructor; simpl; [| |done].
  - intros i r [[<- <-]|[_ Hi]]%lookup_insert_Some.
    + split; [|lia]. unfold record_wf, exact_score in *. simpl. repeat split; try done; lia.
    + destruct (wf_record _ Hwf _ _ Hi). split; [done|lia].
  - intros i1 i2 r1 r2 [[<- <-]|[H1 H1']]%lookup_insert_Some
      [[<- <-]|[H2 H2']]%lookup_insert_Some Hf' Hc'; simpl in *;
      [done| | |by eapply (wf_unique _ Hwf)]; exfalso; by eapply find_duplicate_None.
Qed.

Lemma find_duplicate_add A now from to text c f' c' :
  store_wf A → store_wf (add_record now from to text c A) →
  find_duplicate A from c = None →
  msg_id <$> find_duplicate (add_record now from to text c A) f' c' =
    if decide (f' = from ∧ c' = c) then Some (st_next A + 1)
    else msg_id <$> find_duplicate A f' c'.
Proof.
  intros Hwf Hwf' Hd. case_decide as Hk.
  - destruct Hk as [-> ->]. apply find_duplicate_id; [done|]. simpl.
    eexists. by rewrite lookup_insert_eq.
  - apply option_eq. intros i. rewrite !find_duplicate_id by done. simpl. split.
    + intros (x & [[<- <-]|[_ Hl]]%lookup_insert_Some & <- & <-); [|eauto].
      by destruct Hk.
    + intros (x & Hl & Hx). exists x. rewrite lookup_insert_ne; [done|].
      intros <-. by rewrite next_fresh in Hl.
Qed.

(** The key space after the writes of the create script. *)
Lemma Rep_add m m' A now from to text c :
  Rep m A → store_wf A → store_wf (add_record now from to text c A) →
  find_duplicate A from c = None →
  let id := st_next A + 1 in let r := new_record now id from to text c in
  (∀ k, k ≠ KNext → k ≠ KMsg id → k ≠ KIdem from c → k ≠ KPending to →
    k ≠ KRecent from → k ≠ KRecent to → m' !! key_text k = m !! key_text k) →
  m' !! key_text KNext = Some (VStr (to_string id)) →
  m' !! key_text (KIdem from c) = Some (VStr (to_string id)) →
  m' !! key_text (KMsg id) = Some (VHash (record_hash r)) →
  zset_at m' (key_text (KPending to)) = Some (<[to_string id := now]> (pending_index A to)) →
  (∀ uid, involves uid r = true →
    zset_at m' (key_text (KRecent uid)) = Some (<[to_string id := now]> (recent_index A uid))) →
  Rep m' (add_record now from to text c A).
Proof.
  intros HR Hwf Hwf' Hd id r Hframe Hnext Hidem Hmsg Hpend Hrec.
  pose proof (next_fresh A Hwf) as Hfresh. fold id in Hfresh.
  assert (∀ k, k ≠ KNext → k ≠ KMsg id → k ≠ KIdem from c → k ≠ KPending to →
    k ≠ KRecent from → k ≠ KRecent to → zset_at m' (key_text k) = zset_at m (key_text k)) as Hz.
  { intros k ??????. unfold zset_at. by rewrite Hframe. }
  constructor; cbn [st_next st_msgs add_record]; fold id; fold r.
  - by left.
  - intros i. destruct (decide (id = i)) as [<-|Hne].
    + by rewrite Hmsg, lookup_insert_eq.
    + rewrite Hframe, lookup_insert_ne by congruence. exact (rep_msg _ _ HR i).
  - intros f' c'. rewrite !option_fmap_compose, find_duplicate_add by done.
    case_decide as Hk; [by destruct Hk as [-> ->]|].
    rewrite Hframe, (rep_idem _ _ HR), !option_fmap_compose;
      [done|done|done|by intros [= -> ->]; apply Hk|done..].
  - intros uid. unfold pending_index. cbn [st_msgs add_record]. fold id; fold r.
    destruct (decide (uid = to)) as [->|Hne].
    + rewrite Hpend, index_insert. unfold index_entry, is_pending_for. simpl.
      by rewrite N.eqb_refl.
    + rewrite Hz, (rep_pending _ _ HR), index_insert_new; try done; try congruence.
      unfold index_entry, is_pending_for. simpl. destruct (to =? uid) eqn:E; [|done].
      apply N.eqb_eq in E. congruence.
  - intros uid. unfold recent_index. cbn [st_msgs add_record]. fold id; fold r.
    destruct (involves uid r) eqn:Hi.
    + rewrite Hrec, index_insert by done. unfold index_entry. by rewrite Hi.
    + rewrite index_insert_new by (unfold index_entry; rewrite ?Hi; done).
      unfold involves in Hi. simpl in Hi. apply orb_false_iff in Hi as [?%N.eqb_neq ?%N.eqb_neq].
      rewrite Hz by congruence. exact (rep_recent _ _ HR uid).
  - unfold delivered_index. cbn [st_msgs add_record]. fold id; fold r.
    rewrite index_insert_new, Hz by done. apply (rep_delivered _ _ HR).
Qed.

(** ** The scripts refine the abstract operations *)

Definition state_keys (id : N) : list string :=
  [key_text (KMsg id); key_text KDelivered].
Definition state_args (id now : N) : list string :=
  [to_string id; to_string now; kRedisPendingKeyPrefix].
Definition acked_args (id uid now : N) : list string :=
  [to_string id; to_string uid; to_string now; kRedisPendingKeyPrefix].

Definition create_keys (from to : N) (c : string) : list string :=
  [key_text (KIdem from c); key_text KNext; key_text (KPending to);
   key_text (KRecent from); key_text (KRecent to)].
Definition create_args (from to : N) (text c : string) (now : N) : list string :=
  [kRedisMsgKeyPrefix; to_string from; to_string to; text; c; to_string now].

(** Evaluate the Lua operations between two calls. *)
Ltac lua :=
  cbv beta;
  cbn [arg lookup list_lookup pred state_keys state_args acked_args create_keys create_args
       concat_in lua_tostring truthy negb lua_or];
  rewrite ?pending_key_text, ?msg_key_text.

Section scripts.
Context {R : Redis} {RL : RedisLaws R}.

Lemma Rep_hash m A id r :
  Rep m A → st_msgs A !! id = Some r →
  hash_at m (key_text (KMsg id)) = Some (record_hash r).
Proof. intros HR Hi. apply hash_at_lookup. by rewrite (rep_msg _ _ HR), Hi. Qed.

Lemma Rep_no_hash m A id :
  Rep m A → st_msgs A !! id = None →
  m !! key_text (KMsg id) = None ∧ hash_at m (key_text (KMsg id)) = Some ∅.
Proof.
  intros HR Hi. assert (m !! key_text (KMsg id) = None) as H
    by (by rewrite (rep_msg _ _ HR), Hi).
  split; [done|]. unfold hash_at. by rewrite H.
Qed.

(** A script that reads [to_uid] of a missing message stops at once. *)
Lemma to_uid_missing m A id q :
  Rep m A → st_msgs A !! id = None →
  script_triple (q LFalse) m m (RInt 0) →
  script_triple (SCall [LStr "HGET"; LStr (key_text (KMsg id)); LStr "to_uid"] q) m m (RInt 0).
Proof.
  intros HR Hi H. destruct (Rep_no_hash _ _ _ HR Hi) as [_ Hh].
  eapply call_HGET; [exact Hh|]. by rewrite lookup_empty.
Qed.

Lemma to_uid_found m A id r q m2 x :
  Rep m A → st_msgs A !! id = Some r →
  script_triple (q (LStr (to_string (to_uid r)))) m m2 x →
  script_triple (SCall [LStr "HGET"; LStr (key_text (KMsg id)); LStr "to_uid"] q) m m2 x.
Proof.
  intros HR Hi H. eapply call_HGET; [by eapply Rep_hash|].
  by rewrite (proj1 (record_hash_lookups r)).
Qed.

(** The sorted set a key holds, from the representation. *)
Ltac rep_index HR :=
  read_keys;
  lazymatch goal with
  | |- zset_at _ (key_text KDelivered) = _ => exact (rep_delivered _ _ HR)
  | |- zset_at _ (key_text (KPending _)) = _ => exact (rep_pending _ _ HR _)
  | |- zset_at _ (key_text (KRecent _)) = _ => exact (rep_recent _ _ HR _)
  end.

Ltac rep_put r :=
  eapply (Rep_put _ _ _ _ r); [eassumption..|done|done| | | |];
  [intros ????; read_keys; done|by read_keys|
   read_keys; rewrite index_insert; unfold index_entry, is_pending_for; simpl;
   rewrite ?N.eqb_refl; done
  |read_keys; rewrite index_insert; done].

Lemma mark_delivered_triple m A id now :
  Rep m A → store_wf A → now < exact_score →
  ∃ m', script_triple (kMarkDeliveredScript (state_keys id) (state_args id now)) m m'
    (RInt (if (st_mark_delivered now id A).2 then 1 else 0))
    ∧ Rep m' (st_mark_delivered now id A).1.
Proof.
  intros HR Hwf Hnow. unfold st_mark_delivered.
  destruct (st_msgs A !! id) as [r|] eqn:Hi.
  2: { unfold st_update. rewrite Hi. exists m. split; [|done].
       eapply to_uid_missing; [done..|apply triple_return]. }
  rewrite (st_update_Some _ _ _ _ Hi). cbn [fst snd].
  destruct (wf_record _ Hwf _ _ Hi) as [Hr _].
  assert (record_wf id (set_delivered now r)) as Hr' by (unfold record_wf in *; simpl; tauto).
  eexists. split.
  - eapply to_uid_found; [done..|]. lua.
    eapply (call_HSET _ [("status", "Delivered"); ("delivered_at_ms", to_string now)]);
      [by eapply Rep_hash|done|done|intros _]. rewrite record_hash_set_delivered. lua.
    eapply (call_ZREM (key_text (KPending (to_uid r)))); [rep_index HR|intros _]. lua.
    eapply (call_ZADD (key_text KDelivered) now); [rep_index HR|done|done|intros _].
    apply triple_return.
  - rep_put r.
Qed.

Lemma mark_pending_triple m A id now :
  Rep m A → store_wf A →
  ∃ m', script_triple (kMarkPendingScript (state_keys id) (state_args id now)) m m'
    (RInt (if (st_mark_pending id A).2 then 1 else 0))
    ∧ Rep m' (st_mark_pending id A).1.
Proof.
  intros HR Hwf. unfold st_mark_pending. destruct (st_msgs A !! id) as [r|] eqn:Hi.
  2: { unfold st_update. rewrite Hi. exists m. split; [|done].
       eapply to_uid_missing; [done..|apply triple_return]. }
  rewrite (st_update_Some _ _ _ _ Hi). cbn [fst snd].
  destruct (wf_record _ Hwf _ _ Hi) as [Hr _].
  assert (record_wf id (set_status Pending r)) as Hr' by (unfold record_wf in *; simpl; tauto).
  eexists. split.
  - eapply to_uid_found; [done..|]. lua.
    eapply call_HGET; [by eapply Rep_hash|].
    rewrite (proj1 (proj2 (record_hash_lookups r))). lua.
    eapply (call_HSET _ [("status", "Pending")]);
      [by eapply Rep_hash|done|done|intros _].
    rewrite (record_hash_set_status Pending). lua.
    eapply (call_ZREM (key_text KDelivered)); [rep_index HR|intros _]. lua.
    eapply (call_ZADD (key_text (KPending (to_uid r))) (created_at_ms r));
      [rep_index HR|apply Hr|done|intros _].
    apply triple_return.
  - rep_put r.
Qed.

Lemma mark_failed_triple m A id now :
  Rep m A → store_wf A →
  ∃ m', script_triple (kMarkFailedScript (state_keys id) (state_args id now)) m m'
    (RInt (if (st_mark_failed id A).2 then 1 else 0))
    ∧ Rep m' (st_mark_failed id A).1.
Proof.
  intros HR Hwf. unfold st_mark_failed. destruct (st_msgs A !! id) as [r|] eqn:Hi.
  2: { unfold st_update. rewrite Hi. exists m. split; [|done].
       eapply to_uid_missing; [done..|apply triple_return]. }
  rewrite (st_update_Some _ _ _ _ Hi). cbn [fst snd].
  destruct (wf_record _ Hwf _ _ Hi) as [Hr _].
  assert (record_wf id (set_status Failed r)) as Hr' by (unfold record_wf in *; simpl; tauto).
  eexists. split.
  - eapply to_uid_found; [done..|]. lua.
    eapply (call_HSET _ [("status", "Failed")]); [by eapply Rep_hash|done|done|intros _].
    rewrite (record_hash_set_status Failed). lua.
    eapply (call_ZREM (key_text KDelivered)); [rep_index HR|intros _]. lua.
    eapply (call_ZREM (key_text (KPending (to_uid r)))); [rep_index HR|intros _].
    apply triple_return.
  - rep_put r.
Qed.

Lemma mark_acked_triple m A id uid now :
  Rep m A → store_wf A → now < exact_score →
  ∃ m', script_triple (kMarkAckedScript (state_keys id) (acked_args id uid now)) m m'
    (RInt (if (st_mark_acked now id uid A).2 then 1 else 0))
    ∧ Rep m' (st_mark_acked now id uid A).1.
Proof.
  intros HR Hwf Hnow. unfold st_mark_acked. destruct (st_msgs A !! id) as [r|] eqn:Hi.
  2: { exists m. split; [|done]. eapply to_uid_missing; [done..|apply triple_return]. }
  destruct (to_uid r =? uid) eqn:Ht; [apply N.eqb_eq in Ht|apply N.eqb_neq in Ht].
  - rewrite (st_update_Some _ _ _ _ Hi). cbn [fst snd].
    destruct (wf_record _ Hwf _ _ Hi) as [Hr _].
    assert (record_wf id (set_acked now r)) as Hr' by (unfold record_wf in *; simpl; tauto).
    eexists. split.
    + eapply to_uid_found; [done..|]. lua. cbn [lua_eqb].
      rewrite bool_decide_true by (by rewrite Ht). lua.
      eapply (call_HSET _ [("status", "Acked"); ("acked_at_ms", to_string now)]);
        [by eapply Rep_hash|done|done|intros _].
      rewrite record_hash_set_acked. lua.
      eapply (call_ZREM (key_text KDelivered)); [rep_index HR|intros _]. lua.
      eapply (call_ZREM (key_text (KPending (to_uid r)))); [rep_index HR|intros _].
      apply triple_return.
    + rep_put r.
  - exists m. split; [|done]. eapply to_uid_found; [done..|]. lua. cbn [lua_eqb].
    rewrite bool_decide_false by (intros Hx; by apply (inj to_string) in Hx).
    apply triple_return.
Qed.

Lemma increment_retry_triple m A id :
  Rep m A → store_wf A →
  (∀ r, st_msgs A !! id = Some r → (retry_count r + 1 < Z.of_N exact_score)%Z) →
  ∃ m', script_triple (kIncrementRetryScript [key_text (KMsg id)]) m m'
    (RInt (if (st_increment_retry id A).2 then 1 else 0))
    ∧ Rep m' (st_increment_retry id A).1.
Proof.
  intros HR Hwf Hb. unfold st_increment_retry. destruct (st_msgs A !! id) as [r|] eqn:Hi.
  - rewrite (st_update_Some _ _ _ _ Hi). cbn [fst snd].
    destruct (wf_record _ Hwf _ _ Hi) as [Hr _]. specialize (Hb _ eq_refl).
    assert (0 ≤ retry_count r)%Z as H0 by apply Hr.
    assert (record_wf id (inc_retry r)) as Hr' by (unfold record_wf, exact_score in *; simpl in *; lia).
    pose proof (Rep_hash _ _ _ _ HR Hi) as Hh.
    eexists. split.
    + eapply call_EXISTS. rewrite decide_True by (rewrite (rep_msg _ _ HR), Hi; eauto). lua.
      eapply (call_HINCRBY _ _ _ (Z.to_N (retry_count r))); [exact Hh| | |intros _].
      * apply record_hash_lookups.
      * unfold exact_score in *. lia.
      * rewrite record_hash_inc_retry by done. apply triple_return.
    + eapply (Rep_put _ _ _ _ r); [eassumption..|done|done| | | |].
      * intros k ???. by read_keys.
      * by read_keys.
      * read_keys. rewrite (index_insert_same _ _ _ _ r) by done. exact (rep_pending _ _ HR _).
      * read_keys. rewrite (index_insert_same _ _ _ _ r) by done. apply (rep_delivered _ _ HR).
  - unfold st_update. rewrite Hi. exists m. split; [|done].
    destruct (Rep_no_hash _ _ _ HR Hi) as [Hn _].
    eapply call_EXISTS. rewrite decide_False by (rewrite Hn; by intros []).
    apply triple_return.
Qed.

(** The reply carries the created flag and the ten fields of the record. *)
Definition create_reply (res : MessageRecord * bool) : reply :=
  RArr (RStr (if res.2 then "1" else "0") :: (RStr <$> record_texts res.1)).

Lemma lua_of_strings l : lua_of_reply (RArr (RStr <$> l)) = LTable (LStr <$> l).
Proof. simpl. f_equal. by rewrite <-list_fmap_compose. Qed.

Lemma lua_to_strings l : lua_to_reply (LTable (LStr <$> l)) = RArr (RStr <$> l).
Proof. simpl. f_equal. by rewrite <-list_fmap_compose. Qed.

Lemma create_duplicate m A now from to text c r :
  Rep m A → store_wf A → find_duplicate A from c = Some r →
  script_triple (kCreateMessageScript (create_keys from to c) (create_args from to text c now))
    m m (create_reply (r, false)).
Proof.
  intros HR Hwf Hd.
  assert (st_msgs A !! msg_id r = Some r) as Hi
    by (by eapply (find_duplicate_Some A from c)).
  unfold kCreateMessageScript. lua. eapply call_GET. intros v Hv.
  rewrite (rep_idem _ _ HR), Hd in Hv. subst v. cbn [fmap option_fmap option_map compose].
  lua. eapply call_EXISTS. rewrite decide_True by (rewrite (rep_msg _ _ HR), Hi; eauto).
  cbn [lua_eqb Z.eqb Pos.eqb].
  eapply call_HMGET; [by eapply Rep_hash|].
  rewrite record_hash_fields, lua_of_strings. cbn [table_insert_front].
  pose proof (triple_return (LTable (LStr <$> ("0" :: record_texts r))) m) as Ht.
  rewrite lua_to_strings in Ht. exact Ht.
Qed.

(** The writes for a new message, on any key space representing the store. *)
Lemma create_new_triple m A now from to text c :
  Rep m A → store_wf A → find_duplicate A from c = None →
  st_next A + 1 < lua_exact → from < two64 → to < two64 → now < exact_score →
  ∃ m', script_triple (create_new (create_keys from to c) (create_args from to text c now)) m m'
      (create_reply (new_record now (st_next A + 1) from to text c, true))
    ∧ Rep m' (add_record now from to text c A).
Proof.
  intros HR Hwf Hd Hn Hf Ht Hnow.
  pose proof (store_wf_add _ now from to text c Hwf Hd Hn Hf Ht Hnow) as Hwf'.
  set (id := st_next A + 1) in *. set (r := new_record now id from to text c).
  assert (id < exact_score) as Hid by (unfold exact_score, lua_exact in *; lia).
  pose proof (next_fresh A Hwf) as Hfresh. fold id in Hfresh.
  eexists. split.
  - unfold create_new. lua. eapply (call_INCR _ (st_next A)); [apply (rep_next _ _ HR)|done|].
    fold id. unfold concat_in. cbn [lua_tostring]. rewrite lua_number_text_exact by done.
    cbv iota. rewrite msg_key_text.
    eapply (call_SET _ (to_string id)); [cbn [mapM]; by rewrite lua_arg_number|intros _].
    eapply (call_HSET _ (zip record_fields (record_texts r)));
      [|done|cbn [mapM]; by rewrite lua_arg_number|intros _].
    { unfold hash_at. read_keys. by rewrite (rep_msg _ _ HR), Hfresh. }
    eapply (call_ZADD (key_text (KPending to)) now (to_string id));
      [rep_index HR|done|cbn [mapM]; by rewrite lua_arg_number|intros _].
    eapply (call_ZADD (key_text (KRecent from)) now (to_string id));
      [rep_index HR|done|cbn [mapM]; by rewrite lua_arg_number|intros _].
    eapply (call_ZADD (key_text (KRecent to)) now (to_string id)
      (if decide (from = to) then <[to_string id := now]> (recent_index A from)
       else recent_index A to));
      [|done|cbn [mapM]; by rewrite lua_arg_number|intros _].
    { case_decide as Hft; [subst; read_keys; reflexivity|rep_index HR]. }
    pose proof (triple_return (LTable (LStr <$> ("1" :: record_texts r)))) as Hret.
    setoid_rewrite lua_to_strings in Hret. apply Hret.
  - apply (Rep_add m); [done..| | | | | |]; fold id; fold r.
    + intros k ? Hk ????. by read_keys.
    + by read_keys.
    + by read_keys.
    + by read_keys.
    + by read_keys.
    + intros uid Hi. unfold involves in Hi. simpl in Hi.
      destruct (decide (uid = to)) as [->|Hto].
      * read_keys. case_decide as Hft; [|reflexivity].
        rewrite Hft. by rewrite insert_insert_eq.
      * destruct (to =? uid) eqn:E1; [apply N.eqb_eq in E1; congruence|].
        rewrite orb_false_r in Hi. apply N.eqb_eq in Hi as ->. by read_keys.
Qed.

Lemma create_triple m A now from to text c :
  Rep m A → store_wf A → st_next A + 1 < lua_exact →
  from < two64 → to < two64 → now < exact_score →
  let res := st_create now from to text c A in
  store_wf res.1 ∧
  ∃ m', script_triple (kCreateMessageScript (create_keys from to c)
      (create_args from to text c now)) m m' (create_reply res.2) ∧ Rep m' res.1.
Proof.
  intros HR Hwf Hn Hf Ht Hnow. unfold st_create.
  destruct (find_duplicate A from c) as [r|] eqn:Hd; cbn [fst snd].
  - split; [done|]. exists m. split; [|done]. by apply (create_duplicate _ A).
  - split; [by apply store_wf_add|].
    destruct (create_new_triple m A now from to text c) as (m' & Hm' & HR'); [done..|].
    exists m'. split; [|done]. unfold kCreateMessageScript. lua.
    eapply call_GET. intros v Hv. rewrite (rep_idem _ _ HR), Hd in Hv. by subst v.
Qed.
End scripts.
