(* ===== verification/StoreRefine.v ===== *)
(** * The methods of MessageStore implement the abstract store

    Every method of [MessageStore.cpp], run on a server whose Redis holds the
    abstract store, performs the abstract operation and returns its result;
    a lost request changes nothing, a lost reply loses only the result. *)

From S2P Require Import Prelude Decimal Prog Redis RedisInstance Scripts UserState Sys.
From S2P Require Import MessageStore StoreSpec.
Local Open Scope N_scope.

#[global] Arguments kCreateMessageScript : simpl never.
#[global] Arguments kMarkDeliveredScript : simpl never.
#[global] Arguments kMarkPendingScript : simpl never.
#[global] Arguments kMarkAckedScript : simpl never.
#[global] Arguments kMarkFailedScript : simpl never.
#[global] Arguments kIncrementRetryScript : simpl never.
#[global] Arguments eval_script : simpl never.
#[global] Arguments redis_request : simpl never.

(** ** Reading replies back *)

Lemma ParseUint64_to_string n : n < two64 → ParseUint64 (Some (RStr (to_string n))) = Some n.
Proof.
  intros ?. unfold ParseUint64. cbn [ReplyToString mbind option_bind].
  rewrite decide_False by apply to_string_nonempty. rewrite strtoull_to_string by done.
  by rewrite decide_True.
Qed.

Lemma ParseInt_to_string z :
  (0 ≤ z < Z.of_N exact_score)%Z →
  ParseInt (Some (RStr (to_string (Z.to_N z)))) = Some (int32 z).
Proof.
  intros ?. unfold ParseInt. cbn [ReplyToString mbind option_bind].
  rewrite decide_False by apply to_string_nonempty.
  rewrite strtol_to_string by (unfold exact_score in *; lia).
  rewrite decide_True by done. do 2 f_equal. lia.
Qed.

Lemma ParseStatus_text s : ParseStatus (Some (RStr (status_text s))) = Some s.
Proof. by destruct s. Qed.

(** The ten texts of a record, at any offset of a reply, read back as it. *)
Lemma BuildRecordFromFields_texts pre id r :
  record_wf id r → id < two64 →
  BuildRecordFromFields (Some (RArr (pre ++ (RStr <$> record_texts r)))) (length pre) =
    Some (as_read r).
Proof.
  intros (? & ? & ? & ? & ? & ? & ? & ?) ?.
  unfold BuildRecordFromFields. rewrite length_app, length_fmap.
  rewrite decide_False by (unfold record_texts; simpl; lia).
  assert (∀ i, (pre ++ (RStr <$> record_texts r)) !! (length pre + i)%nat =
    (RStr <$> record_texts r) !! i) as Hl
    by (intros i; rewrite lookup_app_r by lia; f_equal; lia).
  rewrite !Hl. unfold record_texts.
  cbn [fmap list_fmap lookup list_lookup].
  rewrite !ParseUint64_to_string, ParseInt_to_string, ParseStatus_text
    by (unfold two64, exact_score in *; lia).
  reflexivity.
Qed.

(** ** One request *)

(** What a request under a fault leaves and returns. *)
Definition executed {T} (f : fault) (before after : T) : T :=
  match f with RequestLost => before | _ => after end.
Definition answered {T} (f : fault) (lost result : T) : T :=
  match f with NoFault => result | _ => lost end.

Section refine.
Context {R : Redis} {RL : RedisLaws R}.
Variable env : environment.

(** The world after [n] operations that changed only the database. *)
Definition advance (n : nat) (d : redis_db) (w : world) : world :=
  {| w_db := d; w_tick := n + w_tick w; w_users := w_users w; w_live := w_live w;
     w_out := w_out w |}.

(** The database holds the abstract store. *)
Definition db_rep (d : redis_db) (A : store) : Prop :=
  ∃ m, represents d m ∧ Rep m A ∧ store_wf A.

Lemma advance_advance n k d d' w : advance n d (advance k d' w) = advance (n + k) d w.
Proof. unfold advance. simpl. f_equal. lia. Qed.

Lemma request_script p m m' r w :
  script_triple p m m' r → represents (w_db w) m →
  let f := env_fault env (w_tick w) in
  ∃ d', redis_request env (eval_script p) w = (advance 1 d' w, answered f None (Some r)) ∧
    represents d' (executed f m m').
Proof.
  intros Hp Hm f. destruct (Hp _ Hm) as (d' & He & Hd'). unfold redis_request.
  fold f. rewrite He. destruct f; simpl; [exists d'|exists (w_db w)|exists d']; done.
Qed.

(** A single command that only reads. *)
Lemma request_read argv m r w :
  redis_doc argv m m r → represents (w_db w) m →
  let f := env_fault env (w_tick w) in
  ∃ d', redis_request env (redis_call argv) w = (advance 1 d' w, answered f None (Some r)) ∧
    represents d' m.
Proof.
  intros Hdoc Hm f. destruct (redis_documented _ _ _ _ _ Hm Hdoc) as (d' & Hc & Hd').
  unfold redis_request. fold f. rewrite Hc.
  destruct f; simpl; [exists d'|exists (w_db w)|exists d']; done.
Qed.

Lemma state_keys_eq id : [MakeMessageKey id; kRedisDeliveredTimeoutKey] = state_keys id.
Proof. reflexivity. Qed.
Lemma create_keys_eq from to c :
  [MakeIdempotencyKey from c; kRedisMsgNextIdKey; MakePendingKey to; MakeRecentKey from;
   MakeRecentKey to] = create_keys from to c.
Proof. reflexivity. Qed.
Lemma message_key_eq id : MakeMessageKey id = key_text (KMsg id).
Proof. reflexivity. Qed.

(** ** Well-formedness is kept *)

Lemma st_update_wf f id A :
  store_wf A →
  (∀ r, st_msgs A !! id = Some r → same_identity r (f r) ∧ record_wf id (f r)) →
  store_wf (st_update f id A).1.
Proof.
  intros Hwf Hf. unfold st_update. destruct (st_msgs A !! id) as [r|] eqn:Hi; [|done].
  destruct (Hf _ eq_refl). by apply (store_wf_put _ _ r).
Qed.

Lemma st_mark_delivered_wf now id A :
  store_wf A → now < exact_score → store_wf (st_mark_delivered now id A).1.
Proof.
  intros Hwf ?. apply st_update_wf; [done|]. intros r Hi.
  destruct (wf_record _ Hwf _ _ Hi) as [Hr _]. unfold record_wf in *.
  split; [done|simpl; tauto].
Qed.

Lemma st_set_status_wf s id A : store_wf A → store_wf (st_update (set_status s) id A).1.
Proof.
  intros Hwf. apply st_update_wf; [done|]. intros r Hi.
  destruct (wf_record _ Hwf _ _ Hi) as [Hr _]. unfold record_wf in *.
  split; [done|simpl; tauto].
Qed.

Lemma st_mark_acked_wf now id uid A :
  store_wf A → now < exact_score → store_wf (st_mark_acked now id uid A).1.
Proof.
  intros Hwf ?. unfold st_mark_acked. destruct (st_msgs A !! id) as [r|]; [|done].
  destruct (to_uid r =? uid); [|done]. apply st_update_wf; [done|]. intros r' Hi.
  destruct (wf_record _ Hwf _ _ Hi) as [Hr _]. unfold record_wf in *.
  split; [done|simpl; tauto].
Qed.

Definition retry_room (id : N) (A : store) : Prop :=
  ∀ r, st_msgs A !! id = Some r → (retry_count r + 1 < Z.of_N exact_score)%Z.

Lemma st_increment_retry_wf id A :
  store_wf A → retry_room id A → store_wf (st_increment_retry id A).1.
Proof.
  intros Hwf Hb. apply st_update_wf; [done|]. intros r Hi. specialize (Hb _ Hi).
  destruct (wf_record _ Hwf _ _ Hi) as [Hr _]. unfold record_wf, exact_score in *.
  split; [done|]. simpl in *. lia.
Qed.

(** ** The methods as calls

    The state-changing part of [MessageStore]'s interface: implementation,
    abstract meaning, and the result of a call whose reply is lost. *)
Inductive store_call : Type → Type :=
| CCreate (from to : N) (text c : string) : store_call CreateMessageResult
| CDelivered (id : N) : store_call bool
| CPending (id : N) : store_call bool
| CAcked (id uid : N) : store_call bool
| CFailed (id : N) : store_call bool
| CRetry (id : N) : store_call bool.

Definition call_impl {T} (c : store_call T) : sys T :=
  match c with
  | CCreate from to text c => createMessage from to text c
  | CDelivered id => markDelivered id
  | CPending id => markPending id
  | CAcked id uid => markAcked id uid
  | CFailed id => markFailed id
  | CRetry id => incrementRetryCount id
  end.

Definition create_result (res : MessageRecord * bool) : CreateMessageResult :=
  {| record := as_read res.1; created := res.2; ok := true |}.

Definition call_spec {T} (c : store_call T) (now : N) (A : store) : store * T :=
  match c with
  | CCreate from to text c =>
      let res := st_create now from to text c A in (res.1, create_result res.2)
  | CDelivered id => st_mark_delivered now id A
  | CPending id => st_mark_pending id A
  | CAcked id uid => st_mark_acked now id uid A
  | CFailed id => st_mark_failed id A
  | CRetry id => st_increment_retry id A
  end.

Definition call_lost {T} (c : store_call T) : T :=
  match c with CCreate _ _ _ _ => default_CreateMessageResult | _ => false end.

(** Arguments in the range of their types, and room for one more id. *)
Definition call_ok {T} (c : store_call T) (A : store) : Prop :=
  match c with
  | CCreate from to _ _ => from < two64 ∧ to < two64 ∧ st_next A + 1 < lua_exact
  | CRetry id => retry_room id A
  | _ => True
  end.

(** ** One request per call *)

Definition is_true_reply (b : bool) : reply := RInt (if b then 1 else 0).

(** The Redis request of a call, given the clock reading of the method. *)
Definition call_request {T} (now : N) (c : store_call T) : sysE (option reply) :=
  match c with
  | CCreate from to text c =>
      RedisEval kCreateMessageScript (create_keys from to c) (create_args from to text c now)
  | CDelivered id => RedisEval kMarkDeliveredScript (state_keys id) (state_args id now)
  | CPending id => RedisEval kMarkPendingScript (state_keys id) (state_args id now)
  | CAcked id uid => RedisEval kMarkAckedScript (state_keys id) (acked_args id uid now)
  | CFailed id => RedisEval kMarkFailedScript (state_keys id) (state_args id now)
  | CRetry id => RedisEval (λ KEYS _, kIncrementRetryScript KEYS) [key_text (KMsg id)] []
  end.

(** The reply of the server that executes it on the abstract store. *)
Definition call_reply {T} (c : store_call T) (now : N) (A : store) : reply :=
  match c with
  | CCreate from to text c => create_reply (st_create now from to text c A).2
  | CDelivered id => is_true_reply (st_mark_delivered now id A).2
  | CPending id => is_true_reply (st_mark_pending id A).2
  | CAcked id uid => is_true_reply (st_mark_acked now id uid A).2
  | CFailed id => is_true_reply (st_mark_failed id A).2
  | CRetry id => is_true_reply (st_increment_retry id A).2
  end.

Definition create_parse (reply : option reply) : CreateMessageResult :=
  match reply with
  | None | Some (RErr _) => default_CreateMessageResult
  | _ => default default_CreateMessageResult (BuildCreateResult reply)
  end.

Definition call_parse {T} (c : store_call T) : option reply → T :=
  match c with CCreate _ _ _ _ => create_parse | _ => ReplyIsTrue end.

Definition call_clock {T} (c : store_call T) : sys N :=
  match c with CRetry _ => mret 0 | _ => trigger NowMs end.

Lemma call_impl_eq {T} (c : store_call T) w :
  run (exec env) (call_impl c) w =
  run (exec env)
    (now ← call_clock c; reply ← trigger (call_request now c); mret (call_parse c reply)) w.
Proof.
  destruct c; try reflexivity. cbn -[exec].
  destruct (exec env _ _ w) as [w1 now]. cbn -[exec].
  destruct (exec env _ _ w1) as [w2 [[]|]]; reflexivity.
Qed.

(** The reply of the create script read back. *)
Lemma BuildCreateResult_reply A id res :
  store_wf A → st_msgs A !! id = Some res.1 →
  BuildCreateResult (Some (create_reply res)) = Some (create_result res).
Proof.
  intros Hwf Hi. destruct (wf_record _ Hwf _ _ Hi) as [Hr Hid].
  pose proof (wf_next _ Hwf) as Hn. unfold BuildCreateResult, create_reply.
  rewrite decide_True by done.
  cbn [lookup list_lookup ReplyToString mbind option_bind].
  pose proof (BuildRecordFromFields_texts [RStr (if res.2 then "1" else "0")] id res.1 Hr)
    as Hb. cbn [app length] in Hb.
  rewrite Hb by (unfold two64, lua_exact in *; lia). cbn [mbind option_bind].
  unfold create_result. by destruct res.2.
Qed.

Lemma st_create_found now from to text c A :
  store_wf A → ∃ id, st_msgs (st_create now from to text c A).1 !! id =
    Some (st_create now from to text c A).2.1.
Proof.
  intros Hwf. unfold st_create. destruct (find_duplicate A from c) as [r|] eqn:Hd; simpl.
  - exists (msg_id r). by eapply (find_duplicate_Some A from c).
  - eexists. by rewrite lookup_insert_eq.
Qed.

Lemma call_spec_wf {T} (c : store_call T) now A m :
  Rep m A → store_wf A → now < exact_score → call_ok c A → store_wf (call_spec c now A).1.
Proof.
  intros HR Hwf Hnow Hok. destruct c; cbn [call_spec fst].
  - destruct Hok as (? & ? & ?). by apply (create_triple m).
  - by apply st_mark_delivered_wf.
  - by apply st_set_status_wf.
  - by apply st_mark_acked_wf.
  - by apply st_set_status_wf.
  - by apply st_increment_retry_wf.
Qed.

(** The request of a call executes the abstract operation. *)
Lemma request_refines {T} (c : store_call T) now A w :
  db_rep (w_db w) A → now < exact_score → call_ok c A →
  let f := env_fault env (w_tick w) in
  ∃ d', exec env _ (call_request now c) w =
      (advance 1 d' w, answered f None (Some (call_reply c now A))) ∧
    db_rep d' (executed f A (call_spec c now A).1).
Proof.
  intros (m & Hm & HR & Hwf) Hnow Hok f.
  pose proof (call_spec_wf c now A m HR Hwf Hnow Hok) as Hwf'.
  assert (∃ s k a m', call_request now c = RedisEval s k a ∧
    script_triple (s k a) m m' (call_reply c now A) ∧ Rep m' (call_spec c now A).1)
    as (s & k & a & m' & -> & Hs & HR').
  { destruct c; do 3 eexists; cbn [call_request call_reply call_spec fst].
    - destruct Hok as (? & ? & ?).
      destruct (create_triple m A now from to text c) as (_ & m' & ? & ?); [done..|].
      by exists m'.
    - destruct (mark_delivered_triple m A id now) as (m' & ? & ?); [done..|]. by exists m'.
    - destruct (mark_pending_triple m A id now) as (m' & ? & ?); [done..|]. by exists m'.
    - destruct (mark_acked_triple m A id uid now) as (m' & ? & ?); [done..|]. by exists m'.
    - destruct (mark_failed_triple m A id now) as (m' & ? & ?); [done..|]. by exists m'.
    - destruct (increment_retry_triple m A id) as (m' & ? & ?); [done..|]. by exists m'. }
  destruct (request_script _ _ _ _ w Hs Hm) as (d' & Hreq & Hd').
  exists d'. split; [exact Hreq|]. exists (executed f m m'). split; [exact Hd'|].
  clearbody f. by destruct f; split.
Qed.

(** The reply of a call read back is its abstract result. *)
Lemma call_parse_reply {T} (c : store_call T) now A m f :
  Rep m A → store_wf A → now < exact_score → call_ok c A →
  call_parse c (answered f None (Some (call_reply c now A))) =
    answered f (call_lost c) (call_spec c now A).2.
Proof.
  intros HR Hwf Hnow Hok. pose proof (call_spec_wf c now A m HR Hwf Hnow Hok) as Hwf'.
  destruct c; cbn [call_parse call_reply call_lost call_spec fst snd] in *;
    destruct f; cbn [answered]; try done;
    try (unfold is_true_reply; by case_match).
  destruct (st_create_found now from to text c A Hwf) as [id Hid].
  pose proof (BuildCreateResult_reply _ _ _ Hwf' Hid) as Hb.
  unfold create_parse. cbn -[BuildCreateResult create_reply]. by rewrite Hb.
Qed.

(** The clock reading of a method and the number of operations before its
    request. *)
Definition call_reads {T} (c : store_call T) : nat :=
  match c with CRetry _ => 0 | _ => 1 end.
Definition call_now {T} (c : store_call T) (w : world) : N :=
  match c with CRetry _ => 0 | _ => env_clock env (w_tick w) end.

(** A state-changing method runs its abstract operation: the result is the
    abstract one, the database represents the abstract store after it,
    nothing else changes; a lost request has no effect and a lost reply has
    the whole effect. *)
Lemma call_refines {T} (c : store_call T) A w :
  let now := call_now c w in
  let f := env_fault env (call_reads c + w_tick w) in
  db_rep (w_db w) A → now < exact_score → call_ok c A →
  ∃ d', run (exec env) (call_impl c) w =
      (advance (S (call_reads c)) d' w, answered f (call_lost c) (call_spec c now A).2) ∧
    db_rep d' (executed f A (call_spec c now A).1).
Proof.
  intros now f Hd Hnow Hok. pose proof Hd as (m & _ & HR & Hwf).
  set (w1 := advance (call_reads c) (w_db w) w).
  assert (run (exec env) (call_clock c) w = (w1, now)) as Hclock
    by (destruct w, c; reflexivity).
  destruct (request_refines c now A w1) as (d' & He & Hd'); [done..|].
  exists d'. split; [|exact Hd'].
  rewrite call_impl_eq. unfold mbind, prog_bind. rewrite run_bind, Hclock.
  cbn [bind trigger run]. rewrite He, (call_parse_reply c now A m) by done.
  by destruct c.
Qed.

(** ** Sequences of calls *)

(** Room for [k] more messages and [k] more retries. *)
Definition room (k : nat) (A : store) : Prop :=
  st_next A + N.of_nat k < lua_exact ∧
  ∀ id r, st_msgs A !! id = Some r →
    (retry_count r + Z.of_nat k < Z.of_N exact_score)%Z.

Definition call_args_ok {T} (c : store_call T) : Prop :=
  match c with CCreate from to _ _ => from < two64 ∧ to < two64 | _ => True end.

Lemma room_call_ok {T} (c : store_call T) k A :
  room (S k) A → call_args_ok c → call_ok c A.
Proof.
  intros [Hn Hr] Hc. destruct c; try done.
  - destruct Hc. repeat split; [done..|lia].
  - intros r Hi. specialize (Hr _ _ Hi). lia.
Qed.

Lemma st_update_room f id k A :
  (∀ r, (retry_count (f r) ≤ retry_count r + 1)%Z) →
  room (S k) A → room k (st_update f id A).1.
Proof.
  intros Hf [Hn Hr]. unfold st_update. destruct (st_msgs A !! id) as [r|] eqn:Hi; simpl.
  - split; [simpl; lia|]. intros id' r'. cbn [st_msgs].
    destruct (decide (id' = id)) as [->|Hne].
    + rewrite lookup_insert_eq. intros [= <-]. specialize (Hr _ _ Hi). specialize (Hf r). lia.
    + rewrite lookup_insert_ne by done. intros Hi'. specialize (Hr _ _ Hi'). lia.
  - split; [lia|]. intros id' r' Hi'. specialize (Hr _ _ Hi'). lia.
Qed.

Lemma room_weaken k A : room (S k) A → room k A.
Proof. intros [Hn Hr]. split; [lia|]. intros id r Hi. specialize (Hr _ _ Hi). lia. Qed.

Lemma call_spec_room {T} (c : store_call T) now k A :
  room (S k) A → room k (call_spec c now A).1.
Proof.
  intros HA. destruct c; cbn [call_spec fst];
    try (apply st_update_room; [intros r; simpl; lia|done]).
  - unfold st_create. destruct (find_duplicate A from c); [by apply room_weaken|].
    destruct HA as [Hn Hr]. split; [simpl; lia|]. intros id r. cbn [st_msgs fst].
    destruct (decide (id = st_next A + 1)) as [->|Hne].
    + rewrite lookup_insert_eq. intros [= <-]. simpl. unfold lua_exact, exact_score in *. lia.
    + rewrite lookup_insert_ne by done. intros Hi. specialize (Hr _ _ Hi). lia.
  - unfold st_mark_acked. destruct (st_msgs A !! id) as [r|]; [|by apply room_weaken].
    destruct (to_uid r =? uid); [|by apply room_weaken].
    apply st_update_room; [intros r'; simpl; lia|done].
Qed.

(** Calls of any result type, and their results. *)
Inductive any_call : Type :=
| AnyCall (T : Type) (c : store_call T).
Arguments AnyCall {T} c.
Inductive call_result := ResCreate (r : CreateMessageResult) | ResBool (b : bool).

Definition inject {T} (c : store_call T) : T → call_result :=
  match c with CCreate _ _ _ _ => ResCreate | _ => ResBool end.

Fixpoint run_calls (cs : list any_call) : sys (list call_result) :=
  match cs with
  | [] => mret []
  | AnyCall c :: cs =>
      x ← call_impl c; l ← run_calls cs; mret (inject c x :: l)
  end.

(** The abstract execution of the calls from the [n]-th operation on: a call
    whose request is lost does nothing, one whose reply is lost has its
    effect and returns the result of a failure. *)
Fixpoint spec_calls (cs : list any_call) (n : nat) (A : store)
    : store * list call_result :=
  match cs with
  | [] => (A, [])
  | AnyCall c :: cs =>
      let now := match call_reads c with 0%nat => 0 | _ => env_clock env n end in
      let f := env_fault env (call_reads c + n) in
      let res := call_spec c now A in
      let rest := spec_calls cs (S (call_reads c) + n) (executed f A res.1) in
      (rest.1, inject c (answered f (call_lost c) res.2) :: rest.2)
  end.

Definition any_call_ok (a : any_call) : Prop := let '(AnyCall c) := a in call_args_ok c.

Lemma run_calls_rep cs A w :
  db_rep (w_db w) A → room (length cs) A → Forall any_call_ok cs →
  (∀ n, env_clock env n < exact_score) →
  ∃ d k, run (exec env) (run_calls cs) w =
      (advance k d w, (spec_calls cs (w_tick w) A).2) ∧
    db_rep d (spec_calls cs (w_tick w) A).1.
Proof.
  intros HA Hroom Hcs Hclock. revert A w HA Hroom.
  induction Hcs as [|[T c] cs Hc Hcs IH]; intros A w HA Hroom.
  { exists (w_db w), 0%nat. by destruct w. }
  destruct (call_refines c A w) as (d1 & Hrun & Hd1); [done| |by eapply room_call_ok|].
  { destruct c; [apply Hclock..|done]. }
  set (w1 := advance (S (call_reads c)) d1 w) in Hrun.
  set (A1 := executed _ A _) in Hd1.
  destruct (IH A1 w1) as (d2 & k & Hrest & Hd2); [done| |].
  { subst A1. destruct (env_fault env _); cbn [executed];
      try (by apply call_spec_room); by apply room_weaken. }
  exists d2, (k + S (call_reads c))%nat. cbn [run_calls spec_calls fst snd].
  assert (call_now c w = match call_reads c with 0%nat => 0 | _ => env_clock env (w_tick w) end)
    as Hnow by (by destruct c).
  rewrite <-Hnow. split; [|exact Hd2].
  unfold mbind, prog_bind. rewrite run_bind, Hrun, run_bind, Hrest.
  unfold w1. by rewrite advance_advance.
Qed.

(** C4. [MessageStore] implements the abstract message store.  Any sequence
    of calls of its state-changing methods ([createMessage],
    [markDelivered], [markPending], [markAcked], [markFailed],
    [incrementRetryCount]), started on a Redis that holds the abstract store
    and with any request or reply lost on the way, returns the results of
    the abstract execution and leaves the Redis holding its final store:
    the Lua scripts keep every hash, index and key in agreement.  It touches
    neither the on-line table nor a connection. *)
Theorem MessageStore_refines cs A w :
  db_rep (w_db w) A → room (length cs) A → Forall any_call_ok cs →
  (∀ n, env_clock env n < exact_score) →
  ∃ d k, run (exec env) (run_calls cs) w =
      (advance k d w, (spec_calls cs (w_tick w) A).2) ∧
    db_rep d (spec_calls cs (w_tick w) A).1.
Proof. apply run_calls_rep. Qed.
End refine.

#[global] Arguments AnyCall {T} c.

(** ** A concrete server

    A Redis that starts empty, a clock, and faults where the list says. *)
Definition example_env (now : N) (faults : list (nat * fault)) : environment :=
  {| env_clock _ := now;
     env_fault n := default NoFault ((list_to_map faults : gmap nat fault) !! n) |}.

Definition empty_world : world :=
  {| w_db := (∅ : keyspace); w_tick := 0; w_users := empty_service; w_live := ∅;
     w_out := [] |}.

Lemma empty_db_rep : db_rep (R := ref_redis) (w_db empty_world) empty_store.
Proof. exists ∅. split; [done|]. split; [apply Rep_empty|apply store_wf_empty]. Qed.

Lemma empty_room k : N.of_nat k < lua_exact → room k empty_store.
Proof.
  intros Hk. split; [done|]. cbn [st_msgs empty_store]. intros id r.
  by rewrite lookup_empty.
Qed.

Definition slow_env : environment := example_env 1000 [(3, ReplyLost); (5, RequestLost)]%nat.

Definition example_calls : list any_call :=
  [AnyCall (CCreate 1 2 "hi" "m-1"); AnyCall (CDelivered 1); AnyCall (CAcked 1 2);
   AnyCall (CCreate 1 2 "hi" "m-1"); AnyCall (CAcked 1 3); AnyCall (CAcked 1 2)].

(** The reply of [markDelivered] and the first acknowledgement are lost. *)
Lemma MessageStore_refines_witness :
  (∃ d k, run (exec slow_env) (run_calls example_calls) empty_world =
      (advance (R := ref_redis) k d empty_world,
       (spec_calls slow_env example_calls 0 empty_store).2) ∧
    db_rep d (spec_calls slow_env example_calls 0 empty_store).1) ∧
  (λ r, (msg_id r, status r, acked_at_ms r)) <$>
    (st_msgs (spec_calls slow_env example_calls 0 empty_store).1 !! 1) = Some (1, Acked, 1000).
Proof.
  split; [|vm_compute; reflexivity].
  apply (MessageStore_refines (R := ref_redis)).
  - apply empty_db_rep.
  - by apply empty_room.
  - repeat constructor.
  - intros n. done.
Defined.
