(* ===== verification/LateIds.v ===== *)
(** * Message ids from 10^14 on

    The create script turns the counter into text twice by Lua's own rule,
    fourteen significant digits: in the key of the hash and in its reply.  From
    10^14 on both differ from the decimal text the C++ side works with. *)

From S2P Require Import Prelude Decimal Prog Redis RedisInstance Scripts UserState Sys.
From S2P Require Import MessageStore StoreSpec StoreRefine.
From Stdlib Require Import Ascii.
Local Open Scope N_scope.

(** ** The text of a large number *)

(** It is a digit followed by a point or an exponent. *)
Definition scientific (s : string) : Prop :=
  ∃ c p rest, s = String c (String p rest) ∧ is_Some (digit_value c) ∧ (p = "."%char ∨ p = "e"%char).

Lemma g14_scientific n : lua_exact ≤ n → scientific (g14 n).
Proof.
  intros Hn%N.ltb_ge. unfold g14. rewrite Hn.
  set (q := round_half_even _ _). destruct (if q =? lua_exact then _ else _) as [q' e].
  destruct (to_string_digit (strip_zeros 14 q')) as (c & s & -> & Hc).
  destruct s as [|c' s].
  - unfold exponent_text. case_match; eexists c, "e"%char, _; (split; [reflexivity|auto]).
  - eexists c, "."%char, _. split; [reflexivity|auto].
Qed.

(** It is not read as a number. *)
Lemma scientific_not_read s : scientific s → ParseUint64 (Some (RStr s)) = None.
Proof.
  intros (c & p & rest & -> & Hc & Hp). unfold ParseUint64. cbn [ReplyToString mbind option_bind].
  rewrite decide_False by done. unfold strtoull.
  assert (∃ rest', c_str (String c (String p rest)) = String c (String p rest')) as [rest' ->].
  { cbn [c_str]. rewrite (decide_False (P := c = _)) by (intros ->; by destruct Hc).
    rewrite (decide_False (P := p = _)) by (by destruct Hp; subst). eauto. }
  unfold read_number. cbn [skip_space]. rewrite digit_not_space by done.
  rewrite read_sign_digit by done. destruct Hc as [d Hd]. rewrite Hd.
  cbn [read_digits]. rewrite Hd.
  assert (digit_value p = None) as -> by (by destruct Hp; subst).
  cbv beta iota zeta. by rewrite decide_False.
Qed.

Lemma scientific_not_decimal s n : scientific s → s ≠ to_string n.
Proof.
  intros (c & p & rest & -> & _ & Hp) Heq. pose proof (all_digits_to_string n) as Hd.
  rewrite <-Heq in Hd. destruct Hd as (_ & [d Hd] & _). by destruct Hp; subst.
Qed.

(** The key of the hash is none of those the store uses. *)
Definition late_key (id : N) : string := kRedisMsgKeyPrefix +:+ g14 id.

Local Transparent key_text.
Lemma late_key_ne id k : lua_exact ≤ id → late_key id ≠ key_text k.
Proof.
  intros Hid%g14_scientific Heq. unfold late_key, kRedisMsgKeyPrefix in Heq.
  destruct k; unfold key_text, MakeMessageKey, MakePendingKey, MakeRecentKey, MakeIdempotencyKey,
    kRedisMsgNextIdKey, kRedisDeliveredTimeoutKey in Heq;
    rewrite ?app_cons, ?app_empty in Heq; try discriminate Heq; simplify_eq.
  - destruct Hid as (c & p & rest & Hs & Hc & _). rewrite Hs in Heq. injection Heq as -> _. by destruct Hc.
  - by eapply scientific_not_decimal.
Qed.
Local Opaque key_text.

(** ** Ids that share a key *)

Lemma to_string_step x : 0 < x / 10 → String.length (to_string x) = S (String.length (to_string (x / 10))).
Proof.
  intros Hx. assert (x ≠ 0) as H0 by (by intros ->).
  unfold to_string, pretty, pretty_N. rewrite !decide_False by lia.
  rewrite pretty_N_go_step by lia.
  assert (∀ s t, String.length (s +:+ t) = (String.length s + String.length t)%nat) as Happ.
  { intros s t. induction s as [|c s IH]; [done|]. rewrite app_cons. cbn. by rewrite IH. }
  rewrite <-(app_empty (String _ "")), <-pretty_N_go_app, Happ. cbn. lia.
Qed.

Lemma to_string_length k x :
  10 ^ N.of_nat k ≤ x < 10 ^ N.of_nat (S k) → String.length (to_string x) = S k.
Proof.
  revert x. induction k as [|k IH]; intros x Hx.
  - assert (x = 1 ∨ x = 2 ∨ x = 3 ∨ x = 4 ∨ x = 5 ∨ x = 6 ∨ x = 7 ∨ x = 8 ∨ x = 9) as H
      by (cbn in Hx; lia).
    by repeat destruct H as [->|H]; [..|subst].
  - assert (10 ^ N.of_nat k ≤ x / 10 < 10 ^ N.of_nat (S k)) as Hd.
    { rewrite !Nat2N.inj_succ, !N.pow_succ_r' in Hx. rewrite Nat2N.inj_succ, N.pow_succ_r'. split.
      - apply N.div_le_lower_bound; lia.
      - apply N.Div0.div_lt_upper_bound. lia. }
    rewrite to_string_step, IH; [done|done|].
    pose proof (N.pow_nonzero 10 (N.of_nat k) ltac:(done)). lia.
Qed.

(** Five consecutive ids share their key, whatever the first fourteen digits. *)
Lemma late_keys_shared q i :
  10000000000000 ≤ q < 100000000000000 → i < 5 → late_key (10 * q + i) = late_key (10 * q).
Proof.
  intros Hq Hi. unfold late_key. f_equal.
  assert (∀ j, j < 5 → g14 (10 * q + j) = g14 (10 * q + 0)) as H; [|by rewrite H, N.add_0_r].
  assert (∀ j, j < 5 → round_half_even (10 * q + j) 10 = q) as Hr.
  { intros j Hj. unfold round_half_even.
    rewrite (N.mul_comm 10 q), N.div_add_l, (N.div_small j 10), N.add_0_r by lia.
    rewrite N.add_comm, N.Div0.mod_add, (N.mod_small j 10) by lia.
    by rewrite (proj2 (N.ltb_lt _ _)) by lia. }
  intros j Hj. unfold g14. unfold lua_exact.
  rewrite !(proj2 (N.ltb_ge _ _)) by lia.
  rewrite !(to_string_length 14) by (cbn; lia).
  change (N.of_nat 15 - 1 - 13) with 1. change (10 ^ 1) with 10. by rewrite !Hr.
Qed.

(** ** Creating a message *)
Section late.
Context {R : Redis} {RL : RedisLaws R}.

(** The key space before: the counter stands at [n], the client message id is
    new and the keys the script adds to have their types. *)
Record ready_for (m : keyspace) (n from to : N) (c : string) (h : gmap string string) : Prop := {
  rf_next : m !! key_text KNext = Some (VStr (to_string n));
  rf_new : m !! key_text (KIdem from c) = None;
  rf_hash : hash_at m (late_key (n + 1)) = Some h;
  rf_pending : ∃ z, zset_at m (key_text (KPending to)) = Some z;
  rf_from : ∃ z, zset_at m (key_text (KRecent from)) = Some z;
  rf_to : ∃ z, zset_at m (key_text (KRecent to)) = Some z }.

(** What the script has done: counted, and written the record over [h], not
    where the record of its id is read. *)
Definition misplaced (m m' : keyspace) (h : gmap string string) (r : MessageRecord) : Prop :=
  m' !! key_text KNext = Some (VStr (to_string (msg_id r))) ∧
  m' !! late_key (msg_id r) = Some (VHash (hset (zip record_fields (record_texts r)) h)) ∧
  ∀ id, m' !! key_text (KMsg id) = m !! key_text (KMsg id).

Lemma late_create m n now from to text c h :
  ready_for m n from to c h → lua_exact ≤ n + 1 → n + 1 < exact_score → now < exact_score →
  ∃ m' r, script_triple (kCreateMessageScript (create_keys from to c) (create_args from to text c now))
      m m' (RArr (RStr "1" :: RStr (g14 (n + 1)) :: r)) ∧
    misplaced m m' h (new_record now (n + 1) from to text c).
Proof.
  intros [Hnext Hnew Hhash [zp Hp] [zf Hf] [zt Ht]] Hid Hlt Hnow.
  set (id := n + 1) in *. set (r := new_record now id from to text c).
  assert (∀ k, late_key id ≠ key_text k) as Hne by (intros k; by apply late_key_ne).
  assert (lua_number_text (Z.of_N id) = g14 id) as Hg.
  { unfold lua_number_text. rewrite (proj2 (Z.ltb_ge _ _)) by lia. by rewrite N2Z.id. }
  eexists _, (RStr <$> [to_string from; to_string to; text; c; "Pending"; to_string now; "0"; "0"; "0"]).
  split.
  - unfold kCreateMessageScript. lua. eapply call_GET. intros v Hv. rewrite Hnew in Hv. subst v.
    cbn [truthy]. unfold create_new. lua. eapply (call_INCR _ n); [by left|done|]. fold id.
    unfold concat_in. cbn [lua_tostring]. rewrite Hg. cbv iota. fold (late_key id).
    eapply (call_SET _ (to_string id)); [cbn [mapM]; by rewrite lua_arg_number|intros _].
    eapply (call_HSET _ (zip record_fields (record_texts r)) h);
      [|done|cbn [mapM]; by rewrite lua_arg_number|intros _].
    { unfold hash_at. rewrite !lookup_insert_ne by (apply not_eq_sym, Hne). exact Hhash. }
    eapply (call_ZADD (key_text (KPending to)) now (to_string id) zp);
      [|done|cbn [mapM]; by rewrite lua_arg_number|intros _].
    { rewrite zset_at_insert_ne by apply Hne. read_keys. exact Hp. }
    eapply (call_ZADD (key_text (KRecent from)) now (to_string id) zf);
      [|done|cbn [mapM]; by rewrite lua_arg_number|intros _].
    { rewrite zset_at_insert_ne by key_ne. rewrite zset_at_insert_ne by apply Hne. read_keys. exact Hf. }
    eapply (call_ZADD (key_text (KRecent to)) now (to_string id)
      (if decide (from = to) then <[to_string id := now]> zf else zt));
      [|done|cbn [mapM]; by rewrite lua_arg_number|intros _].
    { case_decide as Hft; [subst; read_keys; reflexivity|].
      do 2 rewrite zset_at_insert_ne by key_ne. rewrite zset_at_insert_ne by apply Hne. read_keys. exact Ht. }
    pose proof (triple_return (LTable (LStr <$> ["1"; g14 id; to_string from; to_string to; text; c;
      "Pending"; to_string now; "0"; "0"; "0"]))) as Hret.
    setoid_rewrite lua_to_strings in Hret. apply Hret.
  - unfold misplaced. change (msg_id r) with id.
    split; [|split].
    + do 3 rewrite lookup_insert_ne by key_ne. rewrite lookup_insert_ne by apply Hne. by read_keys.
    + do 3 rewrite lookup_insert_ne by (apply not_eq_sym, Hne). by rewrite lookup_insert_eq.
    + intros i. do 3 rewrite lookup_insert_ne by key_ne. rewrite lookup_insert_ne by apply Hne. by read_keys.
Qed.

Lemma late_reply id r :
  lua_exact ≤ id → BuildCreateResult (Some (RArr (RStr "1" :: RStr (g14 id) :: r))) = None.
Proof.
  intros Hid%g14_scientific%scientific_not_read. unfold BuildCreateResult. case_decide; [|done].
  cbn [lookup list_lookup ReplyToString mbind option_bind]. unfold BuildRecordFromFields.
  case_decide; [done|]. cbn [Nat.add lookup list_lookup]. by rewrite Hid.
Qed.

(** C37. From id 10^14 on no message can be created.  Whatever the database
    holds, when the counter has reached 10^14 - 1 every call of [createMessage]
    with a new client message id fails, although Redis executes its script and
    no request is lost: the reply names the id in scientific notation, which is
    not parsed.  The script has taken the id and written the record over what
    is under a key that five consecutive ids share and from which nothing is
    read: the record of no id is there. *)
Theorem late_ids_collide env m n from to text c h w :
  represents (w_db w) m → ready_for m n from to c h →
  lua_exact ≤ n + 1 → n + 1 < exact_score → env_clock env (w_tick w) < exact_score →
  env_fault env (1 + w_tick w) = NoFault →
  (∃ d m', run (exec env) (createMessage from to text c) w =
      (advance 2 d w, default_CreateMessageResult) ∧ represents d m' ∧
    misplaced m m' h (new_record (env_clock env (w_tick w)) (n + 1) from to text c)) ∧
  (∀ q i, 10000000000000 ≤ q < 100000000000000 → i < 5 → late_key (10 * q + i) = late_key (10 * q)) ∧
  ∀ id, late_key (n + 1) ≠ MakeMessageKey id.
Proof.
  intros Hm Hready Hid Hlt Hnow Hfault. split; [|split; [apply late_keys_shared|]].
  2: { intros id. by apply (late_key_ne _ (KMsg id)). }
  destruct (late_create m n (env_clock env (w_tick w)) from to text c h Hready Hid Hlt Hnow)
    as (m' & r & Ht & Hmis).
  destruct (request_script env _ _ _ _ (tick w) Ht Hm) as (d & Hrun & Hd).
  change (w_tick (tick w)) with (1 + w_tick w)%nat in *. rewrite Hfault in *. cbn [executed answered] in *.
  exists d, m'. split; [|done]. unfold createMessage, EvalCreateMessage.
  cbn [mbind prog_bind bind trigger run]. change (exec env N NowMs w) with (tick w, env_clock env (w_tick w)).
  cbv iota beta. cbn [bind run]. rewrite create_keys_eq.
  cbn [exec]. fold (create_args from to text c (env_clock env (w_tick w))).
  rewrite Hrun. cbn [run]. by rewrite late_reply.
Qed.
End late.

(** Redis whose counter is about to reach 10^14. *)
Definition late_db : keyspace := {[kRedisMsgNextIdKey := VStr "99999999999999"]}.
Definition late_world : world (R := ref_redis) :=
  {| w_db := late_db; w_tick := 0; w_users := empty_service; w_live := ∅; w_out := [] |}.
Definition late_env : environment := {| env_clock := λ _, 1000; env_fault := λ _, NoFault |}.

Lemma late_db_ready : ready_for late_db 99999999999999 1 2 "m-1" ∅.
Proof.
  constructor; try (by vm_compute); eexists; by vm_compute.
Qed.

Lemma late_ids_collide_witness :
  late_key 100000000000000 = "rmd:msg:1e+14" ∧
  (run (exec late_env) (createMessage 1 2 "first" "m-1") late_world).2 = default_CreateMessageResult ∧
  late_key 100000000000003 = late_key 100000000000000 ∧
  ∀ id, late_key 100000000000000 ≠ MakeMessageKey id.
Proof.
  destruct (late_ids_collide (R := ref_redis) late_env late_db 99999999999999 1 2 "first" "m-1" ∅ late_world)
    as ((d & m' & Hrun & _) & Hshared & Hkey); [done|apply late_db_ready|done..|].
  split; [by vm_compute|]. split; [by rewrite Hrun|]. split; [|intros id; apply (Hkey id)].
  replace 100000000000003 with (10 * 10000000000000 + 3) by lia.
  replace 100000000000000 with (10 * 10000000000000) by lia. apply Hshared; lia.
Defined.
