(* ===== verification/StoreReads.v ===== *)
(** * The queries of MessageStore

    [getMessage], [getPendingMessages], [getRecentMessages] and
    [getTimeoutDeliveredMessages] on a Redis that holds the abstract store:
    they change nothing, and without faults return exactly the records the
    abstract store promises, in the order of the index. *)

From S2P Require Import Prelude Decimal Prog Redis RedisInstance Scripts UserState Sys.
From S2P Require Import MessageStore StoreSpec StoreRefine.
Local Open Scope N_scope.

(** The records of the store that satisfy a test, in no particular order. *)
Definition records (A : store) : list MessageRecord := (map_to_list (st_msgs A)).*2.

(** The order of an index: by score, then by the decimal text of the id. *)
Definition entry_of (score : MessageRecord → N) (r : MessageRecord) : N * string :=
  (score r, to_string (msg_id r)).
Definition index_le (score : MessageRecord → N) (r1 r2 : MessageRecord) : Prop :=
  zle (entry_of score r1) (entry_of score r2).

Definition no_faults (env : environment) : Prop := ∀ n, env_fault env n = NoFault.

(** The records an index keeps, in its order. *)
Definition indexed (keep : MessageRecord → bool) (score : MessageRecord → N) (A : store)
    (rs : list MessageRecord) : Prop :=
  rs ≡ₚ filter keep (records A) ∧ StronglySorted (index_le score) rs.

(** The answer to a query for [rs]: faults can only leave records out. *)
Definition answers (env : environment) (rs L : list MessageRecord) : Prop :=
  L `sublist_of` as_read <$> rs ∧ (no_faults env → L = as_read <$> rs).

Lemma elem_of_records A r :
  r ∈ records A ↔ ∃ id, st_msgs A !! id = Some r.
Proof.
  unfold records. rewrite list_elem_of_fmap. split.
  - intros ([id r'] & -> & Hi%elem_of_map_to_list). by exists id.
  - intros [id Hi]. exists (id, r). split; [done|]. by apply elem_of_map_to_list.
Qed.

Lemma records_lookup A r : store_wf A → r ∈ records A → st_msgs A !! msg_id r = Some r.
Proof.
  intros Hwf [id Hi]%elem_of_records. destruct (wf_record _ Hwf _ _ Hi) as [(-> & _) _]. done.
Qed.

Lemma NoDup_records A : store_wf A → NoDup (records A).
Proof.
  intros Hwf. unfold records. apply NoDup_fmap_2_strong; [|apply NoDup_map_to_list].
  intros [i r] [j r'] Hi%elem_of_map_to_list Hj%elem_of_map_to_list. simpl. intros <-.
  destruct (wf_record _ Hwf _ _ Hi) as [(<- & _) _].
  by destruct (wf_record _ Hwf _ _ Hj) as [(<- & _) _].
Qed.

(** An index lists the entries of the records it keeps. *)
Lemma zmembers_index keep score A :
  store_wf A →
  zmembers (index keep score (st_msgs A)) ≡ₚ entry_of score <$> filter keep (records A).
Proof.
  intros Hwf. apply NoDup_Permutation.
  - unfold zmembers. apply NoDup_fmap_2; [|apply NoDup_map_to_list].
    by intros [m s] [m' s'] [= -> ->].
  - apply NoDup_fmap_2_strong; [|by apply NoDup_filter, NoDup_records].
    intros r r' [_ Hr]%list_elem_of_filter [_ Hr']%list_elem_of_filter [= _ Hid%(inj _)].
    apply records_lookup in Hr, Hr'; try done. congruence.
  - intros [sc t]. unfold zmembers, index. rewrite !list_elem_of_fmap. split.
    + intros ([t' sc'] & [= -> ->] & Hm%elem_of_map_to_list).
      apply (lookup_kmap_Some to_string) in Hm as (id & -> & Hm).
      rewrite lookup_omap in Hm. destruct (st_msgs A !! id) as [r|] eqn:Hi; [|done].
      simpl in Hm. unfold index_entry in Hm. destruct (keep r) eqn:Hk; [|done].
      injection Hm as <-. exists r. destruct (wf_record _ Hwf _ _ Hi) as [(<- & _) _].
      split; [done|]. apply list_elem_of_filter. split; [by rewrite Hk|].
      apply elem_of_records. eauto.
    + intros (r & [= -> ->] & [Hk Hr]%list_elem_of_filter).
      apply records_lookup in Hr; [|done]. exists (to_string (msg_id r), score r).
      split; [done|]. apply elem_of_map_to_list, (lookup_kmap_Some to_string).
      exists (msg_id r). split; [done|]. rewrite lookup_omap, Hr. simpl.
      unfold index_entry. by destruct (keep r).
Qed.

(** The sorted members of an index are the entries of a sorted list of records. *)
Lemma sorted_index keep score A l :
  store_wf A → StronglySorted zle l → l ≡ₚ zmembers (index keep score (st_msgs A)) →
  ∃ rs, l = entry_of score <$> rs ∧ rs ≡ₚ filter keep (records A) ∧
    StronglySorted (index_le score) rs.
Proof.
  intros Hwf Hs Hp. rewrite (zmembers_index keep score A Hwf) in Hp.
  destruct (Permutation_map_inv _ _ Hp) as (rs & -> & Hrs).
  exists rs. split; [done|]. split; [done|]. clear Hp Hrs.
  induction rs as [|r rs IH]; [constructor|].
  inversion_clear Hs as [|? ? Hs' Hf]. constructor; [by apply IH|].
  exact (proj1 (Forall_fmap _ _ rs) Hf).
Qed.

Section reads.
Context {R : Redis} {RL : RedisLaws R}.
Variable env : environment.
Local Abbreviation run := (run (exec env)).
Local Abbreviation fault_of w := (env_fault env (w_tick w)).

Lemma db_rep_wf d A : db_rep d A → store_wf A.
Proof. by intros (m & _ & _ & ?). Qed.

(** The reply to the [HMGET] of a message. *)
Lemma HMGET_message A m id :
  Rep m A →
  redis_doc ("HMGET" :: MakeMessageKey id :: record_fields) m m
    (RArr (match st_msgs A !! id with
           | Some r => RStr <$> record_texts r
           | None => repeat RNil 10
           end)).
Proof.
  intros HR. rewrite message_key_eq. destruct (st_msgs A !! id) as [r|] eqn:Hi.
  - pose proof (Rep_hash _ _ _ _ HR Hi) as Hh.
    pose proof (doc_HMGET m (key_text (KMsg id)) record_fields _ Hh) as Hd.
    by rewrite record_hash_fields in Hd.
  - destruct (Rep_no_hash _ _ _ HR Hi) as [_ Hh].
    exact (doc_HMGET m (key_text (KMsg id)) record_fields _ Hh).
Qed.

Lemma FetchRecord_spec id A w :
  db_rep (w_db w) A → id < two64 →
  ∃ k d, run (FetchRecord id) w =
      (advance k d w, answered (fault_of w) None (as_read <$> st_msgs A !! id)) ∧
    db_rep d A.
Proof.
  intros Hd Hid. pose proof Hd as (m & Hm & HR & Hwf). unfold FetchRecord.
  destruct (id =? 0) eqn:H0; [apply N.eqb_eq in H0 as ->|].
  - exists 0%nat, (w_db w). split; [|done].
    assert (st_msgs A !! 0 = None) as ->.
    { destruct (st_msgs A !! 0) as [r|] eqn:Hi; [|done].
      destruct (wf_record _ Hwf _ _ Hi) as [(_ & ? & _) _]. lia. }
    destruct w. by destruct (env_fault env _).
  - destruct (request_read env _ _ _ w (HMGET_message A m id HR) Hm) as (d' & Hreq & Hd').
    exists 1%nat, d'. split; [|by exists m].
    cbn -[BuildRecordFromFields record_fields as_read]. rewrite Hreq.
    destruct (env_fault env (w_tick w)); cbn -[BuildRecordFromFields record_fields as_read];
      try done.
    destruct (st_msgs A !! id) as [r|] eqn:Hi; [|done].
    destruct (wf_record _ Hwf _ _ Hi) as [Hr _].
    pose proof (BuildRecordFromFields_texts [] id r Hr Hid) as Hb.
    cbn -[BuildRecordFromFields as_read] in Hb. rewrite Hb. by rewrite decide_True.
Qed.

(** Fetching the entries of records of the store. *)
Lemma collect_fetch keep rs A w :
  db_rep (w_db w) A → Forall (λ r, st_msgs A !! msg_id r = Some r ∧ msg_id r < two64) rs →
  ∃ k d L, run (collect (RStr ∘ to_string ∘ msg_id <$> rs) (fetch_entry keep)) w =
      (advance k d w, L) ∧ db_rep d A ∧ L `sublist_of` filter keep (as_read <$> rs) ∧
    (no_faults env → L = filter keep (as_read <$> rs)).
Proof.
  intros Hd Hrs. revert w Hd. induction Hrs as [|r rs [Hi Hid] Hrs IH]; intros w Hd.
  { exists 0%nat, (w_db w), []. by destruct w. }
  destruct (FetchRecord_spec (msg_id r) A w Hd Hid) as (k1 & d1 & Hf & Hd1).
  rewrite Hi in Hf.
  destruct (IH (advance k1 d1 w) Hd1) as (k2 & d2 & L & Hc & Hd2 & HL & HL').
  cbn [fmap list_fmap collect]. unfold fetch_entry at 1.
  change ((RStr ∘ to_string ∘ msg_id) r) with (RStr (to_string (msg_id r))).
  rewrite ParseUint64_to_string by done.
  set (one := answered (fault_of w) None (if keep (as_read r) then Some (as_read r) else None)).
  exists (k2 + k1)%nat, d2, (match one with Some x => x :: L | None => L end).
  split_and!; [|done| |].
  - rewrite run_bind. unfold mbind, prog_bind. rewrite run_bind, Hf. fold one.
    cbn [fmap option_fmap option_map].
    assert (∀ o : option MessageRecord,
      Prog.run (exec env) (match o with
        | Some r => mret (if keep r then Some r else None)
        | None => mret None
        end : sys (option MessageRecord)) (advance k1 d1 w) =
      (advance k1 d1 w, r ← o; if keep r then Some r else None)) as Ho by (by intros []).
    rewrite Ho, run_bind, Hc, advance_advance. unfold one.
    by destruct (env_fault env (w_tick w)).
  - rewrite filter_cons. subst one. case_decide as Hk.
    + destruct (env_fault env (w_tick w)); simpl; [|by constructor..].
      destruct (keep (as_read r)); [by constructor|done].
    + destruct (env_fault env (w_tick w)); simpl; [|done..].
      by destruct (keep (as_read r)).
  - intros Hnf. rewrite filter_cons, <-HL' by done. subst one. rewrite (Hnf (w_tick w)). simpl.
    case_decide as Hk; by destruct (keep (as_read r)).
Qed.

Lemma wf_records_fetchable A rs :
  store_wf A → (∀ r, r ∈ rs → r ∈ records A) →
  Forall (λ r, st_msgs A !! msg_id r = Some r ∧ msg_id r < two64) rs.
Proof.
  intros Hwf Hrs. apply Forall_forall. intros r Hr%Hrs.
  apply records_lookup in Hr; [|done]. split; [done|].
  destruct (wf_record _ Hwf _ _ Hr) as [_ ?]. pose proof (wf_next _ Hwf).
  unfold two64, lua_exact in *. lia.
Qed.

(** An index read followed by the fetches. *)
Lemma query_spec argv keep rs A w :
  db_rep (w_db w) A → (∀ r, r ∈ rs → r ∈ records A) →
  (∀ m, Rep m A → redis_doc argv m m (RArr (RStr ∘ to_string ∘ msg_id <$> rs))) →
  ∃ k d L, run (reply ← trigger (RedisCommand argv); fetch_entries keep reply) w =
      (advance k d w, L) ∧ db_rep d A ∧ L `sublist_of` filter keep (as_read <$> rs) ∧
    (no_faults env → L = filter keep (as_read <$> rs)).
Proof.
  intros Hd Hrs Hdoc. pose proof Hd as (m & Hm & HR & Hwf).
  destruct (request_read env _ _ _ w (Hdoc m HR) Hm) as (d1 & Hreq & Hd1).
  assert (db_rep d1 A) as Hd1' by by exists m.
  destruct (collect_fetch keep rs A (advance 1 d1 w)) as (k & d2 & L & Hc & Hd2 & HL & HL');
    [done|by apply wf_records_fetchable|].
  assert (Prog.run (exec env) (reply ← trigger (RedisCommand argv); fetch_entries keep reply) w =
    let (w', reply) := redis_request env (redis_call argv) w in
    run (fetch_entries keep reply) w') as -> by reflexivity.
  rewrite Hreq. destruct (env_fault env (w_tick w)) eqn:Hf; cbn [answered fetch_entries].
  - exists (k + 1)%nat, d2, L. by rewrite Hc, advance_advance.
  - exists 1%nat, d1, []. split_and!; [done|done|apply sublist_nil_l|].
    intros Hnf. by rewrite Hnf in Hf.
  - exists 1%nat, d1, []. split_and!; [done|done|apply sublist_nil_l|].
    intros Hnf. by rewrite Hnf in Hf.
Qed.

Lemma filter_kept (keep : MessageRecord → bool) rs A :
  (∀ r, keep (as_read r) = keep r) → rs ≡ₚ filter keep (records A) →
  filter keep (as_read <$> rs) = as_read <$> rs.
Proof.
  intros Hk Hp. apply filter_all. apply Forall_fmap, Forall_forall.
  intros r Hr. simpl. rewrite Hk. rewrite Hp in Hr. by apply list_elem_of_filter in Hr as [? _].
Qed.

(** The records behind an index of the key space. *)
Lemma index_records keep score A :
  store_wf A →
  ∃ rs, zsorted (index keep score (st_msgs A)) = entry_of score <$> rs ∧
    rs ≡ₚ filter keep (records A) ∧ StronglySorted (index_le score) rs.
Proof. intros Hwf. apply sorted_index; [done|apply zsorted_spec..]. Qed.

Lemma entry_texts score (rs : list MessageRecord) :
  RStr ∘ snd <$> (entry_of score <$> rs) = RStr ∘ to_string ∘ msg_id <$> rs.
Proof. by rewrite <-list_fmap_compose. Qed.

Lemma perm_in_records (keep : MessageRecord → bool) rs A :
  rs ≡ₚ filter keep (records A) → ∀ r, r ∈ rs → r ∈ records A.
Proof. intros Hp r Hr. rewrite Hp in Hr. by apply list_elem_of_filter in Hr as [_ ?]. Qed.

Lemma getPendingMessages_query uid A w :
  db_rep (w_db w) A →
  ∃ k d L rs, run (getPendingMessages uid) w = (advance k d w, L) ∧ db_rep d A ∧
    indexed (is_pending_for uid) created_at_ms A rs ∧ answers env rs L.
Proof.
  intros Hd. pose proof (db_rep_wf _ _ Hd) as Hwf.
  destruct (index_records (is_pending_for uid) created_at_ms A Hwf) as (rs & Hz & Hp & Hs).
  destruct (query_spec ["ZRANGE"; key_text (KPending uid); "0"; "-1"] (is_pending_for uid)
    rs A w) as (k & d & L & Hrun & Hd' & HL & HL'); [done|by eapply perm_in_records| |].
  { intros m HR. rewrite <-(entry_texts created_at_ms), <-Hz.
    apply (doc_ZRANGE _ _ (pending_index A uid)); [exact (rep_pending _ _ HR uid)|
      apply zsorted_spec..]. }
  rewrite (filter_kept _ _ A) in HL, HL' by done. by exists k, d, L, rs.
Qed.

(** [getPendingMessages] is exact.  On a Redis holding the abstract store
    it changes nothing, and without faults returns precisely the [Pending]
    messages addressed to the user, each once, ordered by creation time and,
    within a millisecond, by the decimal text of the id.  Lost requests can
    only leave messages out, never invent, duplicate or reorder them. *)
Theorem getPendingMessages_exact uid A w :
  db_rep (w_db w) A →
  ∃ k d L rs, run (getPendingMessages uid) w = (advance k d w, L) ∧ db_rep d A ∧
    indexed (is_pending_for uid) created_at_ms A rs ∧ answers env rs L.
Proof. apply getPendingMessages_query. Qed.

Lemma reverse_take_reverse {X} n (l : list X) :
  reverse (take n (reverse l)) = drop (length l - n) l.
Proof.
  destruct (decide (n ≤ length l)%nat).
  - rewrite <-(take_drop (length l - n) l) at 1. rewrite reverse_app.
    rewrite take_app_length' by (rewrite length_reverse, length_drop; lia).
    apply reverse_involutive.
  - rewrite take_ge by (rewrite length_reverse; lia). rewrite reverse_involutive.
    by replace (length l - n)%nat with 0%nat by lia.
Qed.

Lemma getRecentMessages_query uid limit A w :
  db_rep (w_db w) A → limit < 9223372036854775808 →
  ∃ k d L rs, run (getRecentMessages uid limit) w = (advance k d w, L) ∧ db_rep d A ∧
    indexed (involves uid) created_at_ms A rs ∧
    answers env (if uid =? 0 then [] else drop (length rs - N.to_nat limit) rs) L.
Proof.
  intros Hd Hlim. pose proof (db_rep_wf _ _ Hd) as Hwf.
  destruct (index_records (involves uid) created_at_ms A Hwf) as (rs & Hz & Hp & Hs).
  unfold getRecentMessages. destruct ((uid =? 0) || (limit =? 0)) eqn:H0.
  { exists 0%nat, (w_db w), [], rs. split; [by destruct w|].
    split; [done|]. split; [done|]. split; [apply sublist_nil_l|]. intros _. destruct (uid =? 0); [done|].
    apply N.eqb_eq in H0 as ->. by rewrite drop_ge by lia. }
  apply orb_false_iff in H0 as [-> Hl0%N.eqb_neq].
  set (recent := take (N.to_nat limit) (reverse rs)).
  assert (∀ r, r ∈ recent → r ∈ rs) as Hin.
  { intros r Hr%subseteq_take. by rewrite reverse_Permutation in Hr. }
  destruct (query_spec ["ZREVRANGE"; key_text (KRecent uid); "0"; to_string (limit - 1)]
    (involves uid) recent A w) as (k & d & L & Hrun & Hd' & HL & HL');
    [done|intros r Hr; by eapply perm_in_records, Hin| |].
  { intros m HR.
    destruct (zsorted_spec (recent_index A uid)) as [Hss Hpp].
    change (zsorted (recent_index A uid) = entry_of created_at_ms <$> rs) in Hz.
    rewrite Hz in Hss, Hpp.
    pose proof (doc_ZREVRANGE m (key_text (KRecent uid)) _ _ (limit - 1)
      (rep_recent _ _ HR uid) Hss Hpp) as Hdoc.
    rewrite <-fmap_reverse, <-fmap_take, entry_texts in Hdoc.
    replace (limit - 1 + 1) with limit in Hdoc by lia. apply Hdoc. lia. }
  assert (filter (involves uid) (as_read <$> recent) = as_read <$> recent) as Hkeep.
  { apply filter_all, Forall_fmap, Forall_forall. intros r Hr%Hin. simpl. rewrite Hp in Hr.
    by apply list_elem_of_filter in Hr as [? _]. }
  rewrite Hkeep in HL, HL'.
  assert (as_read <$> drop (length rs - N.to_nat limit) rs = reverse (as_read <$> recent))
    as Hlast by (by rewrite <-fmap_reverse; unfold recent; rewrite reverse_take_reverse).
  exists k, d, (reverse L), rs. split; [|split; [done|split; [done|]]].
  - change (Prog.run (exec env) (l ← (reply ← trigger (RedisCommand
      ["ZREVRANGE"; key_text (KRecent uid); "0"; to_string (limit - 1)]);
      fetch_entries (involves uid) reply); mret (reverse l)) w = (advance k d w, reverse L)).
    unfold mbind at 1, prog_bind at 1. by rewrite run_bind, Hrun.
  - unfold answers. rewrite Hlast. split; [by apply reverse_sublist|by intros ->%HL'].
Qed.

(** [getRecentMessages] is exact.  Without faults it returns the [limit]
    most recent messages the user sent or received, from oldest to newest; no
    messages for user 0 or limit 0.  Faults only leave messages out. *)
Theorem getRecentMessages_exact uid limit A w :
  db_rep (w_db w) A → limit < 9223372036854775808 →
  ∃ k d L rs, run (getRecentMessages uid limit) w = (advance k d w, L) ∧ db_rep d A ∧
    indexed (involves uid) created_at_ms A rs ∧
    answers env (if uid =? 0 then [] else drop (length rs - N.to_nat limit) rs) L.
Proof. apply getRecentMessages_query. Qed.

(** Delivered, and the acknowledgement is overdue. *)
Definition ack_overdue (now timeout : N) (r : MessageRecord) : bool :=
  is_delivered r && (0 <? delivered_at_ms r) && (delivered_at_ms r + timeout <=? now).

Lemma timed_out_overdue now timeout r :
  now < exact_score → delivery_timed_out now timeout r = ack_overdue now timeout r.
Proof.
  intros Hnow. unfold delivery_timed_out, ack_overdue, is_delivered.
  destruct (bool_decide _), (0 <? delivered_at_ms r); simpl; try done.
  apply eq_true_iff_eq. rewrite andb_true_iff, !N.leb_le. split.
  - intros [Hd Ht]. rewrite usub64_le in Ht by (unfold two64, exact_score in *; lia). lia.
  - intros ?. rewrite usub64_le by (unfold two64, exact_score in *; lia). lia.
Qed.

Lemma getTimeoutDeliveredMessages_query now timeout A w :
  db_rep (w_db w) A → now < exact_score →
  ∃ k d L rs, run (getTimeoutDeliveredMessages now timeout) w = (advance k d w, L) ∧
    db_rep d A ∧ indexed (ack_overdue now timeout) delivered_at_ms A rs ∧
    answers env rs L.
Proof.
  intros Hd Hnow. pose proof (db_rep_wf _ _ Hd) as Hwf.
  destruct (index_records is_delivered delivered_at_ms A Hwf) as (rs & Hz & Hp & Hs).
  set (hi := if timeout <=? now then usub64 now timeout else 0).
  assert (hi = now - timeout) as Hhi.
  { unfold hi. destruct (timeout <=? now) eqn:Ht; [apply N.leb_le in Ht|apply N.leb_gt in Ht].
    - by rewrite usub64_le by (unfold two64, exact_score in *; lia).
    - lia. }
  set (cands := filter (λ r, delivered_at_ms r ≤ hi) rs).
  destruct (query_spec ["ZRANGEBYSCORE"; key_text KDelivered; "0"; to_string hi]
    (delivery_timed_out now timeout) cands A w) as (k & d & L & Hrun & Hd' & HL & HL');
    [done|intros r [_ Hr]%list_elem_of_filter; by eapply perm_in_records| |].
  { intros m HR. destruct (zsorted_spec (delivered_index A)) as [Hss Hpp].
    change (zsorted (delivered_index A) = entry_of delivered_at_ms <$> rs) in Hz.
    rewrite Hz in Hss, Hpp.
    pose proof (doc_ZRANGEBYSCORE m (key_text KDelivered) _ _ hi
      (rep_delivered _ _ HR) Hss Hpp) as Hdoc.
    rewrite filter_fmap, entry_texts in Hdoc. apply Hdoc. lia. }
  assert (filter (delivery_timed_out now timeout) (as_read <$> cands) =
    as_read <$> filter (ack_overdue now timeout) rs) as Hkeep.
  { rewrite filter_fmap. f_equal. unfold cands.
    rewrite (list_filter_iff _ (ack_overdue now timeout))
      by (intros r; simpl; by rewrite timed_out_overdue).
    apply list_filter_filter_l. intros r. unfold ack_overdue.
    rewrite !andb_True, !Is_true_true, N.leb_le. lia. }
  rewrite Hkeep in HL, HL'.
  exists k, d, L, (filter (ack_overdue now timeout) rs).
  split; [done|split; [done|split; [|done]]]. split; [|by apply StronglySorted_filter].
  rewrite Hp, list_filter_filter_l; [done|]. intros r. unfold ack_overdue.
  rewrite !andb_True. by intros [[? _] _].
Qed.

(** [getTimeoutDeliveredMessages] is exact.  Without faults it returns
    precisely the [Delivered] messages whose delivery is at least [timeout_ms]
    old (and not at time 0), each once, oldest delivery first; in particular
    the unsigned subtractions of the code do not wrap.  Faults only leave
    messages out. *)
Theorem getTimeoutDeliveredMessages_exact now timeout A w :
  db_rep (w_db w) A → now < exact_score →
  ∃ k d L rs, run (getTimeoutDeliveredMessages now timeout) w = (advance k d w, L) ∧
    db_rep d A ∧ indexed (ack_overdue now timeout) delivered_at_ms A rs ∧
    answers env rs L.
Proof. apply getTimeoutDeliveredMessages_query. Qed.

(** [getMessage] returns the record of the id as the store holds it, and
    nothing for an unknown id (0 included); when the reply is lost it returns
    nothing.  The store does not change. *)
Theorem getMessage_exact id A w :
  db_rep (w_db w) A → id < two64 →
  ∃ k d, run (getMessage id) w =
      (advance k d w, answered (fault_of w) None (as_read <$> st_msgs A !! id)) ∧
    db_rep d A.
Proof. apply FetchRecord_spec. Qed.
End reads.

(** ** Witnesses on the reference Redis *)

Definition three_messages : list any_call :=
  [AnyCall (CCreate 1 2 "a" "m-1"); AnyCall (CCreate 3 2 "b" "m-2"); AnyCall (CDelivered 1);
   AnyCall (CCreate 2 1 "c" "m-3")].

Definition busy_store : store := (spec_calls (example_env 1000 []) three_messages 0 empty_store).1.
Definition busy_world : world :=
  (Prog.run (exec (example_env 1000 [])) (run_calls three_messages) empty_world).1.

Lemma busy_rep : db_rep (R := ref_redis) (w_db busy_world) busy_store.
Proof.
  destruct (run_calls_rep (example_env 1000 []) three_messages empty_store empty_world)
    as (d & k & Hrun & Hd); [apply empty_db_rep|by apply empty_room|by repeat constructor|done|].
  unfold busy_world. rewrite Hrun. exact Hd.
Qed.

Definition quiet_env : environment := example_env 1000 [].

Lemma quiet_no_faults : no_faults quiet_env.
Proof. intros n. done. Qed.

Definition busy_run {A} (p : sys A) : A := (Prog.run (exec (R := ref_redis) quiet_env) p busy_world).2.

(** Message 1 was delivered, so only message 2 waits for user 2. *)
Lemma getPendingMessages_exact_witness :
  (∃ k d L rs, Prog.run (exec quiet_env) (getPendingMessages 2) busy_world =
      (advance (R := ref_redis) k d busy_world, L) ∧ db_rep d busy_store ∧
    indexed (is_pending_for 2) created_at_ms busy_store rs ∧ answers quiet_env rs L) ∧
  msg_id <$> busy_run (getPendingMessages 2) = [2].
Proof.
  split; [|vm_compute; reflexivity].
  apply (getPendingMessages_exact (R := ref_redis)), busy_rep.
Defined.

(** The two most recent of the three messages user 2 sent or received. *)
Lemma getRecentMessages_exact_witness :
  (∃ k d L rs, Prog.run (exec quiet_env) (getRecentMessages 2 2) busy_world =
      (advance (R := ref_redis) k d busy_world, L) ∧ db_rep d busy_store ∧
    indexed (involves 2) created_at_ms busy_store rs ∧
    answers quiet_env (if 2 =? 0 then [] else drop (length rs - N.to_nat 2) rs) L) ∧
  msg_id <$> busy_run (getRecentMessages 2 2) = [2; 3].
Proof.
  split; [|vm_compute; reflexivity].
  apply (getRecentMessages_exact (R := ref_redis)); [apply busy_rep|lia].
Defined.

Lemma getTimeoutDeliveredMessages_exact_witness :
  (∃ k d L rs, Prog.run (exec quiet_env) (getTimeoutDeliveredMessages 11000 10000) busy_world =
      (advance (R := ref_redis) k d busy_world, L) ∧ db_rep d busy_store ∧
    indexed (ack_overdue 11000 10000) delivered_at_ms busy_store rs ∧
    answers quiet_env rs L) ∧
  msg_id <$> busy_run (getTimeoutDeliveredMessages 11000 10000) = [1].
Proof.
  split; [|vm_compute; reflexivity].
  apply (getTimeoutDeliveredMessages_exact (R := ref_redis)); [apply busy_rep|].
  unfold exact_score. lia.
Defined.

Lemma getMessage_exact_witness :
  (∃ k d, Prog.run (exec quiet_env) (getMessage 1) busy_world =
      (advance (R := ref_redis) k d busy_world,
       answered (env_fault quiet_env (w_tick busy_world)) None
         (as_read <$> st_msgs busy_store !! 1)) ∧ db_rep d busy_store) ∧
  (status <$> busy_run (getMessage 1)) = Some Delivered ∧ busy_run (getMessage 9) = None.
Proof.
  split; [|vm_compute; done].
  apply (getMessage_exact (R := ref_redis)); [apply busy_rep|unfold two64; lia].
Defined.
