(* ===== verification/StoreGuarantees.v ===== *)
(** * Guarantees of single store calls

    Idempotent creation, acknowledgement by the receiver only, keys that never
    clash: read off the refinement for the calls a client makes. *)

From S2P Require Import Prelude Decimal Prog Redis RedisInstance Scripts UserState Sys.
From S2P Require Import MessageStore StoreSpec StoreRefine StoreReads.
Local Open Scope N_scope.

Lemma st_create_again now now2 from to to2 text text2 c A :
  store_wf (st_create now from to text c A).1 →
  st_create now2 from to2 text2 c (st_create now from to text c A).1 =
    ((st_create now from to text c A).1, ((st_create now from to text c A).2.1, false)).
Proof.
  intros Hwf. set (A1 := (st_create now from to text c A).1) in *.
  set (r := (st_create now from to text c A).2.1).
  assert (find_duplicate A1 from c = Some r) as Hd.
  { apply (find_duplicate_Some A1 from c (msg_id r) r Hwf). unfold A1, r, st_create in *.
    destruct (find_duplicate A from c) as [r0|] eqn:Hd; cbn [fst snd st_msgs] in *.
    - by apply (find_duplicate_Some A from c (msg_id r0) r0 Hwf).
    - by rewrite lookup_insert_eq. }
  unfold st_create at 1. by rewrite Hd.
Qed.

Section guarantees.
Context {R : Redis} {RL : RedisLaws R} (env : environment).
Hypothesis clock_ok : ∀ n, env_clock env n < exact_score.

(** C14. Creation is idempotent.  If the create request of a message reached
    Redis, even if its reply was lost, then a second [createMessage] with the
    same sender and client message id, whatever its other arguments, reports
    the message as already created, returns its record and changes nothing. *)
Theorem createMessage_idempotent from to to2 text text2 c A w :
  db_rep (w_db w) A → room 2 A → from < two64 → to < two64 → to2 < two64 →
  env_fault env (1 + w_tick w) ≠ RequestLost → env_fault env (3 + w_tick w) = NoFault →
  let A1 := (st_create (env_clock env (w_tick w)) from to text c A).1 in
  ∃ w1 r1 w2 r2, run (exec env) (createMessage from to text c) w = (w1, r1) ∧
    run (exec env) (createMessage from to2 text2 c) w1 = (w2, r2) ∧
    db_rep (w_db w1) A1 ∧ db_rep (w_db w2) A1 ∧ ok r2 = true ∧ created r2 = false ∧
    st_msgs A1 !! msg_id (record r2) ≠ None ∧ (ok r1 = true → record r2 = record r1).
Proof.
  intros HA Hroom Hf Ht Ht2 Hf1 Hf2 A1. pose proof HA as (m & _ & HR & Hwf).
  destruct (call_refines env (CCreate from to text c) A w) as (d1 & Hrun1 & Hd1);
    [done|apply clock_ok|by apply (room_call_ok _ 1)|].
  cbn [call_impl call_reads call_lost call_spec call_now fst snd] in *. fold A1 in Hd1.
  assert (db_rep d1 A1) as Hd1' by (destruct (env_fault env (1 + w_tick w)); done).
  assert (store_wf A1) as Hwf1 by (by destruct Hd1' as (? & _ & _ & ?)).
  assert (room 1 A1) as Hroom1 by by apply (call_spec_room (CCreate from to text c)).
  destruct (call_refines env (CCreate from to2 text2 c) A1 (advance 2 d1 w)) as (d2 & Hrun2 & Hd2);
    [done|apply clock_ok|by apply (room_call_ok _ 0)|].
  cbn [call_impl call_reads call_lost call_spec call_now fst snd] in *.
  unfold A1 in Hrun2, Hd2. rewrite st_create_again in Hrun2, Hd2 by done.
  assert (1 + w_tick (advance 2 d1 w) = 3 + w_tick w)%nat as Htick by done.
  rewrite Htick, Hf2 in Hrun2, Hd2. cbn [answered executed fst snd] in *.
  do 4 eexists. split; [exact Hrun1|]. split; [exact Hrun2|].
  split; [exact Hd1'|]. split; [exact Hd2|]. do 2 (split; [done|]). split.
  - destruct (st_create_found (env_clock env (w_tick w)) from to text c A Hwf) as [id Hid].
    fold A1 in Hid. destruct (wf_record _ Hwf1 _ _ Hid) as [(Hm & _) _].
    cbn [create_result record as_read msg_id fst]. rewrite Hm, Hid. done.
  - destruct (env_fault env (1 + w_tick w)); done.
Qed.

(** Only the receiver's acknowledgement counts.  Without faults,
    [markAcked] answers true exactly when the message exists and the
    acknowledging user is its receiver; then the message is [Acked] with the
    time of the call, and otherwise no message changes. *)
Theorem markAcked_receiver_only id u A w :
  db_rep (w_db w) A → env_fault env (1 + w_tick w) = NoFault →
  ∃ d b A', run (exec env) (markAcked id u) w = (advance 2 d w, b) ∧ db_rep d A' ∧
    (b = true ↔ ∃ r, st_msgs A !! id = Some r ∧ to_uid r = u) ∧
    (∀ r, st_msgs A !! id = Some r → b = true →
       st_msgs A' !! id = Some (set_acked (env_clock env (w_tick w)) r)) ∧
    (b = false → A' = A).
Proof.
  intros HA Hf.
  destruct (call_refines env (CAcked id u) A w) as (d & Hrun & Hd); [done|apply clock_ok|done|].
  cbn [call_impl call_reads call_lost call_spec call_now fst snd] in *.
  rewrite Hf in Hrun, Hd. cbn [answered executed] in *.
  do 3 eexists. split; [exact Hrun|]. split; [exact Hd|].
  unfold st_mark_acked. destruct (st_msgs A !! id) as [r|] eqn:Hr.
  - destruct (N.eqb_spec (to_uid r) u) as [Hu|Hu].
    + rewrite (st_update_Some _ _ _ _ Hr). cbn [fst snd put_record st_msgs].
      split; [naive_solver|]. split; [|done]. intros r' [= <-] _. by rewrite lookup_insert_eq.
    + cbn [fst snd]. split; [naive_solver|]. done.
  - cbn [fst snd]. split; [naive_solver|]. done.
Qed.
End guarantees.

(** Keys never clash.  The Redis keys of the counter, the messages, the
    pending and recent lists, the idempotency records and the time-out list
    are different texts for different arguments, whatever a client puts into
    its message id (colons included). *)
Theorem store_keys_distinct k1 k2 : key_text k1 = key_text k2 → k1 = k2.
Proof. apply key_text_inj. Qed.

(** ** Witnesses *)

Definition lossy_env : environment := example_env 1000 [(1%nat, ReplyLost)].

Lemma createMessage_idempotent_witness :
  let A1 := (st_create 1000 1 2 "hi" "m-1" empty_store).1 in
  (∃ w1 r1 w2 r2, run (exec (R := ref_redis) lossy_env) (createMessage 1 2 "hi" "m-1") empty_world
      = (w1, r1) ∧
    run (exec lossy_env) (createMessage 1 3 "other" "m-1") w1 = (w2, r2) ∧
    db_rep (w_db w1) A1 ∧ db_rep (w_db w2) A1 ∧ ok r2 = true ∧ created r2 = false ∧
    st_msgs A1 !! msg_id (record r2) ≠ None ∧ (ok r1 = true → record r2 = record r1)).
Proof.
  apply (createMessage_idempotent (R := ref_redis) lossy_env);
    [done|apply empty_db_rep|by apply empty_room|done..].
Defined.

Lemma markAcked_receiver_only_witness :
  (∃ d b A', run (exec (R := ref_redis) quiet_env) (markAcked 1 2) busy_world =
      (advance 2 d busy_world, b) ∧ db_rep d A' ∧
    (b = true ↔ ∃ r, st_msgs busy_store !! 1 = Some r ∧ to_uid r = 2) ∧
    (∀ r, st_msgs busy_store !! 1 = Some r → b = true →
       st_msgs A' !! 1 = Some (set_acked 1000 r)) ∧
    (b = false → A' = busy_store)) ∧
  busy_run (markAcked 1 2) = true ∧ busy_run (markAcked 1 1) = false.
Proof.
  split; [|vm_compute; done].
  apply (markAcked_receiver_only (R := ref_redis) quiet_env); [done|apply busy_rep|done].
Defined.

Lemma store_keys_distinct_witness : KIdem 1 "a:b" = KIdem 1 "a:b".
Proof. apply store_keys_distinct. reflexivity. Defined.
