(* ===== verification/Dispatcher.v ===== *)
(** * ServerEventDispatcher (server/src/ServerEventDispatcher.cpp)

    The business handlers, run by the worker threads, and the delivery loop,
    run by its own thread, as programs over the server's surroundings.  A
    handler only runs on the non-null connection of its event. *)

From S2P Require Import Prelude Decimal Message Codec UserState Prog Redis Scripts Sys.
From S2P Require Import MessageStore.
Local Open Scope N_scope.

Definition kAckTimeoutMs : N := 10000.
Definition kMaxDeliveryRetryCount : Z := 3.
Definition kLoginRecentMessageLimit : N := 100.
Definition kBusinessWorkerCount : nat := 8.

Inductive ServerEvent :=
  | EnvelopeEvent (conn : Conn) (envelope : Envelope)
  | ConnectionClosed (conn : Conn).

Definition event_conn (e : ServerEvent) : Conn :=
  match e with EnvelopeEvent c _ | ConnectionClosed c => c end.

(** [EventShardKey]: the address of the connection. *)
Definition EventShardKey (e : ServerEvent) : N := event_conn e.

Section dispatcher.
Context {P : Protobuf}.

Definition sendEnvelope (c : Conn) (envelope : Envelope) : sys unit :=
  let frame := Encode envelope in
  if decide (frame = []) then trigger (ConnShutdown c) else trigger (ConnSend c frame).

Definition sendAck (c : Conn) (seq msg_id : N) (ok : bool) (reason : string) : sys unit :=
  now ← trigger NowMs;
  sendEnvelope c (EnvelopeFactory.CreateAck now seq msg_id ok reason).

Definition sendErrorAck (c : Conn) (seq : N) (reason : string) : sys unit :=
  sendAck c seq 0 false reason.

(** [CreateChatPush] for a record, and its sending. *)
Definition sendPush (c : Conn) (r : MessageRecord) (history : bool) : sys unit :=
  now ← trigger NowMs;
  now2 ← (if created_at_ms r =? 0 then trigger NowMs else mret 0);
  sendEnvelope c (EnvelopeFactory.CreateChatPush now now2 (msg_id r) (msg_id r)
    (from_uid r) (to_uid r) (content r) (created_at_ms r) history).

(** [target && target->connected()]. *)
Definition online_target (u : N) : sys (option Conn) :=
  target ← trigger (UsersConnByUid u);
  match target with
  | None => mret None
  | Some c => connected ← trigger (ConnConnected c); mret (if (connected : bool) then Some c else None)
  end.

Definition is_terminal (r : MessageRecord) : bool :=
  match status r with Acked | Failed => true | _ => false end.

Definition tryDeliverMessage (r : MessageRecord) : sys bool :=
  if is_terminal r then mret false
  else
    target ← online_target (to_uid r);
    match target with
    | None => _ ← markPending (msg_id r); mret false
    | Some c =>
        _ ← sendPush c r false;
        _ ← markDelivered (msg_id r);
        mret true
    end.

Definition retryDeliverMessage (r : MessageRecord) : sys bool :=
  if is_terminal r then mret false
  else
    target ← online_target (to_uid r);
    match target with
    | None => _ ← markPending (msg_id r); mret false
    | Some c =>
        _ ← incrementRetryCount (msg_id r);
        _ ← sendPush c r false;
        _ ← markDelivered (msg_id r);
        mret true
    end.

Definition sendRecentMessages (u limit : N) : sys unit :=
  recent_records ← getRecentMessages u limit;
  target ← online_target u;
  match target with
  | None => mret tt
  | Some c => for_each recent_records (λ r, sendPush c r true)
  end.

Definition deliverPendingMessages (u : N) : sys bool :=
  pending_records ← getPendingMessages u;
  _ ← for_each pending_records (λ r, _ ← tryDeliverMessage r; mret tt);
  mret (negb (bool_decide (pending_records = []))).

Definition deliverLoginMessages (u : N) : sys unit :=
  delivered ← deliverPendingMessages u;
  if (delivered : bool) then mret tt else sendRecentMessages u kLoginRecentMessageLimit.

Definition handleLogin (c : Conn) (e : Envelope) : sys unit :=
  let u := login_req_uid (login_req e) in
  let ok := has_login_req e && negb (u =? 0) in
  result ← (if negb ok then mret (false, "invalid login request")
            else bound ← trigger (UsersBind (Some c) u);
                 mret (if (bound : bool) then (true, "") else (false, "bind user failed")));
  now ← trigger NowMs;
  _ ← sendEnvelope c (EnvelopeFactory.CreateLoginResponse now (env_seq e) (fst result) (snd result));
  if fst (result : bool * string) then deliverLoginMessages u else mret tt.

Definition handleChat (c : Conn) (e : Envelope) : sys unit :=
  if negb (has_chat_req e) then sendErrorAck c (env_seq e) "invalid chat request"
  else
    let request := chat_req e in
    u ← trigger (UsersUidByConn (Some c));
    if u =? 0 then sendErrorAck c (env_seq e) "please login first"
    else if negb (chat_req_from_uid request =? u) then
      sendErrorAck c (env_seq e) "from_uid does not match session"
    else
      create_result ← createMessage (chat_req_from_uid request) (chat_req_to_uid request)
        (chat_req_content request) (chat_req_client_msg_id request);
      if negb (ok create_result) then
        sendErrorAck c (env_seq e) "message store unavailable"
      else if negb (created create_result) then
        sendAck c (env_seq e) (msg_id (record create_result)) true "duplicate message"
      else
        _ ← tryDeliverMessage (record create_result);
        sendAck c (env_seq e) (msg_id (record create_result)) true "".

Definition handleAck (c : Conn) (e : Envelope) : sys unit :=
  if negb (has_ack e) then mret tt
  else if ack_msg_id (ack e) =? 0 then mret tt
  else
    u ← trigger (UsersUidByConn (Some c));
    if u =? 0 then mret tt
    else _ ← markAcked (ack_msg_id (ack e)) u; mret tt.

Definition handleHeartbeat (c : Conn) : sys unit := trigger (UsersHeartbeat (Some c)).

Definition handleConnectionClosed (c : Conn) : sys unit := trigger (UsersRemove (Some c)).

Definition handle (event : ServerEvent) : sys unit :=
  match event with
  | ConnectionClosed c => handleConnectionClosed c
  | EnvelopeEvent c e =>
      match env_type e with
      | LOGIN_REQ => handleLogin c e
      | CHAT_REQ => handleChat c e
      | ACK => handleAck c e
      | HEARTBEAT => handleHeartbeat c
      | _ => sendErrorAck c (env_seq e) "unsupported message type"
      end
  end.

(** One record of a scan, and one scan of [deliveryLoop]. *)
Definition deliver_overdue (r : MessageRecord) : sys unit :=
  if (kMaxDeliveryRetryCount <=? retry_count r)%Z
  then _ ← markFailed (msg_id r); mret tt
  else _ ← retryDeliverMessage r; mret tt.

Definition delivery_scan : sys unit :=
  now ← trigger NowMs;
  timeout_records ← getTimeoutDeliveredMessages now kAckTimeoutMs;
  for_each timeout_records deliver_overdue.

(** [deliveryLoop] that finds [stopped_] unset [scans] times and then set. *)
Fixpoint deliveryLoop (scans : nat) : sys unit :=
  match scans with
  | O => mret tt
  | S scans => _ ← delivery_scan; deliveryLoop scans
  end.
End dispatcher.
