(* ===== verification/StoreService.v ===== *)
(** * The interface between the message store and its clients

    [StoreService] is what [MessageStore] promises to [ServerEventDispatcher]:
    its calls perform the operations of the abstract store, its queries answer
    from it.  The dispatcher's theorems use only this interface; the instance
    is discharged by the refinement theorems of the store. *)

From S2P Require Import Prelude Decimal Prog Redis RedisInstance Scripts UserState Sys.
From S2P Require Import MessageStore StoreSpec StoreRefine StoreReads.
Local Open Scope N_scope.

Class StoreService {R : Redis} (env : environment) := {
  (** The database holds an abstract store. *)
  holds : redis_db → store → Prop;
  holds_wf d A : holds d A → store_wf A;
  service_call {T} (c : store_call T) A w :
    let f := env_fault env (call_reads c + w_tick w) in
    holds (w_db w) A → call_now env c w < exact_score → call_ok c A →
    ∃ k d, run (exec env) (call_impl c) w =
        (advance k d w, answered f (call_lost c) (call_spec c (call_now env c w) A).2) ∧
      holds d (executed f A (call_spec c (call_now env c w) A).1);
  service_pending uid A w :
    holds (w_db w) A →
    ∃ k d L rs, run (exec env) (getPendingMessages uid) w = (advance k d w, L) ∧
      holds d A ∧ indexed (is_pending_for uid) created_at_ms A rs ∧ answers env rs L;
  service_recent uid limit A w :
    holds (w_db w) A → limit < 9223372036854775808 →
    ∃ k d L rs, run (exec env) (getRecentMessages uid limit) w = (advance k d w, L) ∧
      holds d A ∧ indexed (involves uid) created_at_ms A rs ∧
      answers env (if uid =? 0 then [] else drop (length rs - N.to_nat limit) rs) L;
  service_overdue now timeout A w :
    holds (w_db w) A → now < exact_score →
    ∃ k d L rs, run (exec env) (getTimeoutDeliveredMessages now timeout) w =
        (advance k d w, L) ∧
      holds d A ∧ indexed (ack_overdue now timeout) delivered_at_ms A rs ∧
      answers env rs L }.

#[export, refine] Instance redis_store_service {R : Redis} {RL : RedisLaws R} (env : environment) :
    StoreService env := {
  holds := db_rep }.
Proof.
  - apply db_rep_wf.
  - intros T c A w f Hd Hnow Hok.
    destruct (call_refines env c A w) as (d & Hrun & Hd'); [done..|]. eauto.
  - apply getPendingMessages_query.
  - apply getRecentMessages_query.
  - apply getTimeoutDeliveredMessages_query.
Defined.
