(* ===== verification/ServerLogic.v ===== *)
(** * A program logic for the server

    The server as its clients see it: the abstract message store, the on-line
    table, the live connections and the envelopes sent.  [triple a p Q] runs
    the program [p] on any concrete server that implements [a]; the rules
    below execute the operations of [p] on the abstract server. *)

From S2P Require Import Prelude Decimal Message Codec UserState Prog Redis Scripts Sys.
From S2P Require Import MessageStore StoreSpec StoreRefine StoreReads StoreService Dispatcher.
Local Open Scope N_scope.

Record server := {
  a_store : store; a_users : UserStateService; a_live : gset Conn;
  a_sent : list (Conn * Envelope) }.

Definition with_store (A : store) (a : server) : server :=
  {| a_store := A; a_users := a_users a; a_live := a_live a; a_sent := a_sent a |}.
Definition with_users (u : UserStateService) (a : server) : server :=
  {| a_store := a_store a; a_users := u; a_live := a_live a; a_sent := a_sent a |}.
Definition with_sent (c : Conn) (e : Envelope) (a : server) : server :=
  {| a_store := a_store a; a_users := a_users a; a_live := a_live a;
     a_sent := a_sent a ++ [(c, e)] |}.

Section logic.
Context {R : Redis} {P : Protobuf} (env : environment) {SS : StoreService env}.

(** What sending an envelope does to the connection. *)
Definition render (x : Conn * Envelope) : output :=
  if decide (Encode x.2 = []) then ShutDown x.1 else Sent x.1 (Encode x.2).

Record implements (w : world) (a : server) : Prop := {
  imp_store : holds (w_db w) (a_store a);
  imp_users : w_users w = a_users a;
  imp_live : w_live w = a_live a;
  imp_sent : w_out w = render <$> a_sent a }.

Definition triple {T} (a : server) (p : sys T) (Q : T → server → Prop) : Prop :=
  ∀ w, implements w a → ∃ a', implements (run (exec env) p w).1 a' ∧
    Q (run (exec env) p w).2 a'.

(** The clock is in range and some set of faults contains those that occur. *)
Variable allowed : fault → Prop.
Hypothesis clock_ok : ∀ n, env_clock env n < exact_score.
Hypothesis faults_ok : ∀ n, allowed (env_fault env n).

Lemma triple_ret {T} a (x : T) Q : Q x a → triple a (mret x) Q.
Proof. intros HQ w Hw. by exists a. Qed.

Lemma triple_bind {T U} a (p : sys T) (f : T → sys U) Q :
  triple a p (λ x a', triple a' (f x) Q) → triple a (p ≫= f) Q.
Proof.
  intros Hp w Hw. destruct (Hp w Hw) as (a1 & Hw1 & Hf).
  unfold mbind, prog_bind. rewrite run_bind.
  destruct (run (exec env) p w) as [w1 x]. by apply Hf.
Qed.

Lemma triple_mono {T} a (p : sys T) (Q Q' : T → server → Prop) :
  triple a p Q → (∀ x a', Q x a' → Q' x a') → triple a p Q'.
Proof. intros Hp HQ w Hw. destruct (Hp w Hw) as (a' & ? & ?). eauto. Qed.

(** *** The clock, the on-line table, the connections *)

Lemma implements_tick w a : implements w a → implements (tick w) a.
Proof. by intros []. Qed.

Lemma triple_now a (Q : N → server → Prop) :
  (∀ t, t < exact_score → Q t a) → triple a (trigger NowMs) Q.
Proof.
  intros HQ w Hw. exists a. split; [by apply implements_tick|]. apply HQ, clock_ok.
Qed.

Lemma triple_uid a c (Q : N → server → Prop) :
  Q (getUidByConn (Some c) (a_users a)) a → triple a (trigger (UsersUidByConn (Some c))) Q.
Proof.
  intros HQ w Hw. exists a. split; [by apply implements_tick|].
  simpl. by rewrite (imp_users _ _ Hw).
Qed.

Lemma triple_users_bind a c u (Q : bool → server → Prop) :
  (∀ t, let r := bindUser t (Some c) u (a_users a) in Q r.2 (with_users r.1 a)) →
  triple a (trigger (UsersBind (Some c) u)) Q.
Proof.
  intros HQ w Hw. set (t := env_clock env (w_tick w)). specialize (HQ t).
  exists (with_users (bindUser t (Some c) u (a_users a)).1 a).
  cbn [trigger run exec]. fold t. rewrite (imp_users _ _ Hw).
  destruct (bindUser t (Some c) u (a_users a)) as [s b]. split; [|done].
  by destruct Hw.
Qed.

Lemma triple_users_remove a c (Q : unit → server → Prop) :
  Q tt (with_users (removeConnection (Some c) (a_users a)) a) →
  triple a (trigger (UsersRemove (Some c))) Q.
Proof.
  intros HQ w Hw. eexists. split; [|exact HQ]. destruct Hw as [? Hu ? ?].
  constructor; try done. simpl. by rewrite Hu.
Qed.

Lemma triple_users_heartbeat a c (Q : unit → server → Prop) :
  (∀ t, Q tt (with_users (updateHeartbeat t (Some c) (a_users a)) a)) →
  triple a (trigger (UsersHeartbeat (Some c))) Q.
Proof.
  intros HQ w Hw. eexists. split; [|exact (HQ (env_clock env (w_tick w)))].
  destruct Hw as [? Hu ? ?]. constructor; try done. simpl. by rewrite Hu.
Qed.

(** The connection a user can be reached on. *)
Definition target_of (u : N) (a : server) : option Conn :=
  c ← getConnByUid u (a_users a); if decide (c ∈ a_live a) then Some c else None.

Lemma triple_target a u (Q : option Conn → server → Prop) :
  Q (target_of u a) a → triple a (online_target u) Q.
Proof.
  unfold target_of. intros HQ w Hw.
  destruct (getConnByUid u (a_users a)) as [c|] eqn:Hc; simpl in HQ.
  - exists a. cbn [online_target mbind prog_bind bind trigger run exec].
    rewrite (imp_users _ _ Hw), Hc. cbn [bind trigger run exec mret prog_ret].
    split; [by repeat apply implements_tick|].
    cbn [fst snd w_live tick]. rewrite (imp_live _ _ Hw).
    by destruct (decide (c ∈ a_live a)); rewrite ?bool_decide_true, ?bool_decide_false by done.
  - exists a. cbn [online_target mbind prog_bind bind trigger run exec].
    rewrite (imp_users _ _ Hw), Hc. split; [by apply implements_tick|done].
Qed.

Lemma triple_send a c e (Q : unit → server → Prop) :
  Q tt (with_sent c e a) → triple a (sendEnvelope c e) Q.
Proof.
  intros HQ w Hw. exists (with_sent c e a).
  assert (∃ o, o = render (c, e) ∧ run (exec env) (sendEnvelope c e) w =
    (tick (add_out o w), tt)) as (o & Ho & ->).
  { unfold sendEnvelope, render. cbn [fst snd]. case_decide; eauto. }
  split; [|done]. destruct Hw as [? ? ? Hs]. constructor; try done.
  cbn [w_out tick add_out a_sent with_sent fst]. by rewrite Hs, fmap_app, Ho.
Qed.

Lemma triple_ack a c seq id ok reason (Q : unit → server → Prop) :
  (∀ t, Q tt (with_sent c (EnvelopeFactory.CreateAck t seq id ok reason) a)) →
  triple a (sendAck c seq id ok reason) Q.
Proof.
  intros HQ. apply triple_bind, triple_now. intros t _. by apply triple_send.
Qed.

(** The envelope pushed for a record. *)
Definition push_of (t t2 : N) (r : MessageRecord) (history : bool) : Envelope :=
  EnvelopeFactory.CreateChatPush t t2 (msg_id r) (msg_id r) (from_uid r) (to_uid r)
    (content r) (created_at_ms r) history.

Lemma triple_push a c r history (Q : unit → server → Prop) :
  (∀ t t2, Q tt (with_sent c (push_of t t2 r history) a)) →
  triple a (sendPush c r history) Q.
Proof.
  intros HQ. apply triple_bind, triple_now. intros t _. apply triple_bind.
  destruct (created_at_ms r =? 0); [apply triple_now; intros t2 _|apply triple_ret];
    apply triple_send, HQ.
Qed.

(** *** The message store *)

Lemma implements_advance k d w a A :
  implements w a → holds d A → implements (advance k d w) (with_store A a).
Proof. by intros []. Qed.

Lemma triple_store_call {T} a (c : store_call T) (Q : T → server → Prop) :
  call_ok c (a_store a) →
  (∀ f t, allowed f → t < exact_score →
    let r := call_spec c t (a_store a) in
    Q (answered f (call_lost c) r.2) (with_store (executed f (a_store a) r.1) a)) →
  triple a (call_impl c) Q.
Proof.
  intros Hok HQ w Hw.
  assert (call_now env c w < exact_score) as Hnow by (destruct c; [apply clock_ok..|done]).
  destruct (service_call c (a_store a) w (imp_store _ _ Hw) Hnow Hok) as (k & d & -> & Hd).
  eexists. split; [by apply implements_advance|]. apply HQ; [apply faults_ok|done].
Qed.

Lemma with_same_store a : with_store (a_store a) a = a.
Proof. by destruct a. Qed.

Lemma triple_query a (p : sys (list MessageRecord)) (spec : list MessageRecord → Prop) Q :
  (∀ w, holds (w_db w) (a_store a) → ∃ k d L rs, run (exec env) p w = (advance k d w, L) ∧
    holds d (a_store a) ∧ spec rs ∧ answers env rs L) →
  (∀ rs L, spec rs → answers env rs L → Q L a) →
  triple a p Q.
Proof.
  intros Hp HQ w Hw. destruct (Hp w (imp_store _ _ Hw)) as (k & d & L & rs & -> & Hd & Hrs & HL).
  exists a. split; [|by eapply HQ]. rewrite <-with_same_store at 1. by apply implements_advance.
Qed.

Lemma triple_pending a u Q :
  (∀ rs L, indexed (is_pending_for u) created_at_ms (a_store a) rs → answers env rs L → Q L a) →
  triple a (getPendingMessages u) Q.
Proof. intros HQ. eapply triple_query; [intros w Hw; by apply service_pending|done]. Qed.

Lemma triple_recent a u limit Q :
  limit < 9223372036854775808 →
  (∀ rs L, indexed (involves u) created_at_ms (a_store a) rs →
    answers env (if u =? 0 then [] else drop (length rs - N.to_nat limit) rs) L → Q L a) →
  triple a (getRecentMessages u limit) Q.
Proof.
  intros Hl HQ w Hw.
  destruct (service_recent u limit _ w (imp_store _ _ Hw) Hl)
    as (k & d & L & rs & -> & Hd & Hrs & HL).
  exists a. split; [|by eapply HQ]. rewrite <-with_same_store at 1. by apply implements_advance.
Qed.

Lemma triple_overdue a now timeout Q :
  now < exact_score →
  (∀ rs L, indexed (ack_overdue now timeout) delivered_at_ms (a_store a) rs →
    answers env rs L → Q L a) →
  triple a (getTimeoutDeliveredMessages now timeout) Q.
Proof. intros Hn HQ. eapply triple_query; [intros w Hw; by apply service_overdue|done]. Qed.

(** *** Loops

    [fold_steps S l a a']: the iterations of a loop over [l], each in [S]. *)
Inductive fold_steps {X} (S : X → server → server → Prop) : list X → server → server → Prop :=
| fold_nil a : fold_steps S [] a a
| fold_cons x l a a1 a2 : S x a a1 → fold_steps S l a1 a2 → fold_steps S (x :: l) a a2.

Lemma triple_for_each {X} (S : X → server → server → Prop) (I : list X → server → Prop)
    (l : list X) (body : X → sys unit) a :
  (∀ x l a, I (x :: l) a → triple a (body x) (λ _ a', S x a a' ∧ I l a')) →
  I l a → triple a (for_each l body) (λ _ a', fold_steps S l a a' ∧ I [] a').
Proof.
  intros Hb. revert a. induction l as [|x l IH]; intros a Ha.
  - apply triple_ret. split; [constructor|done].
  - apply (triple_bind a (body x) (λ _, for_each l body)).
    eapply triple_mono; [by apply Hb|]. intros _ a1 [HS Ha1].
    eapply triple_mono; [by apply IH|]. intros _ a2 [HF Ha2]. split; [|done].
    by econstructor.
Qed.
End logic.

(** Over Redis itself the clock and the faults do not matter for what a world
    implements. *)
Lemma implements_env {R : Redis} {RL : RedisLaws R} {P : Protobuf} env env' w a :
  implements env w a → implements env' w a.
Proof. by intros []. Qed.
