(* ===== verification/ServerSpec.v ===== *)
(** * What the server promises

    The abstract server as a step relation: how an event, or a scan of the
    delivery thread, changes the message store, the on-line table and the
    envelopes sent.  Clock readings are left open ([t], [t2], ...). *)

From S2P Require Import Prelude Decimal Message Codec UserState Prog Redis Scripts Sys.
From S2P Require Import MessageStore StoreSpec StoreRefine StoreReads StoreService Dispatcher.
From S2P Require Import ServerLogic.
Local Open Scope N_scope.

(** ** Delivery of one message *)
Inductive deliver_step (r : MessageRecord) (a : server) : server → Prop :=
| deliver_terminal :
    is_terminal r = true → deliver_step r a a
| deliver_offline :
    is_terminal r = false → target_of (to_uid r) a = None →
    deliver_step r a (with_store (st_mark_pending (msg_id r) (a_store a)).1 a)
| deliver_online c t t2 t3 :
    is_terminal r = false → target_of (to_uid r) a = Some c → t3 < exact_score →
    deliver_step r a (with_store (st_mark_delivered t3 (msg_id r) (a_store a)).1
      (with_sent c (push_of t t2 r false) a)).

(** A delivery that did not get acknowledged in time is repeated, counted. *)
Inductive retry_step (r : MessageRecord) (a : server) : server → Prop :=
| retry_terminal :
    is_terminal r = true → retry_step r a a
| retry_offline :
    is_terminal r = false → target_of (to_uid r) a = None →
    retry_step r a (with_store (st_mark_pending (msg_id r) (a_store a)).1 a)
| retry_online c t t2 t3 :
    is_terminal r = false → target_of (to_uid r) a = Some c → t3 < exact_score →
    retry_step r a (with_store
      (st_mark_delivered t3 (msg_id r) (st_increment_retry (msg_id r) (a_store a)).1).1
      (with_sent c (push_of t t2 r false) a)).

Definition overdue_step (r : MessageRecord) (a a' : server) : Prop :=
  if (kMaxDeliveryRetryCount <=? retry_count r)%Z
  then a' = with_store (st_mark_failed (msg_id r) (a_store a)).1 a
  else retry_step r a a'.

(** One scan: every delivery overdue at its time, the oldest first. *)
Definition scan_step (a a' : server) : Prop :=
  ∃ t rs, t < exact_score ∧ indexed (ack_overdue t kAckTimeoutMs) delivered_at_ms (a_store a) rs ∧
    fold_steps overdue_step (as_read <$> rs) a a'.

(** A scan at the time [t]. *)
Definition scan_at (t : N) (a a' : server) : Prop :=
  ∃ rs, indexed (ack_overdue t kAckTimeoutMs) delivered_at_ms (a_store a) rs ∧
    fold_steps overdue_step (as_read <$> rs) a a'.

(** ** Login *)

(** History is only shown: it changes no message. *)
Definition history_step (c : Conn) (r : MessageRecord) (a a' : server) : Prop :=
  ∃ t t2, a' = with_sent c (push_of t t2 r true) a.

(** After a login: the pending messages in order or, when there are none, the
    last hundred messages as history. *)
Definition login_replay (u : N) (a a' : server) : Prop :=
  ∃ rs, indexed (is_pending_for u) created_at_ms (a_store a) rs ∧
    if decide (rs = []) then
      ∃ all, indexed (involves u) created_at_ms (a_store a) all ∧
        match target_of u a with
        | None => a' = a
        | Some c => fold_steps (history_step c)
            (as_read <$> drop (length all - N.to_nat kLoginRecentMessageLimit) all) a a'
        end
    else fold_steps deliver_step (as_read <$> rs) a a'.

(** ** Events *)

(** Why a chat request is refused, if it is. *)
Definition chat_refusal (c : Conn) (e : Envelope) (a : server) : option string :=
  let u := getUidByConn (Some c) (a_users a) in
  if negb (has_chat_req e) then Some "invalid chat request"
  else if u =? 0 then Some "please login first"
  else if negb (chat_req_from_uid (chat_req e) =? u) then Some "from_uid does not match session"
  else None.

Definition login_valid (e : Envelope) : bool :=
  has_login_req e && negb (login_req_uid (login_req e) =? 0).

Definition ack_valid (c : Conn) (e : Envelope) (a : server) : bool :=
  has_ack e && negb (ack_msg_id (ack e) =? 0) &&
  negb (getUidByConn (Some c) (a_users a) =? 0).

Inductive server_step (a : server) : ServerEvent → server → Prop :=
| step_login_refused c e t :
    env_type e = LOGIN_REQ → login_valid e = false →
    server_step a (EnvelopeEvent c e) (with_sent c
      (EnvelopeFactory.CreateLoginResponse t (env_seq e) false "invalid login request") a)
| step_login c e t t2 a' :
    env_type e = LOGIN_REQ → login_valid e = true →
    let u := login_req_uid (login_req e) in
    login_replay u (with_sent c (EnvelopeFactory.CreateLoginResponse t2 (env_seq e) true "")
      (with_users (bindUser t (Some c) u (a_users a)).1 a)) a' →
    server_step a (EnvelopeEvent c e) a'
| step_chat_refused c e t reason :
    env_type e = CHAT_REQ → chat_refusal c e a = Some reason →
    server_step a (EnvelopeEvent c e)
      (with_sent c (EnvelopeFactory.CreateAck t (env_seq e) 0 false reason) a)
| step_chat_duplicate c e t r :
    env_type e = CHAT_REQ → chat_refusal c e a = None →
    find_duplicate (a_store a) (chat_req_from_uid (chat_req e))
      (chat_req_client_msg_id (chat_req e)) = Some r →
    server_step a (EnvelopeEvent c e)
      (with_sent c (EnvelopeFactory.CreateAck t (env_seq e) (msg_id r) true "duplicate message") a)
| step_chat c e t t2 a1 :
    env_type e = CHAT_REQ → chat_refusal c e a = None → t < exact_score →
    let q := chat_req e in
    find_duplicate (a_store a) (chat_req_from_uid q) (chat_req_client_msg_id q) = None →
    let r := new_record t (st_next (a_store a) + 1) (chat_req_from_uid q) (chat_req_to_uid q)
               (chat_req_content q) (chat_req_client_msg_id q) in
    deliver_step r (with_store {| st_next := msg_id r;
      st_msgs := <[msg_id r := r]> (st_msgs (a_store a)) |} a) a1 →
    server_step a (EnvelopeEvent c e)
      (with_sent c (EnvelopeFactory.CreateAck t2 (env_seq e) (msg_id r) true "") a1)
| step_ack_ignored c e :
    env_type e = ACK → ack_valid c e a = false → server_step a (EnvelopeEvent c e) a
| step_ack c e t :
    env_type e = ACK → ack_valid c e a = true → t < exact_score →
    server_step a (EnvelopeEvent c e) (with_store (st_mark_acked t (ack_msg_id (ack e))
      (getUidByConn (Some c) (a_users a)) (a_store a)).1 a)
| step_heartbeat c e t :
    env_type e = HEARTBEAT →
    server_step a (EnvelopeEvent c e) (with_users (updateHeartbeat t (Some c) (a_users a)) a)
| step_unsupported c e t :
    env_type e ∉ [LOGIN_REQ; CHAT_REQ; ACK; HEARTBEAT] →
    server_step a (EnvelopeEvent c e)
      (with_sent c (EnvelopeFactory.CreateAck t (env_seq e) 0 false "unsupported message type") a)
| step_closed c :
    server_step a (ConnectionClosed c) (with_users (removeConnection (Some c) (a_users a)) a).
