(* ===== verification/DispatcherRefine.v ===== *)
(** * The dispatcher implements the abstract server

    Run without faults on a server that implements the abstract one, every
    handler performs a step of [server_step] and every scan of the delivery
    loop a [scan_step]; under faults a chat request is answered with an
    error.  Proved against the interface of the message store. *)

From S2P Require Import Prelude Decimal Message Codec UserState Prog Redis Scripts Sys.
From S2P Require Import MessageStore StoreSpec StoreRefine StoreReads StoreService Dispatcher.
From S2P Require Import ServerLogic ServerSpec.
Local Open Scope N_scope.

(** Field values in the range of their protobuf types. *)
Definition event_ok (ev : ServerEvent) : Prop :=
  match ev with
  | EnvelopeEvent _ e =>
      chat_req_from_uid (chat_req e) < two64 ∧ chat_req_to_uid (chat_req e) < two64
  | ConnectionClosed _ => True
  end.

(** Room for one more message id. *)
Definition id_room (a : server) : Prop := st_next (a_store a) + 1 < lua_exact.

(** No message was retried more often than the delivery loop allows. *)
Definition retries_bounded (a : server) : Prop :=
  ∀ id r, st_msgs (a_store a) !! id = Some r → (0 ≤ retry_count r ≤ kMaxDeliveryRetryCount)%Z.

(** ** The counts of retries *)

Lemma st_update_alter f id A : st_msgs (st_update f id A).1 = alter f id (st_msgs A).
Proof.
  unfold st_update. destruct (st_msgs A !! id) as [r|] eqn:Hi; simpl.
  - apply map_eq. intros i. destruct (decide (i = id)) as [->|Hne].
    + by rewrite lookup_insert_eq, lookup_alter_eq, Hi.
    + by rewrite lookup_insert_ne, lookup_alter_ne.
  - apply map_eq. intros i. destruct (decide (i = id)) as [->|Hne].
    + by rewrite lookup_alter_eq, Hi.
    + by rewrite lookup_alter_ne.
Qed.

(** What an overdue record [x] does to the counts: only its own can grow, by
    one, and only below the limit. *)
Definition counts_step (x : MessageRecord) (a a' : server) : Prop :=
  ∀ id, match st_msgs (a_store a') !! id, st_msgs (a_store a) !! id with
        | Some r', Some r => retry_count r' = retry_count r ∨
            id = msg_id x ∧ (retry_count x < kMaxDeliveryRetryCount)%Z ∧
            (retry_count r' = retry_count r + 1)%Z
        | None, None => True
        | _, _ => False
        end.

Ltac counts_tac :=
  intros id; cbn [a_store with_store with_sent];
  unfold st_mark_failed, st_mark_pending, st_mark_delivered, st_increment_retry;
  rewrite ?st_update_alter;
  lazymatch goal with
  | |- context [alter _ ?i _] => destruct (decide (id = i)) as [->|]
  | _ => idtac
  end;
  rewrite ?lookup_alter_eq; rewrite ?lookup_alter_ne by done;
  destruct (_ !! _); simpl; auto.

Lemma overdue_counts x a a' : overdue_step x a a' → counts_step x a a'.
Proof.
  unfold overdue_step. destruct (Z.leb_spec kMaxDeliveryRetryCount (retry_count x)) as [?|Hlt].
  - intros ->. counts_tac.
  - intros []; counts_tac.
Qed.

Lemma deliver_counts x a a' : deliver_step x a a' → counts_step x a a'.
Proof. intros []; counts_tac. Qed.

(** The records a scan still has to treat carry their current counts. *)
Definition scan_inv (l : list MessageRecord) (a : server) : Prop :=
  retries_bounded a ∧ NoDup (msg_id <$> l) ∧
  ∀ x, x ∈ l → ∃ r, st_msgs (a_store a) !! msg_id x = Some r ∧ retry_count r = retry_count x.

Lemma scan_inv_room x l a : scan_inv (x :: l) a → retry_room (msg_id x) (a_store a).
Proof.
  intros (Hb & _ & _) r Hr. destruct (Hb _ _ Hr) as [_ ?].
  unfold kMaxDeliveryRetryCount, exact_score in *. lia.
Qed.

Lemma scan_inv_step x l a a' : scan_inv (x :: l) a → counts_step x a a' → scan_inv l a'.
Proof.
  intros (Hb & Hnd & Hl) Hc. cbn [fmap list_fmap] in Hnd. inversion_clear Hnd as [|? ? Hx Hnd'].
  split_and!; [|done|].
  - intros id r' Hr'. specialize (Hc id). rewrite Hr' in Hc.
    destruct (st_msgs (a_store a) !! id) as [r|] eqn:Hr; [|done].
    pose proof (Hb _ _ Hr). destruct Hc as [->|(-> & Hlt & ->)]; [done|].
    destruct (Hl x) as (r0 & Hr0 & Heq); [by left|]. simplify_eq. lia.
  - intros y Hy. destruct (Hl y) as (r & Hr & Heq); [by right|].
    specialize (Hc (msg_id y)). rewrite Hr in Hc.
    destruct (st_msgs (a_store a') !! msg_id y) as [r'|]; [|done]. exists r'.
    split; [done|]. destruct Hc as [->|[Hid _]]; [done|].
    destruct Hx. rewrite <-Hid. by apply list_elem_of_fmap_2.
Qed.

Lemma indexed_records keep score A rs :
  indexed keep score A rs → ∀ r, r ∈ rs → keep r = true ∧ r ∈ records A.
Proof.
  intros [Hp _] r Hr. rewrite Hp in Hr. apply list_elem_of_filter in Hr as [?%Is_true_true ?].
  done.
Qed.

Lemma indexed_ids keep score A rs :
  store_wf A → indexed keep score A rs → NoDup (msg_id <$> rs).
Proof.
  intros Hwf Hrs. apply NoDup_fmap_2_strong.
  - intros r r' Hr Hr'. apply (indexed_records _ _ _ _ Hrs) in Hr as [_ Hr], Hr' as [_ Hr'].
    apply records_lookup in Hr, Hr'; [|done..]. congruence.
  - destruct Hrs as [Hp _]. rewrite Hp. by apply NoDup_filter, NoDup_records.
Qed.

(** A record with a bounded count is read back exactly. *)
Lemma as_read_bounded r :
  (0 ≤ retry_count r ≤ kMaxDeliveryRetryCount)%Z → as_read r = r.
Proof.
  intros ?. destruct r. unfold as_read. simpl in *.
  rewrite int32_small; [done|]. unfold kMaxDeliveryRetryCount in *. lia.
Qed.

Lemma as_read_records a (rs : list MessageRecord) :
  retries_bounded a → store_wf (a_store a) → (∀ r, r ∈ rs → r ∈ records (a_store a)) →
  as_read <$> rs = rs.
Proof.
  intros Hb Hwf Hrs. rewrite <-(list_fmap_id rs) at 2. apply list_fmap_ext.
  intros i r Hr%list_elem_of_lookup_2%Hrs%records_lookup; [|done].
  by apply as_read_bounded, (Hb (msg_id r)).
Qed.

Section refine.
Context {R : Redis} {P : Protobuf} (env : environment) {SS : StoreService env}.
Hypothesis clock_ok : ∀ n, env_clock env n < exact_score.
Hypothesis quiet : no_faults env.

Local Abbreviation triple := (ServerLogic.triple env).
Local Abbreviation call := (triple_store_call env (λ f, f = NoFault) clock_ok quiet).

Lemma deliver_triple a r :
  triple a (tryDeliverMessage r) (λ _ a', deliver_step r a a').
Proof.
  unfold tryDeliverMessage. destruct (is_terminal r) eqn:Ht.
  { by apply triple_ret, deliver_terminal. }
  apply triple_bind, triple_target. destruct (target_of (to_uid r) a) as [c|] eqn:Hc.
  - apply triple_bind, triple_push; [done|]. intros t t2.
    apply triple_bind, (call _ (CDelivered (msg_id r))); [done|].
    intros f t3 -> Ht3. apply triple_ret. exact (deliver_online r a c t t2 t3 Ht Hc Ht3).
  - apply triple_bind, (call _ (CPending (msg_id r))); [done|].
    intros f t -> _. by apply triple_ret, deliver_offline.
Qed.

Lemma retry_triple a r :
  retry_room (msg_id r) (a_store a) →
  triple a (retryDeliverMessage r) (λ _ a', retry_step r a a').
Proof.
  intros Hroom. unfold retryDeliverMessage.
  destruct (is_terminal r) eqn:Ht.
  { by apply triple_ret, retry_terminal. }
  apply triple_bind, triple_target. destruct (target_of (to_uid r) a) as [c|] eqn:Hc.
  - apply triple_bind, (call _ (CRetry (msg_id r))); [done|]. intros f t0 -> _.
    apply triple_bind, triple_push; [done|]. intros t t2.
    apply triple_bind, (call _ (CDelivered (msg_id r))); [done|].
    intros f t3 -> Ht3. apply triple_ret.
    exact (retry_online r a c t t2 t3 Ht Hc Ht3).
  - apply triple_bind, (call _ (CPending (msg_id r))); [done|].
    intros f t -> _. by apply triple_ret, retry_offline.
Qed.

Lemma overdue_triple a r :
  retry_room (msg_id r) (a_store a) →
  triple a (deliver_overdue r) (λ _ a', overdue_step r a a').
Proof.
  intros Hroom. unfold deliver_overdue, overdue_step.
  destruct (kMaxDeliveryRetryCount <=? retry_count r)%Z.
  2: { apply triple_bind. eapply triple_mono; [by apply retry_triple|].
       intros x a' Ha'. by apply triple_ret. }
  apply triple_bind, (call _ (CFailed (msg_id r))); [done|]. intros f t -> _.
  by apply triple_ret.
Qed.

Lemma answers_quiet rs L : answers env rs L → L = as_read <$> rs.
Proof. intros [_ H]. by apply H. Qed.

Lemma replay_triple a u :
  u ≠ 0 → triple a (deliverLoginMessages u) (λ _ a', login_replay u a a').
Proof.
  intros Hu.
  unfold deliverLoginMessages, deliverPendingMessages.
  apply triple_bind, triple_bind, triple_pending. intros rs L Hrs ->%answers_quiet.
  apply triple_bind.
  eapply triple_mono; [apply (triple_for_each _ deliver_step (λ _ _, True)); [|done]|].
  { intros x l a0 _. apply triple_bind. eapply triple_mono; [apply deliver_triple|].
    intros b a1 Ha1. by apply triple_ret. }
  intros _ a1 [Hfold _]. apply triple_ret.
  destruct (decide (rs = [])) as [->|Hne].
  - inversion Hfold; subst. cbn [fmap list_fmap]. rewrite bool_decide_true by done.
    unfold sendRecentMessages. apply triple_bind, triple_recent; [done|].
    intros all L Hall ->%answers_quiet. apply triple_bind, triple_target.
    destruct (target_of u a1) as [c|] eqn:Hc.
    + eapply triple_mono; [apply (triple_for_each _ (history_step c) (λ _ _, True)); [|done]|].
      { intros x l a0 _. apply triple_push; [done|]. intros t t2. split; [|done]. by exists t, t2. }
      intros _ a2 [Hh _]. exists []. split; [done|]. rewrite decide_True by done.
      exists all. split; [done|]. rewrite Hc. by rewrite (proj2 (N.eqb_neq u 0) Hu) in Hh.
    + apply triple_ret. exists []. split; [done|]. rewrite decide_True by done.
      exists all. split; [done|]. by rewrite Hc.
  - rewrite bool_decide_false by (by intros ?%fmap_nil_inv). apply triple_ret.
    exists rs. split; [done|]. by rewrite decide_False.
Qed.

Lemma login_triple a c e :
  env_type e = LOGIN_REQ →
  triple a (handleLogin c e) (λ _ a', server_step a (EnvelopeEvent c e) a').
Proof.
  intros Hty. unfold handleLogin. fold (login_valid e).
  destruct (login_valid e) eqn:Hv; cbn [negb].
  - assert (login_req_uid (login_req e) ≠ 0) as Hu.
    { unfold login_valid in Hv. by apply andb_true_iff in Hv as [_ ?%negb_true_iff%N.eqb_neq]. }
    apply triple_bind, triple_bind, triple_users_bind. intros t. cbv zeta.
    assert ((bindUser t (Some c) (login_req_uid (login_req e)) (a_users a)).2 = true) as ->
      by (unfold bindUser; by rewrite (proj2 (N.eqb_neq _ 0) Hu)).
    apply triple_ret, triple_bind, triple_now; [done|]. intros t2 _.
    apply triple_bind, triple_send. cbn [fst snd].
    eapply triple_mono; [by apply replay_triple|]. intros [] a' Ha'.
    by apply (step_login a c e t t2).
  - apply triple_bind, triple_ret, triple_bind, triple_now; [done|]. intros t _.
    apply triple_bind, triple_send. cbn [fst snd]. by apply triple_ret, step_login_refused.
Qed.

Lemma as_read_new t id from to text c :
  as_read (new_record t id from to text c) = new_record t id from to text c.
Proof. done. Qed.

Lemma chat_triple a c e :
  env_type e = CHAT_REQ → event_ok (EnvelopeEvent c e) → id_room a →
  triple a (handleChat c e) (λ _ a', server_step a (EnvelopeEvent c e) a').
Proof.
  intros Hty [Hf Ht] Hroom. unfold handleChat.
  destruct (has_chat_req e) eqn:Hq; cbn [negb].
  2: { apply triple_ack; [done|]. intros t. apply step_chat_refused; [done|].
       unfold chat_refusal. by rewrite Hq. }
  apply triple_bind, triple_uid.
  assert (∀ reason, chat_refusal c e a = Some reason →
    triple a (sendErrorAck c (env_seq e) reason)
      (λ _ a', server_step a (EnvelopeEvent c e) a')) as Hrefuse.
  { intros reason Hr. apply triple_ack; [done|]. intros t. by apply step_chat_refused. }
  destruct (getUidByConn (Some c) (a_users a) =? 0) eqn:Hu.
  { apply Hrefuse. unfold chat_refusal. by rewrite Hq, Hu. }
  destruct (chat_req_from_uid (chat_req e) =? getUidByConn (Some c) (a_users a)) eqn:Hfrom;
    cbn [negb].
  2: { apply Hrefuse. unfold chat_refusal. by rewrite Hq, Hu, Hfrom. }
  assert (chat_refusal c e a = None) as Hok by (unfold chat_refusal; by rewrite Hq, Hu, Hfrom).
  apply triple_bind.
  apply (call _ (CCreate (chat_req_from_uid (chat_req e)) (chat_req_to_uid (chat_req e))
    (chat_req_content (chat_req e)) (chat_req_client_msg_id (chat_req e)))); [done|].
  intros f t -> Hnow. cbn [call_spec answered executed fst snd]. unfold st_create.
  destruct (find_duplicate _ _ _) as [r|] eqn:Hd; cbn [create_result ok created record negb fst snd].
  - rewrite with_same_store. apply triple_ack; [done|]. intros t2.
    by apply (step_chat_duplicate a c e t2 r).
  - rewrite as_read_new. set (r := new_record _ _ _ _ _ _).
    apply triple_bind.
    eapply triple_mono; [apply deliver_triple|]. intros b a1 Ha1.
    apply triple_ack; [done|]. intros t2. by apply (step_chat a c e t t2 a1).
Qed.

Lemma ack_triple a c e :
  env_type e = ACK →
  triple a (handleAck c e) (λ _ a', server_step a (EnvelopeEvent c e) a').
Proof.
  intros Hty. unfold handleAck.
  assert (∀ (p : sys unit), (ack_valid c e a = false → p = mret tt) →
    ack_valid c e a = false → triple a p (λ _ a', server_step a (EnvelopeEvent c e) a'))
    as Hignore by (intros p Hp Hv; rewrite Hp by done; by apply triple_ret, step_ack_ignored).
  unfold ack_valid in Hignore.
  destruct (has_ack e) eqn:Ha; cbn [negb andb] in *; [|by apply Hignore].
  destruct (ack_msg_id (ack e) =? 0) eqn:Hid; cbn [negb andb] in *; [by apply Hignore|].
  apply triple_bind, triple_uid.
  destruct (getUidByConn (Some c) (a_users a) =? 0) eqn:Hu; cbn [negb andb] in *;
    [by apply Hignore|].
  apply triple_bind, (call _ (CAcked (ack_msg_id (ack e)) (getUidByConn (Some c) (a_users a))));
    [done|]. intros f t -> Ht. apply triple_ret. apply (step_ack a c e t); [done| |done].
  unfold ack_valid. by rewrite Ha, Hid, Hu.
Qed.

Lemma handle_triple a ev :
  event_ok ev → id_room a → triple a (handle ev) (λ _ a', server_step a ev a').
Proof.
  intros Hok Hroom. destruct ev as [c e|c]; [|by apply triple_users_remove, step_closed].
  assert (∀ seq, seq = env_seq e → env_type e ∉ [LOGIN_REQ; CHAT_REQ; ACK; HEARTBEAT] →
    triple a (sendErrorAck c seq "unsupported message type")
      (λ _ a', server_step a (EnvelopeEvent c e) a')) as Hunsup.
  { intros seq -> Hty. apply triple_ack; [done|]. intros t. by apply step_unsupported. }
  unfold handle. destruct (env_type e) eqn:Hty;
    try (apply Hunsup; [done|rewrite !not_elem_of_cons; split_and!; [done..|apply not_elem_of_nil]]).
  - by apply login_triple.
  - by apply chat_triple.
  - by apply ack_triple.
  - apply triple_users_heartbeat. intros t. by apply step_heartbeat.
Qed.

Lemma triple_wf {T} a (p : sys T) Q :
  (store_wf (a_store a) → triple a p Q) → triple a p Q.
Proof. intros Hp w Hw. by apply Hp; [eapply holds_wf, Hw|]. Qed.

(** A scan once it has read the clock. *)
Lemma scan_from_triple a t :
  retries_bounded a → t < exact_score →
  triple a (timeout_records ← getTimeoutDeliveredMessages t kAckTimeoutMs;
            for_each timeout_records deliver_overdue)
    (λ _ a', scan_at t a a' ∧ retries_bounded a').
Proof.
  intros Hb Ht. apply triple_wf. intros Hwf.
  apply triple_bind, triple_overdue; [done|]. intros rs L Hrs ->%answers_quiet.
  assert (∀ r, r ∈ rs → r ∈ records (a_store a)) as Hin
    by (intros r Hr; by eapply indexed_records).
  assert (as_read <$> rs = rs) as Hread by by eapply as_read_records.
  assert (scan_inv rs a) as Hinv.
  { split_and!; [done|by eapply indexed_ids|]. intros x Hx%Hin. exists x.
    split; [by apply records_lookup|done]. }
  eapply triple_mono.
  - apply (triple_for_each _ overdue_step scan_inv).
    + intros x l a0 Ha0. eapply triple_mono; [by eapply overdue_triple, scan_inv_room|].
      intros [] a1 Ha1. split; [done|]. by eapply scan_inv_step, overdue_counts.
    + by rewrite Hread.
  - intros [] a' [Hf (Hb' & _)]. split; [|done]. by exists rs.
Qed.

Lemma scan_triple a :
  retries_bounded a → triple a delivery_scan (λ _ a', scan_step a a' ∧ retries_bounded a').
Proof.
  intros Hb. unfold delivery_scan. apply triple_bind, triple_now; [done|]. intros t Ht.
  eapply triple_mono; [by apply scan_from_triple|]. intros [] a' [(rs & Hrs & Hf) Hb'].
  split; [|done]. by exists t, rs.
Qed.

(** A scan happens at the time it reads first. *)
Lemma scan_run a w :
  retries_bounded a → implements env w a →
  ∃ a', implements env (run (exec env) delivery_scan w).1 a' ∧
    scan_at (env_clock env (w_tick w)) a a' ∧ retries_bounded a'.
Proof.
  intros Hb Hw. apply (scan_from_triple a _ Hb (clock_ok (w_tick w)) (tick w)).
  by apply implements_tick.
Qed.

End refine.
