(* ===== verification/ServerRun.v ===== *)
(** * Runs of the server

    Events and delivery scans processed one after the other: the server
    implements the abstract one for the whole run. *)

From S2P Require Import Prelude Decimal Message Codec UserState Prog Redis Scripts Sys.
From S2P Require Import RedisInstance WireInstance.
From S2P Require Import MessageStore StoreSpec StoreRefine StoreReads StoreService Dispatcher.
From S2P Require Import ServerLogic ServerSpec DispatcherRefine.
Local Open Scope N_scope.

(** What a worker thread, or the delivery thread, is given to do. *)
Inductive job := Event (ev : ServerEvent) | Scan.

Definition job_ok (j : job) : Prop := match j with Event ev => event_ok ev | Scan => True end.

Definition job_step (j : job) (a a' : server) : Prop :=
  match j with Event ev => server_step a ev a' | Scan => scan_step a a' end.

(** ** Steps that create no message and count no retry *)

Definition calm (a a' : server) : Prop :=
  st_next (a_store a') = st_next (a_store a) ∧
  ∀ id, retry_count <$> (st_msgs (a_store a') !! id) = retry_count <$> (st_msgs (a_store a) !! id).

#[export] Instance calm_preorder : PreOrder calm.
Proof.
  split; [by split|]. intros a b c [Hn1 Hr1] [Hn2 Hr2]. split; [congruence|].
  intros id. by rewrite Hr2.
Qed.

Lemma fold_steps_rel {X} (S : X → server → server → Prop) (Q : relation server) l a a' :
  PreOrder Q → (∀ x a a', S x a a' → Q a a') → fold_steps S l a a' → Q a a'.
Proof. intros HQ HS. induction 1; [done|]. etrans; eauto. Qed.

(** The same with the element known to be in the list. *)
Lemma fold_steps_in {X} (S : X → server → server → Prop) (Q : relation server) l a a' :
  PreOrder Q → (∀ x a a', x ∈ l → S x a a' → Q a a') → fold_steps S l a a' → Q a a'.
Proof.
  intros HQ HS Hf. induction Hf as [|x l a a1 a2 Hs Hf IH]; [done|].
  etrans; [by eapply HS; [left|]|]. apply IH. intros y b b' Hy. apply HS. by right.
Qed.

Lemma st_update_next f id A : st_next (st_update f id A).1 = st_next A.
Proof. unfold st_update. by destruct (_ !! _). Qed.

Lemma st_update_calm f id a a' :
  (∀ r, retry_count (f r) = retry_count r) →
  a_store a' = (st_update f id (a_store a)).1 → calm a a'.
Proof.
  intros Hf Hs. unfold calm. rewrite Hs. split; [apply st_update_next|]. intros i.
  rewrite st_update_alter. destruct (decide (i = id)) as [->|Hne].
  - rewrite lookup_alter_eq. destruct (_ !! _); simpl; by rewrite ?Hf.
  - by rewrite lookup_alter_ne.
Qed.

Lemma same_store_calm a a' : a_store a' = a_store a → calm a a'.
Proof. unfold calm. by intros ->. Qed.

Lemma deliver_calm r a a' : deliver_step r a a' → calm a a'.
Proof. intros []; [done|eapply st_update_calm; [|reflexivity]; done..]. Qed.

Lemma replay_calm u a a' : login_replay u a a' → calm a a'.
Proof.
  intros (rs & _ & Hr). case_decide.
  - destruct Hr as (all & _ & Hr). destruct (target_of u a) as [c|]; [|by subst].
    eapply fold_steps_rel; [apply _| |exact Hr]. intros x a0 a1 (t & t2 & ->).
    by apply same_store_calm.
  - eapply fold_steps_rel; [apply _|apply deliver_calm|exact Hr].
Qed.

Lemma calm_bounded a a' : calm a a' → retries_bounded a → retries_bounded a'.
Proof.
  intros [_ Hc] Hb id r' Hr'. specialize (Hc id). rewrite Hr' in Hc. simpl in Hc.
  destruct (st_msgs (a_store a) !! id) as [r|] eqn:Hr; [|done]. injection Hc as ->. eauto.
Qed.

Lemma mark_acked_calm t id u a :
  calm a (with_store (st_mark_acked t id u (a_store a)).1 a).
Proof.
  unfold st_mark_acked. destruct (st_msgs (a_store a) !! id) as [r|]; [|by apply same_store_calm].
  destruct (to_uid r =? u); [|by apply same_store_calm].
  eapply st_update_calm; [|reflexivity]; done.
Qed.

Lemma server_step_bounded a ev a' :
  server_step a ev a' →
  (retries_bounded a → retries_bounded a') ∧ st_next (a_store a') ≤ st_next (a_store a) + 1.
Proof.
  assert (∀ a', calm a a' →
    (retries_bounded a → retries_bounded a') ∧ st_next (a_store a') ≤ st_next (a_store a) + 1)
    as Hcalm by (intros b Hb; split; [by apply calm_bounded|destruct Hb; lia]).
  intros Hs. destruct Hs; try (by apply Hcalm, same_store_calm).
  - apply Hcalm. by etrans; [|by eapply replay_calm].
  - lazymatch goal with H : deliver_step _ _ _ |- _ => apply deliver_calm in H; rename H into Hd end.
    split.
    + intros Hb. apply (calm_bounded a1); [by apply same_store_calm|].
      eapply calm_bounded; [exact Hd|]. intros id r0. cbn [a_store with_store st_msgs].
      destruct (decide (id = msg_id r)) as [->|Hne].
      * rewrite lookup_insert_eq. intros [= <-]. done.
      * rewrite lookup_insert_ne by done. apply Hb.
    + destruct Hd as [Hn _]. cbn in Hn |- *. lia.
  - apply Hcalm, mark_acked_calm.
Qed.

Lemma scan_step_next a a' : scan_step a a' → st_next (a_store a') = st_next (a_store a).
Proof.
  intros (t & rs & _ & _ & Hf).
  apply (fold_steps_rel overdue_step (λ a a', st_next (a_store a') = st_next (a_store a)))
    with (3 := Hf).
  - split; [done|]. intros x y z Hxy Hyz. by rewrite Hyz.
  - intros r b b'. unfold overdue_step. case_match.
    + intros ->. apply st_update_next.
    + intros []; [done|apply st_update_next|]. cbn [a_store with_store].
      etrans; apply st_update_next.
Qed.

Section run.
Context {R : Redis} {P : Protobuf} (env : environment) {SS : StoreService env}.
Hypothesis clock_ok : ∀ n, env_clock env n < exact_score.
Hypothesis quiet : no_faults env.

Definition perform (j : job) : sys unit :=
  match j with Event ev => handle ev | Scan => delivery_scan end.

(** Jobs in range, room for the ids they may allocate, retries in bounds. *)
Definition run_inv (l : list job) (a : server) : Prop :=
  Forall job_ok l ∧ st_next (a_store a) + N.of_nat (length l) < lua_exact ∧ retries_bounded a.

Lemma perform_triple j l a :
  run_inv (j :: l) a →
  triple env a (perform j) (λ _ a', job_step j a a' ∧ run_inv l a').
Proof.
  intros (Hok & Hn & Hb). inversion_clear Hok. cbn [length] in Hn. destruct j as [ev|].
  - eapply triple_mono; [apply handle_triple; [done..|unfold id_room; lia]|].
    intros [] a' Hs. split; [done|]. destruct (server_step_bounded _ _ _ Hs) as [Hb' Hn'].
    split_and!; [done|lia|auto].
  - eapply triple_mono; [by apply scan_triple|]. intros [] a' [Hs Hb'].
    pose proof (scan_step_next _ _ Hs). split; [done|]. split_and!; [done|lia|done].
Qed.

(** C2. The dispatcher implements the abstract server.  Started on a server
    that implements the abstract one, any sequence of client envelopes,
    disconnections and delivery scans, processed without faults, leaves the
    concrete server (Redis contents, on-line table, bytes sent) implementing
    a state the abstract server reaches by performing the same jobs in order:
    every branch of every handler does exactly what [server_step] says, and
    the retry counts stay within the limit of three. *)
Theorem server_runs jobs a :
  run_inv jobs a →
  triple env a (for_each jobs perform)
    (λ _ a', fold_steps job_step jobs a a' ∧ retries_bounded a').
Proof.
  intros Hinv. eapply triple_mono.
  - by apply (triple_for_each _ job_step run_inv); [intros; apply perform_triple|].
  - intros [] a' [Hf (_ & _ & Hb)]. done.
Qed.
End run.
