(* ===== verification/ServerDelivery.v ===== *)
(** * Delivery by the server

    Handling a login on a live connection writes the response and a push for
    every pending message, in order; a scan of the delivery loop settles every overdue delivery: failed after three retries, otherwise
    pushed again or back to pending. *)

From S2P Require Import Prelude Decimal Message Codec UserState Prog Redis Scripts Sys.
From S2P Require Import MessageStore StoreSpec StoreRefine StoreReads StoreService Dispatcher.
From S2P Require Import ServerLogic ServerSpec DispatcherRefine ServerRun ServerSafety.
Local Open Scope N_scope.

(** The pushes of a list of records to one connection, in order. *)
Definition pushed (c : Conn) (history : bool) (rs : list MessageRecord)
    (out : list (Conn * Envelope)) : Prop :=
  Forall2 (λ r x, ∃ t t2, x = (c, push_of t t2 r history)) rs out.

Lemma pushed_ids c history rs out :
  pushed c history rs out → (λ x, push_msg_id (chat_push x.2)) <$> out = msg_id <$> rs.
Proof. induction 1 as [|r x rs out (t & t2 & ->) _ IH]; [done|]. cbn. by f_equal. Qed.

(** Delivering a list of records of one reachable user. *)
Lemma deliver_all_online u c rs a a' :
  fold_steps deliver_step rs a a' → target_of u a = Some c →
  Forall (λ r, to_uid r = u ∧ is_terminal r = false) rs →
  ∃ out, a_sent a' = a_sent a ++ out ∧ pushed c false rs out ∧
    ∀ id r', msgs a' !! id = Some r' →
      (id ∈ (msg_id <$> rs) ∧ status r' = Delivered) ∨
      (¬ id ∈ (msg_id <$> rs) ∧ msgs a !! id = Some r').
Proof.
  intros Hf. induction Hf as [a|r rs a a1 a2 Hs Hf IH]; intros Hc Hrs.
  { exists []. rewrite app_nil_r. split; [done|]. split; [constructor|].
    intros id r' Hr. right. split; [apply not_elem_of_nil|done]. }
  inversion_clear Hrs as [|? ? [Hu Ht] Hrs'].
  destruct Hs as [|Ht' Hc'|c' t t2 t3 Ht' Hc' Ht3]; [congruence|congruence|].
  assert (c' = c) as -> by congruence.
  destruct (IH Hc Hrs') as (out & Hout & Hp & Hm).
  exists ((c, push_of t t2 r false) :: out). rewrite Hout. cbn [a_sent with_store with_sent].
  rewrite <-app_assoc. split; [done|]. split; [constructor; eauto|].
  intros id r' Hr. cbn [fmap list_fmap]. destruct (Hm id r' Hr) as [[Hin Hd]|[Hnin Hr1]].
  - left. split; [by right|done].
  - cbn [a_store with_store with_sent] in Hr1. unfold st_mark_delivered in Hr1.
    rewrite st_update_alter in Hr1. destruct (decide (id = msg_id r)) as [->|Hne].
    + left. split; [left|]. rewrite lookup_alter_eq in Hr1.
      destruct (msgs a !! msg_id r); [|done]. by injection Hr1 as <-.
    + right. rewrite lookup_alter_ne in Hr1 by done. rewrite not_elem_of_cons. done.
Qed.

Lemma pending_not_terminal u r : is_pending_for u r = true → to_uid r = u ∧ is_terminal r = false.
Proof.
  unfold is_pending_for, is_terminal.
  intros [Hu%N.eqb_eq Hs%bool_decide_eq_true]%andb_true_iff. by rewrite Hs.
Qed.

Lemma getConnByUid_bind t c u s :
  u ≠ 0 → getConnByUid u (bindUser t (Some c) u s).1 = Some c.
Proof.
  intros Hu. unfold bindUser, getConnByUid. rewrite (proj2 (N.eqb_neq u 0) Hu). simpl.
  by rewrite lookup_insert_eq.
Qed.

(** The history pushed to one connection. *)
Lemma history_all c rs a a' :
  fold_steps (history_step c) rs a a' →
  a_store a' = a_store a ∧ ∃ out, a_sent a' = a_sent a ++ out ∧ pushed c true rs out.
Proof.
  induction 1 as [a|r rs a a1 a2 (t & t2 & ->) _ (Hs & out & Hout & Hp)].
  - split; [done|]. exists []. rewrite app_nil_r. by split; [|constructor].
  - split; [done|]. exists ((c, push_of t t2 r true) :: out). rewrite Hout. cbn [a_sent with_sent].
    rewrite <-app_assoc. split; [done|]. constructor; [by exists t, t2|done].
Qed.

(** What is pushed of a record does not show its retry count. *)
Lemma pushed_as_read c history rs out : pushed c history (as_read <$> rs) out → pushed c history rs out.
Proof. unfold pushed. rewrite Forall2_fmap_l. done. Qed.

(** What a user who logs in on a live connection is sent after the response. *)
Definition replayed (u : N) (c : Conn) (A : store) (rs : list MessageRecord)
    (out : list (Conn * Envelope)) : Prop :=
  if decide (rs = []) then
    ∃ all, indexed (involves u) created_at_ms A all ∧
      pushed c true (drop (length all - N.to_nat kLoginRecentMessageLimit) all) out
  else pushed c false rs out.

Lemma replay_delivers u c a a' :
  store_wf (a_store a) → target_of u a = Some c → login_replay u a a' →
  ∃ rs out, indexed (is_pending_for u) created_at_ms (a_store a) rs ∧
    a_sent a' = a_sent a ++ out ∧ replayed u c (a_store a) rs out ∧
    (∀ r, r ∈ rs → status <$> (msgs a' !! msg_id r) = Some Delivered) ∧
    ∀ id r, msgs a' !! id = Some r → is_pending_for u r = false.
Proof.
  intros Hwf Hc Hr. pose proof (routine_kept _ _ (replay_routine _ _ _ Hr)) as Hkept.
  destruct Hr as (rs & Hrs & Hr). exists rs.
  assert (∀ id r, msgs a !! id = Some r → is_pending_for u r = true → id ∈ (msg_id <$> rs)) as Hall.
  { intros id r Hid Hp. destruct (store_wf_ids _ Hwf id r Hid) as [<- _].
    apply list_elem_of_fmap_2. destruct Hrs as [Hperm _]. rewrite Hperm.
    apply list_elem_of_filter. split; [by apply Is_true_true|]. apply elem_of_records.
    by exists (msg_id r). }
  unfold replayed. case_decide as Hnil.
  - destruct Hr as (all & Hindex & Hr). rewrite Hc in Hr.
    apply history_all in Hr as (Hsame & out & Hout & Hp). exists out.
    split; [done|]. split; [done|]. split; [exists all; split; [done|]|].
    { by apply pushed_as_read. }
    split; [subst; by intros r ?%not_elem_of_nil|]. intros id r Hid.
    destruct (is_pending_for u r) eqn:Hk; [|done]. rewrite Hsame in Hid.
    specialize (Hall _ _ Hid Hk). rewrite Hnil in Hall. by apply not_elem_of_nil in Hall.
  - destruct (deliver_all_online u c _ _ _ Hr Hc) as (out & Hout & Hp & Hm).
    { apply Forall_fmap, Forall_forall. intros r Hin. simpl.
      apply (indexed_records _ _ _ _ Hrs) in Hin as [Hk _].
      apply pending_not_terminal in Hk. exact Hk. }
    rewrite <-list_fmap_compose in Hm. change (msg_id ∘ as_read) with msg_id in Hm.
    exists out. split; [done|]. split; [done|]. split; [by apply pushed_as_read|]. split.
    + intros r Hin. pose proof Hin as [_ Hrec]%(indexed_records _ _ _ _ Hrs).
      apply records_lookup in Hrec; [|done].
      destruct (kept_msgs _ _ Hkept _ _ Hrec) as (r' & Hr' & _). rewrite Hr'. cbn.
      destruct (Hm _ _ Hr') as [[_ ->]|[Hn _]]; [done|]. destruct Hn. by apply list_elem_of_fmap_2.
    + intros id r Hid. destruct (Hm _ _ Hid) as [[_ Hd]|[Hnin Hid0]].
      * unfold is_pending_for. rewrite Hd. by rewrite andb_false_r.
      * destruct (is_pending_for u r) eqn:Hk; [|done]. destruct Hnin. exact (Hall _ _ Hid0 Hk).
Qed.

Section delivery.
Context {R : Redis} {P : Protobuf} (env : environment) {SS : StoreService env}.

(** C17. A login delivers what is pending.  When the dispatcher handles a login
    on a live connection, the bytes it writes are, all on that connection,
    LOGIN_RESP and then a push for every message waiting for the user, oldest
    first, each once and none as history; if none is waiting, the last hundred
    messages of the user as history.  Afterwards those that waited are
    [Delivered] and no message is pending for the user. *)
Theorem login_delivers_pending a c e w :
  (∀ n, env_clock env n < exact_score) → no_faults env → implements env w a →
  env_type e = LOGIN_REQ → login_valid e = true → c ∈ a_live a →
  let u := login_req_uid (login_req e) in
  let w' := (run (exec env) (handle (EnvelopeEvent c e)) w).1 in
  ∃ a' t rs out, implements env w' a' ∧ getConnByUid u (w_users w') = Some c ∧
    indexed (is_pending_for u) created_at_ms (a_store a) rs ∧
    w_out w' = w_out w ++
      (render <$> (c, EnvelopeFactory.CreateLoginResponse t (env_seq e) true "") :: out) ∧
    replayed u c (a_store a) rs out ∧
    (∀ r, r ∈ rs → status <$> (msgs a' !! msg_id r) = Some Delivered) ∧
    ∀ id r, msgs a' !! id = Some r → is_pending_for u r = false.
Proof.
  intros Hclock Hquiet Hw Hty Hv Hlive u w'.
  assert (store_wf (a_store a)) as Hwf by (eapply holds_wf, imp_store, Hw).
  assert (∃ a', implements env w' a' ∧ server_step a (EnvelopeEvent c e) a') as (a' & Hw' & Hs).
  { unfold w', handle. rewrite Hty. by apply (login_triple env Hclock Hquiet a c e). }
  inversion Hs as [| ? ? t0 t ? _ _ u' Hr | | | | | | | ? ? ? Hun |]; subst; try congruence.
  2: { rewrite Hty in Hun. set_solver. }
  set (b := with_sent c _ _) in Hr.
  assert (u ≠ 0) as Hu.
  { unfold login_valid in Hv. by apply andb_true_iff in Hv as [_ ?%negb_true_iff%N.eqb_neq]. }
  assert (getConnByUid u (a_users b) = Some c) as Hconn
    by (subst b; cbn [a_users with_sent with_users]; by apply getConnByUid_bind).
  assert (target_of u b = Some c) as Hc.
  { unfold target_of. rewrite Hconn. simpl. by rewrite decide_True. }
  pose proof (routine_users _ _ (replay_routine _ _ _ Hr)) as Husers.
  destruct (replay_delivers u c b a') as (rs & out & Hrs & Hout & Hrep & Hdel & Hnone);
    [exact Hwf|done|done|].
  exists a', t, rs, out. split; [done|]. split; [by rewrite (imp_users _ _ _ Hw'), Husers|].
  split; [done|]. split; [|done].
  rewrite (imp_sent _ _ _ Hw'), (imp_sent _ _ _ Hw), Hout. subst b.
  cbn [a_sent with_sent with_users]. by rewrite <-app_assoc, fmap_app.
Qed.
End delivery.

(** ** Scans *)

(** What becomes of an overdue delivery. *)
Definition settled (a : server) (r r' : MessageRecord) : Prop :=
  if (kMaxDeliveryRetryCount <=? retry_count r)%Z then r' = set_status Failed r
  else match target_of (to_uid r) a with
       | None => r' = set_status Pending r
       | Some _ => ∃ t, r' = set_delivered t (inc_retry r)
       end.

(** Where an overdue delivery is pushed again. *)
Definition again (a : server) (r : MessageRecord) : option (Conn * MessageRecord) :=
  if (kMaxDeliveryRetryCount <=? retry_count r)%Z then None
  else (λ c, (c, r)) <$> target_of (to_uid r) a.

Definition pushed_again (a : server) (rs : list MessageRecord) (out : list (Conn * Envelope)) : Prop :=
  Forall2 (λ x y, ∃ t t2, y = (x.1, push_of t t2 x.2 false)) (omap (again a) rs) out.

Lemma overdue_settles r a a1 :
  overdue_step r a a1 → msgs a !! msg_id r = Some r → is_terminal r = false →
  (∃ r', msgs a1 !! msg_id r = Some r' ∧ settled a r r') ∧
  (∃ out, a_sent a1 = a_sent a ++ out ∧ pushed_again a [r] out) ∧
  ∀ id, id ≠ msg_id r → msgs a1 !! id = msgs a !! id.
Proof.
  unfold overdue_step, settled, pushed_again. cbn [omap list_omap]. unfold again.
  intros Hs Hr Ht. destruct (kMaxDeliveryRetryCount <=? retry_count r)%Z.
  - subst a1. cbn [a_store with_store a_sent]. unfold st_mark_failed. rewrite st_update_alter.
    split; [|split; [|intros; by rewrite lookup_alter_ne]].
    + rewrite lookup_alter_eq, Hr. eexists; split; reflexivity.
    + exists []. by rewrite app_nil_r.
  - destruct Hs as [|_ Hc|c t t2 t3 _ Hc Ht3]; [congruence| |]; rewrite Hc;
      cbn [a_store with_store a_sent with_sent];
      unfold st_mark_pending, st_mark_delivered, st_increment_retry; rewrite !st_update_alter;
      (split; [|split; [|intros; by rewrite !lookup_alter_ne]]); rewrite ?lookup_alter_eq, ?Hr.
    + eexists; split; reflexivity.
    + exists []. by rewrite app_nil_r.
    + eexists. split; [reflexivity|]. by exists t3.
    + eexists. split; [reflexivity|]. constructor; [by exists t, t2|done].
Qed.

Lemma pushed_again_target a b rs out :
  a_users b = a_users a → a_live b = a_live a → pushed_again b rs out → pushed_again a rs out.
Proof.
  intros Hu Hl. unfold pushed_again. intros H. replace (omap (again a) rs) with (omap (again b) rs); [done|].
  apply list_omap_ext, Forall_Forall2_diag, Forall_true. intros r. unfold again, target_of.
  by rewrite Hu, Hl.
Qed.

Lemma pushed_again_app a l1 l2 out1 out2 :
  pushed_again a l1 out1 → pushed_again a l2 out2 → pushed_again a (l1 ++ l2) (out1 ++ out2).
Proof. unfold pushed_again. rewrite omap_app. apply Forall2_app. Qed.

Lemma settle_all rs a a' :
  fold_steps overdue_step rs a a' → NoDup (msg_id <$> rs) →
  (∀ r, r ∈ rs → msgs a !! msg_id r = Some r ∧ is_terminal r = false) →
  (∀ r, r ∈ rs → ∃ r', msgs a' !! msg_id r = Some r' ∧ settled a r r') ∧
  (∃ out, a_sent a' = a_sent a ++ out ∧ pushed_again a rs out) ∧
  ∀ id, ¬ id ∈ (msg_id <$> rs) → msgs a' !! id = msgs a !! id.
Proof.
  induction 1 as [a|r rs a a1 a2 Hs Hf IH]; intros Hnd Hrs.
  { split; [by intros r ?%not_elem_of_nil|]. split; [|done]. exists [].
    rewrite app_nil_r. by split; [|constructor]. }
  cbn [fmap list_fmap] in *. inversion_clear Hnd as [|? ? Hx Hnd'].
  destruct (Hrs r ltac:(by left)) as [Hr Ht].
  destruct (overdue_settles _ _ _ Hs Hr Ht) as ((r1 & Hr1 & Hset) & (out1 & Hout1 & Hp1) & Hother).
  destruct (overdue_routine _ _ _ Hs) as [_ _ _ Hu Hl].
  destruct IH as (IHin & (out2 & Hout2 & Hp2) & IHout); [done| |].
  { intros x Hxin. rewrite Hother; [apply Hrs; by right|].
    intros Heq. apply Hx. rewrite <-Heq. by apply list_elem_of_fmap_2. }
  split; [|split].
  - intros x [->|Hxin]%elem_of_cons; [exists r1; by rewrite IHout|].
    destruct (IHin x Hxin) as (x' & Hx' & Hsx). exists x'. split; [done|].
    unfold settled, target_of in *. by rewrite Hu, Hl in Hsx.
  - exists (out1 ++ out2). rewrite Hout2, Hout1, app_assoc. split; [done|].
    apply (pushed_again_app a [r]); [done|]. by eapply pushed_again_target.
  - intros id Hnin. rewrite not_elem_of_cons in Hnin. destruct Hnin as [Hne Hnin].
    by rewrite IHout, Hother.
Qed.

Lemma scan_at_settles t a a' :
  store_wf (a_store a) → retries_bounded a → scan_at t a a' →
  ∃ rs out, indexed (ack_overdue t kAckTimeoutMs) delivered_at_ms (a_store a) rs ∧
    a_sent a' = a_sent a ++ out ∧ pushed_again a rs out ∧
    (∀ r, r ∈ rs → ∃ r', msgs a' !! msg_id r = Some r' ∧ settled a r r') ∧
    ∀ id, ¬ id ∈ (msg_id <$> rs) → msgs a' !! id = msgs a !! id.
Proof.
  intros Hwf Hb (rs & Hrs & Hf).
  assert (∀ r, r ∈ rs → r ∈ records (a_store a)) as Hin
    by (intros r Hr; by eapply indexed_records).
  rewrite (as_read_records a rs Hb Hwf Hin) in Hf.
  destruct (settle_all rs a a' Hf) as (H1 & (out & Hout & Hp) & H3); [by eapply indexed_ids| |].
  - intros r Hr. split; [by apply records_lookup, Hin|].
    apply (indexed_records _ _ _ _ Hrs) in Hr as [Hk _].
    unfold ack_overdue, is_delivered in Hk. rewrite !andb_true_iff, bool_decide_eq_true in Hk.
    unfold is_terminal. by destruct Hk as [[-> _] _].
  - by exists rs, out.
Qed.

Section scan.
Context {R : Redis} {P : Protobuf} (env : environment) {SS : StoreService env}.

(** C18. A scan settles every overdue delivery and touches nothing else.  With
    the time of the scan read first, each [Delivered] message not acknowledged
    for ten seconds is marked [Failed] if it was already retried three times;
    otherwise it is pushed again to its receiver, with its retry counted and the
    delivery time renewed, or, if the receiver is not reachable, goes back to
    [Pending].  The bytes written are those pushes, one each, in the order in
    which the messages were delivered; all other messages are unchanged. *)
Theorem scan_settles a w :
  (∀ n, env_clock env n < exact_score) → no_faults env → implements env w a → retries_bounded a →
  let w' := (run (exec env) delivery_scan w).1 in
  ∃ a' rs out, implements env w' a' ∧
    indexed (ack_overdue (env_clock env (w_tick w)) kAckTimeoutMs) delivered_at_ms (a_store a) rs ∧
    w_out w' = w_out w ++ (render <$> out) ∧ pushed_again a rs out ∧
    (∀ r, r ∈ rs → ∃ r', msgs a' !! msg_id r = Some r' ∧ settled a r r') ∧
    ∀ id, ¬ id ∈ (msg_id <$> rs) → msgs a' !! id = msgs a !! id.
Proof.
  intros Hclock Hquiet Hw Hb w'.
  assert (store_wf (a_store a)) as Hwf by (eapply holds_wf, imp_store, Hw).
  destruct (scan_run env Hclock Hquiet a w Hb Hw) as (a' & Hw' & Hs & _).
  destruct (scan_at_settles _ _ _ Hwf Hb Hs)
    as (rs & out & Hrs & Hout & Hp & Hset & Hother).
  exists a', rs, out. split; [done|]. split; [done|]. split; [|done].
  unfold w'. by rewrite (imp_sent _ _ _ Hw'), (imp_sent _ _ _ Hw), Hout, fmap_app.
Qed.
End scan.
