(* ===== verification/Interleave.v ===== *)
(** * All interleavings of the server's threads

    The worker threads and the delivery thread interleave at their requests to
    Redis, their clock readings and their critical sections, and any request
    or reply may be lost.  Whatever happens, the Redis contents remain those
    of an abstract store that evolved by abstract operations, and the on-line
    table remains consistent. *)

From S2P Require Import Prelude Decimal Message Codec UserState Prog Redis RedisInstance.
From S2P Require Import Scripts Sys MessageStore StoreSpec StoreRefine StoreReads Dispatcher.
From S2P Require Import DispatcherRefine.
Local Open Scope N_scope.

(** One abstract operation of the store. *)
Definition store_step (A A' : store) : Prop :=
  ∃ T (c : store_call T) now, now < exact_score ∧ call_args_ok c ∧ A' = (call_spec c now A).1.

(** The requests the sources send. *)
Definition query_argv (argv : list string) : Prop :=
  (∃ id, argv = "HMGET" :: MakeMessageKey id :: record_fields) ∨
  (∃ u, argv = ["ZRANGE"; MakePendingKey u; "0"; "-1"]) ∨
  (∃ u stop, stop < 9223372036854775808 ∧
     argv = ["ZREVRANGE"; MakeRecentKey u; "0"; to_string stop]) ∨
  (∃ hi, hi < exact_score ∧
     argv = ["ZRANGEBYSCORE"; kRedisDeliveredTimeoutKey; "0"; to_string hi]).

Definition op_ok (X : Type) (e : sysE X) : Prop :=
  match e with
  | RedisCommand argv => query_argv argv
  | RedisEval s k a => ∃ T (c : store_call T) now,
      now < exact_score ∧ call_args_ok c ∧ RedisEval s k a = call_request now c
  | _ => True
  end.

(** Clock readings are in range. *)
Definition answer_ok (X : Type) (e : sysE X) : X → Prop :=
  match e in sysE X return X → Prop with
  | NowMs => λ t, t < exact_score
  | _ => λ _, True
  end.

Local Abbreviation sound := (all_ops op_ok answer_ok).

(** ** The programs of the server issue only these requests *)

Lemma sound_bind {A B} (p : sys A) (f : A → sys B) :
  sound p → (∀ x, sound (f x)) → sound (p ≫= f).
Proof. apply all_ops_bind. Qed.

Lemma sound_ret {A} (x : A) : sound (mret x : sys A).
Proof. done. Qed.

Lemma sound_op {X} (e : sysE X) : op_ok X e → sound (trigger e).
Proof. done. Qed.

Lemma sound_request {T A} (c : store_call T) now (k : option reply → sys A) :
  now < exact_score → call_args_ok c → (∀ x, sound (k x)) →
  sound (x ← trigger (call_request now c); k x).
Proof.
  intros Hnow Hc Hk. apply sound_bind; [|done]. apply sound_op.
  destruct c; do 3 eexists; (split; [exact Hnow|split; [exact Hc|reflexivity]]).
Qed.

Lemma sound_call {T} (c : store_call T) : call_args_ok c → sound (call_impl c).
Proof.
  intros Hc. destruct c; cbn [call_impl].
  - split; [done|]. intros now Hnow. apply (sound_request (CCreate from to text c)); [done..|].
    by intros [[]|].
  - split; [done|]. intros now Hnow. by apply (sound_request (CDelivered id)).
  - split; [done|]. intros now Hnow. by apply (sound_request (CPending id)).
  - split; [done|]. intros now Hnow. by apply (sound_request (CAcked id uid)).
  - split; [done|]. intros now Hnow. by apply (sound_request (CFailed id)).
  - by apply (sound_request (CRetry id) 0).
Qed.

Lemma sound_fetch id : sound (FetchRecord id).
Proof.
  unfold FetchRecord. destruct (id =? 0); [done|].
  apply sound_bind; [apply sound_op; left; by exists id|].
  intros [[]|]; try done. by case_decide.
Qed.

Lemma sound_fetch_entries keep reply : sound (fetch_entries keep reply).
Proof.
  destruct reply as [[]|]; try done.
  apply all_ops_collect. intros x. unfold fetch_entry. destruct (ParseUint64 _); [|done].
  apply sound_bind; [apply sound_fetch|]. by intros [].
Qed.

Lemma sound_query argv keep :
  query_argv argv → sound (reply ← trigger (RedisCommand argv); fetch_entries keep reply).
Proof.
  intros Hq. apply sound_bind; [by apply sound_op|]. intros reply. apply sound_fetch_entries.
Qed.

Lemma sound_pending u : sound (getPendingMessages u).
Proof. apply sound_query. right; left. by exists u. Qed.

Lemma sound_recent u limit : limit < 9223372036854775808 → sound (getRecentMessages u limit).
Proof.
  intros Hl. unfold getRecentMessages. destruct (_ || _); [done|].
  apply sound_bind.
  - apply sound_op. right; right; left. exists u, (limit - 1). split; [lia|done].
  - intros reply. apply sound_bind; [apply sound_fetch_entries|done].
Qed.

Lemma sound_overdue now timeout :
  now < exact_score → sound (getTimeoutDeliveredMessages now timeout).
Proof.
  intros Hnow. apply sound_query. right; right; right. eexists. split; [|done].
  destruct (N.leb_spec timeout now); [|unfold exact_score; lia].
  rewrite usub64_le by (unfold two64, exact_score in *; lia). lia.
Qed.

Section handlers.
Context {P : Protobuf}.

Lemma sound_send c e : sound (sendEnvelope c e).
Proof. unfold sendEnvelope. by case_decide. Qed.

Lemma sound_ack c seq id ok reason : sound (sendAck c seq id ok reason).
Proof. apply sound_bind; [done|]. intros t. apply sound_send. Qed.

Lemma sound_push c r history : sound (sendPush c r history).
Proof.
  apply sound_bind; [done|]. intros t. apply sound_bind; [by case_match|].
  intros t2. apply sound_send.
Qed.

Lemma sound_target u : sound (online_target u).
Proof.
  apply sound_bind; [done|]. intros [c|]; [|done]. by apply sound_bind.
Qed.

Ltac sound_deliver :=
  case_match; [done|]; apply sound_bind; [apply sound_target|]; intros [c|];
  repeat lazymatch goal with
  | |- sound (markPending ?id ≫= _) => apply sound_bind; [by apply (sound_call (CPending id))|intros ?]
  | |- sound (markDelivered ?id ≫= _) => apply sound_bind; [by apply (sound_call (CDelivered id))|intros ?]
  | |- sound (incrementRetryCount ?id ≫= _) => apply sound_bind; [by apply (sound_call (CRetry id))|intros ?]
  | |- sound (sendPush _ _ _ ≫= _) => apply sound_bind; [apply sound_push|intros ?]
  end; done.

Lemma sound_try_deliver r : sound (tryDeliverMessage r).
Proof. unfold tryDeliverMessage. sound_deliver. Qed.

Lemma sound_retry_deliver r : sound (retryDeliverMessage r).
Proof. unfold retryDeliverMessage. sound_deliver. Qed.

Lemma sound_login_messages u : sound (deliverLoginMessages u).
Proof.
  apply sound_bind.
  - apply sound_bind; [apply sound_pending|]. intros L. apply sound_bind; [|done].
    apply all_ops_for_each. intros r. apply sound_bind; [apply sound_try_deliver|done].
  - intros []; [done|]. apply sound_bind; [by apply sound_recent|]. intros L.
    apply sound_bind; [apply sound_target|]. intros [c|]; [|done].
    apply all_ops_for_each. intros r. apply sound_push.
Qed.

Lemma sound_handle ev : event_ok ev → sound (handle ev).
Proof.
  intros Hok. destruct ev as [c e|c]; [|done]. unfold handle.
  destruct (env_type e); try apply sound_ack.
  - unfold handleLogin. apply sound_bind.
    { case_match; [done|]. by apply sound_bind. }
    intros x. apply sound_bind; [done|]. intros t. apply sound_bind; [apply sound_send|].
    intros _. case_match; [apply sound_login_messages|done].
  - unfold handleChat. case_match; [apply sound_ack|]. apply sound_bind; [done|]. intros u.
    do 2 (case_match; [apply sound_ack|]).
    apply sound_bind; [by apply (sound_call (CCreate _ _ _ _))|]. intros res.
    do 2 (case_match; [apply sound_ack|]).
    apply sound_bind; [apply sound_try_deliver|]. intros _. apply sound_ack.
  - unfold handleAck. do 2 (case_match; [done|]). apply sound_bind; [done|]. intros u.
    case_match; [done|]. apply sound_bind; [by apply (sound_call (CAcked _ _))|done].
  - done.
Qed.

Lemma sound_scan : sound delivery_scan.
Proof.
  split; [done|]. intros now Hnow.
  apply (sound_bind (getTimeoutDeliveredMessages now kAckTimeoutMs)
    (λ rs, for_each rs deliver_overdue)); [by apply sound_overdue|].
  intros rs. apply all_ops_for_each. intros r. unfold deliver_overdue. case_match.
  - apply sound_bind; [by apply (sound_call (CFailed (msg_id r)))|done].
  - apply sound_bind; [apply sound_retry_deliver|done].
Qed.

Lemma sound_loop scans : sound (deliveryLoop scans).
Proof.
  induction scans as [|n IH]; [done|]. apply sound_bind; [apply sound_scan|]. intros _. exact IH.
Qed.
End handlers.

(** ** The invariant *)

(** The messages of [A] are in [A'] under the same ids, with their identity. *)
Definition persists (A A' : store) : Prop :=
  ∀ id r, st_msgs A !! id = Some r → ∃ r', st_msgs A' !! id = Some r' ∧ same_identity r r'.

#[export] Instance persists_preorder : PreOrder persists.
Proof.
  split.
  - intros A id r Hr. by exists r.
  - intros A B C H1 H2 id r Hr. destruct (H1 _ _ Hr) as (r1 & Hr1 & Hs1).
    destruct (H2 _ _ Hr1) as (r2 & Hr2 & Hs2). exists r2. split; [done|].
    unfold same_identity in *. deex. split_and!; congruence.
Qed.

Lemma st_update_persists f id A :
  (∀ r, same_identity r (f r)) → persists A (st_update f id A).1.
Proof.
  intros Hf i r Hr. rewrite st_update_alter. destruct (decide (i = id)) as [->|Hne].
  - rewrite lookup_alter_eq, Hr. simpl. eauto.
  - rewrite lookup_alter_ne by done. by exists r.
Qed.

Lemma call_spec_persists {T} (c : store_call T) now A :
  store_wf A → persists A (call_spec c now A).1.
Proof.
  intros Hwf. destruct c; cbn [call_spec fst]; try (by apply st_update_persists).
  - unfold st_create. destruct (find_duplicate A from c); [done|].
    intros id r Hr. destruct (wf_record _ Hwf _ _ Hr) as [_ ?]. exists r.
    cbn [fst st_msgs]. by rewrite lookup_insert_ne by lia.
  - unfold st_mark_acked. destruct (st_msgs A !! id) as [r|]; [|done].
    destruct (to_uid r =? uid); [by apply st_update_persists|done].
Qed.

Section interleave.
Context {R : Redis} {RL : RedisLaws R} {P : Protobuf} (env : environment).

(** Redis holds [A], with room for [n] more operations. *)
Definition holds (n : nat) (A : store) (w : world) : Prop :=
  users_wf (w_users w) ∧ db_rep (w_db w) A ∧ room n A.

Definition store_inv (A0 : store) (n : nat) (w : world) : Prop :=
  ∃ A, holds n A w ∧ rtc store_step A0 A ∧ persists A0 A.

Lemma room_le k n A : room (k + n) A → room n A.
Proof. induction k as [|k IH]; [done|]. intros H. by apply IH, room_weaken. Qed.

(** A query leaves the represented store alone. *)
Lemma query_doc argv m A :
  query_argv argv → Rep m A → ∃ r, redis_doc argv m m r.
Proof.
  intros [[id ->]|[[u ->]|[(u & stop & Hs & ->)|(hi & Hhi & ->)]]] HR.
  - eexists. by apply (HMGET_message A).
  - eexists. eapply (doc_ZRANGE _ _ _ _ (rep_pending _ _ HR u)); apply zsorted_spec.
  - eexists. eapply (doc_ZREVRANGE _ _ _ _ _ (rep_recent _ _ HR u)); [apply zsorted_spec..|done].
  - eexists. eapply (doc_ZRANGEBYSCORE _ _ _ _ _ (rep_delivered _ _ HR));
      [apply zsorted_spec..|done].
Qed.

Lemma holds_same n A w w' :
  w_db w' = w_db w → users_wf (w_users w') → holds (S n) A w → holds n A w'.
Proof.
  intros Hd Hu (_ & HA & Hr). split; [done|]. rewrite Hd. split; [done|]. by apply room_weaken.
Qed.

(** What an operation does to the store and what its answer tells. *)
Definition effect (X : Type) (e : sysE X) (A A' : store) : X → Prop :=
  match e in sysE X return X → Prop with
  | RedisEval s k a => λ x, ∃ T (c : store_call T) now f, now < exact_score ∧ call_args_ok c ∧
      RedisEval s k a = call_request now c ∧ A' = executed f A (call_spec c now A).1 ∧
      call_parse c x = answered f (call_lost c) (call_spec c now A).2
  | RedisCommand argv => λ x, A' = A ∧
      ∀ id, argv = "HMGET" :: MakeMessageKey id :: record_fields →
        ∀ r, BuildRecordFromFields x 0 = Some r → ∃ r0, st_msgs A !! id = Some r0 ∧ r = as_read r0
  | _ => λ _, A' = A
  end.

(** The record a reply to [HMGET] reads as is the one of the store. *)
Lemma fetched_record A m id x r f :
  Rep m A → store_wf A → id < two64 →
  x = answered f None (Some (RArr (match st_msgs A !! id with
        | Some r => RStr <$> record_texts r | None => repeat RNil 10 end))) →
  BuildRecordFromFields x 0 = Some r → ∃ r0, st_msgs A !! id = Some r0 ∧ r = as_read r0.
Proof.
  intros HR Hwf Hid -> Hb. destruct f; cbn [answered] in Hb; [|done..].
  destruct (st_msgs A !! id) as [r0|] eqn:Hi; [|done].
  destruct (wf_record _ Hwf _ _ Hi) as [Hr _].
  pose proof (BuildRecordFromFields_texts [] id r0 Hr Hid) as Hb'. cbn [app length] in Hb'.
  rewrite Hb' in Hb. injection Hb as <-. by exists r0.
Qed.

Lemma exec_ghost n A w X (e : sysE X) :
  (∀ t, env_clock env t < exact_score) → holds (S n) A w → op_ok X e →
  ∃ A', holds n A' (exec env X e w).1 ∧ (A' = A ∨ store_step A A') ∧ persists A A' ∧
    answer_ok X e (exec env X e w).2 ∧ effect X e A A' (exec env X e w).2.
Proof.
  intros Hclock Hinv He. pose proof Hinv as (Hu & HA & Hroom).
  pose proof (db_rep_wf _ _ HA) as Hwf.
  assert (∀ w', w_db w' = w_db w → users_wf (w_users w') → holds n A w') as Hsame
    by (intros w' Hd Hu'; by apply (holds_same _ _ w)).
  destruct e as [|argv|s k a|p u|p|p|p|u|c|c frame|c]; cbn [answer_ok effect];
    try (exists A; split_and!; [by apply Hsame|by left|done..]).
  - exists A. split; [by apply Hsame|]. split_and!; [by left|done|apply Hclock|done].
  - destruct HA as (m & Hm & HR & _). destruct (query_doc argv m A He HR) as (r & Hdoc).
    destruct (request_read env _ _ _ w Hdoc Hm) as (d' & Hreq & Hd').
    exists A. cbn [exec]. rewrite Hreq. split; [split; [done|]|].
    { split; [by exists m|by apply room_weaken]. }
    split_and!; [by left|done..|]. intros id -> rec Hrec.
    destruct (request_read env _ _ _ w (HMGET_message A m id HR) Hm) as (d2 & Hreq2 & _).
    rewrite Hreq in Hreq2. injection Hreq2 as _ Hx.
    destruct (decide (id < two64)) as [Hid|Hid]; [by eapply fetched_record|].
    cbn [snd] in Hrec. rewrite Hx in Hrec.
    destruct (st_msgs A !! id) as [r0|] eqn:Hi.
    + destruct (wf_record _ Hwf _ _ Hi) as [_ Hle]. pose proof (wf_next _ Hwf).
      unfold lua_exact, two64 in *. lia.
    + by destruct (env_fault env (w_tick w)).
  - destruct He as (T & c & now & Hnow & Hc & Heq).
    assert (call_ok c A) as Hok by by eapply room_call_ok.
    destruct (request_refines env c now A w HA Hnow Hok) as (d' & Hreq & Hd').
    rewrite <-Heq in Hreq. rewrite Hreq. cbn [fst snd].
    assert (effect _ (RedisEval s k a) A (executed (env_fault env (w_tick w)) A (call_spec c now A).1)
      (answered (env_fault env (w_tick w)) None (Some (call_reply c now A)))) as Heff.
    { exists T, c, now, (env_fault env (w_tick w)). split_and!; [done..|].
      destruct HA as (m & _ & HR & _). by apply (call_parse_reply c now A m). }
    exists (executed (env_fault env (w_tick w)) A (call_spec c now A).1).
    split; [|split; [|split; [|split; [done|exact Heff]]]]; [split; [done|split; [exact Hd'|]]| |];
      destruct (env_fault env (w_tick w)); cbn [executed];
      first [by apply call_spec_room|by apply room_weaken|by left|right; by exists T, c, now|
        by apply call_spec_persists|done].
  - exists A. split_and!; [|by left|done..].
    cbn [exec]. destruct (bindUser _ p u (w_users w)) as [s ok] eqn:Hb.
    apply Hsame; [done|]. cbn [fst w_users tick set_users].
    replace s with (bindUser (env_clock env (w_tick w)) p u (w_users w)).1 by by rewrite Hb.
    by apply bindUser_wf.
  - exists A. split_and!; [|by left|done..]. apply Hsame; [done|]. by apply removeConnection_wf.
  - exists A. split_and!; [|by left|done..]. apply Hsame; [done|]. by apply updateHeartbeat_wf.
Qed.

Lemma exec_inv A0 n w X (e : sysE X) :
  (∀ t, env_clock env t < exact_score) → store_inv A0 (S n) w → op_ok X e →
  store_inv A0 n (exec env X e w).1 ∧ answer_ok X e (exec env X e w).2.
Proof.
  intros Hclock (A & HA & Hs & Hp) He.
  destruct (exec_ghost n A w X e Hclock HA He) as (A' & HA' & Hstep & Hp' & Hans & _).
  split; [|done]. exists A'. split; [done|]. split; [|by etrans].
  destruct Hstep as [->|Hstep]; [done|by eapply rtc_r].
Qed.

(** A worker's queue of events, or the delivery loop. *)
Definition server_thread (p : sys unit) : Prop :=
  (∃ evs, Forall event_ok evs ∧ p = for_each evs handle) ∨ ∃ scans, p = deliveryLoop scans.

Lemma server_thread_sound p : server_thread p → sound p.
Proof.
  intros [(evs & Hevs & ->)|[scans ->]]; [|apply sound_loop].
  induction Hevs as [|ev evs Hev Hevs IH]; [done|].
  apply all_ops_bind; [by apply sound_handle|done].
Qed.

(** C5. Every interleaving is consistent.  Let any number of worker threads,
    each processing any queue of events, and any number of delivery loops
    interleave in any way for [n] operations, with any requests or replies
    lost.  Then the Redis contents still hold an abstract store: it results
    from the initial one by a sequence of abstract operations, no message was
    lost or altered on the way, no two messages share sender and client
    message id, every index is exact; and the on-line table is consistent. *)
Theorem interleavings_consistent n w ts w' ts' A :
  (∀ t, env_clock env t < exact_score) →
  db_rep (w_db w) A → room n A → users_wf (w_users w) → Forall server_thread ts →
  nsteps (tstep (exec env)) n (w, ts) (w', ts') →
  users_wf (w_users w') ∧
  ∃ A', db_rep (w_db w') A' ∧ rtc store_step A A' ∧ persists A A' ∧
    ∀ id1 id2 r1 r2, st_msgs A' !! id1 = Some r1 → st_msgs A' !! id2 = Some r2 →
      from_uid r1 = from_uid r2 → client_msg_id r1 = client_msg_id r2 → id1 = id2.
Proof.
  intros Hclock HA Hroom Hu Hts Hn.
  destruct (tsteps_invariant (exec env) (store_inv A) op_ok answer_ok
    (λ k s X e, exec_inv A k s X e Hclock) n w ts w' ts' 0 Hn) as [(A' & (Hu' & HA' & _) & Hs & Hp) _].
  - eapply Forall_impl; [exact Hts|]. apply server_thread_sound.
  - rewrite Nat.add_0_r. by exists A.
  - split; [done|]. exists A'. split; [done|]. split; [done|]. split; [done|].
    by apply wf_unique, (db_rep_wf (w_db w')).
Qed.
End interleave.
