(* ===== verification/Backed.v ===== *)
(** * What the server says is backed by the store

    In every interleaving of its threads, under any faults: an acknowledgement
    names a message the store holds, a push carries a message the store holds,
    and every message the store holds was asked for by its sender.  Facts about
    the answers of Redis refer to the store at the end of the run, which keeps
    every message. *)

From S2P Require Import Prelude Decimal Message Codec UserState Prog Redis RedisInstance.
From S2P Require Import Scripts Sys MessageStore StoreSpec StoreRefine StoreReads Dispatcher.
From S2P Require Import DispatcherRefine Interleave.
Local Open Scope N_scope.

(** The store holds the message of a record. *)
Definition in_store (F : store) (r : MessageRecord) : Prop :=
  ∃ r0, st_msgs F !! msg_id r = Some r0 ∧ same_identity r r0.

Lemma in_store_persists F F' r : persists F F' → in_store F r → in_store F' r.
Proof.
  intros HF (r0 & Hr0 & Hs). destruct (HF _ _ Hr0) as (r1 & Hr1 & Hs1). exists r1.
  split; [done|]. unfold same_identity in *. deex. split_and!; congruence.
Qed.

Lemma as_read_identity r r' : same_identity r r' → same_identity (as_read r) r'.
Proof. done. Qed.

(** ** Requests to create a message *)

(** As far as their requests tell, calls made on behalf of users are the same. *)
Definition same_call {T T'} (c : store_call T) (c' : store_call T') : Prop :=
  match c, c' with
  | CCreate from to text cid, CCreate from' to' text' cid' =>
      from' = from ∧ to' = to ∧ text' = text ∧ cid' = cid
  | CAcked id uid, CAcked id' uid' => id' = id ∧ uid' = uid
  | CCreate _ _ _ _, _ | _, CCreate _ _ _ _ | CAcked _ _, _ | _, CAcked _ _ => False
  | _, _ => True
  end.

Lemma call_request_inj {T T'} (c : store_call T) (c' : store_call T') now now' :
  call_request now c = call_request now' c' → same_call c c'.
Proof.
  destruct c, c'; cbn [call_request same_call]; try done; intros H; injection H; intros; by simplify_eq.
Qed.

(** Where the messages of the store after a call come from. *)
Lemma call_spec_origin {T} (c : store_call T) now A id r :
  st_msgs (call_spec c now A).1 !! id = Some r →
  (∃ r0, st_msgs A !! id = Some r0 ∧ same_identity r0 r ∧
    (status r = Acked → status r0 = Acked ∨
      match c with CAcked id' uid => id' = id ∧ uid = to_uid r | _ => False end)) ∨
  match c with
  | CCreate from to text cid =>
      from_uid r = from ∧ to_uid r = to ∧ content r = text ∧ client_msg_id r = cid ∧ status r ≠ Acked
  | _ => False
  end.
Proof.
  assert (∀ f i, (∀ r, same_identity r (f r)) → st_msgs (st_update f i A).1 !! id = Some r →
    ∃ r0, st_msgs A !! id = Some r0 ∧ same_identity r0 r ∧ (r = r0 ∨ i = id ∧ r = f r0)) as Hupd.
  { intros f i Hf. rewrite st_update_alter. destruct (decide (i = id)) as [->|Hne].
    - rewrite lookup_alter_eq. intros (r0 & Hr0 & ->)%fmap_Some. exists r0. auto.
    - rewrite lookup_alter_ne by done. intros Hr. exists r. split_and!; [done..|by left]. }
  destruct c; cbn [call_spec fst]; intros Hr;
    try (left; apply Hupd in Hr; [|done]; destruct Hr as (r0 & Hr0 & Hs & [->|[_ ->]]);
         exists r0; split_and!; auto; done).
  - unfold st_create in Hr. destruct (find_duplicate A from c); cbn [fst st_msgs] in Hr;
      [left; exists r; split_and!; auto; done|].
    apply lookup_insert_Some in Hr as [[_ <-]|[_ Hr]]; [right|left; exists r; split_and!; auto; done].
    by split_and!.
  - left. unfold st_mark_acked in Hr. destruct (st_msgs A !! id0) as [r1|] eqn:H1; [|exists r; split_and!; auto; done].
    destruct (to_uid r1 =? uid) eqn:Hu; [|exists r; split_and!; auto; done].
    apply Hupd in Hr; [|done]. destruct Hr as (r0 & Hr0 & Hs & [->|[<- ->]]);
      exists r0; (split; [done|]); (split; [done|]); intros Hst; [by left|right].
    split; [done|]. apply N.eqb_eq in Hu. rewrite H1 in Hr0. by injection Hr0 as ->.
Qed.

(** What a successful answer to a request to create a message tells. *)
Lemma created_in_store from to text cid now A f x :
  store_wf A →
  create_parse x = answered f default_CreateMessageResult (call_spec (CCreate from to text cid) now A).2 →
  ok (create_parse x) = true →
  let r := record (create_parse x) in
  in_store (executed f A (call_spec (CCreate from to text cid) now A).1) r ∧
  from_uid r = from ∧ client_msg_id r = cid.
Proof.
  intros Hwf Hx Hok. cbv zeta. rewrite Hx in *. destruct f; cbn [answered] in *; [|done..].
  cbn [call_spec create_result record fst snd executed] in *. unfold in_store, st_create.
  destruct (find_duplicate A from cid) as [r|] eqn:Hd; cbn [fst snd st_msgs].
  - destruct (proj1 (find_duplicate_Some A from cid (msg_id r) r Hwf) (conj Hd eq_refl)) as (Hi & Hf & Hc).
    split; [|done]. by exists r.
  - split; [|done]. eexists. split; [apply lookup_insert_eq|done].
Qed.

Section backed.
Context {R : Redis} {RL : RedisLaws R} {P : Protobuf} (env : environment).

(** The events the workers are given, and the table of users at the start. *)
Context (received : ServerEvent → Prop) (users0 : UserStateService).

(** User [u] was bound to [c] from the start, or logged in there. *)
Definition authenticated (c : Conn) (u : N) : Prop :=
  u ≠ 0 ∧
  (getUidByConn (Some c) users0 = u ∨
   ∃ q, received (EnvelopeEvent c q) ∧ env_type q = LOGIN_REQ ∧ has_login_req q = true ∧
     login_req_uid (login_req q) = u).

(** A chat request of user [from], received where he is authenticated. *)
Definition chat_request (c : Conn) (q : Envelope) : Prop :=
  received (EnvelopeEvent c q) ∧ env_type q = CHAT_REQ ∧ has_chat_req q = true ∧
  authenticated c (chat_req_from_uid (chat_req q)).

Definition asked (from to : N) (text cid : string) : Prop :=
  ∃ c q, chat_request c q ∧ chat_req q = Build_ChatRequest from to text cid.

(** An acknowledgement of message [id], received where user [u] is
    authenticated. *)
Definition acknowledged (id u : N) : Prop :=
  ∃ c q, received (EnvelopeEvent c q) ∧ env_type q = ACK ∧ has_ack q = true ∧
    ack_msg_id (ack q) = id ∧ authenticated c u.

(** Calls made on behalf of a user. *)
Definition asked_call {T} (c : store_call T) : Prop :=
  match c with
  | CCreate from to text cid => asked from to text cid
  | CAcked id uid => acknowledged id uid
  | _ => True
  end.

Lemma same_call_asked {T T'} (c : store_call T) (c' : store_call T') :
  same_call c c' → asked_call c → asked_call c'.
Proof.
  destruct c, c'; cbn [same_call asked_call]; try done; intros; deex; by subst.
Qed.

(** An envelope the server may send on [c] when [F] is the store. *)
Definition backed (F : store) (c : Conn) (e : Envelope) : Prop :=
  match env_payload e with
  | kAck a =>
      env_type e = ACK ∧
      if ack_ok a then
        ∃ q r, chat_request c q ∧ ack_seq a = env_seq q ∧ st_msgs F !! ack_msg_id a = Some r ∧
          from_uid r = chat_req_from_uid (chat_req q) ∧
          client_msg_id r = chat_req_client_msg_id (chat_req q)
      else ack_msg_id a = 0
  | kChatPush p =>
      env_type e = CHAT_PUSH ∧ env_seq e = push_msg_id p ∧
      (authenticated c (push_to_uid p) ∨ push_history p = true ∧ authenticated c (push_from_uid p)) ∧
      ∃ r, st_msgs F !! push_msg_id p = Some r ∧ from_uid r = push_from_uid p ∧
        to_uid r = push_to_uid p ∧ content r = push_content p
  | kLoginResp _ => env_type e = LOGIN_RESP
  | _ => False
  end.

Lemma backed_ack F c e :
  backed F c e → env_type e = ACK → ack_ok (ack e) = true →
  ∃ q r, chat_request c q ∧ ack_seq (ack e) = env_seq q ∧ st_msgs F !! ack_msg_id (ack e) = Some r ∧
    from_uid r = chat_req_from_uid (chat_req q) ∧
    client_msg_id r = chat_req_client_msg_id (chat_req q).
Proof.
  unfold backed, ack. destruct (env_payload e); try done.
  intros [_ H] _ Hok. by rewrite Hok in H.
Qed.

Lemma backed_push F c e :
  backed F c e → has_chat_push e = true →
  let p := chat_push e in
  (authenticated c (push_to_uid p) ∨ push_history p = true ∧ authenticated c (push_from_uid p)) ∧
  ∃ r, st_msgs F !! push_msg_id p = Some r ∧ from_uid r = push_from_uid p ∧
    to_uid r = push_to_uid p ∧ content r = push_content p.
Proof. unfold backed, has_chat_push, chat_push. destruct (env_payload e); try done. by intros (_ & _ & ?). Qed.

(** ** Operations and answers *)

Definition backed_op (F : store) (X : Type) (e : sysE X) : Prop :=
  match e with
  | RedisEval s k a => ∀ T (c : store_call T) now, RedisEval s k a = call_request now c → asked_call c
  | UsersBind (Some c) u => authenticated c u
  | ConnSend c frame => ∃ e, frame = Encode e ∧ backed F c e
  | _ => True
  end.

Definition told (F : store) (X : Type) (e : sysE X) : X → Prop :=
  match e in sysE X return X → Prop with
  | RedisEval s k a => λ x, ∀ from to text cid now,
      RedisEval s k a = call_request now (CCreate from to text cid) →
      ok (create_parse x) = true →
      let r := record (create_parse x) in
      in_store F r ∧ from_uid r = from ∧ client_msg_id r = cid
  | RedisCommand argv => λ x, ∀ id, argv = "HMGET" :: MakeMessageKey id :: record_fields →
      ∀ r, BuildRecordFromFields x 0 = Some r → in_store F r
  | UsersUidByConn (Some c) => λ u, u ≠ 0 → authenticated c u
  | UsersConnByUid u => λ p, ∀ c, p = Some c → authenticated c u
  | _ => λ _, True
  end.

Section programs.
Context (F : store).
Local Abbreviation ens := (ensures (backed_op F) (told F)).

Lemma ens_bind {A B} (R1 : A → Prop) (R2 : B → Prop) (p : sys A) (f : A → sys B) :
  ens R1 p → (∀ a, R1 a → ens R2 (f a)) → ens R2 (p ≫= f).
Proof. apply ensures_bind. Qed.

Lemma ens_op {X} (e : sysE X) : backed_op F X e → ens (told F X e) (trigger e).
Proof. intros He. by split. Qed.

(** Operations that ask for nothing and tell nothing. *)
Lemma ens_plain {X} (e : sysE X) : backed_op F X e → ens (λ _, True) (trigger e).
Proof. intros He. by split. Qed.

Lemma ens_send c e : backed F c e → ens (λ _, True) (sendEnvelope c e).
Proof. intros He. unfold sendEnvelope. case_decide; [done|]. split; [by exists e|done]. Qed.

Lemma backed_request {T} (c : store_call T) now : asked_call c → backed_op F _ (call_request now c).
Proof.
  intros Ha. assert (∀ T' (c' : store_call T') now', call_request now c = call_request now' c' →
    asked_call c') as H by (intros T' c' now' Heq; eapply same_call_asked, Ha; by eapply call_request_inj).
  destruct c; exact H.
Qed.

(** Requests whose answer is only whether they succeeded. *)
Lemma ens_request {T} (c : store_call T) now (f : option reply → bool) :
  asked_call c → ens (λ _, True) (x ← trigger (call_request now c); mret (f x)).
Proof. intros Hc. eapply ens_bind; [by apply ens_plain, backed_request|done]. Qed.

Lemma ens_call {T} (c : store_call T) :
  match c with CCreate _ _ _ _ => False | _ => asked_call c end → ens (λ _, True) (call_impl c).
Proof.
  intros Hc. destruct c; [done|..]; cbn [call_impl];
    try (eapply ens_bind; [by apply ens_plain|]; intros now _).
  - by apply (ens_request (CDelivered id)).
  - by apply (ens_request (CPending id)).
  - by apply (ens_request (CAcked id uid)).
  - by apply (ens_request (CFailed id)).
  - by apply (ens_request (CRetry id) 0).
Qed.

Lemma ens_create from to text cid :
  asked from to text cid →
  ens (λ res, ok res = true → in_store F (record res) ∧ from_uid (record res) = from ∧
         client_msg_id (record res) = cid) (createMessage from to text cid).
Proof.
  intros Ha. eapply ens_bind; [by apply ens_plain|]. intros now _.
  eapply ens_bind; [apply (ens_op (call_request now (CCreate from to text cid)))|].
  - by apply (backed_request (CCreate from to text cid)).
  - intros x Hx. specialize (Hx from to text cid now eq_refl).
    assert (∀ res, create_parse x = res → ens (λ res, ok res = true → in_store F (record res) ∧
      from_uid (record res) = from ∧ client_msg_id (record res) = cid) (mret res)) as Hret.
    { intros res <-. exact Hx. }
    destruct x as [[]|]; by apply Hret.
Qed.

Lemma ens_fetch id : ens (λ o, ∀ r, o = Some r → in_store F r) (FetchRecord id).
Proof.
  unfold FetchRecord. destruct (id =? 0); [done|].
  eapply ens_bind; [by apply (ens_op (RedisCommand _))|]. intros x Hx.
  destruct x as [[]|]; try done. case_decide; [|done]. intros r Hr. by apply (Hx id).
Qed.

Lemma ens_fetch_entries keep x :
  ens (λ l, ∀ r, r ∈ l → in_store F r ∧ keep r = true) (fetch_entries keep x).
Proof.
  assert (ens (λ l, ∀ r, r ∈ l → in_store F r ∧ keep r = true) (mret [])) as Hnil
    by (intros r ?%not_elem_of_nil; done).
  destruct x as [[]|]; try exact Hnil. apply ensures_collect. intros y. unfold fetch_entry.
  destruct (ParseUint64 _); [|done]. eapply ens_bind; [apply ens_fetch|].
  intros [r|] Hr; [|done]. intros r' Hr'. destruct (keep r) eqn:Hk; [|done]. injection Hr' as <-.
  split; [by apply Hr|done].
Qed.

Lemma ens_query argv keep :
  ens (λ l, ∀ r, r ∈ l → in_store F r ∧ keep r = true)
    (x ← trigger (RedisCommand argv); fetch_entries keep x).
Proof. eapply ens_bind; [by apply ens_plain|]. intros x _. apply ens_fetch_entries. Qed.

Lemma ens_ack c seq id (b : bool) reason :
  (∀ t, backed F c (EnvelopeFactory.CreateAck t seq id b reason)) →
  ens (λ _, True) (sendAck c seq id b reason).
Proof. intros Hb. eapply ens_bind; [by apply ens_plain|]. intros t _. by apply ens_send. Qed.

Lemma ens_error c seq reason : ens (λ _, True) (sendErrorAck c seq reason).
Proof. by apply ens_ack. Qed.

(** Where a message may be pushed. *)
Definition may_read (c : Conn) (r : MessageRecord) (history : bool) : Prop :=
  authenticated c (to_uid r) ∨ history = true ∧ authenticated c (from_uid r).

Lemma ens_push c r history : in_store F r → may_read c r history → ens (λ _, True) (sendPush c r history).
Proof.
  intros (r0 & Hr0 & Hs) Hread. eapply ens_bind; [by apply ens_plain|]. intros t _.
  apply (ens_bind (λ _, True)); [case_match; [by apply ens_plain|done]|]. intros t2 _. apply ens_send.
  unfold backed. cbn. split_and!; [done..|]. exists r0. unfold same_identity in Hs. deex.
  split_and!; congruence.
Qed.

Lemma ens_target u : ens (λ o, ∀ c, o = Some c → authenticated c u) (online_target u).
Proof.
  eapply ens_bind; [by apply (ens_op (UsersConnByUid u))|]. intros [c|] Hc; [|done].
  eapply ens_bind; [by apply ens_plain|]. intros [|] _; [|done].
  intros c' [= <-]. by apply Hc.
Qed.

Ltac deliver Hr :=
  case_match; [done|]; eapply ens_bind; [apply ens_target|]; intros [c|] Hc;
  repeat lazymatch goal with
  | |- ens _ (markPending ?id ≫= _) => eapply ens_bind; [by apply (ens_call (CPending id))|intros ? _]
  | |- ens _ (markDelivered ?id ≫= _) => eapply ens_bind; [by apply (ens_call (CDelivered id))|intros ? _]
  | |- ens _ (incrementRetryCount ?id ≫= _) => eapply ens_bind; [by apply (ens_call (CRetry id))|intros ? _]
  | |- ens _ (sendPush _ _ _ ≫= _) =>
      eapply ens_bind; [apply (ens_push _ _ _ Hr); left; by apply Hc|intros ? _]
  end; done.

Lemma ens_try r : in_store F r → ens (λ _, True) (tryDeliverMessage r).
Proof. intros Hr. unfold tryDeliverMessage. deliver Hr. Qed.

Lemma ens_retry r : in_store F r → ens (λ _, True) (retryDeliverMessage r).
Proof. intros Hr. unfold retryDeliverMessage. deliver Hr. Qed.

Lemma ens_recent u limit :
  ens (λ l, ∀ r, r ∈ l → in_store F r ∧ ((from_uid r =? u) || (to_uid r =? u)) = true)
    (getRecentMessages u limit).
Proof.
  unfold getRecentMessages. case_match; [intros r ?%not_elem_of_nil; done|].
  eapply ens_bind; [by apply ens_plain|]. intros x _. eapply ens_bind; [apply ens_fetch_entries|].
  intros l Hl r Hr. apply Hl. by rewrite <-elem_of_reverse.
Qed.

Lemma ens_login_messages u : ens (λ _, True) (deliverLoginMessages u).
Proof.
  apply (ens_bind (λ _, True)).
  - eapply ens_bind; [apply ens_query|]. intros L HL. apply (ens_bind (λ _, True)); [|done].
    apply ensures_for_each. intros r Hr. eapply ens_bind; [by apply ens_try, HL|done].
  - intros [] _; [done|]. eapply ens_bind; [apply ens_recent|]. intros L HL.
    eapply ens_bind; [apply ens_target|]. intros [c|] Hc; [|done].
    apply ensures_for_each. intros r [Hin Hu]%HL. apply ens_push; [done|].
    apply orb_true_iff in Hu as [Hu%N.eqb_eq|Hu%N.eqb_eq]; [right; split; [done|]|left]; rewrite Hu; by apply Hc.
Qed.

Lemma ens_chat c e : received (EnvelopeEvent c e) → env_type e = CHAT_REQ → ens (λ _, True) (handleChat c e).
Proof.
  intros Hrec Hty. unfold handleChat. destruct (has_chat_req e) eqn:Hhas; cbn [negb]; [|apply ens_error].
  eapply ens_bind; [by apply (ens_op (UsersUidByConn (Some c)))|]. intros u Hu.
  destruct (u =? 0) eqn:H0; [apply ens_error|]. apply N.eqb_neq in H0.
  destruct (chat_req_from_uid (chat_req e) =? u) eqn:Hf; cbn [negb]; [|apply ens_error].
  apply N.eqb_eq in Hf. subst u.
  assert (chat_request c e) as Hreq by (split_and!; [done..|by apply Hu]).
  eapply ens_bind; [apply ens_create; exists c, e; split; [done|by destruct (chat_req e)]|].
  intros res Hres. destruct (ok res) eqn:Hok; cbn [negb]; [|apply ens_error].
  destruct (Hres Hok) as (Hin & Hfrom & Hcid).
  assert (∀ t reason, backed F c (EnvelopeFactory.CreateAck t (env_seq e) (msg_id (record res)) true reason))
    as Hback.
  { intros t reason. split; [done|]. cbn. destruct Hin as (r0 & Hr0 & Hs). exists e, r0.
    unfold same_identity in Hs. deex. split_and!; [done..|congruence|congruence]. }
  destruct (created res); cbn [negb]; [|by apply ens_ack].
  eapply ens_bind; [by apply ens_try|]. intros _ _. by apply ens_ack.
Qed.

Lemma ens_handle ev : received ev → ens (λ _, True) (handle ev).
Proof.
  intros Hrec. destruct ev as [c e|c]; [|by apply (ens_plain (UsersRemove (Some c)))]. unfold handle.
  destruct (env_type e) eqn:Hty; try apply ens_error; [|by apply ens_chat| |done].
  - unfold handleLogin. apply (ens_bind (λ _, True)).
    { destruct (has_login_req e && _) eqn:Hok; cbn [negb]; [|done].
      apply andb_true_iff in Hok as [Hl H0%negb_true_iff%N.eqb_neq].
      eapply ens_bind; [apply ens_plain; split; [done|right; by exists e]|done]. }
    intros x _. eapply ens_bind; [by apply ens_plain|]. intros t _.
    eapply ens_bind; [by apply ens_send|]. intros _ _. case_match; [apply ens_login_messages|done].
  - unfold handleAck. destruct (has_ack e) eqn:Hhas; cbn [negb]; [|done]. case_match; [done|].
    eapply ens_bind; [by apply (ens_op (UsersUidByConn (Some c)))|]. intros u Hu.
    destruct (u =? 0) eqn:H0; [done|]. apply N.eqb_neq in H0.
    eapply ens_bind; [|done]. apply (ens_call (CAcked _ _)).
    exists c, e. split_and!; [done..|by apply Hu].
Qed.

Lemma ens_loop scans : ens (λ _, True) (deliveryLoop scans).
Proof.
  induction scans as [|n IH]; [done|]. apply (ens_bind (λ _, True)); [|done].
  eapply ens_bind; [by apply ens_plain|]. intros now _.
  eapply ens_bind; [apply ens_query|]. intros L HL.
  apply ensures_for_each. intros r Hr. unfold deliver_overdue. case_match.
  - eapply ens_bind; [by apply (ens_call (CFailed _))|done].
  - eapply ens_bind; [by apply ens_retry, HL|done].
Qed.
End programs.

(** ** The run *)

Lemma getUid_bind now p u s c v :
  getUidByConn (Some c) (bindUser now p u s).1 = v → v ≠ 0 →
  (p = Some c ∧ v = u) ∨ getUidByConn (Some c) s = v.
Proof.
  intros Hv H0. destruct p as [c'|]; [|by right]. cbn [bindUser] in Hv.
  destruct (u =? 0); [by right|]. cbn [fst getUidByConn conn_states_] in *.
  destruct (decide (c' = c)) as [->|Hne].
  - rewrite lookup_insert_eq in Hv. left. cbn in Hv. by rewrite decide_True in Hv.
  - rewrite lookup_insert_ne in Hv by done. right. revert Hv. unfold demote_existing.
    destruct (_ !! u) as [[c2|]|]; [|done..]. case_decide; [done|].
    destruct (decide (c2 = c)) as [->|Hne2]; [|by rewrite lookup_alter_ne].
    rewrite lookup_alter_eq. destruct (conn_states_ s !! c) as [st|]; [|done]. cbn. by intros <-.
Qed.

Lemma getUid_remove p s c v :
  getUidByConn (Some c) (removeConnection p s) = v → v ≠ 0 → getUidByConn (Some c) s = v.
Proof.
  destruct p as [c'|]; [|done]. cbn [removeConnection]. destruct (conn_states_ s !! c') as [st|] eqn:Hc; [|done].
  cbn [getUidByConn conn_states_]. destruct (decide (c' = c)) as [->|Hne].
  - by rewrite lookup_delete_eq.
  - by rewrite lookup_delete_ne.
Qed.

Lemma getUid_heartbeat now p s c : getUidByConn (Some c) (updateHeartbeat now p s) = getUidByConn (Some c) s.
Proof.
  destruct p as [c'|]; [|done]. cbn [updateHeartbeat]. destruct (conn_states_ s !! c') as [st|] eqn:Hc; [|done].
  cbn [getUidByConn conn_states_]. destruct (decide (c' = c)) as [->|Hne].
  - by rewrite lookup_insert_eq, Hc.
  - by rewrite lookup_insert_ne.
Qed.

Lemma getConn_getUid s u c :
  users_wf s → getConnByUid u s = Some c → getUidByConn (Some c) s = u ∧ u ≠ 0.
Proof.
  intros Hwf Hc. unfold getConnByUid in Hc. destruct (uid_to_conn_ s !! u) as [p|] eqn:Hp; [|done].
  cbn in Hc. subst p. apply (wf_online _ Hwf) in Hp as (H0 & c' & st & [= <-] & Hst & Hu).
  split; [|done]. unfold getUidByConn. rewrite Hst. cbn.
  destruct (wf_auth _ Hwf _ _ Hst) as [Hauth _]; [by subst|]. by rewrite Hauth.
Qed.

(** The messages of [g] are those of [A0] and messages asked for; those acked
    were so in [A0] or have been acknowledged by their receiver. *)
Definition originated (A0 g : store) : Prop :=
  ∀ id r, st_msgs g !! id = Some r →
    ((∃ r0, st_msgs A0 !! id = Some r0 ∧ same_identity r0 r) ∨
     asked (from_uid r) (to_uid r) (content r) (client_msg_id r)) ∧
    (status r = Acked → (∃ r0, st_msgs A0 !! id = Some r0 ∧ status r0 = Acked) ∨
     acknowledged id (to_uid r)).

Record run_inv (A0 : store) (out0 : list output) (F g : store) (w : world) : Prop := {
  ri_users : ∀ c u, getUidByConn (Some c) (w_users w) = u → u ≠ 0 → authenticated c u;
  ri_store : originated A0 g;
  ri_out : ∀ c frame, Sent c frame ∈ w_out w →
    Sent c frame ∈ out0 ∨ ∃ e, frame = Encode e ∧ backed F c e }.

Lemma same_identity_trans r1 r2 r3 : same_identity r1 r2 → same_identity r2 r3 → same_identity r1 r3.
Proof. unfold same_identity. intros. deex. split_and!; congruence. Qed.

Lemma originated_call {T} (c : store_call T) now A0 A :
  asked_call c → originated A0 A → originated A0 (call_spec c now A).1.
Proof.
  intros Hc HA id r [(r1 & Hr1 & Hs & Hst)|Hr]%call_spec_origin.
  - destruct (HA _ _ Hr1) as [Horig Hack]. split.
    + destruct Horig as [(r0 & Hr0 & Hs0)|Ha].
      * left. exists r0. split; [done|]. by eapply same_identity_trans.
      * right. unfold same_identity in Hs. deex. congruence.
    + intros [H1|H2]%Hst.
      * destruct (Hack H1) as [?|?]; [by left|right]. unfold same_identity in Hs. deex. congruence.
      * right. destruct c; try done. cbn [asked_call] in Hc. deex. by subst.
  - destruct c; try done. deex. split; [right|done]. subst. exact Hc.
Qed.

Lemma exec_run_inv A0 out0 n g w X (e : sysE X) :
  (∀ t, env_clock env t < exact_score) → holds (S n) g w → op_ok X e →
  ∃ g', holds n g' (exec env X e w).1 ∧ persists g g' ∧ answer_ok X e (exec env X e w).2 ∧
    ∀ F, persists g' F → backed_op F X e → run_inv A0 out0 F g w →
      run_inv A0 out0 F g' (exec env X e w).1 ∧ told F X e (exec env X e w).2.
Proof.
  intros Hclock Hg He. destruct (exec_ghost env n g w X e Hclock Hg He) as (g' & Hg' & _ & Hp & Hans & Heff).
  exists g'. split_and!; [done..|]. intros F HF Hop [Hu Hs Ho].
  pose proof Hg as (_ & Hrep & _). pose proof (db_rep_wf _ _ Hrep) as Hwf.
  assert (w_out (exec env X e w).1 = w_out w → w_users (exec env X e w).1 = w_users w →
    originated A0 g' → run_inv A0 out0 F g' (exec env X e w).1) as Hkeep
    by (intros Ho' Hu' Hs'; split; rewrite ?Ho', ?Hu'; done).
  destruct e as [|argv|s k a|p u|p|p|p|u|c|c frame|c]; cbn [effect told] in *.
  - subst g'. by split; [apply Hkeep|].
  - destruct Heff as [-> Hrec]. split; [apply Hkeep; [|..|done]|].
    + cbn. unfold redis_request. by repeat case_match.
    + cbn. unfold redis_request. by repeat case_match.
    + intros id Hid r Hr. destruct (Hrec id Hid r Hr) as (r0 & Hr0 & ->).
      apply (in_store_persists g); [done|]. exists r0.
      destruct (wf_record _ Hwf _ _ Hr0) as [(<- & _) _]. done.
  - destruct Heff as (T & c & now & f & Hnow & Hc & Heq & -> & Hparse). split.
    + apply Hkeep; [cbn; unfold redis_request; by repeat case_match..|].
      pose proof (Hop _ c now Heq) as Ha.
      destruct f; cbn [executed]; [by apply originated_call|done|by apply originated_call].
    + intros from to text cid now' Heq' Hok. cbv zeta.
      pose proof (call_request_inj c (CCreate from to text cid) now now') as Hinj.
      rewrite <-Heq, <-Heq' in Hinj.
      specialize (Hinj eq_refl). destruct c; [|done..]. destruct Hinj as (-> & -> & -> & ->).
      cbn [call_parse call_lost] in Hparse.
      destruct (created_in_store _ _ _ _ _ _ _ _ Hwf Hparse Hok) as (Hin & Hf & Hcid).
      split; [by eapply in_store_persists|done].
  - subst g'. split; [|done]. cbn [exec].
    destruct (bindUser _ p u (w_users w)) as [s' b] eqn:Hb. cbn [fst].
    split; cbn [w_users w_out tick set_users]; [|done..]. intros c v Hv H0.
    pose proof (getUid_bind (env_clock env (w_tick w)) p u (w_users w) c v) as Hbind.
    rewrite Hb in Hbind. destruct (Hbind Hv H0) as [[-> ->]|Hold]; [done|by apply Hu].
  - subst g'. split; [|done]. split; cbn; [|done..]. intros c v Hv H0.
    by apply Hu; [eapply getUid_remove|].
  - subst g'. split; [|done]. split; cbn [exec fst w_users w_out tick set_users]; [|done..].
    intros c v. rewrite getUid_heartbeat. apply Hu.
  - subst g'. split; [by apply Hkeep|]. destruct p as [c|]; [|done]. intros H0. by apply Hu.
  - subst g'. split; [by apply Hkeep|]. intros c Hc. apply getConn_getUid in Hc as [Hc H0]; [|apply Hg].
    by apply Hu.
  - subst g'. by split; [apply Hkeep|].
  - subst g'. split; [|done]. split; cbn [exec fst w_users w_out tick add_out]; [done|done|].
    intros c' f' [H|H%list_elem_of_singleton]%elem_of_app; [by apply Ho|].
    injection H as -> ->. by right.
  - subst g'. split; [|done]. split; cbn [exec fst w_users w_out tick add_out]; [done|done|].
    intros c' f' [H|H%list_elem_of_singleton]%elem_of_app; [by apply Ho|done].
Qed.

(** A worker with its queue of events, or the delivery loop. *)
Definition serves (p : sys unit) : Prop :=
  (∃ evs, Forall event_ok evs ∧ (∀ ev, ev ∈ evs → received ev) ∧ p = for_each evs handle) ∨
  ∃ scans, p = deliveryLoop scans.

Lemma serves_ops F p : serves p → all_ops (backed_op F) (told F) p.
Proof.
  intros [(evs & _ & Hevs & ->)|[scans ->]]; eapply ensures_ops; [|apply ens_loop].
  apply ensures_for_each. intros ev Hev. by apply ens_handle, Hevs.
Qed.

Lemma backed_run n w ts w' ts' A :
  (∀ t, env_clock env t < exact_score) → w_users w = users0 →
  db_rep (w_db w) A → room n A → users_wf users0 → Forall serves ts →
  nsteps (tstep (exec env)) n (w, ts) (w', ts') →
  ∃ F, db_rep (w_db w') F ∧ persists A F ∧ run_inv A (w_out w) F F w'.
Proof.
  intros Hclock Hu0 HA Hroom Hwf Hts Hn.
  destruct (tsteps_final (exec env) holds persists op_ok answer_ok backed_op told
    (run_inv A (w_out w)) (λ k g s X e Hg He, exec_run_inv A (w_out w) k g s X e Hclock Hg He)
    n w ts w' ts' 0 A Hn) as (F & (_ & HF & _) & Hp & HJ).
  - eapply Forall_impl; [exact Hts|]. intros p Hp. apply server_thread_sound.
    destruct Hp as [(evs & Hok & _ & ->)|Hp]; [left; by exists evs|by right].
  - rewrite Nat.add_0_r. split; [by rewrite Hu0|]. by split.
  - exists F. split_and!; [done..|]. apply HJ.
    + eapply Forall_impl; [exact Hts|]. intros p. apply serves_ops.
    + split; [|intros id r Hr; split; [left|intros ?; left]; by exists r|by left].
      intros c u Hc H0. split; [done|left]. by rewrite <-Hu0.
Qed.
End backed.

(** C9. What the server says is backed by the store.  However worker threads
    and delivery loops interleave and whatever requests and replies are lost,
    when a run ends:
    every message of the store was there before or was asked for, with its
    sender, receiver, text and client message id, by a chat request received
    where its sender has authenticated; every message that became acked was
    named by an acknowledgement received where its receiver has; and every
    envelope sent is the answer to a login, a push that carries a message of the
    store to a connection where its receiver (or, for history, its sender) has
    authenticated, a negative acknowledgement that names none, or a positive one
    that names a message of the store with the sender and client message id of a
    chat request received on the same connection, whose sequence number it
    repeats. *)
Theorem answers_are_backed `{R : Redis, RL : !RedisLaws R, P : Protobuf} env received n w ts w' ts' A :
  (∀ t, env_clock env t < exact_score) →
  db_rep (w_db w) A → room n A → users_wf (w_users w) → w_out w = [] →
  Forall (serves received) ts → nsteps (tstep (exec env)) n (w, ts) (w', ts') →
  ∃ A', db_rep (w_db w') A' ∧ persists A A' ∧
    originated received (w_users w) A A' ∧
    ∀ c frame, Sent c frame ∈ w_out w' →
      ∃ e, frame = Encode e ∧ backed received (w_users w) A' c e.
Proof.
  intros Hclock HA Hroom Hwf Hout Hts Hn.
  destruct (backed_run env received (w_users w) n w ts w' ts' A) as (A' & HA' & Hp & [_ Hs Ho]);
    [done..|]. exists A'. split_and!; [done..|].
  intros c frame [Hin|He]%Ho; [|done]. rewrite Hout in Hin. by apply not_elem_of_nil in Hin.
Qed.
