(* ===== verification/ServerFaults.v ===== *)
(** * The server under lost requests and replies

    What survives any pattern of faults between the server and Redis, and what
    does not: concrete runs in which a late operation undoes an acknowledgement
    or the order of a replay is not that of sending.  Lost requests and replies
    of any server are in LostRequests. *)

From S2P Require Import Prelude Decimal Message Codec UserState Prog Redis RedisInstance.
From S2P Require Import WireInstance Scripts Sys MessageStore StoreSpec StoreRefine StoreReads.
From S2P Require Import StoreService Dispatcher ServerLogic ServerSpec DispatcherRefine ServerRun.
From S2P Require Import ServerSafety.
Local Open Scope N_scope.

Section faults.
Context {R : Redis} {P : Protobuf} (env : environment) {SS : StoreService env}.
Hypothesis clock_ok : ∀ n, env_clock env n < exact_score.

Local Abbreviation triple := (ServerLogic.triple env).
Local Abbreviation call := (triple_store_call env (λ _, True) clock_ok (λ _, I)).

(** Messages kept, sent envelopes extended. *)
Definition grows (a a' : server) : Prop :=
  kept a a' ∧ ∃ new, a_sent a' = a_sent a ++ new.

Lemma executed_kept f a (b : server) A' :
  a_store b = a_store a → kept a (with_store A' b) → kept a (with_store (executed f (a_store b) A') b).
Proof. intros Hb Hk. destruct f; [done|by apply same_store_kept|done]. Qed.

Lemma deliver_any_fault a r :
  triple a (tryDeliverMessage r) (λ _ a', grows a a').
Proof.
  unfold tryDeliverMessage. destruct (is_terminal r).
  { apply triple_ret. split; [done|]. exists []. by rewrite app_nil_r. }
  apply triple_bind, triple_target. destruct (target_of (to_uid r) a) as [c|].
  - apply triple_bind, triple_push; [done|]. intros t t2.
    apply triple_bind, (call _ (CDelivered (msg_id r))); [done|].
    intros f t3 _ _. apply triple_ret. split; [|by eexists].
    apply executed_kept; [done|]. by eapply update_kept; [|reflexivity].
  - apply triple_bind, (call _ (CPending (msg_id r))); [done|].
    intros f t _ _. apply triple_ret. split; [|exists []; by rewrite app_nil_r].
    apply executed_kept; [done|]. by eapply update_kept; [|reflexivity].
Qed.

(** The message a positive acknowledgement of a chat request speaks of. *)
Definition stored (a : server) (id : N) (e : Envelope) : Prop :=
  ∃ r, msgs a !! id = Some r ∧ msg_id r = id ∧
    from_uid r = chat_req_from_uid (chat_req e) ∧
    client_msg_id r = chat_req_client_msg_id (chat_req e).

(** A chat request is answered by exactly one ACK on its connection, the last
    envelope sent: a positive one names a stored message, a negative one has
    message id 0 and nothing else was sent. *)
Definition answered_chat (c : Conn) (e : Envelope) (a a' : server) : Prop :=
  ∃ before t id ok reason,
    a_sent a' = before ++ [(c, EnvelopeFactory.CreateAck t (env_seq e) id ok reason)] ∧
    (if (ok : bool) then stored a' id e ∧ ∃ new, before = a_sent a ++ new
     else id = 0 ∧ before = a_sent a).

Lemma chat_any_fault a c e :
  event_ok (EnvelopeEvent c e) → id_room a →
  triple a (handleChat c e) (λ _ a', answered_chat c e a a').
Proof.
  intros [Hf Ht] Hroom.
  assert (∀ reason b, a_sent b = a_sent a →
    triple b (sendErrorAck c (env_seq e) reason) (λ _ a', answered_chat c e a a')) as Herr.
  { intros reason b Hb. apply triple_ack; [done|]. intros t. exists (a_sent a), t, 0, false, reason.
    cbn [a_sent with_sent]. by rewrite Hb. }
  unfold handleChat. case_match; [by apply Herr|]. apply triple_bind, triple_uid.
  do 2 (case_match; [by apply Herr|]). apply triple_wf. intros Hwf.
  apply triple_bind. set (q := chat_req e) in *.
  apply (call _ (CCreate (chat_req_from_uid q) (chat_req_to_uid q)
    (chat_req_content q) (chat_req_client_msg_id q))); [done|].
  intros f t _ Hnow. cbn [call_spec call_lost fst snd].
  set (A' := (st_create t _ _ _ _ _).1). set (res := (st_create t _ _ _ _ _).2).
  assert (∃ r, st_msgs A' !! msg_id res.1 = Some r ∧ msg_id r = msg_id res.1 ∧
    from_uid r = chat_req_from_uid q ∧ client_msg_id r = chat_req_client_msg_id q) as Hstored.
  { exists res.1. unfold A', res, st_create.
    destruct (find_duplicate _ _ _) as [r|] eqn:Hd; cbn [fst snd st_msgs].
    - by destruct (proj1 (find_duplicate_Some _ _ _ (msg_id r) r Hwf) (conj Hd eq_refl)) as (? & ? & ?).
    - by rewrite lookup_insert_eq. }
  destruct f; cbn [answered executed create_result ok created record default_CreateMessageResult
    negb]; [|by apply Herr..].
  assert (∀ b reason, kept (with_store A' a) b → (∃ new, a_sent b = a_sent a ++ new) →
    triple b (sendAck c (env_seq e) (msg_id res.1) true reason)
      (λ _ a', answered_chat c e a a')) as Hack.
  { intros b reason Hk Hs. apply triple_ack; [done|]. intros t2.
    exists (a_sent b), t2, (msg_id res.1), true, reason. split; [done|]. split; [|done].
    destruct Hstored as (r & Hr & Hid & Hfrom & Hc).
    destruct (kept_msgs _ _ Hk _ _ Hr) as (r' & Hr' & Hsame). exists r'. split; [exact Hr'|]. fold q.
    unfold same_identity in Hsame. deex. split_and!; congruence. }
  destruct (res.2); cbn [negb].
  - apply triple_bind. eapply triple_mono; [apply deliver_any_fault|].
    intros x b [Hk Hs]. by apply Hack.
  - apply Hack; [done|]. exists []. by rewrite app_nil_r.
Qed.

(** C12. A positive ACK means the message is stored.  Whatever requests to
    Redis or replies are lost, a chat request is answered with exactly one ACK
    on its own connection.  If it is positive, the message store holds, under
    the id it names, a message with the sender and client message id of the
    request; if it is negative it names no message and nothing was pushed. *)
Theorem ack_means_stored a c e :
  event_ok (EnvelopeEvent c e) → id_room a →
  ∀ w, implements env w a → ∃ a', implements env (run (exec env) (handleChat c e) w).1 a' ∧
    answered_chat c e a a'.
Proof. intros Hok Hroom w Hw. exact (chat_any_fault a c e Hok Hroom w Hw). Qed.
End faults.

(** ** Concrete runs *)

Definition login (c : Conn) (u : N) : ServerEvent :=
  EnvelopeEvent c (EnvelopeFactory.CreateLoginRequest 5 1 u).
Definition chat (c : Conn) (seq from to : N) (text id : string) : ServerEvent :=
  EnvelopeEvent c (EnvelopeFactory.CreateChatRequest 6 seq from to text id).
Definition acknowledge (c : Conn) (id : N) : ServerEvent :=
  EnvelopeEvent c (EnvelopeFactory.CreateAck 7 9 id true "").

(** Connections 21 (user 1) and 22 (user 2) are up; Redis is empty. *)
Definition two_connections : world :=
  {| w_db := (∅ : keyspace); w_tick := 0; w_users := empty_service; w_live := {[21; 22]};
     w_out := [] |}.

Definition serve (env : environment) (jobs : list job) (w : world (R := ref_redis)) : world :=
  (run (exec env) (for_each jobs perform) w).1.

Definition logged_in (env : environment) : world :=
  serve env [Event (login 21 1); Event (login 22 2)] two_connections.

(** The record of a message as the store reads it back. *)
Definition record_of (id : N) (w : world (R := ref_redis)) : option MessageRecord :=
  (run (exec (example_env 0 [])) (getMessage id) w).2.

(** The pushes sent, as connection and message id. *)
Definition pushes_of (w : world (R := ref_redis)) : list (Conn * N) :=
  omap (λ o, match o with
             | Sent c frame =>
                 e ← head (envelopes (DecodeAll frame kDefaultMaxFrameLength));
                 if has_chat_push e then Some (c, push_msg_id (chat_push e)) else None
             | ShutDown _ => None
             end) (w_out w).
(** The acknowledgements sent, as connection, message id and outcome. *)
Definition acks_of (w : world (R := ref_redis)) : list (Conn * N * bool) :=
  omap (λ o, match o with
             | Sent c frame =>
                 e ← head (envelopes (DecodeAll frame kDefaultMaxFrameLength));
                 if has_ack e then Some (c, ack_msg_id (ack e), ack_ok (ack e)) else None
             | ShutDown _ => None
             end) (w_out w).

Definition quiet : environment := example_env 1000 [].

(** What the runs below look at. *)
Definition observe (id : N) (w : world (R := ref_redis)) :=
  ((λ r, (status r, acked_at_ms r)) <$> record_of id w, acks_of w, pushes_of w).

Definition early_ack_threads : list (sys unit) :=
  [handle (chat 21 2 1 2 "hi" "m-1"); handle (acknowledge 22 1)].
Definition early_ack_end : option (world * list (sys unit)) :=
  run_schedule (exec quiet) [0;0;0;0;0;0;0; 1;1;1; 0;0;0;0]%nat
    (logged_in quiet, early_ack_threads).

Lemma early_ack_observed :
  (λ c, (observe 1 c.1, c.2,
     pushes_of (run (exec (example_env 11000 [])) delivery_scan c.1).1)) <$> early_ack_end =
  Some ((Some (Delivered, 1000), [(21, 1, true)], [(22, 1)]), [Ret tt; Ret tt],
        [(22, 1); (22, 1)]).
Proof. vm_compute. reflexivity. Qed.

(** C35. An early ACK is undone.  The worker that delivers a message sends the
    push before it marks the message [Delivered]; when the receiver's ACK is
    processed in between, the message ends [Delivered] although it was
    acknowledged, so it is pushed again ten seconds later. *)
Theorem early_ack_is_undone :
  ∃ w ts, nsteps (tstep (exec quiet)) 14 (logged_in quiet, early_ack_threads) (w, ts) ∧
    ts = [Ret tt; Ret tt] ∧
    observe 1 w = (Some (Delivered, 1000), [(21, 1, true)], [(22, 1)]) ∧
    pushes_of (run (exec (example_env 11000 [])) delivery_scan w).1 = [(22, 1); (22, 1)].
Proof.
  pose proof early_ack_observed as Hobs.
  destruct early_ack_end as [[w ts]|] eqn:Hrun; [|done].
  exists w, ts. split; [exact (run_schedule_steps _ _ _ _ Hrun)|].
  apply Some_inj, pair_eq in Hobs as [[Ho Ht]%pair_eq Hp]. exact (conj Ht (conj Ho Hp)).
Qed.

Definition eleven_messages : list any_call :=
  (λ n, AnyCall (CCreate 1 2 "x" (to_string (N.of_nat n)))) <$> seq 1 11.

(** Within a millisecond the replay order is textual.  Eleven messages
    created in one millisecond are replayed with message 10 and 11 before
    message 2, not in the order they were sent. *)
Theorem replay_order_is_textual :
  let w := (run (exec (R := ref_redis) quiet) (run_calls eleven_messages) empty_world).1 in
  msg_id <$> (run (exec quiet) (getPendingMessages 2) w).2 = [1; 10; 11; 2; 3; 4; 5; 6; 7; 8; 9].
Proof. vm_compute. done. Qed.
