(* ===== verification/ServerExamples.v ===== *)
(** * A small server at work

    Two users on two connections exchange a message: a concrete run of the
    abstract server and of the concrete one on the reference Redis, on which
    the theorems about the server are applied. *)

From S2P Require Import Prelude Decimal Message Codec UserState Prog Redis RedisInstance.
From S2P Require Import WireInstance Scripts Sys MessageStore StoreSpec StoreRefine StoreReads.
From S2P Require Import StoreService Dispatcher ServerLogic ServerSpec DispatcherRefine ServerRun.
From S2P Require Import ServerSafety ServerDelivery ServerFaults Interleave.
Local Open Scope N_scope.

Definition two_users : UserStateService :=
  (bindUser 900 (Some 22) 2 (bindUser 900 (Some 21) 1 empty_service).1).1.

(** User 1 on connection 21, user 2 on connection 22, no message yet. *)
Definition s0 : server :=
  {| a_store := empty_store; a_users := two_users; a_live := {[21; 22]}; a_sent := [] |}.
Definition w0 : world :=
  {| w_db := (∅ : keyspace); w_tick := 0; w_users := two_users; w_live := {[21; 22]};
     w_out := [] |}.

Lemma w0_implements env : implements (R := ref_redis) env w0 s0.
Proof. constructor; [apply empty_db_rep|done..]. Qed.

Definition msg : MessageRecord := new_record 1000 1 1 2 "hi" "m-1".
Definition hello : ServerEvent := chat 21 2 1 2 "hi" "m-1".

(** The store after the message was created, delivered, acknowledged. *)
Definition with_record (r : MessageRecord) : store :=
  {| st_next := 1; st_msgs := {[1 := r]} |}.
Definition s_created : server := with_store (with_record msg) s0.
Definition s_delivered : server :=
  with_sent 21 (EnvelopeFactory.CreateAck 1000 2 1 true "")
    (with_store (st_mark_delivered 1000 1 (with_record msg)).1
      (with_sent 22 (push_of 1000 0 msg false) s_created)).
Definition s_acked : server :=
  with_store (st_mark_acked 1001 1 2 (a_store s_delivered)).1 s_delivered.

Lemma with_record_wf r :
  record_wf 1 r → store_wf (with_record r).
Proof.
  intros Hr. constructor; unfold with_record; cbn [st_msgs st_next].
  - intros id r' [<- <-]%lookup_singleton_Some. split; [done|lia].
  - intros id1 id2 r1 r2 [<- _]%lookup_singleton_Some [<- _]%lookup_singleton_Some. done.
  - done.
Qed.

Lemma msg_wf : record_wf 1 msg.
Proof. unfold record_wf. simpl. unfold two64, exact_score. lia. Qed.

Lemma hello_step : server_step s0 hello s_delivered.
Proof.
  apply (step_chat s0 21 (EnvelopeFactory.CreateChatRequest 6 2 1 2 "hi" "m-1") 1000 1000 (with_store (st_mark_delivered 1000 1 (with_record msg)).1
    (with_sent 22 (push_of 1000 0 msg false) s_created))); [done|by vm_compute|done|done|].
  apply (deliver_online msg s_created 22 1000 0 1000); [done|by vm_compute|done].
Qed.

Lemma ack_step : server_step s_delivered (acknowledge 22 1) s_acked.
Proof. by apply (step_ack s_delivered 22 (EnvelopeFactory.CreateAck 7 9 1 true "") 1001); [|vm_compute|]. Qed.

Definition exchange : list job := [Event hello; Event (acknowledge 22 1)].

Lemma exchange_run : fold_steps job_step exchange s0 s_acked.
Proof.
  apply (fold_cons _ (Event hello) _ s0 s_delivered); [exact hello_step|].
  apply (fold_cons _ (Event (acknowledge 22 1)) _ s_delivered s_acked); [exact ack_step|].
  constructor.
Qed.

(** ** The theorems on this run *)

Lemma s0_run_inv : run_inv (exchange ++ [Scan]) s0.
Proof.
  split_and!; [|done|].
  - repeat constructor.
  - intros id r Hr. cbn [a_store s0 empty_store st_msgs] in Hr. by rewrite lookup_empty in Hr.
Qed.

Lemma server_runs_witness :
  ∃ a', implements (R := ref_redis) quiet
      (serve quiet (exchange ++ [Scan]) w0) a' ∧
    fold_steps job_step (exchange ++ [Scan]) s0 a' ∧ retries_bounded a'.
Proof.
  apply (server_runs (R := ref_redis) quiet); [done|apply quiet_no_faults|apply s0_run_inv|].
  apply w0_implements.
Defined.

Lemma messages_persist_witness :
  ∃ r', st_msgs (a_store s_acked) !! 1 = Some r' ∧ same_identity (set_delivered 1000 msg) r'.
Proof.
  apply (messages_persist [Event (acknowledge 22 1)] s_delivered).
  - by apply (with_record_wf (set_delivered 1000 msg)).
  - econstructor; [exact ack_step|constructor].
  - by vm_compute.
Defined.

Lemma acked_only_by_receiver_witness :
  (∃ r, st_msgs (a_store s0) !! 1 = Some r ∧ status r = Acked) ∨
  ∃ before j after a1, exchange = before ++ j :: after ∧ fold_steps job_step before s0 a1 ∧
    acknowledges a1 1 (to_uid (set_acked 1001 (set_delivered 1000 msg))) j.
Proof.
  apply (acked_only_by_receiver exchange s0 s_acked);
    [apply store_wf_empty|apply exchange_run|by vm_compute|done].
Defined.

Lemma messages_are_requested_witness :
  ∃ before j after a1, exchange = before ++ j :: after ∧ fold_steps job_step before s0 a1 ∧
    requests a1 (set_acked 1001 (set_delivered 1000 msg)) j.
Proof.
  apply (messages_are_requested exchange s0 s_acked 1);
    [apply store_wf_empty|apply exchange_run|done|by vm_compute].
Defined.

Lemma pushes_reach_owners_witness :
  ∃ new, a_sent s_delivered = a_sent s0 ++ new ∧
    Forall (push_to_owner (a_users s_delivered) (a_live s_delivered)) new.
Proof. apply (pushes_reach_owners (Event hello)), hello_step. Defined.

(** ** A login with one message waiting *)

Definition s_waiting : server := with_store (with_record msg) s0.
Definition w_waiting : world := (run (exec (R := ref_redis) quiet) (createMessage 1 2 "hi" "m-1") w0).1.

Lemma call_world {T} (c : store_call T) env w a A' :
  implements (R := ref_redis) env w a → no_faults env → call_now env c w < exact_score → call_ok c (a_store a) →
  (call_spec c (call_now env c w) (a_store a)).1 = A' →
  implements env (run (exec env) (call_impl c) w).1 (with_store A' a).
Proof.
  intros Hw Hquiet Hnow Hok <-.
  destruct (service_call c (a_store a) w (imp_store _ _ _ Hw) Hnow Hok) as (k & d & -> & Hd).
  rewrite Hquiet in Hd. by apply implements_advance.
Qed.

Lemma w_waiting_implements : implements quiet w_waiting s_waiting.
Proof.
  by apply (call_world (CCreate 1 2 "hi" "m-1") quiet w0 s0); [apply w0_implements|apply quiet_no_faults|..].
Qed.

Lemma login_delivers_pending_witness :
  let w' := (run (exec quiet) (handle (login 22 2)) w_waiting).1 in
  pushes_of w' = [(22, 1)] ∧
  ∃ a' t rs out, implements quiet w' a' ∧ getConnByUid 2 (w_users w') = Some 22 ∧
    indexed (is_pending_for 2) created_at_ms (a_store s_waiting) rs ∧
    w_out w' = w_out w_waiting ++
      (render <$> (22, EnvelopeFactory.CreateLoginResponse t 1 true "") :: out) ∧
    replayed 2 22 (a_store s_waiting) rs out ∧
    (∀ r, r ∈ rs → status <$> (st_msgs (a_store a') !! msg_id r) = Some Delivered) ∧
    ∀ id r, st_msgs (a_store a') !! id = Some r → is_pending_for 2 r = false.
Proof.
  split; [vm_compute; reflexivity|].
  apply (login_delivers_pending quiet s_waiting 22 (EnvelopeFactory.CreateLoginRequest 5 1 2));
    [done|apply quiet_no_faults|apply w_waiting_implements|done|done|].
  apply (bool_decide_unpack _). by vm_compute.
Defined.

(** ** A scan ten seconds after a delivery *)

Definition delivered_msg : MessageRecord := set_delivered 1000 msg.
Definition s_overdue : server := with_store (with_record delivered_msg) s0.
Definition w_overdue : world := (run (exec (R := ref_redis) quiet) (markDelivered 1) w_waiting).1.

Lemma w_overdue_implements env : implements env w_overdue s_overdue.
Proof.
  apply (implements_env quiet).
  by apply (call_world (CDelivered 1) quiet w_waiting s_waiting);
    [apply w_waiting_implements|apply quiet_no_faults|..].
Qed.

Lemma s_overdue_bounded : retries_bounded s_overdue.
Proof. intros id r. cbn [s_overdue a_store with_store with_record st_msgs]. by intros [<- <-]%lookup_singleton_Some. Qed.

Definition ten_seconds_later : environment := example_env 11000 [].

Lemma scan_settles_witness :
  let w' := (run (exec ten_seconds_later) delivery_scan w_overdue).1 in
  pushes_of w' = [(22, 1)] ∧
  ∃ a' rs out, implements ten_seconds_later w' a' ∧
    indexed (ack_overdue 11000 kAckTimeoutMs) delivered_at_ms (a_store s_overdue) rs ∧
    w_out w' = w_out w_overdue ++ (render <$> out) ∧ pushed_again s_overdue rs out ∧
    (∀ r, r ∈ rs → ∃ r', st_msgs (a_store a') !! msg_id r = Some r' ∧ settled s_overdue r r') ∧
    ∀ id, ¬ id ∈ (msg_id <$> rs) → st_msgs (a_store a') !! id = st_msgs (a_store s_overdue) !! id.
Proof.
  split; [vm_compute; reflexivity|].
  apply (scan_settles ten_seconds_later s_overdue);
    [done|by intros n; destruct n|apply w_overdue_implements|apply s_overdue_bounded].
Defined.

(** ** Faults and interleavings *)

(** The reply of the create script is the third operation. *)
Lemma ack_means_stored_witness :
  ∃ a', implements (example_env 1000 [(2%nat, ReplyLost)])
      (run (exec (R := ref_redis) (example_env 1000 [(2%nat, ReplyLost)]))
        (handleChat 21 (EnvelopeFactory.CreateChatRequest 6 2 1 2 "hi" "m-1")) w0).1 a' ∧
    answered_chat 21 (EnvelopeFactory.CreateChatRequest 6 2 1 2 "hi" "m-1") s0 a'.
Proof.
  apply (ack_means_stored (R := ref_redis)); [done|split; done|done|apply w0_implements].
Defined.

Definition two_workers : list (sys unit) :=
  [for_each [hello] handle; for_each [acknowledge 22 1] handle; deliveryLoop 1].
Definition schedule : list nat := [0; 2; 0; 1; 0; 2; 0; 1; 0]%nat.
Definition scheduled := run_schedule (exec (example_env 1000 [(4%nat, ReplyLost)])) schedule
  (w0, two_workers).

Lemma scheduled_runs : (if scheduled is Some _ then true else false) = true.
Proof. vm_compute. reflexivity. Qed.

Lemma interleavings_consistent_witness :
  ∃ w' ts', scheduled = Some (w', ts') ∧ users_wf (w_users w') ∧
    ∃ A', db_rep (w_db w') A' ∧ rtc store_step empty_store A' ∧ persists empty_store A' ∧
      ∀ id1 id2 r1 r2, st_msgs A' !! id1 = Some r1 → st_msgs A' !! id2 = Some r2 →
        from_uid r1 = from_uid r2 → client_msg_id r1 = client_msg_id r2 → id1 = id2.
Proof.
  pose proof scheduled_runs as Hruns.
  destruct scheduled as [[w' ts']|] eqn:Hs; [|discriminate Hruns].
  exists w', ts'. split; [done|].
  apply (interleavings_consistent (R := ref_redis) (example_env 1000 [(4%nat, ReplyLost)]) 9
    w0 two_workers w' ts' empty_store).
  - done.
  - apply empty_db_rep.
  - by apply empty_room.
  - apply bindUser_wf, bindUser_wf, users_wf_empty.
  - apply Forall_cons_2; [left; exists [hello]; by repeat constructor|].
    apply Forall_cons_2; [left; exists [acknowledge 22 1]; by repeat constructor|].
    apply Forall_cons_2; [right; by exists 1%nat|by apply Forall_nil_2].
  - exact (run_schedule_steps _ schedule _ _ Hs).
Defined.
