(* ===== verification/ThreadPool.v ===== *)
(** * ShardedThreadPool (server/include/ShardedThreadPool.h)

    A pool of worker threads with one queue each.  The worker loop, [submit]
    and [stop] are split at the points where other threads can interfere: the
    mutex and the condition variable of each worker and the atomic flag. *)

From S2P Require Import Prelude.
Local Open Scope N_scope.

(** ** The shard of a key *)

(** [key ^= key >> 33] and [key *= c] on [uintptr_t] (64 bits). *)
Definition xorshift (key : N) : N := N.lxor key (N.shiftr key 33).
Definition mul64 (key c : N) : N := u64 (key * c).

Definition mix_key (key : N) : N :=
  let key := xorshift key in
  let key := mul64 key 0xff51afd7ed558ccd in
  let key := xorshift key in
  let key := mul64 key 0xc4ceb9fe1a85ec53 in
  xorshift key.

Definition shard (workers : nat) (key : N) : nat := N.to_nat (mix_key key mod N.of_nat workers).

Lemma xorshift_lt a : a < two64 → xorshift a < two64.
Proof.
  intros Ha. unfold xorshift. change two64 with (2 ^ 64) in *.
  destruct (N.eq_dec (N.lxor a (N.shiftr a 33)) 0) as [->|Hne]; [done|].
  apply N.log2_lt_pow2; [lia|]. eapply N.le_lt_trans; [apply N.log2_lxor|].
  rewrite N.log2_shiftr. destruct (N.eq_dec a 0) as [->|]; [done|].
  assert (N.log2 a < 64) by (apply N.log2_lt_pow2; lia). lia.
Qed.

(** Shifting twice leaves nothing of a 64-bit key. *)
Lemma xorshift_involutive a : a < two64 → xorshift (xorshift a) = a.
Proof.
  intros Ha. unfold xorshift. rewrite N.shiftr_lxor, N.shiftr_shiftr.
  assert (N.shiftr a (33 + 33) = 0) as ->.
  { rewrite N.shiftr_div_pow2. apply N.div_small. eapply N.lt_le_trans; [exact Ha|done]. }
  rewrite N.lxor_0_r, N.lxor_assoc, N.lxor_nilpotent. apply N.lxor_0_r.
Qed.

(** Multiplication by an odd constant has an inverse. *)
Lemma mul64_inverse c d a : (c * d) mod two64 = 1 → a < two64 → mul64 (mul64 a c) d = a.
Proof.
  intros Hcd Ha. unfold mul64, u64. rewrite N.Div0.mul_mod_idemp_l, <-N.mul_assoc.
  rewrite <-N.Div0.mul_mod_idemp_r, Hcd, N.mul_1_r. by apply N.mod_small.
Qed.

Definition unmix_key (key : N) : N :=
  xorshift (mul64 (xorshift (mul64 (xorshift key) 0x9cb4b2f8129337db)) 0x4f74430c22a54005).

Lemma unmix_mix key : key < two64 → unmix_key (mix_key key) = key.
Proof.
  intros Hk. unfold unmix_key, mix_key.
  assert (∀ a c, mul64 a c < two64) as Hm by (intros; apply u64_lt).
  rewrite xorshift_involutive by apply Hm.
  rewrite (mul64_inverse 0xc4ceb9fe1a85ec53) by (done || by apply xorshift_lt).
  rewrite xorshift_involutive by apply Hm.
  rewrite (mul64_inverse 0xff51afd7ed558ccd) by (done || by apply xorshift_lt).
  by apply xorshift_involutive.
Qed.

Lemma shard_lt n key : (0 < n)%nat → (shard n key < n)%nat.
Proof.
  intros Hn. unfold shard.
  assert (mix_key key mod N.of_nat n < N.of_nat n) by (apply N.mod_lt; lia). lia.
Qed.

(** ** State *)

Section pool.
Context {Task : Type}.

(** Where a worker thread is in its loop.  [Holding] and [Blocking] own the
    mutex: before and after the predicate of [cv.wait] was found false. *)
Inductive thread_pc :=
  | NotStarted | Top | Holding | Blocking | Waiting | Running (t : Task) | Exited.

Record Worker := { tasks : list Task; pc : thread_pc }.

(** [to_notify]: submitters that pushed and are about to call [notify_one].
    [stop_pos]: the next worker [stop] will notify; beyond the last it joins.
    [accepted] and [started] record, by worker, the tasks pushed and taken. *)
Record Pool := {
  workers_ : list Worker; stopped_ : bool; to_notify : list nat; stop_pos : option nat;
  accepted : list (nat * Task); started : list (nat * Task) }.

Definition new_pool (worker_count : nat) : Pool :=
  {| workers_ := replicate worker_count {| tasks := []; pc := NotStarted |};
     stopped_ := true; to_notify := []; stop_pos := None; accepted := []; started := [] |}.

Definition set_worker (i : nat) (w : Worker) (p : Pool) : Pool :=
  {| workers_ := <[i := w]> (workers_ p); stopped_ := stopped_ p; to_notify := to_notify p;
     stop_pos := stop_pos p; accepted := accepted p; started := started p |}.

Definition set_pc (c : thread_pc) (w : Worker) : Worker := {| tasks := tasks w; pc := c |}.

(** [start]: threads are created only from the stopped state. *)
Definition start (p : Pool) : Pool :=
  if negb (stopped_ p) then p
  else {| workers_ := set_pc Top <$> workers_ p; stopped_ := false; to_notify := to_notify p;
          stop_pos := None; accepted := accepted p; started := started p |}.

(** One step of worker [i]; [None] when it cannot move by itself. *)
Definition worker_step (i : nat) (p : Pool) : option Pool :=
  w ← workers_ p !! i;
  match pc w with
  | Top => Some (set_worker i (set_pc Holding w) p)
  | Holding =>
      match tasks w with
      | [] => if stopped_ p then Some (set_worker i (set_pc Exited w) p)
              else Some (set_worker i (set_pc Blocking w) p)
      | t :: rest =>
          Some {| workers_ := <[i := {| tasks := rest; pc := Running t |}]> (workers_ p);
                  stopped_ := stopped_ p; to_notify := to_notify p; stop_pos := stop_pos p;
                  accepted := accepted p; started := started p ++ [(i, t)] |}
      end
  | Blocking => Some (set_worker i (set_pc Waiting w) p)
  | Running _ => Some (set_worker i (set_pc Top w) p)
  | NotStarted | Waiting | Exited => None
  end.

Definition mutex_free (w : Worker) : bool :=
  match pc w with Holding | Blocking => false | _ => true end.

(** The check at the top of [submit]. *)
Definition submit_check (p : Pool) : bool :=
  negb (stopped_ p || bool_decide (workers_ p = [])).

(** The critical section of [submit]: [None] while the mutex is taken. *)
Definition submit_push (key : N) (t : Task) (p : Pool) : option (Pool * bool) :=
  let i := shard (length (workers_ p)) key in
  w ← workers_ p !! i;
  if negb (mutex_free w) then None
  else if stopped_ p then Some (p, false)
  else Some ({| workers_ := <[i := {| tasks := tasks w ++ [t]; pc := pc w |}]> (workers_ p);
                stopped_ := stopped_ p; to_notify := i :: to_notify p; stop_pos := stop_pos p;
                accepted := accepted p ++ [(i, t)]; started := started p |}, true).

(** A notification wakes the worker if it waits and is lost otherwise. *)
Definition wake (w : Worker) : Worker :=
  match pc w with Waiting => set_pc Top w | _ => w end.

Definition notify_one (p : Pool) : option Pool :=
  match to_notify p with
  | [] => None
  | i :: rest =>
      Some {| workers_ := alter wake i (workers_ p); stopped_ := stopped_ p; to_notify := rest;
              stop_pos := stop_pos p; accepted := accepted p; started := started p |}
  end.

(** [stop]: set the flag, notify every worker in turn, join. *)
Definition stop_set (p : Pool) : Pool :=
  {| workers_ := workers_ p; stopped_ := true; to_notify := to_notify p; stop_pos := Some 0%nat;
     accepted := accepted p; started := started p |}.

Definition stop_notify (p : Pool) : option Pool :=
  match stop_pos p with
  | None => None
  | Some i =>
      if decide (i < length (workers_ p))%nat then
        Some {| workers_ := alter wake i (workers_ p); stopped_ := stopped_ p;
                to_notify := to_notify p; stop_pos := Some (S i);
                accepted := accepted p; started := started p |}
      else None
  end.

Definition joinable (w : Worker) : bool :=
  match pc w with NotStarted => false | _ => true end.
Definition thread_done (w : Worker) : bool :=
  match pc w with NotStarted | Exited => true | _ => false end.

(** Every [join] of [stop] returns. *)
Definition joined (p : Pool) : bool := forallb thread_done (workers_ p).

Definition getQueueSizes (p : Pool) : list nat := (λ w, length (tasks w)) <$> workers_ p.

(** ** Steps

    The workers, the pending notifications and the thread in [stop] move by
    themselves, in any order; a sleeping worker may also wake for no reason. *)
Inductive pool_internal : Pool → Pool → Prop :=
| step_worker i p p' : worker_step i p = Some p' → pool_internal p p'
| step_notify p p' : notify_one p = Some p' → pool_internal p p'
| step_spurious i w p : workers_ p !! i = Some w → pool_internal p (set_worker i (wake w) p)
| step_stop_notify p p' : stop_notify p = Some p' → pool_internal p p'.

(** A submitter that passed [submit_check] some time ago, and a call to
    [stop], interleave with them freely. *)
Inductive pool_step : Pool → Pool → Prop :=
| step_internal p p' : pool_internal p p' → pool_step p p'
| step_submit key t p p' b : submit_push key t p = Some (p', b) → pool_step p p'
| step_stop p : pool_step p (stop_set p).

(** The tasks recorded for worker [i], in order. *)
Definition of_worker (i : nat) (log : list (nat * Task)) : list Task :=
  snd <$> filter (λ x, x.1 = i) log.

(** ** Invariant

    A worker starts its accepted tasks in order; a finished or unborn thread
    has none left and the pool is stopped. *)
Record worker_ok (stopped : bool) (acc st : list Task) (w : Worker) : Prop := {
  ok_fifo : acc = st ++ tasks w;
  ok_done : thread_done w = true → tasks w = [] ∧ stopped = true;
  ok_running : ∀ t, pc w = Running t → last st = Some t }.

Record pool_wf (p : Pool) : Prop := {
  wf_workers : ∀ i w, workers_ p !! i = Some w →
    worker_ok (stopped_ p) (of_worker i (accepted p)) (of_worker i (started p)) w;
  wf_range : ∀ x, x ∈ accepted p ++ started p → (x.1 < length (workers_ p))%nat }.

Lemma of_worker_snoc i j t log :
  of_worker i (log ++ [(j, t)]) = of_worker i log ++ (if decide (j = i) then [t] else []).
Proof.
  unfold of_worker. rewrite filter_app, fmap_app. f_equal. rewrite filter_cons. simpl.
  by case_decide.
Qed.

Lemma of_worker_nil i log : (∀ x, x ∈ log → x.1 ≠ i) → of_worker i log = [].
Proof.
  intros Hlog. induction log as [|x log IH]; [done|]. unfold of_worker.
  rewrite filter_cons, decide_False by (apply Hlog; by left).
  apply IH. intros y Hy. apply Hlog. by right.
Qed.

Lemma logs_snoc {A} (x y : A) a b : x ∈ a ++ b ++ [y] → x ∈ a ++ b ∨ x = y.
Proof. rewrite app_assoc, elem_of_app, list_elem_of_singleton. tauto. Qed.

Lemma logs_swap {A} (x : A) a b : x ∈ a ++ b ↔ x ∈ b ++ a.
Proof. rewrite !elem_of_app. tauto. Qed.

(** A step of one worker that leaves its logs alone. *)
Lemma set_worker_wf i w w' p :
  pool_wf p → workers_ p !! i = Some w →
  (∀ acc st, worker_ok (stopped_ p) acc st w → worker_ok (stopped_ p) acc st w') →
  pool_wf (set_worker i w' p).
Proof.
  intros [Hw Hr] Hi Hok. split; cbn [workers_ stopped_ accepted started set_worker].
  - intros k v Hk. destruct (decide (k = i)) as [->|Hne].
    + rewrite list_lookup_insert_eq in Hk by by eapply lookup_lt_Some.
      injection Hk as <-. by apply Hok, Hw.
    + rewrite list_lookup_insert_ne in Hk by done. by apply Hw.
  - intros x. rewrite length_insert. apply Hr.
Qed.

Lemma set_pc_ok stopped acc st w c :
  worker_ok stopped acc st w →
  (thread_done (set_pc c w) = true → tasks w = [] ∧ stopped = true) →
  (∀ t, c ≠ Running t) → worker_ok stopped acc st (set_pc c w).
Proof. intros [Hf Hd Hr] Hdone Hc. split; [done|done|]. intros t Ht. by destruct (Hc t). Qed.

Lemma wake_ok stopped acc st w : worker_ok stopped acc st w → worker_ok stopped acc st (wake w).
Proof. unfold wake. intros Hok. destruct (pc w) eqn:Hpc; try done. by apply set_pc_ok. Qed.

Lemma alter_wake i (ws : list Worker) k v :
  alter wake i ws !! k = Some v → ∃ w, ws !! k = Some w ∧ (v = w ∨ v = wake w).
Proof.
  destruct (decide (k = i)) as [->|Hne].
  - rewrite list_lookup_alter_eq. destruct (ws !! i) as [w|]; [|done].
    intros [= <-]. eauto.
  - rewrite list_lookup_alter_ne by done. eauto.
Qed.

Lemma alter_wake_wf i p p' :
  pool_wf p → workers_ p' = alter wake i (workers_ p) → stopped_ p' = stopped_ p →
  accepted p' = accepted p → started p' = started p → pool_wf p'.
Proof.
  intros [Hw Hr] Hws Hs Ha Hst. split; rewrite ?Hws, ?Hs, ?Ha, ?Hst, ?length_alter; [|done].
  intros k v (w & Hk & [-> | ->])%alter_wake; [by apply Hw|by apply wake_ok, Hw].
Qed.

Lemma worker_step_wf i p p' : pool_wf p → worker_step i p = Some p' → pool_wf p'.
Proof.
  intros Hwf. unfold worker_step. destruct (workers_ p !! i) as [w|] eqn:Hi; [|done]. simpl.
  destruct (pc w) eqn:Hpc; try done.
  - intros [= <-]. eapply set_worker_wf; [done..|]. intros acc st Hok. by apply set_pc_ok.
  - destruct (tasks w) as [|t rest] eqn:Ht.
    + destruct (stopped_ p) eqn:Hs; intros [= <-]; (eapply set_worker_wf; [done..|]);
        intros acc st Hok; (apply set_pc_ok; [done| |done]); [by rewrite Ht|done].
    + intros [= <-]. destruct Hwf as [Hw Hr]. split; cbn [workers_ stopped_ accepted started].
      * intros k v Hk. rewrite of_worker_snoc. destruct (decide (k = i)) as [->|Hne].
        -- rewrite list_lookup_insert_eq in Hk by by eapply lookup_lt_Some. injection Hk as <-.
           rewrite decide_True by done. destruct (Hw _ _ Hi) as [Hf _ _]. split; [|done|].
           ++ by rewrite Hf, Ht, <-app_assoc.
           ++ intros t' [= <-]. by rewrite last_snoc.
        -- rewrite list_lookup_insert_ne in Hk by done. rewrite decide_False by done.
           rewrite app_nil_r. by apply Hw.
      * intros x Hx. rewrite length_insert. apply logs_snoc in Hx as [Hx| ->]; [by apply Hr|].
        by eapply lookup_lt_Some.
  - intros [= <-]. eapply set_worker_wf; [done..|]. intros acc st Hok. by apply set_pc_ok.
  - intros [= <-]. eapply set_worker_wf; [done..|]. intros acc st Hok. by apply set_pc_ok.
Qed.

Lemma submit_push_wf key t p p' b : pool_wf p → submit_push key t p = Some (p', b) → pool_wf p'.
Proof.
  intros Hwf. unfold submit_push. set (i := shard _ key).
  destruct (workers_ p !! i) as [w|] eqn:Hi; [|done]. simpl.
  destruct (mutex_free w) eqn:Hm; [|done]. simpl.
  destruct (stopped_ p) eqn:Hs; intros [= <- <-]; [done|].
  destruct Hwf as [Hw Hr]. split; cbn [workers_ stopped_ accepted started].
  - intros k v Hk. rewrite of_worker_snoc. destruct (decide (k = i)) as [->|Hne].
    + rewrite list_lookup_insert_eq in Hk by by eapply lookup_lt_Some. injection Hk as <-.
      rewrite decide_True by done. destruct (Hw _ _ Hi) as [Hf Hd Hrun]. split; [|intros Hdone|done].
      * by rewrite Hf, <-app_assoc.
      * destruct (Hd Hdone) as [_ Hst]. congruence.
    + rewrite list_lookup_insert_ne in Hk by done. rewrite decide_False by done.
      rewrite app_nil_r, <-Hs. by apply Hw.
  - intros x Hx. rewrite length_insert, (logs_swap x) in *. apply logs_snoc in Hx as [Hx| ->].
    + apply Hr. by rewrite logs_swap.
    + by eapply lookup_lt_Some.
Qed.

Lemma stop_notify_wake p p' :
  stop_notify p = Some p' →
  ∃ i, workers_ p' = alter wake i (workers_ p) ∧ stopped_ p' = stopped_ p ∧
    accepted p' = accepted p ∧ started p' = started p.
Proof.
  unfold stop_notify. destruct (stop_pos p) as [i|]; [|done]. case_decide; [|done].
  intros [= <-]. by exists i.
Qed.

Lemma notify_one_wake p p' :
  notify_one p = Some p' →
  ∃ i, workers_ p' = alter wake i (workers_ p) ∧ stopped_ p' = stopped_ p ∧
    accepted p' = accepted p ∧ started p' = started p.
Proof. unfold notify_one. destruct (to_notify p) as [|i]; [done|]. intros [= <-]. by exists i. Qed.

Lemma pool_internal_wf p p' : pool_wf p → pool_internal p p' → pool_wf p'.
Proof.
  intros Hwf Hs. destruct Hs as [i q q' Hq|q q' Hq|i w q Hi|q q' Hq].
  - by eapply worker_step_wf.
  - apply notify_one_wake in Hq as (i & ? & ? & ? & ?). by eapply alter_wake_wf.
  - eapply set_worker_wf; [done..|]. intros acc st. apply wake_ok.
  - apply stop_notify_wake in Hq as (i & ? & ? & ? & ?). by eapply alter_wake_wf.
Qed.

Lemma stop_set_wf p : pool_wf p → pool_wf (stop_set p).
Proof.
  intros [Hw Hr]. split; [|done]. intros k v Hk.
  destruct (Hw _ _ Hk) as [Hf Hd Hrun]. split; [done| |done]. intros Hdone. by destruct (Hd Hdone).
Qed.

Lemma pool_step_wf p p' : pool_wf p → pool_step p p' → pool_wf p'.
Proof.
  intros Hwf Hs. destruct Hs as [q q' Hq|key t q q' b Hq|q].
  - by eapply pool_internal_wf.
  - exact (submit_push_wf _ _ _ _ _ Hwf Hq).
  - by apply stop_set_wf.
Qed.

(** The workers alone accept nothing and leave the flag alone. *)
Lemma pool_internal_frame p p' :
  pool_internal p p' →
  length (workers_ p') = length (workers_ p) ∧ stopped_ p' = stopped_ p ∧ accepted p' = accepted p.
Proof.
  intros Hs. destruct Hs as [i q q' Hq|q q' Hq|i w q Hi|q q' Hq].
  - unfold worker_step in Hq. destruct (workers_ q !! i) as [w|]; [|done]. simpl in Hq.
    repeat case_match; simplify_eq; cbn [workers_ set_worker stopped_ accepted];
      by rewrite length_insert.
  - apply notify_one_wake in Hq as (i & -> & ? & ? & ?). by rewrite length_alter.
  - cbn. by rewrite length_insert.
  - apply stop_notify_wake in Hq as (i & -> & ? & ? & ?). by rewrite length_alter.
Qed.

Lemma submit_push_inv key t p p' b :
  submit_push key t p = Some (p', b) →
  length (workers_ p') = length (workers_ p) ∧ stopped_ p' = stopped_ p ∧
  if b then stopped_ p = false ∧ accepted p' = accepted p ++ [(shard (length (workers_ p)) key, t)]
  else stopped_ p = true ∧ p' = p.
Proof.
  unfold submit_push. destruct (workers_ p !! _) as [w|]; [|done]. simpl.
  destruct (mutex_free w); [|done]. simpl.
  destruct (stopped_ p) eqn:Hs; intros [= <- <-]; [done|]. cbn. by rewrite length_insert.
Qed.

Lemma start_wf n : pool_wf (start (new_pool n)).
Proof.
  split; [|by intros x ?%not_elem_of_nil]. intros i w Hi. cbn in Hi.
  rewrite fmap_replicate in Hi. apply lookup_replicate in Hi as [-> _]. by split.
Qed.

(** A pool some time after its start. *)
Definition reachable (n : nat) (p : Pool) : Prop := rtc pool_step (start (new_pool n)) p.

Lemma reachable_wf n p : reachable n p → pool_wf p.
Proof.
  intros Hp. eapply rtc_invariant; [|exact Hp|apply start_wf]. intros x y Hx Hxy.
  by eapply pool_step_wf.
Qed.
Lemma joined_done p i w :
  pool_wf p → joined p = true → workers_ p !! i = Some w → tasks w = [] ∧ stopped_ p = true.
Proof.
  intros [Hw _] Hj Hi. apply (ok_done _ _ _ _ (Hw _ _ Hi)).
  unfold joined in Hj. rewrite forallb_forall in Hj. apply Hj.
  apply list_elem_of_In. by eapply list_elem_of_lookup_2.
Qed.

(** ** Work left

    A bound on the steps the workers of a stopped pool can still make. *)
Definition awake (w : Worker) : Prop := pc w ≠ Blocking ∧ pc w ≠ Waiting.

Definition worker_work (w : Worker) : nat :=
  3 * length (tasks w) +
  match pc w with
  | NotStarted | Exited => 0 | Holding => 1 | Top => 2 | Running _ => 3 | Blocking | Waiting => 0
  end.

Definition work (p : Pool) : nat := sum_list_with worker_work (workers_ p).

Definition all_awake (p : Pool) : Prop :=
  stopped_ p = true ∧ ∀ i w, workers_ p !! i = Some w → awake w.

Definition worker_move (p p' : Pool) : Prop := ∃ i, worker_step i p = Some p'.

Lemma all_awake_insert p p' i w w' :
  all_awake p → workers_ p !! i = Some w → stopped_ p' = stopped_ p →
  workers_ p' = <[i := w']> (workers_ p) → awake w' → (worker_work w' < worker_work w)%nat →
  all_awake p' ∧ (work p' < work p)%nat.
Proof.
  intros [Hs Ha] Hi Hs' Hws Hw' Hlt. split; [split; [congruence|]|].
  - intros k v. rewrite Hws. destruct (decide (k = i)) as [->|Hne].
    + rewrite list_lookup_insert_eq by by eapply lookup_lt_Some. by intros [= <-].
    + rewrite list_lookup_insert_ne by done. apply Ha.
  - unfold work. rewrite Hws. pose proof (sum_insert worker_work _ i w w' Hi). lia.
Qed.

Lemma worker_move_work p p' :
  all_awake p → worker_move p p' → all_awake p' ∧ (work p' < work p)%nat.
Proof.
  intros Ha [i Hi]. pose proof Ha as [Hs Hws]. unfold worker_step in Hi.
  destruct (workers_ p !! i) as [w|] eqn:Hw; [|done]. simpl in Hi.
  destruct (Hws _ _ Hw) as [Hb Hwt].
  assert (∀ c, c ≠ Blocking ∧ c ≠ Waiting → (worker_work (set_pc c w) < worker_work w)%nat →
    all_awake (set_worker i (set_pc c w) p) ∧ (work (set_worker i (set_pc c w) p) < work p)%nat)
    as Hset by (intros c Hc Hlt; by eapply all_awake_insert).
  destruct (pc w) eqn:Hpc; try done; try (injection Hi as <-; apply Hset; [done|];
    unfold worker_work; rewrite Hpc; simpl; lia).
  destruct (tasks w) as [|t rest] eqn:Ht.
  - rewrite Hs in Hi. injection Hi as <-. apply Hset; [done|].
    unfold worker_work. rewrite Hpc. simpl. lia.
  - injection Hi as <-. eapply all_awake_insert; try done.
    unfold worker_work. rewrite Hpc, Ht. simpl. lia.
Qed.

Lemma worker_moves_work k p p' :
  all_awake p → nsteps worker_move k p p' → all_awake p' ∧ (work p' + k <= work p)%nat.
Proof.
  intros Ha Hk. induction Hk as [p|k p q r Hm _ IH]; [split; [done|lia]|].
  destruct (worker_move_work _ _ Ha Hm) as [Hq Hlt]. destruct (IH Hq) as [Hr Hle].
  split; [done|lia].
Qed.

Lemma stuck_done p i w :
  all_awake p → workers_ p !! i = Some w → worker_step i p = None → thread_done w = true.
Proof.
  intros [Hs Ha] Hi. destruct (Ha _ _ Hi) as [Hb Hw]. unfold worker_step, thread_done.
  rewrite Hi. simpl. destruct (pc w); try done. destruct (tasks w); [by rewrite Hs|done].
Qed.
End pool.

Arguments Pool : clear implicits.
Arguments Worker : clear implicits.
Arguments thread_pc : clear implicits.

(** The mixing of keys is a bijection of the 64-bit integers: distinct
    connection addresses stay distinct until the final remainder, so no keys
    are conflated by the mixing itself. *)
Theorem mix_key_injective a b : a < two64 → b < two64 → mix_key a = mix_key b → a = b.
Proof. intros Ha Hb Heq. rewrite <-(unmix_mix a Ha), Heq. by apply unmix_mix. Qed.

(** C23. Tasks of one shard run in order, one at a time.  At any moment after
    the start of the pool, whatever submitters, workers, notifications and a
    stop did, the tasks a worker has started are exactly the first of those
    accepted for it, in the order they were accepted, the rest is its queue,
    and the task it is running is the last one it started. *)
Theorem pool_fifo {Task} n (p : Pool Task) i w :
  reachable n p → workers_ p !! i = Some w →
  of_worker i (accepted p) = of_worker i (started p) ++ tasks w ∧
  ∀ t, pc w = Running t → last (of_worker i (started p)) = Some t.
Proof. intros Hp%reachable_wf Hi. by destruct (wf_workers _ Hp _ _ Hi). Qed.

(** A pool whose threads have all ended. *)
Lemma joined_drains {Task} (p : Pool Task) :
  pool_wf p → joined p = true →
  (∀ i, of_worker i (started p) = of_worker i (accepted p)) ∧
  ∀ key t p' b, submit_push key t p = Some (p', b) → p' = p ∧ b = false.
Proof.
  intros Hwf Hj.
  assert (∀ i w, workers_ p !! i = Some w → tasks w = [] ∧ stopped_ p = true) as Hdone
    by (intros i w; by apply joined_done). split.
  - intros i. destruct (workers_ p !! i) as [w|] eqn:Hi.
    + destruct (Hdone _ _ Hi) as [Ht _]. rewrite (ok_fifo _ _ _ _ (wf_workers _ Hwf _ _ Hi)), Ht.
      by rewrite app_nil_r.
    + apply lookup_ge_None in Hi. rewrite !of_worker_nil; [done|..];
        (intros x Hx; assert (x.1 < length (workers_ p))%nat by
          (apply (wf_range _ Hwf), elem_of_app; tauto); lia).
  - intros key t p' b. unfold submit_push.
    destruct (workers_ p !! _) as [w|] eqn:Hi; [|done]. simpl.
    destruct (Hdone _ _ Hi) as [_ ->]. destruct (mutex_free w); [|done]. by intros [= <- <-].
Qed.

Lemma joined_alter_wake {Task} (p : Pool Task) i :
  joined p = true → forallb thread_done (alter wake i (workers_ p)) = true.
Proof.
  unfold joined. rewrite !forallb_forall. intros Hj w [k Hk]%list_elem_of_In%list_elem_of_lookup.
  destruct (alter_wake _ _ _ _ Hk) as (v & Hv & [->| ->]);
    pose proof (Hj v (proj1 (list_elem_of_In _ _) (list_elem_of_lookup_2 _ _ _ Hv))) as Hd; [done|].
  unfold wake. by destruct (pc v) eqn:Hpc; unfold thread_done in *; rewrite ?Hpc in *.
Qed.

(** Such a pool stays so. *)
Lemma joined_internal {Task} (p p' : Pool Task) :
  joined p = true → pool_internal p p' → joined p' = true.
Proof.
  intros Hj Hst. destruct Hst as [i q q' Hw|q q' Hn|i w q Hi|q q' Hn].
  - exfalso. unfold worker_step in Hw. destruct (workers_ q !! i) as [w|] eqn:Hi; [|done].
    unfold joined in Hj. rewrite forallb_forall in Hj.
    pose proof (Hj w (proj1 (list_elem_of_In _ _) (list_elem_of_lookup_2 _ _ _ Hi))) as Hd.
    unfold thread_done in Hd. cbn in Hw. by destruct (pc w).
  - unfold notify_one in Hn. destruct (to_notify q) as [|i rest]; [done|]. injection Hn as <-.
    by apply joined_alter_wake.
  - pose proof (joined_alter_wake q i Hj) as H. unfold joined, set_worker. cbn.
    replace (<[i := wake w]> (workers_ q)) with (alter wake i (workers_ q)); [done|].
    apply list_eq. intros k. destruct (decide (k = i)) as [->|Hne].
    + rewrite list_lookup_alter_eq, Hi, list_lookup_insert_eq by by eapply lookup_lt_Some. done.
    + by rewrite list_lookup_alter_ne, list_lookup_insert_ne by done.
  - unfold stop_notify in Hn. destruct (stop_pos q) as [i|]; [|done]. case_decide; [|done].
    injection Hn as <-. by apply joined_alter_wake.
Qed.

(** C24. Stopping drains.  If [stop] returns, every task that was ever accepted
    has been started, and none is accepted any more. *)
Theorem stop_drains {Task} n (p : Pool Task) :
  reachable n p → joined p = true →
  (∀ i, of_worker i (started p) = of_worker i (accepted p)) ∧
  ∀ key t p' b, submit_push key t p = Some (p', b) → p' = p ∧ b = false.
Proof.
  intros Hr. apply joined_drains. by eapply reachable_wf.
Qed.

(** C32. [stop] returns when nobody sleeps.  Once the flag is set and no worker
    is in or about to enter [cv.wait], the workers make at most [work p] more
    steps in whatever order they are scheduled, and when none can move, every
    [join] returns. *)
Theorem stop_terminates {Task} k (p p' : Pool Task) :
  all_awake p → nsteps worker_move k p p' →
  (k <= work p)%nat ∧ ((∀ i, worker_step i p' = None) → joined p' = true).
Proof.
  intros Ha Hk. destruct (worker_moves_work _ _ _ Ha Hk) as [Ha' Hle]. split; [lia|].
  intros Hstuck. unfold joined. apply forallb_forall. intros w Hw.
  apply list_elem_of_In, list_elem_of_lookup_1 in Hw as [i Hi]. by eapply stuck_done.
Qed.

(** ** Concrete pools *)

(** A way to run a pool: the steps by name. *)
Inductive action := AWorker (i : nat) | ASubmit (key : N) (t : nat) | ANotify | AStop | AStopNotify.

Definition act (a : action) (p : Pool nat) : option (Pool nat) :=
  match a with
  | AWorker i => worker_step i p
  | ASubmit key t => fst <$> submit_push key t p
  | ANotify => notify_one p
  | AStop => Some (stop_set p)
  | AStopNotify => stop_notify p
  end.

Fixpoint acts (l : list action) (p : Pool nat) : option (Pool nat) :=
  match l with [] => Some p | a :: l => q ← act a p; acts l q end.

Lemma act_step a p p' : act a p = Some p' → pool_step p p'.
Proof.
  destruct a; simpl; intros Ha.
  - by eapply step_internal, step_worker.
  - apply fmap_Some in Ha as ([q b] & Hq & ->). by eapply step_submit.
  - by apply step_internal, step_notify.
  - injection Ha as <-. apply step_stop.
  - by apply step_internal, step_stop_notify.
Qed.

Lemma acts_reachable n l p : acts l (start (new_pool n)) = Some p → reachable n p.
Proof.
  unfold reachable. generalize (start (@new_pool nat n)) as q.
  induction l as [|a l IH]; simpl; intros q.
  - by intros [= ->].
  - destruct (act a q) as [q'|] eqn:Ha; [|done]. simpl. intros Hl.
    eapply rtc_l; [by eapply act_step|by apply IH].
Qed.

(** The worker finds nothing to do and is about to sleep; [stop], which takes
    no mutex, sets the flag and notifies before it does. *)
Definition lost_wakeup : list action :=
  [AWorker 0; AWorker 0; AStop; AStopNotify; AWorker 0].

(** C38. [stop] can hang.  It sets the flag and notifies without the mutex of
    the worker, so a worker that has just found its queue empty and the flag
    unset goes to sleep after the notification.  In that state the flag is
    set, [stop] has notified everybody, no notification is pending, no worker
    can move and [stop] does not return. *)
Theorem stop_can_hang :
  ∃ p : Pool nat, reachable 1 p ∧ stopped_ p = true ∧ stop_pos p = Some 1%nat ∧
    to_notify p = [] ∧ notify_one p = None ∧ stop_notify p = None ∧
    (∀ i, worker_step i p = None) ∧ joined p = false.
Proof.
  destruct (acts lost_wakeup (start (new_pool 1))) as [p|] eqn:Hp; [|done].
  exists p. split; [by eapply acts_reachable|]. injection Hp as <-.
  repeat (split; [done|]). split; [|done]. by intros [|[|i]].
Qed.

(** Two tasks accepted, the first one running. *)
Definition busy : list action :=
  [AWorker 0; AWorker 0; AWorker 0; ASubmit 7 1; ANotify; ASubmit 9 2; AWorker 0; AWorker 0].

Definition pool_of (l : list action) : Pool nat :=
  default (new_pool 0) (acts l (start (new_pool 1))).

Definition can (l : list action) : bool :=
  if acts l (start (new_pool 1)) is Some _ then true else false.

Lemma pool_of_reachable l : can l = true → reachable 1 (pool_of l).
Proof.
  unfold can, pool_of. destruct (acts l (start (new_pool 1))) as [p|] eqn:Hp; [|done].
  intros _. by apply (acts_reachable _ l).
Qed.

Lemma mix_key_injective_witness : mix_key 0x7f00 ≠ mix_key 0x7f40 ∧ 0x7f00 = 0x7f00.
Proof.
  split; [vm_compute; discriminate|].
  apply mix_key_injective; [done..|reflexivity].
Defined.

Lemma pool_fifo_witness :
  of_worker 0 (accepted (pool_of busy)) = [1; 2]%nat ∧
  ∀ t, pc {| tasks := [2]%nat; pc := Running 1%nat |} = Running t →
    last (of_worker 0 (started (pool_of busy))) = Some t.
Proof.
  split; [vm_compute; reflexivity|].
  refine (proj2 (pool_fifo 1 (pool_of busy) 0 {| tasks := [2]%nat; pc := Running 1%nat |} _ _)).
  - apply pool_of_reachable. vm_compute. reflexivity.
  - vm_compute. reflexivity.
Defined.

(** The same pool stopped: the second task still runs. *)
Definition drained : list action :=
  busy ++ [ANotify; AStop; AStopNotify] ++ replicate 6 (AWorker 0).

Lemma stop_drains_witness :
  joined (pool_of drained) = true ∧
  of_worker 0 (started (pool_of drained)) = of_worker 0 (accepted (pool_of drained)).
Proof.
  split; [vm_compute; reflexivity|]. apply (stop_drains 1).
  - apply pool_of_reachable. vm_compute. reflexivity.
  - vm_compute. reflexivity.
Defined.

Definition stopping : list action := busy ++ [ANotify; AStop; AStopNotify].

Lemma stop_terminates_witness :
  work (pool_of stopping) = 6%nat ∧ (0 <= work (pool_of stopping))%nat.
Proof.
  split; [vm_compute; reflexivity|].
  apply (stop_terminates 0 (pool_of stopping) (pool_of stopping)); [|constructor].
  split; [vm_compute; reflexivity|]. vm_compute. intros [|[|i]] w; [|done..]. by intros [= <-].
Defined.
