(* ===== verification/ChatServer.v ===== *)
(** * ChatServer (server/src/ChatServer.cpp) and the queueing of events
    (server/src/ServerEventDispatcher.cpp)

    Muduo calls [onConnection] and [onMessage] on the IO thread of a
    connection.  They keep a receive buffer per connection, decode it, and hand
    the events to the dispatcher, whose pool runs them on its workers. *)

From S2P Require Import Prelude Decimal Message WireInstance Codec UserState Prog Redis Scripts.
From S2P Require Import Sys MessageStore Dispatcher ThreadPool.
Local Open Scope N_scope.

(** ** Sessions *)

Record ClientSession := { session_conn : Conn; recv_buffer : bytes }.

Abbreviation sessions := (gmap Conn ClientSession).

(** What a callback does besides changing the table: the events it hands to
    the dispatcher, in order, and whether it calls [conn->shutdown()]. *)
Record callback_result := { cb_sessions : sessions; cb_events : list ServerEvent; cb_shutdown : bool }.

Section server.
Context {P : Protobuf}.

Definition findSessionLocked (c : Conn) (t : sessions) : option ClientSession := t !! c.

Definition onConnection (c : Conn) (connected : bool) (t : sessions) : callback_result :=
  if connected then
    {| cb_sessions := <[c := {| session_conn := c; recv_buffer := [] |}]> t;
       cb_events := []; cb_shutdown := false |}
  else
    {| cb_sessions := if t !! c is Some _ then delete c t else t;
       cb_events := [ConnectionClosed c]; cb_shutdown := false |}.

Definition decode_failed (st : DecodeStatus) : bool :=
  match st with kInvalidLength | kParseError => true | _ => false end.

Definition onMessage (c : Conn) (input : bytes) (t : sessions) : callback_result :=
  match findSessionLocked c t with
  | None => {| cb_sessions := t; cb_events := []; cb_shutdown := true |}
  | Some session =>
      let recv := recv_buffer session ++ input in
      let decode_result := DecodeAll recv kDefaultMaxFrameLength in
      let recv' := if 0 <? consumed_bytes decode_result
                   then drop (N.to_nat (consumed_bytes decode_result)) recv else recv in
      let t' := <[c := {| session_conn := session_conn session; recv_buffer := recv' |}]> t in
      if decode_failed (Codec.status decode_result)
      then {| cb_sessions := t'; cb_events := []; cb_shutdown := true |}
      else {| cb_sessions := t'; cb_events := EnvelopeEvent c <$> envelopes decode_result;
              cb_shutdown := false |}
  end.

(** What the network does on a connection. *)
Inductive net_event := Up | Data (input : bytes) | Down.

Definition callback (c : Conn) (n : net_event) (t : sessions) : callback_result :=
  match n with
  | Up => onConnection c true t
  | Data input => onMessage c input t
  | Down => onConnection c false t
  end.

(** A sequence of callbacks of one connection, and all the events they hand on. *)
Fixpoint callbacks (c : Conn) (ns : list net_event) (t : sessions) : sessions * list ServerEvent :=
  match ns with
  | [] => (t, [])
  | n :: ns =>
      let r := callback c n t in
      let (t', evs) := callbacks c ns (cb_sessions r) in (t', cb_events r ++ evs)
  end.

(** ** One connection at a time

    The same callbacks on the buffer of one connection. *)
Definition session_step (c : Conn) (buffer : option bytes) (n : net_event)
    : option bytes * list ServerEvent * bool :=
  match n, buffer with
  | Up, _ => (Some [], [], false)
  | Down, _ => (None, [ConnectionClosed c], false)
  | Data _, None => (None, [], true)
  | Data input, Some b =>
      let r := DecodeAll (b ++ input) kDefaultMaxFrameLength in
      let rest := drop (N.to_nat (consumed_bytes r)) (b ++ input) in
      if decode_failed (Codec.status r) then (Some rest, [], true)
      else (Some rest, EnvelopeEvent c <$> envelopes r, false)
  end.

Fixpoint session_run (c : Conn) (buffer : option bytes) (ns : list net_event)
    : option bytes * list ServerEvent :=
  match ns with
  | [] => (buffer, [])
  | n :: ns =>
      let '(b, evs, _) := session_step c buffer n in
      let (b', evs') := session_run c b ns in (b', evs ++ evs')
  end.

Definition session_events (c : Conn) (ns : list net_event) : list ServerEvent :=
  (session_run c None ns).2.

Definition buffer_of (c : Conn) (t : sessions) : option bytes := recv_buffer <$> (t !! c).

(** A callback acts on its connection as [session_step] does and leaves every
    other session alone. *)
Lemma callback_session c n t :
  let r := callback c n t in
  (buffer_of c (cb_sessions r), cb_events r, cb_shutdown r) = session_step c (buffer_of c t) n.
Proof.
  destruct n; simpl; unfold buffer_of.
  - by rewrite lookup_insert_eq.
  - unfold onMessage, findSessionLocked.
    destruct (t !! c) as [s|] eqn:Hs; [|simpl; by rewrite Hs].
    cbn [fmap option_fmap option_map].
    set (r := DecodeAll (recv_buffer s ++ input) _).
    assert ((if 0 <? consumed_bytes r then drop (N.to_nat (consumed_bytes r)) (recv_buffer s ++ input)
      else recv_buffer s ++ input) = drop (N.to_nat (consumed_bytes r)) (recv_buffer s ++ input)) as ->.
    { destruct (0 <? consumed_bytes r) eqn:E; [done|]. apply N.ltb_ge in E.
      by replace (consumed_bytes r) with 0 by lia. }
    destruct (decode_failed (Codec.status r)); cbn; by rewrite lookup_insert_eq.
  - destruct (t !! c) eqn:Hs; [by rewrite lookup_delete_eq|simpl; by rewrite Hs].
Qed.

Lemma callback_other c n t c' :
  c' ≠ c → cb_sessions (callback c n t) !! c' = t !! c'.
Proof.
  intros Hne. destruct n; simpl.
  - by rewrite lookup_insert_ne.
  - unfold onMessage, findSessionLocked. destruct (t !! c); [|done].
    destruct (decode_failed _); simpl; by rewrite lookup_insert_ne.
  - destruct (t !! c); [by rewrite lookup_delete_ne|done].
Qed.

(** The events of a callback belong to its connection. *)
Lemma callback_events_conn c n t ev : ev ∈ cb_events (callback c n t) → event_conn ev = c.
Proof.
  destruct n; simpl.
  - by intros ?%not_elem_of_nil.
  - unfold onMessage. destruct (findSessionLocked c t); [|by intros ?%not_elem_of_nil].
    destruct (decode_failed _); simpl; [by intros ?%not_elem_of_nil|].
    by intros (e & -> & _)%list_elem_of_fmap.
  - by intros ->%list_elem_of_singleton.
Qed.

Lemma callbacks_session c ns t :
  let (t', evs) := callbacks c ns t in
  (buffer_of c t', evs) = session_run c (buffer_of c t) ns.
Proof.
  induction ns as [|n ns IH] in t |- *; [done|]. cbn [callbacks session_run].
  pose proof (callback_session c n t) as Hcs. cbv zeta in Hcs.
  set (r := callback c n t) in *. specialize (IH (cb_sessions r)).
  destruct (callbacks c ns (cb_sessions r)) as [t' evs].
  destruct (session_step c (buffer_of c t) n) as [[b es] sd]. injection Hcs as Hb He _.
  rewrite Hb in IH. destruct (session_run c b ns) as [b' es']. injection IH as -> ->. by rewrite He.
Qed.

Lemma callbacks_events c ns t : (callbacks c ns t).2 = (session_run c (buffer_of c t) ns).2.
Proof.
  pose proof (callbacks_session c ns t) as H. destruct (callbacks c ns t) as [t' evs].
  by rewrite <-H.
Qed.

Lemma session_run_app c b ns1 ns2 :
  session_run c b (ns1 ++ ns2) =
    let (b1, evs1) := session_run c b ns1 in
    let (b2, evs2) := session_run c b1 ns2 in (b2, evs1 ++ evs2).
Proof.
  revert b. induction ns1 as [|n ns1 IH]; intros b; simpl.
  - by destruct (session_run c b ns2).
  - destruct (session_step c b n) as [[b' evs] sd]. rewrite IH.
    destruct (session_run c b' ns1) as [b1 evs1].
    destruct (session_run c b1 ns2) as [b2 evs2]. by rewrite app_assoc.
Qed.
End server.

(** ** Streams

    The events of a connection depend only on the bytes received. *)
Section streams.
Context {P : Protobuf} {PL : ProtobufLaws P}.

Local Abbreviation decode b := (DecodeAll b kDefaultMaxFrameLength).

(** The buffer [b] is what is left of the stream [d], of which the envelopes
    [es] were handed on. *)
Definition stream_state (d b : bytes) (es : list Envelope) : Prop :=
  let r := decode d in
  b = drop (N.to_nat (consumed_bytes r)) d ∧
  if decode_failed (Codec.status r) then es `prefix_of` envelopes r else es = envelopes r.

Lemma decode_split d1 d2 :
  let r1 := decode d1 in
  let r2 := decode (drop (N.to_nat (consumed_bytes r1)) d1 ++ d2) in
  decode (d1 ++ d2) =
    if decode_failed (Codec.status r1) then r1
    else {| Codec.status := Codec.status r2; envelopes := envelopes r1 ++ envelopes r2;
            consumed_bytes := consumed_bytes r1 + consumed_bytes r2 |}.
Proof.
  intros r1 r2. pose proof (DecodeAll_decodes kDefaultMaxFrameLength d1) as H1.
  pose proof (DecodeAll_decodes kDefaultMaxFrameLength
    (drop (N.to_nat (consumed_bytes r1)) d1 ++ d2)) as H2. fold r1 in H1. fold r2 in H2.
  cbv zeta in H1, H2. assert (kDefaultMaxFrameLength < 2147483648) as Hm by done.
  destruct (decode_failed (Codec.status r1)) eqn:Hf.
  - assert (stream_error (Codec.status r1)) as Hst
      by (unfold stream_error; destruct (Codec.status r1); auto; done).
    rewrite (decodes_DecodeAll _ _ _ _ _ (decodes_app_error _ Hm _ d2 _ _ _ H1 Hst)).
    by destruct r1.
  - assert (¬ stream_error (Codec.status r1)) as Hst
      by (intros [Hs|Hs]; rewrite Hs in Hf; done).
    by rewrite (decodes_DecodeAll _ _ _ _ _ (decodes_app _ Hm _ _ _ _ _ _ _ _ H1 Hst H2)).
Qed.

Lemma decode_consumed d : consumed_bytes (decode d) ≤ bsize d.
Proof. eapply decodes_consumed, DecodeAll_decodes. Qed.

(** What is left over after an error is the error. *)
Lemma decodes_rest max d es st c : decodes max d es st c → decodes max (drop (N.to_nat c) d) [] st 0.
Proof.
  induction 1 as [rest st Hn|rest e n es st c Hn Hd IH]; [by constructor|].
  by rewrite N2Nat.inj_add, <-drop_drop.
Qed.

Lemma decode_failed_again d1 d2 :
  let r1 := decode d1 in
  decode_failed (Codec.status r1) = true →
  decode (drop (N.to_nat (consumed_bytes r1)) d1 ++ d2) =
    {| Codec.status := Codec.status r1; envelopes := []; consumed_bytes := 0 |}.
Proof.
  intros r1 Hf. pose proof (DecodeAll_decodes kDefaultMaxFrameLength d1) as H1.
  cbv zeta in H1. fold r1 in H1. apply decodes_rest in H1. apply decodes_DecodeAll.
  apply decodes_app_error; [done..|]. unfold stream_error.
  destruct (Codec.status r1); auto; done.
Qed.

Lemma drop_rest d1 d2 n :
  N.of_nat n ≤ bsize d1 → drop n d1 ++ d2 = drop n (d1 ++ d2).
Proof. unfold bsize. intros Hn. by rewrite drop_app_le by lia. Qed.

(** One more read. *)
Lemma stream_state_read c d b es input b' evs sd :
  stream_state d b es → session_step c (Some b) (Data input) = (Some b', evs, sd) →
  ∃ es', evs = EnvelopeEvent c <$> es' ∧ stream_state (d ++ input) b' (es ++ es') ∧
    sd = decode_failed (Codec.status (decode (d ++ input))).
Proof.
  intros [-> Hes] Hs. pose proof (decode_split d input) as Hsp. cbn in Hsp, Hs.
  pose proof (decode_consumed d) as Hc. unfold stream_state. rewrite Hsp.
  destruct (decode_failed (Codec.status (decode d))) eqn:Hf.
  - rewrite (decode_failed_again _ input Hf) in Hs. cbn in Hs. rewrite Hf in Hs.
    injection Hs as <- <- <-. exists []. rewrite app_nil_r, Hf. split; [done|].
    split; [|done]. split; [|done]. apply drop_rest. lia.
  - subst es. set (r2 := decode (drop _ d ++ input)) in *.
    assert (drop (N.to_nat (consumed_bytes r2)) (drop (N.to_nat (consumed_bytes (decode d))) d ++ input)
      = drop (N.to_nat (consumed_bytes (decode d) + consumed_bytes r2)) (d ++ input)) as Hb.
    { rewrite drop_rest by lia. rewrite drop_drop. by rewrite N2Nat.inj_add. }
    rewrite Hb in Hs. cbn [Codec.status envelopes consumed_bytes].
    destruct (decode_failed (Codec.status r2)); injection Hs as <- <- <-.
    + exists []. rewrite app_nil_r. repeat split; try done. by apply prefix_app_r.
    + by exists (envelopes r2).
Qed.

Lemma session_run_data c d b es ds :
  stream_state d b es →
  ∃ es' b', session_run c (Some b) (Data <$> ds) = (Some b', EnvelopeEvent c <$> es') ∧
    stream_state (d ++ concat ds) b' (es ++ es').
Proof.
  revert d b es. induction ds as [|input ds IH]; intros d b es Hst; cbn [fmap list_fmap session_run].
  - exists [], b. by rewrite !app_nil_r.
  - destruct (session_step c (Some b) (Data input)) as [[ob evs] sd] eqn:Hs.
    assert (∃ b', ob = Some b') as [b' ->].
    { cbn in Hs. destruct (decode_failed _); injection Hs as <- _ _; eauto. }
    destruct (stream_state_read _ _ _ _ _ _ _ _ Hst Hs) as (es1 & -> & Hst1 & _).
    destruct (IH _ _ _ Hst1) as (es2 & b2 & Hr & Hst2). cbn [fmap list_fmap] in Hr. rewrite Hr.
    exists (es1 ++ es2), b2. rewrite fmap_app. split; [done|].
    cbn [concat]. by rewrite <-!app_assoc in Hst2.
Qed.

Lemma stream_state_nil : stream_state [] [] [].
Proof. by split. Qed.
End streams.

(** ** Properties of the stream *)
Section properties.
Context {P : Protobuf} {PL : ProtobufLaws P}.

(** C15. What the server makes of a connection does not depend on how TCP cuts
    the stream, nor on the other connections.  A connection that comes up, receives the chunks [ds] and goes
    down yields exactly the envelopes of the whole byte sequence, in order,
    followed by its closing; after a malformed frame it yields some prefix of
    the envelopes before that frame and nothing of what follows. *)
Theorem session_stream c t ds :
  let r := DecodeAll (concat ds) kDefaultMaxFrameLength in
  ∃ es, (callbacks c ([Up] ++ (Data <$> ds) ++ [Down]) t).2 =
    (EnvelopeEvent c <$> es) ++ [ConnectionClosed c] ∧
  if decode_failed (Codec.status r) then es `prefix_of` envelopes r else es = envelopes r.
Proof.
  intros r. destruct (session_run_data c [] [] [] ds stream_state_nil) as (es & b & Hr & _ & Hes).
  exists es. split; [|exact Hes]. rewrite callbacks_events, session_run_app.
  cbn [session_run session_step]. by rewrite session_run_app, Hr.
Qed.

(** C39. Valid requests can be lost with the malformed frame after them.  On
    any session, with anything left in its buffer: if [d] can be decoded and
    [bad] after it cannot, then in one read none of the envelopes that were
    decoded is handled, and in two reads all the envelopes of [d] are. *)
Theorem decoded_then_dropped c t b d bad :
  buffer_of c t = Some b →
  let r := DecodeAll (b ++ d) kDefaultMaxFrameLength in
  let r' := DecodeAll (b ++ d ++ bad) kDefaultMaxFrameLength in
  decode_failed (Codec.status r) = false → decode_failed (Codec.status r') = true →
  (callbacks c [Data (d ++ bad)] t).2 = [] ∧ envelopes r `prefix_of` envelopes r' ∧
  (callbacks c [Data d; Data bad] t).2 = EnvelopeEvent c <$> envelopes r.
Proof.
  intros Hb r r' Hr Hr'. rewrite !callbacks_events, Hb. cbn [session_run session_step].
  pose proof (decode_split (b ++ d) bad) as Hsp. cbv zeta in Hsp. rewrite <-app_assoc in Hsp.
  fold r r' in Hsp |- *. rewrite Hr in Hsp |- *. rewrite Hr'. split; [done|].
  set (r2 := DecodeAll (drop _ _ ++ bad) _) in *. rewrite Hsp in Hr' |- *.
  split; [by apply prefix_app_r|]. cbn [Codec.status] in Hr'. rewrite Hr'. cbn. by rewrite app_nil_r.
Qed.
End properties.

(** ** Concrete streams *)

(** A request, then a frame of length zero, in one read. *)
Definition spoiled_stream : bytes := Encode example_chat ++ htonl_bytes 0.

Definition spoiled_chunks : list bytes := [take 9 spoiled_stream; drop 9 spoiled_stream].

Lemma session_stream_witness :
  ∃ es, (callbacks 3 ([Up] ++ (Data <$> spoiled_chunks) ++ [Down]) ∅).2
      = (EnvelopeEvent 3 <$> es) ++ [ConnectionClosed 3] ∧ es `prefix_of` [example_chat].
Proof.
  pose proof (session_stream 3 ∅ spoiled_chunks) as (es & Hes & Hp).
  exists es. split; [exact Hes|]. vm_compute in Hp. exact Hp.
Defined.

Lemma decoded_then_dropped_witness :
  (callbacks 3 [Data (Encode example_chat ++ htonl_bytes 0)] (cb_sessions (onConnection 3 true ∅))).2 = [] ∧
  [example_chat] `prefix_of` envelopes (DecodeAll spoiled_stream kDefaultMaxFrameLength) ∧
  (callbacks 3 [Data (Encode example_chat); Data (htonl_bytes 0)] (cb_sessions (onConnection 3 true ∅))).2 =
    [EnvelopeEvent 3 example_chat].
Proof.
  assert (envelopes (DecodeAll (Encode example_chat) kDefaultMaxFrameLength) = [example_chat]) as He
    by (vm_compute; reflexivity).
  pose proof (decoded_then_dropped 3 (cb_sessions (onConnection 3 true ∅)) [] (Encode example_chat)
    (htonl_bytes 0) eq_refl) as H.
  cbv zeta in H. rewrite app_nil_l, He in H. apply H; vm_compute; reflexivity.
Defined.

