(* ===== verification/ServerFront.v ===== *)
(** * From the network to the workers

    The IO threads of [ChatServer], the queueing half of
    [ServerEventDispatcher] (server/src/ServerEventDispatcher.cpp, first part)
    and its pool, interleaved: the order in which the events of a connection
    reach a worker. *)

From S2P Require Import Prelude Decimal Message WireInstance Codec UserState Prog Redis Scripts.
From S2P Require Import Sys MessageStore Dispatcher ThreadPool ChatServer.
Local Open Scope N_scope.

Section front.
Context {P : Protobuf}.

(** ** State

    [handing] is what the IO thread of a connection is still to enqueue: the
    events of the current callback, and whether the first of them has passed
    the tests of [enqueueEnvelope] and [submit].  [history] and [lost] record
    the network events and the events whose enqueueing returned [false]. *)
Record Front := {
  sessionsTable_ : sessions;
  disp_stopped : bool; delivery_worker_ : bool; pool_ : Pool ServerEvent;
  handing : gmap Conn (bool * list ServerEvent);
  history : list (Conn * net_event); lost : list ServerEvent }.

Definition new_front : Front :=
  {| sessionsTable_ := ∅; disp_stopped := true; delivery_worker_ := false;
     pool_ := new_pool kBusinessWorkerCount; handing := ∅; history := []; lost := [] |}.

Definition set_pool (p : Pool ServerEvent) (s : Front) : Front :=
  {| sessionsTable_ := sessionsTable_ s; disp_stopped := disp_stopped s;
     delivery_worker_ := delivery_worker_ s; pool_ := p; handing := handing s;
     history := history s; lost := lost s |}.

Definition set_handing (c : Conn) (h : bool * list ServerEvent) (s : Front) : Front :=
  {| sessionsTable_ := sessionsTable_ s; disp_stopped := disp_stopped s;
     delivery_worker_ := delivery_worker_ s; pool_ := pool_ s; handing := <[c := h]> (handing s);
     history := history s; lost := lost s |}.

Definition add_lost (ev : ServerEvent) (s : Front) : Front :=
  {| sessionsTable_ := sessionsTable_ s; disp_stopped := disp_stopped s;
     delivery_worker_ := delivery_worker_ s; pool_ := pool_ s; handing := handing s;
     history := history s; lost := lost s ++ [ev] |}.

Definition in_hand (c : Conn) (s : Front) : bool * list ServerEvent :=
  default (false, []) (handing s !! c).

(** ** Starting and stopping the dispatcher *)

(** [ServerEventDispatcher::start]. *)
Definition dispatcher_start (s : Front) : Front :=
  if negb (disp_stopped s) then s
  else {| sessionsTable_ := sessionsTable_ s; disp_stopped := false; delivery_worker_ := true;
          pool_ := start (pool_ s); handing := handing s; history := history s; lost := lost s |}.

(** [ServerEventDispatcher::stop]: the critical section, then the pool.  The
    boolean tells whether the call goes on to stop the pool. *)
Definition dispatcher_stop (s : Front) : Front * bool :=
  if disp_stopped s then (s, false)
  else ({| sessionsTable_ := sessionsTable_ s; disp_stopped := true;
           delivery_worker_ := delivery_worker_ s; pool_ := pool_ s; handing := handing s;
           history := history s; lost := lost s |}, true).

(** ** Enqueueing

    [enqueueEnvelope] and [enqueueConnectionClosed] differ in the event only.
    Both test [stopped_] of the dispatcher, then [submit] tests its own; both
    flags are only ever set, so the two tests are one step. *)
Definition enqueue_checks (s : Front) : bool := negb (disp_stopped s) && submit_check (pool_ s).

Definition enqueue_test (c : Conn) (s : Front) : option Front :=
  match in_hand c s with
  | (false, ev :: rest) =>
      Some (if enqueue_checks s then set_handing c (true, ev :: rest) s
            else add_lost ev (set_handing c (false, rest) s))
  | _ => None
  end.

Definition enqueue_push (c : Conn) (s : Front) : option Front :=
  match in_hand c s with
  | (true, ev :: rest) =>
      '(p, ok) ← submit_push (EventShardKey ev) ev (pool_ s);
      let s' := set_handing c (false, rest) (set_pool p s) in
      Some (if (ok : bool) then s' else add_lost ev s')
  | _ => None
  end.

(** ** Callbacks

    The IO thread of a connection runs one callback after the other. *)
Definition network (c : Conn) (n : net_event) (s : Front) : option Front :=
  match (in_hand c s).2 with
  | _ :: _ => None
  | [] =>
      let r := callback c n (sessionsTable_ s) in
      Some {| sessionsTable_ := cb_sessions r; disp_stopped := disp_stopped s;
              delivery_worker_ := delivery_worker_ s; pool_ := pool_ s;
              handing := <[c := (false, cb_events r)]> (handing s);
              history := history s ++ [(c, n)]; lost := lost s |}
  end.

(** ** Status *)

Definition StatusMetric : Type := string * list N.

(** [ServerEventDispatcher::getStatus]. *)
Definition getStatus (s : Front) : list StatusMetric :=
  [("ThreadTaskNums", (λ n, u64 (N.of_nat n)) <$> getQueueSizes (pool_ s))].

Fixpoint join_numbers (l : list N) : string :=
  match l with
  | [] => ""
  | [n] => to_string n
  | n :: l => to_string n +:+ "," +:+ join_numbers l
  end.

(** [ChatServer::printStatus], the line printed. *)
Definition printStatus (s : Front) : string :=
  "server_status" +:+ String.concat "" ((λ m : StatusMetric, " " +:+ m.1 +:+ "=[" +:+ join_numbers m.2 +:+ "]") <$> getStatus s).

(** ** Steps *)

Inductive front_step : Front → Front → Prop :=
| front_network c n s s' : network c n s = Some s' → front_step s s'
| front_test c s s' : enqueue_test c s = Some s' → front_step s s'
| front_push c s s' : enqueue_push c s = Some s' → front_step s s'
| front_pool p s : pool_internal (pool_ s) p → front_step s (set_pool p s)
| front_stop s : front_step s (dispatcher_stop s).1
| front_stop_pool s : disp_stopped s = true → front_step s (set_pool (stop_set (pool_ s)) s).

Definition front_reachable (s : Front) : Prop := rtc front_step (dispatcher_start new_front) s.

(** ** The events of one connection *)

Definition of_conn (c : Conn) (evs : list ServerEvent) : list ServerEvent :=
  filter (λ ev, event_conn ev = c) evs.

Definition net_of (c : Conn) (h : list (Conn * net_event)) : list net_event :=
  snd <$> filter (λ x, x.1 = c) h.

Definition home (c : Conn) : nat := shard kBusinessWorkerCount c.

(** Everything decoded from [c] is accepted, refused or in hand, in order. *)
Record front_wf (s : Front) : Prop := {
  fw_pool : pool_wf (pool_ s);
  fw_workers : length (workers_ (pool_ s)) = kBusinessWorkerCount;
  fw_home : ∀ i ev, (i, ev) ∈ accepted (pool_ s) → i = home (event_conn ev);
  fw_buffer : ∀ c, buffer_of c (sessionsTable_ s) = (session_run c None (net_of c (history s))).1;
  fw_hand : ∀ c ev, ev ∈ (in_hand c s).2 → event_conn ev = c;
  fw_order : ∀ c, of_conn c (snd <$> accepted (pool_ s)) ++ of_conn c (lost s) ++ (in_hand c s).2
    = session_events c (net_of c (history s));
  fw_running : disp_stopped s = false → stopped_ (pool_ s) = false ∧ lost s = [];
  fw_lost : ∀ c, of_conn c (lost s) ≠ [] →
    stopped_ (pool_ s) = true ∨ (in_hand c s).1 = false }.

Lemma of_conn_app c l1 l2 : of_conn c (l1 ++ l2) = of_conn c l1 ++ of_conn c l2.
Proof. apply filter_app. Qed.

Lemma of_conn_snoc c l ev :
  of_conn c (l ++ [ev]) = of_conn c l ++ if decide (event_conn ev = c) then [ev] else [].
Proof. rewrite of_conn_app. unfold of_conn at 2. rewrite filter_cons. by case_decide. Qed.

Lemma net_of_snoc c h c' n :
  net_of c (h ++ [(c', n)]) = net_of c h ++ if decide (c' = c) then [n] else [].
Proof.
  unfold net_of. rewrite filter_app, fmap_app. f_equal. rewrite filter_cons. simpl. by case_decide.
Qed.

Lemma in_hand_insert c h s c' :
  in_hand c' (set_handing c h s) = if decide (c' = c) then h else in_hand c' s.
Proof.
  unfold in_hand, set_handing. cbn [handing]. case_decide as Hc.
  - by rewrite Hc, lookup_insert_eq.
  - by rewrite lookup_insert_ne.
Qed.

Lemma start_front_wf : front_wf (dispatcher_start new_front).
Proof.
  split; try done.
  - apply start_wf.
  - by intros i ev ?%not_elem_of_nil.
  - by intros c ev ?%not_elem_of_nil.
Qed.

(** A step of the pool that accepts nothing. *)
Lemma set_pool_wf p s :
  front_wf s → pool_wf p → length (workers_ p) = length (workers_ (pool_ s)) →
  accepted p = accepted (pool_ s) → (stopped_ (pool_ s) = true → stopped_ p = true) →
  (disp_stopped s = false → stopped_ p = false) → front_wf (set_pool p s).
Proof.
  intros [H1 H2 H3 H4 H5 H6 H7 H8] Hp Hl Ha Hs Hd. split; simpl; rewrite ?Ha; try done.
  - congruence.
  - intros Hd'. destruct (H7 Hd') as [_ ->]. split; [by apply Hd|done].
  - intros c Hc. destruct (H8 c Hc) as [|]; [left; by apply Hs|by right].
Qed.

Lemma network_wf c n s s' : front_wf s → network c n s = Some s' → front_wf s'.
Proof.
  intros [H1 H2 H3 H4 H5 H6 H7 H8]. unfold network.
  destruct (in_hand c s).2 as [|ev evs] eqn:Hh; [|done]. intros [= <-].
  set (r := callback c n (sessionsTable_ s)).
  pose proof (callback_session c n (sessionsTable_ s)) as Hcs. cbv zeta in Hcs. fold r in Hcs.
  rewrite H4 in Hcs.
  assert (∀ c', in_hand c' {| sessionsTable_ := cb_sessions r; disp_stopped := disp_stopped s;
    delivery_worker_ := delivery_worker_ s; pool_ := pool_ s;
    handing := <[c := (false, cb_events r)]> (handing s); history := history s ++ [(c, n)];
    lost := lost s |} = if decide (c' = c) then (false, cb_events r) else in_hand c' s) as Hin.
  { intros c'. apply (in_hand_insert c (false, cb_events r) s c'). }
  split; try done; cbn [sessionsTable_ pool_ history lost].
  - intros c'. rewrite net_of_snoc, session_run_app. destruct (decide (c = c')) as [<-|Hne].
    + destruct (session_run c None _) as [b evs'] eqn:Hb. cbn in Hcs |- *.
      destruct (session_step c b n) as [[b' e'] sd]. by injection Hcs as -> _ _.
    + unfold buffer_of. unfold r. rewrite callback_other by done. cbn. fold (buffer_of c' (sessionsTable_ s)).
      rewrite H4. by destruct (session_run c' None _).
  - intros c' ev. rewrite Hin. case_decide as Hc; [|apply H5]. subst c'. apply callback_events_conn.
  - intros c'. rewrite Hin, net_of_snoc. unfold session_events. rewrite session_run_app.
    specialize (H6 c'). unfold session_events in H6. destruct (decide (c' = c)) as [->|Hne].
    + rewrite decide_True by done. rewrite Hh, app_nil_r in H6.
      destruct (session_run c None _) as [b evs'] eqn:Hb. cbn in Hcs, H6 |- *.
      destruct (session_step c b n) as [[b' e'] sd]. injection Hcs as _ -> _. cbn.
      by rewrite app_assoc, H6, app_nil_r.
    + rewrite decide_False by done. rewrite H6. cbn.
      destruct (session_run c' None _). cbn. by rewrite app_nil_r.
  - intros c' Hc. rewrite Hin. case_decide; [by right|by apply H8].
Qed.

Lemma in_hand_lost c ev s : in_hand c (add_lost ev s) = in_hand c s.
Proof. done. Qed.

(** The first event in hand is refused for good. *)
Lemma refuse_wf c b ev rest s :
  front_wf s → in_hand c s = (b, ev :: rest) → disp_stopped s = true →
  front_wf (add_lost ev (set_handing c (false, rest) s)).
Proof.
  intros [H1 H2 H3 H4 H5 H6 H7 H8] Hh Hd.
  assert (event_conn ev = c) as Hc by (apply H5; rewrite Hh; left).
  split; try done; cbn [pool_ lost sessionsTable_ history disp_stopped add_lost set_handing].
  - intros c' ev'. rewrite in_hand_lost, in_hand_insert. case_decide as Hcc; [|apply H5].
    subst c'. intros Hev. apply H5. rewrite Hh. by right.
  - intros c'. rewrite in_hand_lost, in_hand_insert, of_conn_snoc, <-H6, Hc.
    destruct (decide (c = c')) as [<-|Hne].
    + by rewrite decide_True, Hh, <-app_assoc.
    + by rewrite decide_False, app_nil_r by congruence.
  - congruence.
  - intros c'. rewrite in_hand_lost, in_hand_insert, of_conn_snoc, Hc.
    destruct (decide (c = c')) as [<-|Hne]; [rewrite decide_True by done; by right|].
    rewrite decide_False by congruence. rewrite app_nil_r. apply H8.
Qed.

Lemma enqueue_test_wf c s s' : front_wf s → enqueue_test c s = Some s' → front_wf s'.
Proof.
  intros Hwf. unfold enqueue_test. destruct (in_hand c s) as [[] [|ev rest]] eqn:Hh; try done.
  destruct (enqueue_checks s) eqn:Hchk; intros [= <-].
  - apply andb_true_iff in Hchk as [Hd%negb_true_iff _].
    destruct Hwf as [H1 H2 H3 H4 H5 H6 H7 H8]. destruct (H7 Hd) as [_ Hlost].
    split; try done.
    + intros c' ev'. rewrite in_hand_insert. case_decide as Hc; [|apply H5]. subst c'.
      pose proof (H5 c ev') as Hev. by rewrite Hh in Hev.
    + intros c'. rewrite in_hand_insert. cbn. rewrite <-H6. case_decide as Hc; [|done].
      subst c'. by rewrite Hh.
    + intros c'. cbn. by rewrite Hlost.
  - eapply refuse_wf; [done..|]. destruct (disp_stopped s) eqn:Hd; [done|].
    destruct (fw_running _ Hwf Hd) as [Hs _]. unfold enqueue_checks, submit_check in Hchk.
    rewrite Hd, Hs in Hchk. cbn in Hchk. rewrite bool_decide_false in Hchk; [done|].
    intros Hw. pose proof (fw_workers _ Hwf) as Hl. by rewrite Hw in Hl.
Qed.

Lemma push_ok_wf c ev rest p s :
  front_wf s → in_hand c s = (true, ev :: rest) →
  submit_push (EventShardKey ev) ev (pool_ s) = Some (p, true) →
  front_wf (set_handing c (false, rest) (set_pool p s)).
Proof.
  intros [H1 H2 H3 H4 H5 H6 H7 H8] Hh Hp.
  assert (event_conn ev = c) as Hc by (apply H5; rewrite Hh; left).
  pose proof (submit_push_wf _ _ _ _ _ H1 Hp) as Hpwf.
  pose proof (submit_push_inv _ _ _ _ _ Hp) as (Hl & Hs & Hns & Ha).
  assert (of_conn c (lost s) = []) as Hlost.
  { destruct (of_conn c (lost s)) eqn:E; [done|]. destruct (H8 c) as [Hst|Hst]; [by rewrite E|..].
    - congruence.
    - by rewrite Hh in Hst. }
  assert (∀ c', in_hand c' (set_handing c (false, rest) (set_pool p s)) =
    if decide (c' = c) then (false, rest) else in_hand c' s) as Hin
    by (intros c'; apply (in_hand_insert c (false, rest) (set_pool p s) c')).
  split; try done; cbn [pool_ lost sessionsTable_ history disp_stopped set_pool set_handing].
  - congruence.
  - intros i ev'. rewrite Ha, elem_of_app, list_elem_of_singleton. intros [Hin'|[= -> ->]].
    + by apply H3.
    + by rewrite H2.
  - intros c' ev'. rewrite Hin. case_decide as Hcc; [|apply H5]. subst c'. intros Hev.
    apply H5. rewrite Hh. by right.
  - intros c'. rewrite Hin, Ha, fmap_app. cbn [fmap list_fmap snd]. rewrite of_conn_snoc, <-H6, Hc.
    destruct (decide (c = c')) as [<-|Hne].
    + by rewrite decide_True, Hlost, Hh, <-app_assoc.
    + by rewrite decide_False, app_nil_r by congruence.
  - rewrite Hs. apply H7.
  - intros c'. rewrite Hin, Hs. case_decide; [by right|apply H8].
Qed.

Lemma enqueue_push_wf c s s' : front_wf s → enqueue_push c s = Some s' → front_wf s'.
Proof.
  intros Hwf. unfold enqueue_push. destruct (in_hand c s) as [[] [|ev rest]] eqn:Hh; try done.
  destruct (submit_push _ _ _) as [[p ok]|] eqn:Hp; [|done]. cbn. intros [= <-].
  destruct ok; [by eapply push_ok_wf|].
  pose proof (submit_push_inv _ _ _ _ _ Hp) as (_ & _ & Hs & ->).
  assert (set_pool (pool_ s) s = s) as -> by (by destruct s).
  eapply refuse_wf; [done..|]. destruct (disp_stopped s) eqn:Hd; [done|].
  destruct (fw_running _ Hwf Hd). congruence.
Qed.

Lemma front_step_wf s s' : front_wf s → front_step s s' → front_wf s'.
Proof.
  intros Hwf Hst. destruct Hst as [c n s s' Hn|c s s' Ht|c s s' Hp|p s Hp|s|s Hd].
  - by eapply network_wf.
  - by eapply enqueue_test_wf.
  - by eapply enqueue_push_wf.
  - pose proof (pool_internal_frame _ _ Hp) as (Hl & Hs & Ha).
    apply set_pool_wf; [done|by eapply pool_internal_wf, Hp; apply Hwf|done..|congruence|].
    intros Hd. rewrite Hs. by apply (fw_running _ Hwf).
  - unfold dispatcher_stop. destruct (disp_stopped s) eqn:Hd; [done|]. cbn.
    destruct Hwf as [H1 H2 H3 H4 H5 H6 H7 H8]. by split.
  - apply set_pool_wf; [done|apply stop_set_wf, Hwf|done..|congruence].
Qed.

Lemma front_reachable_wf s : front_reachable s → front_wf s.
Proof.
  intros Hs. eapply rtc_invariant; [|exact Hs|apply start_front_wf]. intros x y Hx Hxy.
  by eapply front_step_wf.
Qed.

(** All events of a connection are in one queue. *)
Lemma of_worker_home c i (log : list (nat * ServerEvent)) :
  (∀ j ev, (j, ev) ∈ log → j = home (event_conn ev)) →
  of_conn c (of_worker i log) = if decide (i = home c) then of_conn c (snd <$> log) else [].
Proof.
  intros Hlog. induction log as [|[j ev] log IH]; [by case_decide|].
  assert (j = home (event_conn ev)) as -> by (apply Hlog; left).
  assert (∀ j ev, (j, ev) ∈ log → j = home (event_conn ev)) as Hlog'
    by (intros j' ev' Hin; apply Hlog; by right).
  specialize (IH Hlog'). unfold of_worker. rewrite filter_cons. cbn [fst fmap list_fmap snd].
  unfold of_conn at 2. rewrite filter_cons. fold (of_conn c (snd <$> log)).
  destruct (decide (event_conn ev = c)) as [Hc|Hc].
  - rewrite Hc. case_decide as Hi.
    + rewrite decide_True by done. cbn [fmap list_fmap snd]. unfold of_conn at 1.
      rewrite filter_cons, decide_True by done. f_equal.
      fold (of_worker i log). fold (of_conn c (of_worker i log)). exact IH.
    + rewrite decide_False by congruence. exact IH.
  - destruct (decide (home (event_conn ev) = i)); [|exact IH]. cbn [fmap list_fmap snd]. unfold of_conn at 1.
    rewrite filter_cons, decide_False by done. exact IH.
Qed.
End front.

(** ** Properties *)
Section properties.
Context {P : Protobuf}.

(** C11. The events of a connection are handled in the order of its bytes.
    However the IO threads, the workers and a stop interleave, the events of
    connection [c] all go to one worker, and those it started, then those in
    its queue, then those refused, then those still in hand are exactly what
    the network events of [c] alone decode to, in order; events are refused
    only once the dispatcher is stopping. *)
Theorem connection_order s c w :
  front_reachable s → workers_ (pool_ s) !! home c = Some w →
  of_conn c (of_worker (home c) (started (pool_ s))) ++ of_conn c (tasks w)
    ++ of_conn c (lost s) ++ (in_hand c s).2 = session_events c (net_of c (history s)) ∧
  (disp_stopped s = false → lost s = []) ∧
  ∀ i, i ≠ home c → of_conn c (of_worker i (accepted (pool_ s))) = [].
Proof.
  intros Hs%front_reachable_wf Hw. split; [|split].
  - rewrite <-(fw_order _ Hs), app_assoc. f_equal. rewrite <-of_conn_app.
    rewrite <-(ok_fifo _ _ _ _ (wf_workers _ (fw_pool _ Hs) _ _ Hw)).
    rewrite of_worker_home by apply (fw_home _ Hs). by rewrite decide_True.
  - intros Hd. by destruct (fw_running _ Hs Hd).
  - intros i Hi. rewrite of_worker_home by apply (fw_home _ Hs). by rewrite decide_False.
Qed.
End properties.

(** ** A concrete front end *)

Inductive front_action :=
  | FNetwork (c : Conn) (n : net_event) | FTest (c : Conn) | FPush (c : Conn) | FWorker (i : nat)
  | FNotify | FStop.

Definition front_act (a : front_action) (s : Front) : option Front :=
  match a with
  | FNetwork c n => network c n s
  | FTest c => enqueue_test c s
  | FPush c => enqueue_push c s
  | FWorker i => p ← worker_step i (pool_ s); Some (set_pool p s)
  | FNotify => p ← notify_one (pool_ s); Some (set_pool p s)
  | FStop => Some (dispatcher_stop s).1
  end.

Fixpoint front_acts (l : list front_action) (s : Front) : option Front :=
  match l with [] => Some s | a :: l => t ← front_act a s; front_acts l t end.

Lemma front_act_step a s s' : front_act a s = Some s' → front_step s s'.
Proof.
  destruct a; cbn; intros Ha.
  - by eapply front_network.
  - by eapply front_test.
  - by eapply front_push.
  - destruct (worker_step i _) eqn:Hw; [|done]. injection Ha as <-.
    by eapply front_pool, step_worker.
  - destruct (notify_one _) eqn:Hn; [|done]. injection Ha as <-. by apply front_pool, step_notify.
  - injection Ha as <-. apply front_stop.
Qed.

Definition front_of (l : list front_action) : Front :=
  default new_front (front_acts l (dispatcher_start new_front)).

Definition front_can (l : list front_action) : bool :=
  if front_acts l (dispatcher_start new_front) is Some _ then true else false.

Lemma front_of_reachable l : front_can l = true → front_reachable (front_of l).
Proof.
  unfold front_can, front_of, front_reachable. generalize (dispatcher_start new_front) as q.
  induction l as [|a l IH]; cbn; intros q; [done|].
  destruct (front_act a q) as [q'|] eqn:Ha; [|done]. cbn. intros Hl.
  eapply rtc_l; [by eapply front_act_step|by apply IH].
Qed.

(** A connection sends two requests, cut in the middle of the second; its
    worker has started the first, and the connection goes down. *)
Definition two_requests : bytes := Encode example_chat ++ Encode example_chat.

Definition front_example : list front_action :=
  [FNetwork 16 Up; FNetwork 16 (Data (take 200 two_requests)); FTest 16; FPush 16;
   FNetwork 16 (Data (drop 200 two_requests)); FWorker (home 16); FWorker (home 16);
   FTest 16; FPush 16; FNetwork 16 Down; FTest 16].

Definition front_queue : list ServerEvent := [EnvelopeEvent 16 example_chat].

Definition front_worker : Worker ServerEvent :=
  default {| tasks := []; pc := NotStarted |} (workers_ (pool_ (front_of front_example)) !! home 16).

Lemma connection_order_witness :
  tasks front_worker = front_queue ∧
  of_conn 16 (of_worker (home 16) (started (pool_ (front_of front_example))))
    ++ of_conn 16 (tasks front_worker) ++ of_conn 16 (lost (front_of front_example))
    ++ (in_hand 16 (front_of front_example)).2
  = session_events 16 (net_of 16 (history (front_of front_example))).
Proof.
  split; [vm_compute; reflexivity|].
  refine (proj1 (connection_order (front_of front_example) 16 front_worker _ _)).
  - apply front_of_reachable. vm_compute. reflexivity.
  - vm_compute. reflexivity.
Defined.
