(* ===== verification/Lifecycle.v ===== *)
(** * The life of the server (server/main_service.cpp and
    server/src/ChatServer.cpp, constructor, start and logging)

    [ChatServer::start] wires the callbacks into Muduo, starts the dispatcher,
    listens, runs the event loop and stops the dispatcher.  Its thread
    interleaves with the IO threads, the workers and the delivery thread. *)

From S2P Require Import Prelude Decimal Message WireInstance Codec UserState Prog Redis Scripts.
From S2P Require Import Sys MessageStore Dispatcher ThreadPool ChatServer ServerFront.
Local Open Scope N_scope.

(** ** Construction and logging *)

Inductive LogOutput := kFile | kTerminal.

Record ChatServer := { port_ : N; thread_num_ : Z; enable_status_output_ : bool }.

Definition kLogRollSize : Z := 500 * 1000 * 1000.

(** The log file, and whether Muduo writes to it. *)
Record AsyncLogging := { log_name : string; roll_size : Z; log_started : bool; appended : list string }.

Record Logging := { g_async_logging : option AsyncLogging; to_async : bool }.

Definition terminal_logging : Logging := {| g_async_logging := None; to_async := false |}.

Definition configureLogging (log_output : LogOutput) (l : Logging) : Logging :=
  match log_output with
  | kTerminal => l
  | kFile =>
      {| g_async_logging := Some {| log_name := "server"; roll_size := kLogRollSize;
                                    log_started := true; appended := [] |};
         to_async := true |}
  end.

(** [asyncOutput]: the first [len] characters of [msg]. *)
Definition asyncOutput (msg : string) (len : nat) (l : Logging) : Logging :=
  match g_async_logging l with
  | None => l
  | Some a =>
      {| g_async_logging := Some {| log_name := log_name a; roll_size := roll_size a;
                                    log_started := log_started a;
                                    appended := appended a ++ [String.substring 0 len msg] |};
         to_async := to_async l |}
  end.

Definition new_ChatServer (port : N) (thread_num : Z) (log_output : LogOutput) (l : Logging)
    : ChatServer * Logging :=
  ({| port_ := port; thread_num_ := thread_num;
      enable_status_output_ := if log_output is kFile then true else false |},
   configureLogging log_output l).

(** [main] of main_service.cpp. *)
Definition main_server (l : Logging) : ChatServer * Logging := new_ChatServer 1556 16 kTerminal l.

Section lifecycle.
Context {P : Protobuf}.

(** ** Start

    Where the thread that called [start] is.  Of Muduo the record keeps what
    the sources give it: the number of IO threads, the callbacks, the timer, and
    whether the server listens.  [missed] are the network events no callback was
    set for. *)
Inductive start_pc :=
| AtThreadNum | AtConnectionCallback | AtMessageCallback | AtTimer | AtDispatcherStart
| AtServerStart | InLoop | AtDispatcherStop | AtPoolStop | AtPoolJoin | AtDeliveryJoin | Returned.

Record Process := {
  chat_server : ChatServer; at_op : start_pc; front : Front;
  io_threads : Z; connection_callback_ : bool; message_callback_ : bool; timer : option N;
  listening : bool; delivery_done : bool;
  missed : list (Conn * net_event); printed : list string }.

Definition new_process (s : ChatServer) : Process :=
  {| chat_server := s; at_op := AtThreadNum; front := new_front; io_threads := 0;
     connection_callback_ := false; message_callback_ := false; timer := None; listening := false;
     delivery_done := false; missed := []; printed := [] |}.

Definition with_front (f : Front) (p : Process) : Process :=
  {| chat_server := chat_server p; at_op := at_op p; front := f; io_threads := io_threads p;
     connection_callback_ := connection_callback_ p; message_callback_ := message_callback_ p;
     timer := timer p; listening := listening p; delivery_done := delivery_done p;
     missed := missed p; printed := printed p |}.

Definition goto (l : start_pc) (p : Process) : Process :=
  {| chat_server := chat_server p; at_op := l; front := front p; io_threads := io_threads p;
     connection_callback_ := connection_callback_ p; message_callback_ := message_callback_ p;
     timer := timer p; listening := listening p; delivery_done := delivery_done p;
     missed := missed p; printed := printed p |}.

Definition wire (n : Z) (cc mc : bool) (t : option N) (li : bool) (p : Process) : Process :=
  {| chat_server := chat_server p; at_op := at_op p; front := front p; io_threads := n;
     connection_callback_ := cc; message_callback_ := mc; timer := t; listening := li;
     delivery_done := delivery_done p; missed := missed p; printed := printed p |}.

(** Every worker has been notified and has ended. *)
Definition pool_joined (q : Pool ServerEvent) : bool :=
  bool_decide (stop_pos q = Some (length (workers_ q))) && joined q.

(** The next operation of [ChatServer::start]; [None] where it waits: in the
    loop, and in the two joins of [ServerEventDispatcher::stop]. *)
Definition main_step (p : Process) : option Process :=
  let n := io_threads p in let cc := connection_callback_ p in
  let mc := message_callback_ p in let t := timer p in let li := listening p in
  match at_op p with
  | AtThreadNum => Some (goto AtConnectionCallback (wire (thread_num_ (chat_server p)) cc mc t li p))
  | AtConnectionCallback => Some (goto AtMessageCallback (wire n true mc t li p))
  | AtMessageCallback => Some (goto AtTimer (wire n cc true t li p))
  | AtTimer =>
      Some (goto AtDispatcherStart
        (if enable_status_output_ (chat_server p) then wire n cc mc (Some 1) li p else p))
  | AtDispatcherStart => Some (goto AtServerStart (with_front (dispatcher_start (front p)) p))
  | AtServerStart => Some (goto InLoop (wire n cc mc t true p))
  | InLoop => None
  | AtDispatcherStop =>
      let (f, stops) := dispatcher_stop (front p) in
      Some (goto (if stops : bool then AtPoolStop else Returned) (with_front f p))
  | AtPoolStop => Some (goto AtPoolJoin (with_front (set_pool (stop_set (pool_ (front p))) (front p)) p))
  | AtPoolJoin => if pool_joined (pool_ (front p)) then Some (goto AtDeliveryJoin p) else None
  | AtDeliveryJoin =>
      if negb (delivery_worker_ (front p)) || delivery_done p then Some (goto Returned p) else None
  | Returned => None
  end.

(** A network event, once the server listens. *)
Definition served (n : net_event) (p : Process) : bool :=
  match n with Data _ => message_callback_ p | Up | Down => connection_callback_ p end.

Definition receive_event (c : Conn) (n : net_event) (p : Process) : option Process :=
  if negb (listening p) then None
  else if served n p then f ← network c n (front p); Some (with_front f p)
  else Some {| chat_server := chat_server p; at_op := at_op p; front := front p;
               io_threads := io_threads p; connection_callback_ := connection_callback_ p;
               message_callback_ := message_callback_ p; timer := timer p; listening := listening p;
               delivery_done := delivery_done p; missed := missed p ++ [(c, n)]; printed := printed p |}.

(** The timer of the loop. *)
Definition tick_status (p : Process) : option Process :=
  match timer p, at_op p with
  | Some _, InLoop =>
      Some {| chat_server := chat_server p; at_op := at_op p; front := front p;
              io_threads := io_threads p; connection_callback_ := connection_callback_ p;
              message_callback_ := message_callback_ p; timer := timer p; listening := listening p;
              delivery_done := delivery_done p; missed := missed p;
              printed := printed p ++ [printStatus (front p)] |}
  | _, _ => None
  end.

(** [deliveryLoop] returns when it sees that the dispatcher is stopped. *)
Definition delivery_returns (p : Process) : option Process :=
  if delivery_worker_ (front p) && disp_stopped (front p) then
    Some {| chat_server := chat_server p; at_op := at_op p; front := front p;
            io_threads := io_threads p; connection_callback_ := connection_callback_ p;
            message_callback_ := message_callback_ p; timer := timer p; listening := listening p;
            delivery_done := true; missed := missed p; printed := printed p |}
  else None.

(** The steps of the process.  Who ends the loop is outside. *)
Inductive proc_step : Process → Process → Prop :=
| proc_main p p' : main_step p = Some p' → proc_step p p'
| proc_quit p : at_op p = InLoop → proc_step p (goto AtDispatcherStop p)
| proc_receive c n p p' : receive_event c n p = Some p' → proc_step p p'
| proc_tick p p' : tick_status p = Some p' → proc_step p p'
| proc_delivery p p' : delivery_returns p = Some p' → proc_step p p'
| proc_test c f p : enqueue_test c (front p) = Some f → proc_step p (with_front f p)
| proc_push c f p : enqueue_push c (front p) = Some f → proc_step p (with_front f p)
| proc_pool q p : pool_internal (pool_ (front p)) q → proc_step p (with_front (set_pool q (front p)) p).

Definition proc_reachable (s : ChatServer) (p : Process) : Prop := rtc proc_step (new_process s) p.

(** ** Invariant *)

(** How far [start] has come. *)
Definition stage (l : start_pc) : nat :=
  match l with
  | AtThreadNum => 0 | AtConnectionCallback => 1 | AtMessageCallback => 2 | AtTimer => 3
  | AtDispatcherStart => 4 | AtServerStart => 5 | InLoop => 6 | AtDispatcherStop => 7
  | AtPoolStop => 8 | AtPoolJoin => 9 | AtDeliveryJoin => 10 | Returned => 11
  end.

Definition reached (n : nat) (p : Process) : Prop := (n <= stage (at_op p))%nat.

Record proc_wf (p : Process) : Prop := {
  pw_new : ¬ reached 5 p → front p = new_front;
  pw_started : reached 5 p → front_reachable (front p) ∧ delivery_worker_ (front p) = true;
  pw_running : reached 5 p → ¬ reached 8 p → disp_stopped (front p) = false;
  pw_stopping : reached 8 p → disp_stopped (front p) = true;
  pw_conn : reached 2 p → connection_callback_ p = true;
  pw_msg : reached 3 p → message_callback_ p = true;
  pw_timer : is_Some (timer p) → enable_status_output_ (chat_server p) = true;
  pw_printed : enable_status_output_ (chat_server p) = false → printed p = [];
  pw_listening : listening p = true → reached 6 p;
  pw_missed : missed p = [];
  pw_joined : reached 10 p → joined (pool_ (front p)) = true;
  pw_delivery : reached 11 p → delivery_done p = true }.

Ltac stages :=
  unfold reached in *;
  cbn [at_op goto with_front wire stage front connection_callback_ message_callback_ timer chat_server
       printed listening missed delivery_done set_pool pool_] in *.

Ltac by_stage :=
  repeat match goal with
  | H : (?a <= ?b)%nat → _ |- _ => first [specialize (H ltac:(lia)) | clear H]
  | H : ¬ (?a <= ?b)%nat → _ |- _ => first [specialize (H ltac:(lia)) | clear H]
  end.

Lemma new_process_wf s : proc_wf (new_process s).
Proof.
  split; try done; unfold new_process; stages; try (intros; lia). by intros [? [=]].
Qed.

(** What steps of the front do once the dispatcher has been started. *)
Record goes_on (f f' : Front) : Prop := {
  go_step : front_step f f';
  go_worker : delivery_worker_ f' = delivery_worker_ f;
  go_stopped : disp_stopped f' = disp_stopped f;
  go_joined : front_wf f → joined (pool_ f) = true → joined (pool_ f') = true }.

Lemma with_front_wf f p :
  proc_wf p → (¬ reached 5 p → f = front p) → (reached 5 p → goes_on (front p) f) →
  proc_wf (with_front f p).
Proof.
  intros [H1 H2 H3 H4 H5 H6 H7 H8 H9 H10 H11 H12] Hsame Hgo. split; try done; stages; cbn [front with_front].
  - intros H. rewrite Hsame by done. by apply H1.
  - intros H. destruct (H2 H) as [Hr Hw], (Hgo H) as [Hst Hw' _ _]. split; [by eapply rtc_r|congruence].
  - intros H H'. rewrite (go_stopped _ _ (Hgo H)). by apply H3.
  - intros H. rewrite (go_stopped _ _ (Hgo ltac:(lia))). by apply H4.
  - intros H. apply (go_joined _ _ (Hgo ltac:(lia))); [|by apply H11].
    apply front_reachable_wf, H2. lia.
Qed.

(** Before that nothing moves. *)
Lemma new_pool_still n (q : Pool ServerEvent) : pool_internal (new_pool n) q → q = new_pool n.
Proof.
  intros Hst. inversion Hst as [i ? ? Hw|? ? Hn|i w ? Hi|? ? Hn]; subst; try done.
  - unfold worker_step in Hw. destruct (workers_ (new_pool n) !! i) as [w|] eqn:Hi; [|done].
    cbn in Hi. by apply lookup_replicate in Hi as [-> _].
  - cbn in Hi. pose proof Hi as [-> _]%lookup_replicate. unfold set_worker, new_pool. cbn [wake pc].
    f_equal. by apply list_insert_id.
Qed.

Lemma new_front_hands c : in_hand c new_front = (false, []).
Proof. unfold in_hand. cbn. by rewrite lookup_empty. Qed.

Lemma test_wf c f p : proc_wf p → enqueue_test c (front p) = Some f → proc_wf (with_front f p).
Proof.
  intros Hp Ht. apply with_front_wf; [done|..].
  - intros H. unfold enqueue_test in Ht. by rewrite (pw_new _ Hp H), new_front_hands in Ht.
  - intros _. split; [by eapply front_test|..]; unfold enqueue_test in Ht;
      destruct (in_hand c (front p)) as [[] [|ev rest]]; try done; injection Ht as <-;
      by destruct (enqueue_checks (front p)).
Qed.

Lemma push_wf c f p : proc_wf p → enqueue_push c (front p) = Some f → proc_wf (with_front f p).
Proof.
  intros Hp Ht. apply with_front_wf; [done|..].
  - intros H. unfold enqueue_push in Ht. by rewrite (pw_new _ Hp H), new_front_hands in Ht.
  - intros _. pose proof Ht as Ht'. unfold enqueue_push in Ht'.
    destruct (in_hand c (front p)) as [[] [|ev rest]]; try done.
    destruct (submit_push _ _ _) as [[q ok]|] eqn:Hq; [|done]. cbn in Ht'. injection Ht' as <-.
    split; [by eapply front_push|by destruct ok..|].
    intros Hwf Hj. destruct (proj2 (joined_drains _ (fw_pool _ Hwf) Hj) _ _ _ _ Hq) as [-> ->]. done.
Qed.

Lemma pool_wf_step q p :
  proc_wf p → pool_internal (pool_ (front p)) q → proc_wf (with_front (set_pool q (front p)) p).
Proof.
  intros Hp Hq. apply with_front_wf; [done|..].
  - intros H. rewrite (pw_new _ Hp H) in *. by rewrite (new_pool_still _ _ Hq).
  - intros _. split; [by apply front_pool|done..|]. intros _ Hj. by eapply joined_internal.
Qed.

Lemma receive_wf c n p p' : proc_wf p → receive_event c n p = Some p' → proc_wf p'.
Proof.
  intros Hp. unfold receive_event. destruct (listening p) eqn:Hl; [|done].
  pose proof (pw_listening _ Hp Hl) as Hr. cbn [negb].
  assert (served n p = true) as ->
    by (destruct n; [apply (pw_conn _ Hp)|apply (pw_msg _ Hp)|apply (pw_conn _ Hp)]; stages; lia).
  destruct (network c n (front p)) as [f|] eqn:Hn; [|done]. intros [= <-].
  apply with_front_wf; [done|..].
  - intros H. destruct H. stages. lia.
  - intros _. split; [by eapply front_network|..]; unfold network in Hn;
      destruct (in_hand c (front p)).2; try done; by injection Hn as <-.
Qed.

Lemma tick_wf p p' : proc_wf p → tick_status p = Some p' → proc_wf p'.
Proof.
  intros [H1 H2 H3 H4 H5 H6 H7 H8 H9 H10 H11 H12]. unfold tick_status.
  destruct (timer p) eqn:Ht; [|done]. destruct (at_op p) eqn:Hat; try done. intros [= <-].
  split; stages; rewrite ?Hat, ?Ht in *; try done. by rewrite H7.
Qed.

Lemma delivery_wf p p' : proc_wf p → delivery_returns p = Some p' → proc_wf p'.
Proof.
  intros [H1 H2 H3 H4 H5 H6 H7 H8 H9 H10 H11 H12]. unfold delivery_returns.
  case_match; [|done]. intros [= <-]. split; stages; try done.
Qed.

Ltac settle :=
  split; stages; try done; try (intros; lia);
  try (match goal with H : listening ?p = true → _ |- listening ?p = true → _ =>
         intros Hl; specialize (H Hl); lia end).

Lemma main_step_wf p p' : proc_wf p → main_step p = Some p' → proc_wf p'.
Proof.
  intros [H1 H2 H3 H4 H5 H6 H7 H8 H9 H10 H11 H12] Hst. unfold main_step in Hst. cbv zeta in Hst.
  destruct (at_op p) eqn:Hat; try done; unfold reached in *; rewrite Hat in *; cbn [stage] in *; by_stage.
  - injection Hst as <-. settle.
  - injection Hst as <-. settle.
  - injection Hst as <-. settle.
  - destruct (enable_status_output_ (chat_server p)) eqn:He; injection Hst as <-; settle; by rewrite He.
  - injection Hst as <-. rewrite H1. settle. intros _. split; [apply rtc_refl|done].
  - injection Hst as <-. settle.
  - unfold dispatcher_stop in Hst. rewrite H3 in Hst. injection Hst as <-. settle.
    intros _. destruct H2 as [Hr Hw]. split; [|done]. eapply rtc_r; [exact Hr|].
    pose proof (front_stop (front p)) as Hs. unfold dispatcher_stop in Hs. by rewrite H3 in Hs.
  - injection Hst as <-. settle. intros _. destruct H2 as [Hr Hw]. split; [|done].
    eapply rtc_r; [exact Hr|]. by apply front_stop_pool.
  - destruct (pool_joined _) eqn:Hj; [|done]. injection Hst as <-. settle.
    intros _. by apply andb_true_iff in Hj as [_ ?].
  - destruct H2 as [Hr Hw]. rewrite Hw in Hst. cbn [negb orb] in Hst.
    destruct (delivery_done p) eqn:Hd; [|done]. injection Hst as <-. settle.
Qed.

Lemma proc_step_wf p p' : proc_wf p → proc_step p p' → proc_wf p'.
Proof.
  intros Hp Hst. destruct Hst as [p p' Hm|p Hat|c n p p' Hr|p p' Ht|p p' Hd|c f p Ht|c f p Ht|q p Hq].
  - by eapply main_step_wf.
  - destruct Hp as [H1 H2 H3 H4 H5 H6 H7 H8 H9 H10 H11 H12].
    unfold reached in *; rewrite Hat in *; cbn [stage] in *; by_stage. settle.
  - by eapply receive_wf.
  - by eapply tick_wf.
  - by eapply delivery_wf.
  - by eapply test_wf.
  - by eapply push_wf.
  - by eapply pool_wf_step.
Qed.

Lemma proc_reachable_wf s p : proc_reachable s p → proc_wf p.
Proof.
  intros Hp. eapply rtc_invariant; [|exact Hp|apply new_process_wf]. intros x y Hx Hxy.
  by eapply proc_step_wf.
Qed.

Lemma chat_server_kept s p : proc_reachable s p → chat_server p = s.
Proof.
  intros Hp. eapply (rtc_invariant proc_step (λ p, chat_server p = s)); [|exact Hp|done].
  intros x y <- Hst. destruct Hst as [p0 p' Hm|p0 Hat|c n p0 p' Hr|p0 p' Ht|p0 p' Hd|c f p0 Ht|c f p0 Ht|q p0 Hq];
    try done.
  - unfold main_step in Hm. cbv zeta in Hm. destruct (at_op p0); try done; try (by injection Hm as <-).
    + injection Hm as <-. by destruct (enable_status_output_ _).
    + destruct (dispatcher_stop _) as [f stops]. by injection Hm as <-.
    + destruct (pool_joined _); [|done]. by injection Hm as <-.
    + destruct (negb _ || _); [|done]. by injection Hm as <-.
  - unfold receive_event in Hr. destruct (listening p0); [|done]. cbn in Hr.
    destruct (served n p0); [|by injection Hr as <-].
    destruct (network c n (front p0)); [|done]. by injection Hr as <-.
  - unfold tick_status in Ht. destruct (timer p0), (at_op p0); try done. by injection Ht as <-.
  - unfold delivery_returns in Hd. destruct (_ && _); [|done]. by injection Hd as <-.
Qed.
End lifecycle.

(** ** Properties *)
Section properties.
Context {P : Protobuf}.

(** C13. From start to return.  However the thread in [ChatServer::start], the IO
    threads, the workers and the delivery thread interleave, no network event
    comes before the callbacks are set; while the event loop runs, nothing that
    was decoded is refused; a server that logs to the terminal prints no status.
    When [start] returns, the delivery thread has returned, no worker runs, and
    for each connection the events its worker has handled, then those refused,
    then those its IO thread still has in hand are what its bytes decode to. *)
Theorem server_lifecycle s p :
  proc_reachable s p →
  missed p = [] ∧
  (at_op p = InLoop → lost (front p) = []) ∧
  (enable_status_output_ s = false → printed p = []) ∧
  (at_op p = Returned →
    delivery_done p = true ∧
    (∀ i w t, workers_ (pool_ (front p)) !! i = Some w → pc w ≠ Running t) ∧
    ∀ c, of_conn c (of_worker (home c) (started (pool_ (front p)))) ++ of_conn c (lost (front p))
      ++ (in_hand c (front p)).2 = session_events c (net_of c (history (front p)))).
Proof.
  intros Hr. pose proof (proc_reachable_wf _ _ Hr) as Hp. split_and!.
  - apply (pw_missed _ Hp).
  - intros Hat. assert (reached 5 p ∧ ¬ reached 8 p) as [H5 H8] by (unfold reached; rewrite Hat; cbn; lia).
    apply (fw_running _ (front_reachable_wf _ (proj1 (pw_started _ Hp H5)))), (pw_running _ Hp H5 H8).
  - rewrite <-(chat_server_kept s p Hr). apply (pw_printed _ Hp).
  - intros Hat. assert (reached 11 p) as H11 by (unfold reached; by rewrite Hat).
    assert (front_wf (front p)) as Hf
      by (apply front_reachable_wf, (pw_started _ Hp); unfold reached in *; lia).
    assert (joined (pool_ (front p)) = true) as Hj
      by (apply (pw_joined _ Hp); unfold reached in *; lia).
    split_and!; [by apply (pw_delivery _ Hp)|..].
    + intros i w t Hi Hw. unfold joined in Hj. rewrite forallb_forall in Hj.
      pose proof (Hj w (proj1 (list_elem_of_In _ _) (list_elem_of_lookup_2 _ _ _ Hi))) as Hd.
      unfold thread_done in Hd. by rewrite Hw in Hd.
    + intros c. rewrite (proj1 (joined_drains _ (fw_pool _ Hf) Hj)), <-(fw_order _ Hf).
      f_equal. rewrite of_worker_home by apply (fw_home _ Hf). by rewrite decide_True.
Qed.
End properties.

(** ** A server that serves one connection *)

Inductive proc_action :=
  | PMain | PQuit | PReceive (c : Conn) (n : net_event) | PTick | PDelivery | PTest (c : Conn)
  | PPush (c : Conn) | PWorker (i : nat) | PNotify | PStopNotify.

Definition proc_act (a : proc_action) (p : Process) : option Process :=
  match a with
  | PMain => main_step p
  | PQuit => if at_op p is InLoop then Some (goto AtDispatcherStop p) else None
  | PReceive c n => receive_event c n p
  | PTick => tick_status p
  | PDelivery => delivery_returns p
  | PTest c => f ← enqueue_test c (front p); Some (with_front f p)
  | PPush c => f ← enqueue_push c (front p); Some (with_front f p)
  | PWorker i => q ← worker_step i (pool_ (front p)); Some (with_front (set_pool q (front p)) p)
  | PNotify => q ← notify_one (pool_ (front p)); Some (with_front (set_pool q (front p)) p)
  | PStopNotify => q ← stop_notify (pool_ (front p)); Some (with_front (set_pool q (front p)) p)
  end.

Fixpoint proc_acts (l : list proc_action) (p : Process) : option Process :=
  match l with [] => Some p | a :: l => q ← proc_act a p; proc_acts l q end.

Lemma proc_act_step a p p' : proc_act a p = Some p' → proc_step p p'.
Proof.
  destruct a; cbn [proc_act]; intros Ha.
  - by apply proc_main.
  - destruct (at_op p) eqn:Hat; try done. injection Ha as <-. by apply proc_quit.
  - by eapply proc_receive.
  - by apply proc_tick.
  - by apply proc_delivery.
  - destruct (enqueue_test _ _) eqn:Ht; [|done]. injection Ha as <-. by eapply proc_test.
  - destruct (enqueue_push _ _) eqn:Ht; [|done]. injection Ha as <-. by eapply proc_push.
  - destruct (worker_step _ _) eqn:Ht; [|done]. injection Ha as <-. by eapply proc_pool, step_worker.
  - destruct (notify_one _) eqn:Ht; [|done]. injection Ha as <-. by apply proc_pool, step_notify.
  - destruct (stop_notify _) eqn:Ht; [|done]. injection Ha as <-. by apply proc_pool, step_stop_notify.
Qed.

Lemma proc_acts_reachable s l p : proc_acts l (new_process s) = Some p → proc_reachable s p.
Proof.
  unfold proc_reachable. generalize (new_process s) as q. induction l as [|a l IH]; cbn; intros q.
  - by intros [= ->].
  - destruct (proc_act a q) as [q'|] eqn:Ha; [|done]. cbn. intros Hl.
    eapply rtc_l; [by eapply proc_act_step|by apply IH].
Qed.

(** The server of main_service.cpp: a request arrives, the loop is ended, and
    the worker handles the request before it returns. *)
Definition the_server : ChatServer := (main_server terminal_logging).1.

Definition serve_one : list proc_action :=
  replicate 6 PMain ++ [PReceive 16 Up; PReceive 16 (Data (Encode example_chat)); PTest 16; PPush 16;
    PNotify; PQuit; PMain; PMain] ++ replicate 8 PStopNotify ++
  [PWorker (home 16); PWorker (home 16); PWorker (home 16)] ++
  flat_map (λ i, [PWorker i; PWorker i]) (seq 0 8) ++ [PMain; PDelivery; PMain].

Definition served_one : Process := default (new_process the_server) (proc_acts serve_one (new_process the_server)).

Lemma served_one_reachable : proc_reachable the_server served_one.
Proof.
  apply (proc_acts_reachable _ serve_one). unfold served_one.
  assert ((if proc_acts serve_one (new_process the_server) is Some _ then true else false) = true) as H
    by (vm_compute; reflexivity).
  by destruct (proc_acts serve_one (new_process the_server)).
Qed.

Lemma server_lifecycle_witness :
  at_op served_one = Returned ∧ printed served_one = [] ∧ delivery_done served_one = true ∧
  of_conn 16 (of_worker (home 16) (started (pool_ (front served_one)))) = [EnvelopeEvent 16 example_chat].
Proof.
  destruct (server_lifecycle the_server served_one served_one_reachable) as (_ & _ & Hprint & Hret).
  assert (at_op served_one = Returned) as Hat by (vm_compute; reflexivity).
  destruct (Hret Hat) as (Hd & _ & _). split_and!; [exact Hat|by apply Hprint|exact Hd|].
  vm_compute; reflexivity.
Defined.
