(* ===== verification/Client.v ===== *)
(** * Client (client/src/Client.cpp)

    One user's connection: the calls of the application, the receiving thread
    and the retry thread, as programs over the critical sections, atomics and
    system calls of the source.  Printing ([verbose]) is left out. *)

From S2P Require Import Prelude Decimal Message Codec Prog.
Local Open Scope N_scope.

Definition kBaseRetryTimeoutMs : N := 2000.
Definition kMaxRetryCount : Z := 5.

Record PendingAck := { pa_envelope : Envelope; last_send_ms : N; pa_retry_count : Z }.

(** The members of [Client], grouped by what guards them: the socket and the
    threads; the login state under [login_mutex]; the atomic counters; the
    static counters of [sendMessage]. *)
Record Threads := { c_sock : bool; receiver : bool; retry_thread : bool }.
Record Login := { login_done : bool; login_ok : bool; login_reason : string }.
Record Counts := { ack_count : Z; login_resp_count : Z; chat_push_count : Z }.
Record Statics := { next_seq : N; next_client_msg_no : N }.

(** [wire] holds the bytes written, a piece per call of [sendAll], [heard] the
    bytes received; [issued] records the requests registered and [c_tick] counts
    operations. *)
Record Client := {
  c_threads : Threads; message_queue : list Envelope; pending_acks : gmap N PendingAck;
  c_login : Login; c_counts : Counts; c_stop : bool; c_statics : Statics;
  wire : list bytes; issued : list Envelope; heard : bytes; c_tick : nat }.

Definition new_Client : Client :=
  {| c_threads := {| c_sock := false; receiver := false; retry_thread := false |};
     message_queue := []; pending_acks := ∅;
     c_login := {| login_done := false; login_ok := false; login_reason := "" |};
     c_counts := {| ack_count := 0; login_resp_count := 0; chat_push_count := 0 |};
     c_stop := false; c_statics := {| next_seq := 2; next_client_msg_no := 1 |};
     wire := []; issued := []; heard := []; c_tick := 0 |}.

(** What a call of [recv] comes to. *)
Inductive recv_result := RecvError | RecvClosed | RecvData (data : bytes).

(** ** Updates of single members, each one operation *)

Definition set_threads (h : Threads) (c : Client) : Client :=
  Build_Client h (message_queue c) (pending_acks c) (c_login c) (c_counts c) (c_stop c)
    (c_statics c) (wire c) (issued c) (heard c) (S (c_tick c)).
Definition set_queue (q : list Envelope) (c : Client) : Client :=
  Build_Client (c_threads c) q (pending_acks c) (c_login c) (c_counts c) (c_stop c)
    (c_statics c) (wire c) (issued c) (heard c) (S (c_tick c)).
Definition set_pending (m : gmap N PendingAck) (c : Client) : Client :=
  Build_Client (c_threads c) (message_queue c) m (c_login c) (c_counts c) (c_stop c)
    (c_statics c) (wire c) (issued c) (heard c) (S (c_tick c)).
Definition set_login (l : Login) (c : Client) : Client :=
  Build_Client (c_threads c) (message_queue c) (pending_acks c) l (c_counts c) (c_stop c)
    (c_statics c) (wire c) (issued c) (heard c) (S (c_tick c)).
Definition set_counts (n : Counts) (c : Client) : Client :=
  Build_Client (c_threads c) (message_queue c) (pending_acks c) (c_login c) n (c_stop c)
    (c_statics c) (wire c) (issued c) (heard c) (S (c_tick c)).
Definition set_stop (b : bool) (c : Client) : Client :=
  Build_Client (c_threads c) (message_queue c) (pending_acks c) (c_login c) (c_counts c) b
    (c_statics c) (wire c) (issued c) (heard c) (S (c_tick c)).
Definition set_statics (n : Statics) (c : Client) : Client :=
  Build_Client (c_threads c) (message_queue c) (pending_acks c) (c_login c) (c_counts c)
    (c_stop c) n (wire c) (issued c) (heard c) (S (c_tick c)).
Definition add_wire (w : bytes) (c : Client) : Client :=
  Build_Client (c_threads c) (message_queue c) (pending_acks c) (c_login c) (c_counts c)
    (c_stop c) (c_statics c) (wire c ++ [w]) (issued c) (heard c) (S (c_tick c)).
Definition register (seq : N) (p : PendingAck) (c : Client) : Client :=
  Build_Client (c_threads c) (message_queue c) (<[seq := p]> (pending_acks c)) (c_login c)
    (c_counts c) (c_stop c) (c_statics c) (wire c) (issued c ++ [pa_envelope p]) (heard c)
    (S (c_tick c)).

Definition add_heard (x : recv_result) (c : Client) : Client :=
  Build_Client (c_threads c) (message_queue c) (pending_acks c) (c_login c) (c_counts c)
    (c_stop c) (c_statics c) (wire c) (issued c)
    (heard c ++ match x with RecvData data => data | _ => [] end) (S (c_tick c)).

(** ** The retry scan *)

(** The conversion of an [int] to [uint64_t]. *)
Definition int_to_u64 (z : Z) : N := Z.to_N (z mod 18446744073709551616).

(** One entry: what becomes of it, and the envelope to send again. *)
Definition scan_entry (now : N) (p : PendingAck) : option PendingAck * option Envelope :=
  let retry_timeout_ms := u64 (kBaseRetryTimeoutMs * int_to_u64 (pa_retry_count p + 1)) in
  if usub64 now (last_send_ms p) <? retry_timeout_ms then (Some p, None)
  else if (kMaxRetryCount <=? pa_retry_count p)%Z then (None, None)
  else (Some {| pa_envelope := pa_envelope p; last_send_ms := now;
                pa_retry_count := pa_retry_count p + 1 |}, Some (pa_envelope p)).

Fixpoint scan_loop (now : N) (entries : list (N * PendingAck)) (m : gmap N PendingAck)
    : gmap N PendingAck * list Envelope :=
  match entries with
  | [] => (m, [])
  | (seq, p) :: entries =>
      let (p', e) := scan_entry now p in
      let m' := match p' with Some p' => <[seq := p']> m | None => delete seq m end in
      let (m'', retry_messages) := scan_loop now entries m' in
      (m'', match e with Some e => e :: retry_messages | None => retry_messages end)
  end.

(** ** Writing to the socket

    [sendAll]: [send k n] is the result of the [k]-th call of [send], on [n]
    bytes.  Every successful call writes a byte or more, so the length of the
    frame bounds the calls. *)
Fixpoint send_loop (fuel : nat) (send : nat → N → Z) (k : nat) (rest : bytes) : bytes * bool :=
  match fuel, rest with
  | _, [] => ([], true)
  | O, _ => ([], false)
  | S fuel, _ =>
      let sent := send k (bsize rest) in
      if (sent <=? 0)%Z then ([], false)
      else
        let (written, ok) := send_loop fuel send (S k) (drop (Z.to_nat sent) rest) in
        (take (Z.to_nat sent) rest ++ written, ok)
  end.

Definition sendAll (send : nat → N → Z) (frame : bytes) : bytes * bool :=
  send_loop (length frame) send 0 frame.

(** ** Atomic operations *)

Inductive clientE : Type → Type :=
  | CNow : clientE N
  | CStopLoad : clientE bool
  | CStopStore (b : bool) : clientE unit
  (** The critical sections of [login_mutex]. *)
  | CLoginOk : clientE bool
  | CLoginReset : clientE unit
  | CLoginWait : clientE bool
  | CLoginSet (ok : bool) (reason : string) : clientE unit
  | CLoginFail (reason : string) : clientE unit
  (** The atomic counters. *)
  | CNextSeq : clientE N
  | CNextMsgNo : clientE N
  | CCountersReset : clientE unit
  | CCountAck : clientE unit
  | CCountLogin : clientE unit
  | CCountPush : clientE unit
  (** The critical sections of [pending_mutex]. *)
  | CPendingClear : clientE unit
  | CRegister (seq : N) (e : Envelope) : clientE unit
  | CForget (seq : N) : clientE unit
  | CScan (now : N) : clientE (list Envelope)
  (** [message_mutex]. *)
  | CPush (e : Envelope) : clientE unit
  (** The socket and the threads. *)
  | CConnect : clientE bool
  | CSend (frame : bytes) : clientE bool
  | CRecv : clientE recv_result
  | CShutdown : clientE unit
  | CClose : clientE unit
  | CSpawnReceiver : clientE unit
  | CSpawnRetry : clientE unit
  | CJoin : clientE unit.

(** ** Connecting

    The results of [socket], [inet_pton] and [connect]. *)
Record connect_calls := { socket_result : Z; pton_result : Z; connect_result : Z }.

(** A server that answers. *)
Definition connects : connect_calls := {| socket_result := 3; pton_result := 1; connect_result := 0 |}.

(** [connectServer]: the new [sock], the descriptors closed, and the result. *)
Definition connectServer (r : connect_calls) : Z * list Z * bool :=
  let sock := socket_result r in
  if (sock <? 0)%Z then (sock, [], false)
  else if negb (pton_result r =? 1)%Z then ((-1)%Z, [sock], false)
  else if (connect_result r <? 0)%Z then ((-1)%Z, [sock], false)
  else (sock, [], true).

(** It succeeds exactly with an open socket in [sock]; otherwise whatever it
    opened is closed. *)
Lemma connectServer_exact r :
  let '(sock, closed, ok) := connectServer r in
  (ok = true ↔ (0 <= sock)%Z) ∧
  ((0 <= socket_result r)%Z → if ok then sock = socket_result r ∧ closed = [] else closed = [socket_result r]).
Proof.
  unfold connectServer. destruct (_ <? 0)%Z eqn:E1; [apply Z.ltb_lt in E1; split; [split; [done|lia]|lia]|].
  apply Z.ltb_ge in E1. destruct (negb _); [by split|]. destruct (_ <? 0)%Z; by split.
Qed.

Lemma connectServer_sock r : (0 <=? (connectServer r).1.1)%Z = (connectServer r).2.
Proof.
  pose proof (connectServer_exact r) as H. destruct (connectServer r) as [[sock closed] ok].
  destruct H as [H _]. cbn. apply eq_bool_prop_intro. rewrite !Is_true_true, Z.leb_le. tauto.
Qed.

(** What the outside decides at every moment: the clock, the results of the
    socket calls, and the order in which the standard library visits the
    table. *)
Record client_env := {
  ce_clock : nat → N; ce_connect : nat → connect_calls; ce_send : nat → nat → N → Z;
  ce_recv : nat → recv_result;
  ce_visit : gmap N PendingAck → list (N * PendingAck);
  ce_visit_ok : ∀ m, iteration_order m (ce_visit m) }.

(** [wait_for] returns the value of its predicate: [CLoginWait] is its return,
    and gives [received && login_ok]. *)
Definition client_exec (env : client_env) (X : Type) (e : clientE X) (c : Client) : Client * X :=
  let t := c_tick c in
  let login := c_login c in
  let counts := c_counts c in
  let h := c_threads c in
  let n := c_statics c in
  let skip := set_stop (c_stop c) c in
  match e in clientE X return Client * X with
  | CNow => (skip, ce_clock env t)
  | CStopLoad => (skip, c_stop c)
  | CStopStore b => (set_stop b c, tt)
  | CLoginOk => (skip, login_ok login)
  | CLoginReset => (set_login (Build_Login false false "") c, tt)
  | CLoginWait => (skip, login_done login && login_ok login)
  | CLoginSet ok reason => (set_login (Build_Login true ok reason) c, tt)
  | CLoginFail reason =>
      (if login_done login then skip else set_login (Build_Login true false reason) c, tt)
  | CNextSeq =>
      (set_statics (Build_Statics (u64 (next_seq n + 1)) (next_client_msg_no n)) c, next_seq n)
  | CNextMsgNo =>
      (set_statics (Build_Statics (next_seq n) (u64 (next_client_msg_no n + 1))) c,
       next_client_msg_no n)
  | CCountersReset => (set_counts (Build_Counts 0 0 0) c, tt)
  | CCountAck =>
      (set_counts (Build_Counts (int32 (ack_count counts + 1)) (login_resp_count counts)
        (chat_push_count counts)) c, tt)
  | CCountLogin =>
      (set_counts (Build_Counts (ack_count counts) (int32 (login_resp_count counts + 1))
        (chat_push_count counts)) c, tt)
  | CCountPush =>
      (set_counts (Build_Counts (ack_count counts) (login_resp_count counts)
        (int32 (chat_push_count counts + 1))) c, tt)
  | CPendingClear => (set_pending ∅ c, tt)
  | CRegister seq e =>
      (register seq {| pa_envelope := e; last_send_ms := ce_clock env t; pa_retry_count := 0 |} c, tt)
  | CForget seq => (set_pending (delete seq (pending_acks c)) c, tt)
  | CScan now =>
      let (m, es) := scan_loop now (ce_visit env (pending_acks c)) (pending_acks c) in
      (set_pending m c, es)
  | CPush e => (set_queue (message_queue c ++ [e]) c, tt)
  | CConnect =>
      let r := connectServer (ce_connect env t) in
      (set_threads (Build_Threads (0 <=? r.1.1)%Z (receiver h) (retry_thread h)) c, r.2)
  | CSend frame =>
      let (written, ok) := sendAll (ce_send env t) frame in (add_wire written c, ok)
  | CRecv => (add_heard (ce_recv env t) c, ce_recv env t)
  | CShutdown => (skip, tt)
  | CClose => (set_threads (Build_Threads false (receiver h) (retry_thread h)) c, tt)
  | CSpawnReceiver => (set_threads (Build_Threads (c_sock h) true (retry_thread h)) c, tt)
  | CSpawnRetry => (set_threads (Build_Threads (c_sock h) (receiver h) true) c, tt)
  | CJoin => (set_threads (Build_Threads (c_sock h) false false) c, tt)
  end.

Abbreviation cli := (prog clientE).

(** ** The operations of the class *)
Section client.
Context {P : Protobuf}.
Variable uid : N.

Definition now_ms : cli N := trigger CNow.


Definition sendEnvelope (e : Envelope) : cli bool :=
  let frame := Encode e in
  if decide (frame = []) then mret false else trigger (CSend frame).

Definition client_msg_id_text (now msg_no : N) : string :=
  to_string uid +:+ "-" +:+ to_string now +:+ "-" +:+ to_string msg_no.

(** The part of [sendMessage] from the registration on. *)
Definition submit_request (seq : N) (e : Envelope) : cli bool :=
  _ ← trigger (CRegister seq e);
  sent ← sendEnvelope e;
  if (sent : bool) then mret true else _ ← trigger (CForget seq); mret false.

Definition sendMessage (to_uid : N) (msg : string) : cli bool :=
  stopped ← trigger CStopLoad;
  if (stopped : bool) then mret false
  else
    ok ← trigger CLoginOk;
    if negb ok then mret false
    else
      seq ← trigger CNextSeq;
      msg_no ← trigger CNextMsgNo;
      now ← now_ms;
      now' ← now_ms;
      submit_request seq (EnvelopeFactory.CreateChatRequest now' seq uid to_uid msg
        (client_msg_id_text now msg_no)).

Definition handleAck (e : Envelope) : cli unit :=
  if negb (has_ack e) then mret tt
  else _ ← trigger CCountAck; trigger (CForget (ack_seq (ack e))).

Definition handleChatPush (e : Envelope) : cli unit :=
  if negb (has_chat_push e) then mret tt
  else
    ok ← trigger CLoginOk;
    if negb ok then mret tt
    else
      _ ← trigger CCountPush;
      _ ← trigger (CPush e);
      if push_history (chat_push e) then mret tt
      else
        now ← now_ms;
        _ ← sendEnvelope (EnvelopeFactory.CreateAck now (env_seq e) (push_msg_id (chat_push e)) true "");
        mret tt.

Definition handleLoginResponse (e : Envelope) : cli unit :=
  _ ← trigger CCountLogin;
  if negb (has_login_resp e) then trigger (CLoginSet false "invalid login response")
  else trigger (CLoginSet (login_resp_ok (login_resp e)) (login_resp_reason (login_resp e))).

Definition handleEnvelope (e : Envelope) : cli unit :=
  match env_type e with
  | ACK => handleAck e
  | CHAT_PUSH => handleChatPush e
  | LOGIN_RESP => handleLoginResponse e
  | _ => mret tt
  end.

Definition failPendingLogin (reason : string) : cli unit := trigger (CLoginFail reason).

(** One turn of [receiverLoop]: the buffer afterwards, [None] on return. *)
Definition receive (recv_buffer : bytes) : cli (option bytes) :=
  recvd ← trigger CRecv;
  match recvd with
  | RecvError =>
      _ ← trigger (CStopStore true); _ ← failPendingLogin "recv failed"; mret None
  | RecvClosed =>
      _ ← trigger (CStopStore true); _ ← failPendingLogin "connection closed"; mret None
  | RecvData data =>
      let buffer := recv_buffer ++ data in
      let decode_result := DecodeAll buffer kDefaultMaxFrameLength in
      let rest := if 0 <? consumed_bytes decode_result
                  then drop (N.to_nat (consumed_bytes decode_result)) buffer else buffer in
      _ ← for_each (envelopes decode_result) handleEnvelope;
      match status decode_result with
      | kInvalidLength | kParseError =>
          _ ← trigger (CStopStore true); _ ← failPendingLogin "decode failed";
          _ ← trigger CShutdown; mret None
      | _ => mret (Some rest)
      end
  end.

(** [receiverLoop] for at most [turns] turns. *)
Fixpoint receiverLoop (turns : nat) (recv_buffer : bytes) : cli unit :=
  match turns with
  | O => mret tt
  | S turns =>
      stopped ← trigger CStopLoad;
      if (stopped : bool) then mret tt
      else
        buffer ← receive recv_buffer;
        match buffer with None => mret tt | Some b => receiverLoop turns b end
  end.

(** The sending half of a turn of [retryLoop]; [false] when the loop ends. *)
Fixpoint resend (retry_messages : list Envelope) : cli bool :=
  match retry_messages with
  | [] => mret true
  | e :: rest =>
      stopped ← trigger CStopLoad;
      if (stopped : bool) then mret false
      else
        sent ← sendEnvelope e;
        if (sent : bool) then resend rest
        else _ ← trigger (CStopStore true); mret false
  end.

(** [retryLoop] for at most [turns] turns. *)
Fixpoint retryLoop (turns : nat) : cli unit :=
  match turns with
  | O => mret tt
  | S turns =>
      stopped ← trigger CStopLoad;
      if (stopped : bool) then mret tt
      else
        now ← now_ms;
        retry_messages ← trigger (CScan now);
        go ← resend retry_messages;
        if (go : bool) then retryLoop turns else mret tt
  end.

Definition stopClient : cli unit :=
  _ ← trigger (CStopStore true);
  _ ← trigger CShutdown;
  _ ← trigger CJoin;
  trigger CClose.

Definition startClient : cli bool :=
  _ ← trigger (CStopStore false);
  _ ← trigger CCountersReset;
  _ ← trigger CPendingClear;
  _ ← trigger CLoginReset;
  connected ← trigger CConnect;
  if negb connected then mret false
  else
    _ ← trigger CSpawnReceiver;
    now ← now_ms;
    sent ← sendEnvelope (EnvelopeFactory.CreateLoginRequest now 1 uid);
    if negb sent then _ ← stopClient; mret false
    else
      ok ← trigger CLoginWait;
      if negb ok then _ ← stopClient; mret false
      else _ ← trigger CSpawnRetry; mret true.
End client.
