(* ===== verification/Tokens.v ===== *)
(** * Invariants with owned numbers

    Threads that draw numbers from shared counters and later use each number
    once.  A thread owns the numbers it has drawn and not used; no two threads
    own the same one.  The invariant of the shared state may mention all the
    numbers owned, and facts the threads rely on may refer to what the final
    state will hold, as long as that only grows. *)

From S2P Require Import Prelude Prog.

Section tokens.
Context {E : Type → Type} {S : Type} (exec : ∀ X, E X → S → S * X).
Context {K : Type} `{Countable K}.

(** [Q X e T]: the operation is allowed and uses up the tokens [T].
    [gain X e x]: the tokens an answer brings.  [V X e x]: what else a thread
    may rely on.  [Past]: holds of every state before one where it holds. *)
Variable Q : ∀ X, E X → gset K → Prop.
Variable gain : ∀ X, E X → X → gset K.
Variable V : ∀ X, E X → X → Prop.
Variable Past : S → Prop.
Variable I : nat → gset K → S → Prop.

Fixpoint owns {A} (T : gset K) (p : prog E A) : Prop :=
  match p with
  | Ret _ => True
  | Do e k => ∃ U, Q _ e U ∧ U ⊆ T ∧ ∀ x, V _ e x → owns (T ∖ U ∪ gain _ e x) (k x)
  end.

(** Operations that use up nothing. *)
Definition free X (e : E X) : Prop := Q X e ∅.

Lemma owns_mono {A} (p : prog E A) T T' : T ⊆ T' → owns T p → owns T' p.
Proof.
  revert T T'. induction p as [a|X e k IH]; intros T T' HT; [done|]. cbn.
  intros (U & HQ & HU & Hk). exists U. split; [done|]. split; [set_solver|].
  intros x Hx. eapply IH; [|by apply Hk]. set_solver.
Qed.

Lemma owns_free_bind {A B} T (p : prog E A) (f : A → prog E B) :
  all_ops free V p → (∀ a, owns T (f a)) → owns T (bind p f).
Proof.
  intros Hp Hf. induction p as [a|X e k IH]; cbn in *; [done|].
  destruct Hp as [He Hk]. exists ∅. split; [done|]. split; [set_solver|].
  intros x Hx. eapply owns_mono; [|by apply IH, Hk]. set_solver.
Qed.

Lemma owns_free {A} T (p : prog E A) : all_ops free V p → owns T p.
Proof.
  intros Hp. induction p as [a|X e k IH] in T, Hp |- *; cbn in *; [done|].
  destruct Hp as [He Hk]. exists ∅. split; [done|]. split; [set_solver|]. auto.
Qed.

(** Everything the rest of the program needs was free. *)
Lemma owns_bind {A B} T (p : prog E A) (f : A → prog E B) :
  owns T p → (∀ a, owns ∅ (f a)) → owns T (bind p f).
Proof.
  intros Hp Hf. induction p as [a|X e k IH] in T, Hp |- *; cbn in *.
  - eapply owns_mono; [|apply Hf]. set_solver.
  - destruct Hp as (U & HQ & HU & Hk). exists U. auto.
Qed.

Lemma owns_for_each {A} (l : list A) body :
  (∀ x, owns ∅ (body x)) → owns ∅ (for_each l body).
Proof. intros Hb. induction l as [|x l IH]; cbn; [done|]. by apply owns_bind. Qed.

(** ** Threads *)

Definition apart (Ts : list (gset K)) : Prop :=
  ∀ i j T U, i ≠ j → Ts !! i = Some T → Ts !! j = Some U → T ## U.

Definition threads_own (Ts : list (gset K)) (ts : list (prog E unit)) : Prop :=
  Forall2 owns Ts ts ∧ apart Ts.

Lemma union_insert Ts i T U G :
  apart Ts → Ts !! i = Some T → U ⊆ T → G ## ⋃ Ts →
  ⋃ (<[i := T ∖ U ∪ G]> Ts) = ⋃ Ts ∖ U ∪ G ∧ apart (<[i := T ∖ U ∪ G]> Ts).
Proof.
  intros Ha Hi HU HG. pose proof (lookup_lt_Some _ _ _ Hi) as Hlt. split.
  - apply set_eq. intros x. rewrite elem_of_union, elem_of_difference, !elem_of_union_list.
    split.
    + intros (Y & (j & Hj)%list_elem_of_lookup & Hx).
      destruct (decide (j = i)) as [->|Hne].
      * rewrite list_lookup_insert_eq in Hj by done. injection Hj as <-.
        rewrite elem_of_union, elem_of_difference in Hx. destruct Hx as [[Hx Hn]|Hx]; [left|by right].
        split; [|done]. exists T. split; [by eapply list_elem_of_lookup_2|done].
      * rewrite list_lookup_insert_ne in Hj by done. left. split.
        -- exists Y. split; [by eapply list_elem_of_lookup_2|done].
        -- intros Hxu. eapply (elem_of_disjoint T Y); [by apply (Ha i j T Y)|by apply HU|done].
    + intros [[(Y & (j & Hj)%list_elem_of_lookup & Hx) Hn]|Hx].
      * destruct (decide (j = i)) as [->|Hne].
        -- exists (T ∖ U ∪ G). split; [|set_solver].
           eapply list_elem_of_lookup_2. by apply list_lookup_insert_eq.
        -- exists Y. split; [|done]. eapply list_elem_of_lookup_2. by rewrite list_lookup_insert_ne.
      * exists (T ∖ U ∪ G). split; [|set_solver].
        eapply list_elem_of_lookup_2. by apply list_lookup_insert_eq.
  - assert (∀ j Y, j ≠ i → Ts !! j = Some Y → T ∖ U ∪ G ## Y) as Hd.
    { intros j Y Hne Hj. assert (T ## Y) by by apply (Ha i j T Y).
      assert (Y ⊆ ⋃ Ts); [|set_solver]. intros x Hx. apply elem_of_union_list. exists Y.
      split; [by eapply list_elem_of_lookup_2|done]. }
    intros j k Y Z Hjk Hj Hk.
    destruct (decide (j = i)) as [->|Hji], (decide (k = i)) as [->|Hki]; [done|..].
    + rewrite list_lookup_insert_eq in Hj by done. rewrite list_lookup_insert_ne in Hk by done.
      injection Hj as <-. by apply (Hd k).
    + rewrite list_lookup_insert_eq in Hk by done. rewrite list_lookup_insert_ne in Hj by done.
      injection Hk as <-. symmetry. by apply (Hd j).
    + rewrite list_lookup_insert_ne in Hj, Hk by done. by apply (Ha j k).
Qed.

Hypothesis past_step : ∀ X e s, Past (exec X e s).1 → Past s.
Hypothesis op_step : ∀ n T U X e s,
  I (Datatypes.S n) T s → Q X e U → U ⊆ T → Past (exec X e s).1 →
  let r := exec X e s in
  gain X e r.2 ## T ∧ V X e r.2 ∧ I n (T ∖ U ∪ gain X e r.2) r.1.

Lemma past_steps k s ts s' ts' : nsteps (tstep exec) k (s, ts) (s', ts') → Past s' → Past s.
Proof.
  revert s ts. induction k as [|k IH]; intros s ts Hk Hp; inversion Hk as [|? ? y ? Hst Hr]; subst.
  - done.
  - inversion Hst; subst. eapply past_step, IH; done.
Qed.

(** The invariant holds in every interleaving of threads that own what they
    use. *)
Lemma tokens_invariant k s ts s' ts' Ts n :
  nsteps (tstep exec) k (s, ts) (s', ts') → Past s' → threads_own Ts ts →
  I (k + n)%nat (⋃ Ts) s → ∃ Ts', threads_own Ts' ts' ∧ I n (⋃ Ts') s'.
Proof.
  revert s ts Ts. induction k as [|k IH]; intros s ts Ts Hk Hp [Ho Ha] HI;
    inversion Hk as [|? ? y ? Hst Hr]; subst.
  - by exists Ts.
  - inversion Hst as [? ? i X e c Hi]; subst.
    destruct (Forall2_lookup_r _ _ _ _ _ Ho Hi) as (T & HT & U & HQ & HU & Hc).
    assert (U ⊆ ⋃ Ts) as HU'.
    { intros x Hx. apply elem_of_union_list. exists T.
      split; [by eapply list_elem_of_lookup_2|by apply HU]. }
    pose proof (past_steps _ _ _ _ _ Hr Hp) as Hp1.
    destruct (op_step _ _ _ _ _ _ HI HQ HU' Hp1) as (Hg & HV & HI1).
    destruct (union_insert Ts i T U _ Ha HT HU Hg) as [Heq Ha'].
    eapply IH; [exact Hr|exact Hp| |rewrite Heq; exact HI1].
    split; [|exact Ha']. apply Forall2_insert; [done|]. by apply Hc.
Qed.
End tokens.
