(* ===== verification/Budget.v ===== *)
(** * Invariants with a budget

    How often a program may still issue an operation that is counted.  Answers
    can add to the budget; the invariant of the shared state bounds what all
    threads together may still do. *)

From S2P Require Import Prelude Prog Tokens.

Section budget.
Context {E : Type → Type} {S : Type} (exec : ∀ X, E X → S → S * X).

(** [Q]: the operation is allowed.  [cost] and [earn]: what it takes from the
    budget and what its answer adds.  [V]: what a thread may rely on.  [Past]:
    holds of every state before one where it holds. *)
Variable Q : ∀ X, E X → Prop.
Variable cost : ∀ X, E X → nat.
Variable earn : ∀ X, E X → X → nat.
Variable V : ∀ X, E X → X → Prop.
Variable Past : S → Prop.
Variable J : nat → S → Prop.

Fixpoint affords {A} (b : nat) (p : prog E A) : Prop :=
  match p with
  | Ret _ => True
  | Do e k => Q _ e ∧ (cost _ e <= b)%nat ∧ ∀ x, V _ e x → affords (b - cost _ e + earn _ e x) (k x)
  end.

Lemma affords_mono {A} (p : prog E A) b b' : (b <= b')%nat → affords b p → affords b' p.
Proof.
  induction p as [a|X e k IH] in b, b' |- *; intros Hb; [done|]. cbn. intros (HQ & Hc & Hk).
  split; [done|]. split; [lia|]. intros x Hx. eapply IH; [|by apply Hk]. lia.
Qed.

(** What follows needs no budget of the caller's. *)
Lemma affords_bind {A B} (p : prog E A) (f : A → prog E B) b :
  affords b p → (∀ a, affords 0 (f a)) → affords b (bind p f).
Proof.
  intros Hp Hf. induction p as [a|X e k IH] in b, Hp |- *; cbn in *.
  - eapply affords_mono; [|apply Hf]. lia.
  - destruct Hp as (HQ & Hc & Hk). auto.
Qed.

Lemma affords_for_each {A} (l : list A) body :
  (∀ x, affords 0 (body x)) → affords 0 (for_each l body).
Proof. intros Hb. induction l as [|x l IH]; cbn; [done|]. by apply affords_bind. Qed.

Hypothesis past_step : ∀ X e s, Past (exec X e s).1 → Past s.
Hypothesis op_step : ∀ b X e s,
  J b s → Q X e → (cost X e <= b)%nat → Past (exec X e s).1 →
  let r := exec X e s in V X e r.2 ∧ J (b - cost X e + earn X e r.2) r.1.

Lemma sum_list_insert (bs : list nat) i b b' :
  bs !! i = Some b → (sum_list (<[i := b']> bs) + b = sum_list bs + b')%nat.
Proof.
  induction bs as [|a bs IH] in i |- *; [done|]. destruct i as [|i]; cbn.
  - intros [= ->]. unfold id. lia.
  - intros Hi%IH.
    exact (eq_trans (eq_sym (Nat.add_assoc a _ b)) (eq_trans (f_equal (Nat.add a) Hi) (Nat.add_assoc a _ b'))).
Qed.

(** The invariant holds in every interleaving of threads that keep to their
    budgets. *)
Lemma budget_invariant k s ts s' ts' bs :
  nsteps (tstep exec) k (s, ts) (s', ts') → Past s' → Forall2 affords bs ts → J (sum_list bs) s →
  ∃ bs', Forall2 affords bs' ts' ∧ J (sum_list bs') s'.
Proof.
  induction k as [|k IH] in s, ts, bs |- *; intros Hk Hp Ha HJ;
    inversion Hk as [|? ? y ? Hst Hr]; subst; [by exists bs|].
  inversion Hst as [? ? i X e c Hi]; subst.
  destruct (Forall2_lookup_r _ _ _ _ _ Ha Hi) as (b & Hb & HQ & Hc & Hx).
  pose proof (sum_list_insert bs i b (b - cost _ e + earn _ e (exec X e s).2) Hb) as Hsum.
  assert (b <= sum_list bs)%nat as Hle by (apply (sum_list_with_in b id); by eapply list_elem_of_lookup_2).
  destruct (op_step _ _ _ _ HJ HQ ltac:(lia) (past_steps exec Past past_step _ _ _ _ _ Hr Hp)) as [HV HJ'].
  eapply IH; [exact Hr|exact Hp|apply Forall2_insert; [exact Ha|by apply Hx]|].
  by replace (sum_list _) with (sum_list bs - cost _ e + earn _ e (exec X e s).2)%nat by lia.
Qed.
End budget.
