(* ===== verification/ClientSafety.v ===== *)
(** * What the client guarantees

    The retry scan, the reactions to the server's envelopes, and the identity
    of requests in every interleaving of the client's threads. *)

From S2P Require Import Prelude Decimal Message WireInstance Codec Prog Tokens Client.
Local Open Scope N_scope.

(** ** The retry scan *)

Lemma scan_loop_lookup now l m seq :
  NoDup (l.*1) → (∀ k p, (k, p) ∈ l → m !! k = Some p) →
  (scan_loop now l m).1 !! seq =
    if decide (seq ∈ l.*1) then p ← m !! seq; (scan_entry now p).1 else m !! seq.
Proof.
  revert m. induction l as [|[k p] l IH]; intros m Hnd Hm; [done|].
  inversion Hnd as [|? ? Hk Hnd']; subst. cbn [scan_loop fmap list_fmap fst].
  destruct (scan_entry now p) as [p' e] eqn:Hp.
  set (m' := match p' with Some p' => <[k:=p']> m | None => delete k m end).
  assert (∀ j, j ≠ k → m' !! j = m !! j) as Hother.
  { intros j Hj. unfold m'. destruct p'; [by rewrite lookup_insert_ne|by rewrite lookup_delete_ne]. }
  specialize (IH m' Hnd').
  destruct (scan_loop now l m') as [m2 out] eqn:Hs. cbn [fst] in IH |- *. rewrite IH.
  - destruct (decide (seq = k)) as [->|Hne].
    + rewrite decide_False by done. rewrite decide_True by left.
      rewrite (Hm k p) by left. cbn. rewrite Hp. unfold m'.
      destruct p'; [by rewrite lookup_insert_eq|by rewrite lookup_delete_eq].
    + rewrite Hother by done. case_decide as Hin.
      * by rewrite decide_True by by right.
      * rewrite decide_False; [done|]. by intros [?|?]%elem_of_cons.
  - intros j q Hj. rewrite Hother; [apply Hm; by right|].
    intros ->. apply Hk. apply list_elem_of_fmap. by exists (k, q).
Qed.

Lemma scan_loop_out now l m : (scan_loop now l m).2 = omap (λ x, (scan_entry now x.2).2) l.
Proof.
  revert m. induction l as [|[k p] l IH]; intros m; [done|]. cbn.
  destruct (scan_entry now p) as [p' e]. specialize (IH (match p' with Some p' => <[k:=p']> m | None => delete k m end)).
  destruct (scan_loop now l _). cbn in *. subst. by destruct e.
Qed.

Section scan.
Variable env : client_env.

(** The whole scan, whatever the order in which the table is visited. *)
Lemma scan_lookup now c seq :
  pending_acks (client_exec env _ (CScan now) c).1 !! seq =
    p ← pending_acks c !! seq; (scan_entry now p).1.
Proof.
  cbn [client_exec]. pose proof (ce_visit_ok env (pending_acks c)) as Hv. unfold iteration_order in Hv.
  pose proof (scan_loop_lookup now (ce_visit env (pending_acks c)) (pending_acks c) seq) as Hl.
  destruct (scan_loop _ _ _) as [m es]. cbn in Hl |- *. rewrite Hl.
  - case_decide as Hin; [done|]. destruct (pending_acks c !! seq) as [p|] eqn:Hp; [|done].
    destruct Hin. apply list_elem_of_fmap. exists (seq, p). split; [done|].
    rewrite Hv. by apply elem_of_map_to_list.
  - rewrite Hv. apply NoDup_fst_map_to_list.
  - intros k p. rewrite Hv. apply elem_of_map_to_list.
Qed.

Lemma scan_out now c :
  (client_exec env _ (CScan now) c).2 ≡ₚ
    omap (λ x, (scan_entry now x.2).2) (map_to_list (pending_acks c)).
Proof.
  cbn [client_exec]. pose proof (scan_loop_out now (ce_visit env (pending_acks c)) (pending_acks c)) as Ho.
  destruct (scan_loop _ _ _) as [m es]. cbn in *. subst. apply omap_Permutation, ce_visit_ok.
Qed.

Lemma scan_out_pending now c e :
  e ∈ (client_exec env _ (CScan now) c).2 →
  ∃ seq p, pending_acks c !! seq = Some p ∧ pa_envelope p = e ∧
    (pa_retry_count p < kMaxRetryCount)%Z.
Proof.
  rewrite scan_out. intros ([seq p] & Hp%elem_of_map_to_list & He)%list_elem_of_omap.
  exists seq, p. cbn in He. unfold scan_entry in He. repeat case_match; cbn in He; simplify_eq.
  split; [done|]. split; [done|]. apply Z.leb_gt. done.
Qed.
End scan.

(** [kBaseRetryTimeoutMs * (retry_count + 1)] does not wrap. *)
Lemma retry_timeout_small z :
  (0 ≤ z ≤ kMaxRetryCount)%Z →
  u64 (kBaseRetryTimeoutMs * int_to_u64 (z + 1)) = kBaseRetryTimeoutMs * (Z.to_N z + 1).
Proof.
  unfold kMaxRetryCount, int_to_u64, kBaseRetryTimeoutMs. intros Hz.
  rewrite Z.mod_small by lia. rewrite u64_small by (unfold two64; lia). lia.
Qed.

(** ** Writing to the socket *)

Lemma send_loop_exact fuel send k rest :
  (length rest <= fuel)%nat →
  let r := send_loop fuel send k rest in
  prefix r.1 rest ∧
  if r.2 then r.1 = rest
  else r.1 ≠ rest ∧ ∃ j, (k <= j <= k + length r.1)%nat ∧
    (send j (bsize (drop (length r.1) rest)) <= 0)%Z.
Proof.
  revert k rest. induction fuel as [|fuel IH]; intros k [|b rest]; try done; cbn [length]; [lia|].
  intros Hlen. cbn [send_loop]. destruct (send k (bsize (b :: rest)) <=? 0)%Z eqn:Hs.
  - cbn. split; [apply prefix_nil|]. split; [done|]. exists k. split; [lia|]. by apply Z.leb_le.
  - apply Z.leb_gt in Hs. set (z := Z.to_nat (send k (bsize (b :: rest)))).
    assert (1 <= z)%nat as Hz by (unfold z; lia).
    specialize (IH (S k) (drop z (b :: rest))). rewrite length_drop in IH. cbn [length] in IH.
    destruct (send_loop fuel send (S k) (drop z (b :: rest))) as [w ok]. cbn [fst snd] in *.
    assert (S (length rest) - z <= fuel)%nat as Hfuel by lia.
    destruct (IH Hfuel) as [Hpre Hok]. split.
    { rewrite <-(take_drop z (b :: rest)) at 2. by apply prefix_app. }
    destruct ok; [by rewrite Hok, take_drop|]. destruct Hok as (Hne & j & Hj & Hsend).
    assert (drop z (b :: rest) ≠ []) as Hrest.
    { intros Hnil. rewrite Hnil in *. apply Hne. by apply prefix_nil_inv in Hpre. }
    assert (length (take z (b :: rest)) = z) as Htake.
    { rewrite length_take.
      assert (length (drop z (b :: rest)) ≠ 0)%nat as Hl by (by destruct (drop z (b :: rest))).
      rewrite length_drop in Hl. lia. }
    split.
    + intros Heq. rewrite <-(take_drop z (b :: rest)) in Heq at 2. by apply app_inv_head in Heq.
    + exists j. rewrite length_app, Htake, <-drop_drop. split; [lia|done].
Qed.

Lemma sendAll_prefix send frame : prefix (sendAll send frame).1 frame.
Proof. by apply (send_loop_exact (length frame) send 0 frame). Qed.

(** The socket takes a byte or more whenever it is given some. *)
Definition accepting (env : client_env) : Prop := ∀ t k n, 0 < n → (0 < ce_send env t k n)%Z.

Lemma sendAll_accepting send frame :
  (∀ k n, 0 < n → (0 < send k n)%Z) → (sendAll send frame).1 = frame.
Proof.
  intros Hs. pose proof (send_loop_exact (length frame) send 0 frame ltac:(done)) as H. unfold sendAll.
  destruct (send_loop _ _ _ _) as [w ok]. cbn [fst snd] in *. destruct H as [Hpre H].
  destruct ok; [done|]. destruct H as (Hne & k & _ & Hk).
  destruct (decide (0 < bsize (drop (length w) frame))) as [Hlt|Hz]; [specialize (Hs k _ Hlt); lia|].
  destruct Hne. destruct Hpre as [rest ->]. rewrite drop_app_length in Hz.
  destruct rest; [by rewrite app_nil_r|]. unfold bsize in Hz. cbn in Hz. lia.
Qed.

(** ** Identity of requests *)
Section identity.
Context {P : Protobuf}.
Variable uid : N.
Variable env : client_env.

(** The request [sendMessage] builds from the numbers it draws. *)
Definition request (seq no now now' to : N) (msg : string) : Envelope :=
  EnvelopeFactory.CreateChatRequest now' seq uid to msg (client_msg_id_text uid now no).

Lemma client_msg_id_text_inj now no now' no' :
  client_msg_id_text uid now no = client_msg_id_text uid now' no' → no = no'.
Proof.
  assert (∀ s, ¬ starts_with_digit ("-" +:+ s)) as Hsep
    by (intros s (a & s' & [= <- _] & [? [=]])).
  unfold client_msg_id_text. intros H.
  apply to_string_app_inj in H as [_ H]; [|apply Hsep..].
  injection H as H. apply to_string_app_inj in H as [_ H]; [|apply Hsep..].
  injection H as H. by apply to_string_inj.
Qed.

Abbreviation token := (N + N)%type.

(** The requests issued and the pushes queued when the run ends. *)
Variables (G queue : list Envelope).

(** The acknowledgement of push [p]. *)
Definition ack_of (now : N) (p : Envelope) : Envelope :=
  EnvelopeFactory.CreateAck now (env_seq p) (push_msg_id (chat_push p)) true "".

(** What else the client writes: login requests of its user, and
    acknowledgements of the pushes it has queued. *)
Definition control (e : Envelope) : Prop :=
  (∃ now seq, e = EnvelopeFactory.CreateLoginRequest now seq uid) ∨
  ∃ now p, p ∈ queue ∧ env_type p = CHAT_PUSH ∧ has_chat_push p = true ∧ e = ack_of now p.

Definition client_op (X : Type) (e : clientE X) (U : gset token) : Prop :=
  match e with
  | CRegister seq r => ∃ no now now' to msg,
      U = {[inl seq; inr no]} ∧ r = request seq no now now' to msg
  | CSend frame => U = ∅ ∧ ∃ r, frame = Encode r ∧ (r ∈ G ∨ control r)
  | _ => U = ∅
  end.

Definition drawn (X : Type) (e : clientE X) : X → gset token :=
  match e in clientE X return X → gset token with
  | CNextSeq => λ s, {[inl s]}
  | CNextMsgNo => λ k, {[inr k]}
  | _ => λ _, ∅
  end.

Definition learnt (X : Type) (e : clientE X) : X → Prop :=
  match e in clientE X return X → Prop with
  | CRegister _ r => λ _, r ∈ G
  | CScan _ => λ es, ∀ r, r ∈ es → r ∈ G
  | CPush p => λ _, p ∈ queue
  | _ => λ _, True
  end.

Definition issued_later (c : Client) : Prop :=
  (∀ r, r ∈ issued c → r ∈ G) ∧ ∀ p, p ∈ message_queue c → p ∈ queue.

Definition below (c : Client) (t : token) : Prop :=
  match t with inl s => s < next_seq (c_statics c) | inr k => k < next_client_msg_no (c_statics c) end.

Record client_inv (n : nat) (T : gset token) (c : Client) : Prop := {
  ci_room : next_seq (c_statics c) + N.of_nat n < two64 ∧
            next_client_msg_no (c_statics c) + N.of_nat n < two64;
  ci_tokens : ∀ t, t ∈ T → below c t;
  ci_issued : ∀ r, r ∈ issued c → ∃ seq no now now' to msg,
    r = request seq no now now' to msg ∧ below c (inl seq) ∧ below c (inr no) ∧
    (inl seq ∉ T) ∧ (inr no ∉ T);
  ci_unique : ∀ i j r r', issued c !! i = Some r → issued c !! j = Some r' →
    env_seq r = env_seq r' ∨
    chat_req_client_msg_id (chat_req r) = chat_req_client_msg_id (chat_req r') → i = j;
  ci_pending : ∀ seq p, pending_acks c !! seq = Some p →
    pa_envelope p ∈ issued c ∧ env_seq (pa_envelope p) = seq ∧
    (0 ≤ pa_retry_count p ≤ kMaxRetryCount)%Z;
  ci_wire : ∀ w, w ∈ wire c → ∃ r, prefix w (Encode r) ∧ (r ∈ G ∨ control r) ∧
    (accepting env → w = Encode r) }.

(** *** Programs and the numbers they own *)
Local Abbreviation own := (owns client_op drawn learnt).
Local Abbreviation plain := (all_ops (free client_op) learnt).

Lemma plain_send e : e ∈ G ∨ control e → plain (sendEnvelope e).
Proof.
  intros He. unfold sendEnvelope. case_decide; [done|]. split; [|done]. split; [done|]. eauto.
Qed.

Lemma own_submit seq no now now' to msg :
  own {[inl seq; inr no]} (submit_request seq (request seq no now now' to msg)).
Proof.
  exists {[inl seq; inr no]}. split; [by exists no, now, now', to, msg|]. split; [done|].
  intros [] HG. cbn in HG. eapply owns_mono; [apply empty_subseteq|].
  change (own ∅ (sent ← sendEnvelope (request seq no now now' to msg);
    if (sent : bool) then mret true else _ ← trigger (CForget seq); mret false)).
  apply owns_free_bind; [apply plain_send; by left|]. intros []; [done|].
  by apply owns_free.
Qed.

Lemma own_stamped seq no to msg :
  own {[inl seq; inr no]} (now ← now_ms; now' ← now_ms; submit_request seq (request seq no now now' to msg)).
Proof.
  apply owns_free_bind; [done|]. intros now. apply owns_free_bind; [done|]. intros now'.
  apply own_submit.
Qed.

Lemma own_sendMessage to msg : own ∅ (sendMessage uid to msg).
Proof.
  apply owns_free_bind; [done|]. intros []; [done|]. apply owns_free_bind; [done|].
  intros []; [|done]. cbn [negb]. exists ∅. split; [done|]. split; [done|]. intros seq _.
  exists ∅. split; [done|]. split; [set_solver|]. intros no _.
  eapply owns_mono; [|apply (own_stamped seq no to msg)]. cbn. set_solver.
Qed.

Lemma plain_bind {A B} (p : cli A) (f : A → cli B) :
  plain p → (∀ a, plain (f a)) → plain (p ≫= f).
Proof. apply all_ops_bind. Qed.

Lemma plain_op {X} (e : clientE X) : client_op X e ∅ → plain (trigger e).
Proof. by split. Qed.

Lemma plain_handleEnvelope e : plain (handleEnvelope e).
Proof.
  unfold handleEnvelope. destruct (env_type e) eqn:Hty; try done.
  - apply plain_bind; [done|]. intros _. by case_match.
  - unfold handleChatPush. destruct (has_chat_push e) eqn:Hhas; cbn [negb]; [|done].
    apply plain_bind; [done|]. intros []; [|done].
    apply plain_bind; [done|]. intros _. split; [done|]. intros [] Hq. cbn [negb].
    cbn [bind prog_ret]. case_match; [done|]. apply (plain_bind now_ms); [done|]. intros now.
    apply plain_bind; [|done]. apply plain_send. right. right. by exists now, e.
  - unfold handleAck. case_match; [done|]. by apply plain_bind.
Qed.

Lemma plain_receive b : plain (receive b).
Proof.
  apply plain_bind; [done|]. intros [| |data]; [done|done|]. apply plain_bind.
  - apply all_ops_for_each, plain_handleEnvelope.
  - intros _. by case_match.
Qed.

Lemma plain_receiverLoop turns b : plain (receiverLoop turns b).
Proof.
  induction turns as [|turns IH] in b |- *; [done|]. apply plain_bind; [done|].
  intros []; [done|]. apply plain_bind; [apply plain_receive|]. intros [b'|]; [apply IH|done].
Qed.

Lemma plain_resend es : (∀ r, r ∈ es → r ∈ G) → plain (resend es).
Proof.
  induction es as [|e es IH]; intros Hes; [done|]. apply plain_bind; [done|].
  intros []; [done|]. apply plain_bind; [apply plain_send; left; apply Hes; left|].
  intros []; [|done]. apply IH. intros r Hr. apply Hes. by right.
Qed.

Lemma plain_retryLoop turns : plain (retryLoop turns).
Proof.
  induction turns as [|turns IH]; [done|]. apply plain_bind; [done|]. intros []; [done|].
  apply plain_bind; [done|]. intros now. split; [done|]. intros es Hes.
  apply (plain_bind (resend es) (λ go : bool, if go then retryLoop turns else mret tt));
    [by apply plain_resend|]. by intros [].
Qed.

Lemma plain_stopClient : plain stopClient.
Proof. by repeat split. Qed.

Lemma plain_startClient : plain (startClient uid).
Proof.
  do 4 (apply plain_bind; [done|]; intros _). apply plain_bind; [done|]. intros []; [|done].
  cbn [negb]. apply plain_bind; [done|]. intros _. apply plain_bind; [done|]. intros now.
  apply plain_bind; [apply plain_send; right; left; eauto|]. intros []; [|by repeat split].
  cbn [negb]. apply plain_bind; [done|]. intros []; by repeat split.
Qed.

(** *** Every operation keeps the invariant *)

Definition pending_ok (c : Client) (seq : N) (p : PendingAck) : Prop :=
  pa_envelope p ∈ issued c ∧ env_seq (pa_envelope p) = seq ∧
  (0 ≤ pa_retry_count p ≤ kMaxRetryCount)%Z.

(** Operations that draw no number and register nothing. *)
Lemma inv_keep n T c c' :
  client_inv (S n) T c → c_statics c' = c_statics c → issued c' = issued c →
  (∀ seq p, pending_acks c' !! seq = Some p → pending_ok c seq p) →
  (∀ w, w ∈ wire c' → ∃ r, prefix w (Encode r) ∧ (r ∈ G ∨ control r) ∧
    (accepting env → w = Encode r)) →
  client_inv n T c'.
Proof.
  intros [Hr Ht Hi Hu Hp Hw] Hs His Hp' Hw'. unfold pending_ok in Hp'.
  split; unfold below; rewrite ?Hs, ?His; try done. lia.
Qed.

Lemma inv_same n T c c' :
  client_inv (S n) T c → c_statics c' = c_statics c → issued c' = issued c →
  pending_acks c' = pending_acks c → wire c' = wire c → client_inv n T c'.
Proof.
  intros Hc Hs Hi Hp Hw. apply (inv_keep n T c); rewrite ?Hp, ?Hw; try done; apply Hc.
Qed.

Lemma scan_ok n T c now :
  client_inv (S n) T c → client_inv n T (client_exec env _ (CScan now) c).1.
Proof.
  intros Hc. pose proof (scan_lookup env now c) as Hl. cbn [client_exec] in Hl |- *.
  destruct (scan_loop now _ _) as [m es]. cbn in Hl |- *.
  apply (inv_keep n T c); try done; [|apply Hc]. cbn. intros seq p. rewrite Hl.
  intros (q & Hq & He)%bind_Some. destruct (ci_pending _ _ _ Hc _ _ Hq) as (Hin & Hseq & Hcnt).
  unfold scan_entry in He. repeat case_match; cbn in He; simplify_eq; [done|].
  split; [done|]. split; [done|]. cbn. rewrite Z.leb_gt in *. lia.
Qed.

Lemma register_ok n T c seq no now now' to msg t :
  client_inv (S n) T c → {[inl seq; inr no]} ⊆ T →
  client_inv n (T ∖ {[inl seq; inr no]})
    (register seq {| pa_envelope := request seq no now now' to msg; last_send_ms := t;
                     pa_retry_count := 0 |} c).
Proof.
  intros [Hr Ht Hi Hu Hp Hw] HU.
  assert (inl seq ∈ T ∧ inr no ∈ T) as [Hs Hno] by set_solver.
  assert (∀ r, r ∈ issued c → env_seq r ≠ seq ∧
    chat_req_client_msg_id (chat_req r) ≠ client_msg_id_text uid now no) as Hfresh.
  { intros r (s & k & w & w' & to' & m & -> & _ & _ & Hs' & Hk')%Hi. cbn. split.
    - by intros ->.
    - intros ->%client_msg_id_text_inj. done. }
  set (r0 := request seq no now now' to msg).
  assert (∀ i j r r', issued c !! i = Some r → [r0] !! j = Some r' →
    ¬ (env_seq r = env_seq r' ∨
       chat_req_client_msg_id (chat_req r) = chat_req_client_msg_id (chat_req r'))) as Hcross.
  { intros i [|j] r r' Hri [= <-].
    destruct (Hfresh r) as [H1 H2]; [by eapply list_elem_of_lookup_2|]. by intros [|]. }
  split; cbn [c_statics issued pending_acks wire register pa_envelope]; unfold below;
    cbn [c_statics register].
  - lia.
  - intros u Hu'. apply Ht. set_solver.
  - intros r [Hin|Heq%list_elem_of_singleton]%elem_of_app.
    + destruct (Hi r Hin) as (s & k & w & w' & to' & m & -> & Hs1 & Hk1 & Hs2 & Hk2).
      exists s, k, w, w', to', m. split_and!; try done; set_solver.
    + subst r. exists seq, no, now, now', to, msg. split_and!; [done|..].
      * by apply (Ht (inl seq)).
      * by apply (Ht (inr no)).
      * set_solver.
      * set_solver.
  - intros i j r r' Hri Hrj Hrr. apply lookup_app_Some in Hri as [Hri|[Hli Hri]],
      Hrj as [Hrj|[Hlj Hrj]].
    + by eapply Hu.
    + by destruct (Hcross _ _ _ _ Hri Hrj).
    + destruct (Hcross _ _ _ _ Hrj Hri). destruct Hrr as [<-|<-]; auto.
    + apply list_lookup_singleton_Some in Hri as [Hi0 _], Hrj as [Hj0 _]. lia.
  - intros s p [[<- <-]|[Hne Hp']]%lookup_insert_Some.
    + split; [apply elem_of_app; right; by apply list_elem_of_singleton|].
      split; [done|]. unfold kMaxRetryCount. cbn. lia.
    + destruct (Hp _ _ Hp') as (Hin & ? & ?). split; [apply elem_of_app; by left|done].
  - exact Hw.
Qed.

Lemma send_ok n T c r :
  client_inv (S n) T c → r ∈ G ∨ control r →
  client_inv n T (client_exec env _ (CSend (Encode r)) c).1.
Proof.
  intros Hc Hr. cbn [client_exec].
  pose proof (sendAll_prefix (ce_send env (c_tick c)) (Encode r)) as Hpre.
  pose proof (λ H, sendAll_accepting (ce_send env (c_tick c)) (Encode r) H) as Hall.
  destruct (sendAll _ _) as [w ok]. cbn in *. apply (inv_keep n T c); try done; [apply Hc|].
  cbn. intros w' [Hw|Hw%list_elem_of_singleton]%elem_of_app; [by apply (ci_wire _ _ _ Hc)|].
  subst w'. exists r. split_and!; [done..|]. intros Ha. apply Hall, Ha.
Qed.

Lemma draw_seq_ok n T c :
  client_inv (S n) T c →
  let r := client_exec env _ CNextSeq c in
  {[inl r.2]} ## T ∧ client_inv n (T ∪ {[inl r.2]}) r.1.
Proof.
  intros [Hr Ht Hi Hu Hp Hw]. cbn [client_exec fst snd].
  assert (u64 (next_seq (c_statics c) + 1) = next_seq (c_statics c) + 1) as Hs
    by (apply u64_small; lia).
  assert (inl (next_seq (c_statics c)) ∉ T) as Hfresh
    by (intros Hin%Ht; cbn in Hin; lia).
  split; [set_solver -Ht Hi Hu Hp Hw|].
  split; try done; unfold below; cbn; rewrite ?Hs.
  - lia.
  - intros [s|k] [Hin|Hin%elem_of_singleton]%elem_of_union; try (by apply Ht in Hin); try done.
    + apply Ht in Hin. cbn in Hin. lia.
    + injection Hin as ->. lia.
  - intros r (s & k & w & w' & to' & m & -> & Hs1 & Hk1 & Hs2 & Hk2)%Hi.
    unfold below in Hs1, Hk1. exists s, k, w, w', to', m. split_and!; [done|lia|done|..];
      rewrite not_elem_of_union, not_elem_of_singleton; (split; [done|]); [|done].
    intros [= ->]. lia.
Qed.

Lemma draw_no_ok n T c :
  client_inv (S n) T c →
  let r := client_exec env _ CNextMsgNo c in
  {[inr r.2]} ## T ∧ client_inv n (T ∪ {[inr r.2]}) r.1.
Proof.
  intros [Hr Ht Hi Hu Hp Hw]. cbn [client_exec fst snd].
  assert (u64 (next_client_msg_no (c_statics c) + 1) = next_client_msg_no (c_statics c) + 1) as Hs
    by (apply u64_small; lia).
  assert (inr (next_client_msg_no (c_statics c)) ∉ T) as Hfresh
    by (intros Hin%Ht; cbn in Hin; lia).
  split; [set_solver -Ht Hi Hu Hp Hw|].
  split; try done; unfold below; cbn; rewrite ?Hs.
  - lia.
  - intros [s|k] [Hin|Hin%elem_of_singleton]%elem_of_union; try (by apply Ht in Hin); try done.
    + apply Ht in Hin. cbn in Hin. lia.
    + injection Hin as ->. lia.
  - intros r (s & k & w & w' & to' & m & -> & Hs1 & Hk1 & Hs2 & Hk2)%Hi.
    unfold below in Hs1, Hk1. exists s, k, w, w', to', m. split_and!; [done|done|lia|..];
      rewrite not_elem_of_union, not_elem_of_singleton; (split; [done|]); [done|].
    intros [= ->]. lia.
Qed.

Lemma issued_past X (e : clientE X) c :
  issued_later (client_exec env X e c).1 → issued_later c.
Proof.
  unfold issued_later. destruct e; cbn [client_exec fst]; try done.
  - by destruct (login_done (c_login c)).
  - intros [H Hq]. split; [|done]. intros r Hr. apply H. apply elem_of_app. by left.
  - by destruct (scan_loop _ _ _).
  - intros [H Hq]. split; [done|]. intros r Hr. apply Hq. apply elem_of_app. by left.
  - by destruct (sendAll _ _).
Qed.

Lemma client_op_step n T U X (e : clientE X) c :
  client_inv (S n) T c → client_op X e U → U ⊆ T → issued_later (client_exec env X e c).1 →
  let r := client_exec env X e c in
  drawn X e r.2 ## T ∧ learnt X e r.2 ∧ client_inv n (T ∖ U ∪ drawn X e r.2) r.1.
Proof.
  intros Hc He HU Hlater r. unfold r.
  assert (T ∖ ∅ ∪ ∅ = T) as HT by set_solver.
  assert ((∅ : gset token) ## T) as Hd by set_solver.
  destruct e; cbn [client_op drawn learnt] in He |- *;
    try (subst U; rewrite HT; split; [done|]; split; [done|];
         apply (inv_same n T c); try done; cbn [client_exec fst]; by destruct (login_done (c_login c))).
  - subst U. replace (T ∖ ∅) with T by set_solver. destruct (draw_seq_ok n T c Hc). done.
  - subst U. replace (T ∖ ∅) with T by set_solver. destruct (draw_no_ok n T c Hc). done.
  - subst U. rewrite HT. split; [done|]. split; [done|].
    apply (inv_keep n T c); try done; apply Hc.
  - destruct He as (no & now & now' & to & msg & -> & ->). split; [done|]. split.
    + apply Hlater. cbn. apply elem_of_app. right. by apply list_elem_of_singleton.
    + rewrite union_empty_r_L. by apply register_ok.
  - subst U. rewrite HT. split; [done|]. split; [done|].
    apply (inv_keep n T c); try done; [|apply Hc].
    cbn. intros s p [_ Hp]%lookup_delete_Some. by apply (ci_pending _ _ _ Hc).
  - subst U. rewrite HT. split; [done|]. split; [|by apply scan_ok].
    intros r' (s & p & Hp & <- & _)%scan_out_pending. apply (proj1 (issued_past _ _ _ Hlater)).
    by apply (ci_pending _ _ _ Hc _ _ Hp).
  - subst U. rewrite HT. split; [done|]. split; [|by apply (inv_same n T c)].
    apply (proj2 Hlater). cbn. apply elem_of_app. right. by apply list_elem_of_singleton.
  - destruct He as (-> & r' & -> & Hr). rewrite HT. split; [done|]. split; [done|].
    by apply send_ok.
Qed.
End identity.

(** ** Whole clients *)
Section runs.
Context {P : Protobuf}.
Variable uid : N.

(** What the application asks of the client. *)
Inductive client_call := CallStart | CallSend (to_uid : N) (msg : string) | CallStop.

Definition do_call (x : client_call) : cli unit :=
  match x with
  | CallStart => _ ← startClient uid; mret tt
  | CallSend to_uid msg => _ ← sendMessage uid to_uid msg; mret tt
  | CallStop => stopClient
  end.

(** An application thread, the receiving thread or the retry thread. *)
Definition client_thread (p : cli unit) : Prop :=
  (∃ calls, p = for_each calls do_call) ∨ (∃ turns, p = receiverLoop turns []) ∨
  ∃ turns, p = retryLoop turns.

Definition no_requests (c : Client) : Prop := issued c = [] ∧ pending_acks c = ∅ ∧ wire c = [].

Lemma own_thread G q p : client_thread p → owns (client_op uid G q) drawn (learnt G q) ∅ p.
Proof.
  intros [[calls ->]|[[turns ->]|[turns ->]]].
  - apply owns_for_each. intros [|to msg|]; cbn [do_call].
    + apply owns_free. apply plain_bind; [apply plain_startClient|done].
    + apply (owns_bind _ _ _ ∅ (sendMessage uid to msg) (λ _, mret tt)); [apply own_sendMessage|done].
    + apply owns_free, plain_stopClient.
  - apply owns_free, plain_receiverLoop.
  - apply owns_free, plain_retryLoop.
Qed.

Lemma union_empties {A} `{Countable A} n : ⋃ replicate n (∅ : gset A) = ∅.
Proof. induction n as [|n IH]; [done|]. cbn [replicate]. rewrite union_list_cons, IH. by apply union_empty_l_L. Qed.

Lemma no_requests_inv env G q n c :
  no_requests c → next_seq (c_statics c) + N.of_nat n < two64 →
  next_client_msg_no (c_statics c) + N.of_nat n < two64 → client_inv uid env G q n ∅ c.
Proof.
  intros (Hi & Hp & Hw) Hs Hk.
  split; rewrite ?Hi, ?Hp, ?Hw; try done; by intros ? ?%not_elem_of_nil.
Qed.

Lemma client_run_inv env n c ts c' ts' :
  no_requests c → next_seq (c_statics c) + N.of_nat n < two64 →
  next_client_msg_no (c_statics c) + N.of_nat n < two64 → Forall client_thread ts →
  nsteps (tstep (client_exec env)) n (c, ts) (c', ts') →
  ∃ T, client_inv uid env (issued c') (message_queue c') 0 T c'.
Proof.
  intros Hc Hs Hk Hts Hn.
  set (G := issued c'). set (q := message_queue c').
  destruct (tokens_invariant (client_exec env) (client_op uid G q) drawn (learnt G q)
    (issued_later G q) (client_inv uid env G q) (issued_past env G q)
    (λ m T U X e s, client_op_step uid env G q m T U X e s) n c ts c' ts'
    (replicate (length ts) ∅) 0 Hn) as (Ts & _ & HI).
  - by split.
  - split.
    + apply Forall2_replicate_l; [done|]. eapply Forall_impl; [exact Hts|]. intros p. apply own_thread.
    + intros i j T U _ [-> _]%lookup_replicate [-> _]%lookup_replicate. apply disjoint_empty_l.
  - rewrite union_empties, Nat.add_0_r. by apply no_requests_inv.
  - by exists (⋃ Ts).
Qed.
End runs.

(** ** Properties *)

(** C10. Requests keep their identity.  However the application's threads, the
    receiver and the retry thread interleave, and whatever the network and the
    clock do, every frame the client writes is (or, if the socket fails, begins)
    the frame of a login request of its user, of the acknowledgement of a push
    it has queued, or, at first or again, of the one request issued for a
    message; requests never share a sequence number or a client
    message id, and what awaits an ACK is an issued request under its own
    sequence number, repeated at most five times. *)
Theorem requests_identified `{Protobuf} uid env n c ts c' ts' :
  no_requests c → next_seq (c_statics c) + N.of_nat n < two64 →
  next_client_msg_no (c_statics c) + N.of_nat n < two64 → Forall (client_thread uid) ts →
  nsteps (tstep (client_exec env)) n (c, ts) (c', ts') →
  (∀ w, w ∈ wire c' → ∃ r, prefix w (Encode r) ∧
    (r ∈ issued c' ∨ control uid (message_queue c') r)) ∧
  (∀ i j r r', issued c' !! i = Some r → issued c' !! j = Some r' →
    env_seq r = env_seq r' ∨
    chat_req_client_msg_id (chat_req r) = chat_req_client_msg_id (chat_req r') → i = j) ∧
  ∀ seq p, pending_acks c' !! seq = Some p →
    pa_envelope p ∈ issued c' ∧ env_seq (pa_envelope p) = seq ∧ (0 ≤ pa_retry_count p ≤ 5)%Z.
Proof.
  intros Hc Hs Hk Hts Hn. destruct (client_run_inv _ _ _ _ _ _ _ Hc Hs Hk Hts Hn) as (T & HI).
  split; [|split; apply HI]. intros w (r & Hpre & Hr & _)%(ci_wire _ _ _ _ _ _ _ HI). by exists r.
Qed.

(** C27. The retry scan.  With the clock not behind the last transmissions, it
    leaves an entry alone until two seconds times one more than its number of
    retries have passed; then it sends it again, once, counted and stamped, or
    gives it up after five retries.  The order in which the standard library
    visits the table does not matter. *)
Theorem retry_scan_exact env now c :
  now < two64 →
  (∀ seq p, pending_acks c !! seq = Some p →
    last_send_ms p ≤ now ∧ (0 ≤ pa_retry_count p ≤ 5)%Z) →
  let due p := 2000 * (Z.to_N (pa_retry_count p) + 1) <=? now - last_send_ms p in
  let r := client_exec env _ (CScan now) c in
  (∀ seq, pending_acks r.1 !! seq =
    p ← pending_acks c !! seq;
    if negb (due p) then Some p
    else if (pa_retry_count p =? 5)%Z then None
    else Some {| pa_envelope := pa_envelope p; last_send_ms := now;
                 pa_retry_count := pa_retry_count p + 1 |}) ∧
  r.2 ≡ₚ pa_envelope <$>
    filter (λ p, due p = true ∧ pa_retry_count p ≠ 5%Z) (snd <$> map_to_list (pending_acks c)).
Proof.
  intros Hnow Hp due r.
  assert (∀ seq p, pending_acks c !! seq = Some p → scan_entry now p =
    if negb (due p) then (Some p, None)
    else if (pa_retry_count p =? 5)%Z then (None, None)
    else (Some {| pa_envelope := pa_envelope p; last_send_ms := now;
                  pa_retry_count := pa_retry_count p + 1 |}, Some (pa_envelope p))) as Hentry.
  { intros seq p Hq. destruct (Hp _ _ Hq) as [Hle Hcnt]. unfold scan_entry, due.
    rewrite retry_timeout_small, usub64_le by (unfold kMaxRetryCount; lia || done).
    change kBaseRetryTimeoutMs with 2000.
    destruct (_ <=? now - _) eqn:E; cbn [negb].
    - apply N.leb_le in E. destruct (_ <? _) eqn:E2; [apply N.ltb_lt in E2; lia|].
      unfold kMaxRetryCount. destruct (pa_retry_count p =? 5)%Z eqn:E3.
      + apply Z.eqb_eq in E3. by rewrite E3.
      + apply Z.eqb_neq in E3. destruct (5 <=? _)%Z eqn:E4; [apply Z.leb_le in E4; lia|done].
    - apply N.leb_gt in E. destruct (_ <? _) eqn:E2; [done|apply N.ltb_ge in E2; lia]. }
  split.
  - intros seq. unfold r. rewrite scan_lookup.
    destruct (pending_acks c !! seq) as [p|] eqn:Hq; [|done]. cbn.
    rewrite (Hentry seq p Hq). by destruct (due p), (pa_retry_count p =? 5)%Z.
  - unfold r. rewrite scan_out.
    assert (Forall (λ x, pending_acks c !! x.1 = Some x.2) (map_to_list (pending_acks c))) as Hall.
    { apply Forall_forall. intros [k p]. apply elem_of_map_to_list. }
    induction Hall as [|[k p] l Hk _ IH]; [done|]. cbn [omap list_omap fmap list_fmap snd].
    rewrite (Hentry k p Hk), filter_cons. cbn in IH.
    destruct (due p); cbn [negb snd].
    + destruct (pa_retry_count p =? 5)%Z eqn:E.
      * rewrite decide_False; [exact IH|]. apply Z.eqb_eq in E. tauto.
      * rewrite decide_True by (split; [done|by apply Z.eqb_neq]). cbn. by f_equiv.
    + rewrite decide_False by (by intros [? ?]). exact IH.
Qed.

(** The frames of an operation that may fail to serialise. *)
Definition written (env : client_env) (t : nat) (e : Envelope) `{Protobuf} : list bytes :=
  if decide (Encode e = []) then [] else [(sendAll (ce_send env t) (Encode e)).1].

(** What the reaction to a push does. *)
Lemma handleEnvelope_push `{Protobuf} env e c :
  env_type e = CHAT_PUSH → has_chat_push e = true →
  let r := (run (client_exec env) (handleEnvelope e) c).1 in
  pending_acks r = pending_acks c ∧ c_login r = c_login c ∧
  if login_ok (c_login c) then
    message_queue r = message_queue c ++ [e] ∧
    chat_push_count (c_counts r) = int32 (chat_push_count (c_counts c) + 1) ∧
    wire r = wire c ++
      (if push_history (chat_push e) then []
       else written env (c_tick c + 4) (EnvelopeFactory.CreateAck (ce_clock env (c_tick c + 3))
              (env_seq e) (push_msg_id (chat_push e)) true ""))
  else message_queue r = message_queue c ∧ c_counts r = c_counts c ∧ wire r = wire c.
Proof.
  intros Ht Hp. unfold handleEnvelope, handleChatPush. rewrite Ht, Hp. cbn [negb].
  cbn [bind mbind prog_bind trigger run client_exec].
  destruct (login_ok (c_login c)) eqn:Hl; cbn [negb mret prog_ret run fst]; [|done].
  cbn [bind mbind prog_bind trigger run client_exec].
  destruct (push_history (chat_push e)); cbn [mret prog_ret run fst].
  { split_and!; try done. symmetry. apply app_nil_r. }
  cbn [bind mbind prog_bind trigger run client_exec now_ms]. unfold written, sendEnvelope.
  replace (c_tick c + 3)%nat with (S (S (S (c_tick c)))) by lia.
  replace (c_tick c + 4)%nat with (S (S (S (S (c_tick c))))) by lia.
  cbn [c_tick set_stop set_counts set_queue].
  case_decide as He; cbn [bind mbind prog_bind mret prog_ret trigger run client_exec fst c_tick
    set_stop set_counts set_queue]; [split_and!; try done; symmetry; apply app_nil_r|].
  by destruct (sendAll _ _) as [w ok].
Qed.

(** C28. Pushes are kept and acknowledged.  Once logged in, the client appends
    every push to its queue and, unless it is history, answers it with exactly
    one ACK that names the message and the sequence number of the push; before
    the login succeeds a push changes nothing, so it is delivered again. *)
Theorem push_acknowledged `{Protobuf} env e c :
  env_type e = CHAT_PUSH → has_chat_push e = true →
  let r := (run (client_exec env) (handleEnvelope e) c).1 in
  pending_acks r = pending_acks c ∧ c_login r = c_login c ∧
  if login_ok (c_login c) then
    message_queue r = message_queue c ++ [e] ∧
    chat_push_count (c_counts r) = int32 (chat_push_count (c_counts c) + 1) ∧
    wire r = wire c ++
      (if push_history (chat_push e) then []
       else written env (c_tick c + 4) (EnvelopeFactory.CreateAck (ce_clock env (c_tick c + 3))
              (env_seq e) (push_msg_id (chat_push e)) true ""))
  else message_queue r = message_queue c ∧ c_counts r = c_counts c ∧ wire r = wire c.
Proof. apply handleEnvelope_push. Qed.

(** [sendAll] writes the frame.  Whatever the calls to [send] return, the
    bytes written are the beginning of the frame; it succeeds exactly when they
    are all of it, and fails only because a call, made for the bytes still
    missing and at most one more than there are bytes written, returned zero or
    an error.  The bound on the number of calls is never the reason. *)
Theorem sendAll_exact send frame :
  let (w, ok) := sendAll send frame in
  prefix w frame ∧ (ok = true ↔ w = frame) ∧
  (ok = false → ∃ k, (k <= length w)%nat ∧ (send k (bsize (drop (length w) frame)) <= 0)%Z).
Proof.
  pose proof (send_loop_exact (length frame) send 0 frame ltac:(done)) as H. unfold sendAll.
  destruct (send_loop _ _ _ _) as [w ok]. cbn [fst snd] in H. destruct H as [Hpre H].
  split; [done|]. destruct ok.
  - by split.
  - destruct H as (Hne & j & Hj & Hs). split; [by split|]. intros _. exists j. split; [lia|done].
Qed.
