(* ===== verification/Retransmit.v ===== *)
(** * How often a request is written

    In every interleaving of the client's threads the frame of a request is
    written at most once more than it was repeated: six times in all. *)

From S2P Require Import Prelude Decimal Message WireInstance Codec Prog Tokens Budget Client ClientSafety.
Local Open Scope N_scope.

(** A frame does not begin with another one. *)
Lemma Encode_prefix `{PL : ProtobufLaws} e r :
  sendable e → sendable r → Encode r `prefix_of` Encode e → e = r.
Proof.
  intros (He & be & Hse & Hle) (Hr & br & Hsr & Hlr) Hp. unfold Encode in Hp. rewrite Hse, Hsr in Hp.
  rewrite !u32_small in Hp by done. destruct Hp as [tail Hp].
  pose proof (f_equal (take 4) Hp) as Hh. rewrite <-app_assoc in Hh.
  change (htonl_bytes (bsize be) = htonl_bytes (bsize br)) in Hh.
  apply (f_equal ntohl_bytes) in Hh. rewrite !ntohl_htonl in Hh by done.
  rewrite Hh, <-app_assoc in Hp. apply app_inv_head in Hp. subst be.
  rewrite size_app in Hh. assert (tail = []) as ->.
  { destruct tail; [done|]. unfold bsize in Hh. cbn in Hh. lia. }
  rewrite app_nil_r in Hse. apply parse_serialize in Hse; [|done]. apply parse_serialize in Hsr; [|done].
  congruence.
Qed.

Section retransmit.
Context {P : Protobuf} {PL : ProtobufLaws P}.
Variable uid : N.
Variable env : client_env.

(** The requests issued and the pushes queued when the run ends, and the request
    in question. *)
Variables (G queue : list Envelope) (r : Envelope).

(** What the client may write: the requests issued, login requests, and the
    acknowledgements of the pushes queued. *)
Definition may_send (e : Envelope) : Prop :=
  e ∈ G ∨ (∃ t, e = EnvelopeFactory.CreateLoginRequest (ce_clock env t) 1 uid) ∨
  ∃ t p, p ∈ queue ∧ env_type p = CHAT_PUSH ∧ has_chat_push p = true ∧ e = ack_of (ce_clock env t) p.

Record one_run : Prop := {
  or_sendable : ∀ e, may_send e → sendable e;
  or_request : r ∈ G;
  or_nodup : NoDup G;
  or_seq : ∀ e, e ∈ G → env_seq e = env_seq r → e = r;
  or_type : ∀ e, e ∈ G → env_type e = CHAT_REQ }.

Definition times (es : list Envelope) : nat := length (filter (λ e, e = r) es).

Definition op_ok (X : Type) (e : clientE X) : Prop :=
  match e with
  | CRegister seq q => env_seq q = seq
  | CSend frame => ∃ q, frame = Encode q ∧ may_send q
  | _ => True
  end.

Definition op_cost (X : Type) (e : clientE X) : nat :=
  match e with CSend frame => if decide (frame = Encode r) then 1 else 0 | _ => 0 end.

Definition op_earn (X : Type) (e : clientE X) : X → nat :=
  match e in clientE X return X → nat with
  | CRegister _ q => λ _, times [q]
  | CScan _ => times
  | _ => λ _, 0%nat
  end.

Definition op_learnt (X : Type) (e : clientE X) : X → Prop :=
  match e in clientE X return X → Prop with
  | CNow => λ now, ∃ t, now = ce_clock env t
  | CRegister _ q => λ _, q ∈ G
  | CScan _ => λ es, ∀ q, q ∈ es → q ∈ G
  | CPush p => λ _, p ∈ queue
  | _ => λ _, True
  end.

Definition ends_in (c : Client) : Prop :=
  issued c `prefix_of` G ∧ ∀ p, p ∈ message_queue c → p ∈ queue.

(** Frames of [r] written, and how many there may have been. *)
Definition frames_written (c : Client) : nat := length (filter (λ w, w = Encode r) (wire c)).

Definition allowance (c : Client) : nat :=
  if decide (r ∈ issued c) then
    match pending_acks c !! env_seq r with
    | Some p => S (Z.to_nat (pa_retry_count p))
    | None => 6
    end
  else 0.

Record within (b : nat) (c : Client) : Prop := {
  wi_pending : ∀ seq p, pending_acks c !! seq = Some p →
    pa_envelope p ∈ issued c ∧ env_seq (pa_envelope p) = seq ∧ (0 ≤ pa_retry_count p ≤ 5)%Z;
  wi_count : (frames_written c + b <= allowance c)%nat }.

Local Abbreviation affordable := (affords op_ok op_cost op_earn op_learnt).

Hypothesis Hrun : one_run.

(** ** The programs *)

Lemma may_send_inj e : may_send e → Encode r `prefix_of` Encode e → e = r.
Proof.
  intros He. apply Encode_prefix; apply (or_sendable Hrun); [done|]. left. apply (or_request Hrun).
Qed.

Lemma afford_send e b : may_send e → (times [e] <= b)%nat → affordable b (sendEnvelope e).
Proof.
  intros He Hb. unfold sendEnvelope. case_decide; [done|]. split; [by exists e|]. split; [|done].
  cbn. case_decide as Heq; [|lia].
  assert (e = r) as -> by (apply may_send_inj; [done|by rewrite Heq]).
  unfold times in Hb. by rewrite filter_cons_True in Hb by done.
Qed.

(** What is not a request costs nothing. *)
Lemma afford_control e : may_send e → env_type e ≠ CHAT_REQ → affordable 0 (sendEnvelope e).
Proof.
  intros He Ht. apply afford_send; [done|]. unfold times. rewrite filter_cons_False; [done|].
  intros ->. apply Ht, (or_type Hrun), (or_request Hrun).
Qed.

Lemma afford_op {A} X (e : clientE X) (k : X → cli A) :
  op_ok X e → op_cost X e = 0%nat → (∀ x, op_learnt X e x → affordable 0 (k x)) → affordable 0 (Do e k).
Proof.
  intros He Hc Hk. split; [done|]. split; [lia|]. intros x Hx. eapply affords_mono; [|by apply Hk]. lia.
Qed.

Lemma afford_sendMessage to msg : affordable 0 (sendMessage uid to msg).
Proof.
  apply afford_op; [done..|]. intros [] _; [done|]. apply afford_op; [done..|]. intros [] _; [|done].
  apply afford_op; [done..|]. intros seq _. apply afford_op; [done..|]. intros no _.
  apply afford_op; [done..|]. intros now _. apply afford_op; [done..|]. intros now' _.
  set (q := EnvelopeFactory.CreateChatRequest _ _ _ _ _ _).
  split; [done|]. split; [done|]. intros [] Hq.
  apply (affords_bind _ _ _ _ (sendEnvelope q)
    (λ sent : bool, if sent then mret true else _ ← trigger (CForget seq); mret false)).
  - apply afford_send; [by left|]. cbn. lia.
  - intros []; [done|]. by apply afford_op.
Qed.

Lemma afford_handleEnvelope e : affordable 0 (handleEnvelope e).
Proof.
  unfold handleEnvelope. destruct (env_type e) eqn:Ht; try done.
  - unfold handleLoginResponse. apply afford_op; [done..|]. intros [] _. cbn [bind prog_ret].
    case_match; by apply afford_op.
  - unfold handleChatPush. destruct (has_chat_push e) eqn:Hhas; cbn [negb]; [|done].
    apply afford_op; [done..|]. intros [] _; [|done]. apply afford_op; [done..|]. intros [] _.
    apply afford_op; [done..|]. intros [] Hq. cbn [bind prog_ret]. case_match; [done|].
    apply afford_op; [done..|]. intros ? [t ->].
    apply (affords_bind _ _ _ _ (sendEnvelope (ack_of (ce_clock env t) e)) (λ _, mret tt)); [|done].
    apply afford_control; [|done]. right. right. by exists t, e.
  - unfold handleAck. case_match; [done|]. apply afford_op; [done..|]. intros [] _. by apply afford_op.
Qed.

Lemma afford_receiverLoop turns b : affordable 0 (receiverLoop turns b).
Proof.
  induction turns as [|turns IH] in b |- *; [done|]. apply afford_op; [done..|].
  intros [] _; [done|]. apply (affords_bind _ _ _ _ (receive b)
    (λ buffer, match buffer with None => mret tt | Some b => receiverLoop turns b end));
    [|by intros [b'|]].
  apply afford_op; [done..|]. intros [| |data] _.
  - do 2 (apply afford_op; [done..|]; intros [] _). done.
  - do 2 (apply afford_op; [done..|]; intros [] _). done.
  - apply (affords_bind _ _ _ _ (for_each _ handleEnvelope)).
    + apply affords_for_each, afford_handleEnvelope.
    + intros []. case_match; try done; do 3 (apply afford_op; [done..|]; intros [] _); done.
Qed.

Lemma times_cons e es : times (e :: es) = (times [e] + times es)%nat.
Proof. unfold times. rewrite !filter_cons. by case_decide. Qed.

(** Sending the first of what is to be sent again, and the rest. *)
Lemma afford_send_then {A} e (f : bool → cli A) b :
  may_send e → (times [e] <= b)%nat → (∀ ok, affordable (b - times [e]) (f ok)) →
  affordable b (sendEnvelope e ≫= f).
Proof.
  intros He Hb Hf. pose proof (afford_send e (times [e]) He ltac:(done)) as Hs. revert Hs.
  unfold sendEnvelope. case_decide.
  - intros _. eapply affords_mono; [|apply (Hf false)]. lia.
  - intros (HQ & Hc & _). split; [done|]. split; [lia|]. intros ok _.
    eapply affords_mono; [|apply (Hf ok)]. cbn [op_earn]. lia.
Qed.

Lemma afford_resend es : (∀ q, q ∈ es → q ∈ G) → affordable (times es) (resend es).
Proof.
  induction es as [|e es IH]; intros Hes; [done|]. split; [done|]. split; [cbn; lia|].
  intros [] _; [done|]. cbn [bind prog_ret]. rewrite times_cons. cbn [op_cost op_earn].
  apply afford_send_then; [left; apply Hes; left|lia|].
  intros []; [|by apply affords_mono with (b := 0%nat); [lia|apply afford_op]].
  eapply affords_mono; [|apply IH; intros q Hq; apply Hes; by right]. lia.
Qed.

Lemma afford_retryLoop turns : affordable 0 (retryLoop turns).
Proof.
  induction turns as [|turns IH]; [done|]. apply afford_op; [done..|]. intros [] _; [done|].
  apply afford_op; [done..|]. intros now _. split; [done|]. split; [done|]. intros es Hes.
  apply (affords_bind _ _ _ _ (resend es) (λ go : bool, if go then retryLoop turns else mret tt));
    [|by intros []].
  by apply afford_resend.
Qed.

Lemma afford_stopClient : affordable 0 stopClient.
Proof. by do 4 (apply afford_op; [done..|]; intros [] _). Qed.

Lemma afford_startClient : affordable 0 (startClient uid).
Proof.
  do 4 (apply afford_op; [done..|]; intros [] _). apply afford_op; [done..|]. intros [] _; [|done].
  apply afford_op; [done..|]. intros [] _. apply afford_op; [done..|]. intros ? [t ->].
  apply (affords_bind _ _ _ _ (sendEnvelope (EnvelopeFactory.CreateLoginRequest (ce_clock env t) 1 uid)) (λ sent : bool,
    if negb sent then _ ← stopClient; mret false
    else ok ← trigger CLoginWait;
         if negb ok then _ ← stopClient; mret false else _ ← trigger CSpawnRetry; mret true)).
  - apply afford_control; [|done]. right. left. by exists t.
  - intros []; cbn [negb]; [|by apply affords_bind; [apply afford_stopClient|]].
    apply afford_op; [done..|]. intros [] _; [by apply afford_op|].
    by apply affords_bind; [apply afford_stopClient|].
Qed.

Lemma afford_thread p : client_thread uid p → affordable 0 p.
Proof.
  intros [[calls ->]|[[turns ->]|[turns ->]]].
  - apply affords_for_each. intros [|to msg|]; cbn [do_call].
    + by apply affords_bind; [apply afford_startClient|].
    + by apply affords_bind; [apply afford_sendMessage|].
    + apply afford_stopClient.
  - apply afford_receiverLoop.
  - apply afford_retryLoop.
Qed.

(** ** The operations *)

Lemma elem_of_prefix {A} (x : A) l l' : x ∈ l → l `prefix_of` l' → x ∈ l'.
Proof. intros Hx [k ->]. apply elem_of_app. by left. Qed.

Lemma ends_in_past X (e : clientE X) c : ends_in (client_exec env X e c).1 → ends_in c.
Proof.
  unfold ends_in. destruct e; cbn [client_exec fst]; try done.
  - by destruct (login_done (c_login c)).
  - intros [[l Hl] Hq]. split; [|done]. exists ([e] ++ l). by rewrite app_assoc.
  - by destruct (scan_loop _ _ _).
  - intros [Hl Hq]. split; [done|]. intros p Hp. apply Hq. apply elem_of_app. by left.
  - by destruct (sendAll _ _).
Qed.

Lemma within_le b c c' :
  within b c → issued c' = issued c → wire c' = wire c →
  (∀ seq p, pending_acks c' !! seq = Some p → pending_acks c !! seq = Some p) → within b c'.
Proof.
  intros [Hp Hn] Hi Hw Hsub. split.
  - intros seq p H. rewrite Hi. by apply Hp, Hsub.
  - unfold frames_written, allowance in *. rewrite Hw, Hi. etrans; [exact Hn|]. case_decide; [|done].
    destruct (pending_acks c' !! env_seq r) as [p|] eqn:Hr.
    + by rewrite (Hsub _ _ Hr).
    + destruct (pending_acks c !! env_seq r) as [p|] eqn:Hr'; [|done].
      destruct (Hp _ _ Hr') as (_ & _ & ?). lia.
Qed.

Lemma times_none es : (∀ q, q ∈ es → q ≠ r) → times es = 0%nat.
Proof.
  intros Hes. induction es as [|e es IH]; [done|]. rewrite times_cons, IH by (intros q Hq; apply Hes; by right).
  unfold times. rewrite filter_cons_False; [done|]. apply Hes. by left.
Qed.

Lemma times_perm es es' : es ≡ₚ es' → times es = times es'.
Proof. intros H. unfold times. by rewrite H. Qed.

Lemma times_omap {A} (f : A → option Envelope) x l :
  times (omap f (x :: l)) = (times (option_list (f x)) + times (omap f l))%nat.
Proof.
  change (omap f (x :: l)) with (match f x with Some y => y :: omap f l | None => omap f l end).
  destruct (f x) as [e|]; [apply times_cons|done].
Qed.

(** The scan has [r] sent again once at most, and counts it. *)
Lemma scan_times now b c :
  within b c → issued c `prefix_of` G →
  (times (client_exec env _ (CScan now) c).2 <=
    match pending_acks c !! env_seq r with
    | Some p => if (scan_entry now p).2 is Some _ then 1 else 0
    | None => 0
    end)%nat.
Proof.
  intros [Hp _] Hpre. rewrite (times_perm _ _ (scan_out env now c)).
  assert (∀ m : gmap N PendingAck, (∀ seq p, m !! seq = Some p → pa_envelope p = r → seq = env_seq r) → m !! env_seq r = None →
    times (omap (λ x, (scan_entry now x.2).2) (map_to_list m)) = 0%nat) as Hnone.
  { intros m Hm Hr. apply times_none. intros q ([k p] & Hk%elem_of_map_to_list & Hq)%list_elem_of_omap ->.
    cbn in Hq. assert (pa_envelope p = r) as Hpr by (unfold scan_entry in Hq; repeat case_match; cbn in Hq; congruence).
    pose proof (Hm _ _ Hk Hpr). congruence. }
  assert (∀ seq p, pending_acks c !! seq = Some p → pa_envelope p = r → seq = env_seq r) as Hkey
    by (intros seq p H <-; by destruct (Hp _ _ H) as (_ & <- & _)).
  destruct (pending_acks c !! env_seq r) as [p|] eqn:Hr; [|by rewrite Hnone].
  rewrite <-(times_perm _ _ (omap_Permutation _ _ _ (map_to_list_delete _ _ _ Hr))), times_omap. cbn [snd].
  rewrite Hnone; [|by intros seq q [_ H]%lookup_delete_Some; apply Hkey|by rewrite lookup_delete_eq].
  destruct (scan_entry now p).2 as [e|]; [|done].
  change (option_list (Some e)) with [e]. unfold times. rewrite filter_cons. case_decide; cbn; lia.
Qed.

Lemma scan_within now b c :
  within b c → issued c `prefix_of` G →
  within (b + times (client_exec env _ (CScan now) c).2) (client_exec env _ (CScan now) c).1.
Proof.
  intros Hw Hpre. pose proof (scan_times now b c Hw Hpre) as Ht. pose proof (scan_lookup env now c) as Hl.
  destruct Hw as [Hp Hn]. set (es := (client_exec env _ (CScan now) c).2) in *.
  assert (issued (client_exec env _ (CScan now) c).1 = issued c ∧ wire (client_exec env _ (CScan now) c).1 = wire c)
    as [Hi Hw] by (cbn [client_exec]; by destruct (scan_loop _ _ _)).
  split.
  - intros seq p. rewrite Hl, Hi. intros (q & Hq & He)%bind_Some.
    destruct (Hp _ _ Hq) as (Hin & Hs & Hc).
    clear Ht. unfold scan_entry in He. repeat case_match; cbn in He; simplify_eq; [done|].
    split; [done|]. split; [done|]. cbn. unfold kMaxRetryCount in *. rewrite Z.leb_gt in *. lia.
  - unfold frames_written, allowance in *. rewrite Hw, Hi, Hl.
    destruct (pending_acks c !! env_seq r) as [p|] eqn:Hr; cbn [mbind option_bind]; [|lia].
    destruct (Hp _ _ Hr) as (Hin & Hs & Hc).
    assert (pa_envelope p = r) as Hpr.
    { apply (or_seq Hrun); [|done]. destruct Hpre as [l ->]. apply elem_of_app. by left. }
    rewrite Hpr in Hin. rewrite decide_True in * by done.
    unfold scan_entry in *. destruct (_ <? _); cbn in *; [lia|].
    destruct (_ <=? _)%Z; cbn in *; lia.
Qed.

Lemma register_within seq q t b c :
  within b c → env_seq q = seq → issued c ++ [q] `prefix_of` G →
  within (b + times [q]) (register seq {| pa_envelope := q; last_send_ms := t; pa_retry_count := 0 |} c).
Proof.
  intros [Hp Hn] Hs Hpre. assert (q ∈ G) as Hq.
  { destruct Hpre as [l ->]. rewrite !elem_of_app. left. right. by apply list_elem_of_singleton. }
  split; cbn [register pending_acks issued pa_envelope].
  - intros s p [[<- <-]|[Hne H]]%lookup_insert_Some; cbn.
    + split; [apply elem_of_app; right; by apply list_elem_of_singleton|]. split; [done|lia].
    + destruct (Hp _ _ H) as (? & ? & ?). split; [|done]. apply elem_of_app. by left.
  - unfold frames_written, allowance in *. cbn [register pending_acks issued wire].
    unfold times. rewrite filter_cons. destruct (decide (q = r)) as [Hqr|Hqr].
    + subst q. rewrite Hs, lookup_insert_eq. rewrite decide_False in Hn.
      * rewrite decide_True; [cbn; lia|]. apply elem_of_app. right. by apply list_elem_of_singleton.
      * intros Hin. pose proof (or_nodup Hrun) as Hnd. destruct Hpre as [l Hl]. rewrite Hl in Hnd.
        apply NoDup_app in Hnd as [Hnd _]. apply NoDup_app in Hnd as (_ & Hd & _).
        by apply (Hd r Hin), list_elem_of_singleton.
    + rewrite lookup_insert_ne by (intros ->; apply Hqr, (or_seq Hrun); [done|done]).
      cbn. rewrite Nat.add_0_r. etrans; [exact Hn|]. case_decide as Hin; [|lia].
      rewrite decide_True; [done|]. apply elem_of_app. by left.
Qed.

Lemma send_within frame b c :
  within b c → (∃ q, frame = Encode q ∧ may_send q) → (op_cost _ (CSend frame) <= b)%nat →
  within (b - op_cost _ (CSend frame)) (client_exec env _ (CSend frame) c).1.
Proof.
  intros [Hp Hn] (q & -> & Hq) Hc. cbn [client_exec].
  pose proof (sendAll_prefix (ce_send env (c_tick c)) (Encode q)) as Hpre.
  destruct (sendAll _ _) as [w ok]. cbn [fst] in *. split; [exact Hp|].
  unfold frames_written, allowance in *. cbn [add_wire wire issued pending_acks].
  rewrite filter_app, length_app, filter_cons. cbn [op_cost] in *.
  destruct (decide (w = Encode r)) as [->|Hw]; [|cbn; lia].
  rewrite (may_send_inj q Hq Hpre) in *. rewrite decide_True in * by done. cbn. lia.
Qed.

Lemma op_within b X (e : clientE X) c :
  within b c → op_ok X e → (op_cost X e <= b)%nat → ends_in (client_exec env X e c).1 →
  let x := client_exec env X e c in op_learnt X e x.2 ∧ within (b - op_cost X e + op_earn X e x.2) x.1.
Proof.
  intros Hw He Hc Hend x. unfold x. clear x.
  pose proof (ends_in_past _ _ _ Hend) as [Hpre _].
  destruct e; cbn [op_ok op_learnt op_earn] in He |- *;
    try (split; [done|]; cbn [op_cost]; rewrite Nat.sub_0_r, Nat.add_0_r;
         apply (within_le b c); try done; cbn [client_exec fst]; by destruct (login_done (c_login c))).
  - split; [by exists (c_tick c)|]. cbn [op_cost]. rewrite Nat.sub_0_r, Nat.add_0_r. by apply (within_le b c).
  - cbn in Hend. destruct Hend as [Hend _]. split.
    + apply (elem_of_prefix e (issued c ++ [e])); [|exact Hend].
      apply elem_of_app. right. by apply list_elem_of_singleton.
    + cbn [op_cost]. rewrite Nat.sub_0_r. by apply register_within.
  - split; [done|]. cbn [op_cost]. rewrite Nat.sub_0_r, Nat.add_0_r. apply (within_le b c); try done.
    cbn. by intros s p [_ H]%lookup_delete_Some.
  - split; [|cbn [op_cost]; rewrite Nat.sub_0_r; by apply scan_within].
    intros q (s & p & Hp & <- & _)%scan_out_pending. destruct (wi_pending _ _ Hw _ _ Hp) as (Hin & _).
    by eapply elem_of_prefix.
  - split; [|cbn [op_cost]; rewrite Nat.sub_0_r, Nat.add_0_r; by apply (within_le b c)].
    apply (proj2 Hend). cbn. apply elem_of_app. right. by apply list_elem_of_singleton.
  - split; [done|]. rewrite Nat.add_0_r. by apply send_within.
Qed.
End retransmit.

(** ** The property *)

(** C16. A request is written six times at most.  However the client's threads
    interleave, whatever the server, the socket and the clock do: among the
    pieces the client writes, the frame of a request it has issued occurs at most
    six times, and, while it is awaiting its ACK, at most once more than it has
    been sent again. *)
Theorem request_written_at_most `{PL : ProtobufLaws} uid env n c ts c' ts' r :
  no_requests c → next_seq (c_statics c) + N.of_nat n < two64 →
  next_client_msg_no (c_statics c) + N.of_nat n < two64 → Forall (client_thread uid) ts →
  nsteps (tstep (client_exec env)) n (c, ts) (c', ts') →
  (∀ e, may_send uid env (issued c') (message_queue c') e → sendable e) →
  r ∈ issued c' →
  (frames_written r c' <= 6)%nat ∧
  ∀ p, pending_acks c' !! env_seq r = Some p → (frames_written r c' <= Z.to_nat (pa_retry_count p) + 1)%nat.
Proof.
  intros Hc Hs Hk Hts Hn Hsend Hr.
  destruct (client_run_inv _ _ _ _ _ _ _ Hc Hs Hk Hts Hn) as (T & HI).
  assert (one_run uid env (issued c') (message_queue c') r) as Hrun.
  { split; try done.
    - apply NoDup_alt. intros i j e Hi Hj. eapply (ci_unique _ _ _ _ _ _ _ HI); [done..|by left].
    - intros e He Hseq. apply list_elem_of_lookup in He as [i Hi], Hr as [j Hj].
      pose proof (ci_unique _ _ _ _ _ _ _ HI i j e r Hi Hj (or_introl Hseq)). congruence.
    - intros e (s & no & t & t' & to & m & -> & _)%(ci_issued _ _ _ _ _ _ _ HI). done. }
  destruct Hc as (Hi & Hp & Hw).
  destruct (budget_invariant (client_exec env) (op_ok uid env (issued c') (message_queue c')) (op_cost r)
    (op_earn r) (op_learnt env (issued c') (message_queue c')) (ends_in (issued c') (message_queue c'))
    (within r) (ends_in_past env _ _) (λ b X e s, op_within uid env _ _ r Hrun b X e s)
    n c ts c' ts' (replicate (length ts) 0%nat) Hn) as (bs & _ & [Hpend Hcount]).
  - by split.
  - apply Forall2_replicate_l; [done|]. eapply Forall_impl; [exact Hts|]. intros p. by eapply afford_thread.
  - split; [by rewrite Hp|]. unfold frames_written. rewrite Hw, sum_list_replicate. cbn. lia.
  - unfold allowance in Hcount. rewrite decide_True in Hcount by done.
    destruct (pending_acks c' !! env_seq r) as [p|] eqn:Hpr.
    + destruct (Hpend _ _ Hpr) as (_ & _ & Hb). split; [lia|]. intros p' [= <-]. lia.
    + split; [lia|done].
Qed.
