(* ===== verification/ClientStream.v ===== *)
(** * What the client makes of the server's stream

    The client keeps the tail of what it has received as the server's sessions
    do.  With one receiver, the pushes it queues are pushes of the stream of
    bytes it has received, each once and in order, whatever the other threads
    do and however the bytes arrive. *)

From S2P Require Import Prelude Decimal Message WireInstance Codec Prog Dispatcher ChatServer.
From S2P Require Import Client ClientSafety.
Local Open Scope N_scope.

Local Abbreviation decode b := (DecodeAll b kDefaultMaxFrameLength).

Definition recv_data (x : recv_result) : bytes := match x with RecvData data => data | _ => [] end.

(** Operations that receive nothing and queue nothing. *)
Definition unheard (X : Type) (e : clientE X) : Prop :=
  match e with CRecv | CPush _ => False | _ => True end.

Lemma exec_unheard env X (e : clientE X) c :
  unheard X e → heard (client_exec env X e c).1 = heard c ∧
    message_queue (client_exec env X e c).1 = message_queue c.
Proof.
  destruct e; cbn [unheard client_exec]; try done; intros _.
  - by destruct (login_done (c_login c)).
  - by destruct (scan_loop _ _ _).
  - by destruct (sendAll _ _).
Qed.

(** ** Programs that receive

    [follows Post d l p]: having received the stream [d], of which the envelopes
    [l] are still to be handled, the program queues some of [l] in order, and
    whenever it receives more it goes on with the envelopes that completes. *)
Section follows.
Context {P : Protobuf}.

Fixpoint follows {A} (Post : bytes → list Envelope → A → Prop) (d : bytes) (l : list Envelope)
    (p : cli A) : Prop :=
  match p with
  | Ret a => Post d l a
  | @Do _ _ X e k =>
      match e in clientE X return (X → bytes → list Envelope → Prop) → Prop with
      | CRecv => λ go, ∀ x, ∃ l', envelopes (decode (d ++ recv_data x)) = envelopes (decode d) ++ l' ∧
          go x (d ++ recv_data x) l'
      | CPush q => λ go, ∃ l1 l2, l = l1 ++ q :: l2 ∧ env_type q = CHAT_PUSH ∧
          has_chat_push q = true ∧ go tt d l2
      | _ => λ go, ∀ x, go x d l
      end (λ x d l, follows Post d l (k x))
  end.

Lemma follows_bind {A B} Post Post' d l (p : cli A) (f : A → cli B) :
  follows Post d l p → (∀ d l a, Post d l a → follows Post' d l (f a)) →
  follows Post' d l (p ≫= f).
Proof.
  intros Hp Hf. induction p as [a|X e k IH] in d, l, Hp |- *; [by apply Hf|].
  change (follows Post' d l (Do e (λ x, bind (k x) f))).
  destruct e; cbn [follows] in Hp |- *; try (intros x; by apply IH).
  - destruct Hp as (l1 & l2 & ? & ? & ? & Hk). exists l1, l2. split_and!; [done..|by apply IH].
  - intros x. destruct (Hp x) as (l' & ? & Hk). exists l'. split; [done|by apply IH].
Qed.

(** A program that neither receives nor queues. *)
Lemma follows_unheard {A} (p : cli A) d l :
  all_ops unheard (λ _ _ _, True) p → follows (λ d' l' _, d' = d ∧ l' = l) d l p.
Proof.
  induction p as [a|X e k IH]; [done|]. intros [He Hk].
  destruct e; cbn [follows]; try done; intros x; by apply IH, Hk.
Qed.

(** Envelopes can be passed over. *)
Lemma follows_skip {A} Post d l0 l (p : cli A) :
  (∀ d l a, Post d l a → Post d (l0 ++ l) a) → follows Post d l p → follows Post d (l0 ++ l) p.
Proof.
  intros HP. induction p as [a|X e k IH] in d, l |- *; [apply HP|].
  destruct e; cbn [follows]; intros H; try (intros x; by apply IH).
  - destruct H as (l1 & l2 & -> & ? & ? & Hk). exists (l0 ++ l1), l2. by rewrite <-app_assoc.
  - exact H.
Qed.
End follows.

(** ** The receiver *)
Section receiver.
Context {P : Protobuf} {PL : ProtobufLaws P}.

(** All but a tail of the envelopes has been passed. *)
Local Abbreviation passed d l := (λ d' l' _, d' = d ∧ ∃ l0, l' = l0 ++ l).

Lemma follows_mono {A} (Post Post' : bytes → list Envelope → A → Prop) d l (p : cli A) :
  (∀ d l a, Post d l a → Post' d l a) → follows Post d l p → follows Post' d l p.
Proof.
  intros HP. induction p as [a|X e k IH] in d, l |- *; [apply HP|].
  destruct e; cbn [follows]; intros H; try (intros x; by apply IH).
  - destruct H as (l1 & l2 & ? & ? & ? & Hk). exists l1, l2. split_and!; [done..|by apply IH].
  - intros x. destruct (H x) as (l' & ? & Hk). exists l'. split; [done|by apply IH].
Qed.

Lemma follows_quiet {A} (p : cli A) d l l0 :
  all_ops unheard (λ _ _ _, True) p → follows (passed d l) d (l0 ++ l) p.
Proof.
  intros Hp. eapply follows_mono; [|by apply follows_unheard]. intros d' l' a [-> ->]. eauto.
Qed.

Lemma unheard_send e : all_ops unheard (λ _ _ _, True) (Client.sendEnvelope e).
Proof. unfold Client.sendEnvelope. by case_decide. Qed.

Lemma follows_handle d l e : follows (passed d l) d (e :: l) (handleEnvelope e).
Proof.
  unfold handleEnvelope. destruct (env_type e) eqn:Hty;
    try (apply (follows_quiet _ d l [e]); done).
  - apply (follows_quiet _ d l [e]). unfold handleLoginResponse. split; [done|]. intros [] _. by case_match.
  - unfold handleChatPush. destruct (has_chat_push e) eqn:Hhas; cbn [negb]; [|by split; [|exists [e]]].
    intros [|]; cbn [negb]; [|by split; [|exists [e]]].
    intros []. exists [], l. split_and!; [done..|].
    apply (follows_quiet _ d l []). cbn [bind prog_ret]. case_match; [done|]. split; [done|]. intros now _.
    by apply (all_ops_bind _ _ (Client.sendEnvelope _) (λ _, mret tt)); [apply unheard_send|].
  - apply (follows_quiet _ d l [e]). unfold Client.handleAck. case_match; [done|]. by repeat split.
Qed.

Lemma follows_handles d l es : follows (passed d l) d (es ++ l) (for_each es handleEnvelope).
Proof.
  induction es as [|e es IH]; [by split; [|exists []]|]. cbn [for_each app].
  eapply (follows_bind _ _ _ _ (handleEnvelope e)); [apply follows_handle|].
  intros d' l' [] (-> & l0 & ->). apply follows_skip; [|exact IH].
  intros d' l' [] (-> & l1 & ->). split; [done|]. exists (l0 ++ l1). by rewrite app_assoc.
Qed.

(** The receiver's buffer when it has received [d] without an error. *)
Definition client_buffer (d b : bytes) : Prop :=
  b = drop (N.to_nat (consumed_bytes (decode d))) d ∧ decode_failed (Codec.status (decode d)) = false.

Lemma follows_receive d l b :
  client_buffer d b →
  follows (λ d' _ o, match o with Some b' => client_buffer d' b' | None => True end) d l (receive b).
Proof.
  intros [-> Hok] x.
  destruct x as [| |data]; cbn [recv_data].
  1, 2: exists []; split; [by rewrite !app_nil_r|by intros [] []].
  set (buffer := drop (N.to_nat (consumed_bytes (decode d))) d ++ data). set (r2 := decode buffer).
  pose proof (decode_split d data) as Hsp. cbv zeta in Hsp. rewrite Hok in Hsp. fold buffer r2 in Hsp.
  exists (envelopes r2). rewrite Hsp. split; [done|].
  rewrite <-(app_nil_r (envelopes r2)) at 1. eapply follows_bind; [apply follows_handles|].
  intros d' l' [] (-> & _). pose proof (decode_consumed d) as Hc.
  assert (decode_failed (Codec.status r2) = false →
    client_buffer (d ++ data) (if 0 <? consumed_bytes r2 then drop (N.to_nat (consumed_bytes r2)) buffer
      else buffer)) as Hbuf.
  { intros Hr2. split; [|by rewrite Hsp]. rewrite Hsp. cbn [consumed_bytes].
    assert (drop (N.to_nat (consumed_bytes r2)) buffer
      = drop (N.to_nat (consumed_bytes (decode d) + consumed_bytes r2)) (d ++ data)) as Hb.
    { unfold buffer. rewrite drop_rest by lia. rewrite drop_drop. by rewrite N2Nat.inj_add. }
    rewrite <-Hb. destruct (0 <? consumed_bytes r2) eqn:E; [done|]. apply N.ltb_ge in E.
    by replace (consumed_bytes r2) with 0 by lia. }
  fold buffer. fold r2. destruct (Codec.status r2); [by apply Hbuf|by apply Hbuf|by intros [] [] []..].
Qed.

Lemma follows_receiverLoop turns d l b :
  client_buffer d b → follows (λ _ _ _, True) d l (receiverLoop turns b).
Proof.
  induction turns as [|turns IH] in d, l, b |- *; [done|]. intros Hb. intros [|]; [done|].
  eapply follows_bind; [by apply follows_receive|]. intros d' l' [b'|] Hb'; [by apply IH|done].
Qed.
End receiver.

(** ** A client with one receiver *)
Section hearing.
Context {P : Protobuf} {PL : ProtobufLaws P}.

(** The thread [i] is the receiver; the others belong to the application or are
    the retry thread. *)
Definition one_receiver (uid : N) (i : nat) (ts : list (cli unit)) : Prop :=
  (∃ turns, ts !! i = Some (receiverLoop turns [])) ∧
  ∀ j p, j ≠ i → ts !! j = Some p →
    (∃ calls, p = for_each calls (do_call uid)) ∨ ∃ turns, p = retryLoop turns.

Lemma one_receiver_threads uid i ts : one_receiver uid i ts → Forall (client_thread uid) ts.
Proof.
  intros [[turns Hi] Hts]. apply Forall_lookup. intros j p Hj. destruct (decide (j = i)) as [->|Hne].
  - rewrite Hi in Hj. injection Hj as <-. right. left. by exists turns.
  - destruct (Hts j p Hne Hj) as [?|?]; [by left|by right; right].
Qed.

Local Abbreviation quiet := (all_ops unheard (λ _ _ _, True)).

Lemma quiet_bind {A B} (p : cli A) (f : A → cli B) : quiet p → (∀ a, quiet (f a)) → quiet (p ≫= f).
Proof. apply all_ops_bind. Qed.

Lemma quiet_stop : quiet stopClient.
Proof. by repeat split. Qed.

Lemma quiet_call uid x : quiet (do_call uid x).
Proof.
  destruct x as [|to msg|]; cbn [do_call].
  - apply quiet_bind; [|done]. unfold startClient. do 5 (apply quiet_bind; [done|]; intros ?).
    case_match; [done|]. do 2 (apply quiet_bind; [done|]; intros ?).
    apply quiet_bind; [apply unheard_send|]. intros [|]; cbn [negb]; [|by repeat split].
    apply quiet_bind; [done|]. intros [|]; by repeat split.
  - apply quiet_bind; [|done]. unfold sendMessage. apply quiet_bind; [done|]. intros [|]; [done|].
    apply quiet_bind; [done|]. intros [|]; cbn [negb]; [|done].
    do 4 (apply quiet_bind; [done|]; intros ?). apply quiet_bind; [done|]. intros _.
    apply quiet_bind; [apply unheard_send|]. intros [|]; [done|by repeat split].
  - apply quiet_stop.
Qed.

Lemma quiet_retryLoop turns : quiet (retryLoop turns).
Proof.
  induction turns as [|turns IH]; [done|]. apply quiet_bind; [done|]. intros [|]; [done|].
  do 2 (apply quiet_bind; [done|]; intros ?). apply quiet_bind; [|by intros [|]].
  clear IH. match goal with |- quiet (resend ?es) => induction es as [|e es IH] end; [done|].
  apply quiet_bind; [done|]. intros [|]; [done|]. apply quiet_bind; [apply unheard_send|].
  intros [|]; [exact IH|by repeat split].
Qed.

Lemma quiet_others uid i ts j p : one_receiver uid i ts → j ≠ i → ts !! j = Some p → quiet p.
Proof.
  intros [_ Hts] Hne Hj. destruct (Hts j p Hne Hj) as [[calls ->]|[turns ->]].
  - apply all_ops_for_each, quiet_call.
  - apply quiet_retryLoop.
Qed.

(** The pushes the client may queue. *)
Definition is_push (e : Envelope) : Prop := env_type e = CHAT_PUSH ∧ has_chat_push e = true.
#[export] Instance is_push_decision e : Decision (is_push e) := _.

Definition heard_inv (i : nat) (q0 : list Envelope) (c : Client) (ts : list (cli unit)) : Prop :=
  (∃ l p done q, ts !! i = Some p ∧ follows (λ _ _ _, True) (heard c) l p ∧
    envelopes (decode (heard c)) = done ++ l ∧ message_queue c = q0 ++ q ∧
    q `sublist_of` filter is_push done) ∧
  ∀ j p, j ≠ i → ts !! j = Some p → quiet p.

Lemma heard_step env i q0 c ts c' ts' :
  tstep (client_exec env) (c, ts) (c', ts') → heard_inv i q0 c ts → heard_inv i q0 c' ts'.
Proof.
  intros Hst [(l & p & dn & q & Hp & Hf & Hd & Hq & Hsub) Hothers].
  inversion Hst as [? ? j X e k Hj]; subst. pose proof (lookup_lt_Some _ _ _ Hj) as Hlt.
  destruct (decide (j = i)) as [->|Hne].
  - rewrite Hp in Hj. injection Hj as ->. split.
    + assert (unheard X e → follows (λ _ _ _, True) (heard c) l (k (client_exec env X e c).2) →
        ∃ l p dn q, <[i := k (client_exec env X e c).2]> ts !! i = Some p ∧
          follows (λ _ _ _, True) (heard (client_exec env X e c).1) l p ∧
          envelopes (decode (heard (client_exec env X e c).1)) = dn ++ l ∧
          message_queue (client_exec env X e c).1 = q0 ++ q ∧ q `sublist_of` filter is_push dn) as Hsame.
      { intros Hu Hk. destruct (exec_unheard env X e c Hu) as [-> ->]. exists l, (k (client_exec env X e c).2), dn, q.
        split_and!; try done. by apply list_lookup_insert_eq. }
      destruct e; cbn [follows] in Hf; try (apply Hsame; [done|apply Hf]); clear Hsame; cbn [client_exec fst snd].
      * destruct Hf as (l1 & l2 & -> & Ht & Hh & Hk). exists l2, (k tt), (dn ++ l1 ++ [e]), (q ++ [e]).
        split_and!; try done; [by apply list_lookup_insert_eq|cbn [heard set_queue]; by rewrite Hd, <-!app_assoc| |].
        -- cbn. by rewrite Hq, <-app_assoc.
        -- rewrite !filter_app, filter_cons_True by done. apply sublist_app; [done|].
           by apply sublist_inserts_l.
      * destruct (Hf (ce_recv env (c_tick c))) as (l' & Hl & Hk).
        exists l', (k (ce_recv env (c_tick c))), (dn ++ l), q.
        split_and!; try done; [by apply list_lookup_insert_eq|by rewrite Hd in Hl|].
        rewrite filter_app. by apply sublist_inserts_r.
    + intros j p' Hne Hj. rewrite list_lookup_insert_ne in Hj by done. by apply (Hothers j).
  - pose proof (Hothers j _ Hne Hj) as [Hu Hk]. destruct (exec_unheard env X e c Hu) as [Hh Hm]. split.
    + exists l, p, dn, q. rewrite Hh, Hm. split_and!; try done. by rewrite list_lookup_insert_ne.
    + intros j' p' Hne' Hj'. destruct (decide (j' = j)) as [->|Hjj].
      * rewrite list_lookup_insert_eq in Hj' by done. injection Hj' as <-. by apply Hk.
      * rewrite list_lookup_insert_ne in Hj' by done. by apply (Hothers j').
Qed.

(** What the client has queued, of what it has heard. *)
Lemma client_hears uid env i n c ts c' ts' :
  heard c = [] → one_receiver uid i ts → nsteps (tstep (client_exec env)) n (c, ts) (c', ts') →
  ∃ q, message_queue c' = message_queue c ++ q ∧
    q `sublist_of` filter is_push (envelopes (decode (heard c'))).
Proof.
  intros Hh Hts Hn. assert (heard_inv i (message_queue c) c ts) as Hinv.
  { split; [|intros j p; by apply (quiet_others uid i)]. destruct Hts as [[turns Hi] _].
    exists [], (receiverLoop turns []), [], []. rewrite Hh. split_and!; try done.
    - apply follows_receiverLoop. by split.
    - by rewrite app_nil_r. }
  assert (heard_inv i (message_queue c) c' ts') as [(l & p & dn & q & _ & _ & Hd & Hq & Hsub) _].
  { assert (heard_inv i (message_queue c) (c', ts').1 (c', ts').2); [|done].
    apply (nsteps_invariant (tstep (client_exec env)) (λ _ s, heard_inv i (message_queue c) s.1 s.2))
      with (k := n) (n := 0%nat) (x := (c, ts)); [|done..].
    intros m [c1 ts1] [c2 ts2] H1 H2. by apply (heard_step env i _ c1 ts1). }
  exists q. split; [done|]. rewrite Hd, filter_app. by apply sublist_inserts_r.
Qed.
(** C22. The client keeps what it reads.  However its threads interleave and
    however the bytes of the server arrive, the pushes the receiver appends to
    the queue are pushes of the stream of bytes received, decoded as a whole:
    each at most once and in the order of the stream. *)
Theorem pushes_in_order uid env i n c ts c' ts' :
  heard c = [] → one_receiver uid i ts → nsteps (tstep (client_exec env)) n (c, ts) (c', ts') →
  ∃ q, message_queue c' = message_queue c ++ q ∧
    q `sublist_of` filter is_push (envelopes (decode (heard c'))).
Proof. apply client_hears. Qed.
End hearing.
