(* ===== verification/RedisClient.v ===== *)
(** * RedisClient (server/src/RedisClient.cpp)

    A pool of synchronous connections to Redis: borrowing and returning them,
    opening and closing them, and the execution of a command on one.  The C
    library hiredis is outside the sources: what a connection attempt or a
    command comes to is decided by the outside. *)

From S2P Require Import Prelude Decimal Message Redis Prog Scripts UserState Sys.
Local Open Scope N_scope.

(** ** Where Redis is *)

Definition kDefaultRedisHost : string := "127.0.0.1".
Definition kDefaultRedisPort : Z := 6379.

(** The argument is the value of the environment variable, if it is set. *)
Definition RedisHost (host : option string) : string :=
  match host with
  | Some host => if decide (c_str host = "") then kDefaultRedisHost else host
  | None => kDefaultRedisHost
  end.

Definition RedisPort (text : option string) : Z :=
  match text with
  | None => kDefaultRedisPort
  | Some text =>
      if decide (c_str text = "") then kDefaultRedisPort
      else
        let (port, rest) := strtol text in
        if negb (bool_decide (rest = "")) || (port <=? 0)%Z || (65535 <? port)%Z
        then kDefaultRedisPort else int32 port
  end.

(** ** The argument vector of EVAL *)

Definition eval_argv (script : string) (keys args : list string) : list string :=
  "EVAL" :: script :: to_string (N.of_nat (length keys)) :: keys ++ args.

(** [eval]: what is passed to [command], if anything; a null script is [None]. *)
Definition eval (script : option string) (keys args : list string) : option (list string) :=
  match script with
  | None => None
  | Some script => if decide (script = "") then None else Some (eval_argv script keys args)
  end.

(** How Redis documents EVAL: a script, a number of keys, the keys, the rest. *)
Definition parse_eval (argv : list string) : option (string * list string * list string) :=
  match argv with
  | "EVAL" :: script :: numkeys :: rest =>
      let (n, tail) := strtol numkeys in
      if bool_decide (tail = "") && (0 <=? n)%Z && (n <=? Z.of_nat (length rest))%Z
      then Some (script, take (Z.to_nat n) rest, drop (Z.to_nat n) rest)
      else None
  | _ => None
  end.

(** ** State *)

(** A [redisContext]: which one it is, and its [err]. *)
Record Context := { ctx_id : nat; ctx_err : Z }.

(** [Slot] holds a context or none; [next_ctx] numbers the contexts opened. *)
Record RedisClient := {
  slots_ : list (option Context); available_ : list nat; borrowed_ : nat; stopping_ : bool;
  next_ctx : nat }.

Definition new_RedisClient (pool_size : nat) : RedisClient :=
  let n := if decide (pool_size = 0%nat) then 1%nat else pool_size in
  {| slots_ := replicate n None; available_ := (λ i, n - i - 1)%nat <$> seq 0 n;
     borrowed_ := 0; stopping_ := false; next_ctx := 0 |}.

(** [Lease]: [client_] tells whether it still refers to the pool. *)
Record Lease := { client_ : bool; slot_index_ : nat; context_ : option Context }.

Definition new_Lease : Lease := {| client_ := false; slot_index_ := 0; context_ := None |}.

Definition set_slot (i : nat) (x : option Context) (p : RedisClient) : RedisClient :=
  {| slots_ := <[i := x]> (slots_ p); available_ := available_ p; borrowed_ := borrowed_ p;
     stopping_ := stopping_ p; next_ctx := next_ctx p |}.

Definition closeSlot (slot_index : nat) (p : RedisClient) : RedisClient := set_slot slot_index None p.

Definition releaseSlot (slot_index : nat) (p : RedisClient) : RedisClient :=
  {| slots_ := slots_ p;
     available_ := if stopping_ p then available_ p else available_ p ++ [slot_index];
     borrowed_ := if decide (0 < borrowed_ p)%nat then (borrowed_ p - 1)%nat else borrowed_ p;
     stopping_ := stopping_ p; next_ctx := next_ctx p |}.

(** [ConnectRedis]: a new context without error, or none. *)
Definition ConnectRedis (connects : bool) (p : RedisClient) : RedisClient * option Context :=
  if connects then
    ({| slots_ := slots_ p; available_ := available_ p; borrowed_ := borrowed_ p;
        stopping_ := stopping_ p; next_ctx := S (next_ctx p) |},
     Some {| ctx_id := next_ctx p; ctx_err := 0 |})
  else (p, None).

Definition ensureConnected (connects : bool) (slot_index : nat) (p : RedisClient)
    : RedisClient * option Context :=
  match slots_ p !! slot_index with
  | Some (Some context) =>
      if (ctx_err context =? 0)%Z then (p, Some context)
      else
        let (p', context') := ConnectRedis connects (closeSlot slot_index p) in
        (set_slot slot_index context' p', context')
  | _ =>
      let (p', context') := ConnectRedis connects (closeSlot slot_index p) in
      (set_slot slot_index context' p', context')
  end.

(** ** Leases *)

Definition lease_close (l : Lease) (p : RedisClient) : Lease * RedisClient :=
  if client_ l then
    ({| client_ := client_ l; slot_index_ := slot_index_ l; context_ := None |},
     closeSlot (slot_index_ l) p)
  else (l, p).

Definition lease_release (l : Lease) (p : RedisClient) : Lease * RedisClient :=
  if client_ l then
    ({| client_ := false; slot_index_ := slot_index_ l; context_ := None |},
     releaseSlot (slot_index_ l) p)
  else (l, p).

(** [Lease(Lease&& other)]: the new lease and what [other] becomes. *)
Definition lease_move (other : Lease) : Lease * Lease :=
  (other, {| client_ := false; slot_index_ := slot_index_ other; context_ := None |}).

(** [operator=(Lease&& other)] of two different leases. *)
Definition lease_assign (l other : Lease) (p : RedisClient) : Lease * Lease * RedisClient :=
  let (_, p') := lease_release l p in
  let (l', other') := lease_move other in (l', other', p').

Definition IsConnectionBroken (context : option Context) (reply : bool) : bool :=
  match context with
  | None => true
  | Some context => negb (ctx_err context =? 0)%Z || negb reply
  end.

(** ** Calls

    What [redisCommandArgv] comes to: a reply, possibly with the error flag
    set, or none, the server having executed the command or not. *)
Inductive outcome := Replied (err : Z) | NoReply (executed : bool) (err : Z).

(** Where a thread is in its call of [command], with the reply it will return
    once it is known.  [Working]: it popped a slot and is about to connect;
    [Closing]: it is about to test for a broken connection; [Releasing]: about
    to destroy its lease; [Notifying]: about to call [notify_one]. *)
Inductive call {reply : Type} :=
  | Calling (argv : list string)
  | CvWaiting (argv : list string)
  | Working (argv : list string) (slot : nat)
  | Connected (argv : list string) (l : Lease)
  | Closing (l : Lease) (err : Z) (r : option reply)
  | Releasing (l : Lease) (r : option reply)
  | Notifying (r : option reply)
  | Finished (r : option reply).
Arguments call : clear implicits.

(** The thread in the destructor, if any. *)
Inductive dtor := NotCalled | DWaiting | DWoken | Destroyed.

#[export] Instance dtor_eq_dec : EqDecision dtor.
Proof. solve_decision. Defined.

(** [wait] ends when the thread is notified. *)
Definition wake_call {reply} (c : call reply) : call reply :=
  match c with CvWaiting argv => Calling argv | _ => c end.

Section pool.
Context {R : Redis}.

Local Abbreviation call := (call reply).

Record config := {
  cf_pool : RedisClient; cf_db : redis_db; cf_calls : list call; cf_dtor : dtor }.

(** ** The steps of a call *)

(** [acquire] up to the end of its critical section. *)
Definition acquire_enter (argv : list string) (p : RedisClient) : RedisClient * call :=
  if bool_decide (available_ p = []) && negb (stopping_ p) then (p, CvWaiting argv)
  else if stopping_ p then (p, Finished None)
  else
    match last (available_ p) with
    | None => (p, CvWaiting argv)
    | Some slot =>
        ({| slots_ := slots_ p; available_ := removelast (available_ p);
            borrowed_ := S (borrowed_ p); stopping_ := stopping_ p; next_ctx := next_ctx p |},
         Working argv slot)
    end.

(** The rest of [acquire]: the lease is made. *)
Definition acquire_connect (connects : bool) (argv : list string) (slot : nat) (p : RedisClient)
    : RedisClient * call :=
  let (p', context) := ensureConnected connects slot p in
  (p', Connected argv {| client_ := true; slot_index_ := slot; context_ := context |}).

(** [redisCommandArgv] on the server's side. *)
Definition redisCommandArgv (o : outcome) (argv : list string) (d : redis_db)
    : redis_db * option reply * Z :=
  match o with
  | Replied err => let (d', r) := redis_call argv d in (d', Some r, err)
  | NoReply executed err => ((if executed then (redis_call argv d).1 else d), None, err)
  end.

(** The call of [redisCommandArgv], or the return without a connection. *)
Definition run_command (o : outcome) (argv : list string) (l : Lease) (p : RedisClient)
    (d : redis_db) : RedisClient * redis_db * call :=
  match context_ l with
  | None => (p, d, Releasing l None)
  | Some context =>
      let '(d', r, err) := redisCommandArgv o argv d in
      (set_slot (slot_index_ l) (Some {| ctx_id := ctx_id context; ctx_err := err |}) p, d',
       Closing l err r)
  end.

(** [if (IsConnectionBroken(redis, reply.get()))] *)
Definition check_broken (l : Lease) (err : Z) (r : option reply) (p : RedisClient)
    : RedisClient * call :=
  let context := (λ c, {| ctx_id := ctx_id c; ctx_err := err |}) <$> context_ l in
  if IsConnectionBroken context (if r is Some _ then true else false) then
    let (l', p') := lease_close l p in (p', Releasing l' None)
  else (p, Releasing l r).

(** The destruction of the lease: the critical section of [releaseSlot]. *)
Definition drop_lease (l : Lease) (r : option reply) (p : RedisClient) : RedisClient * call :=
  let (_, p') := lease_release l p in
  (p', if client_ l then Notifying r else Finished r).

Definition with_call (i : nat) (c : call) (p : RedisClient) (s : config) : config :=
  {| cf_pool := p; cf_db := cf_db s; cf_calls := <[i := c]> (cf_calls s); cf_dtor := cf_dtor s |}.

Definition with_db (d : redis_db) (s : config) : config :=
  {| cf_pool := cf_pool s; cf_db := d; cf_calls := cf_calls s; cf_dtor := cf_dtor s |}.

(** [notify_one] wakes some waiting thread; with none it is lost. *)
Inductive notifies : config → config → Prop :=
| notify_call j argv s :
    cf_calls s !! j = Some (CvWaiting argv) →
    notifies s (with_call j (Calling argv) (cf_pool s) s)
| notify_dtor s :
    cf_dtor s = DWaiting →
    notifies s {| cf_pool := cf_pool s; cf_db := cf_db s; cf_calls := cf_calls s; cf_dtor := DWoken |}
| notify_nobody s :
    (∀ j argv, cf_calls s !! j ≠ Some (CvWaiting argv)) → cf_dtor s ≠ DWaiting → notifies s s.

(** The steps of the threads inside [command]. *)
Inductive call_step : config → config → Prop :=
| step_enter i argv s :
    cf_calls s !! i = Some (Calling argv) →
    call_step s (let (p, c) := acquire_enter argv (cf_pool s) in with_call i c p s)
| step_connect i argv slot connects s :
    cf_calls s !! i = Some (Working argv slot) →
    call_step s (let (p, c) := acquire_connect connects argv slot (cf_pool s) in with_call i c p s)
| step_command i argv l o s :
    cf_calls s !! i = Some (Connected argv l) →
    call_step s (let '(p, d, c) := run_command o argv l (cf_pool s) (cf_db s) in
                 with_db d (with_call i c p s))
| step_check i l err r s :
    cf_calls s !! i = Some (Closing l err r) →
    call_step s (let (p, c) := check_broken l err r (cf_pool s) in with_call i c p s)
| step_release i l r s :
    cf_calls s !! i = Some (Releasing l r) →
    call_step s (let (p, c) := drop_lease l r (cf_pool s) in with_call i c p s)
| step_notify i r s s' :
    cf_calls s !! i = Some (Notifying r) → notifies s s' →
    call_step s (with_call i (Finished r) (cf_pool s') s').

(** The loop test of the destructor, under the mutex, and its beginning. *)
Definition dtor_turn (s : config) : config :=
  {| cf_pool := cf_pool s; cf_db := cf_db s; cf_calls := cf_calls s;
     cf_dtor := if decide (0 < borrowed_ (cf_pool s))%nat then DWaiting else Destroyed |}.

Definition dtor_begin (s : config) : config :=
  let p := cf_pool s in
  dtor_turn
    {| cf_pool := {| slots_ := slots_ p; available_ := available_ p; borrowed_ := borrowed_ p;
                     stopping_ := true; next_ctx := next_ctx p |};
       cf_db := cf_db s; cf_calls := wake_call <$> cf_calls s; cf_dtor := cf_dtor s |}.

(** [command] up to the call of [acquire]. *)
Definition command (argv : list string) : call :=
  if decide (argv = []) then Finished None else Calling argv.

(** A spurious wake-up, a new call, and the destructor. *)
Inductive other_step : config → config → Prop :=
| step_spurious i argv s :
    cf_calls s !! i = Some (CvWaiting argv) →
    other_step s (with_call i (Calling argv) (cf_pool s) s)
| step_new argv s :
    cf_dtor s = NotCalled →
    other_step s {| cf_pool := cf_pool s; cf_db := cf_db s;
                    cf_calls := cf_calls s ++ [command argv]; cf_dtor := cf_dtor s |}
| step_dtor s : cf_dtor s = NotCalled → other_step s (dtor_begin s)
| step_dtor_turn s : cf_dtor s = DWoken → other_step s (dtor_turn s)
| step_dtor_spurious s :
    cf_dtor s = DWaiting →
    other_step s {| cf_pool := cf_pool s; cf_db := cf_db s; cf_calls := cf_calls s; cf_dtor := DWoken |}.

Definition cstep (s s' : config) : Prop := call_step s s' ∨ other_step s s'.

Definition new_config (pool_size : nat) (d : redis_db) : config :=
  {| cf_pool := new_RedisClient pool_size; cf_db := d; cf_calls := []; cf_dtor := NotCalled |}.
End pool.
