(* ===== verification/RedisPool.v ===== *)
(** * The connection pool of RedisClient

    Whatever the threads, the network and the destructor do: every connection
    is used by one call at a time, calls behave as atomic requests that may be
    lost, which is what the rest of the development assumes of them, and no
    call waits for ever. *)

From S2P Require Import Prelude Decimal Message Redis RedisInstance Prog Scripts UserState Sys.
From S2P Require Import RedisClient.
Local Open Scope N_scope.

(** ** Lists *)

(** What replacing an element does to the values collected from a list. *)
Lemma omap_insert_perm {A B} (f : A → option B) l i x y :
  l !! i = Some x → option_list (f x) ++ omap f (<[i := y]> l) ≡ₚ option_list (f y) ++ omap f l.
Proof.
  revert i. induction l as [|z l IH]; intros [|i]; try done; cbn [lookup list_lookup insert list_insert].
  - intros [= ->]. cbn. destruct (f x), (f y); cbn; [constructor| | |]; done.
  - intros Hi%IH. cbn. destruct (f z); cbn; [|done]. by rewrite <-!Permutation_middle, Hi.
Qed.

Lemma omap_insert_same {A B} (f : A → option B) l i x y :
  l !! i = Some x → f x = f y → omap f (<[i := y]> l) ≡ₚ omap f l.
Proof.
  intros Hi Hf. pose proof (omap_insert_perm f l i x y Hi) as H. rewrite Hf in H.
  by apply Permutation_app_inv_l in H.
Qed.

Lemma removelast_last {A} (l : list A) x : last l = Some x → l = removelast l ++ [x].
Proof.
  intros Hl. destruct l as [|a l] using rev_ind; [done|]. rewrite last_snoc in Hl.
  injection Hl as ->. by rewrite removelast_last.
Qed.

Section pool.
Context {R : Redis}.

Local Abbreviation call := (call reply).

(** ** Ownership of connections *)

Definition lease_slot (l : Lease) : option nat := if client_ l then Some (slot_index_ l) else None.

(** The slot a call has borrowed. *)
Definition held (c : call) : option nat :=
  match c with
  | Working _ slot => Some slot
  | Connected _ l | Closing l _ _ | Releasing l _ => lease_slot l
  | _ => None
  end.

Definition borrowed_slots (s : config) : list nat := omap held (cf_calls s).

(** A connection on which a command may be sent. *)
Definition healthy (x : option Context) : Prop := ∀ c, x = Some c → ctx_err c = 0%Z.

(** What a call relies on about its own connection. *)
Definition call_ok (p : RedisClient) (c : call) : Prop :=
  match c with
  | Connected _ l =>
      client_ l = true ∧ slots_ p !! slot_index_ l = Some (context_ l) ∧ healthy (context_ l)
  | Closing l err r =>
      client_ l = true ∧ ∃ c, context_ l = Some c ∧
        slots_ p !! slot_index_ l = Some (Some {| ctx_id := ctx_id c; ctx_err := err |})
  | Working _ slot => ∃ x, slots_ p !! slot = Some x ∧ healthy x
  | Releasing l _ =>
      client_ l = true ∧ ∃ x, slots_ p !! slot_index_ l = Some x ∧ healthy x
  | _ => True
  end.

Record pool_ok (n : nat) (s : config) : Prop := {
  po_length : length (slots_ (cf_pool s)) = n;
  po_nodup : NoDup (available_ (cf_pool s) ++ borrowed_slots s);
  po_range : ∀ k, k ∈ available_ (cf_pool s) ++ borrowed_slots s → (k < n)%nat;
  po_all : stopping_ (cf_pool s) = false →
    available_ (cf_pool s) ++ borrowed_slots s ≡ₚ seq 0 n;
  po_borrowed : borrowed_ (cf_pool s) = length (borrowed_slots s);
  po_calls : ∀ i c, cf_calls s !! i = Some c → call_ok (cf_pool s) c;
  po_idle : ∀ k x, slots_ (cf_pool s) !! k = Some x → k ∉ borrowed_slots s → healthy x;
  po_dtor : cf_dtor s ≠ NotCalled ↔ stopping_ (cf_pool s) = true }.

Lemma held_in s i c k : cf_calls s !! i = Some c → held c = Some k → k ∈ borrowed_slots s.
Proof.
  intros Hi Hk. apply list_elem_of_omap. exists c. split; [by eapply list_elem_of_lookup_2|done].
Qed.

(** Two calls hold different slots. *)
Lemma omap_nodup_inj {A B} (f : A → option B) l i j x y k :
  NoDup (omap f l) → l !! i = Some x → l !! j = Some y → f x = Some k → f y = Some k → i = j.
Proof.
  intros Hnd Hi Hj Hx Hy. destruct (decide (i = j)) as [|Hne]; [done|]. exfalso.
  revert i j Hi Hj Hne. induction l as [|z l IH]; intros [|i] [|j] Hi Hj Hne; try done.
  - injection Hi as ->. cbn in Hnd. rewrite Hx in Hnd. apply NoDup_cons in Hnd as [Hn _].
    apply Hn, list_elem_of_omap. exists y. split; [by eapply list_elem_of_lookup_2|done].
  - injection Hj as ->. cbn in Hnd. rewrite Hy in Hnd. apply NoDup_cons in Hnd as [Hn _].
    apply Hn, list_elem_of_omap. exists x. split; [by eapply list_elem_of_lookup_2|done].
  - cbn in Hnd. apply (IH) with i j; try done; [|congruence].
    destruct (f z); [by apply NoDup_cons in Hnd as [_ ?]|done].
Qed.

Lemma held_distinct n s i j c c' k :
  pool_ok n s → cf_calls s !! i = Some c → cf_calls s !! j = Some c' →
  held c = Some k → held c' = Some k → i = j.
Proof.
  intros Hs Hi Hj. apply po_nodup in Hs. apply NoDup_app in Hs as (_ & _ & Hnd). by eapply omap_nodup_inj.
Qed.

Lemma held_not_available n s i c k :
  pool_ok n s → cf_calls s !! i = Some c → held c = Some k → k ∉ available_ (cf_pool s).
Proof.
  intros Hs Hi Hk Hin. apply po_nodup, NoDup_app in Hs as (_ & Hd & _).
  apply (Hd k Hin). by eapply held_in.
Qed.
Lemma call_ok_frame p p' c :
  (∀ k, held c = Some k → slots_ p' !! k = slots_ p !! k) → call_ok p c → call_ok p' c.
Proof.
  intros Hp. destruct c; cbn [call_ok held] in *; try done; unfold lease_slot in Hp.
  - intros (x & Hx & Hh). exists x. by rewrite Hp.
  - intros (Hc & Hx & Hh). rewrite Hc in Hp. by rewrite Hp.
  - intros (Hc & x & Hl & Hx). rewrite Hc in Hp. split; [done|]. exists x. by rewrite Hp.
  - intros (Hc & x & Hx & Hh). rewrite Hc in Hp. split; [done|]. exists x. by rewrite Hp.
Qed.

(** A step of a call that keeps what it holds and touches nothing else. *)
Lemma pool_ok_keep n s i c c' p d :
  pool_ok n s → cf_calls s !! i = Some c → held c' = held c →
  length (slots_ p) = length (slots_ (cf_pool s)) →
  available_ p = available_ (cf_pool s) → borrowed_ p = borrowed_ (cf_pool s) →
  stopping_ p = stopping_ (cf_pool s) →
  (∀ k, held c ≠ Some k → slots_ p !! k = slots_ (cf_pool s) !! k) →
  call_ok p c' → pool_ok n (with_db d (with_call i c' p s)).
Proof.
  intros Hs Hi Hheld Hlen Hav Hb Hst Hsl Hok.
  assert (borrowed_slots (with_db d (with_call i c' p s)) ≡ₚ borrowed_slots s) as Hperm.
  { by apply omap_insert_same with c. }
  split; cbn [cf_pool with_db with_call]; rewrite ?Hlen, ?Hav, ?Hb, ?Hst, ?Hperm; try apply Hs.
  - intros k. rewrite Hperm. apply (po_range _ _ Hs).
  - intros j x. cbn [cf_calls with_db with_call]. intros [(<- & -> & _)|[Hne Hj]]%list_lookup_insert_Some.
    + done.
    + apply (call_ok_frame (cf_pool s)); [|by eapply po_calls].
      intros k Hk. apply Hsl. intros Hk'. apply Hne. by eapply (held_distinct n s i j).
  - intros k x Hx Hk. rewrite Hperm in Hk. eapply (po_idle _ _ Hs k); [|done].
    rewrite <-Hsl; [done|]. intros Hc. apply Hk. by eapply held_in.
Qed.

(** A connection is handed out. *)
Lemma pool_ok_take n s i argv slot :
  pool_ok n s → cf_calls s !! i = Some (Calling argv) → stopping_ (cf_pool s) = false →
  last (available_ (cf_pool s)) = Some slot →
  let p := {| slots_ := slots_ (cf_pool s); available_ := removelast (available_ (cf_pool s));
              borrowed_ := S (borrowed_ (cf_pool s)); stopping_ := stopping_ (cf_pool s);
              next_ctx := next_ctx (cf_pool s) |} in
  pool_ok n (with_call i (Working argv slot) p s).
Proof.
  intros Hs Hi Hst Hlast p. apply removelast_last in Hlast.
  assert (borrowed_slots (with_call i (Working argv slot) p s) ≡ₚ slot :: borrowed_slots s) as Hperm
    by exact (omap_insert_perm held (cf_calls s) i (Calling argv) (Working argv slot) Hi).
  assert (removelast (available_ (cf_pool s)) ++ borrowed_slots (with_call i (Working argv slot) p s)
    ≡ₚ available_ (cf_pool s) ++ borrowed_slots s) as Hall.
  { rewrite Hperm. rewrite Hlast at 2. rewrite <-app_assoc. done. }
  assert (slot ∉ borrowed_slots s) as Hfree.
  { pose proof (po_nodup _ _ Hs) as Hnd. apply NoDup_app in Hnd as (_ & Hd & _).
    apply Hd. rewrite Hlast. apply elem_of_app. right. by apply list_elem_of_singleton. }
  split; cbn [cf_pool with_call p slots_ available_ borrowed_ stopping_]; rewrite ?Hall; try apply Hs.
  - intros k. rewrite Hall. apply (po_range _ _ Hs).
  - rewrite Hperm. cbn. f_equal. apply Hs.
  - intros j x. cbn [cf_calls with_call].
    intros [(<- & <- & _)|[Hne Hj]]%list_lookup_insert_Some; [|by eapply (po_calls _ _ Hs)].
    destruct (lookup_lt_is_Some_2 (slots_ (cf_pool s)) slot) as [x Hx].
    { rewrite (po_length _ _ Hs). apply (po_range _ _ Hs), elem_of_app. left. rewrite Hlast.
      apply elem_of_app. right. by apply list_elem_of_singleton. }
    exists x. split; [done|]. by eapply (po_idle _ _ Hs).
  - intros k x Hx Hk. eapply (po_idle _ _ Hs); [done|]. rewrite Hperm in Hk.
    intros Hin. apply Hk. by right.
Qed.

(** A connection is given back. *)
Lemma pool_ok_return n s i l r :
  pool_ok n s → cf_calls s !! i = Some (Releasing l r) →
  pool_ok n (with_call i (Notifying r) (releaseSlot (slot_index_ l) (cf_pool s)) s).
Proof.
  intros Hs Hi. destruct (po_calls _ _ Hs _ _ Hi) as (Hc & x & Hx & Hheal).
  set (slot := slot_index_ l) in *.
  assert (held (Releasing l r) = Some slot) as Hheld by (cbn; unfold lease_slot; by rewrite Hc).
  set (s' := with_call i (Notifying r) (releaseSlot slot (cf_pool s)) s).
  assert (slot :: borrowed_slots s' ≡ₚ borrowed_slots s) as Hperm.
  { pose proof (omap_insert_perm held (cf_calls s) i (Releasing l r) (Notifying r) Hi) as H.
    rewrite Hheld in H. exact H. }
  assert (available_ (cf_pool s) ++ [slot] ++ borrowed_slots s' ≡ₚ
    available_ (cf_pool s) ++ borrowed_slots s) as Hall by by rewrite <-Hperm.
  pose proof (po_nodup _ _ Hs) as Hnd. rewrite <-Hall in Hnd.
  pose proof (po_borrowed _ _ Hs) as Hb. rewrite <-Hperm in Hb. cbn in Hb.
  split; cbn [cf_pool with_call s' releaseSlot slots_ available_ borrowed_ stopping_].
  - apply Hs.
  - destruct (stopping_ (cf_pool s)); [|by rewrite <-app_assoc].
    apply NoDup_app in Hnd as (H1 & H2 & H3). apply NoDup_app. split; [done|]. split.
    + intros k Hk Hk'. apply (H2 k Hk). by right.
    + by apply NoDup_cons in H3 as [_ ?].
  - intros k Hk. apply (po_range _ _ Hs). rewrite <-Hall.
    destruct (stopping_ (cf_pool s)); rewrite ?elem_of_app in *; tauto.
  - intros Hst. rewrite Hst, <-app_assoc, Hall. by apply (po_all _ _ Hs).
  - unfold borrowed_slots in *. cbn [cf_calls with_call s'] in *. rewrite Hb. case_decide; lia.
  - intros j c. cbn [cf_calls with_call].
    intros [(<- & <- & _)|[Hne Hj]]%list_lookup_insert_Some; [done|].
    by eapply (call_ok_frame (cf_pool s)), (po_calls _ _ Hs).
  - intros k y Hy Hk. destruct (decide (k = slot)) as [->|Hne].
    + rewrite Hx in Hy. by injection Hy as <-.
    + apply (po_idle _ _ Hs k); [done|]. rewrite <-Hperm. by intros [?|?]%elem_of_cons.
  - apply Hs.
Qed.

(** ** Every step keeps the invariant *)

Lemma with_db_same s : with_db (cf_db s) s = s.
Proof. by destruct s. Qed.

(** Steps that change one call and nothing of the pool. *)
Lemma pool_ok_call n s i c c' :
  pool_ok n s → cf_calls s !! i = Some c → held c = None → held c' = None →
  call_ok (cf_pool s) c' → pool_ok n (with_call i c' (cf_pool s) s).
Proof.
  intros Hs Hi Hc Hc' Hok.
  apply (pool_ok_keep n s i c c' (cf_pool s) (cf_db s)); try done. congruence.
Qed.

Lemma enter_ok n s i argv :
  pool_ok n s → cf_calls s !! i = Some (Calling argv) →
  pool_ok n (let (p, c) := acquire_enter argv (cf_pool s) in with_call i c p s).
Proof.
  intros Hs Hi. unfold acquire_enter. destruct (_ && _) eqn:E1; [by eapply pool_ok_call|].
  destruct (stopping_ (cf_pool s)) eqn:Hst; [by eapply pool_ok_call|].
  destruct (last (available_ (cf_pool s))) as [slot|] eqn:Hl; [rewrite <-Hst; by apply pool_ok_take|].
  by eapply pool_ok_call.
Qed.

Lemma connect_ok n s i argv slot connects :
  pool_ok n s → cf_calls s !! i = Some (Working argv slot) →
  pool_ok n (let (p, c) := acquire_connect connects argv slot (cf_pool s) in with_call i c p s).
Proof.
  intros Hs Hi. destruct (po_calls _ _ Hs _ _ Hi) as (x & Hx & Hheal).
  assert (slot < length (slots_ (cf_pool s)))%nat as Hlt by by eapply lookup_lt_Some.
  assert (∀ y p, length (slots_ p) = length (slots_ (cf_pool s)) →
    available_ p = available_ (cf_pool s) → borrowed_ p = borrowed_ (cf_pool s) →
    stopping_ p = stopping_ (cf_pool s) →
    (∀ k, k ≠ slot → slots_ p !! k = slots_ (cf_pool s) !! k) →
    slots_ p !! slot = Some y → healthy y →
    pool_ok n (with_call i (Connected argv
      {| client_ := true; slot_index_ := slot; context_ := y |}) p s)) as Hgen.
  { intros y p ???? Hk Hy Hh.
    apply (pool_ok_keep n s i (Working argv slot) _ p (cf_db s)); try done.
    intros k Hne. apply Hk. intros ->. by apply Hne. }
  unfold acquire_connect, ensureConnected, ConnectRedis. rewrite Hx.
  destruct x as [ctx|]; [rewrite (Hheal ctx eq_refl); cbn; by apply Hgen|].
  destruct connects; cbn; apply Hgen; cbn; rewrite ?length_insert; try done;
    first [intros k Hne; by rewrite !list_lookup_insert_ne by congruence
          |rewrite list_lookup_insert_eq by (by rewrite length_insert); done
          |by intros c [= <-]|done].
Qed.

Lemma command_ok n s i argv l o :
  pool_ok n s → cf_calls s !! i = Some (Connected argv l) →
  pool_ok n (let '(p, d, c) := run_command o argv l (cf_pool s) (cf_db s) in
             with_db d (with_call i c p s)).
Proof.
  intros Hs Hi. destruct (po_calls _ _ Hs _ _ Hi) as (Hc & Hx & Hheal).
  assert (slot_index_ l < length (slots_ (cf_pool s)))%nat as Hlt by by eapply lookup_lt_Some.
  unfold run_command. destruct (context_ l) as [ctx|] eqn:Hctx.
  - destruct (redisCommandArgv o argv (cf_db s)) as [[d r] err].
    apply (pool_ok_keep n s i (Connected argv l)); try done; cbn.
    + by rewrite length_insert.
    + intros k Hk. rewrite list_lookup_insert_ne; [done|]. intros <-. apply Hk.
      unfold lease_slot. by rewrite Hc.
    + split; [done|]. exists ctx. split; [done|]. by rewrite list_lookup_insert_eq.
  - apply (pool_ok_keep n s i (Connected argv l)); try done. split; [done|]. by exists None.
Qed.

Lemma check_ok n s i l err r :
  pool_ok n s → cf_calls s !! i = Some (Closing l err r) →
  pool_ok n (let (p, c) := check_broken l err r (cf_pool s) in with_call i c p s).
Proof.
  intros Hs Hi. destruct (po_calls _ _ Hs _ _ Hi) as (Hc & ctx & Hctx & Hx).
  assert (slot_index_ l < length (slots_ (cf_pool s)))%nat as Hlt by by eapply lookup_lt_Some.
  unfold check_broken. rewrite Hctx. cbn [fmap option_fmap option_map].
  destruct (IsConnectionBroken _ _) eqn:Hb.
  - unfold lease_close. rewrite Hc.
    apply (pool_ok_keep n s i (Closing l err r) _ _ (cf_db s)); try done; cbn; unfold lease_slot; cbn.
    + by rewrite Hc.
    + by rewrite length_insert.
    + rewrite Hc. intros k Hk. rewrite list_lookup_insert_ne; [done|]. congruence.
    + split; [done|]. exists None. by rewrite list_lookup_insert_eq.
  - apply (pool_ok_keep n s i (Closing l err r) _ _ (cf_db s)); try done.
    split; [done|]. eexists. split; [exact Hx|]. intros c' [= <-]. cbn.
    unfold IsConnectionBroken in Hb. apply orb_false_iff in Hb as [Hb _].
    by apply negb_false_iff, Z.eqb_eq in Hb.
Qed.

Lemma notifies_ok n s s' : pool_ok n s → notifies s s' → pool_ok n s'.
Proof.
  intros Hs Hn. destruct Hn as [j argv s Hj|s Hd|s _ _]; [by eapply pool_ok_call| |done].
  destruct Hs as [H1 H2 H3 H4 H5 H6 H7 H8]. split; try done. cbn. rewrite <-H8, Hd. done.
Qed.

(** A notification leaves the notifying call where it is. *)
Lemma notifies_self s s' i r :
  notifies s s' → cf_calls s !! i = Some (Notifying r) → cf_calls s' !! i = Some (Notifying r).
Proof.
  intros Hn Hi. destruct Hn as [j argv s Hj|s Hd|s _ _]; [|done..]. cbn.
  rewrite list_lookup_insert_ne; [done|]. intros ->. congruence.
Qed.

Lemma call_step_ok n s s' : pool_ok n s → call_step s s' → pool_ok n s'.
Proof.
  intros Hs Hst. destruct Hst as [i argv s Hi|i argv slot con s Hi|i argv l o s Hi|i l err r s Hi
    |i l r s Hi|i r s s' Hi Hn].
  - by apply enter_ok.
  - by apply connect_ok.
  - by apply command_ok.
  - by apply check_ok.
  - destruct (po_calls _ _ Hs _ _ Hi) as (Hc & _). unfold drop_lease, lease_release. rewrite Hc.
    by apply pool_ok_return.
  - pose proof (notifies_self _ _ _ _ Hn Hi). eapply pool_ok_call; try done.
    by eapply notifies_ok.
Qed.

Lemma held_wake (c : call) : held (wake_call c) = held c.
Proof. by destruct c. Qed.

Lemma omap_fmap_same {A B} (g : A → A) (f : A → option B) (l : list A) :
  (∀ x, f (g x) = f x) → omap f (g <$> l) = omap f l.
Proof. intros Hg. induction l as [|x l IH]; [done|]. cbn. by rewrite Hg, IH. Qed.

Lemma dtor_begin_ok n s : pool_ok n s → pool_ok n (dtor_begin s).
Proof.
  intros [H1 H2 H3 H4 H5 H6 H7 H8]. unfold dtor_begin, dtor_turn.
  split; unfold borrowed_slots in *; cbn [cf_pool cf_calls cf_dtor slots_ available_ borrowed_ stopping_];
    rewrite ?(omap_fmap_same wake_call held _ held_wake); try done.
  - intros i c Hi. rewrite list_lookup_fmap in Hi. apply fmap_Some in Hi as (c' & Hi & ->).
    pose proof (H6 _ _ Hi) as Hok. by destruct c'.
  - split; [done|]. intros _. by case_decide.
Qed.

Lemma other_step_ok n s s' : pool_ok n s → other_step s s' → pool_ok n s'.
Proof.
  intros Hs Hst. destruct Hst as [i argv s Hi|argv s Hd|s Hd|s Hd|s Hd].
  - by eapply pool_ok_call.
  - assert (held (command argv) = None ∧ call_ok (cf_pool s) (command argv)) as [Hnone Hcok]
      by (unfold command; by case_decide).
    assert (omap held (cf_calls s ++ [command argv]) = omap held (cf_calls s)) as Heq
      by (rewrite omap_app; cbn; rewrite Hnone; apply app_nil_r).
    destruct Hs as [H1 H2 H3 H4 H5 H6 H7 H8].
    split; unfold borrowed_slots in *; cbn [cf_pool cf_calls cf_dtor]; rewrite ?Heq; try done.
    intros i c [Hi|[_ [_ <-]%list_lookup_singleton_Some]]%lookup_app_Some; [by eapply H6|done].
  - by apply dtor_begin_ok.
  - destruct Hs as [H1 H2 H3 H4 H5 H6 H7 H8]. split; try done. cbn. rewrite <-H8, Hd. by case_decide.
  - destruct Hs as [H1 H2 H3 H4 H5 H6 H7 H8]. split; try done. cbn. rewrite <-H8, Hd. done.
Qed.

Definition pool_reachable (pool_size : nat) (d : redis_db) (s : config) : Prop :=
  rtc cstep (new_config pool_size d) s.

Lemma new_config_ok pool_size d : pool_ok (Nat.max 1 pool_size) (new_config pool_size d).
Proof.
  unfold new_config, new_RedisClient.
  set (n := if decide (pool_size = 0%nat) then 1%nat else pool_size).
  assert (Nat.max 1 pool_size = n) as -> by (unfold n; case_decide; lia).
  assert ((λ i, n - i - 1)%nat <$> seq 0 n ≡ₚ seq 0 n) as Hperm.
  { assert (∀ m, (λ i, m - i - 1)%nat <$> seq 0 m = reverse (seq 0 m)) as ->.
    { induction m as [|m IH]; [done|]. rewrite (seq_S m 0) at 2. rewrite reverse_snoc, <-IH. cbn [seq fmap list_fmap].
      rewrite <-(fmap_S_seq 0 m), <-list_fmap_compose.
      f_equal. lia. }
    apply reverse_Permutation. }
  split; cbn [cf_pool slots_ available_ borrowed_ stopping_ cf_calls cf_dtor];
    unfold borrowed_slots; cbn [cf_calls omap list_omap]; rewrite ?app_nil_r; try done.
  - apply length_replicate.
  - rewrite Hperm. apply NoDup_seq.
  - intros k. cbn. rewrite ?app_nil_r, Hperm, elem_of_seq. lia.
  - intros k x [-> _]%lookup_replicate _. done.
Qed.

Lemma pool_reachable_ok pool_size d s :
  pool_reachable pool_size d s → pool_ok (Nat.max 1 pool_size) s.
Proof.
  intros Hs. eapply rtc_invariant; [|exact Hs|apply new_config_ok].
  intros x y Hx [Hxy|Hxy]; [by eapply call_step_ok|by eapply other_step_ok].
Qed.

(** ** Calls as atomic requests *)

(** A request to Redis under a fault, as [Sys.exec] has it. *)
Definition faulted (f : fault) (argv : list string) (d : redis_db) : redis_db * option reply :=
  match f with
  | RequestLost => (d, None)
  | ReplyLost => ((redis_call argv d).1, None)
  | NoFault => let (d', r) := redis_call argv d in (d', Some r)
  end.

Lemma exec_faulted env argv w :
  exec env _ (RedisCommand argv) w =
    let (d, r) := faulted (env_fault env (w_tick w)) argv (w_db w) in (tick (set_db d w), r).
Proof.
  cbn. unfold redis_request, faulted. destruct (env_fault env (w_tick w)); [|by destruct w|done].
  by destruct (redis_call argv (w_db w)).
Qed.

(** A caller's view of a call. *)
Inductive request := Requested (argv : list string) | Answered (r : option reply).

Definition request_of (c : call) : request :=
  match c with
  | Calling argv | CvWaiting argv | Working argv _ | Connected argv _ => Requested argv
  | Closing _ err r => Answered (if (err =? 0)%Z then r else None)
  | Releasing _ r | Notifying r | Finished r => Answered r
  end.

Inductive request_step : redis_db * list request → redis_db * list request → Prop :=
| request_empty d l : request_step (d, l) (d, l ++ [Answered None])
| request_new argv d l : request_step (d, l) (d, l ++ [Requested argv])
| request_served i argv f d l :
    l !! i = Some (Requested argv) →
    request_step (d, l) ((faulted f argv d).1, <[i := Answered (faulted f argv d).2]> l).

Definition requests_of (s : config) : redis_db * list request :=
  (cf_db s, request_of <$> cf_calls s).

Lemma requests_same i c c' p s :
  cf_calls s !! i = Some c → request_of c' = request_of c → requests_of (with_call i c' p s) = requests_of s.
Proof.
  intros Hi Hc. unfold requests_of. cbn. rewrite list_fmap_insert, Hc. f_equal.
  apply list_insert_id. by rewrite list_lookup_fmap, Hi.
Qed.

Lemma requests_served i c c' argv f p d s :
  cf_calls s !! i = Some c → request_of c = Requested argv →
  faulted f argv (cf_db s) = (d, (if request_of c' is Answered r then r else None)) →
  (∃ r, request_of c' = Answered r) →
  request_step (requests_of s) (requests_of (with_db d (with_call i c' p s))).
Proof.
  intros Hi Hc Hf [r Hr]. rewrite Hr in Hf.
  assert ((request_of <$> cf_calls s) !! i = Some (Requested argv)) as Hl
    by (by rewrite list_lookup_fmap, Hi; cbn; rewrite Hc).
  pose proof (request_served i argv f (cf_db s) _ Hl) as Hstep. rewrite Hf in Hstep.
  unfold requests_of at 2. cbn. rewrite list_fmap_insert, Hr. exact Hstep.
Qed.

Lemma command_request n s i argv l o :
  pool_ok n s → cf_calls s !! i = Some (Connected argv l) →
  request_step (requests_of s) (requests_of
    (let '(p, d, c) := run_command o argv l (cf_pool s) (cf_db s) in with_db d (with_call i c p s))).
Proof.
  intros Hs Hi. unfold run_command. destruct (context_ l) as [ctx|].
  - destruct o as [err|executed err]; cbn [redisCommandArgv].
    + destruct (redis_call argv (cf_db s)) as [d r] eqn:Hcall.
      apply (requests_served i (Connected argv l) _ argv (if (err =? 0)%Z then NoFault else ReplyLost));
        [done..| |by eexists]. cbn. destruct (err =? 0)%Z; cbn; by rewrite Hcall.
    + apply (requests_served i (Connected argv l) _ argv (if executed then ReplyLost else RequestLost));
        [done..| |by eexists]. cbn. destruct executed, (err =? 0)%Z; done.
  - by apply (requests_served i (Connected argv l) _ argv RequestLost); [..|eexists].
Qed.

Lemma call_step_request n s s' :
  pool_ok n s → call_step s s' → requests_of s' = requests_of s ∨
    request_step (requests_of s) (requests_of s').
Proof.
  intros Hs Hst. destruct Hst as [i argv s Hi|i argv slot con s Hi|i argv l o s Hi|i l err r s Hi
    |i l r s Hi|i r s s' Hi Hn].
  - unfold acquire_enter. destruct (_ && _); [left; by eapply requests_same|].
    destruct (stopping_ (cf_pool s)).
    + right. rewrite <-(with_db_same (with_call _ _ _ _)).
      by apply (requests_served i (Calling argv) _ argv RequestLost); [..|eexists].
    + left. destruct (last _); by eapply requests_same.
  - left. unfold acquire_connect. destruct (ensureConnected _ _ _). by eapply requests_same.
  - right. by eapply command_request.
  - left. destruct (po_calls _ _ Hs _ _ Hi) as (Hc & ctx & Hctx & _).
    unfold check_broken, lease_close. rewrite Hctx, Hc. cbn.
    destruct (err =? 0)%Z eqn:E, r; cbn; eapply requests_same; try done; cbn; by rewrite E.
  - left. unfold drop_lease, lease_release. destruct (client_ l); by eapply requests_same.
  - left. pose proof (notifies_self _ _ _ _ Hn Hi) as Hi'.
    transitivity (requests_of s'); [by eapply requests_same|].
    destruct Hn as [j argv s Hj|s Hd|s _ _]; [by eapply requests_same|done..].
Qed.

Lemma other_step_request s s' :
  other_step s s' → requests_of s' = requests_of s ∨
    request_step (requests_of s) (requests_of s').
Proof.
  intros Hst. destruct Hst as [i argv s Hi|argv s Hd|s Hd|s Hd|s Hd].
  - left. by eapply requests_same.
  - right. unfold requests_of at 2. cbn. rewrite fmap_app. unfold command. case_decide; constructor.
  - left. unfold requests_of. cbn. f_equal. rewrite <-list_fmap_compose.
    apply list_fmap_ext. by intros i [].
  - by left.
  - by left.
Qed.

Lemma pool_requests pool_size d s :
  pool_reachable pool_size d s → rtc request_step (d, []) (requests_of s).
Proof.
  intros Hs. cut (∀ x, rtc cstep x s → pool_ok (Nat.max 1 pool_size) x →
    rtc request_step (requests_of x) (requests_of s)).
  { intros Hall. apply (Hall _ Hs). apply new_config_ok. }
  clear Hs. intros x Hx. induction Hx as [x|x y z Hxy Hyz IH]; intros Hok; [done|].
  destruct Hxy as [Hxy|Hxy].
  - specialize (IH (call_step_ok _ _ _ Hok Hxy)).
    destruct (call_step_request _ _ _ Hok Hxy) as [<-|]; [done|by eapply rtc_l].
  - specialize (IH (other_step_ok _ _ _ Hok Hxy)).
    destruct (other_step_request _ _ Hxy) as [<-|]; [done|by eapply rtc_l].
Qed.

(** ** Waiting

    What is left of a call, in steps; and the calls that are about to look for
    a connection or to announce one. *)
Definition call_weight (c : call) : nat :=
  match c with
  | Calling _ => 8 | CvWaiting _ => 7 | Working _ _ => 6 | Connected _ _ => 5
  | Closing _ _ _ => 4 | Releasing _ _ => 3 | Notifying _ => 2 | Finished _ => 0
  end.

Definition steps_left (s : config) : nat := sum_list_with call_weight (cf_calls s).

Definition ready (c : call) : nat := match c with Calling _ | Notifying _ => 1 | _ => 0 end.

Definition ready_calls (s : config) : nat := sum_list_with ready (cf_calls s).

(** Nobody waits for a connection that nobody will announce, and the same for
    the destructor. *)
Record wait_ok (s : config) : Prop := {
  wo_calls : ∀ j argv, cf_calls s !! j = Some (CvWaiting argv) →
    stopping_ (cf_pool s) = false ∧ (length (available_ (cf_pool s)) <= ready_calls s)%nat;
  wo_dtor : cf_dtor s = DWaiting →
    (0 < borrowed_ (cf_pool s))%nat ∨ ∃ j r, cf_calls s !! j = Some (Notifying r);
  wo_done : cf_dtor s = Destroyed → borrowed_ (cf_pool s) = 0%nat }.

Lemma ready_insert i c c' s p :
  cf_calls s !! i = Some c →
  (ready_calls (with_call i c' p s) + ready c = ready_calls s + ready c')%nat.
Proof. apply sum_insert. Qed.

Lemma weight_insert i c c' s p :
  cf_calls s !! i = Some c →
  (steps_left (with_call i c' p s) + call_weight c = steps_left s + call_weight c')%nat.
Proof. apply sum_insert. Qed.

(** A step that neither waits nor announces, nor touches what is available. *)
Lemma wait_ok_keep i c c' p d s :
  wait_ok s → cf_calls s !! i = Some c → (ready c <= ready c')%nat →
  (∀ argv, c' ≠ CvWaiting argv) → (∀ r, c = Notifying r → c' = c) →
  available_ p = available_ (cf_pool s) → borrowed_ p = borrowed_ (cf_pool s) →
  stopping_ p = stopping_ (cf_pool s) → wait_ok (with_db d (with_call i c' p s)).
Proof.
  intros [H1 H2 H3] Hi Hr Hw Hnot Ha Hb Hst.
  pose proof (ready_insert i c c' s p Hi) as Hsum.
  split; cbn [cf_pool cf_calls cf_dtor with_db with_call]; rewrite ?Ha, ?Hb, ?Hst; try done.
  - intros j argv [(<- & -> & _)|[Hne Hj]]%list_lookup_insert_Some; [by destruct (Hw argv)|].
    destruct (H1 _ _ Hj) as [? Hle]. split; [done|].
    change (ready_calls (with_db d (with_call i c' p s))) with (ready_calls (with_call i c' p s)). lia.
  - intros [Hpos|(j & r & Hj)]%H2; [by left|right]. destruct (decide (j = i)) as [->|Hne].
    + exists i, r. rewrite list_lookup_insert_eq by by eapply lookup_lt_Some.
      rewrite Hi in Hj. injection Hj as ->. by rewrite (Hnot r).
    + exists j, r. by rewrite list_lookup_insert_ne.
Qed.

Lemma enter_wait n s i argv :
  pool_ok n s → wait_ok s → cf_calls s !! i = Some (Calling argv) →
  let s' := (let (p, c) := acquire_enter argv (cf_pool s) in with_call i c p s) in
  wait_ok s' ∧ (steps_left s' < steps_left s)%nat.
Proof.
  intros Hp Hs Hi. pose proof Hs as [H1 H2 H3]. unfold acquire_enter.
  destruct (bool_decide (available_ (cf_pool s) = [])) eqn:Ha.
  - apply bool_decide_eq_true in Ha. destruct (stopping_ (cf_pool s)) eqn:Hst; cbn [negb andb].
    + split.
      * rewrite <-(with_db_same (with_call _ _ _ _)).
        split; cbn [cf_pool cf_calls cf_dtor with_db with_call]; [|intros Hd|done].
        -- intros j a [(_ & [=] & _)|[_ Hj]]%list_lookup_insert_Some. destruct (H1 _ _ Hj). congruence.
        -- destruct (H2 Hd) as [?|(j & r & Hj)]; [by left|right]. exists j, r.
           rewrite list_lookup_insert_ne; [done|]. intros <-. congruence.
      * pose proof (weight_insert i _ (Finished None) s (cf_pool s) Hi). cbn in *. lia.
    + split.
      * split; cbn [cf_pool cf_calls cf_dtor with_call]; [|intros Hd|done].
        -- intros j a _. rewrite Ha. cbn. split; [done|lia].
        -- destruct (po_dtor _ _ Hp) as [Hx _]. rewrite Hd in Hx. specialize (Hx ltac:(done)). congruence.
      * pose proof (weight_insert i _ (CvWaiting argv) s (cf_pool s) Hi). cbn in *. lia.
  - apply bool_decide_eq_false in Ha. cbn [andb].
    destruct (stopping_ (cf_pool s)) eqn:Hst.
    + split.
      * split; cbn [cf_pool cf_calls cf_dtor with_call]; [|intros Hd|done].
        -- intros j a [(_ & [=] & _)|[_ Hj]]%list_lookup_insert_Some. destruct (H1 _ _ Hj). congruence.
        -- destruct (H2 Hd) as [?|(j & r & Hj)]; [by left|right]. exists j, r.
           rewrite list_lookup_insert_ne; [done|]. intros <-. congruence.
      * pose proof (weight_insert i _ (Finished None) s (cf_pool s) Hi). cbn in *. lia.
    + destruct (last (available_ (cf_pool s))) as [slot|] eqn:Hl; [|by apply last_None in Hl].
      set (p := Build_RedisClient _ _ _ _ _). split.
      * pose proof (ready_insert i _ (Working argv slot) s p Hi) as Hsum. cbn [ready] in Hsum.
        apply removelast_last, (f_equal length) in Hl. rewrite length_app in Hl. cbn in Hl.
        assert (length (available_ p) = length (removelast (available_ (cf_pool s)))) as Hav by done.
        split; cbn [cf_pool cf_calls cf_dtor with_call].
        -- intros j a [(_ & [=] & _)|[_ Hj]]%list_lookup_insert_Some.
           destruct (H1 _ _ Hj). split; [done|]. rewrite Hav. lia.
        -- intros _. left. cbn. lia.
        -- intros Hd. destruct (po_dtor _ _ Hp) as [Hx _]. rewrite Hd in Hx.
           specialize (Hx ltac:(done)). congruence.
      * pose proof (weight_insert i _ (Working argv slot) s p Hi). cbn in *. lia.
Qed.

Lemma notify_wait n s s1 i r :
  pool_ok n s → wait_ok s → cf_calls s !! i = Some (Notifying r) → notifies s s1 →
  let s' := with_call i (Finished r) (cf_pool s1) s1 in
  wait_ok s' ∧ (steps_left s' < steps_left s)%nat.
Proof.
  intros Hp Hs Hi Hn s'. pose proof (notifies_self _ _ _ _ Hn Hi) as Hi1.
  pose proof (weight_insert i _ (Finished r) s1 (cf_pool s1) Hi1) as Hw.
  pose proof (ready_insert i _ (Finished r) s1 (cf_pool s1) Hi1) as Hr.
  fold s' in Hw, Hr. cbn [call_weight ready] in Hw, Hr.
  destruct Hs as [H1 H2 H3], Hn as [j argv s Hj|s Hd|s Hno Hd].
  - pose proof (weight_insert j _ (Calling argv) s (cf_pool s) Hj) as Hw'.
    pose proof (ready_insert j _ (Calling argv) s (cf_pool s) Hj) as Hr'.
    cbn [call_weight ready] in Hw', Hr'. destruct (H1 _ _ Hj) as [Hst Hle].
    assert (cf_dtor s = NotCalled) as Hd.
    { destruct (po_dtor _ _ Hp) as [Hx _]. destruct (cf_dtor s); [done|..];
        (specialize (Hx ltac:(done)); congruence). }
    split; [|lia]. split; cbn [cf_pool cf_calls cf_dtor with_call s']; rewrite ?Hd; try done.
    intros k a _. split; [done|]. fold s'. lia.
  - assert (∀ j argv, cf_calls s !! j ≠ Some (CvWaiting argv)) as Hno.
    { intros j argv [Hst _]%H1. destruct (po_dtor _ _ Hp) as [Hx _]. rewrite Hd in Hx.
      specialize (Hx ltac:(done)). congruence. }
    split; [|unfold steps_left in *; cbn in *; lia].
    split; cbn [cf_pool cf_calls cf_dtor with_call s']; try done.
    intros k a [(_ & [=] & _)|[_ Hk]]%list_lookup_insert_Some. by destruct (Hno k a).
  - split; [|lia]. split; cbn [cf_pool cf_calls cf_dtor with_call s']; try done.
    intros k a [(_ & [=] & _)|[_ Hk]]%list_lookup_insert_Some. by destruct (Hno k a).
Qed.

Lemma release_wait n s i l r :
  pool_ok n s → wait_ok s → cf_calls s !! i = Some (Releasing l r) →
  let s' := with_call i (Notifying r) (releaseSlot (slot_index_ l) (cf_pool s)) s in
  wait_ok s' ∧ (steps_left s' < steps_left s)%nat.
Proof.
  intros Hp Hs Hi s'.
  pose proof (weight_insert i _ (Notifying r) s (releaseSlot (slot_index_ l) (cf_pool s)) Hi) as Hw.
  pose proof (ready_insert i _ (Notifying r) s (releaseSlot (slot_index_ l) (cf_pool s)) Hi) as Hr.
  fold s' in Hw, Hr. cbn [call_weight ready] in Hw, Hr. destruct Hs as [H1 H2 H3].
  split; [|lia]. split; cbn [cf_pool cf_calls cf_dtor with_call s' releaseSlot stopping_ available_ borrowed_].
  - intros k a [(_ & [=] & _)|[_ Hk]]%list_lookup_insert_Some. destruct (H1 _ _ Hk) as [Hst Hle].
    split; [done|]. rewrite Hst, length_app. cbn [length]. fold s'. lia.
  - intros _. right. exists i, r. by apply list_lookup_insert_eq, lookup_lt_Some with (Releasing l r).
  - intros Hd. rewrite (H3 Hd). done.
Qed.

Lemma call_step_wait n s s' :
  pool_ok n s → wait_ok s → call_step s s' → wait_ok s' ∧ (steps_left s' < steps_left s)%nat.
Proof.
  intros Hp Hs Hst. destruct Hst as [i argv s Hi|i argv slot con s Hi|i argv l o s Hi|i l err r s Hi
    |i l r s Hi|i r s s1 Hi Hn].
  - by eapply enter_wait.
  - unfold acquire_connect. destruct (ensureConnected con slot (cf_pool s)) as [p x] eqn:He.
    assert (available_ p = available_ (cf_pool s) ∧ borrowed_ p = borrowed_ (cf_pool s) ∧
      stopping_ p = stopping_ (cf_pool s)) as (Ha & Hb & Hst).
    { unfold ensureConnected, ConnectRedis in He. repeat case_match; simplify_eq; done. }
    set (c := Connected _ _). pose proof (weight_insert i _ c s p Hi) as Hw. cbn [call_weight c] in Hw.
    split; [|lia]. rewrite <-(with_db_same (with_call _ _ _ _)). by eapply wait_ok_keep.
  - assert (∃ p d c, run_command o argv l (cf_pool s) (cf_db s) = (p, d, c) ∧
      available_ p = available_ (cf_pool s) ∧ borrowed_ p = borrowed_ (cf_pool s) ∧
      stopping_ p = stopping_ (cf_pool s) ∧ ready c = 0%nat ∧ (∀ a, c ≠ CvWaiting a) ∧
      (call_weight c <= 4)%nat) as (p & d & c & -> & Ha & Hb & Hst & Hr & Hc & Hcw).
    { unfold run_command. destruct (context_ l).
      - destruct (redisCommandArgv _ _ _) as [[d r] err]. do 3 eexists. split; [reflexivity|].
        cbn. split_and!; try done.
      - do 3 eexists. split; [reflexivity|]. cbn. split_and!; done || lia. }
    pose proof (weight_insert i _ c s p Hi) as Hw. cbn [call_weight] in Hw.
    split; [|unfold steps_left in *; cbn in *; lia]. eapply wait_ok_keep; try done. cbn. lia.
  - assert (∃ p c, check_broken l err r (cf_pool s) = (p, c) ∧
      available_ p = available_ (cf_pool s) ∧ borrowed_ p = borrowed_ (cf_pool s) ∧
      stopping_ p = stopping_ (cf_pool s) ∧ ∃ l' r', c = Releasing l' r')
      as (p & c & -> & Ha & Hb & Hst & l' & r' & ->).
    { unfold check_broken, lease_close. destruct (IsConnectionBroken _ _), (client_ l);
        do 2 eexists; (split; [reflexivity|]); split_and!; try done; by do 2 eexists. }
    pose proof (weight_insert i _ (Releasing l' r') s p Hi) as Hw. cbn [call_weight] in Hw.
    split; [|lia]. rewrite <-(with_db_same (with_call _ _ _ _)). by eapply wait_ok_keep.
  - destruct (po_calls _ _ Hp _ _ Hi) as (Hc & _). unfold drop_lease, lease_release. rewrite Hc.
    by eapply release_wait.
  - by eapply notify_wait.
Qed.

Lemma dtor_turn_wait s :
  (∀ j argv, cf_calls s !! j ≠ Some (CvWaiting argv)) → wait_ok (dtor_turn s).
Proof.
  intros Hno. unfold dtor_turn. split; cbn [cf_pool cf_calls cf_dtor].
  - intros j argv Hj. by destruct (Hno j argv).
  - case_decide; [by left|done].
  - case_decide; [done|]. intros _. lia.
Qed.

Lemma other_step_wait n s s' : pool_ok n s → wait_ok s → other_step s s' → wait_ok s'.
Proof.
  intros Hp Hs Hst. destruct Hst as [i argv s Hi|argv s Hd|s Hd|s Hd|s Hd].
  - rewrite <-(with_db_same (with_call _ _ _ _)). eapply wait_ok_keep; try done. cbn. lia.
  - destruct Hs as [H1 H2 H3]. split; cbn [cf_pool cf_calls cf_dtor]; rewrite ?Hd; try done.
    intros j a [Hj|[_ [_ Hj]%list_lookup_singleton_Some]]%lookup_app_Some;
      [|unfold command in Hj; by case_decide].
    destruct (H1 _ _ Hj) as [? Hle]. split; [done|]. unfold ready_calls in *. cbn [cf_calls].
    rewrite sum_list_with_app. lia.
  - apply dtor_turn_wait. cbn. intros j argv Hj. rewrite list_lookup_fmap in Hj.
    apply fmap_Some in Hj as (c & _ & Hc). by destruct c.
  - apply dtor_turn_wait. intros j argv [Hst _]%(wo_calls _ Hs).
    destruct (po_dtor _ _ Hp) as [Hx _]. rewrite Hd in Hx. specialize (Hx ltac:(done)). congruence.
  - destruct Hs as [H1 H2 H3]. by split.
Qed.

Lemma pool_reachable_wait pool_size d s : pool_reachable pool_size d s → wait_ok s.
Proof.
  intros Hs. cut (pool_ok (Nat.max 1 pool_size) s ∧ wait_ok s); [tauto|].
  apply (rtc_invariant cstep (λ s, pool_ok (Nat.max 1 pool_size) s ∧ wait_ok s)) with (x := new_config pool_size d); [|exact Hs|].
  - intros x y [Hx Hw] [Hxy|Hxy]; (split; [|by first [by eapply call_step_wait|by eapply other_step_wait]]).
    + by eapply call_step_ok.
    + by eapply other_step_ok.
  - split; [apply new_config_ok|]. by split.
Qed.

(** A call that is not waiting and not finished can go on. *)
Lemma call_can_step s i c :
  cf_calls s !! i = Some c → (∀ argv, c ≠ CvWaiting argv) → (∀ r, c ≠ Finished r) →
  ∃ s', call_step s s'.
Proof.
  intros Hi Hw Hf. destruct c as [argv|argv|argv slot|argv l|l err r|l r|r|r];
    [eexists; by eapply step_enter|by destruct (Hw argv)|eexists; by eapply (step_connect _ _ _ true)
    |eexists; by eapply (step_command _ _ _ (NoReply false 0))|eexists; by eapply step_check
    |eexists; by eapply step_release| |by destruct (Hf r)].
  destruct (list_find (λ c : call, (if c is CvWaiting _ then true else false) = true) (cf_calls s)) as [[j c]|] eqn:Hfind.
  - apply list_find_Some in Hfind as (Hj & Hc & _). destruct c; try done.
    eexists. eapply step_notify; [done|by eapply notify_call].
  - assert (∀ j argv, cf_calls s !! j ≠ Some (CvWaiting argv)) as Hno.
    { intros j argv Hj. apply list_find_None in Hfind. rewrite Forall_lookup in Hfind.
      by apply (Hfind j (CvWaiting argv)). }
    destruct (decide (cf_dtor s = DWaiting)) as [Hd|Hd].
    + eexists. eapply step_notify; [done|by apply notify_dtor].
    + eexists. eapply step_notify; [done|by apply notify_nobody].
Qed.

Lemma stuck_finished pool_size d s :
  pool_reachable pool_size d s → (∀ s', ¬ call_step s s') →
  (∀ c, c ∈ cf_calls s → ∃ r, c = Finished r) ∧ cf_dtor s ≠ DWaiting.
Proof.
  intros Hr Hstuck. pose proof (pool_reachable_ok _ _ _ Hr) as Hp.
  pose proof (pool_reachable_wait _ _ _ Hr) as Hw.
  assert (∀ i c, cf_calls s !! i = Some c → (∃ argv, c = CvWaiting argv) ∨ ∃ r, c = Finished r) as Hc.
  { intros i c Hi. destruct c as [argv|argv|argv slot|argv l|l err r|l r|r|r]; eauto;
      exfalso; (destruct (call_can_step _ _ _ Hi) as [s' Hs']; [done..|by destruct (Hstuck s')]). }
  assert (ready_calls s = 0%nat) as Hready.
  { unfold ready_calls. assert (∀ l : list call, (∀ i c, l !! i = Some c → ready c = 0%nat) →
      sum_list_with ready l = 0%nat) as Hz.
    { induction l as [|c l IH]; intros Hl; [done|]. cbn. rewrite (Hl 0%nat c) by done.
      rewrite IH; [done|]. intros i. apply (Hl (S i)). }
    apply Hz. intros i c Hi. by destruct (Hc _ _ Hi) as [[? ->]|[? ->]]. }
  assert (borrowed_slots s = []) as Hnone.
  { unfold borrowed_slots. assert (∀ l : list call, (∀ i c, l !! i = Some c → held c = None) →
      omap held l = []) as Hz.
    { induction l as [|c l IH]; intros Hl; [done|]. cbn. rewrite (Hl 0%nat c) by done.
      apply IH. intros i. apply (Hl (S i)). }
    apply Hz. intros i c Hi. by destruct (Hc _ _ Hi) as [[? ->]|[? ->]]. }
  split.
  - intros c [i Hi]%list_elem_of_lookup. destruct (Hc _ _ Hi) as [[argv ->]|]; [|done].
    destruct (wo_calls _ Hw _ _ Hi) as [Hst Hle]. pose proof (po_all _ _ Hp Hst) as Hall.
    rewrite Hnone, app_nil_r in Hall. apply Permutation_length in Hall. rewrite length_seq in Hall. lia.
  - intros Hd. destruct (wo_dtor _ Hw Hd) as [Hb|(j & r & Hj)].
    + rewrite (po_borrowed _ _ Hp), Hnone in Hb. cbn in Hb. lia.
    + by destruct (Hc _ _ Hj) as [[? [=]]|[? [=]]].
Qed.

Lemma call_steps_bounded n k s s' :
  pool_ok n s → wait_ok s → nsteps call_step k s s' → (k + steps_left s' <= steps_left s)%nat.
Proof.
  intros Hp Hw Hk. induction Hk as [s|k s1 s2 s3 Hst _ IH]; [lia|].
  destruct (call_step_wait _ _ _ Hp Hw Hst) as [Hw' Hlt].
  specialize (IH (call_step_ok _ _ _ Hp Hst) Hw'). lia.
Qed.
End pool.

(** ** Properties *)
Section properties.
Context {R : Redis}.

(** C20. A connection serves one call at a time.  Whatever calls, replies,
    wake-ups and a destruction happen: no two calls hold the same slot; a
    command is sent only on the connection of its own slot and never on one
    with an error; while the client is in use every slot is either available,
    once, or borrowed by one call; the count of borrowed slots is exact; and
    when the destructor returns none is borrowed. *)
Theorem leases_exclusive pool_size d s :
  pool_reachable pool_size d s →
  (∀ i j c c' k, cf_calls s !! i = Some c → cf_calls s !! j = Some c' →
    held c = Some k → held c' = Some k → i = j) ∧
  (∀ i argv l x, cf_calls s !! i = Some (Connected argv l) → context_ l = Some x →
    slots_ (cf_pool s) !! slot_index_ l = Some (Some x) ∧ ctx_err x = 0%Z) ∧
  (stopping_ (cf_pool s) = false →
    available_ (cf_pool s) ++ borrowed_slots s ≡ₚ seq 0 (Nat.max 1 pool_size)) ∧
  borrowed_ (cf_pool s) = length (borrowed_slots s) ∧
  (cf_dtor s = Destroyed → borrowed_slots s = []).
Proof.
  intros Hr. pose proof (pool_reachable_ok _ _ _ Hr) as Hp. split; [|split; [|split; [|split]]].
  - intros i j c c' k. by apply (held_distinct _ _ i j c c' k Hp).
  - intros i argv l x Hi Hx. destruct (po_calls _ _ Hp _ _ Hi) as (_ & Hs & Hh).
    rewrite Hx in Hs, Hh. split; [done|by apply Hh].
  - apply Hp.
  - apply Hp.
  - intros Hd%(wo_done _ (pool_reachable_wait _ _ _ Hr)). rewrite (po_borrowed _ _ Hp) in Hd.
    by apply length_zero_iff_nil.
Qed.

(** C19. The pool behaves as the requests the store is verified against.  Seen
    by its callers, any run of the pool is a run in which every call of
    [command] is one atomic request to Redis that is executed and answered,
    lost before its execution, or executed with its reply lost; a call the
    destructor turns away is a lost request. *)
Theorem calls_are_requests pool_size d s :
  pool_reachable pool_size d s → rtc request_step (d, []) (requests_of s).
Proof. apply pool_requests. Qed.

(** C25. No call waits for ever.  From any reachable state the calls make at most
    [steps_left] more steps, eight per call, in whatever order they are
    scheduled; and when none can move without a spurious wake-up, every call
    has returned and the destructor is not waiting. *)
Theorem calls_return pool_size d k s s' :
  pool_reachable pool_size d s → nsteps call_step k s s' →
  (k <= steps_left s)%nat ∧
  ((∀ s'', ¬ call_step s' s'') →
   (∀ c, c ∈ cf_calls s' → ∃ r, c = Finished r) ∧ cf_dtor s' ≠ DWaiting).
Proof.
  intros Hr Hk. split.
  - pose proof (call_steps_bounded _ _ _ _ (pool_reachable_ok _ _ _ Hr)
      (pool_reachable_wait _ _ _ Hr) Hk). lia.
  - apply (stuck_finished pool_size d). unfold pool_reachable in *. etrans; [exact Hr|].
    clear Hr. induction Hk as [x|k x y z Hxy _ IH]; [apply rtc_refl|].
    eapply rtc_l; [by left|exact IH].
Qed.
End properties.

(** The port is always one: whatever the environment says, [RedisPort] is
    between 1 and 65535; the decimal text of such a number gives that number,
    and anything that is not one in full gives the default. *)
Theorem RedisPort_bounds text :
  (1 ≤ RedisPort text ≤ 65535)%Z ∧
  (∀ n, 1 ≤ n ≤ 65535 → text = Some (to_string n) → RedisPort text = Z.of_N n) ∧
  (∀ t, text = Some t → (strtol t).2 ≠ "" → RedisPort text = kDefaultRedisPort).
Proof.
  unfold RedisPort, kDefaultRedisPort. split; [|split].
  - destruct text as [t|]; [|lia]. case_decide; [lia|]. destruct (strtol t) as [p rest].
    destruct (_ || _) eqn:E; [lia|]. apply orb_false_iff in E as [E E3%Z.ltb_ge].
    apply orb_false_iff in E as [_ E2%Z.leb_gt]. rewrite int32_small; lia.
  - intros n Hn ->. rewrite decide_False.
    + rewrite strtol_to_string by lia. rewrite bool_decide_true by done. cbn [negb orb].
      destruct (_ <=? 0)%Z eqn:E1; [apply Z.leb_le in E1; lia|].
      destruct (65535 <? _)%Z eqn:E2; [apply Z.ltb_lt in E2; lia|]. apply int32_small. lia.
    + rewrite c_str_all_digits by apply all_digits_to_string. apply to_string_nonempty.
  - intros t -> Ht. case_decide; [done|]. destruct (strtol t) as [p rest]. cbn in Ht.
    by rewrite bool_decide_false.
Qed.

Lemma parse_eval_argv script keys args :
  N.of_nat (length keys) < 9223372036854775808 →
  parse_eval (eval_argv script keys args) = Some (script, keys, args).
Proof.
  intros Hlen. unfold parse_eval, eval_argv. rewrite strtol_to_string by done.
  rewrite bool_decide_true by done. cbn [andb].
  rewrite length_app, (proj2 (Z.leb_le 0 _)), (proj2 (Z.leb_le _ (Z.of_nat (_ + _)))) by lia.
  cbn [andb]. replace (Z.to_nat (Z.of_N (N.of_nat (length keys)))) with (length keys) by lia.
  by rewrite take_app_length, drop_app_length.
Qed.

(** EVAL carries the script, the keys and the arguments.  Reading the
    argument vector [eval] builds the way Redis documents gives back exactly
    what the caller passed, whatever the keys and arguments contain. *)
Theorem eval_argv_roundtrip script keys args :
  N.of_nat (length keys) < 9223372036854775808 →
  parse_eval (eval_argv script keys args) = Some (script, keys, args).
Proof. apply parse_eval_argv. Qed.

(** ** Concrete pools *)

Definition get_counter : list string := ["GET"; "rmd:msg:next_id"].

(** A call that has given its connection back and not yet announced it. *)
Lemma returning_reachable :
  ∃ s, pool_reachable (R := ref_redis) 1 ∅ s ∧ cf_calls s = [Notifying (Some RNil)] ∧
    cf_dtor s = NotCalled ∧ borrowed_ (cf_pool s) = 0%nat.
Proof.
  eexists. split.
  - eapply rtc_l; [right; by apply (step_new get_counter)|].
    eapply rtc_l; [left; by apply (step_enter 0 get_counter)|].
    eapply rtc_l; [left; by apply (step_connect 0 get_counter 0 true)|].
    eapply rtc_l; [left; by eapply (step_command 0 get_counter _ (Replied 0))|].
    eapply rtc_l; [left; by eapply (step_check 0)|].
    eapply rtc_l; [left; by eapply (step_release 0)|]. apply rtc_refl.
  - split_and!; vm_compute; reflexivity.
Qed.

(** C40. The destructor can be overtaken.  [releaseSlot] notifies after it has
    left its critical section, and the destructor only waits until the slot
    has been given back: the client can be destroyed while a call is about to
    use its condition variable. *)
Theorem destroyed_while_notifying :
  ∃ s, pool_reachable (R := ref_redis) 1 ∅ s ∧ cf_dtor s = Destroyed ∧
    ∃ i r, cf_calls s !! i = Some (Notifying r).
Proof.
  destruct returning_reachable as (s & Hs & Hc & Hd & Hb).
  exists (dtor_begin s). split; [|split].
  - eapply rtc_r; [exact Hs|]. right. by apply step_dtor.
  - unfold dtor_begin, dtor_turn. cbn. by rewrite Hb.
  - exists 0%nat, (Some RNil). cbn. by rewrite Hc.
Qed.

(** Two calls on a pool of two: one about to send, one about to connect. *)
Definition two_calls : config (R := ref_redis) :=
  {| cf_pool := {| slots_ := [Some {| ctx_id := 0; ctx_err := 0 |}; None]; available_ := [];
                   borrowed_ := 2; stopping_ := false; next_ctx := 1 |};
     cf_db := ∅;
     cf_calls := [Connected get_counter {| client_ := true; slot_index_ := 0;
                    context_ := Some {| ctx_id := 0; ctx_err := 0 |} |}; Working get_counter 1];
     cf_dtor := NotCalled |}.

Lemma two_calls_reachable : pool_reachable (R := ref_redis) 2 ∅ two_calls.
Proof.
  eapply rtc_l; [right; by apply (step_new get_counter)|].
  eapply rtc_l; [right; by apply (step_new get_counter)|].
  eapply rtc_l; [left; by apply (step_enter 0 get_counter)|].
  eapply rtc_l; [left; by apply (step_enter 1 get_counter)|].
  eapply rtc_l; [left; by apply (step_connect 0 get_counter 0 true)|]. apply rtc_refl.
Qed.

Lemma leases_exclusive_witness :
  held (Working get_counter 1 : call reply) = Some 1%nat ∧
  ∀ i j c c' k, cf_calls two_calls !! i = Some c → cf_calls two_calls !! j = Some c' →
    held c = Some k → held c' = Some k → i = j.
Proof.
  split; [reflexivity|]. exact (proj1 (leases_exclusive 2 ∅ two_calls two_calls_reachable)).
Defined.

Lemma calls_are_requests_witness :
  rtc request_step (∅ : keyspace, []) (∅, [Requested get_counter; Requested get_counter]).
Proof. exact (calls_are_requests (R := ref_redis) 2 ∅ two_calls two_calls_reachable). Defined.

(** The second call opens its connection. *)
Lemma calls_return_witness :
  steps_left two_calls = 11%nat ∧
  ∃ s', nsteps call_step 1 two_calls s' ∧ (1 <= steps_left two_calls)%nat ∧
    ((∀ s'', ¬ call_step s' s'') → (∀ c, c ∈ cf_calls s' → ∃ r, c = Finished r) ∧ cf_dtor s' ≠ DWaiting).
Proof.
  split; [reflexivity|].
  pose proof (step_connect 1 get_counter 1 true two_calls eq_refl) as Hs.
  pose proof (nsteps_l _ _ _ _ _ Hs (nsteps_O _ _)) as H.
  eexists. split; [exact H|]. exact (calls_return 2 ∅ 1 two_calls _ two_calls_reachable H).
Defined.

Lemma eval_argv_roundtrip_witness :
  parse_eval (eval_argv "return 1" ["k"; "2"] ["a"]) = Some ("return 1", ["k"; "2"], ["a"]).
Proof. apply (eval_argv_roundtrip "return 1" ["k"; "2"] ["a"]). reflexivity. Defined.
