(* ===== verification/Pooled.v ===== *)
(** * The server over its connection pool

    The threads of the server with every request to Redis carried out by
    [RedisClient]: borrowing a connection, opening it, sending the command,
    closing and returning it, interleaved with everything else.  Such a run is,
    operation by operation, a run in which requests are atomic and can be lost,
    so what is proved of those runs holds of it. *)

From S2P Require Import Prelude Decimal Message Codec UserState Prog Redis RedisInstance.
From S2P Require Import Scripts Sys RedisClient RedisPool.
Local Open Scope N_scope.

(** ** The environment of a run

    Steps under any clock readings and faults. *)
Section steps.
Context {R : Redis}.

Definition in_range (env : environment) : Prop := ∀ t, env_clock env t < exact_score.

Definition astep (c c' : world * list (sys unit)) : Prop :=
  ∃ env, in_range env ∧ tstep (exec env) c c'.

(** An operation looks at the environment of its moment only. *)
Lemma exec_agree env env' X (e : sysE X) w :
  env_clock env' (w_tick w) = env_clock env (w_tick w) →
  env_fault env' (w_tick w) = env_fault env (w_tick w) → exec env' X e w = exec env X e w.
Proof. intros Hc Hf. destruct e; cbn; unfold redis_request; by rewrite ?Hc, ?Hf. Qed.

Lemma nsteps_agree env env' n c c' :
  (∀ t, (w_tick c.1 <= t)%nat → env_clock env' t = env_clock env t ∧ env_fault env' t = env_fault env t) →
  nsteps (tstep (exec env)) n c c' → nsteps (tstep (exec env')) n c c'.
Proof.
  intros Hag Hn. induction Hn as [c|n c c1 c2 Hst _ IH]; [constructor|].
  inversion Hst as [w ts i X e k Hi]; subst. cbn [fst] in Hag.
  destruct (Hag (w_tick w) ltac:(done)) as [Hc Hf].
  pose proof (tstep_do (exec env') w ts i X e k Hi) as H. rewrite (exec_agree env env' X e w Hc Hf) in H.
  econstructor; [exact H|].
  - apply IH. cbn [fst]. rewrite exec_tick. intros t Ht. apply Hag. lia.
Qed.

(** The moments of a run put together. *)
Lemma asteps_env n c c' :
  nsteps astep n c c' → ∃ env, in_range env ∧ nsteps (tstep (exec env)) n c c'.
Proof.
  induction 1 as [c|n c c1 c2 (env1 & Hr1 & Hst) _ (env2 & Hr2 & IH)].
  - exists {| env_clock := λ _, 0; env_fault := λ _, NoFault |}. split; [by intros t|constructor].
  - inversion Hst as [w ts i X e k Hi]; subst.
    set (env := {| env_clock t := if decide (t = w_tick w) then env_clock env1 t else env_clock env2 t;
                   env_fault t := if decide (t = w_tick w) then env_fault env1 t else env_fault env2 t |}).
    exists env. split; [intros t; cbn; case_decide; [apply Hr1|apply Hr2]|].
    assert (exec env X e w = exec env1 X e w) as Heq by (apply exec_agree; cbn; by rewrite decide_True).
    pose proof (tstep_do (exec env) w ts i X e k Hi) as H. rewrite Heq in H.
    econstructor; [exact H|]. eapply nsteps_agree; [|exact IH]. cbn [fst]. rewrite exec_tick. intros t Ht. cbn.
    rewrite !decide_False by lia. done.
Qed.
End steps.

(** ** The threads *)
Section pooled.
Context {R : Redis}.

(** The scripts of MessageStore.cpp, and their texts. *)
Inductive script_name := SCreate | SDelivered | SPending | SAcked | SFailed | SRetry.

Definition script_of (n : script_name) : script_fn :=
  match n with
  | SCreate => kCreateMessageScript
  | SDelivered => kMarkDeliveredScript
  | SPending => kMarkPendingScript
  | SAcked => kMarkAckedScript
  | SFailed => kMarkFailedScript
  | SRetry => λ KEYS _, kIncrementRetryScript KEYS
  end.

Variable script_text : script_name → string.

(** The argument vector a request is sent as. *)
Inductive argv_of : sysE (option reply) → list string → Prop :=
| argv_command argv : argv_of (RedisCommand argv) argv
| argv_eval n keys args argv :
    N.of_nat (length keys) < 9223372036854775808 →
    eval (Some (script_text n)) keys args = Some argv →
    argv_of (RedisEval (script_of n) keys args) argv.

(** Redis runs the scripts it is sent. *)
Definition runs_scripts : Prop := ∀ n keys args argv d,
  N.of_nat (length keys) < 9223372036854775808 →
  eval (Some (script_text n)) keys args = Some argv →
  redis_call argv d = eval_script (script_of n keys args) d.

(** A thread is at the next operation of its program or inside call [j] of the
    pool, whose reply the rest [k] of its program waits for. *)
Inductive dthread :=
| At (p : sys unit)
| Within (e : sysE (option reply)) (j : nat) (k : option reply → sys unit).

Record dstate := { ds_pool : config; ds_world : world; ds_threads : list dthread }.

(** Operations other than requests to Redis. *)
Definition local_op X (e : sysE X) : Prop :=
  match e with RedisCommand _ | RedisEval _ _ _ => False | _ => True end.

Inductive dstep : dstate → dstate → Prop :=
| d_local env i X (e : sysE X) k s w ts :
    ts !! i = Some (At (Do e k)) → local_op X e → in_range env →
    dstep (Build_dstate s w ts)
      (Build_dstate s (exec env X e w).1 (<[i := At (k (exec env X e w).2)]> ts))
| d_call i e k argv s w ts :
    ts !! i = Some (At (Do e k)) → argv_of e argv → cf_dtor s = NotCalled →
    dstep (Build_dstate s w ts)
      (Build_dstate
         {| cf_pool := cf_pool s; cf_db := cf_db s; cf_calls := cf_calls s ++ [command argv];
            cf_dtor := cf_dtor s |} w
         (<[i := Within e (length (cf_calls s)) k]> ts))
| d_pool s s' w ts :
    cstep s s' → length (cf_calls s') = length (cf_calls s) →
    dstep (Build_dstate s w ts) (Build_dstate s' w ts)
| d_return i e j k r s w ts :
    ts !! i = Some (Within e j k) → cf_calls s !! j = Some (Finished r) →
    dstep (Build_dstate s w ts) (Build_dstate s w (<[i := At (k r)]> ts)).

Definition pooled_start (pool_size : nat) (w : world) (ts : list (sys unit)) : dstate :=
  Build_dstate (new_config pool_size (w_db w)) w (At <$> ts).

(** ** What it amounts to

    A thread inside a call is at its request until the request has taken effect
    and then at what follows. *)
Definition view (rs : list request) (t : dthread) : sys unit :=
  match t with
  | At p => p
  | Within e j k => match rs !! j with Some (Answered r) => k r | _ => Do e k end
  end.

Definition world_at (t : nat) (d : dstate) : world :=
  {| w_db := cf_db (ds_pool d); w_tick := t; w_users := w_users (ds_world d);
     w_live := w_live (ds_world d); w_out := w_out (ds_world d) |}.

Definition abstracted (t : nat) (d : dstate) : world * list (sys unit) :=
  (world_at t d, view (requests_of (ds_pool d)).2 <$> ds_threads d).

Record dinv (n : nat) (d : dstate) : Prop := {
  di_pool : pool_ok n (ds_pool d);
  di_call : ∀ i e j k, ds_threads d !! i = Some (Within e j k) → (j < length (cf_calls (ds_pool d)))%nat;
  di_asked : ∀ j argv, (requests_of (ds_pool d)).2 !! j = Some (Requested argv) →
    ∃ i e k, ds_threads d !! i = Some (Within e j k) ∧ argv_of e argv;
  di_unique : ∀ i1 i2 e1 e2 j k1 k2, ds_threads d !! i1 = Some (Within e1 j k1) →
    ds_threads d !! i2 = Some (Within e2 j k2) → i1 = i2 }.

Hypothesis scripts_run : runs_scripts.

Lemma exec_argv env e argv w :
  argv_of e argv →
  exec env _ e w =
    let (d, r) := faulted (env_fault env (w_tick w)) argv (w_db w) in (tick (set_db d w), r).
Proof.
  intros [argv'|n keys args argv' Hlen Hargv]; [apply exec_faulted|].
  pose proof (scripts_run n keys args argv' (w_db w) Hlen Hargv) as Hs.
  cbn. unfold redis_request, faulted. rewrite <-Hs.
  destruct (env_fault env (w_tick w)); [|by destruct w|done].
  by destruct (redis_call argv' (w_db w)).
Qed.

(** A request takes effect. *)
Lemma serve_step t n s w ts s' j f argv :
  dinv n (Build_dstate s w ts) → (requests_of s).2 !! j = Some (Requested argv) →
  requests_of s' =
    ((faulted f argv (cf_db s)).1, <[j := Answered (faulted f argv (cf_db s)).2]> (requests_of s).2) →
  astep (abstracted t (Build_dstate s w ts)) (abstracted (S t) (Build_dstate s' w ts)).
Proof.
  intros Hd Hj Hs'. destruct (di_asked _ _ Hd j argv Hj) as (i & e & k & Hi & Hargv). cbn in Hi.
  set (env := {| env_clock := λ _, 0; env_fault := λ _, f |}). exists env. split; [by intros ?|].
  unfold abstracted. cbn [ds_pool ds_threads].
  assert ((view (requests_of s).2 <$> ts) !! i = Some (Do e k)) as Hv.
  { rewrite list_lookup_fmap, Hi. cbn. change (request_of <$> cf_calls s) with (requests_of s).2.
    by rewrite Hj. }
  pose proof (tstep_do (exec env) (world_at t (Build_dstate s w ts)) _ i _ e k Hv) as H.
  rewrite (exec_argv env e argv _ Hargv) in H. cbn [w_db world_at ds_pool env_fault env] in H.
  destruct (faulted f argv (cf_db s)) as [d r] eqn:Hf. cbn [fst snd] in *.
  assert (cf_db s' = d) as Hdb by (by injection Hs').
  assert (world_at (S t) (Build_dstate s' w ts) = tick (set_db d (world_at t (Build_dstate s w ts)))) as ->
    by (unfold world_at; cbn; by rewrite Hdb).
  replace (view (requests_of s').2 <$> ts) with (<[i:=k r]> (view (requests_of s).2 <$> ts)); [exact H|].
  apply list_eq. intros i'. rewrite Hs'. cbn [snd]. rewrite list_lookup_fmap.
  assert (j < length (requests_of s).2)%nat as Hlt by (by eapply lookup_lt_Some).
  destruct (decide (i' = i)) as [->|Hne].
  - rewrite list_lookup_insert_eq by (eapply lookup_lt_Some, Hv). rewrite Hi. cbn.
    by rewrite list_lookup_insert_eq.
  - rewrite list_lookup_insert_ne by done. rewrite list_lookup_fmap.
    destruct (ts !! i') as [[p|e' j' k']|] eqn:Hi'; cbn; try done.
    destruct (decide (j' = j)) as [->|Hjj].
    + destruct Hne. by eapply (di_unique _ _ Hd).
    + by rewrite list_lookup_insert_ne.
Qed.

Lemma local_exec env t X (e : sysE X) s w ts ts' :
  local_op X e →
  let env' := {| env_clock := λ _, env_clock env (w_tick w); env_fault := λ _, NoFault |} in
  exec env' X e (world_at t (Build_dstate s w ts)) =
    (world_at (S t) (Build_dstate s (exec env X e w).1 ts'), (exec env X e w).2).
Proof.
  destruct e; cbn [local_op]; try done; intros _; cbn.
  by destruct (bindUser _ _ _ _).
Qed.

(** What stays of the invariant when the pool keeps its calls. *)
Lemma dinv_pool n s s' w ts :
  dinv n (Build_dstate s w ts) → pool_ok n s' → length (cf_calls s') = length (cf_calls s) →
  (∀ j argv, (requests_of s').2 !! j = Some (Requested argv) →
    (requests_of s).2 !! j = Some (Requested argv)) →
  dinv n (Build_dstate s' w ts).
Proof.
  intros [Hp Hc Ha Hu] Hp' Hlen Hr. split; cbn in *; [done|..|done].
  - intros i e j k Hi. rewrite Hlen. by eapply Hc.
  - intros j argv Hj. by apply Ha, Hr.
Qed.

Lemma pool_sim t n s s' w ts :
  dinv n (Build_dstate s w ts) → cstep s s' → length (cf_calls s') = length (cf_calls s) →
  dinv n (Build_dstate s' w ts) ∧
  (abstracted t (Build_dstate s' w ts) = abstracted t (Build_dstate s w ts) ∨
   astep (abstracted t (Build_dstate s w ts)) (abstracted (S t) (Build_dstate s' w ts))).
Proof.
  intros Hd Hst Hlen. pose proof (di_pool _ _ Hd) as Hp. cbn in Hp.
  assert (pool_ok n s' ∧ (requests_of s' = requests_of s ∨ request_step (requests_of s) (requests_of s')))
    as [Hp' [Heq|Hreq]].
  { destruct Hst as [Hst|Hst]; split;
      [by eapply call_step_ok|by eapply call_step_request|by eapply other_step_ok|by eapply other_step_request]. }
  - split; [eapply dinv_pool; [done..|by rewrite Heq]|left].
    unfold abstracted, world_at. cbn [ds_pool ds_threads ds_world]. rewrite Heq.
    by replace (cf_db s') with (cf_db s) by (by injection Heq).
  - assert (length (requests_of s').2 = length (requests_of s).2) as Hl
      by (cbn; by rewrite !length_fmap).
    remember (requests_of s) as rs eqn:Hrs. remember (requests_of s') as rs' eqn:Hrs'.
    destruct Hreq as [d l|argv d l|j argv f d l Hj]; cbn [snd] in Hl;
      [rewrite length_app in Hl; cbn in Hl; lia..|].
    assert (d = cf_db s ∧ l = (requests_of s).2) as [-> ->]
      by (split; [by injection Hrs|by rewrite <-Hrs]).
    split.
    + eapply dinv_pool; [done..|]. rewrite <-Hrs'. cbn [snd].
      intros j' argv' [(_ & [=] & _)|[_ H]]%list_lookup_insert_Some. done.
    + right. by eapply serve_step.
Qed.

Lemma view_other (rs : list request) (ts : list dthread) (i : nat) x :
  (∀ t, ts !! i = Some t → view rs x = view rs t) → view rs <$> <[i := x]> ts = view rs <$> ts.
Proof.
  intros Hx. rewrite list_fmap_insert. destruct (ts !! i) as [t|] eqn:Hi.
  - rewrite (Hx t eq_refl). apply list_insert_id. by rewrite list_lookup_fmap, Hi.
  - apply list_insert_ge. rewrite length_fmap. by apply lookup_ge_None.
Qed.

Lemma within_at (ts : list dthread) (i : nat) p x (i' : nat) e j k :
  ts !! i = Some (At p) → (∀ e j k, x ≠ Within e j k) →
  <[i := x]> ts !! i' = Some (Within e j k) ↔ ts !! i' = Some (Within e j k).
Proof.
  intros Hi Hx. destruct (decide (i' = i)) as [->|Hne]; [|by rewrite list_lookup_insert_ne].
  rewrite list_lookup_insert_eq by by eapply lookup_lt_Some.
  split; [intros [= H]; by destruct (Hx e j k)|congruence].
Qed.

Lemma local_sim t n env i X (e : sysE X) k s w ts :
  dinv n (Build_dstate s w ts) → ts !! i = Some (At (Do e k)) → local_op X e → in_range env →
  let d' := Build_dstate s (exec env X e w).1 (<[i := At (k (exec env X e w).2)]> ts) in
  dinv n d' ∧ astep (abstracted t (Build_dstate s w ts)) (abstracted (S t) d').
Proof.
  intros [Hp Hc Ha Hu] Hi Hloc Hr d'. unfold d'. clear d'. cbn in *. split.
  - split; cbn; [done|..].
    + intros i' e' j k'. rewrite (within_at _ _ _ _ _ _ _ _ Hi) by done. apply Hc.
    + intros j argv (i' & e' & k' & Hi' & Hargv)%Ha. exists i', e', k'. split; [|done].
      by apply (within_at _ _ _ _ _ _ _ _ Hi).
    + intros i1 i2 e1 e2 j k1 k2. rewrite !(within_at _ _ _ _ _ _ _ _ Hi) by done. apply Hu.
  - set (env' := {| env_clock := λ _, env_clock env (w_tick w); env_fault := λ _, NoFault |}).
    exists env'. split; [intros ?; apply Hr|]. unfold abstracted. cbn [ds_pool ds_threads].
    assert ((view (requests_of s).2 <$> ts) !! i = Some (Do e k)) as Hv
      by (by rewrite list_lookup_fmap, Hi).
    pose proof (tstep_do (exec env') (world_at t (Build_dstate s w ts)) _ i X e k Hv) as H.
    pose proof (local_exec env t X e s w ts (<[i:=At (k (exec env X e w).2)]> ts) Hloc) as Hx.
    cbv zeta in Hx. fold env' in Hx. rewrite Hx in H. by rewrite list_fmap_insert.
Qed.

Lemma call_sim t n i e k argv s w ts :
  dinv n (Build_dstate s w ts) → ts !! i = Some (At (Do e k)) → argv_of e argv → cf_dtor s = NotCalled →
  let s' := {| cf_pool := cf_pool s; cf_db := cf_db s; cf_calls := cf_calls s ++ [command argv];
               cf_dtor := cf_dtor s |} in
  let d' := Build_dstate s' w (<[i := Within e (length (cf_calls s)) k]> ts) in
  dinv n d' ∧
  (abstracted t d' = abstracted t (Build_dstate s w ts) ∨
   astep (abstracted t (Build_dstate s w ts)) (abstracted (S t) d')).
Proof.
  intros [Hp Hc Ha Hu] Hi Hargv Hdt s' d'. cbn in *. pose proof (lookup_lt_Some _ _ _ Hi) as Hlt.
  assert (∀ i' e' j k', j ≠ length (cf_calls s) →
    <[i := Within e (length (cf_calls s)) k]> ts !! i' = Some (Within e' j k') ↔
    ts !! i' = Some (Within e' j k')) as Hold.
  { intros i' e' j k' Hj. destruct (decide (i' = i)) as [->|Hne]; [|by rewrite list_lookup_insert_ne].
    rewrite list_lookup_insert_eq by done. split; [intros [= _ <- _]; lia|congruence]. }
  assert ((request_of <$> cf_calls s ++ [command argv]) !! length (cf_calls s) =
    Some (request_of (command argv))) as Hnew.
  { rewrite fmap_app, lookup_app_r by by rewrite length_fmap. by rewrite length_fmap, Nat.sub_diag. }
  split.
  - split; cbn; [eapply other_step_ok; [exact Hp|by apply step_new]|..].
    + intros i' e' j k' Hj. rewrite length_app. cbn.
      destruct (decide (j = length (cf_calls s))) as [->|Hne]; [lia|].
      apply Hold in Hj; [|done]. apply Hc in Hj. lia.
    + intros j argv' Hj. destruct (decide (j = length (cf_calls s))) as [->|Hne].
      * rewrite Hnew in Hj. exists i, e, k. split; [by apply list_lookup_insert_eq|].
        unfold command in Hj. case_decide; [done|]. by injection Hj as <-.
      * rewrite fmap_app in Hj. apply lookup_app_Some in Hj as [Hj|[Hle Hj]].
        -- destruct (Ha _ _ Hj) as (i' & e' & k' & Hi' & ?). exists i', e', k'. split; [by apply Hold|done].
        -- rewrite length_fmap in Hle, Hj. apply list_lookup_singleton_Some in Hj as [Hj _]. lia.
    + intros i1 i2 e1 e2 j k1 k2 H1 H2. destruct (decide (j = length (cf_calls s))) as [->|Hne].
      * assert (∀ i' e' k', <[i := Within e (length (cf_calls s)) k]> ts !! i' =
          Some (Within e' (length (cf_calls s)) k') → i' = i) as Honly.
        { intros i' e' k' H. destruct (decide (i' = i)) as [|Hne]; [done|].
          rewrite list_lookup_insert_ne in H by done. apply Hc in H. lia. }
        by rewrite (Honly _ _ _ H1), (Honly _ _ _ H2).
      * eapply Hu; by apply Hold.
  - assert (view (requests_of s').2 <$> ts = view (requests_of s).2 <$> ts) as Hviews.
    { apply list_fmap_ext. intros i' [p|e' j k'] Hi'; [done|]. cbn.
      rewrite fmap_app, lookup_app_l; [done|]. rewrite length_fmap. by eapply Hc. }
    assert ((view (requests_of s).2 <$> ts) !! i = Some (Do e k)) as Hv
      by (by rewrite list_lookup_fmap, Hi).
    unfold abstracted, d'. cbn [ds_pool ds_threads]. rewrite list_fmap_insert, Hviews.
    cbn [view requests_of snd]. cbn [cf_calls s']. rewrite Hnew. unfold command.
    case_decide as Hnil; cbn [request_of].
    + right. set (env := {| env_clock := λ _, 0; env_fault := λ _, RequestLost |}).
      exists env. split; [by intros ?|].
      pose proof (tstep_do (exec env) (world_at t (Build_dstate s w ts)) _ i _ e k Hv) as H.
      by rewrite (exec_argv env e argv _ Hargv) in H.
    + left. f_equal. by apply list_insert_id.
Qed.

Lemma return_sim t n i e j k r s w ts :
  dinv n (Build_dstate s w ts) → ts !! i = Some (Within e j k) → cf_calls s !! j = Some (Finished r) →
  let d' := Build_dstate s w (<[i := At (k r)]> ts) in
  dinv n d' ∧ abstracted t d' = abstracted t (Build_dstate s w ts).
Proof.
  intros [Hp Hc Ha Hu] Hi Hj d'. cbn in *. pose proof (lookup_lt_Some _ _ _ Hi) as Hlt.
  assert (∀ i' e' j' k', <[i := At (k r)]> ts !! i' = Some (Within e' j' k') →
    ts !! i' = Some (Within e' j' k')) as Hsub.
  { intros i' e' j' k' H. destruct (decide (i' = i)) as [->|Hne].
    - by rewrite list_lookup_insert_eq in H.
    - by rewrite list_lookup_insert_ne in H. }
  split.
  - split; cbn; [done|..].
    + intros i' e' j' k' H%Hsub. by eapply Hc.
    + intros j' argv Hj'. destruct (Ha _ _ Hj') as (i' & e' & k' & Hi' & ?). exists i', e', k'.
      split; [|done]. rewrite list_lookup_insert_ne; [done|]. intros <-.
      rewrite Hi in Hi'. injection Hi' as -> -> ->. by rewrite list_lookup_fmap, Hj in Hj'.
    + intros i1 i2 e1 e2 j' k1 k2 H1%Hsub H2%Hsub. by eapply Hu.
  - unfold abstracted. cbn [ds_pool ds_threads d']. f_equal. apply view_other.
    intros x Hx. rewrite Hi in Hx. injection Hx as <-. cbn. by rewrite list_lookup_fmap, Hj.
Qed.

Lemma dstep_sim t n d d' :
  dinv n d → dstep d d' →
  dinv n d' ∧ (abstracted t d' = abstracted t d ∨ astep (abstracted t d) (abstracted (S t) d')).
Proof.
  intros Hd Hst. destruct Hst as [env i X e k s w ts Hi Hloc Hr|i e k argv s w ts Hi Hargv Hdt
    |s s' w ts Hst Hlen|i e j k r s w ts Hi Hj].
  - destruct (local_sim t n env i X e k s w ts Hd Hi Hloc Hr) as [? ?]. by split; [|right].
  - by apply (call_sim t n i e k argv).
  - by apply pool_sim.
  - destruct (return_sim t n i e j k r s w ts Hd Hi Hj) as [? ?]. by split; [|left].
Qed.

Lemma dsteps_sim n N d d' t :
  dinv n d → nsteps dstep N d d' →
  ∃ m t', (m <= N)%nat ∧ nsteps astep m (abstracted t d) (abstracted t' d').
Proof.
  intros Hd Hn. revert t. induction Hn as [d|N d d1 d2 Hst _ IH]; intros t.
  { exists 0%nat, t. split; [done|constructor]. }
  destruct (dstep_sim t n d d1 Hd Hst) as [Hd1 [Heq|Ha]].
  - destruct (IH Hd1 t) as (m & t' & Hm & Hs). exists m, t'. rewrite Heq in Hs. split; [lia|done].
  - destruct (IH Hd1 (S t)) as (m & t' & Hm & Hs). exists (S m), t'.
    split; [lia|]. by econstructor.
Qed.

Lemma pooled_start_inv pool_size w ts : dinv (Nat.max 1 pool_size) (pooled_start pool_size w ts).
Proof.
  split; cbn; [apply new_config_ok|..].
  - intros i e j k. rewrite list_lookup_fmap. by destruct (ts !! i).
  - done.
  - intros i1 i2 e1 e2 j k1 k2. rewrite list_lookup_fmap. by destruct (ts !! i1).
Qed.

Lemma pooled_runs pool_size N w ts d :
  nsteps dstep N (pooled_start pool_size w ts) d →
  ∃ env m t, in_range env ∧ (m <= N)%nat ∧ nsteps (tstep (exec env)) m (w, ts) (abstracted t d).
Proof.
  intros Hn.
  destruct (dsteps_sim _ N _ _ (w_tick w) (pooled_start_inv pool_size w ts) Hn) as (m & t & Hm & Hs).
  destruct (asteps_env _ _ _ Hs) as (env & Hr & Henv). exists env, m, t. split_and!; [done..|].
  replace (w, ts) with (abstracted (w_tick w) (pooled_start pool_size w ts)); [done|].
  unfold abstracted, world_at. cbn. f_equal; [by destruct w|].
  by rewrite <-list_fmap_compose, (list_fmap_id ts : view [] ∘ At <$> ts = ts).
Qed.
End pooled.

(** ** A Redis that runs the scripts

    The texts of the scripts are those of the sources; here short names stand
    for them. *)
Definition demo_text (n : script_name) : string :=
  match n with
  | SCreate => "create" | SDelivered => "delivered" | SPending => "pending" | SAcked => "acked"
  | SFailed => "failed" | SRetry => "retry"
  end.

Definition script_named (text : string) : option script_name :=
  head (filter (λ n, demo_text n = text) [SCreate; SDelivered; SPending; SAcked; SFailed; SRetry]).

Definition scripted_call (argv : list string) (d : keyspace) : keyspace * reply :=
  match parse_eval argv with
  | Some (text, keys, args) =>
      match script_named text with
      | Some n => eval_script (R := ref_redis) (script_of n keys args) d
      | None => ref_redis_call argv d
      end
  | None => ref_redis_call argv d
  end.

Definition scripted_redis : Redis :=
  {| redis_db := keyspace; redis_call := scripted_call; redis_number := @redis_number ref_redis |}.

(** Scripts that do not call EVAL. *)
Fixpoint plain_script (p : script) : Prop :=
  match p with
  | SReturn _ | SError _ => True
  | SCall argv k =>
      match argv with LStr cmd :: _ => cmd ≠ "EVAL" | _ => False end ∧ ∀ v, plain_script (k v)
  end.

Lemma parse_eval_other cmd rest : cmd ≠ "EVAL" → parse_eval (cmd :: rest) = None.
Proof.
  intros H. unfold parse_eval. repeat case_match; try done; exfalso; by subst.
Qed.

Lemma scripted_plain p d :
  plain_script p → eval_script (R := scripted_redis) p d = eval_script (R := ref_redis) p d.
Proof.
  induction p as [v|e|argv k IH] in d |- *; [done|done|]. intros [Hcmd Hk]. cbn [eval_script].
  change (@lua_arg_text scripted_redis) with (@lua_arg_text ref_redis).
  destruct argv as [|[| |cmd| |] rest]; try done.
  destruct (mapM (@lua_arg_text ref_redis) (LStr cmd :: rest)) as [texts|] eqn:Ht; [|done].
  assert (∃ more, texts = cmd :: more) as [more ->].
  { cbn in Ht. destruct (mapM _ rest) as [more|]; [|done]. exists more. by injection Ht. }
  change (redis_call (cmd :: more) d) with (scripted_call (cmd :: more) d) at 1.
  unfold scripted_call. rewrite parse_eval_other by done.
  change (@redis_call ref_redis) with ref_redis_call.
  destruct (ref_redis_call (cmd :: more) d) as [d' r]. destruct r; try done; apply IH, Hk.
Qed.

Ltac plain_steps :=
  repeat first
    [ exact I | discriminate | progress cbn [plain_script] | split | intros ?
    | progress unfold concat_in, create_new | case_match ].

Lemma plain_scripts n keys args : plain_script (script_of n keys args).
Proof.
  destruct n; cbn [script_of];
    unfold kCreateMessageScript, kMarkDeliveredScript, kMarkPendingScript, kMarkAckedScript,
      kMarkFailedScript, kIncrementRetryScript; plain_steps.
Qed.

Lemma demo_runs : runs_scripts (R := scripted_redis) demo_text.
Proof.
  intros n keys args argv d Hlen Hargv.
  assert (argv = eval_argv (demo_text n) keys args) as -> by (destruct n; by injection Hargv).
  rewrite (scripted_plain _ _ (plain_scripts n keys args)).
  change (scripted_call (eval_argv (demo_text n) keys args) d =
    eval_script (R := ref_redis) (script_of n keys args) d).
  unfold scripted_call. rewrite parse_eval_argv by done. by destruct n.
Qed.

Definition scripted_laws : RedisLaws scripted_redis.
Proof.
  apply (@Build_RedisLaws scripted_redis (λ (d : redis_db) (m : keyspace), d = m)).
  - intros d m argv m' r -> Hdoc.
    destruct (redis_documented (RedisLaws := ref_redis_laws) m m argv m' r eq_refl Hdoc)
      as (d' & Hc & Hd'). exists d'. split; [|exact Hd'].
    assert (parse_eval argv = None) as Hnone by (destruct Hdoc; by apply parse_eval_other).
    change (scripted_call argv m = (d', r)). unfold scripted_call. by rewrite Hnone.
  - apply (redis_number_exact (RedisLaws := ref_redis_laws)).
Defined.

(** ** The property *)

(** C6. The server over its connection pool is the server with atomic requests.
    Take any run of the server's threads in which every request to Redis goes
    through the pool, step by step, with connections failing, replies lost,
    threads waiting for a connection and the destructor of the pool at work: it
    ends like a run, of at most as many operations, in which each request is
    one atomic operation that is executed and answered, lost before its
    execution, or executed with its reply lost; a thread inside a call is at the
    request until it has taken effect and after it from then on. *)
Theorem pooled_server_refines `{R : Redis} script_text pool_size N w ts d :
  runs_scripts script_text → nsteps (dstep script_text) N (pooled_start pool_size w ts) d →
  ∃ env m w', in_range env ∧ (m <= N)%nat ∧
    nsteps (tstep (exec env)) m (w, ts) (w', view (requests_of (ds_pool d)).2 <$> ds_threads d) ∧
    w_db w' = cf_db (ds_pool d) ∧ w_users w' = w_users (ds_world d) ∧
    w_live w' = w_live (ds_world d) ∧ w_out w' = w_out (ds_world d).
Proof.
  intros Hs Hn. destruct (pooled_runs script_text Hs _ _ _ _ _ Hn) as (env & m & t & Hr & Hm & Hrun).
  exists env, m, (world_at t d). by split_and!.
Qed.
