(* ===== verification/Reliability.v ===== *)
(** * From client to client

    Clients, connections, sessions, the server's threads and the store
    together.  What TCP promises is a hypothesis: what one end has received of a
    connection is the beginning of what the other end has written. *)

From S2P Require Import Prelude Decimal Message WireInstance Codec UserState Prog Redis RedisInstance.
From S2P Require Import Scripts Sys MessageStore StoreSpec StoreRefine StoreReads Dispatcher.
From S2P Require Import DispatcherRefine Interleave Backed RedisClient RedisPool Pooled ChatServer Tokens Client ClientSafety ClientStream.
Local Open Scope N_scope.

Local Abbreviation decode b := (DecodeAll b kDefaultMaxFrameLength).

(** The bytes written to a connection. *)
Definition frame_on (k : Conn) (o : output) : option bytes :=
  match o with Sent c frame => if decide (c = k) then Some frame else None | _ => None end.
Definition sent_on (k : Conn) (out : list output) : bytes := concat (omap (frame_on k) out).

Lemma elem_frame_on k (out : list output) frame : frame ∈ omap (frame_on k) out → Sent k frame ∈ out.
Proof.
  intros ([c f|c] & Hin & Hf)%list_elem_of_omap; cbn in Hf; [|done]. case_decide; [|done].
  by simplify_eq.
Qed.

(** A list of frames as the frames of envelopes. *)
Lemma frames_of `{Protobuf} (Q : Envelope → Prop) (ws : list bytes) :
  (∀ w, w ∈ ws → ∃ e, w = Encode e ∧ Q e) → ∃ es, ws = Encode <$> es ∧ Forall Q es.
Proof.
  induction ws as [|w ws IH]; intros Hws; [by exists []|].
  destruct IH as (es & -> & Hes); [intros w' Hw'; apply Hws; by right|].
  destruct (Hws w) as (e & -> & He); [by left|]. exists (e :: es). split; [done|by constructor].
Qed.

Section reliability.
Context {R : Redis} {RL : RedisLaws R} {P : Protobuf} {PL : ProtobufLaws P}.

(** ** A run of a client

    From a client that has sent and received nothing, with a socket that takes
    what it is given; its other threads are the application's and the retry
    thread. *)
Definition client_ran (uid : N) (c' : Client) : Prop :=
  ∃ env i n c ts ts', accepting env ∧ no_requests c ∧ heard c = [] ∧ message_queue c = [] ∧
    next_seq (c_statics c) + N.of_nat n < two64 ∧
    next_client_msg_no (c_statics c) + N.of_nat n < two64 ∧
    one_receiver uid i ts ∧ nsteps (tstep (client_exec env)) n (c, ts) (c', ts').

(** What the client writes: its requests and control messages. *)
Definition writes (uid : N) (c' : Client) (e : Envelope) : Prop :=
  e ∈ issued c' ∨ control uid (message_queue c') e.

Record client_facts (uid : N) (c' : Client) : Prop := {
  cf_wire : ∃ es, wire c' = Encode <$> es ∧ Forall (writes uid c') es;
  cf_requests : ∀ r, r ∈ issued c' → env_type r = CHAT_REQ ∧ has_chat_req r = true ∧
    chat_req_from_uid (chat_req r) = uid;
  cf_unique : ∀ r r', r ∈ issued c' → r' ∈ issued c' →
    env_seq r = env_seq r' ∨
    chat_req_client_msg_id (chat_req r) = chat_req_client_msg_id (chat_req r') → r = r';
  cf_queue : ∀ p, p ∈ message_queue c' →
    env_type p = CHAT_PUSH ∧ has_chat_push p = true ∧ p ∈ envelopes (decode (heard c')) }.

Lemma client_ran_facts uid c' : client_ran uid c' → client_facts uid c'.
Proof.
  intros (env & i & n & c & ts & ts' & Hacc & Hc & Hh & Hq & Hs & Hk & Hts & Hn).
  destruct (client_run_inv uid env n c ts c' ts') as (T & HI); [done..|by eapply one_receiver_threads|done|].
  destruct (client_hears uid env i n c ts c' ts' Hh Hts Hn) as (q & Hq' & Hsub). rewrite Hq in Hq'.
  cbn [app] in Hq'. split.
  - apply frames_of. intros w (r & _ & Hr & Heq)%(ci_wire _ _ _ _ _ _ _ HI). exists r.
    split; [by apply Heq|exact Hr].
  - intros r (s & no & t & t' & to & m & -> & _)%(ci_issued _ _ _ _ _ _ _ HI). done.
  - intros r r' (a & Ha)%list_elem_of_lookup (b & Hb)%list_elem_of_lookup Hrr.
    pose proof (ci_unique _ _ _ _ _ _ _ HI a b r r' Ha Hb Hrr) as ->. congruence.
  - intros p Hp. rewrite Hq' in Hp. apply (elem_of_sublist _ _ _ Hp) in Hsub.
    by apply list_elem_of_filter in Hsub as [[? ?] ?].
Qed.

(** ** A run of the server *)

Definition server_starts (received : ServerEvent → Prop) (users0 : UserStateService) (A : store)
    (n : nat) (w : world) (ts : list (sys unit)) : Prop :=
  w_users w = users0 ∧ db_rep (w_db w) A ∧ room n A ∧ users_wf users0 ∧ w_out w = [] ∧
  Forall (serves received) ts.

(** From the store [A], with [received] the events its workers are given, to the
    contents of Redis and what it has written to its connections: with every
    request to Redis atomic or lost, or carried out by the connection pool. *)
Inductive server_ran (received : ServerEvent → Prop) (users0 : UserStateService) (A : store)
    : redis_db → list output → Prop :=
| ran_atomic env n w ts w' ts' :
    in_range env → server_starts received users0 A n w ts →
    nsteps (tstep (exec env)) n (w, ts) (w', ts') →
    server_ran received users0 A (w_db w') (w_out w')
| ran_pooled script_text pool_size n w ts d :
    runs_scripts script_text → server_starts received users0 A n w ts →
    nsteps (dstep script_text) n (pooled_start pool_size w ts) d →
    server_ran received users0 A (cf_db (ds_pool d)) (w_out (ds_world d)).

Lemma atomic_run received users0 A db out :
  server_ran received users0 A db out →
  ∃ env n w ts w' ts', in_range env ∧ server_starts received users0 A n w ts ∧
    nsteps (tstep (exec env)) n (w, ts) (w', ts') ∧ w_db w' = db ∧ w_out w' = out.
Proof.
  intros [env n w ts w' ts' Henv Hst Hn|script_text pool_size n w ts d Hs Hst Hn].
  - by exists env, n, w, ts, w', ts'.
  - destruct (pooled_runs script_text Hs _ _ _ _ _ Hn) as (env & m & t & Hr & Hm & Hrun).
    destruct Hst as (Hu & HA & Hroom & Hwf & Hout & Hts).
    exists env, m, w, ts, (world_at t d), (view (requests_of (ds_pool d)).2 <$> ds_threads d).
    split_and!; [done| |exact Hrun|done..]. split_and!; [done..| |done|done|done].
    apply (room_le (n - m)). by replace (n - m + m)%nat with n by lia.
Qed.

Lemma server_ran_facts received users0 A db out :
  server_ran received users0 A db out →
  ∃ A', db_rep db A' ∧ originated received users0 A A' ∧
    ∀ k, ∃ es, omap (frame_on k) out = Encode <$> es ∧ Forall (backed received users0 A' k) es.
Proof.
  intros (env & n & w & ts & w' & ts' & Hclock & (Hu & HA & Hroom & Hwf & Hout & Hts) & Hn & <- & <-)%atomic_run.
  destruct (backed_run env received users0 n w ts w' ts' A) as (A' & HA' & _ & [_ Hs Ho]); [done..|].
  exists A'. split; [done|]. split; [done|]. intros k. apply frames_of.
  intros f Hf%elem_frame_on. destruct (Ho k f Hf) as [Hin|He]; [|done].
  rewrite Hout in Hin. by apply not_elem_of_nil in Hin.
Qed.

(** ** A client on a connection of the server *)

Record connected (received : ServerEvent → Prop) (users0 : UserStateService) (out : list output)
    (uid : N) (k : Conn) (c' : Client) : Prop := {
  cn_run : client_ran uid c';
  (** Frames are shorter than 4 GiB. *)
  cn_frames : ∀ e, Encode e ∈ wire c' ∨ Sent k (Encode e) ∈ out → sendable e;
  (** The session of the connection, fed the beginning of what the client wrote. *)
  cn_up : ∃ t ds, concat ds `prefix_of` concat (wire c') ∧
    ∀ e, received (EnvelopeEvent k e) → EnvelopeEvent k e ∈ (callbacks k ([Up] ++ (Data <$> ds)) t).2;
  cn_down : heard c' `prefix_of` sent_on k out;
  (** The user logs in nowhere else, and nobody was logged in here before. *)
  cn_alone : ∀ k', authenticated received users0 k' uid → k' = k;
  cn_fresh : getUidByConn (Some k) users0 = 0 }.

Section connection.
Context {received : ServerEvent → Prop} {users0 : UserStateService} {out : list output}.
Context {uid : N} {k : Conn} {c' : Client} (Hcn : connected received users0 out uid k c').

Lemma session_prefix t ds :
  ∃ es, (callbacks k ([Up] ++ (Data <$> ds)) t).2 = EnvelopeEvent k <$> es ∧
    es `prefix_of` envelopes (decode (concat ds)).
Proof.
  destruct (session_run_data k [] [] [] ds stream_state_nil) as (es & b & Hr & _ & Hes).
  exists es. split.
  - rewrite callbacks_events, session_run_app. cbn [session_run session_step]. by rewrite Hr.
  - cbn [app] in Hes. case_match; [done|by rewrite Hes].
Qed.

(** What the server receives on the connection the client has written. *)
Lemma received_written e : received (EnvelopeEvent k e) → writes uid c' e.
Proof.
  intros He. destruct Hcn as [Hrun Hfr (t & ds & Hpre & Hup) _ _ _].
  destruct (client_ran_facts _ _ Hrun) as [(es & Hes & Hw) _ _ _].
  assert (Forall sendable es) as Hsend.
  { apply Forall_forall. intros e' He'. apply Hfr. left. rewrite Hes. apply list_elem_of_fmap. eauto. }
  destruct (session_prefix t ds) as (es' & Hev & Hpre').
  apply Hup in He. rewrite Hev in He. apply list_elem_of_fmap in He as (e' & [= <-] & He).
  rewrite Hes in Hpre. pose proof (decodes_prefix kDefaultMaxFrameLength eq_refl es _ Hsend Hpre) as Hd.
  apply (elem_of_prefix _ _ _ He) in Hpre'. apply (elem_of_prefix _ _ _ Hpre') in Hd.
  rewrite Forall_forall in Hw. by apply Hw.
Qed.

Lemma received_request q :
  received (EnvelopeEvent k q) → env_type q = CHAT_REQ → q ∈ issued c'.
Proof.
  intros [Hq|[(now & seq & ->)|(now & p & _ & _ & _ & ->)]]%received_written Ht; done.
Qed.

Lemma received_ack q :
  received (EnvelopeEvent k q) → env_type q = ACK →
  ∃ now p, p ∈ message_queue c' ∧ env_type p = CHAT_PUSH ∧ has_chat_push p = true ∧ q = ack_of now p.
Proof.
  intros [Hq|[(now & seq & ->)|Hc]]%received_written Ht; [|done..].
  pose proof (client_ran_facts _ _ (cn_run _ _ _ _ _ _ Hcn)) as Hf.
  destruct (cf_requests _ _ Hf q Hq) as [Ht' _]. congruence.
Qed.

(** What the client hears the server has sent. *)
Lemma heard_backed A' e :
  (∃ es, omap (frame_on k) out = Encode <$> es ∧ Forall (backed received users0 A' k) es) →
  e ∈ envelopes (decode (heard c')) → backed received users0 A' k e.
Proof.
  intros (es & Hes & Hb) He. destruct Hcn as [_ Hfr _ Hdown _ _]. unfold sent_on in Hdown.
  assert (Forall sendable es) as Hsend.
  { apply Forall_forall. intros e' He'. apply Hfr. right. apply elem_frame_on. rewrite Hes.
    apply list_elem_of_fmap. eauto. }
  rewrite Hes in Hdown. pose proof (decodes_prefix kDefaultMaxFrameLength eq_refl es _ Hsend Hdown) as Hd.
  apply (elem_of_prefix _ _ _ He) in Hd. rewrite Forall_forall in Hb. by apply Hb.
Qed.

(** A chat request of the user, wherever it was received, is one the client
    has issued. *)
Lemma asked_issued to text cid :
  asked received users0 uid to text cid →
  ∃ r, r ∈ issued c' ∧ chat_req r = Build_ChatRequest uid to text cid.
Proof.
  intros (k' & q & (Hrec & Ht & _ & Hauth) & Hq). rewrite Hq in Hauth. cbn in Hauth.
  apply (cn_alone _ _ _ _ _ _ Hcn) in Hauth as ->. exists q. split; [by apply received_request|done].
Qed.
(** Only the client's user logs in here. *)
Lemma authenticated_here u : authenticated received users0 k u → u = uid.
Proof.
  intros [H0 [Hu|(q & Hrec & Ht & _ & Hu)]]; [by rewrite (cn_fresh _ _ _ _ _ _ Hcn) in Hu|].
  apply received_written in Hrec as [Hq|[(now & seq & ->)|(now & p & _ & _ & _ & ->)]]; [|done..].
  pose proof (client_ran_facts _ _ (cn_run _ _ _ _ _ _ Hcn)) as Hf.
  destruct (cf_requests _ _ Hf q Hq) as [Ht' _]. congruence.
Qed.
End connection.

(** ** Properties *)

(** The message holds the request. *)
Definition carries (m : MessageRecord) (q : ChatRequest) : Prop :=
  q = Build_ChatRequest (from_uid m) (to_uid m) (content m) (client_msg_id m).

(** C1. What the client takes as accepted is stored, once.  A client and the
    threads of the server run in any interleaving, requests to Redis and their
    replies are lost in any way, the bytes on the way arrive in any pieces and
    as far as they do: for every positive ACK the client hears for a request it
    has issued, the store holds under the id the ACK names the message of the
    request, with its sender, receiver, text and client message id, and no other
    message with this sender and client message id. *)
Theorem acknowledged_is_stored received users0 A db out uid k c' :
  server_ran received users0 A db out → connected received users0 out uid k c' →
  (∀ id m r, st_msgs A !! id = Some m → r ∈ issued c' → from_uid m = uid →
    client_msg_id m ≠ chat_req_client_msg_id (chat_req r)) →
  ∃ A', db_rep db A' ∧
    ∀ r e, r ∈ issued c' → e ∈ envelopes (decode (heard c')) → env_type e = ACK →
      ack_ok (ack e) = true → ack_seq (ack e) = env_seq r →
      ∃ m, st_msgs A' !! ack_msg_id (ack e) = Some m ∧ carries m (chat_req r) ∧
        ∀ id' m', st_msgs A' !! id' = Some m' → from_uid m' = from_uid m →
          client_msg_id m' = client_msg_id m → id' = ack_msg_id (ack e).
Proof.
  intros Hsv Hcn Hnew. destruct (server_ran_facts _ _ _ _ _ Hsv) as (A' & HA' & Horig & Hout).
  pose proof (client_ran_facts _ _ (cn_run _ _ _ _ _ _ Hcn)) as [_ Hreq Huniq _].
  exists A'. split; [done|]. intros r e Hr He Ht Hok Hseq.
  apply (heard_backed Hcn A') in He; [|apply Hout].
  destruct (backed_ack _ _ _ _ _ He Ht Hok) as (q & m & Hq & Hs & Hm & Hf & Hc).
  pose proof Hq as (Hrec & Htq & _ & _). apply (received_request Hcn) in Hrec; [|done].
  assert (q = r) as -> by (apply Huniq; [done..|left; congruence]).
  destruct (Hreq r Hr) as (_ & _ & Hu). rewrite Hu in Hf.
  exists m. split; [done|]. split.
  - destruct (Horig _ _ Hm) as [[(m0 & Hm0 & Hid)|Ha] _].
    + unfold same_identity in Hid. deex. destruct (Hnew _ m0 r Hm0 Hr); congruence.
    + rewrite Hf in Ha. destruct (asked_issued Hcn _ _ _ Ha) as (r' & Hr' & Hr'q).
      assert (r' = r) as -> by (apply Huniq; [done..|right; by rewrite Hr'q]).
      unfold carries. by rewrite Hf.
  - intros id' m' Hm' Hf' Hc'. by eapply (wf_unique _ (db_rep_wf _ _ HA')).
Qed.

(** C8. What is acked was read.  In such a run a message of the store that
    became acked is one its receiver's client has queued for the application,
    with its sender and its text. *)
Theorem acked_is_delivered received users0 A db out uid k c' :
  server_ran received users0 A db out → connected received users0 out uid k c' →
  ∃ A', db_rep db A' ∧
    ∀ id m, st_msgs A' !! id = Some m → to_uid m = uid → status m = Acked →
      (∃ m0, st_msgs A !! id = Some m0 ∧ status m0 = Acked) ∨
      ∃ p, p ∈ message_queue c' ∧ push_msg_id (chat_push p) = id ∧
        push_from_uid (chat_push p) = from_uid m ∧ push_to_uid (chat_push p) = uid ∧
        push_content (chat_push p) = content m.
Proof.
  intros Hsv Hcn. destruct (server_ran_facts _ _ _ _ _ Hsv) as (A' & HA' & Horig & Hout).
  pose proof (client_ran_facts _ _ (cn_run _ _ _ _ _ _ Hcn)) as Hf.
  exists A'. split; [done|]. intros id m Hm Hto Hst.
  destruct (proj2 (Horig _ _ Hm) Hst) as [Hold|(k' & q & Hrec & Hty & _ & Hid & Hauth)]; [by left|right].
  rewrite Hto in Hauth. apply (cn_alone _ _ _ _ _ _ Hcn) in Hauth as ->.
  destruct (received_ack Hcn q Hrec Hty) as (now & p & Hp & _ & Hh & ->). exists p. split; [done|].
  destruct (cf_queue _ _ Hf p Hp) as (_ & _ & He). apply (heard_backed Hcn A') in He; [|apply Hout].
  destruct (backed_push _ _ _ _ _ He Hh) as (_ & r & Hr & ? & ? & ?). cbn in Hid. rewrite Hid in Hr.
  split_and!; congruence.
Qed.

(** C7. What is read was written, for its reader.  In such a run with two
    clients, every push the second has queued that names the user of the first
    as its sender carries the text and the receiver of a request the first has
    issued, unless the store held the message before; and the user of the second
    is the receiver or, for history, the sender. *)
Theorem pushes_are_genuine received users0 A db out uid1 k1 c1 uid2 k2 c2 p :
  server_ran received users0 A db out →
  connected received users0 out uid1 k1 c1 → connected received users0 out uid2 k2 c2 →
  p ∈ message_queue c2 →
  (push_to_uid (chat_push p) = uid2 ∨
   push_history (chat_push p) = true ∧ push_from_uid (chat_push p) = uid2) ∧
  (push_from_uid (chat_push p) = uid1 →
   is_Some (st_msgs A !! push_msg_id (chat_push p)) ∨
   ∃ r, r ∈ issued c1 ∧ chat_req_to_uid (chat_req r) = push_to_uid (chat_push p) ∧
     chat_req_content (chat_req r) = push_content (chat_push p)).
Proof.
  intros Hsv Hcn1 Hcn2 Hp. destruct (server_ran_facts _ _ _ _ _ Hsv) as (A' & HA' & Horig & Hout).
  pose proof (client_ran_facts _ _ (cn_run _ _ _ _ _ _ Hcn2)) as Hf.
  destruct (cf_queue _ _ Hf p Hp) as (_ & Hh & He). apply (heard_backed Hcn2 A') in He; [|apply Hout].
  destruct (backed_push _ _ _ _ _ He Hh) as (Hread & r & Hr & Hfrom & Hto & Htext). split.
  { destruct Hread as [Ha|[? Ha]]; apply (authenticated_here Hcn2) in Ha; auto. }
  intros Hu. destruct (Horig _ _ Hr) as [[(m0 & Hm0 & _)|Ha] _]; [left; eauto|right].
  rewrite Hfrom, Hu in Ha. destruct (asked_issued Hcn1 _ _ _ Ha) as (q & Hq & Hqr).
  exists q. rewrite Hqr. cbn. done.
Qed.
End reliability.
