(* ===== verification/Conversation.v ===== *)
(** * A conversation

    User 1 says "hi" to user 2: two clients and the server, on which the
    theorems of the file Reliability are applied. *)

From S2P Require Import Prelude Decimal Message WireInstance Codec UserState Prog Redis RedisInstance.
From S2P Require Import Scripts Sys MessageStore StoreSpec StoreRefine StoreReads Dispatcher.
From S2P Require Import DispatcherRefine ServerRun ServerDelivery ServerFaults Interleave Backed.
From S2P Require Import ServerExamples.
From S2P Require Import RedisClient RedisPool Pooled ChatServer Tokens Client ClientSafety ClientStream Reliability.
Local Open Scope N_scope.

(** ** The clients

    The clock stands, the socket takes everything; the login response is
    received first, then [reply]. *)
Definition talking (uid : N) (reply : Envelope) : client_env :=
  {| ce_clock := λ _, 1000; ce_connect := λ _, connects; ce_send := λ _ _ n, Z.of_N n;
     ce_recv := λ t, RecvData (if (t <? 12)%nat
       then Encode (EnvelopeFactory.CreateLoginResponse 1000 1 true "") else Encode reply);
     ce_visit := map_to_list; ce_visit_ok := λ m, reflexivity _ |}.

Definition app_and_receiver (uid : N) (calls : list client_call) : list (cli unit) :=
  [for_each calls (do_call uid); receiverLoop 2 []].

Definition hi_ack : Envelope := EnvelopeFactory.CreateAck 1000 2 1 true "".
Definition hi_push : Envelope := EnvelopeFactory.CreateChatPush 1000 0 1 1 1 2 "hi" 1000 false.

Definition speaker_schedule : list nat :=
  replicate 8 0%nat ++ replicate 4 1%nat ++ replicate 10 0%nat ++ replicate 4 1%nat.
Definition listener_schedule : list nat :=
  replicate 8 0%nat ++ replicate 4 1%nat ++ replicate 2 0%nat ++ replicate 7 1%nat.

Abbreviation client_end uid reply calls sch :=
  (default (new_Client, []) (run_schedule (client_exec (talking uid reply)) sch
     (new_Client, app_and_receiver uid calls))).
Abbreviation speaker := (client_end 1 hi_ack [CallStart; CallSend 2 "hi"] speaker_schedule).1.
Abbreviation listener := (client_end 2 hi_push [CallStart] listener_schedule).1.

(** ** The server *)

Definition speaker_events : list ServerEvent :=
  EnvelopeEvent 21 <$> [EnvelopeFactory.CreateLoginRequest 1000 1 1;
    EnvelopeFactory.CreateChatRequest 1000 2 1 2 "hi" "1-1000-1"].
Definition listener_events : list ServerEvent :=
  EnvelopeEvent 22 <$> [EnvelopeFactory.CreateLoginRequest 1000 1 2; EnvelopeFactory.CreateAck 1000 1 1 true ""].

Definition conversing (ev : ServerEvent) : Prop := ev ∈ speaker_events ++ listener_events.

Definition w_quiet : world :=
  {| w_db := (∅ : keyspace); w_tick := 0; w_users := empty_service; w_live := {[21; 22]}; w_out := [] |}.

Definition conversation_threads : list (sys unit) :=
  [for_each speaker_events handle; for_each listener_events handle; deliveryLoop 1].

(** The threads take turns; the reply to the request that marks the message
    acked is lost. *)
Definition conversation_env : environment := example_env 1000 [(26%nat, ReplyLost)].
Definition conversation_schedule : list nat :=
  replicate 3 0%nat ++ [2%nat] ++ replicate 7 1%nat ++ replicate 13 0%nat ++ replicate 3 1%nat
    ++ [0; 0; 2]%nat.
Abbreviation conversation_end :=
  (default (w_quiet, []) (run_schedule (exec conversation_env) conversation_schedule
     (w_quiet, conversation_threads))).
Abbreviation conversation := conversation_end.1.

(** A run that does not get stuck. *)
Lemma schedule_ends {E : Type → Type} {S : Type} (ex : ∀ X, E X → S → S * X) sch c o d :
  run_schedule ex sch c = o → (if o is Some _ then true else false) = true →
  nsteps (tstep ex) (length sch) c (default d o).
Proof. intros Hrun Ho. destruct o as [c'|]; [|done]. by apply run_schedule_steps. Qed.

Lemma conversation_steps :
  nsteps (tstep (exec conversation_env)) (length conversation_schedule)
    (w_quiet, conversation_threads) conversation_end.
Proof. by apply (schedule_ends (exec conversation_env) _ _ _ _ eq_refl). Qed.

Lemma app_one_receiver uid calls : one_receiver uid 1 (app_and_receiver uid calls).
Proof.
  split; [by exists 2%nat|]. intros [|[|j]] p Hne Hj; [left|done..]. exists calls. by injection Hj.
Qed.

(** A client of this kind has run. *)
Lemma talker_ran uid reply calls (sch : list nat) c ts :
  nsteps (tstep (client_exec (talking uid reply))) (length sch) (new_Client, app_and_receiver uid calls)
    (c, ts) → N.of_nat (length sch) < 1000 → client_ran uid c.
Proof.
  intros Hrun Hsch.
  exists (talking uid reply), 1%nat, (length sch), new_Client, (app_and_receiver uid calls), ts.
  split; [by intros t j m Hm; cbn; lia|]. split; [done|]. do 2 (split; [done|]).
  split; [cbn; unfold two64; lia|]. split; [cbn; unfold two64; lia|]. split; [apply app_one_receiver|done].
Qed.

Lemma speaker_steps :
  nsteps (tstep (client_exec (talking 1 hi_ack))) (length speaker_schedule)
    (new_Client, app_and_receiver 1 [CallStart; CallSend 2 "hi"])
    (client_end 1 hi_ack [CallStart; CallSend 2 "hi"] speaker_schedule).
Proof. by apply (schedule_ends (client_exec (talking 1 hi_ack)) _ _ _ _ eq_refl). Qed.

Lemma listener_steps :
  nsteps (tstep (client_exec (talking 2 hi_push))) (length listener_schedule)
    (new_Client, app_and_receiver 2 [CallStart]) (client_end 2 hi_push [CallStart] listener_schedule).
Proof. by apply (schedule_ends (client_exec (talking 2 hi_push)) _ _ _ _ eq_refl). Qed.

Lemma speaker_ran : client_ran 1 speaker.
Proof.
  pose proof speaker_steps as H. rewrite (surjective_pairing (client_end _ _ _ _)) in H.
  by eapply talker_ran.
Qed.

Lemma listener_ran : client_ran 2 listener.
Proof.
  pose proof listener_steps as H. rewrite (surjective_pairing (client_end _ _ _ _)) in H.
  by eapply talker_ran.
Qed.

Lemma conversation_serves : Forall (serves conversing) conversation_threads.
Proof.
  apply Forall_cons_2; [|apply Forall_cons_2; [|apply Forall_singleton; right; by exists 1%nat]].
  - left. exists speaker_events. split; [by repeat constructor|]. split; [|done].
    intros ev Hev. apply elem_of_app. by left.
  - left. exists listener_events. split; [by repeat constructor|]. split; [|done].
    intros ev Hev. apply elem_of_app. by right.
Qed.

Lemma conversation_ran : server_ran conversing empty_service empty_store (w_db conversation) (w_out conversation).
Proof.
  apply (ran_atomic conversing empty_service empty_store conversation_env (length conversation_schedule)
    w_quiet conversation_threads _ conversation_end.2); [done| |].
  - split; [done|]. split; [apply empty_db_rep|]. split; [by apply empty_room|].
    split; [apply users_wf_empty|]. split; [done|exact conversation_serves].
  - rewrite <-surjective_pairing. exact conversation_steps.
Qed.

(** ** The connections *)

Definition small_frames (ws : list bytes) : bool := forallb (λ w, bsize w <? two32) ws.

Lemma frames_sendable (ws : list bytes) e : small_frames ws = true → Encode e ∈ ws → sendable e.
Proof.
  unfold small_frames. rewrite forallb_forall. intros Hws He%list_elem_of_In. apply small_sendable.
  by apply N.ltb_lt, Hws.
Qed.

Definition frames_out (out : list output) : list bytes :=
  omap (λ o, match o with Sent _ f => Some f | _ => None end) out.

Lemma sent_frames k f (out : list output) : Sent k f ∈ out → f ∈ frames_out out.
Proof. intros H. apply list_elem_of_omap. by exists (Sent k f). Qed.

Lemma logged_in_at k u :
  authenticated conversing empty_service k u → (k, u) ∈ [(21, 1); (22, 2)].
Proof.
  intros [H0 [Hu|(q & Hq & Ht & _ & Hu)]]; [done|]. unfold conversing in Hq.
  apply list_elem_of_In in Hq. apply list_elem_of_In.
  destruct Hq as [Hq|[Hq|[Hq|[Hq|[]]]]]; injection Hq as <- <-; try done; cbn in Hu; subst u; cbn; auto.
Qed.

(** Every stream arrives in two pieces. *)
Definition halves (b : bytes) : list bytes := [take 9 b; drop 9 b].

Lemma talker_connected uid k c evs :
  client_ran uid c → small_frames (wire c ++ frames_out (w_out conversation)) = true →
  (callbacks k ([Up] ++ (Data <$> halves (concat (wire c)))) ∅).2 = evs →
  (∀ e, conversing (EnvelopeEvent k e) → EnvelopeEvent k e ∈ evs) →
  heard c = sent_on k (w_out conversation) → (∀ k', (k', uid) ∈ [(21, 1); (22, 2)] → k' = k) →
  connected conversing empty_service (w_out conversation) uid k c.
Proof.
  intros Hrun Hsmall Hcb Hevs Hheard Halone. constructor; [done|..|done].
  - intros e He. eapply frames_sendable; [exact Hsmall|]. apply elem_of_app.
    destruct He as [He|He%sent_frames]; [by left|by right].
  - exists ∅, (halves (concat (wire c))). split.
    + cbn [halves concat]. by rewrite app_nil_r, take_drop.
    + intros e He. rewrite Hcb. by apply Hevs.
  - by rewrite Hheard.
  - intros k' Hk'. by apply Halone, logged_in_at.
Qed.

Lemma speaker_connected : connected conversing empty_service (w_out conversation) 1 21 speaker.
Proof.
  apply (talker_connected 1 21 speaker speaker_events); [exact speaker_ran|vm_compute; reflexivity..| |vm_compute; reflexivity|].
  - intros e [H|H]%elem_of_app; [done|]. by apply list_elem_of_fmap in H as (? & [=] & _).
  - intros k' [[= ->]|[[=]|[]%not_elem_of_nil]%elem_of_cons]%elem_of_cons. done.
Qed.

Lemma listener_connected : connected conversing empty_service (w_out conversation) 2 22 listener.
Proof.
  apply (talker_connected 2 22 listener listener_events); [exact listener_ran|vm_compute; reflexivity..| |vm_compute; reflexivity|].
  - intros e [H|H]%elem_of_app; [|done]. by apply list_elem_of_fmap in H as (? & [=] & _).
  - intros k' [[=]|[[= ->]|[]%not_elem_of_nil]%elem_of_cons]%elem_of_cons. done.
Qed.

(** ** The theorems on this conversation *)

Lemma pushes_in_order_witness :
  message_queue listener = [hi_push] ∧
  ∃ q, message_queue listener = [] ++ q ∧
    q `sublist_of` filter is_push (envelopes (DecodeAll (heard listener) kDefaultMaxFrameLength)).
Proof.
  split; [vm_compute; reflexivity|].
  apply (pushes_in_order 2 (talking 2 hi_push) 1 (length listener_schedule) new_Client
    (app_and_receiver 2 [CallStart]) listener (client_end 2 hi_push [CallStart] listener_schedule).2);
    [done|apply app_one_receiver|].
  rewrite <-surjective_pairing. exact listener_steps.
Defined.

Lemma acknowledged_is_stored_witness :
  issued speaker = [EnvelopeFactory.CreateChatRequest 1000 2 1 2 "hi" "1-1000-1"] ∧
  ∃ A', db_rep (w_db conversation) A' ∧
    ∃ m, st_msgs A' !! 1 = Some m ∧ carries m (Build_ChatRequest 1 2 "hi" "1-1000-1").
Proof.
  split; [vm_compute; reflexivity|].
  destruct (acknowledged_is_stored conversing empty_service empty_store (w_db conversation) (w_out conversation) 1 21 speaker)
    as (A' & HA' & Hstored); [exact conversation_ran|exact speaker_connected| |].
  - intros id m r Hm. cbn in Hm. by rewrite lookup_empty in Hm.
  - exists A'. split; [exact HA'|].
    destruct (Hstored (EnvelopeFactory.CreateChatRequest 1000 2 1 2 "hi" "1-1000-1") hi_ack)
      as (m & Hm & Hc & _); [..|exists m; by split].
    + apply list_elem_of_In. vm_compute. by left.
    + apply list_elem_of_In. vm_compute. right. by left.
    + reflexivity.
    + reflexivity.
    + reflexivity.
Defined.

(** The store holds the message, acked. *)
Definition hash_text (field : string) (m : keyspace) : option string :=
  h ← hash_at m "rmd:msg:1"; h !! field.

Lemma hash_acked (d : keyspace) A' :
  db_rep (R := ref_redis) d A' → hash_text "status" d = Some "Acked" → hash_text "to_uid" d = Some "2" →
  ∃ m, st_msgs A' !! 1 = Some m ∧ status m = Acked ∧ to_uid m = 2.
Proof.
  intros (m & Hm & HR & _) Hs Ht. cbn [represents ref_redis_laws] in Hm. subst m.
  unfold hash_text in Hs, Ht. change "rmd:msg:1" with (key_text (KMsg 1)) in Hs, Ht.
  destruct (st_msgs A' !! 1) as [r|] eqn:Hr.
  - rewrite (Rep_hash _ _ _ _ HR Hr) in Hs, Ht. cbn [mbind option_bind] in Hs, Ht.
    exists r. split; [done|]. rewrite (proj1 (record_hash_lookups r)) in Ht. injection Ht as Ht.
    split; [|by apply (inj to_string)].
    change (Some (status_text (status r)) = Some "Acked") in Hs. injection Hs as Hs.
    by destruct (status r).
  - destruct (Rep_no_hash _ _ _ HR Hr) as [_ Hh]. by rewrite Hh in Hs.
Qed.

Lemma conversation_acked A' :
  db_rep (w_db conversation) A' → ∃ m, st_msgs A' !! 1 = Some m ∧ status m = Acked ∧ to_uid m = 2.
Proof. intros HA'. apply (hash_acked (w_db conversation)); [exact HA'|vm_compute; reflexivity..]. Qed.

Lemma acked_is_delivered_witness :
  ∃ p, p ∈ message_queue listener ∧ push_msg_id (chat_push p) = 1 ∧ push_to_uid (chat_push p) = 2.
Proof.
  destruct (acked_is_delivered conversing empty_service empty_store (w_db conversation) (w_out conversation) 2 22 listener
    conversation_ran listener_connected) as (A' & HA' & Hread).
  destruct (conversation_acked A' HA') as (m & Hm & Hst & Hto).
  destruct (Hread 1 m Hm Hto Hst) as [(m0 & Hm0 & _)|(p & Hp & Hid & _ & Hu & _)].
  - cbn in Hm0. by rewrite lookup_empty in Hm0.
  - exists p. by split_and!.
Defined.

Lemma pushes_are_genuine_witness :
  hi_push ∈ message_queue listener ∧
  (push_from_uid (chat_push hi_push) = 1 →
   is_Some (st_msgs empty_store !! push_msg_id (chat_push hi_push)) ∨
   ∃ r, r ∈ issued speaker ∧ chat_req_to_uid (chat_req r) = 2 ∧ chat_req_content (chat_req r) = "hi").
Proof.
  assert (hi_push ∈ message_queue listener) as Hin by (apply list_elem_of_In; vm_compute; by left).
  split; [exact Hin|].
  exact (proj2 (pushes_are_genuine conversing empty_service empty_store (w_db conversation) (w_out conversation) 1 21 speaker
    2 22 listener hi_push conversation_ran speaker_connected listener_connected Hin)).
Defined.

Lemma answers_are_backed_witness :
  ∃ A', db_rep (w_db conversation) A' ∧ persists empty_store A' ∧
    originated conversing empty_service empty_store A' ∧
    ∀ c frame, Sent c frame ∈ w_out conversation →
      ∃ e, frame = Encode e ∧ backed conversing empty_service A' c e.
Proof.
  apply (answers_are_backed conversation_env conversing (length conversation_schedule) w_quiet
    conversation_threads conversation conversation_end.2 empty_store).
  - done.
  - apply empty_db_rep.
  - by apply empty_room.
  - apply users_wf_empty.
  - done.
  - exact conversation_serves.
  - rewrite <-surjective_pairing. exact conversation_steps.
Defined.

(** ** A request over the pool

    User 2 acknowledges message 1, which the store does not hold; his worker
    borrows the only connection of the pool, and the reply is lost. *)

Definition w_pooled : world (R := scripted_redis) :=
  @Build_world scripted_redis ∅ 0 two_users {[21; 22]} [].

Definition pooled_thread : list (sys unit) := [handle (acknowledge 22 1)].

(** A call alone on a fresh pool of one connection, whose reply is lost. *)
Definition lone_call {R : Redis} (argv : list string) (d : redis_db) : config :=
  {| cf_pool := new_RedisClient 1; cf_db := d; cf_calls := [Calling argv]; cf_dtor := NotCalled |}.

Definition after_lone_call {R : Redis} (argv : list string) (d : redis_db) : config :=
  {| cf_pool := {| slots_ := [None]; available_ := [0%nat]; borrowed_ := 0%nat; stopping_ := false;
                   next_ctx := 1%nat |};
     cf_db := (redis_call argv d).1; cf_calls := [Finished None]; cf_dtor := NotCalled |}.

Lemma lone_call_run {R : Redis} argv d :
  nsteps (λ s s', cstep s s' ∧ length (cf_calls s') = length (cf_calls s)) 6
    (lone_call argv d) (after_lone_call argv d).
Proof.
  eapply nsteps_l; [split; [left; by eapply (step_enter 0 argv)|reflexivity]|].
  eapply nsteps_l; [split; [left; by eapply (step_connect 0 argv 0 true)|reflexivity]|].
  eapply nsteps_l; [split; [left; by eapply (step_command 0 argv _ (NoReply true 1))|reflexivity]|].
  eapply nsteps_l; [split; [left; by eapply (step_check 0)|reflexivity]|].
  eapply nsteps_l; [split; [left; by eapply (step_release 0)|reflexivity]|].
  eapply nsteps_l; [split; [left; eapply (step_notify 0);
    [reflexivity|apply notify_nobody; [by intros [|[|?]] ?|done]]|reflexivity]|].
  constructor.
Qed.


(** The pool at work while the threads stand still. *)
Lemma pool_works {R : Redis} script_text n s s' w ts :
  nsteps (λ s s', cstep s s' ∧ length (cf_calls s') = length (cf_calls s)) n s s' →
  nsteps (dstep script_text) n (Build_dstate s w ts) (Build_dstate s' w ts).
Proof.
  induction 1 as [|n s s1 s2 [Hst Hlen] _ IH]; [constructor|].
  eapply nsteps_l; [by apply d_pool|exact IH].
Qed.

Definition ack_argv : list string :=
  eval_argv (demo_text SAcked) [MakeMessageKey 1; kRedisDeliveredTimeoutKey]
    [to_string 1; to_string 2; to_string 1000; kRedisPendingKeyPrefix].

Definition pooled_world : world (R := scripted_redis) :=
  @Build_world scripted_redis ∅ 2 two_users {[21; 22]} [].

Definition pooled_end : dstate (R := scripted_redis) :=
  Build_dstate (after_lone_call (R := scripted_redis) ack_argv ∅) pooled_world [At (Ret tt)].

Lemma pooled_ack_run :
  nsteps (dstep (R := scripted_redis) demo_text) 10 (pooled_start 1 w_pooled pooled_thread) pooled_end.
Proof.
  eapply nsteps_l; [eapply (d_local _ quiet 0); [reflexivity|exact I|done]|].
  eapply nsteps_l; [eapply (d_local _ quiet 0); [reflexivity|exact I|done]|].
  eapply nsteps_l; [eapply (d_call _ 0); [reflexivity|by apply (argv_eval _ SAcked)|reflexivity]|].
  eapply (nsteps_trans 6 1);
    [exact (pool_works demo_text 6 (lone_call (R := scripted_redis) ack_argv ∅) _ _ _ (lone_call_run _ _))|].
  eapply nsteps_l; [eapply (d_return _ 0); reflexivity|]. apply nsteps_O.
Qed.

Lemma pooled_server_refines_witness :
  ∃ env m w', in_range env ∧ (m <= 10)%nat ∧
    nsteps (tstep (exec env)) m (w_pooled, pooled_thread) (w', [Ret tt]) ∧ w_users w' = two_users.
Proof.
  destruct (pooled_server_refines (R := scripted_redis) demo_text 1 10 w_pooled pooled_thread pooled_end
    demo_runs pooled_ack_run) as (env & m & w' & Hr & Hm & Hrun & _ & Hu & _).
  exists env, m, w'. by split_and!.
Defined.
