(* ===== verification/Arrival.v ===== *)
(** * A message that arrives

    One message from the call of [sendMessage] to its acknowledgement, through
    both clients, both sessions, the handlers and the store, when nothing goes
    wrong: the other half of Reliability.v, which says that nothing wrong is ever
    reported. *)

From S2P Require Import Prelude Decimal Message WireInstance Codec UserState Prog Redis Scripts Sys.
From S2P Require Import MessageStore StoreSpec StoreRefine StoreReads StoreService Dispatcher ServerLogic.
From S2P Require Import ServerSpec DispatcherRefine ServerRun ChatServer Tokens Client ClientSafety Reliability.
Local Open Scope N_scope.

Local Abbreviation limit := kDefaultMaxFrameLength.

Section clients.
Context {P : Protobuf} {PL : ProtobufLaws P}.

Lemma limit_int : limit < 2147483648.
Proof. done. Qed.

Lemma DecodeAll_one e :
  frameable limit e →
  DecodeAll (Encode e) limit = {| Codec.status := kOk; envelopes := [e]; consumed_bytes := bsize (Encode e) |}.
Proof.
  intros He. pose proof (DecodeAll_stream limit [e] e 0 limit_int) as H.
  cbn [fmap list_fmap concat app] in H. rewrite take_0, !app_nil_r in H. apply H; [|done|].
  - by apply Forall_singleton.
  - destruct (frameable_Encode _ limit_int _ He) as (body & -> & _). cbn. lia.
Qed.

Lemma frame_not_empty e : frameable limit e → Encode e ≠ [].
Proof. intros He. by destruct (frameable_Encode _ limit_int _ He) as (body & -> & _). Qed.

(** A client that is given [data] by [recv]. *)
Definition hearing (data : bytes) (env : client_env) : client_env :=
  {| ce_clock := ce_clock env; ce_connect := ce_connect env; ce_send := ce_send env;
     ce_recv := λ _, RecvData data; ce_visit := ce_visit env; ce_visit_ok := ce_visit_ok env |}.

Definition client_receives (env : client_env) (data : bytes) (c : Client) : Client :=
  (run (client_exec (hearing data env)) (receive []) c).1.

(** What has been written since. *)
Definition written_since (c c' : Client) : bytes := concat (drop (length (wire c)) (wire c')).

Lemma written_one c c' f : wire c' = wire c ++ [f] → written_since c c' = f.
Proof. intros H. unfold written_since. rewrite H, drop_app_length. cbn. by rewrite app_nil_r. Qed.

(** A complete frame is one envelope handled. *)
Lemma receives_one env e c :
  frameable limit e →
  client_receives env (Encode e) c =
    (run (client_exec (hearing (Encode e) env)) (handleEnvelope e) (add_heard (RecvData (Encode e)) c)).1.
Proof.
  intros He. unfold client_receives, receive.
  cbn [mbind prog_bind trigger bind run client_exec ce_recv hearing app].
  rewrite (DecodeAll_one e He). cbn [envelopes for_each app].
  unfold mbind, prog_bind. rewrite !run_bind. fold (hearing (Encode e) env).
  destruct (run (client_exec (hearing (Encode e) env)) (handleEnvelope e) _) as [c' []].
  cbn [run Codec.status]. done.
Qed.

Lemma accepting_sends env t e :
  accepting env → sendAll (ce_send env t) (Encode e) = (Encode e, true).
Proof.
  intros Ha. pose proof (sendAll_accepting (ce_send env t) (Encode e) (Ha t)) as Hw.
  pose proof (send_loop_exact (length (Encode e)) (ce_send env t) 0 (Encode e) ltac:(done)) as H.
  unfold sendAll in *. destruct (send_loop _ _ _ _) as [w ok]. cbn in *. subst w.
  destruct H as [_ H]. by destruct ok; [|destruct H].
Qed.

(** The request a call of [sendMessage] makes. *)
Definition next_request (env : client_env) (uid to : N) (msg : string) (c : Client) : Envelope :=
  request uid (next_seq (c_statics c)) (next_client_msg_no (c_statics c))
    (ce_clock env (c_tick c + 4)) (ce_clock env (c_tick c + 5)) to msg.

Lemma sendEnvelope_run env e c :
  accepting env → Encode e ≠ [] →
  run (client_exec env) (sendEnvelope e) c = (add_wire (Encode e) c, true).
Proof.
  intros Ha He. unfold sendEnvelope. rewrite decide_False by done. cbn [trigger run client_exec].
  by rewrite accepting_sends.
Qed.

Lemma submit_run env seq r c :
  accepting env → Encode r ≠ [] →
  run (client_exec env) (submit_request seq r) c =
    (add_wire (Encode r) (register seq
       {| pa_envelope := r; last_send_ms := ce_clock env (c_tick c); pa_retry_count := 0 |} c), true).
Proof.
  intros Ha Hr. unfold submit_request. unfold mbind, prog_bind. rewrite run_bind.
  cbn [trigger run client_exec]. by rewrite run_bind, sendEnvelope_run.
Qed.

Lemma sendMessage_run env uid to msg c :
  c_stop c = false → login_ok (c_login c) = true → accepting env →
  let r := next_request env uid to msg c in
  Encode r ≠ [] →
  let x := run (client_exec env) (sendMessage uid to msg) c in
  x.2 = true ∧ wire x.1 = wire c ++ [Encode r] ∧ message_queue x.1 = message_queue c ∧
  c_login x.1 = c_login c ∧
  ∃ p, pending_acks x.1 = <[next_seq (c_statics c) := p]> (pending_acks c).
Proof.
  intros Hs Hl Ha r Hr x.
  assert (∃ c1, x = run (client_exec env) (submit_request (next_seq (c_statics c)) r) c1 ∧
    wire c1 = wire c ∧ message_queue c1 = message_queue c ∧ c_login c1 = c_login c ∧
    pending_acks c1 = pending_acks c) as (c1 & -> & Hw & Hq & Hl1 & Hp).
  { unfold x, sendMessage. cbn [mbind prog_bind trigger bind run client_exec]. rewrite Hs.
    cbn [mbind prog_bind trigger bind run client_exec set_stop c_login]. rewrite Hl. cbn [negb].
    cbn [mbind prog_bind trigger bind run client_exec now_ms]. eexists. split.
    - f_equal. f_equal. unfold r, next_request, request. cbn.
      by rewrite <-(Nat.add_comm 4), <-(Nat.add_comm 5).
    - done. }
  rewrite submit_run by done. cbn. rewrite Hw, Hq, Hl1, Hp. split_and!; try done. by eexists.
Qed.

Lemma accepting_hearing env data : accepting env → accepting (hearing data env).
Proof. done. Qed.

Lemma receives_push env p c :
  frameable limit p → env_type p = CHAT_PUSH → has_chat_push p = true →
  push_history (chat_push p) = false → login_ok (c_login c) = true → accepting env →
  let a := ack_of (ce_clock env (c_tick c + 4)) p in
  Encode a ≠ [] →
  let c' := client_receives env (Encode p) c in
  message_queue c' = message_queue c ++ [p] ∧ wire c' = wire c ++ [Encode a].
Proof.
  intros Hp Hty Hhas Hh Hl Ha a Hne c'. unfold c'. rewrite receives_one by done.
  set (c1 := add_heard (RecvData (Encode p)) c).
  pose proof (handleEnvelope_push (hearing (Encode p) env) p c1 Hty Hhas) as (_ & _ & H).
  change (login_ok (c_login c1)) with (login_ok (c_login c)) in H. rewrite Hl, Hh in H.
  destruct H as (-> & _ & ->). split; [done|]. change (wire c1) with (wire c). f_equal.
  unfold written. cbn [ce_clock ce_send hearing].
  replace (c_tick c1 + 3)%nat with (c_tick c + 4)%nat by (cbn; lia).
  fold (ack_of (ce_clock env (c_tick c + 4)) p). rewrite decide_False by exact Hne.
  by rewrite accepting_sends.
Qed.

Lemma receives_ack env a c :
  frameable limit a → env_type a = ACK → has_ack a = true →
  let c' := client_receives env (Encode a) c in
  pending_acks c' = delete (ack_seq (ack a)) (pending_acks c) ∧ message_queue c' = message_queue c.
Proof.
  intros Ha Hty Hhas c'. unfold c'. rewrite receives_one by done.
  unfold handleEnvelope, handleAck. by rewrite Hty, Hhas.
Qed.
End clients.

(** ** The server *)
Section server.
Context {R : Redis} {P : Protobuf} {PL : ProtobufLaws P} (env : environment) {SS : StoreService env}.

(** A session receives bytes, and the events it makes of them are handled. *)
Definition server_hears (k : Conn) (data : bytes) (s : sessions * world) : sessions * world :=
  let r := onMessage k data s.1 in
  (cb_sessions r, (run (exec env) (for_each (cb_events r) handle) s.2).1).

Lemma hears_one k e t w :
  frameable limit e → buffer_of k t = Some [] →
  let s := server_hears k (Encode e) (t, w) in
  s.2 = (run (exec env) (handle (EnvelopeEvent k e)) w).1 ∧
  buffer_of k s.1 = Some [] ∧ ∀ k', k' ≠ k → buffer_of k' s.1 = buffer_of k' t.
Proof.
  intros He Hb s. unfold s, server_hears.
  pose proof (callback_session k (Data (Encode e)) t) as H. cbn [callback session_step] in H.
  rewrite Hb, app_nil_l, (DecodeAll_one e He) in H.
  change (decode_failed (Codec.status _)) with false in H. cbv match in H.
  injection H as Hb' Hev _. cbn [fst snd]. rewrite Hev. cbn [fmap list_fmap for_each envelopes].
  split; [|split].
  - rewrite run_bind. by destruct (run (exec env) (handle _) w).
  - rewrite Hb'. cbn [consumed_bytes]. unfold bsize. by rewrite Nat2N.id, drop_all.
  - intros k' Hne. unfold buffer_of. f_equal. by apply (callback_other k (Data (Encode e)) t k').
Qed.

(** What the server has written to a connection since. *)
Definition out_since (w w' : world) (k : Conn) : bytes := sent_on k (drop (length (w_out w)) (w_out w')).

Lemma new_output w a w' a' out :
  implements env w a → implements env w' a' → a_sent a' = a_sent a ++ out →
  drop (length (w_out w)) (w_out w') = render <$> out.
Proof.
  intros [_ _ _ Hw] [_ _ _ Hw'] Hs. rewrite Hw, Hw', Hs, fmap_app. apply drop_app_length.
Qed.

(** A request of a user who is logged in, to one who can be reached. *)
Lemma chat_reaches a k1 k2 e u v a' :
  server_step a (EnvelopeEvent k1 e) a' → env_type e = CHAT_REQ → has_chat_req e = true →
  u ≠ 0 → getUidByConn (Some k1) (a_users a) = u → chat_req_from_uid (chat_req e) = u →
  chat_req_to_uid (chat_req e) = v → target_of v a = Some k2 →
  find_duplicate (a_store a) u (chat_req_client_msg_id (chat_req e)) = None →
  ∃ r p t, msg_id r = st_next (a_store a) + 1 ∧ from_uid r = u ∧ to_uid r = v ∧
    content r = chat_req_content (chat_req e) ∧ status r = Delivered ∧
    st_msgs (a_store a') !! msg_id r = Some r ∧ a_users a' = a_users a ∧ a_live a' = a_live a ∧
    (∃ t1 t2 r0, p = push_of t1 t2 r0 false ∧ msg_id r0 = msg_id r ∧ from_uid r0 = u ∧ to_uid r0 = v ∧
       content r0 = content r) ∧
    a_sent a' = a_sent a ++
      [(k2, p); (k1, EnvelopeFactory.CreateAck t (env_seq e) (msg_id r) true "")].
Proof.
  intros Hs Hty Hhas Hu Hk1 Hfrom Hto Ht Hd.
  assert (chat_refusal k1 e a = None) as Hok.
  { unfold chat_refusal. rewrite Hhas, Hk1, Hfrom, (proj2 (N.eqb_neq u 0) Hu), N.eqb_refl. done. }
  inversion Hs as [| | |? ? ? ? _ _ Hdup|? ? t t2 a1 _ _ Hnow q _ r Hdel| | | |? ? ? Hun|]; subst; try congruence.
  2: { rewrite Hty in Hun. set_solver. }
  set (b := with_store _ a) in Hdel.
  inversion Hdel as [Hterm|Hterm Hoff|k t1 t3 t4 Hterm Hon Ht4]; subst; [done|..].
  { change (target_of (to_uid r) b) with (target_of (chat_req_to_uid (chat_req e)) a) in Hoff. congruence. }
  change (target_of (to_uid r) b) with (target_of (chat_req_to_uid (chat_req e)) a) in Hon.
  assert (k = k2) as -> by congruence.
  exists (set_delivered t4 r), (push_of t1 t3 r false), t2. split_and!; try done.
  - cbn [a_store with_sent with_store b]. unfold st_mark_delivered. rewrite st_update_alter.
    cbn [st_msgs]. change (msg_id (set_delivered t4 r)) with (msg_id r).
    by rewrite lookup_alter_eq, lookup_insert_eq.
  - by exists t1, t3, r.
  - cbn. by rewrite <-app_assoc.
Qed.

(** The acknowledgement of its receiver. *)
Lemma ack_reaches a k e r a' :
  server_step a (EnvelopeEvent k e) a' → env_type e = ACK → has_ack e = true →
  ack_msg_id (ack e) = msg_id r → msg_id r ≠ 0 → st_msgs (a_store a) !! msg_id r = Some r →
  getUidByConn (Some k) (a_users a) = to_uid r → to_uid r ≠ 0 →
  a_sent a' = a_sent a ∧ ∃ t, st_msgs (a_store a') !! msg_id r = Some (set_acked t r).
Proof.
  intros Hs Hty Hhas Hid Hid0 Hr Hu Hu0.
  assert (ack_valid k e a = true) as Hv.
  { unfold ack_valid. by rewrite Hhas, Hid, Hu, !(proj2 (N.eqb_neq _ 0)) by done. }
  inversion Hs as [| | | | | |? ? t _ _ Ht| |? ? ? Hun|]; subst; try congruence.
  2: { rewrite Hty in Hun. set_solver. }
  split; [done|]. exists t. cbn [a_store with_store]. rewrite Hid, Hu. unfold st_mark_acked.
  rewrite Hr, N.eqb_refl. unfold st_update. rewrite Hr. cbn. by rewrite lookup_insert_eq.
Qed.
End server.

(** ** One message *)
Section arrival.
Context {R : Redis} {P : Protobuf} {PL : ProtobufLaws P} (env : environment) {SS : StoreService env}.

(** User [u] sends [msg] to [v]: the server hears the request, the receiver what
    the server wrote to him, the server his answer, and the sender what the
    server wrote to her. *)
Definition one_message (env1 env2 : client_env) (u v : N) (msg : string) (k1 k2 : Conn)
    (c1 c2 : Client) (s : sessions * world) : bool * Client * Client * (sessions * world) * (sessions * world) :=
  let (c1a, ok) := run (client_exec env1) (sendMessage u v msg) c1 in
  let s1 := server_hears env k1 (written_since c1 c1a) s in
  let c2a := client_receives env2 (out_since s.2 s1.2 k2) c2 in
  let s2 := server_hears env k2 (written_since c2 c2a) s1 in
  (ok, client_receives env1 (out_since s.2 s2.2 k1) c1a, c2a, s1, s2).

(** What the server wrote to two connections, one envelope each. *)
Lemma two_outputs (k1 k2 : Conn) (f1 f2 : bytes) :
  k1 ≠ k2 → sent_on k1 [Sent k2 f2; Sent k1 f1] = f1 ∧ sent_on k2 [Sent k2 f2; Sent k1 f1] = f2.
Proof.
  intros Hk. unfold sent_on. cbn [omap list_omap frame_on].
  rewrite (decide_False (P := k2 = k1)), !decide_True, (decide_False (P := k1 = k2)) by congruence.
  cbn. by rewrite !app_nil_r.
Qed.

(** [u] and [v] are logged in on [k1] and [k2], nothing of a frame is waiting in
    either session, and the client message id [id] has not been used. *)
Record at_ease (a : server) (u v : N) (id : string) (k1 k2 : Conn) (t : sessions) : Prop := {
  ae_range : u < two64 ∧ v < two64 ∧ u ≠ 0 ∧ v ≠ 0 ∧ k1 ≠ k2;
  ae_sender : getUidByConn (Some k1) (a_users a) = u;
  ae_receiver : getUidByConn (Some k2) (a_users a) = v;
  ae_target : target_of v a = Some k2;
  ae_sessions : buffer_of k1 t = Some [] ∧ buffer_of k2 t = Some [];
  ae_room : st_next (a_store a) + 2 < lua_exact;
  ae_new : find_duplicate (a_store a) u id = None }.

(** A client that is logged in, on a socket that takes what it is given. *)
Definition client_at_ease (cenv : client_env) (c : Client) : Prop :=
  accepting cenv ∧ c_stop c = false ∧ login_ok (c_login c) = true.

(** Everything written has a frame the decoder accepts. *)
Definition all_frameable (out : list output) : Prop :=
  ∀ o, o ∈ out → match o with Sent _ f => ∀ e, f = Encode e → frameable limit e | ShutDown _ => False end.

Lemma render_frameable x out : render x ∈ out → all_frameable out → frameable limit x.2 ∧ render x = Sent x.1 (Encode x.2).
Proof.
  intros Hin Hall. specialize (Hall _ Hin). unfold render in *. case_decide; [done|].
  split; [by apply Hall|done].
Qed.

(** The server has handled the request [r] of [k1]: it stored [m], and wrote the
    push [p] to [k2] and the acknowledgement [ak] to [k1]. *)
Record request_served (a : server) (r : Envelope) (k1 k2 : Conn) (w : world) (s1 : sessions * world)
    (a1 : server) (m : MessageRecord) (p ak : Envelope) : Prop := {
  rs_world : implements env s1.2 a1;
  rs_room : id_room a1;
  rs_users : a_users a1 = a_users a;
  rs_session : buffer_of k2 s1.1 = Some [];
  rs_stored : st_msgs (a_store a1) !! msg_id m = Some m;
  rs_id : msg_id m = st_next (a_store a) + 1;
  rs_record : from_uid m = chat_req_from_uid (chat_req r) ∧ to_uid m = chat_req_to_uid (chat_req r) ∧
    content m = chat_req_content (chat_req r);
  rs_push : ∃ t1 t2 r0, p = push_of t1 t2 r0 false ∧ msg_id r0 = msg_id m ∧
    from_uid r0 = from_uid m ∧ to_uid r0 = to_uid m ∧ content r0 = content m;
  rs_ack : ∃ t, ak = EnvelopeFactory.CreateAck t (env_seq r) (msg_id m) true "";
  rs_sent : a_sent a1 = a_sent a ++ [(k2, p); (k1, ak)];
  rs_frames : frameable limit p ∧ frameable limit ak;
  rs_out : out_since w s1.2 k1 = Encode ak ∧ out_since w s1.2 k2 = Encode p }.

Lemma request_is_served a w t u v k1 k2 r :
  (∀ n, env_clock env n < exact_score) → no_faults env → implements env w a →
  at_ease a u v (chat_req_client_msg_id (chat_req r)) k1 k2 t → frameable limit r →
  env_type r = CHAT_REQ → has_chat_req r = true →
  chat_req_from_uid (chat_req r) = u → chat_req_to_uid (chat_req r) = v →
  let s1 := server_hears env k1 (Encode r) (t, w) in
  all_frameable (drop (length (w_out w)) (w_out s1.2)) →
  ∃ a1 m p ak, request_served a r k1 k2 w s1 a1 m p ak.
Proof.
  intros Hclock Hquiet Hw [(Hu64 & Hv64 & Hu0 & Hv0 & Hk) Hu Hv Htg [Hb1 Hb2] Hroom Hnew] Hr
    Hty Hhas Hfrom Hto s1.
  destruct (hears_one env k1 r t w Hr Hb1) as (Hs1w & _ & Hother). fold s1 in Hs1w, Hother.
  assert (event_ok (EnvelopeEvent k1 r)) as Hev by (split; congruence).
  destruct (handle_triple env Hclock Hquiet a (EnvelopeEvent k1 r) Hev ltac:(unfold id_room; lia) w Hw)
    as (a1 & Hw1 & Hst1).
  rewrite <-Hs1w in Hw1.
  destruct (chat_reaches a k1 k2 r u v a1 Hst1 Hty Hhas Hu0 Hu Hfrom Hto Htg Hnew)
    as (m & p & tk & Hid & Hmu & Hmv & Hmc & _ & Hm & Husers & _ & Hp & Hsent).
  pose proof (new_output env w a s1.2 a1 _ Hw Hw1 Hsent) as Hout. cbn [fmap list_fmap] in Hout.
  set (ak := EnvelopeFactory.CreateAck _ _ _ _ _) in *.
  intros Hall. rewrite Hout in Hall.
  destruct (render_frameable (k2, p) _ (list_elem_of_here _ _) Hall) as [Hfp Hrp].
  destruct (render_frameable (k1, ak) _ (list_elem_of_further _ _ _ (list_elem_of_here _ _)) Hall) as [Hfa Hra].
  exists a1, m, p, ak. constructor; try done.
  - destruct (server_step_bounded _ _ _ Hst1) as [_ Hn]. unfold id_room. lia.
  - by rewrite Hother.
  - by rewrite Hfrom, Hto.
  - rewrite Hmu, Hmv. exact Hp.
  - by exists tk.
  - unfold out_since. rewrite Hout, Hrp, Hra. by apply two_outputs.
Qed.

(** The server hears the receiver's acknowledgement of [m]. *)
Lemma ack_is_served a k e m s :
  (∀ n, env_clock env n < exact_score) → no_faults env → implements env s.2 a → id_room a →
  buffer_of k s.1 = Some [] → frameable limit e → env_type e = ACK → has_ack e = true →
  ack_msg_id (ack e) = msg_id m → msg_id m ≠ 0 → st_msgs (a_store a) !! msg_id m = Some m →
  getUidByConn (Some k) (a_users a) = to_uid m → to_uid m ≠ 0 →
  chat_req_from_uid (chat_req e) < two64 ∧ chat_req_to_uid (chat_req e) < two64 →
  ∃ a' t, implements env (server_hears env k (Encode e) s).2 a' ∧ a_sent a' = a_sent a ∧
    st_msgs (a_store a') !! msg_id m = Some (set_acked t m).
Proof.
  intros Hclock Hquiet Hw Hroom Hb He Hty Hhas Hid Hid0 Hm Hu Hu0 Hev. destruct s as [t w].
  destruct (hears_one env k e t w He Hb) as (Hs & _ & _).
  destruct (handle_triple env Hclock Hquiet a (EnvelopeEvent k e) Hev Hroom w Hw) as (a' & Hw' & Hst).
  rewrite <-Hs in Hw'. destruct (ack_reaches a k e m a' Hst Hty Hhas Hid Hid0 Hm Hu Hu0) as (Hsent & t' & Hm').
  by exists a', t'.
Qed.

(** C3. A message arrives.  Two users are logged in, Redis and the sockets work,
    and every frame is within the limit of the decoder.  Then [sendMessage]
    returns true; the server stores the message, pushes it to its receiver and
    answers its sender; the receiver queues it for the application, with sender
    and text, and acknowledges it; the server marks it Acked; and the sender
    forgets the request. *)
Theorem message_arrives env1 env2 a w t u v msg k1 k2 c1 c2 :
  (∀ n, env_clock env n < exact_score) → no_faults env → implements env w a →
  client_at_ease env1 c1 → client_at_ease env2 c2 →
  let r := next_request env1 u v msg c1 in
  let id := st_next (a_store a) + 1 in
  at_ease a u v (chat_req_client_msg_id (chat_req r)) k1 k2 t →
  frameable limit r →
  frameable limit (EnvelopeFactory.CreateAck (ce_clock env2 (c_tick c2 + 4)) id id true "") →
  let '(ok, c1', c2', s1, s2) := one_message env1 env2 u v msg k1 k2 c1 c2 (t, w) in
  all_frameable (drop (length (w_out w)) (w_out s1.2)) →
  ok = true ∧
  (∃ p, message_queue c2' = message_queue c2 ++ [p] ∧ push_msg_id (chat_push p) = id ∧
    push_from_uid (chat_push p) = u ∧ push_to_uid (chat_push p) = v ∧
    push_content (chat_push p) = msg ∧ push_history (chat_push p) = false) ∧
  pending_acks c1' = delete (next_seq (c_statics c1)) (pending_acks c1) ∧
  ∃ a' m, implements env s2.2 a' ∧ st_msgs (a_store a') !! id = Some m ∧ status m = Acked ∧
    from_uid m = u ∧ to_uid m = v ∧ content m = msg.
Proof.
  intros Hclock Hquiet Hw (Ha1 & Hs1 & Hl1) (Ha2 & Hs2 & Hl2) r id Hease Hr Hack. unfold one_message.
  destruct (sendMessage_run env1 u v msg c1 Hs1 Hl1 Ha1 (frame_not_empty _ Hr)) as (Hok & Hwire & _ & _ & q & Hpend).
  destruct (run (client_exec env1) (sendMessage u v msg) c1) as [c1a ok]. cbn [fst snd] in *.
  rewrite (written_one _ _ _ Hwire). fold r. set (s1 := server_hears env k1 (Encode r) (t, w)). intros Hall.
  destruct (request_is_served a w t u v k1 k2 r Hclock Hquiet Hw Hease Hr eq_refl eq_refl eq_refl eq_refl Hall)
    as (a1 & m & p & ak & [Hw1 Hroom1 Husers Hb2 Hm Hid (Hmu & Hmv & Hmc) (t1 & t2 & r0 & -> & Hp1 & Hp2 & Hp3 & Hp4)
      [tk ->] Hsent [Hfp Hfa] [Hout1 Hout2]]).
  destruct Hease as [(_ & _ & Hu0 & Hv0 & _) _ Hv _ _ _ _]. fold s1 in Hw1, Hb2, Hout1, Hout2.
  rewrite Hout2. set (p := push_of t1 t2 r0 false) in *. set (now := ce_clock env2 (c_tick c2 + 4)) in *.
  assert (ack_of now p = EnvelopeFactory.CreateAck now id id true "") as Hak
    by (unfold ack_of; cbn; by rewrite Hp1, Hid).
  rewrite <-Hak in Hack.
  destruct (receives_push env2 p c2 Hfp eq_refl eq_refl eq_refl Hl2 Ha2 (frame_not_empty _ Hack)) as [Hq2 Hw2].
  set (c2a := client_receives env2 (Encode p) c2) in *. rewrite (written_one _ _ _ Hw2). fold now.
  destruct (ack_is_served a1 k2 (ack_of now p) m s1 Hclock Hquiet Hw1 Hroom1 Hb2 Hack eq_refl eq_refl)
    as (a2 & t4 & Hw2' & Hsent2 & Hm2); [done|by rewrite Hid; lia|done|by rewrite Husers, Hmv|by rewrite Hmv|done|].
  rewrite Hsent in Hsent2.
  assert (out_since w (server_hears env k2 (Encode (ack_of now p)) s1).2 k1 = out_since w s1.2 k1) as ->.
  { unfold out_since. by rewrite (new_output env w a _ a2 _ Hw Hw2' Hsent2), (new_output env w a _ a1 _ Hw Hw1 Hsent). }
  rewrite Hout1. destruct (receives_ack env1 _ c1a Hfa eq_refl eq_refl) as [Hpend' _].
  split; [done|]. split; [exists p; cbn; by rewrite Hq2, Hp1, Hp2, Hp3, Hp4, Hmu, Hmv, Hmc|]. split.
  - rewrite Hpend', Hpend. cbn. by rewrite delete_insert_eq.
  - exists a2, (set_acked t4 m). unfold id. rewrite <-Hid. by split_and!.
Qed.
End arrival.
