(* ===== verification/EndToEnd.v ===== *)
(** * Client and server together

    Concrete clients, and a run in which a message travels from one through the
    sessions and the handlers of the server to another. *)

From S2P Require Import Prelude Decimal Message WireInstance Codec UserState Prog Redis.
From S2P Require Import RedisInstance Scripts Sys MessageStore StoreSpec StoreRefine StoreReads.
From S2P Require Import Dispatcher StoreService ServerLogic ServerSpec DispatcherRefine ServerRun.
From S2P Require Import ServerSafety ServerFaults ServerExamples ChatServer Tokens Client.
From S2P Require Import ClientSafety Retransmit Arrival.
Local Open Scope N_scope.

(** ** Concrete clients *)

(** The clock stands, the socket takes everything, [input] is received. *)
Definition client_at (now : N) (input : bytes) : client_env :=
  {| ce_clock := λ _, now; ce_connect := λ _, connects; ce_send := λ _ _ n, Z.of_N n;
     ce_recv := λ _, RecvData input; ce_visit := map_to_list; ce_visit_ok := λ m, reflexivity _ |}.

(** A client after a successful login. *)
Definition ready_client : Client :=
  (run (client_exec (client_at 1000
      (Encode (EnvelopeFactory.CreateLoginResponse 1000 1 true ""))))
    (_ ← receive []; mret tt) new_Client).1.

Definition sent_hello : Client * bool :=
  run (client_exec (client_at 1000 [])) (sendMessage 1 2 "hi") ready_client.

(** Two application threads, the receiver and the retry thread. *)
Definition client_threads : list (cli unit) :=
  [for_each [CallSend 2 "a"; CallSend 2 "b"] (do_call 1); for_each [CallSend 2 "c"] (do_call 1);
   retryLoop 2].

Definition client_schedule : list nat :=
  replicate 4 0%nat ++ replicate 8 1%nat ++ replicate 4 0%nat ++ replicate 7 2%nat.

(** Half a second passes with every operation. *)
Definition ticking : client_env :=
  {| ce_clock := λ t, 500 * N.of_nat t; ce_connect := λ _, connects; ce_send := λ _ _ n, Z.of_N n;
     ce_recv := λ _, RecvClosed; ce_visit := map_to_list; ce_visit_ok := λ m, reflexivity _ |}.

Definition client_final : Client * list (cli unit) :=
  default (new_Client, [])
    (run_schedule (client_exec ticking) client_schedule (ready_client, client_threads)).

Lemma client_final_run :
  run_schedule (client_exec ticking) client_schedule (ready_client, client_threads) = Some client_final.
Proof. vm_compute. reflexivity. Qed.

Lemma client_final_steps :
  nsteps (tstep (client_exec ticking)) (length client_schedule)
    (ready_client, client_threads) client_final.
Proof. exact (run_schedule_steps _ _ _ _ client_final_run). Qed.

Lemma requests_identified_witness :
  env_seq <$> issued client_final.1 = [3; 2] ∧ length (wire client_final.1) = 3%nat ∧
  ∀ w, w ∈ wire client_final.1 → ∃ r, prefix w (Encode r) ∧
    (r ∈ issued client_final.1 ∨ control 1 (message_queue client_final.1) r).
Proof.
  split; [vm_compute; reflexivity|]. split; [vm_compute; reflexivity|].
  refine (proj1 (requests_identified 1 ticking (length client_schedule) ready_client
    client_threads client_final.1 client_final.2 _ _ _ _ _)).
  - split_and!; vm_compute; reflexivity.
  - vm_compute. reflexivity.
  - vm_compute. reflexivity.
  - apply Forall_cons. split; [left; by eexists|]. apply Forall_cons. split; [left; by eexists|].
    apply Forall_singleton. right. right. by exists 2%nat.
  - rewrite <-surjective_pairing. exact client_final_steps.
Defined.

(** A request, and the retry thread four seconds later. *)
Definition later : client_env :=
  {| ce_clock := λ t, if (t <? 12)%nat then 1000 else 5000; ce_connect := λ _, connects;
     ce_send := λ _ _ n, Z.of_N n; ce_recv := λ _, RecvClosed; ce_visit := map_to_list;
     ce_visit_ok := λ m, reflexivity _ |}.

Definition repeating_threads : list (cli unit) := [for_each [CallSend 2 "hi"] (do_call 1); retryLoop 1].

Definition repeating_schedule : list nat := replicate 8 0%nat ++ replicate 5 1%nat.

Definition repeated : Client * list (cli unit) :=
  default (new_Client, [])
    (run_schedule (client_exec later) repeating_schedule (ready_client, repeating_threads)).

Lemma repeated_steps :
  nsteps (tstep (client_exec later)) (length repeating_schedule) (ready_client, repeating_threads) repeated.
Proof.
  apply run_schedule_steps. unfold repeated.
  assert ((if run_schedule (client_exec later) repeating_schedule (ready_client, repeating_threads) is Some _
    then true else false) = true) as H by (vm_compute; reflexivity).
  by destruct (run_schedule _ _ _).
Qed.

Definition repeated_request : Envelope := default default_Envelope (head (issued repeated.1)).

Lemma repeated_writes e :
  may_send 1 later (issued repeated.1) (message_queue repeated.1) e → sendable e.
Proof.
  assert (issued repeated.1 = [repeated_request]) as -> by (vm_compute; reflexivity).
  assert (message_queue repeated.1 = []) as -> by (vm_compute; reflexivity).
  intros [->%list_elem_of_singleton|[[t ->]|(t & p & ?%not_elem_of_nil & _)]]; [..|done]; apply small_sendable.
  - vm_compute. reflexivity.
  - cbn [ce_clock later]. destruct (t <? 12)%nat; vm_compute; reflexivity.
Qed.

Lemma request_written_at_most_witness :
  frames_written repeated_request repeated.1 = 2%nat ∧ (frames_written repeated_request repeated.1 <= 6)%nat.
Proof.
  split; [vm_compute; reflexivity|].
  refine (proj1 (request_written_at_most 1 later (length repeating_schedule) ready_client
    repeating_threads repeated.1 repeated.2 repeated_request _ _ _ _ _ repeated_writes _)).
  - split_and!; vm_compute; reflexivity.
  - vm_compute. reflexivity.
  - vm_compute. reflexivity.
  - apply Forall_cons. split; [left; by eexists|]. apply Forall_singleton. right. right. by exists 1%nat.
  - rewrite <-surjective_pairing. exact repeated_steps.
  - apply list_elem_of_In. vm_compute. by left.
Defined.

(** Four seconds later the request is sent again. *)
Lemma retry_scan_exact_witness :
  (client_exec (client_at 5000 []) _ (CScan 5000) sent_hello.1).2 ≡ₚ
    pa_envelope <$> filter (λ p, (2000 * (Z.to_N (pa_retry_count p) + 1) <=? 5000 - last_send_ms p) = true
      ∧ pa_retry_count p ≠ 5%Z) (snd <$> map_to_list (pending_acks sent_hello.1)).
Proof.
  apply (retry_scan_exact (client_at 5000 []) 5000 sent_hello.1); [reflexivity|].
  intros seq p Hp. apply elem_of_map_to_list in Hp. vm_compute in Hp.
  apply list_elem_of_singleton in Hp. injection Hp as -> ->. done.
Defined.

Definition a_push : Envelope := EnvelopeFactory.CreateChatPush 1000 0 8 8 2 1 "hello" 900 false.

Lemma push_acknowledged_witness :
  message_queue (run (client_exec (client_at 1000 [])) (handleEnvelope a_push) ready_client).1 = [a_push].
Proof.
  assert (login_ok (c_login ready_client) = true ∧ message_queue ready_client = []) as [Hl Hq]
    by (split; vm_compute; reflexivity).
  pose proof (push_acknowledged (client_at 1000 []) a_push ready_client eq_refl eq_refl) as H.
  cbv zeta in H. rewrite Hl, Hq in H. exact (proj1 (proj2 (proj2 H))).
Defined.

(** ** A message that arrives *)

(** A frame with a body, and small enough for the decoder. *)
Definition small_output (o : output) : bool :=
  match o with
  | Sent _ f => (4 <? bsize f) && (bsize f <=? kDefaultMaxFrameLength)
  | ShutDown _ => false
  end.

Lemma small_outputs out : forallb small_output out = true → all_frameable out.
Proof.
  intros H o Ho. apply list_elem_of_In in Ho. rewrite forallb_forall in H. specialize (H o Ho).
  destruct o as [c f|]; [|done]. cbn in H. apply andb_true_iff in H as [Hf%N.ltb_lt Hs%N.leb_le].
  intros e ->. apply example_frameable; [|done]. intros ->. by vm_compute in Hf.
Qed.

Definition two_sessions : sessions :=
  <[21 := {| session_conn := 21; recv_buffer := [] |}]> (<[22 := {| session_conn := 22; recv_buffer := [] |}]> ∅).

Abbreviation told :=
  (one_message (R := ref_redis) quiet (client_at 1000 []) (client_at 1000 []) 1 2 "hi" 21 22
     ready_client ready_client (two_sessions, w0)).

Lemma message_arrives_witness :
  told.1.1.1.1 = true ∧ (∃ p, message_queue told.1.1.2 = [p] ∧ push_content (chat_push p) = "hi") ∧
  pending_acks told.1.1.1.2 = ∅ ∧
  ∃ a' m, implements quiet told.2.2 a' ∧ st_msgs (a_store a') !! 1 = Some m ∧ status m = Acked.
Proof.
  pose proof (message_arrives quiet (client_at 1000 []) (client_at 1000 []) s0 w0 two_sessions 1 2 "hi" 21 22
    ready_client ready_client ltac:(done) quiet_no_faults (w0_implements quiet)) as H.
  cbv zeta in H.
  assert (all_frameable (drop (length (w_out w0)) (w_out told.1.2.2))) as Hf
    by (apply small_outputs; vm_compute; reflexivity).
  assert (pending_acks ready_client = ∅ ∧ message_queue ready_client = []) as [Hp Hq] by (by vm_compute).
  destruct told as [[[[ok c1] c2] s1] s2]. rewrite Hp, Hq in H. cbn [fst snd] in *.
  destruct H as (Hok & (p & Hm & _ & _ & _ & Hc & _) & Hd & a' & m & Ha & Hl & Hs & _); [..|exact Hf|].
  - split; [|by split; vm_compute]. intros ? ? n Hn. cbn. lia.
  - split; [|by split; vm_compute]. intros ? ? n Hn. cbn. lia.
  - constructor; [by split_and!|by vm_compute..].
  - apply example_frameable; by vm_compute.
  - apply example_frameable; by vm_compute.
  - split; [done|]. split; [by exists p|]. split; [by rewrite Hd, delete_empty|]. by exists a', m.
Defined.

(** ** A retry at once *)

(** A request registered after the scan has read the clock, one millisecond
    later, is sent again at once: the unsigned difference wraps. *)
Theorem fresh_request_is_resent :
  (client_exec (client_at 999 []) _ (CScan 999) sent_hello.1).2 = issued sent_hello.1.
Proof. vm_compute. reflexivity. Qed.
