(* ===== verification/LostRequests.v ===== *)
(** * Messages lost with a request to Redis

    What one lost request, or one lost reply, of the create script does to a
    message: the server refuses it although the client will not send it again,
    or stores it without ever delivering it. *)

From S2P Require Import Prelude Decimal Message WireInstance Codec UserState Prog Redis RedisInstance.
From S2P Require Import Scripts Sys MessageStore StoreSpec StoreRefine StoreReads StoreService.
From S2P Require Import Dispatcher ServerLogic ServerSpec DispatcherRefine ServerRun ServerSafety.
From S2P Require Import ServerDelivery ServerFaults ServerExamples ChatServer Tokens Client.
From S2P Require Import ClientSafety Reliability Arrival EndToEnd.
Local Open Scope N_scope.

Section lost.
Context {R : Redis} {RL : RedisLaws R} {P : Protobuf}.

(** The create request of [handleChat] is its third operation. *)
Definition create_fault (env : environment) (w : world) : fault := env_fault env (2 + w_tick w).

(** A chat request whose create script, or its reply, is lost. *)
Lemma chat_create_lost env a c e w :
  (∀ n, env_clock env n < exact_score) → implements env w a →
  event_ok (EnvelopeEvent c e) → id_room a → env_type e = CHAT_REQ → chat_refusal c e a = None →
  create_fault env w ≠ NoFault →
  let q := chat_req e in
  let w' := (run (exec env) (handle (EnvelopeEvent c e)) w).1 in
  ∃ t t2, t < exact_score ∧ (2 + w_tick w < w_tick w')%nat ∧
    implements env w' (with_sent c (EnvelopeFactory.CreateAck t2 (env_seq e) 0 false "message store unavailable")
      (with_store (executed (create_fault env w) (a_store a)
        (st_create t (chat_req_from_uid q) (chat_req_to_uid q) (chat_req_content q)
          (chat_req_client_msg_id q) (a_store a)).1) a)).
Proof.
  intros Hclock Hw [Hf Ht] Hroom Hty Hok Hfault q w'. unfold w', handle. rewrite Hty. unfold handleChat.
  unfold chat_refusal in Hok.
  destruct (has_chat_req e); cbn [negb] in *; [|done].
  unfold mbind, prog_bind. rewrite run_bind. cbn [trigger run exec]. rewrite (imp_users _ _ _ Hw).
  destruct (getUidByConn (Some c) (a_users a) =? 0); [done|].
  destruct (chat_req_from_uid (chat_req e) =? _); cbn [negb] in *; [|done]. fold q. rewrite run_bind.
  pose proof (implements_tick env w a Hw) as Hw1.
  destruct (call_refines env (CCreate (chat_req_from_uid q) (chat_req_to_uid q) (chat_req_content q)
    (chat_req_client_msg_id q)) (a_store a) (tick w)) as (d & Hrun & Hd); [apply Hw1|apply Hclock|done|].
  cbn [call_impl] in Hrun. rewrite Hrun. set (t := call_now env _ (tick w)) in *.
  change (env_fault env _) with (create_fault env w) in *.
  assert (ok (answered (create_fault env w) (call_lost (CCreate (chat_req_from_uid q) (chat_req_to_uid q)
    (chat_req_content q) (chat_req_client_msg_id q))) (call_spec (CCreate (chat_req_from_uid q)
    (chat_req_to_uid q) (chat_req_content q) (chat_req_client_msg_id q)) t (a_store a)).2) = false) as ->
    by (by destruct (create_fault env w)).
  cbn [negb]. apply (implements_advance env 3 d w a _ Hw) in Hd.
  destruct (triple_ack env Hclock _ c (env_seq e) 0 false "message store unavailable"
    (λ _ a', ∃ t2, a' = with_sent c (EnvelopeFactory.CreateAck t2 (env_seq e) 0 false
       "message store unavailable") _) (λ t2, ex_intro _ t2 eq_refl) _ Hd) as (a' & Hw' & t2 & ->).
  exists t, t2. split; [apply Hclock|]. split; [|exact Hw'].
  eapply Nat.lt_le_trans; [|apply run_tick]. cbn. lia.
Qed.

(** ** A lost reply *)

Definition calm_from (env : environment) : environment :=
  {| env_clock := env_clock env; env_fault := λ _, NoFault |}.

(** [m] waits in the store, its receiver can be reached, and no delivery is due. *)
Record stranded (m : MessageRecord) (k : Conn) (a : server) : Prop := {
  str_stored : msgs a !! msg_id m = Some m;
  str_pending : status m = Pending;
  str_target : target_of (to_uid m) a = Some k;
  str_bounded : retries_bounded a }.

Definition no_push_of (id : N) (out : list (Conn * Envelope)) : Prop :=
  Forall (λ x, push_msg_id (chat_push x.2) ≠ id) out.

(** A scan does not look at a message that was never delivered. *)
Lemma scan_strands env a m k w :
  (∀ n, env_clock env n < exact_score) → no_faults env → implements env w a → stranded m k a →
  let w' := (run (exec env) delivery_scan w).1 in
  ∃ a' out, implements env w' a' ∧ stranded m k a' ∧
    a_sent a' = a_sent a ++ out ∧ no_push_of (msg_id m) out.
Proof.
  intros Hclock Hquiet Hw [Hm Hp Ht Hb] w'.
  assert (store_wf (a_store a)) as Hwf by (eapply holds_wf, imp_store, Hw).
  destruct (scan_run env Hclock Hquiet a w Hb Hw) as (a' & Hw' & Hs & Hb').
  destruct (scan_at_settles _ _ _ Hwf Hb Hs) as (rs & out & Hrs & Hout & Hpush & _ & Hother).
  assert (∀ r, r ∈ rs → msg_id r ≠ msg_id m) as Hne.
  { intros r [Hk Hr]%(indexed_records _ _ _ _ Hrs) Heq. apply records_lookup in Hr; [|done].
    rewrite Heq, Hm in Hr. injection Hr as <-. unfold ack_overdue, is_delivered in Hk.
    by rewrite Hp in Hk. }
  exists a', out. split; [done|]. split; [|split; [done|]].
  - destruct Hs as (rs' & Hrs' & Hf).
    destruct (scan_routine a a') as [_ _ _ Hu Hl]; [by exists (env_clock env (w_tick w)), rs'|].
    split; [|done| |done].
    + rewrite Hother; [done|]. intros (r & Heq & Hr)%list_elem_of_fmap. by apply (Hne r Hr).
    + unfold target_of. by rewrite Hu, Hl.
  - clear -Hpush Hne. unfold pushed_again in Hpush. unfold no_push_of.
    remember (omap (again a) rs) as xs eqn:Hxs.
    assert (Forall (λ x, msg_id x.2 ≠ msg_id m) xs) as Hx.
    { rewrite Hxs. apply Forall_forall. intros x (r & Hr & Hx)%list_elem_of_omap.
      unfold again in Hx. case_match; [done|].
      destruct (target_of _ _); [|done]. injection Hx as <-. by apply Hne. }
    clear Hxs. induction Hpush as [|x y xs ys (t & t2 & ->) _ IH]; [constructor|].
    inversion_clear Hx. constructor; [done|by apply IH].
Qed.

Lemma scans_strand env m k n a w :
  (∀ n, env_clock env n < exact_score) → no_faults env → implements env w a → stranded m k a →
  let w' := (run (exec env) (for_each (replicate n Scan) perform) w).1 in
  ∃ a' out, implements env w' a' ∧ stranded m k a' ∧
    a_sent a' = a_sent a ++ out ∧ no_push_of (msg_id m) out.
Proof.
  intros Hclock Hquiet. revert a w. induction n as [|n IH]; intros a w Hw Hm; cbn [replicate for_each].
  { exists a, []. rewrite app_nil_r. split_and!; [done..|constructor]. }
  cbv zeta. rewrite run_bind.
  destruct (scan_strands env a m k w Hclock Hquiet Hw Hm) as (a1 & out1 & Hw1 & Hm1 & Hs1 & Hp1).
  cbn [perform]. destruct (run (exec env) delivery_scan w) as [w1 []]. cbn [fst] in Hw1.
  destruct (IH a1 w1 Hw1 Hm1) as (a2 & out2 & Hw2 & Hm2 & Hs2 & Hp2). exists a2, (out1 ++ out2).
  split; [done|]. split; [done|]. split; [by rewrite Hs2, Hs1, app_assoc|]. by apply Forall_app.
Qed.

(** A repeated request, answered as a duplicate. *)
Lemma duplicate_strands env a c e m k w :
  (∀ n, env_clock env n < exact_score) → no_faults env → implements env w a → stranded m k a →
  event_ok (EnvelopeEvent c e) → id_room a → env_type e = CHAT_REQ → chat_refusal c e a = None →
  from_uid m = chat_req_from_uid (chat_req e) → client_msg_id m = chat_req_client_msg_id (chat_req e) →
  let w' := (run (exec env) (handle (EnvelopeEvent c e)) w).1 in
  ∃ t a', implements env w' a' ∧ stranded m k a' ∧
    a_sent a' = a_sent a ++ [(c, EnvelopeFactory.CreateAck t (env_seq e) (msg_id m) true "duplicate message")].
Proof.
  intros Hclock Hquiet Hw Hm Hev Hroom Hty Hok Hfrom Hcid w'.
  assert (store_wf (a_store a)) as Hwf by (eapply holds_wf, imp_store, Hw).
  destruct (handle_triple env Hclock Hquiet a _ Hev Hroom w Hw) as (a' & Hw' & Hs).
  destruct (proj2 (find_duplicate_Some (a_store a) _ _ (msg_id m) m Hwf)
    (conj (str_stored _ _ _ Hm) (conj Hfrom Hcid))) as [Hd _].
  inversion Hs as [| | |? ? t r _ _ Hd'|? ? ? ? ? _ _ ? q Hd'| | | |? ? ? Hun|]; subst; try congruence.
  - exists t, (with_sent c (EnvelopeFactory.CreateAck t (env_seq e) (msg_id m) true "duplicate message") a).
    rewrite Hd in Hd'. injection Hd' as ->. split; [done|]. split; [|done]. by destruct Hm.
  - subst q. congruence.
  - rewrite Hty in Hun. set_solver.
Qed.

(** C36. One lost reply strands a message.  On any server with the receiver on
    line, a valid request with a new client message id is handled, and only the
    reply of its create script is lost.  Then the message is stored but not
    pushed, and the request is refused; when it is repeated it is acknowledged
    as a duplicate, and nothing is pushed; and however many scans follow, the
    message stays [Pending] and is in no push, although its receiver can be
    reached all the time. *)
Theorem lost_reply_strands_message env a c e k n w :
  (∀ n, env_clock env n < exact_score) → implements env w a → retries_bounded a →
  event_ok (EnvelopeEvent c e) → st_next (a_store a) + 2 < lua_exact →
  env_type e = CHAT_REQ → chat_refusal c e a = None →
  let q := chat_req e in
  find_duplicate (a_store a) (chat_req_from_uid q) (chat_req_client_msg_id q) = None →
  target_of (chat_req_to_uid q) a = Some k →
  (∀ i, env_fault env i = if decide (i = 2 + w_tick w)%nat then ReplyLost else NoFault) →
  let w1 := (run (exec env) (handle (EnvelopeEvent c e)) w).1 in
  let w2 := (run (exec env) (handle (EnvelopeEvent c e)) w1).1 in
  let w3 := (run (exec env) (for_each (replicate n Scan) perform) w2).1 in
  ∃ a' m t1 t2 out, implements env w3 a' ∧
    msg_id m = st_next (a_store a) + 1 ∧ from_uid m = chat_req_from_uid q ∧ to_uid m = chat_req_to_uid q ∧
    content m = chat_req_content q ∧
    w_out w1 = w_out w ++ (render <$>
      [(c, EnvelopeFactory.CreateAck t1 (env_seq e) 0 false "message store unavailable")]) ∧
    w_out w2 = w_out w1 ++ (render <$>
      [(c, EnvelopeFactory.CreateAck t2 (env_seq e) (msg_id m) true "duplicate message")]) ∧
    w_out w3 = w_out w2 ++ (render <$> out) ∧ no_push_of (msg_id m) out ∧
    stranded m k a'.
Proof.
  intros Hclock Hw Hb Hev Hroom Hty Hok q Hd Ht Hfault w1 w2 w3.
  assert (create_fault env w = ReplyLost) as Hlost
    by (unfold create_fault; by rewrite Hfault, decide_True).
  destruct (chat_create_lost env a c e w) as (t & t1 & Hnow & Htick & Hw1);
    [done|done|done|unfold id_room; lia|done|done|by rewrite Hlost|].
  fold q w1 in Hw1, Htick. rewrite Hlost in Hw1. cbn [executed] in Hw1. unfold st_create in Hw1.
  rewrite Hd in Hw1. cbn [fst] in Hw1.
  set (m := new_record t (st_next (a_store a) + 1) (chat_req_from_uid q) (chat_req_to_uid q)
    (chat_req_content q) (chat_req_client_msg_id q)) in *.
  set (a1 := with_sent c _ _) in Hw1.
  assert (stranded m k a1) as Hm1.
  { split; [by cbn; rewrite lookup_insert_eq|done|exact Ht|].
    intros id r. cbn. intros [[_ <-]|[_ Hr]]%lookup_insert_Some; [done|by eapply Hb]. }
  assert (∀ {A} (p : sys A) v, (w_tick w1 <= w_tick v)%nat →
    run (exec env) p v = run (exec (calm_from env)) p v) as Hcalm.
  { intros A p v Hv. apply run_agree; [done|]. intros i Hi. rewrite Hfault. by rewrite decide_False by lia. }
  destruct (duplicate_strands (calm_from env) a1 c e m k w1) as (t2 & a2 & Hw2 & Hm2 & Hs2);
    [done|done|by apply (implements_env env)|done|done|unfold id_room; cbn; lia|done|exact Hok|done|done|].
  rewrite <-Hcalm in Hw2 by done. fold w2 in Hw2.
  destruct (scans_strand (calm_from env) m k n a2 w2) as (a3 & out & Hw3 & Hm3 & Hs3 & Hp3);
    [done|done|done|done|].
  rewrite <-Hcalm in Hw3 by apply run_tick. fold w3 in Hw3.
  exists a3, m, t1, t2, out. split; [by apply (implements_env (calm_from env))|].
  do 4 (split; [done|]).
  rewrite (imp_sent _ _ _ Hw3), (imp_sent _ _ _ Hw2), (imp_sent _ _ _ Hw1), (imp_sent _ _ _ Hw), Hs3, Hs2.
  rewrite !fmap_app. split; [by rewrite <-fmap_app|]. by split_and!.
Qed.
End lost.

Definition third_reply_lost : environment :=
  {| env_clock := λ _, 1000; env_fault := λ i, if decide (i = 2)%nat then ReplyLost else NoFault |}.

Lemma lost_reply_strands_message_witness :
  let env := third_reply_lost in
  let w1 := (run (exec (R := ref_redis) env) (handle hello) w0).1 in
  let w2 := (run (exec env) (handle hello) w1).1 in
  let w3 := (run (exec env) (for_each (replicate 2 Scan) perform) w2).1 in
  acks_of w3 = [(21, 0, false); (21, 1, true)] ∧
  ∃ a' m t1 t2 out, implements env w3 a' ∧
    msg_id m = 1 ∧ from_uid m = 1 ∧ to_uid m = 2 ∧ content m = "hi" ∧
    w_out w1 = w_out w0 ++ (render <$>
      [(21, EnvelopeFactory.CreateAck t1 2 0 false "message store unavailable")]) ∧
    w_out w2 = w_out w1 ++ (render <$>
      [(21, EnvelopeFactory.CreateAck t2 2 (msg_id m) true "duplicate message")]) ∧
    w_out w3 = w_out w2 ++ (render <$> out) ∧ no_push_of (msg_id m) out ∧
    stranded m 22 a'.
Proof.
  split; [vm_compute; reflexivity|].
  apply (lost_reply_strands_message (R := ref_redis) third_reply_lost s0 21
    (EnvelopeFactory.CreateChatRequest 6 2 1 2 "hi" "m-1") 22 2 w0);
    [done|apply w0_implements| |by split|done|done|by vm_compute|by vm_compute|by vm_compute|].
  - intros id r. cbn [a_store s0 empty_store st_msgs]. by rewrite lookup_empty.
  - done.
Defined.

(** ** A lost request *)
Section outage.
Context {R : Redis} {RL : RedisLaws R} {P : Protobuf} {PL : ProtobufLaws P} (env : environment).

(** C30. A lost request loses the message for good.  A client that is logged in
    sends any message, on a socket that takes it, and the server's create
    request is lost on its way to Redis.  [sendMessage] has returned true and the
    request awaited its ACK; the server stores nothing and answers with a
    negative ACK; the client takes any ACK as the end of the request: it forgets
    it, and whatever a later scan sends again belongs to an earlier request. *)
Theorem outage_loses_message env1 a w t u v msg k c :
  (∀ n, env_clock env n < exact_score) → implements env w a → client_at_ease env1 c →
  u < two64 → v < two64 → u ≠ 0 → getUidByConn (Some k) (a_users a) = u →
  buffer_of k t = Some [] → id_room a → create_fault env w = RequestLost →
  let r := next_request env1 u v msg c in
  frameable kDefaultMaxFrameLength r →
  let (c1, ok) := run (client_exec env1) (sendMessage u v msg) c in
  let s1 := server_hears env k (written_since c c1) (t, w) in
  let c2 := client_receives env1 (out_since w s1.2 k) c1 in
  all_frameable (drop (length (w_out w)) (w_out s1.2)) →
  ok = true ∧ is_Some (pending_acks c1 !! next_seq (c_statics c)) ∧
  (∃ a' now, implements env s1.2 a' ∧ a_store a' = a_store a ∧
     a_sent a' = a_sent a ++
       [(k, EnvelopeFactory.CreateAck now (next_seq (c_statics c)) 0 false "message store unavailable")]) ∧
  pending_acks c2 = delete (next_seq (c_statics c)) (pending_acks c) ∧
  ∀ env2 now x, x ∈ (client_exec env2 _ (CScan now) c2).2 →
    ∃ seq p, seq ≠ next_seq (c_statics c) ∧ pending_acks c !! seq = Some p ∧ pa_envelope p = x.
Proof.
  intros Hclock Hw (Ha & Hs & Hl) Hu64 Hv64 Hu0 Hu Hb Hroom Hlost r Hr.
  destruct (sendMessage_run env1 u v msg c Hs Hl Ha (frame_not_empty _ Hr)) as (Hok & Hwire & _ & _ & q & Hpend).
  destruct (run (client_exec env1) (sendMessage u v msg) c) as [c1 ok]. cbn [fst snd] in *.
  rewrite (written_one _ _ _ Hwire). fold r.
  destruct (hears_one env k r t w Hr Hb) as (Hs1 & _ & _).
  set (s1 := server_hears env k (Encode r) (t, w)) in *.
  destruct (chat_create_lost env a k r w) as (tc & ta & _ & _ & Hw1); [done|done|by split|done|done| | |].
  { unfold chat_refusal. rewrite Hu, (proj2 (N.eqb_neq u 0) Hu0). cbn. by rewrite N.eqb_refl. }
  { by rewrite Hlost. }
  rewrite <-Hs1, Hlost in Hw1. cbn [executed] in Hw1. rewrite with_same_store in Hw1.
  set (nack := EnvelopeFactory.CreateAck ta (env_seq r) 0 false "message store unavailable") in *.
  pose proof (new_output env w a s1.2 (with_sent k nack a) [(k, nack)] Hw Hw1 eq_refl) as Hout.
  cbv zeta. intros Hall. rewrite Hout in Hall. cbn [fmap list_fmap] in Hall.
  destruct (render_frameable (k, nack) _ (list_elem_of_here _ _) Hall) as [Hf Hrn]. cbn [fst snd] in Hf, Hrn.
  assert (out_since w s1.2 k = Encode nack) as ->.
  { unfold out_since. rewrite Hout. cbn [fmap list_fmap]. rewrite Hrn. unfold sent_on. cbn.
    rewrite decide_True by done. cbn. by rewrite app_nil_r. }
  destruct (receives_ack env1 nack c1 Hf eq_refl eq_refl) as [Hpend' _].
  assert (pending_acks (client_receives env1 (Encode nack) c1) =
    delete (next_seq (c_statics c)) (pending_acks c)) as Hgone.
  { rewrite Hpend', Hpend. cbn. by rewrite delete_insert_eq. }
  split; [done|]. split; [rewrite Hpend, lookup_insert_eq; by eexists|].
  split; [by exists (with_sent k nack a), ta|]. split; [exact Hgone|].
  intros env2 now x (seq & p & Hp & Hx & _)%scan_out_pending.
  rewrite Hgone in Hp. apply lookup_delete_Some in Hp as [Hne Hp]. exists seq, p. by split_and!.
Qed.
End outage.

(** "hi" of user 1, during an outage. *)
Definition outage : environment := {| env_clock := λ _, 1000; env_fault := λ _, RequestLost |}.

Abbreviation lost_hi := (run (client_exec (client_at 1000 [])) (sendMessage 1 2 "hi") ready_client).
Abbreviation lost_server :=
  (server_hears (R := ref_redis) outage 21 (written_since ready_client lost_hi.1) (two_sessions, w0)).

Lemma outage_loses_message_witness :
  acks_of lost_server.2 = [(21, 0, false)] ∧ lost_hi.2 = true ∧ is_Some (pending_acks lost_hi.1 !! 2) ∧
  pending_acks (client_receives (client_at 1000 []) (out_since w0 lost_server.2 21) lost_hi.1) = ∅.
Proof.
  split; [vm_compute; reflexivity|].
  assert (all_frameable (drop (length (w_out w0)) (w_out lost_server.2))) as Hall
    by (apply small_outputs; vm_compute; reflexivity).
  pose proof (outage_loses_message outage (client_at 1000 []) s0 w0 two_sessions 1 2 "hi" 21 ready_client) as H.
  cbv zeta in H.
  assert (pending_acks ready_client = ∅ ∧ next_seq (c_statics ready_client) = 2) as [Hp Hn] by (by vm_compute).
  destruct lost_hi as [c1 ok]. rewrite Hp, Hn in H. cbn [fst snd] in *.
  destruct H as (Hok & Hs & _ & Hd & _); [..|exact Hall|].
  - done.
  - apply w0_implements.
  - split; [|by split; vm_compute]. intros ? ? n Hk. cbn. lia.
  - done.
  - done.
  - done.
  - by vm_compute.
  - by vm_compute.
  - by vm_compute.
  - done.
  - apply example_frameable; by vm_compute.
  - split; [done|]. split; [done|]. by rewrite Hd, delete_empty.
Defined.
