(* ===== verification/PerfStats.v ===== *)
(** * PerfStats (server/src/PerfStats.cpp)

    Counters updated without locks.  The threads are interleaved at their
    atomic operations; all of them are relaxed, so the interleaving of
    operations on different counters is one the hardware may reorder, and the
    theorems on recording speak of one counter at a time. *)

From Stdlib Require Import Ascii.
From S2P Require Import Prelude Decimal Prog.
Local Open Scope N_scope.

Inductive PerfStage :=
  | HandleChatTotal | HandleChatCreate | HandleChatDeliver | HandleChatSendAck
  | HandleAckTotal | HandleAckMarkAcked
  | RedisCreateLockWait | RedisCreateEval
  | RedisMarkDeliveredLockWait | RedisMarkDeliveredEval
  | RedisMarkAckedLockWait | RedisMarkAckedEval.

#[export] Instance PerfStage_eq_dec : EqDecision PerfStage.
Proof. solve_decision. Defined.

Definition StageIndex (stage : PerfStage) : nat :=
  match stage with
  | HandleChatTotal => 0 | HandleChatCreate => 1 | HandleChatDeliver => 2 | HandleChatSendAck => 3
  | HandleAckTotal => 4 | HandleAckMarkAcked => 5
  | RedisCreateLockWait => 6 | RedisCreateEval => 7
  | RedisMarkDeliveredLockWait => 8 | RedisMarkDeliveredEval => 9
  | RedisMarkAckedLockWait => 10 | RedisMarkAckedEval => 11
  end.

Definition stage_count : nat := 12.

(** [StageCounter], and [StageSnapshot], its value. *)
Record StageCounter := { count : N; total_us : N; max_us : N }.

Definition zero_counter : StageCounter := {| count := 0; total_us := 0; max_us := 0 |}.

Definition g_counters_init : list StageCounter := replicate stage_count zero_counter.

(** [Enabled]: decided once, from the environment variable. *)
Definition Enabled (value : option string) : bool :=
  match value with Some (String "0"%char _) => false | _ => true end.

(** ** Recording *)

(** Where a call of [Record] is; [InMax]: in the loop of [RecordMax], having
    read [old]. *)
Inductive recorder :=
  | ToCount (stage : PerfStage) (us : N)
  | ToTotal (stage : PerfStage) (us : N)
  | ToLoad (stage : PerfStage) (us : N)
  | InMax (stage : PerfStage) (us old : N)
  | Recorded (stage : PerfStage) (us : N).

Definition Record_call (enabled : bool) (stage : PerfStage) (us : N) : list recorder :=
  if enabled then [ToCount stage us] else [].

Definition fetch_add_count (c : StageCounter) : StageCounter :=
  {| count := u64 (count c + 1); total_us := total_us c; max_us := max_us c |}.
Definition fetch_add_total (us : N) (c : StageCounter) : StageCounter :=
  {| count := count c; total_us := u64 (total_us c + us); max_us := max_us c |}.
Definition store_max (us : N) (c : StageCounter) : StageCounter :=
  {| count := count c; total_us := total_us c; max_us := us |}.

(** One atomic operation of a call on the counter of its stage.  [weak] tells
    whether a [compare_exchange_weak] that could succeed fails all the same. *)
Definition record_op (weak : bool) (r : recorder) (c : StageCounter)
    : option (StageCounter * recorder) :=
  match r with
  | ToCount stage us => Some (fetch_add_count c, ToTotal stage us)
  | ToTotal stage us => Some (fetch_add_total us c, ToLoad stage us)
  | ToLoad stage us => Some (c, InMax stage us (max_us c))
  | InMax stage us old =>
      if old <? us then
        if (max_us c =? old) && negb weak then Some (store_max us c, Recorded stage us)
        else Some (c, InMax stage us (max_us c))
      else Some (c, Recorded stage us)
  | Recorded _ _ => None
  end.

Definition rec_stage (r : recorder) : PerfStage :=
  match r with
  | ToCount s _ | ToTotal s _ | ToLoad s _ | InMax s _ _ | Recorded s _ => s
  end.
Definition rec_us (r : recorder) : N :=
  match r with
  | ToCount _ u | ToTotal _ u | ToLoad _ u | InMax _ u _ | Recorded _ u => u
  end.

Definition perf_state : Type := list StageCounter * list recorder.

Definition record_step (weak : bool) (s s' : perf_state) : Prop :=
  ∃ i r c c' r', s.2 !! i = Some r ∧ s.1 !! StageIndex (rec_stage r) = Some c ∧
    record_op weak r c = Some (c', r') ∧
    s' = (<[StageIndex (rec_stage r) := c']> s.1, <[i := r']> s.2).

(** ** The reference: one recording after the other *)

Definition add_sample (c : StageCounter) (us : N) : StageCounter :=
  {| count := u64 (count c + 1); total_us := u64 (total_us c + us); max_us := N.max (max_us c) us |}.

Definition samples (stage : PerfStage) (rs : list recorder) : list N :=
  rec_us <$> filter (λ r, rec_stage r = stage) rs.

(** ** Logging *)

Definition kLogIntervalMs : N := 1000.

Inductive perfE : Type → Type :=
  | PNow : perfE N
  | PLoadLast : perfE N
  | PCasLast (expected desired : N) : perfE bool
  | PLoadCount (i : nat) : perfE N
  | PLoadTotal (i : nat) : perfE N
  | PLoadMax (i : nat) : perfE N
  | PLog (fields : list (string * (N + option (N * N)))) : perfE unit.

(** [p_log]: what was logged, with [g_last_log_ms] at the time. *)
Record perf_world := {
  g_counters : list StageCounter; g_last_log_ms : N;
  p_log : list (N * list (string * (N + option (N * N)))); p_tick : nat }.

Definition counter_at (i : nat) (w : perf_world) : StageCounter :=
  default zero_counter (g_counters w !! i).

Definition perf_exec (clock : nat → N) (X : Type) (e : perfE X) (w : perf_world) : perf_world * X :=
  let w' := {| g_counters := g_counters w; g_last_log_ms := g_last_log_ms w; p_log := p_log w;
               p_tick := S (p_tick w) |} in
  match e in perfE X return perf_world * X with
  | PNow => (w', clock (p_tick w))
  | PLoadLast => (w', g_last_log_ms w)
  | PCasLast expected desired =>
      if g_last_log_ms w =? expected
      then ({| g_counters := g_counters w; g_last_log_ms := desired; p_log := p_log w;
               p_tick := S (p_tick w) |}, true)
      else (w', false)
  | PLoadCount i => (w', count (counter_at i w))
  | PLoadTotal i => (w', total_us (counter_at i w))
  | PLoadMax i => (w', max_us (counter_at i w))
  | PLog fields =>
      ({| g_counters := g_counters w; g_last_log_ms := g_last_log_ms w;
          p_log := p_log w ++ [(g_last_log_ms w, fields)]; p_tick := S (p_tick w) |}, tt)
  end.

Abbreviation perf := (prog perfE).

Definition Snapshot (stage : PerfStage) : perf StageCounter :=
  n ← trigger (PLoadCount (StageIndex stage));
  t ← trigger (PLoadTotal (StageIndex stage));
  m ← trigger (PLoadMax (StageIndex stage));
  mret {| count := n; total_us := t; max_us := m |}.

(** Quotients as a pair of integers, zero as none: the rounding of [double] is
    not modelled. *)
Definition AvgUs (s : StageCounter) : option (N * N) :=
  if count s =? 0 then None else Some (total_us s, count s).
Definition PercentOf (child parent : StageCounter) : option (N * N) :=
  if total_us parent =? 0 then None else Some (total_us child * 100, total_us parent).

(** The claim of the log interval: [true] if this call is to log. *)
Definition claim_interval : perf bool :=
  now_ms ← trigger PNow;
  last_ms ← trigger PLoadLast;
  if usub64 now_ms last_ms <? kLogIntervalMs then mret false
  else trigger (PCasLast last_ms now_ms).

Definition log_fields (chat chat_create chat_deliver chat_send_ack ack ack_mark create_lock
    create_eval delivered_lock delivered_eval acked_lock acked_eval : StageCounter)
    : list (string * (N + option (N * N))) :=
  [("chat_count", inl (count chat)); ("chat_avg_us", inr (AvgUs chat));
   ("chat_max_us", inl (max_us chat)); ("create_avg_us", inr (AvgUs chat_create));
   ("create_pct", inr (PercentOf chat_create chat)); ("deliver_avg_us", inr (AvgUs chat_deliver));
   ("deliver_pct", inr (PercentOf chat_deliver chat));
   ("send_ack_avg_us", inr (AvgUs chat_send_ack));
   ("send_ack_pct", inr (PercentOf chat_send_ack chat)); ("ack_count", inl (count ack));
   ("ack_avg_us", inr (AvgUs ack)); ("ack_max_us", inl (max_us ack));
   ("mark_acked_avg_us", inr (AvgUs ack_mark)); ("mark_acked_pct", inr (PercentOf ack_mark ack));
   ("redis_create_lock_avg_us", inr (AvgUs create_lock));
   ("redis_create_eval_avg_us", inr (AvgUs create_eval));
   ("redis_delivered_lock_avg_us", inr (AvgUs delivered_lock));
   ("redis_delivered_eval_avg_us", inr (AvgUs delivered_eval));
   ("redis_acked_lock_avg_us", inr (AvgUs acked_lock));
   ("redis_acked_eval_avg_us", inr (AvgUs acked_eval))].

Definition MaybeLog (enabled : bool) : perf unit :=
  if negb enabled then mret tt
  else
    claimed ← claim_interval;
    if negb claimed then mret tt
    else
      chat ← Snapshot HandleChatTotal;
      chat_create ← Snapshot HandleChatCreate;
      chat_deliver ← Snapshot HandleChatDeliver;
      chat_send_ack ← Snapshot HandleChatSendAck;
      ack ← Snapshot HandleAckTotal;
      ack_mark ← Snapshot HandleAckMarkAcked;
      create_lock ← Snapshot RedisCreateLockWait;
      create_eval ← Snapshot RedisCreateEval;
      delivered_lock ← Snapshot RedisMarkDeliveredLockWait;
      delivered_eval ← Snapshot RedisMarkDeliveredEval;
      acked_lock ← Snapshot RedisMarkAckedLockWait;
      acked_eval ← Snapshot RedisMarkAckedEval;
      if (count chat =? 0) && (count ack =? 0) then mret tt
      else trigger (PLog (log_fields chat chat_create chat_deliver chat_send_ack ack ack_mark
        create_lock create_eval delivered_lock delivered_eval acked_lock acked_eval)).
