(* ===== verification/PerfFacts.v ===== *)
(** * What the performance counters show

    Recording without locks gives the figures of recording one call after the
    other; the log interval holds for calls one after the other, and a stale
    clock reading breaks it. *)

From S2P Require Import Prelude Decimal Prog PerfStats.
Local Open Scope N_scope.

(** ** Sums *)

Definition Nsum {A} (f : A → N) (l : list A) : N := foldr (λ x acc, f x + acc) 0 l.

Lemma Nsum_insert {A} (f : A → N) l i x y :
  l !! i = Some x → Nsum f (<[i := y]> l) + f x = Nsum f l + f y.
Proof.
  revert i. induction l as [|z l IH]; intros [|i]; try done.
  - intros [= ->]. cbn. lia.
  - intros Hi%IH. unfold Nsum in *. simpl. lia.
Qed.

Lemma Nsum_cons {A} (f : A → N) x l : Nsum f (x :: l) = f x + Nsum f l.
Proof. done. Qed.

#[local] Arguments Nsum : simpl never.

Definition Nmax (l : list N) : N := foldr N.max 0 l.

Lemma Nmax_unique l m : (∀ x, x ∈ l → x ≤ m) → m = 0 ∨ m ∈ l → m = Nmax l.
Proof.
  intros Hle Hin. assert (∀ k, (∀ x, x ∈ k → x ≤ Nmax k) ∧ (Nmax k = 0 ∨ Nmax k ∈ k)) as Hmax.
  { induction k as [|y k [IH1 IH2]]; [split; [by intros x ?%not_elem_of_nil|by left]|]. cbn.
    split.
    - intros x [->|Hx]%elem_of_cons; [lia|]. specialize (IH1 x Hx). fold (Nmax k). lia.
    - fold (Nmax k). destruct (N.max_spec y (Nmax k)) as [[_ ->]|[Hy ->]].
      + destruct IH2; [by left|right; by right].
      + right. left. }
  destruct (Hmax l) as [H1 H2]. destruct Hin as [->|Hin].
  - destruct H2 as [H2|H2]; [done|]. specialize (Hle _ H2). lia.
  - specialize (H1 _ Hin). destruct H2 as [H2|H2]; [lia|]. specialize (Hle _ H2). lia.
Qed.

Lemma u64_add_l a b : u64 (u64 a + b) = u64 (a + b).
Proof. unfold u64. apply N.Div0.add_mod_idemp_l. Qed.

(** The reference in closed form. *)
Lemma foldl_add_sample l c :
  count c < two64 → total_us c < two64 →
  foldl add_sample c l =
    {| count := u64 (count c + N.of_nat (length l)); total_us := u64 (total_us c + Nsum id l);
       max_us := N.max (max_us c) (Nmax l) |}.
Proof.
  revert c. induction l as [|x l IH]; intros c Hc Ht; cbn [foldl].
  - unfold Nsum. cbn. rewrite !N.add_0_r, !u64_small by done. rewrite N.max_0_r. by destruct c.
  - rewrite IH by apply u64_lt. cbn [add_sample count total_us max_us length]. f_equal.
    + rewrite u64_add_l. f_equal. lia.
    + rewrite u64_add_l. f_equal. unfold Nsum. simpl. unfold id. lia.
    + cbn. by rewrite N.max_assoc.
Qed.

(** ** The invariant of recording *)

Definition count_of (k : PerfStage) (r : recorder) : N :=
  if decide (rec_stage r = k) then match r with ToCount _ _ => 0 | _ => 1 end else 0.
Definition us_of (k : PerfStage) (r : recorder) : N :=
  if decide (rec_stage r = k)
  then match r with ToCount _ _ | ToTotal _ _ => 0 | _ => rec_us r end else 0.

Definition max_ok (m : N) (r : recorder) : Prop :=
  match r with Recorded _ us => us ≤ m | InMax _ _ old => old ≤ m | _ => True end.

(** What a call records, which no step changes. *)
Definition label (r : recorder) : PerfStage * N := (rec_stage r, rec_us r).

Record counter_ok (k : PerfStage) (rs : list recorder) (c : StageCounter) : Prop := {
  co_count : count c = u64 (Nsum (count_of k) rs);
  co_total : total_us c = u64 (Nsum (us_of k) rs);
  co_upper : ∀ r, r ∈ rs → rec_stage r = k → max_ok (max_us c) r;
  co_attained : max_us c = 0 ∨ (k, max_us c) ∈ label <$> rs }.

Definition perf_ok (s : perf_state) : Prop :=
  ∀ k, ∃ c, s.1 !! StageIndex k = Some c ∧ counter_ok k s.2 c.

#[export] Instance StageIndex_inj : Inj (=) (=) StageIndex.
Proof. by intros [] []. Qed.

Lemma max_ok_mono m m' r : m ≤ m' → max_ok m r → max_ok m' r.
Proof. destruct r; cbn; lia || done. Qed.

(** The call keeps its stage and its figure. *)
Lemma record_op_same weak r c c' r' :
  record_op weak r c = Some (c', r') → label r' = label r.
Proof. destruct r; cbn; intros H; repeat case_match; by simplify_eq. Qed.

Lemma insert_elem {A} (l : list A) i x y z : l !! i = Some x → z ∈ <[i := y]> l → z = y ∨ z ∈ l.
Proof.
  intros Hi [j Hj]%list_elem_of_lookup. apply list_lookup_insert_Some in Hj as [(_ & -> & _)|[_ Hj]].
  - by left.
  - right. by eapply list_elem_of_lookup_2.
Qed.

Lemma labels_insert (rs : list recorder) i r r' :
  rs !! i = Some r → label r' = label r → label <$> <[i := r']> rs = label <$> rs.
Proof.
  intros Hi Hl. rewrite list_fmap_insert, Hl. apply list_insert_id. by rewrite list_lookup_fmap, Hi.
Qed.

(** The operation on the counter of its own stage. *)
Lemma record_op_ok weak rs i r c c' r' :
  rs !! i = Some r → counter_ok (rec_stage r) rs c → record_op weak r c = Some (c', r') →
  counter_ok (rec_stage r) (<[i := r']> rs) c'.
Proof.
  intros Hi [Hc Ht Hu Ha] Hop. pose proof (record_op_same _ _ _ _ _ Hop) as Hl.
  injection Hl as Hst Hus. set (k := rec_stage r) in *.
  pose proof (Nsum_insert (count_of k) rs i r r' Hi) as Hcs.
  pose proof (Nsum_insert (us_of k) rs i r r' Hi) as Hts.
  unfold count_of at 2 4 in Hcs. unfold us_of at 2 4 in Hts. rewrite Hst in Hcs, Hts.
  rewrite !decide_True in Hcs, Hts by done.
  assert (∀ m, max_us c ≤ m → max_ok m r' →
    ∀ x, x ∈ <[i:=r']> rs → rec_stage x = k → max_ok m x) as Hupper.
  { intros m Hm Hr x [->|Hx]%(insert_elem _ _ _ _ _ Hi) Hxk; [done|].
    by eapply max_ok_mono, Hu. }
  assert (max_ok (max_us c) r) as Hr by (apply Hu; [by eapply list_elem_of_lookup_2|done]).
  destruct r as [s u|s u|s u|s u old|s u]; cbn in Hop, k; subst k.
  - injection Hop as <- <-. cbn in Hcs, Hts. split; cbn [count total_us max_us fetch_add_count].
    + rewrite Hc, u64_add_l. f_equal. lia.
    + rewrite Ht. f_equal. lia.
    + by apply Hupper.
    + by rewrite (labels_insert _ _ (ToCount s u)).
  - injection Hop as <- <-. cbn in Hcs, Hts. split; cbn [count total_us max_us fetch_add_total].
    + rewrite Hc. f_equal. lia.
    + rewrite Ht, u64_add_l. f_equal. lia.
    + by apply Hupper.
    + by rewrite (labels_insert _ _ (ToTotal s u)).
  - injection Hop as <- <-. cbn in Hcs, Hts. split.
    + rewrite Hc. f_equal. lia.
    + rewrite Ht. f_equal. lia.
    + apply Hupper; cbn; lia.
    + by rewrite (labels_insert _ _ (ToLoad s u)).
  - cbn in Hr. destruct (old <? u) eqn:Hlt;
      [destruct ((max_us c =? old) && negb weak) eqn:Hcas|]; injection Hop as <- <-; cbn in Hcs, Hts.
    + apply N.ltb_lt in Hlt. apply andb_true_iff in Hcas as [Hm%N.eqb_eq _].
      split; cbn [count total_us max_us store_max].
      * rewrite Hc. f_equal. lia.
      * rewrite Ht. f_equal. lia.
      * apply Hupper; cbn; lia.
      * right. rewrite (labels_insert _ _ (InMax s u old)) by done.
        apply list_elem_of_fmap. exists (InMax s u old). split; [done|by eapply list_elem_of_lookup_2].
    + split.
      * rewrite Hc. f_equal. lia.
      * rewrite Ht. f_equal. lia.
      * apply Hupper; cbn; lia.
      * by rewrite (labels_insert _ _ (InMax s u old)).
    + apply N.ltb_ge in Hlt. split.
      * rewrite Hc. f_equal. lia.
      * rewrite Ht. f_equal. lia.
      * apply Hupper; cbn; lia.
      * by rewrite (labels_insert _ _ (InMax s u old)).
  - done.
Qed.

(** The counters of the other stages. *)
Lemma other_stage_ok k rs i r r' c :
  rs !! i = Some r → label r' = label r → rec_stage r ≠ k →
  counter_ok k rs c → counter_ok k (<[i := r']> rs) c.
Proof.
  intros Hi Hl Hk [Hc Ht Hu Ha]. pose proof Hl as [= Hst Hus].
  pose proof (Nsum_insert (count_of k) rs i r r' Hi) as Hcs.
  pose proof (Nsum_insert (us_of k) rs i r r' Hi) as Hts.
  unfold count_of at 2 4 in Hcs. unfold us_of at 2 4 in Hts. rewrite Hst in Hcs, Hts.
  rewrite !decide_False in Hcs, Hts by done. split.
  - rewrite Hc. f_equal. lia.
  - rewrite Ht. f_equal. lia.
  - intros x [->|Hx]%(insert_elem _ _ _ _ _ Hi) Hxk; [congruence|by apply Hu].
  - by rewrite (labels_insert _ _ r).
Qed.

Lemma record_step_ok weak s s' :
  perf_ok s → record_step weak s s' → perf_ok s' ∧ label <$> s'.2 = label <$> s.2.
Proof.
  intros Hs (i & r & c & c' & r' & Hi & Hc & Hop & ->). cbn [fst snd].
  pose proof (record_op_same _ _ _ _ _ Hop) as Hl. split; [|by apply (labels_insert _ _ r)].
  intros k. destruct (Hs k) as (ck & Hk & Hok). cbn [fst snd].
  destruct (decide (rec_stage r = k)) as [<-|Hne].
  - exists c'. rewrite list_lookup_insert_eq by by eapply lookup_lt_Some. split; [done|].
    rewrite Hc in Hk. injection Hk as <-. by eapply record_op_ok.
  - exists ck. rewrite list_lookup_insert_ne by (by intros ?%StageIndex_inj). split; [done|].
    by eapply other_stage_ok.
Qed.

(** ** Termination

    A failure of the exchange that is not spurious means that another call has
    stored a maximum since; a call does so at most once. *)
Definition op_weight (r : recorder) : nat :=
  match r with
  | ToCount _ _ => 4 | ToTotal _ _ => 3 | ToLoad _ _ => 2 | InMax _ _ _ => 1 | Recorded _ _ => 0
  end.

Definition stale (cs : list StageCounter) (r : recorder) : nat :=
  match r with
  | InMax stage _ old => if decide (max_us <$> cs !! StageIndex stage = Some old) then 0 else 1
  | _ => 0
  end.

Definition record_measure (s : perf_state) : nat :=
  sum_list_with op_weight s.2 * S (length s.2) + sum_list_with (stale s.1) s.2.

Lemma stale_le cs r : (stale cs r <= 1)%nat.
Proof. destruct r; cbn; try lia. case_decide; lia. Qed.

Lemma stale_sum_le cs rs : (sum_list_with (stale cs) rs <= length rs)%nat.
Proof. induction rs as [|r rs IH]; [done|]. cbn. pose proof (stale_le cs r). lia. Qed.

Lemma record_step_measure s s' :
  record_step false s s' → (record_measure s' < record_measure s)%nat ∧ length s'.2 = length s.2.
Proof.
  intros (i & r & c & c' & r' & Hi & Hc & Hop & ->). unfold record_measure. cbn [fst snd].
  rewrite length_insert. split; [|done].
  pose proof (sum_insert op_weight s.2 i r r' Hi) as Hw.
  set (cs' := <[StageIndex (rec_stage r):=c']> s.1).
  pose proof (stale_sum_le cs' (<[i:=r']> s.2)) as Hst. rewrite length_insert in Hst.
  assert (op_weight r' < op_weight r ∨ c' = c ∧ op_weight r' = op_weight r ∧
    stale s.1 r = 1 ∧ stale s.1 r' = 0)%nat as [Hlt|(-> & Heq & Hr & Hr')].
  { destruct r as [k u|k u|k u|k u old|k u]; cbn in Hop; [left; by injection Hop as <- <-; cbn; lia..| |done].
    destruct (old <? u); [|left; injection Hop as <- <-; cbn; lia].
    rewrite andb_true_r in Hop.
    destruct (max_us c =? old) eqn:E; injection Hop as <- <-; [left; cbn; lia|right].
    apply N.eqb_neq in E. cbn. cbn in Hc. rewrite Hc. cbn. rewrite decide_False by congruence.
    by rewrite decide_True. }
  - nia.
  - assert (cs' = s.1) as -> by by apply list_insert_id.
    pose proof (sum_insert (stale s.1) s.2 i r r' Hi). nia.
Qed.

Lemma record_steps_measure k s s' :
  nsteps (record_step false) k s s' → (k + record_measure s' <= record_measure s)%nat.
Proof.
  induction 1 as [|k x y z Hxy _ IH]; [lia|]. destruct (record_step_measure _ _ Hxy). lia.
Qed.

(** ** Properties of recording *)

Definition recording (calls : list (PerfStage * N)) : perf_state :=
  (g_counters_init, (λ x, ToCount x.1 x.2) <$> calls).

Lemma recording_ok calls : perf_ok (recording calls) ∧ label <$> (recording calls).2 = calls.
Proof.
  split.
  - intros k. exists zero_counter. split; [by destruct k|]. cbn [recording snd].
    assert (∀ f : recorder → N, (∀ x, f (ToCount x.1 x.2) = 0) →
      Nsum f ((λ x : PerfStage * N, ToCount x.1 x.2) <$> calls) = 0) as Hz.
    { intros f Hf. induction calls as [|x l IH]; [done|]. unfold Nsum in *. cbn. rewrite Hf. exact IH. }
    split; cbn.
    + rewrite Hz; [done|]. intros x. unfold count_of. by case_decide.
    + rewrite Hz; [done|]. intros x. unfold us_of. by case_decide.
    + intros r (x & -> & _)%list_elem_of_fmap _. done.
    + by left.
  - cbn. rewrite <-list_fmap_compose. rewrite <-(list_fmap_id calls) at 2.
    apply list_fmap_ext. by intros i [].
Qed.

Definition any_record_step (s s' : perf_state) : Prop := ∃ weak, record_step weak s s'.

Lemma recording_reachable calls s :
  rtc any_record_step (recording calls) s → perf_ok s ∧ label <$> s.2 = calls.
Proof.
  intros Hs. apply (rtc_invariant any_record_step (λ s, perf_ok s ∧ label <$> s.2 = calls))
    with (x := recording calls); [|done|apply recording_ok].
  intros x y [Hx Hl] [weak Hxy]. destruct (record_step_ok _ _ _ Hx Hxy). split; [done|congruence].
Qed.

Definition recorded (r : recorder) : bool := if r is Recorded _ _ then true else false.

(** When every call has returned. *)
Lemma recorded_sums stage rs :
  (∀ r, r ∈ rs → ∃ k u, r = Recorded k u) →
  let l := snd <$> filter (λ x : PerfStage * N, x.1 = stage) (label <$> rs) in
  Nsum (count_of stage) rs = N.of_nat (length l) ∧ Nsum (us_of stage) rs = Nsum id l.
Proof.
  cbv zeta. induction rs as [|r rs IH]; intros Hrec; [done|].
  destruct (Hrec r) as (k & u & ->); [left|].
  destruct IH as [IH1 IH2]; [intros r Hr; apply Hrec; by right|].
  rewrite !Nsum_cons, fmap_cons, IH1, IH2.
  destruct (decide (k = stage)) as [->|Hne].
  - rewrite filter_cons_True, fmap_cons, Nsum_cons by done.
    unfold count_of, us_of. rewrite !decide_True by done. unfold id. cbn. lia.
  - rewrite filter_cons_False by done. unfold count_of, us_of. by rewrite !decide_False.
Qed.

(** C26. Recording without locks loses nothing.  However the atomic operations
    of any number of calls interleave, and however often a weak exchange fails
    for no reason, once the calls have returned every counter is what recording
    the figures of its stage one after the other gives: their number, their sum
    (both modulo 2^64) and their maximum. *)
Theorem records_add_up calls s :
  rtc any_record_step (recording calls) s → forallb recorded s.2 = true →
  ∀ stage, s.1 !! StageIndex stage =
    Some (foldl add_sample zero_counter (snd <$> filter (λ x, x.1 = stage) calls)).
Proof.
  intros Hs Hdone stage. destruct (recording_reachable _ _ Hs) as [Hok <-].
  destruct (Hok stage) as (c & Hc & [Hcount Htotal Hupper Hattained]). rewrite Hc. f_equal.
  rewrite foldl_add_sample by done. rewrite forallb_forall in Hdone.
  assert (∀ r, r ∈ s.2 → ∃ k u, r = Recorded k u) as Hrec.
  { intros r Hr%list_elem_of_In%Hdone. destruct r; try done. eauto. }
  set (l := snd <$> filter _ _).
  assert (∀ x, x ∈ l ↔ ∃ r, r ∈ s.2 ∧ r = Recorded stage x) as Hl.
  { intros x. unfold l. rewrite list_elem_of_fmap. split.
    - intros ([k u] & -> & [Hk (r & Hr & Hin)%list_elem_of_fmap]%list_elem_of_filter).
      cbn in Hk. subst k. destruct (Hrec r Hin) as (k' & u' & ->). injection Hr as -> ->. eauto.
    - intros (r & Hin & ->). exists (stage, x). split; [done|]. apply list_elem_of_filter.
      split; [done|]. apply list_elem_of_fmap. by exists (Recorded stage x). }
  destruct (recorded_sums stage s.2 Hrec) as [Hn Ht].
  destruct c as [n t m]. cbn [count total_us max_us] in *. cbn [count total_us max_us zero_counter].
  rewrite !N.add_0_l, N.max_0_l. fold l in Hn, Ht. rewrite <-Hn, <-Ht. f_equal; [done..|].
  apply Nmax_unique.
  - intros x (r & Hr & ->)%Hl. exact (Hupper _ Hr eq_refl).
  - destruct Hattained as [|(r & Hr & Hin)%list_elem_of_fmap]; [by left|right].
    apply Hl. destruct (Hrec r Hin) as (k & u & ->). injection Hr as -> ->. eauto.
Qed.

(** Recording ends.  Without spurious failures [n] calls make at most
    [4 * n * (n + 1)] steps in whatever order they are scheduled (an exchange
    fails only because another call stored a maximum meanwhile), and when no
    call can move all of them have returned. *)
Theorem recording_terminates calls k s :
  nsteps (record_step false) k (recording calls) s →
  (k <= 4 * length calls * S (length calls))%nat ∧
  ((∀ s', ¬ record_step false s s') → forallb recorded s.2 = true).
Proof.
  intros Hk. split.
  - pose proof (record_steps_measure _ _ _ Hk) as Hm.
    assert (record_measure (recording calls) = 4 * length calls * S (length calls))%nat as Hr.
    { unfold record_measure. cbn [recording fst snd]. rewrite length_fmap.
      assert (∀ l : list (PerfStage * N),
        sum_list_with op_weight ((λ x, ToCount x.1 x.2) <$> l) = 4 * length l ∧
        sum_list_with (stale g_counters_init) ((λ x, ToCount x.1 x.2) <$> l) = 0)%nat as Hl.
      { induction l as [|x l [IH1 IH2]]; [done|]. cbn. split; [|exact IH2]. rewrite IH1. lia. }
      destruct (Hl calls) as [-> ->]. lia. }
    lia.
  - intros Hstuck. apply forallb_forall. intros r [i Hi]%list_elem_of_In%list_elem_of_lookup.
    assert (perf_ok s) as Hok.
    { apply (recording_reachable calls). clear Hstuck Hi. generalize dependent (recording calls).
      intros s0 Hk. induction Hk as [x|k x y z Hxy _ IH]; [apply rtc_refl|].
      eapply rtc_l; [by exists false|exact IH]. }
    destruct (Hok (rec_stage r)) as (c & Hc & _).
    destruct (record_op false r c) as [[c' r']|] eqn:Hop.
    + destruct (Hstuck (<[StageIndex (rec_stage r) := c']> s.1, <[i := r']> s.2)).
      by exists i, r, c, c', r'.
    + destruct r; try done. cbn in Hop. repeat case_match; done.
Qed.

(** ** Concrete runs *)

(** A schedule: which call moves, and whether its exchange fails spuriously. *)
Definition record_next (weak : bool) (i : nat) (s : perf_state) : option perf_state :=
  r ← s.2 !! i;
  c ← s.1 !! StageIndex (rec_stage r);
  x ← record_op weak r c;
  Some (<[StageIndex (rec_stage r) := x.1]> s.1, <[i := x.2]> s.2).

Fixpoint record_run (sch : list (bool * nat)) (s : perf_state) : option perf_state :=
  match sch with
  | [] => Some s
  | (weak, i) :: sch => s' ← record_next weak i s; record_run sch s'
  end.

Lemma record_next_step weak i s s' : record_next weak i s = Some s' → record_step weak s s'.
Proof.
  unfold record_next. intros H. destruct (s.2 !! i) as [r|] eqn:Hr; [|done]. cbn in H.
  destruct (s.1 !! StageIndex (rec_stage r)) as [c|] eqn:Hc; [|done]. cbn in H.
  destruct (record_op weak r c) as [[c' r']|] eqn:Hop; [|done]. injection H as <-.
  by exists i, r, c, c', r'.
Qed.

Lemma record_run_steps sch s s' :
  record_run sch s = Some s' → rtc any_record_step s s'.
Proof.
  revert s. induction sch as [|[weak i] sch IH]; intros s H; cbn in H.
  - injection H as <-. apply rtc_refl.
  - destruct (record_next weak i s) as [s1|] eqn:Hn; [|done]. cbn in H.
    eapply rtc_l; [exists weak; by eapply record_next_step|by apply IH].
Qed.

Lemma record_run_nsteps sch s s' :
  record_run ((λ i, (false, i)) <$> sch) s = Some s' →
  nsteps (record_step false) (length sch) s s'.
Proof.
  revert s. induction sch as [|i sch IH]; intros s H; cbn in H.
  - injection H as <-. constructor.
  - destruct (record_next false i s) as [s1|] eqn:Hn; [|done]. cbn in H.
    econstructor; [by eapply record_next_step|by apply IH].
Qed.

Definition some_calls : list (PerfStage * N) :=
  [(HandleChatTotal, 7); (RedisCreateEval, 5); (HandleChatTotal, 9)].

(** Two calls of one stage meet: the second stores its maximum between the read
    and the exchange of the first, whose retry ends the loop. *)
Definition some_schedule : list nat := [0; 0; 2; 0; 2; 2; 2; 0; 1; 1; 1; 1; 0]%nat.

Definition some_recorded : perf_state :=
  (<[StageIndex HandleChatTotal := {| count := 2; total_us := 16; max_us := 9 |}]>
     (<[StageIndex RedisCreateEval := {| count := 1; total_us := 5; max_us := 5 |}]> g_counters_init),
   (λ x, Recorded x.1 x.2) <$> some_calls).

Lemma some_run :
  record_run ((λ i, (false, i)) <$> some_schedule) (recording some_calls) = Some some_recorded.
Proof. vm_compute. reflexivity. Qed.

Lemma records_add_up_witness :
  some_recorded.1 !! StageIndex HandleChatTotal =
    Some (foldl add_sample zero_counter (snd <$> filter (λ x, x.1 = HandleChatTotal) some_calls)).
Proof.
  apply (records_add_up some_calls some_recorded);
    [exact (record_run_steps _ _ _ some_run)|vm_compute; reflexivity].
Defined.

Lemma recording_terminates_witness :
  (length some_schedule <= 4 * length some_calls * S (length some_calls))%nat ∧
  ((∀ s', ¬ record_step false some_recorded s') → forallb recorded some_recorded.2 = true).
Proof. apply recording_terminates. exact (record_run_nsteps _ _ _ some_run). Defined.

(** ** The log interval *)

Section clock.
Context (clock : nat → N) (clock_lt : ∀ i, clock i < two64).

Definition log_times (w : perf_world) : list N := fst <$> p_log w.

(** What one call does to the time of the last log and to the log. *)
Lemma MaybeLog_run enabled w :
  let w' := (run (perf_exec clock) (MaybeLog enabled) w).1 in
  (p_tick w <= p_tick w')%nat ∧ g_counters w' = g_counters w ∧
  (g_last_log_ms w' = g_last_log_ms w ∧ log_times w' = log_times w ∨
   g_last_log_ms w' = clock (p_tick w) ∧
   kLogIntervalMs ≤ usub64 (clock (p_tick w)) (g_last_log_ms w) ∧
   (log_times w' = log_times w ∨ log_times w' = log_times w ++ [clock (p_tick w)])).
Proof.
  cbv zeta. destruct enabled; cbn; [|auto].
  destruct (_ <? _) eqn:Hlt; cbn; [split; [lia|auto]|].
  apply N.ltb_ge in Hlt. rewrite N.eqb_refl. cbn.
  case_match; cbn; (split; [lia|split; [done|right; split; [done|split; [done|]]]]); [by left|right].
  unfold log_times. cbn. by rewrite fmap_app.
Qed.

(** Later by at least the interval. *)
Definition spaced (a b : N) : Prop := a + kLogIntervalMs ≤ b.

Definition interval_inv (w : perf_world) : Prop :=
  StronglySorted spaced (log_times w) ∧ Forall (λ t, t ≤ g_last_log_ms w) (log_times w) ∧
  g_last_log_ms w ≤ clock (p_tick w).

Lemma interval_inv_step (clock_mono : ∀ i j, (i <= j)%nat → clock i ≤ clock j) enabled w :
  interval_inv w → interval_inv (run (perf_exec clock) (MaybeLog enabled) w).1.
Proof.
  intros (Hsp & Hle & Hlast). destruct (MaybeLog_run enabled w) as (Htick & _ & Hcase).
  pose proof (clock_mono _ _ Htick) as Hc. unfold interval_inv.
  destruct Hcase as [[-> ->]|(-> & Hge & Ht)]; [repeat split; try done; lia|].
  rewrite usub64_le in Hge by done. unfold kLogIntervalMs in *.
  assert (Forall (λ t, t ≤ clock (p_tick w)) (log_times w)) as Hle'.
  { eapply Forall_impl; [exact Hle|]. intros t Hlt. cbn in *. lia. }
  destruct Ht as [-> | ->]; [done|]. split; [|split; [|done]].
  - apply StronglySorted_app_2; [|done|repeat constructor].
    intros a b Ha ->%list_elem_of_singleton. rewrite Forall_forall in Hle.
    specialize (Hle a Ha). unfold spaced, kLogIntervalMs. cbn in Hle. lia.
  - apply Forall_app. split; [done|]. by constructor.
Qed.
End clock.

(** Statistics are logged at most once per interval.  Calls of [MaybeLog]
    one after the other, under a clock that does not go back, write log lines
    that are at least [kLogIntervalMs] milliseconds apart. *)
Theorem log_interval clock w n enabled :
  (∀ i, clock i < two64) → (∀ i j, (i <= j)%nat → clock i ≤ clock j) →
  p_log w = [] → g_last_log_ms w ≤ clock (p_tick w) →
  StronglySorted (λ a b, a + 1000 ≤ b)
    (log_times (run (perf_exec clock) (for_each (seq 0 n) (λ _, MaybeLog enabled)) w).1).
Proof.
  intros Hlt Hmono Hlog Hlast.
  enough (interval_inv clock (run (perf_exec clock) (for_each (seq 0 n) (λ _, MaybeLog enabled)) w).1)
    as [H _]; [exact H|].
  apply run_for_each_inv.
  - intros _ s _. by apply interval_inv_step.
  - unfold interval_inv, log_times. rewrite Hlog. repeat split; [constructor..|done].
Qed.

Definition logged_world : perf_world :=
  {| g_counters := some_recorded.1; g_last_log_ms := 0; p_log := []; p_tick := 0 |}.

Lemma log_interval_witness :
  log_times (run (perf_exec (λ i, N.min (700 * N.of_nat i) (two64 - 1)))
    (for_each (seq 0 5) (λ _, MaybeLog true)) logged_world).1 = [1400; 29400; 57400; 85400] ∧
  StronglySorted (λ a b, a + 1000 ≤ b)
    (log_times (run (perf_exec (λ i, N.min (700 * N.of_nat i) (two64 - 1)))
      (for_each (seq 0 5) (λ _, MaybeLog true)) logged_world).1).
Proof.
  split; [vm_compute; reflexivity|].
  apply (log_interval (λ i, N.min (700 * N.of_nat i) (two64 - 1)) logged_world 5 true);
    [intros i; unfold two64; lia|intros i j Hij; lia|reflexivity|vm_compute; discriminate].
Defined.

(** Two threads in [MaybeLog]; the clock reads 2000 for the first and 3500 for
    the second. *)
Definition two_clock (i : nat) : N := match i with 0%nat => 2000 | _ => 3500 end.

Definition racing_world : perf_world :=
  {| g_counters := some_recorded.1; g_last_log_ms := 0; p_log := []; p_tick := 0 |}.

(** Two threads can both log in one interval, and the time of the last log
    goes back.  The first reads the clock (2000 ms); the second reads it later
    (3500 ms), logs and stores its reading; the first then computes
    [2000 - 3500] in unsigned arithmetic, takes the result for a long wait,
    logs too and stores 2000. *)
Theorem log_clock_can_go_back :
  ∃ w ts, run_schedule (perf_exec two_clock) ([0] ++ replicate 40 1 ++ replicate 39 0)%nat
      (racing_world, [MaybeLog true; MaybeLog true]) = Some (w, ts) ∧
    ts = [Ret tt; Ret tt] ∧ log_times w = [3500; 2000] ∧ g_last_log_ms w = 2000.
Proof. eexists _, _. split; [vm_compute; reflexivity|]. repeat split. Qed.
