(* ===== verification/WireTypes.v ===== *)
(** * The types of what is sent

    Server and client follow a typed protocol: the server only writes login
    responses, pushes and acknowledgements, the client only login requests,
    chat requests and acknowledgements, each with the payload its type
    announces, in every interleaving of their threads and whatever they
    receive. *)

From S2P Require Import Prelude Decimal Message WireInstance Codec UserState Prog Redis RedisInstance.
From S2P Require Import Scripts Sys MessageStore StoreSpec StoreRefine Dispatcher Client ClientSafety.
From S2P Require Import ServerExamples EndToEnd.
Local Open Scope N_scope.

(** ** Types *)

(** What the server, and what the client, may send. *)
Definition server_sends (e : Envelope) : bool :=
  match env_type e, env_payload e with
  | LOGIN_RESP, kLoginResp _ | CHAT_PUSH, kChatPush _ | ACK, kAck _ => true
  | _, _ => false
  end.
Definition client_sends (e : Envelope) : bool :=
  match env_type e, env_payload e with
  | LOGIN_REQ, kLoginReq _ | CHAT_REQ, kChatReq _ | ACK, kAck _ => true
  | _, _ => false
  end.

Create HintDb typed.

Section server.
Context {R : Redis} {P : Protobuf}.

Definition server_op (X : Type) (e : sysE X) : Prop :=
  match e with
  | ConnSend c frame => ∃ e, server_sends e = true ∧ frame = Encode e
  | _ => True
  end.

Definition any_answer (E : Type → Type) (X : Type) (e : E X) : X → Prop := λ _, True.

Local Abbreviation typed := (all_ops server_op (any_answer sysE)).

Lemma typed_bind {A B} (p : sys A) (f : A → sys B) : typed p → (∀ x, typed (f x)) → typed (p ≫= f).
Proof. apply all_ops_bind. Qed.

Lemma typed_send c e : server_sends e = true → typed (Dispatcher.sendEnvelope c e).
Proof. intros He. unfold Dispatcher.sendEnvelope. case_decide; [done|]. split; [by exists e|done]. Qed.

(** Follow a program through its structure. *)
Ltac follow :=
  repeat first
    [ done | by apply typed_send | solve [auto 1 with typed]
    | apply typed_bind; [|intros ?] | apply all_ops_for_each; intros ?
    | apply all_ops_collect; intros ? | case_match ].

Lemma typed_ack c seq id ok reason : typed (sendAck c seq id ok reason).
Proof. unfold sendAck. follow. Qed.
#[local] Hint Resolve typed_ack : typed.

Lemma typed_push c r history : typed (sendPush c r history).
Proof. unfold sendPush. follow. Qed.
#[local] Hint Resolve typed_push : typed.

Lemma typed_fetch keep reply : typed (fetch_entries keep reply).
Proof. unfold fetch_entries, fetch_entry, FetchRecord. follow. Qed.
#[local] Hint Resolve typed_fetch : typed.

Lemma typed_try r : typed (tryDeliverMessage r).
Proof.
  unfold tryDeliverMessage, online_target, markPending, markDelivered, EvalMsgStateScript.
  follow.
Qed.
#[local] Hint Resolve typed_try : typed.

Lemma typed_retry r : typed (retryDeliverMessage r).
Proof.
  unfold retryDeliverMessage, online_target, markPending, markDelivered, incrementRetryCount,
    EvalMsgStateScript.
  follow.
Qed.
#[local] Hint Resolve typed_retry : typed.

Lemma typed_login_messages u : typed (deliverLoginMessages u).
Proof.
  unfold deliverLoginMessages, deliverPendingMessages, sendRecentMessages, getPendingMessages,
    getRecentMessages, online_target.
  follow.
Qed.
#[local] Hint Resolve typed_login_messages : typed.

Lemma typed_handle ev : typed (handle ev).
Proof.
  unfold handle, handleLogin, handleChat, Dispatcher.handleAck, sendErrorAck, createMessage, markAcked,
    EvalCreateMessage, EvalMarkAckedScript.
  follow.
Qed.

Lemma typed_loop scans : typed (deliveryLoop scans).
Proof.
  induction scans as [|n IH]; [done|]. apply typed_bind; [|done].
  unfold delivery_scan, getTimeoutDeliveredMessages, deliver_overdue, markFailed, EvalMsgStateScript.
  follow.
Qed.

(** Every frame sent is one of the server's. *)
Definition outputs_typed (w : world) : Prop :=
  ∀ c frame, Sent c frame ∈ w_out w → ∃ e, server_sends e = true ∧ frame = Encode e.

Lemma exec_typed env X (e : sysE X) w :
  server_op X e → outputs_typed w → outputs_typed (exec env X e w).1.
Proof.
  intros He Hw. assert (∀ w', w_out w' = w_out w → outputs_typed w') as Hsame.
  { intros w' Hw'. unfold outputs_typed. by rewrite Hw'. }
  destruct e; cbn; unfold redis_request; repeat case_match; try by apply Hsame.
  - intros c' f [H|H%list_elem_of_singleton]%elem_of_app; [by eapply Hw|].
    injection H as -> ->. exact He.
  - intros c' f [H|H%list_elem_of_singleton]%elem_of_app; [by eapply Hw|done].
Qed.
End server.

(** ** The client *)

Section client.
Context {P : Protobuf}.

Definition typed_op (X : Type) (e : clientE X) : Prop :=
  match e with
  | CSend frame => ∃ e, client_sends e = true ∧ frame = Encode e
  | CRegister _ e => client_sends e = true
  | _ => True
  end.

Definition typed_answer (X : Type) (e : clientE X) : X → Prop :=
  match e in clientE X return X → Prop with
  | CScan _ => λ es, ∀ e, e ∈ es → client_sends e = true
  | _ => λ _, True
  end.

Local Abbreviation ctyped := (all_ops typed_op typed_answer).

Lemma ctyped_bind {A B} (p : cli A) (f : A → cli B) : ctyped p → (∀ x, ctyped (f x)) → ctyped (p ≫= f).
Proof. apply all_ops_bind. Qed.

Lemma ctyped_send e : client_sends e = true → ctyped (Client.sendEnvelope e).
Proof. intros He. unfold Client.sendEnvelope. case_decide; [done|]. split; [by exists e|done]. Qed.

Ltac cfollow :=
  repeat first
    [ done | by apply ctyped_send | solve [auto 1 with typed]
    | apply ctyped_bind; [|intros ?] | apply all_ops_for_each; intros ? | case_match ].

Lemma ctyped_handle e : ctyped (handleEnvelope e).
Proof.
  unfold handleEnvelope, Client.handleAck, handleChatPush, handleLoginResponse, now_ms. cfollow.
Qed.
#[local] Hint Resolve ctyped_handle : typed.

Lemma ctyped_receiver turns b : ctyped (receiverLoop turns b).
Proof.
  revert b. induction turns as [|turns IH]; intros b; [done|]. cbn [receiverLoop].
  unfold receive, failPendingLogin. cfollow.
Qed.

Lemma ctyped_resend es : (∀ e, e ∈ es → client_sends e = true) → ctyped (resend es).
Proof.
  induction es as [|e es IH]; intros Hes; [done|]. cbn [resend].
  apply ctyped_bind; [done|]. intros [|]; [done|].
  apply ctyped_bind; [apply ctyped_send, Hes; left|]. intros [|]; [|done].
  apply IH. intros e' He'. apply Hes. by right.
Qed.

Lemma ctyped_retry turns : ctyped (retryLoop turns).
Proof.
  induction turns as [|turns IH]; [done|]. cbn [retryLoop].
  apply ctyped_bind; [done|]. intros [|]; [done|]. apply ctyped_bind; [done|]. intros now.
  split; [done|]. intros es Hes. apply (ctyped_bind (resend es)); [by apply ctyped_resend|].
  by intros [|].
Qed.

Lemma ctyped_thread uid p : client_thread uid p → ctyped p.
Proof.
  intros [[calls ->]|[[turns ->]|[turns ->]]]; [|apply ctyped_receiver|apply ctyped_retry].
  apply all_ops_for_each. intros [|to msg|]; cbn [do_call];
    unfold startClient, sendMessage, submit_request, stopClient, now_ms; cfollow.
Qed.

Definition client_typed (n : nat) (c : Client) : Prop :=
  (∀ seq p, pending_acks c !! seq = Some p → client_sends (pa_envelope p) = true) ∧
  ∀ x, x ∈ wire c → ∃ e, client_sends e = true ∧ prefix x (Encode e).

Lemma client_exec_typed env n c X (e : clientE X) :
  client_typed (S n) c → typed_op X e →
  client_typed n (client_exec env X e c).1 ∧ typed_answer X e (client_exec env X e c).2.
Proof.
  intros [Hp Hw] He.
  assert (∀ c', pending_acks c' = pending_acks c → wire c' = wire c → client_typed n c') as Hsame.
  { intros c' Hp' Hw'. split; by rewrite ?Hp', ?Hw'. }
  destruct e; try by (split; [apply Hsame; cbn; repeat case_match|]).
  - split; [|done]. split; [by intros seq p Hl|exact Hw].
  - split; [|done]. split; [|exact Hw]. cbn.
    intros seq' p [[_ <-]|[_ Hl]]%lookup_insert_Some; [exact He|by eapply Hp].
  - split; [|done]. split; [|exact Hw]. cbn. intros seq' p [_ Hl]%lookup_delete_Some. by eapply Hp.
  - split.
    + split.
      * intros seq p. rewrite scan_lookup. destruct (pending_acks c !! seq) as [q|] eqn:Hl; [|done].
        cbn. unfold scan_entry. intros H. specialize (Hp _ _ Hl).
        repeat case_match; cbn in H; simplify_eq; exact Hp.
      * cbn. by destruct (scan_loop _ _ _).
    + intros e (seq & q & Hl & <- & _)%scan_out_pending. by eapply Hp.
  - destruct He as (e & He & ->). split; [|done].
    cbn. pose proof (sendAll_prefix (ce_send env (c_tick c)) (Encode e)) as Hpre.
    destruct (sendAll _ _) as [written ok]. split; [exact Hp|]. cbn.
    intros x [Hx|Hx%list_elem_of_singleton]%elem_of_app; [by apply Hw|subst x; by exists e].
Qed.
End client.

(** C21. The protocol is typed.  Whatever clients send and however the threads of
    the server interleave, every frame it writes is that of a login response, a
    push or an acknowledgement with the payload its type announces; whatever a
    server sends and however the threads of a client interleave, everything it
    writes is (a beginning of) the frame of a login request, a chat request or
    an acknowledgement with its payload. *)
Theorem protocol_typed `{Redis} `{Protobuf} :
  (∀ env n w ts w' ts', w_out w = [] →
    Forall (λ p, (∃ evs, p = for_each evs handle) ∨ ∃ scans, p = deliveryLoop scans) ts →
    nsteps (tstep (exec env)) n (w, ts) (w', ts') →
    ∀ c frame, Sent c frame ∈ w_out w' → ∃ e, server_sends e = true ∧ frame = Encode e) ∧
  (∀ env uid n c ts c' ts', no_requests c → Forall (client_thread uid) ts →
    nsteps (tstep (client_exec env)) n (c, ts) (c', ts') →
    ∀ x, x ∈ wire c' → ∃ e, client_sends e = true ∧ prefix x (Encode e)).
Proof.
  split.
  - intros env n w ts w' ts' Hw Hts Hn.
    destruct (tsteps_invariant (exec env) (λ _, outputs_typed) server_op (any_answer sysE)
      (λ k s X e Hs He, conj (exec_typed env X e s He Hs) I) n w ts w' ts' 0 Hn) as [Hout _].
    + eapply Forall_impl; [exact Hts|]. intros p [[evs ->]|[scans ->]]; [|apply typed_loop].
      apply all_ops_for_each. apply typed_handle.
    + unfold outputs_typed. rewrite Hw. by intros c f ?%not_elem_of_nil.
    + exact Hout.
  - intros env uid n c ts c' ts' (_ & Hp & Hw) Hts Hn.
    destruct (tsteps_invariant (client_exec env) client_typed typed_op typed_answer
      (λ k s X e Hs He, client_exec_typed env k s X e Hs He) n c ts c' ts' 0 Hn) as [[_ Hout] _].
    + eapply Forall_impl; [exact Hts|]. intros p. apply ctyped_thread.
    + split; [by rewrite Hp|]. rewrite Hw. by intros x ?%not_elem_of_nil.
    + exact Hout.
Qed.

(** A request handled to its end on the server, and the threads of a client. *)
Definition typed_run : option (world * list (sys unit)) :=
  run_schedule (exec (example_env 1000 [])) (replicate 11 0%nat) (w0, [for_each [hello] handle; deliveryLoop 1]).

Definition typed_final : world * list (sys unit) := default (w0, []) typed_run.

Lemma typed_final_run : typed_run = Some typed_final.
Proof.
  assert ((if typed_run is Some _ then true else false) = true) as H by (vm_compute; reflexivity).
  unfold typed_final. by destruct typed_run.
Qed.

Lemma protocol_typed_witness :
  length (w_out typed_final.1) = 2%nat ∧
  (∀ c frame, Sent c frame ∈ w_out typed_final.1 → ∃ e, server_sends e = true ∧ frame = Encode e) ∧
  length (wire client_final.1) = 3%nat ∧
  (∀ x, x ∈ wire client_final.1 → ∃ e, client_sends e = true ∧ prefix x (Encode e)).
Proof.
  split; [vm_compute; reflexivity|]. split; [|split; [vm_compute; reflexivity|]].
  - refine (proj1 (protocol_typed (H := ref_redis)) (example_env 1000 []) 11%nat w0
      [for_each [hello] handle; deliveryLoop 1] typed_final.1 typed_final.2 eq_refl _ _).
    + apply Forall_cons_2; [left; by exists [hello]|]. apply Forall_singleton. right. by exists 1%nat.
    + rewrite <-surjective_pairing. exact (run_schedule_steps _ _ _ _ typed_final_run).
  - refine (proj2 (protocol_typed (H := ref_redis)) ticking 1 (length client_schedule) ready_client
      client_threads client_final.1 client_final.2 _ _ _).
    + split_and!; vm_compute; reflexivity.
    + apply Forall_cons. split; [left; by eexists|]. apply Forall_cons. split; [left; by eexists|].
      apply Forall_singleton. right. right. by exists 2%nat.
    + rewrite <-surjective_pairing. exact client_final_steps.
Defined.
