(* ===== verification/Stress.v ===== *)
(** * The stress driver (client/main_client.cpp)

    The program that opens a ring of clients, has each send to the next, polls
    their counters until a deadline and reports by its exit code.  The clients
    are those of the file Client; they share the static counters of
    [sendMessage].  Printing, the durations it prints and the pause
    before the sends are left out. *)

From S2P Require Import Prelude Decimal Message Codec Prog Client.
Local Open Scope Z_scope.

(** ** Arguments *)

(** [std::atoi] of the C library: [strtol] converted to [int]. *)
Definition atoi (text : string) : Z := int32 (strtol text).1.

Definition ParsePositiveInt (value : option string) (fallback : Z) : Z :=
  match value with
  | None => fallback
  | Some value => let parsed := atoi value in if 0 <? parsed then parsed else fallback
  end.

(** [args]: [argv[1]] and what follows. *)
Record arguments := {
  arg_clients : Z; arg_messages : Z; arg_verbose : bool; arg_timeout : Z }.

Definition main_arguments (args : list string) : arguments :=
  let argc := S (length args) in
  {| arg_clients := if (1 <? argc)%nat then ParsePositiveInt (args !! 0%nat) 8 else 8;
     arg_messages := if (2 <? argc)%nat then ParsePositiveInt (args !! 1%nat) 100 else 100;
     arg_verbose := (3 <? argc)%nat && bool_decide (c_str <$> args !! 2%nat = Some "verbose");
     arg_timeout := if (4 <? argc)%nat then ParsePositiveInt (args !! 3%nat) 30 else 30 |}.

(** ** The ring *)

Definition ClientUid (index : Z) : N := int_to_u64 (1000 + index).

Definition receiver_index (client_count i : Z) : Z := (i + 1) `rem` client_count.

(** The product of two [int]s; the overflow, which C++ leaves undefined, wraps. *)
Definition total_messages (client_count messages_per_client : Z) : Z :=
  int32 (client_count * messages_per_client).

Definition stress_text (sender_uid receiver_uid : N) (n : nat) : string :=
  "stress message sender=" +:+ to_string sender_uid +:+ " receiver=" +:+ to_string receiver_uid
    +:+ " index=" +:+ to_string (N.of_nat n).

(** ** Closing in groups *)

Definition kCloseGroupSize : nat := 10.

(** The pairs [begin, end] of the workers; every turn adds a group, so [size]
    turns are enough. *)
Fixpoint close_groups (fuel size begin : nat) : list (nat * nat) :=
  match fuel with
  | O => []
  | S fuel =>
      if (begin <? size)%nat then
        let end_ := (begin + kCloseGroupSize)%nat in
        (begin, if (size <? end_)%nat then size else end_)
          :: close_groups fuel size (begin + kCloseGroupSize)
      else []
  end.

(** ** State

    [sw_main] holds the variables of the main thread: whether the clients were
    started, the counts of the last poll, whether the wait was left, and the
    times read.  A time that is set together with a flag is an option. *)
Record main_locals := {
  started : option bool; started_at : N; send_finished_at : N; client_acks : Z; client_pushes : Z;
  ack_completed_at : option N; push_completed_at : option N; waited : bool;
  finished_at : N; client_login_resps : Z }.

Record stress_world := {
  sw_clients : list Client; sw_statics : Statics; send_ok : Z; send_failed : Z;
  sw_main : main_locals; sw_slept : N; sw_tick : nat }.

Definition new_locals : main_locals :=
  {| started := None; started_at := 0; send_finished_at := 0; client_acks := 0; client_pushes := 0;
     ack_completed_at := None; push_completed_at := None; waited := false;
     finished_at := 0; client_login_resps := 0 |}.

(** Its assignments. *)
Definition set_started (ok : bool) (m : main_locals) : main_locals :=
  Build_main_locals (Some ok) (started_at m) (send_finished_at m) (client_acks m) (client_pushes m)
    (ack_completed_at m) (push_completed_at m) (waited m) (finished_at m) (client_login_resps m).
Definition set_started_at (now : N) (m : main_locals) : main_locals :=
  Build_main_locals (started m) now (send_finished_at m) (client_acks m) (client_pushes m)
    (ack_completed_at m) (push_completed_at m) (waited m) (finished_at m) (client_login_resps m).
Definition set_send_finished (now : N) (m : main_locals) : main_locals :=
  Build_main_locals (started m) (started_at m) now 0 0 None None false
    (finished_at m) (client_login_resps m).
Definition completed (total count : Z) (now : N) (at_ : option N) : option N :=
  match at_ with
  | None => if total <=? count then Some now else None
  | Some _ => at_
  end.
Definition set_polled (total acks pushes : Z) (now : N) (m : main_locals) : main_locals :=
  Build_main_locals (started m) (started_at m) (send_finished_at m) acks pushes
    (completed total acks now (ack_completed_at m)) (completed total pushes now (push_completed_at m))
    (waited m) (finished_at m) (client_login_resps m).
Definition set_waited (m : main_locals) : main_locals :=
  Build_main_locals (started m) (started_at m) (send_finished_at m) (client_acks m) (client_pushes m)
    (ack_completed_at m) (push_completed_at m) true (finished_at m) (client_login_resps m).
Definition set_finished (now : N) (logins : Z) (m : main_locals) : main_locals :=
  Build_main_locals (started m) (started_at m) (send_finished_at m) (client_acks m) (client_pushes m)
    (ack_completed_at m) (push_completed_at m) (waited m) now logins.

Definition new_stress : stress_world :=
  {| sw_clients := []; sw_statics := c_statics new_Client; send_ok := 0; send_failed := 0;
     sw_main := new_locals; sw_slept := 0; sw_tick := 0 |}.

(** ** Operations *)

Inductive stressE : Type → Type :=
  | SClient {X} (i : nat) (e : clientE X) : stressE X
  | SNewClient : stressE unit
  | SAckCount (i : nat) : stressE Z
  | SLoginCount (i : nat) : stressE Z
  | SPushCount (i : nat) : stressE Z
  | SSendOk : stressE unit
  | SSendFailed : stressE unit
  | SNow : stressE N
  | SSleep (ns : N) : stressE unit
  | SMain (assign : main_locals → main_locals) : stressE unit.

(** The outside: that of every client, and the time in nanoseconds that has
    passed while the program was not sleeping. *)
Record stress_env := { se_client : nat → client_env; se_clock : nat → N }.

Definition with_statics (n : Statics) (c : Client) : Client :=
  Build_Client (c_threads c) (message_queue c) (pending_acks c) (c_login c) (c_counts c) (c_stop c)
    n (wire c) (issued c) (heard c) (c_tick c).

Definition client_of (w : stress_world) (i : nat) : Client :=
  with_statics (sw_statics w) (default new_Client (sw_clients w !! i)).

Definition sw_step (w : stress_world) (f : stress_world → stress_world) : stress_world :=
  f {| sw_clients := sw_clients w; sw_statics := sw_statics w; send_ok := send_ok w;
       send_failed := send_failed w; sw_main := sw_main w; sw_slept := sw_slept w;
       sw_tick := S (sw_tick w) |}.

Definition set_clients (cs : list Client) (n : Statics) (w : stress_world) : stress_world :=
  {| sw_clients := cs; sw_statics := n; send_ok := send_ok w; send_failed := send_failed w;
     sw_main := sw_main w; sw_slept := sw_slept w; sw_tick := sw_tick w |}.
Definition set_sends (ok failed : Z) (w : stress_world) : stress_world :=
  {| sw_clients := sw_clients w; sw_statics := sw_statics w; send_ok := ok; send_failed := failed;
     sw_main := sw_main w; sw_slept := sw_slept w; sw_tick := sw_tick w |}.
Definition set_main (m : main_locals) (w : stress_world) : stress_world :=
  {| sw_clients := sw_clients w; sw_statics := sw_statics w; send_ok := send_ok w;
     send_failed := send_failed w; sw_main := m; sw_slept := sw_slept w; sw_tick := sw_tick w |}.
Definition add_sleep (ns : N) (w : stress_world) : stress_world :=
  {| sw_clients := sw_clients w; sw_statics := sw_statics w; send_ok := send_ok w;
     send_failed := send_failed w; sw_main := sw_main w; sw_slept := (sw_slept w + ns)%N;
     sw_tick := sw_tick w |}.

(** The getters of [Client], each one load or one critical section. *)
Definition getMessage (c : Client) : list Envelope := message_queue c.
Definition getAckCount (c : Client) : Z := ack_count (c_counts c).
Definition getLoginResponseCount (c : Client) : Z := login_resp_count (c_counts c).
Definition getChatPushCount (c : Client) : Z := chat_push_count (c_counts c).

Definition sw_now (env : stress_env) (w : stress_world) : N := (se_clock env (sw_tick w) + sw_slept w)%N.

Definition stress_exec (env : stress_env) (X : Type) (e : stressE X) (w : stress_world)
    : stress_world * X :=
  match e in stressE X return stress_world * X with
  | @SClient X i e =>
      let (c, x) := client_exec (se_client env i) X e (client_of w i) in
      (sw_step w (set_clients (<[i := c]> (sw_clients w)) (c_statics c)), x)
  | SNewClient => (sw_step w (set_clients (sw_clients w ++ [new_Client]) (sw_statics w)), tt)
  | SAckCount i => (sw_step w id, getAckCount (client_of w i))
  | SLoginCount i => (sw_step w id, getLoginResponseCount (client_of w i))
  | SPushCount i => (sw_step w id, getChatPushCount (client_of w i))
  | SSendOk => (sw_step w (set_sends (int32 (send_ok w + 1)) (send_failed w)), tt)
  | SSendFailed => (sw_step w (set_sends (send_ok w) (int32 (send_failed w + 1))), tt)
  | SNow => (sw_step w id, sw_now env w)
  | SSleep ns => (sw_step w (add_sleep ns), tt)
  | SMain assign => (sw_step w (set_main (assign (sw_main w))), tt)
  end.

Abbreviation stress := (prog stressE).

(** A program of client [i]. *)
Fixpoint on_client {A} (i : nat) (p : cli A) : stress A :=
  match p with
  | Ret a => Ret a
  | Do e k => Do (SClient i e) (λ x, on_client i (k x))
  end.

Definition CountByType (messages : list Envelope) (type : MessageType) : Z :=
  foldl (λ count envelope, if decide (env_type envelope = type) then int32 (count + 1) else count)
    0 messages.

Fixpoint total_of (get : nat → stressE Z) (clients : list nat) (total : Z) : stress Z :=
  match clients with
  | [] => mret total
  | i :: clients => n ← trigger (get i); total_of get clients (int32 (total + n))
  end.

Definition TotalClientAcks (clients : list nat) : stress Z := total_of SAckCount clients 0.
Definition TotalClientLoginResponses (clients : list nat) : stress Z := total_of SLoginCount clients 0.
Definition TotalClientChatPushes (clients : list nat) : stress Z := total_of SPushCount clients 0.

Section stress.
Context {P : Protobuf}.

(** ** The threads of the driver *)

Fixpoint start_clients (clients : list nat) : stress bool :=
  match clients with
  | [] => mret true
  | i :: clients =>
      _ ← trigger SNewClient;
      let uid := ClientUid (Z.of_nat i) in
      ok ← on_client i (startClient uid);
      if negb ok then _ ← on_client i stopClient; mret false
      else start_clients clients
  end.

Definition start_all (client_count : nat) : stress unit :=
  ok ← start_clients (seq 0 client_count);
  _ ← trigger (SMain (set_started ok));
  if (ok : bool) then
    _ ← trigger (SSleep 300000000);
    now ← trigger SNow;
    trigger (SMain (set_started_at now))
  else mret tt.

Definition send_one (i : nat) (sender_uid receiver_uid : N) (n : nat) : stress unit :=
  ok ← on_client i (sendMessage sender_uid receiver_uid (stress_text sender_uid receiver_uid n));
  if (ok : bool) then trigger SSendOk else trigger SSendFailed.

Definition sender (client_count : Z) (messages_per_client i : nat) : stress unit :=
  let sender_uid := ClientUid (Z.of_nat i) in
  let receiver_uid := ClientUid (receiver_index client_count (Z.of_nat i)) in
  for_each (seq 0 messages_per_client) (send_one i sender_uid receiver_uid).

Definition senders (client_count messages_per_client : Z) : list (stress unit) :=
  sender client_count (Z.to_nat messages_per_client) <$> seq 0 (Z.to_nat client_count).

(** The wait, for at most [turns] turns. *)
Fixpoint wait_loop (clients : list nat) (total wait_timeout_seconds : Z) (wait_started_at : N) (turns : nat)
    : stress unit :=
  match turns with
  | O => mret tt
  | S turns =>
      acks ← TotalClientAcks clients;
      pushes ← TotalClientChatPushes clients;
      now ← trigger SNow;
      _ ← trigger (SMain (set_polled total acks pushes now));
      let waited_seconds := int32 (Z.of_N ((now - wait_started_at) / 1000000000)) in
      if wait_timeout_seconds <=? waited_seconds then trigger (SMain set_waited)
      else
        _ ← trigger (SSleep 100000000);
        wait_loop clients total wait_timeout_seconds wait_started_at turns
  end.

Definition wait_all (clients : list nat) (total wait_timeout_seconds : Z) (turns : nat) : stress unit :=
  send_finished ← trigger SNow;
  _ ← trigger (SMain (set_send_finished send_finished));
  wait_started_at ← trigger SNow;
  _ ← wait_loop clients total wait_timeout_seconds wait_started_at turns;
  finished ← trigger SNow;
  logins ← TotalClientLoginResponses clients;
  trigger (SMain (set_finished finished logins)).

Definition close_worker (group : nat * nat) : stress unit :=
  for_each (seq group.1 (group.2 - group.1)) (λ i, on_client i stopClient).

Definition StopClientsConcurrently (size : nat) : list (stress unit) :=
  close_worker <$> close_groups size size 0.

Definition exit_code (total : Z) (w : stress_world) : Z :=
  if (send_failed w =? 0) && (total <=? client_acks (sw_main w)) && (total <=? client_pushes (sw_main w))
  then 0 else 1.

(** ** The summary

    A duration is in whole milliseconds, printed over 1000; a throughput is
    the quotient of two integers, printed when the divisor is positive. *)
Definition elapsed_ms (from to : N) : Z := (Z.of_N to - Z.of_N from) `quot` 1000000.

Definition ack_elapsed_ms (m : main_locals) : Z :=
  elapsed_ms (started_at m) (default (finished_at m) (ack_completed_at m)).
Definition push_elapsed_ms (m : main_locals) : Z :=
  elapsed_ms (started_at m) (default (finished_at m) (push_completed_at m)).
Definition send_elapsed_ms (m : main_locals) : Z := elapsed_ms (started_at m) (send_finished_at m).
Definition total_elapsed_ms (m : main_locals) : Z := elapsed_ms (started_at m) (finished_at m).

Definition throughput (name : string) (count ms : Z) : list (string * (Z + Z * Z)) :=
  if 0 <? ms then [(name, inr (count * 1000, ms))] else [].

Definition stress_summary (w : stress_world) : list (string * (Z + Z * Z)) :=
  let m := sw_main w in
  [("send_elapsed_seconds", inr (send_elapsed_ms m, 1000));
   ("ack_elapsed_seconds", inr (ack_elapsed_ms m, 1000));
   ("push_elapsed_seconds", inr (push_elapsed_ms m, 1000));
   ("total_elapsed_seconds", inr (total_elapsed_ms m, 1000));
   ("send_ok", inl (send_ok w)); ("send_failed", inl (send_failed w));
   ("client_login_resps", inl (client_login_resps m)); ("client_chat_pushes", inl (client_pushes m));
   ("client_acks", inl (client_acks m))]
  ++ throughput "client_write_throughput" (send_ok w) (send_elapsed_ms m)
  ++ throughput "server_ack_throughput" (client_acks m) (ack_elapsed_ms m)
  ++ throughput "client_push_throughput" (client_pushes m) (push_elapsed_ms m).

(** ** The main thread

    It forks threads and joins them: a phase runs the forked threads to their
    end, among the other threads [s.2] (those of the clients). *)
Definition phase (env : stress_env) (ps : list (stress unit)) (s s' : stress_world * list (stress unit))
    : Prop :=
  ∃ qs, rtc (tstep (stress_exec env)) (s.1, ps ++ s.2) (s'.1, qs ++ s'.2) ∧
    length qs = length ps ∧ Forall (λ q, q = Ret tt) qs.

Inductive RunStressTest (env : stress_env) (client_count messages_per_client timeout : Z) :
    stress_world * list (stress unit) → stress_world * list (stress unit) → Z → Prop :=
  | stress_not_started s s1 s2 :
      phase env [start_all (Z.to_nat client_count)] s s1 →
      started (sw_main s1.1) = Some false →
      phase env (StopClientsConcurrently (pred (length (sw_clients s1.1)))) s1 s2 →
      RunStressTest env client_count messages_per_client timeout s s2 1
  | stress_finished turns s s1 s2 s3 s4 :
      phase env [start_all (Z.to_nat client_count)] s s1 →
      started (sw_main s1.1) = Some true →
      phase env (senders client_count messages_per_client) s1 s2 →
      phase env [wait_all (seq 0 (Z.to_nat client_count)) (total_messages client_count messages_per_client)
                   timeout turns] s2 s3 →
      waited (sw_main s3.1) = true →
      phase env (StopClientsConcurrently (Z.to_nat client_count)) s3 s4 →
      RunStressTest env client_count messages_per_client timeout s s4
        (exit_code (total_messages client_count messages_per_client) s4.1).

Definition main (env : stress_env) (args : list string) :=
  let a := main_arguments args in
  RunStressTest env (arg_clients a) (arg_messages a) (arg_timeout a).
End stress.
