(* ===== verification/StressFacts.v ===== *)
(** * What the stress driver shows

    Its exit code says that every send was accepted; its closing groups cover
    the clients; its wait ends at the deadline; and its count of expected
    messages overflows for large arguments. *)

From S2P Require Import Prelude Decimal Message WireInstance Codec Prog Client Stress.
Local Open Scope Z_scope.

(** ** Counting what a program does *)

Definition counts {X} (e : stressE X) : bool :=
  match e with SSendOk | SSendFailed => true | _ => false end.

(** The program counts exactly [k] sends, whatever the answers. *)
Fixpoint owes {A} (k : nat) (p : stress A) : Prop :=
  match p with
  | Ret _ => k = 0%nat
  | Do e f => if counts e then ∃ k', k = S k' ∧ ∀ x, owes k' (f x) else ∀ x, owes k (f x)
  end.

Lemma owes_bind {A B} a b (p : stress A) (f : A → stress B) :
  owes a p → (∀ x, owes b (f x)) → owes (a + b) (bind p f).
Proof.
  intros Hp Hf. revert a Hp. induction p as [x|X e k IH]; intros a Hp; cbn in *.
  - subst. apply Hf.
  - destruct (counts e); [|intros x; by apply IH].
    destruct Hp as (k' & -> & Hk). exists (k' + b)%nat. split; [done|]. intros x. by apply IH.
Qed.

Lemma owes_op {X} (e : stressE X) : counts e = false → owes 0 (trigger e).
Proof. intros He. cbn. by rewrite He. Qed.

Lemma owes_on_client {A} i (p : cli A) : owes 0 (on_client i p).
Proof. induction p as [x|X e k IH]; cbn; [done|]. intros x. apply IH. Qed.

Lemma owes_for_each {A} k n (l : list A) body :
  n = (length l * k)%nat → (∀ x, owes k (body x)) → owes n (for_each l body).
Proof. intros -> Hb. induction l as [|x l IH]; cbn; [done|]. by apply owes_bind. Qed.

Lemma owes_total get (cs : list nat) n :
  (∀ i, counts (get i) = false) → owes 0 (total_of get cs n).
Proof.
  intros Hg. revert n. induction cs as [|i cs IH]; intros n; cbn; [done|].
  rewrite Hg. intros x. apply IH.
Qed.

Lemma owes_ret {A} (x : A) : owes 0 (mret x).
Proof. done. Qed.

Lemma owes_bind0 {A B} (p : stress A) (f : A → stress B) :
  owes 0 p → (∀ x, owes 0 (f x)) → owes 0 (p ≫= f).
Proof. apply (owes_bind 0 0). Qed.

(** Programs that count nothing, by their structure. *)
Ltac owes_nothing :=
  repeat first
    [ apply owes_ret | apply owes_on_client | by apply owes_op | by apply owes_total
    | assumption | apply owes_bind0; [|intros ?] | case_match ].

Section driver.
Context {P : Protobuf}.

Lemma owes_start cs : owes 0 (start_clients cs).
Proof. induction cs as [|i cs IH]; cbn [start_clients]; cbv zeta; owes_nothing. Qed.

Lemma owes_start_all n : owes 0 (start_all n).
Proof. unfold start_all. apply owes_bind0; [apply owes_start|]. intros x. owes_nothing. Qed.

Lemma owes_sender n m i : owes m (sender n m i).
Proof.
  apply (owes_for_each 1); [rewrite length_seq; lia|].
  intros k. apply (owes_bind 0 1); [apply owes_on_client|].
  intros [|]; cbn; by exists 0%nat.
Qed.

Lemma owes_wait_loop cs total timeout from turns : owes 0 (wait_loop cs total timeout from turns).
Proof.
  unfold TotalClientAcks, TotalClientChatPushes.
  induction turns as [|turns IH]; cbn [wait_loop]; cbv zeta; owes_nothing.
Qed.

Lemma owes_wait_all cs total timeout turns : owes 0 (wait_all cs total timeout turns).
Proof.
  unfold wait_all, TotalClientLoginResponses. do 3 (apply owes_bind0; [by apply owes_op|]; intros ?).
  apply owes_bind0; [apply owes_wait_loop|]. intros _. owes_nothing.
Qed.

Lemma owes_close g : owes 0 (close_worker g).
Proof.
  apply (owes_for_each 0); [lia|]. intros i. apply owes_on_client.
Qed.

(** ** The sends are counted *)

Context (env : stress_env).

(** [T] sends in all: those counted and those the threads [ts] still owe. *)
Definition accounted (T : Z) (w : stress_world) (ks : list nat) (ts : list (stress unit)) : Prop :=
  Forall2 owes ks ts ∧ 0 <= send_ok w ∧ 0 <= send_failed w ∧
  send_ok w + send_failed w + Z.of_nat (sum_list_with id ks) = T.

Lemma exec_uncounted X (e : stressE X) w :
  counts e = false →
  send_ok (stress_exec env X e w).1 = send_ok w ∧ send_failed (stress_exec env X e w).1 = send_failed w.
Proof. destruct e; cbn; try done. by destruct (client_exec _ _ _ _). Qed.

Lemma accounted_step T w ks ts w' ts' :
  T < 2147483648 → accounted T w ks ts → tstep (stress_exec env) (w, ts) (w', ts') →
  ∃ ks', accounted T w' ks' ts' ∧ Forall2 le ks' ks.
Proof.
  intros HT (Hf & Hok & Hfail & Hsum) Hstep.
  inversion Hstep as [? ? i X e k Hi]; subst.
  destruct (Forall2_lookup_r _ _ _ _ _ Hf Hi) as (n & Hn & Hown). cbn in Hown.
  pose proof (λ n', sum_insert id ks i n n' Hn) as Hins. cbn in Hins.
  assert (Hpos : (n <= sum_list_with id ks)%nat) by (specialize (Hins 0%nat); lia).
  destruct (counts e) eqn:He.
  - destruct Hown as (n' & -> & Hown). exists (<[i := n']> ks). specialize (Hins n').
    split; [split; [apply Forall2_insert; [done|apply Hown]|]|].
    + destruct e; try done; cbn; (rewrite int32_small; [|lia]); lia.
    + rewrite <-(list_insert_id _ _ _ Hn) at 2. by apply Forall2_insert; [|lia].
  - destruct (exec_uncounted X e w He) as [Ho Hl]. exists ks. unfold accounted. rewrite Ho, Hl.
    split; [|done]. split; [|done]. rewrite <-(list_insert_id _ _ _ Hn). by apply Forall2_insert.
Qed.

Lemma accounted_steps T s s' ks :
  T < 2147483648 → rtc (tstep (stress_exec env)) s s' → accounted T s.1 ks s.2 →
  ∃ ks', accounted T s'.1 ks' s'.2 ∧ Forall2 le ks' ks.
Proof.
  intros HT Hs. revert ks. induction Hs as [|[w ts] [w1 ts1] z Hxy _ IH]; intros ks Hk; [by exists ks|].
  destruct (accounted_step T w ks ts w1 ts1 HT Hk Hxy) as (ks1 & H1 & Hle).
  destruct (IH ks1 H1) as (ks2 & H2 & Hle2). exists ks2. split; [done|by etrans].
Qed.

(** ** Phases

    Between two phases [T] sends are counted, and the other threads count none. *)
Definition between (T : Z) (s : stress_world * list (stress unit)) : Prop :=
  accounted T s.1 (replicate (length s.2) 0%nat) s.2.

Lemma sum_replicate n k : sum_list_with id (replicate n k) = (n * k)%nat.
Proof. induction n; simpl; [done|]. unfold id in *. lia. Qed.

Lemma sum_app (l k : list nat) : sum_list_with id (l ++ k) = (sum_list_with id l + sum_list_with id k)%nat.
Proof. induction l; simpl; [done|]. unfold id in *. lia. Qed.

Lemma le_zeros ks n : Forall2 le ks (replicate n 0%nat) → ks = replicate n 0%nat.
Proof.
  revert ks. induction n as [|n IH]; intros ks H; inversion H; subst; [done|]. cbn. f_equal; [lia|].
  by apply IH.
Qed.

Lemma ended_zeros ks (qs : list (stress unit)) :
  Forall2 owes ks qs → Forall (λ q, q = Ret tt) qs → ks = replicate (length qs) 0%nat.
Proof. induction 1; intros Hq; inversion Hq; subst; cbn in *; [done|]. f_equal; auto. Qed.

Lemma phase_between T m ps s s' :
  T + Z.of_nat (length ps * m) < 2147483648 → between T s → Forall (owes m) ps → phase env ps s s' →
  between (T + Z.of_nat (length ps * m)) s'.
Proof.
  intros HT (Hf & Hok & Hfail & Hsum) Hps (qs & Hsteps & Hlen & Hqs).
  destruct (accounted_steps (T + Z.of_nat (length ps * m)) _ _
    (replicate (length ps) m ++ replicate (length s.2) 0%nat) HT Hsteps) as (ks & Hks & Hle).
  { split; [apply Forall2_app; [by apply Forall2_replicate_l|done]|].
    cbn [fst]. rewrite sum_app, sum_replicate. lia. }
  destruct Hks as (Hf' & Hok' & Hfail' & Hsum'). cbn [fst snd] in *.
  apply Forall2_app_inv_r in Hf' as (k1 & k2 & Hk1 & Hk2 & ->).
  apply ended_zeros in Hk1; [|done]. subst k1.
  apply Forall2_app_inv in Hle as [_ Hle]; [|by rewrite !length_replicate].
  apply le_zeros in Hle. subst k2.
  pose proof (Forall2_length _ _ _ Hk2) as Hl. rewrite length_replicate in Hl.
  unfold between, accounted. rewrite <-Hl. rewrite sum_app, !sum_replicate in Hsum'.
  rewrite sum_replicate. repeat split; [done..|lia].
Qed.

Lemma quiet_phase T ps s s' :
  T < 2147483648 → between T s → Forall (owes 0) ps → phase env ps s s' → between T s'.
Proof.
  intros HT Hb Hps Hph. pose proof (phase_between T 0 ps s s') as H.
  rewrite Nat.mul_0_r, Z.add_0_r in H. by apply H.
Qed.
End driver.

(** Threads of the clients: their receivers, their retries. *)
Definition client_program (p : stress unit) : Prop := ∃ i (q : cli unit), p = on_client i q.

(** C31. The exit code is not 0 unless every send was accepted.  Whatever the
    server does and however the threads interleave, when the driver returns
    every one of the [client_count * messages_per_client] calls of
    [sendMessage] has been counted once, unless a client could not be started;
    and it returns 0 exactly if none failed and the last poll of the clients'
    counters saw as many acknowledgements and as many pushes. *)
Theorem exit_code_exact `{Protobuf} env client_count messages timeout others s code :
  0 <= client_count → 0 <= messages → client_count * messages < 2147483648 →
  Forall client_program others →
  RunStressTest env client_count messages timeout (new_stress, others) s code →
  let w := s.1 in
  (code = 1 ∧ ∃ s1, phase env [start_all (Z.to_nat client_count)] (new_stress, others) s1 ∧
     started (sw_main s1.1) = Some false) ∨
  (send_ok w + send_failed w = client_count * messages ∧
   (code = 0 ↔ send_ok w = client_count * messages ∧
     client_count * messages <= client_acks (sw_main w) ∧
     client_count * messages <= client_pushes (sw_main w)) ∧ (code = 0 ∨ code = 1)).
Proof.
  intros Hn Hm HT Hothers Hrun. cbv zeta.
  assert (between 0 (new_stress, others)) as H0.
  { split; [|cbn; rewrite sum_replicate; lia]. apply Forall2_replicate_l; [done|].
    eapply Forall_impl; [exact Hothers|]. intros p (i & q & ->). apply owes_on_client. }
  inversion Hrun as [? s1 s2 Hp1 Hst _|turns ? s1 s2 s3 s4 Hp1 _ Hp2 Hp3 _ Hp4]; subst;
    [left; eauto|right].
  apply (quiet_phase env 0) in Hp1; [|done..|by apply Forall_singleton, owes_start_all].
  assert (Forall (owes (Z.to_nat messages)) (senders client_count messages)) as Hsend.
  { apply Forall_fmap, Forall_true. intros i. apply owes_sender. }
  pose proof (phase_between env 0 (Z.to_nat messages) (senders client_count messages) s1 s2) as H2.
  specialize (H2 ltac:(unfold senders; rewrite length_fmap, length_seq; nia) Hp1 Hsend Hp2).
  unfold senders in H2. rewrite length_fmap, length_seq in H2.
  replace (0 + Z.of_nat (Z.to_nat client_count * Z.to_nat messages))
    with (client_count * messages) in H2 by lia.
  apply (quiet_phase env _ _ _ _ HT H2) in Hp3; [|by apply Forall_singleton, owes_wait_all].
  apply (quiet_phase env _ _ _ _ HT Hp3) in Hp4;
    [|apply Forall_fmap, Forall_true; intros g; apply owes_close].
  destruct Hp4 as (_ & Hok & Hfail & Hsum). rewrite sum_replicate in Hsum.
  unfold exit_code, total_messages. rewrite int32_small by nia.
  repeat case_match; repeat split; try lia; auto.
Qed.

(** ** A run *)

Definition has_ended (p : stress unit) : bool := if p is Ret _ then true else false.

Definition run_phase (env : stress_env) (sch : list nat) (ps : list (stress unit))
    (s : stress_world * list (stress unit)) : option (stress_world * list (stress unit)) :=
  s' ← run_schedule (stress_exec env) sch (s.1, ps ++ s.2);
  if forallb has_ended (take (length ps) s'.2) && (length ps <=? length s'.2)%nat
  then Some (s'.1, drop (length ps) s'.2) else None.

Lemma run_phase_phase env sch ps s s' : run_phase env sch ps s = Some s' → phase env ps s s'.
Proof.
  unfold run_phase. intros H.
  destruct (run_schedule _ sch _) as [[w ts]|] eqn:Hrun; [|done]. cbn in H.
  destruct (forallb _ _ && _) eqn:Hc; [|done]. injection H as <-.
  apply andb_true_iff in Hc as [Hend Hlen%Nat.leb_le].
  exists (take (length ps) ts). cbn [fst snd]. rewrite take_drop. split; [|split].
  - apply run_schedule_steps in Hrun. by eapply rtc_nsteps_2.
  - rewrite length_take. lia.
  - apply Forall_forall. intros q Hq%list_elem_of_In. rewrite forallb_forall in Hend.
    specialize (Hend q Hq). by destruct q as [[]|].
Qed.

(** One client, which sends itself a message; its receiver finds the login
    response first, then the acknowledgement and the push in one read. *)
Definition stress_input (t : nat) : recv_result :=
  RecvData (if (t <? 12)%nat then Encode (EnvelopeFactory.CreateLoginResponse 1000 1 true "")
            else Encode (EnvelopeFactory.CreateAck 1000 2 8 true "")
                 ++ Encode (EnvelopeFactory.CreateChatPush 1000 0 8 8 1000 1000 "m" 900 true)).

(** A second passes with every operation of the driver. *)
Definition stress_world_env : stress_env :=
  {| se_client := λ _, {| ce_clock := λ _, 1000%N; ce_connect := λ _, connects; ce_send := λ _ _ n, Z.of_N n;
       ce_recv := stress_input; ce_visit := map_to_list; ce_visit_ok := λ m, reflexivity _ |};
     se_clock := λ t, (1000000000 * N.of_nat t)%N |}.

Definition its_receiver : list (stress unit) := [on_client 0 (receiverLoop 3 [])].

Definition or_start := default (new_stress, @nil (stress unit)).

Definition stress_1 := or_start (run_phase stress_world_env
  (replicate 9 0 ++ replicate 4 1 ++ replicate 6 0)%nat [start_all 1] (new_stress, its_receiver)).
Definition stress_2 := or_start (run_phase stress_world_env
  (replicate 9 0 ++ replicate 7 1)%nat (senders 1 1) stress_1).
Definition stress_3 := or_start (run_phase stress_world_env
  (replicate 11 0)%nat [wait_all [0%nat] 1 1 1] stress_2).
Definition stress_4 := or_start (run_phase stress_world_env
  (replicate 4 0)%nat (StopClientsConcurrently 1) stress_3).

Lemma or_start_phase env sch ps s s' :
  s' = or_start (run_phase env sch ps s) →
  (if run_phase env sch ps s is Some _ then true else false) = true → phase env ps s s'.
Proof.
  intros -> H. destruct (run_phase env sch ps s) as [s'|] eqn:Hs; [|done]. by eapply run_phase_phase.
Qed.

Lemma stress_run :
  RunStressTest stress_world_env 1 1 1 (new_stress, its_receiver) stress_4
    (exit_code (total_messages 1 1) stress_4.1).
Proof.
  apply (stress_finished _ _ _ _ 1 _ stress_1 stress_2 stress_3 stress_4).
  - eapply or_start_phase; [unfold stress_1; reflexivity|vm_compute; reflexivity].
  - vm_compute; reflexivity.
  - eapply or_start_phase; [unfold stress_2 at 1; reflexivity|vm_compute; reflexivity].
  - eapply or_start_phase; [unfold stress_3 at 1; reflexivity|vm_compute; reflexivity].
  - vm_compute; reflexivity.
  - eapply or_start_phase; [unfold stress_4 at 1; reflexivity|vm_compute; reflexivity].
Qed.

Lemma exit_code_exact_witness :
  exit_code (total_messages 1 1) stress_4.1 = 0 ∧ send_ok stress_4.1 = 1 ∧
  ((0 = 1 ∧ ∃ s1, phase stress_world_env [start_all 1] (new_stress, its_receiver) s1 ∧
     started (sw_main s1.1) = Some false) ∨
   (send_ok stress_4.1 + send_failed stress_4.1 = 1 * 1 ∧
    (0 = 0 ↔ send_ok stress_4.1 = 1 * 1 ∧ 1 * 1 <= client_acks (sw_main stress_4.1) ∧
      1 * 1 <= client_pushes (sw_main stress_4.1)) ∧ (0 = 0 ∨ 0 = 1))).
Proof.
  assert (exit_code (total_messages 1 1) stress_4.1 = 0) as Hcode by (vm_compute; reflexivity).
  split; [exact Hcode|]. split; [vm_compute; reflexivity|].
  apply (exit_code_exact stress_world_env 1 1 1 its_receiver stress_4 0);
    [lia|lia|lia|apply Forall_singleton; by exists 0%nat, (receiverLoop 3 [])|].
  rewrite <-Hcode. exact stress_run.
Defined.

(** ** The ring *)

Lemma receiver_index_small n i : (i < n)%nat →
  receiver_index (Z.of_nat n) (Z.of_nat i) = Z.of_nat (if decide (S i = n) then 0 else S i)%nat.
Proof.
  intros Hi. unfold receiver_index. rewrite Z.rem_mod_nonneg by lia. case_decide as H.
  - subst n. replace (Z.of_nat i + 1) with (Z.of_nat (S i)) by lia. by rewrite Z_mod_same_full.
  - rewrite Z.mod_small; lia.
Qed.

(** The route is a ring.  With [n] clients, the receivers of clients
    [0], ..., [n - 1] are the clients [1], ..., [n - 1], [0]: every client is
    sent to by exactly one client. *)
Theorem ring_route n :
  ((λ i, receiver_index (Z.of_nat n) (Z.of_nat i)) <$> seq 0 n)
    = (Z.of_nat <$> seq 1 (pred n)) ++ (if n is O then [] else [0]) ∧
  ((λ i, receiver_index (Z.of_nat n) (Z.of_nat i)) <$> seq 0 n) ≡ₚ (Z.of_nat <$> seq 0 n).
Proof.
  destruct n as [|n]; [done|]. cbn [pred].
  assert (((λ i, receiver_index (Z.of_nat (S n)) (Z.of_nat i)) <$> seq 0 (S n))
    = (Z.of_nat <$> seq 1 n) ++ [0]) as ->.
  { rewrite seq_S, fmap_app. f_equal.
    - rewrite <-fmap_S_seq, <-list_fmap_compose. apply list_fmap_ext. intros j x Hx.
      apply lookup_seq in Hx as [-> Hj]. cbn [compose]. rewrite receiver_index_small by lia.
      case_decide; lia.
    - cbn [fmap list_fmap]. rewrite receiver_index_small by lia. by rewrite decide_True by lia. }
  split; [done|]. cbn [seq fmap list_fmap]. by rewrite <-Permutation_cons_append.
Qed.

(** ** Closing in groups *)

Definition group_range (g : nat * nat) : list nat := seq g.1 (g.2 - g.1).

Lemma close_groups_from fuel size begin :
  (size - begin <= fuel)%nat →
  concat (group_range <$> close_groups fuel size begin) = seq begin (size - begin) ∧
  Forall (λ g, g.1 < g.2 <= size ∧ g.2 - g.1 <= kCloseGroupSize)%nat (close_groups fuel size begin) ∧
  length (close_groups fuel size begin) = ((size - begin + kCloseGroupSize - 1) / kCloseGroupSize)%nat.
Proof.
  revert begin. induction fuel as [|fuel IH]; intros begin Hf; cbn [close_groups].
  - replace (size - begin)%nat with 0%nat by lia. done.
  - destruct (Nat.ltb_spec begin size) as [Hlt|Hge]; cbv zeta.
    + destruct (IH (begin + kCloseGroupSize)%nat) as (IH1 & IH2 & IH3); [unfold kCloseGroupSize; lia|].
      rewrite fmap_cons. cbn [concat length]. rewrite IH1, IH3. unfold group_range at 1. cbn [fst snd].
      destruct (Nat.ltb_spec size (begin + kCloseGroupSize)) as [Hs|Hs].
      * replace (size - (begin + kCloseGroupSize))%nat with 0%nat by lia. cbn [seq].
        rewrite app_nil_r. split; [done|]. split; [constructor; [cbn; lia|done]|].
        unfold kCloseGroupSize in *. change ((0 + 10 - 1) / 10)%nat with 0%nat.
        apply (Nat.div_unique _ 10 1 (size - begin - 1)); lia.
      * replace (begin + kCloseGroupSize - begin)%nat with kCloseGroupSize by lia. split; [|split].
        -- rewrite <-seq_app. f_equal. lia.
        -- constructor; [cbn; unfold kCloseGroupSize in *; lia|done].
        -- unfold kCloseGroupSize in *.
           replace (size - begin + 10 - 1)%nat with (size - (begin + 10) + 10 - 1 + 1 * 10)%nat by lia.
           rewrite Nat.div_add by done. lia.
    + replace (size - begin)%nat with 0%nat by lia. done.
Qed.

(** Closing in groups closes the clients one after the other would close:
    the ranges of the workers, one after the other, are the range of all the
    clients, so each client is stopped by exactly one worker; no worker has
    more than ten, none has nothing to do, and there are as many as were
    reserved for. *)
Theorem close_groups_partition size :
  concat (group_range <$> close_groups size size 0) = seq 0 size ∧
  Forall (λ g, g.1 < g.2 <= size ∧ g.2 - g.1 <= 10)%nat (close_groups size size 0) ∧
  length (close_groups size size 0) = ((size + 10 - 1) / 10)%nat.
Proof.
  destruct (close_groups_from size size 0) as (H1 & H2 & H3); [lia|].
  rewrite Nat.sub_0_r in H1, H3. done.
Qed.

(** ** The wait *)

Section waiting.
Context (env : stress_env) (total timeout : Z).
Context (clock_mono : ∀ i j, (i <= j)%nat → (se_clock env i <= se_clock env j)%N).
(** No overflow of the seconds: less than 68 years in all. *)
Context (clock_bound : ∀ i, (se_clock env i + Z.to_N (timeout + 1) * 1000000000 < 2147483648000000000)%N).
Context (timeout_pos : 0 <= timeout).

(** Time passed, without sleeping. *)
Definition later (w w' : stress_world) : Prop :=
  sw_slept w' = sw_slept w ∧ (sw_tick w <= sw_tick w')%nat ∧ waited (sw_main w') = waited (sw_main w).

#[local] Instance later_preorder : PreOrder later.
Proof. split; [split; [done|split; [lia|done]]|intros x y z (?&?&?) (?&?&?); repeat split; congruence || lia]. Qed.

Lemma run_total get cs n w :
  (∀ i w, later w (stress_exec env Z (get i) w).1) →
  later w (run (stress_exec env) (total_of get cs n) w).1.
Proof.
  intros Hg. revert n w. induction cs as [|i cs IH]; intros n w; [done|].
  cbn [total_of]. specialize (Hg i w). cbn. destruct (stress_exec env Z (get i) w) as [w1 x].
  etrans; [exact Hg|apply IH].
Qed.

(** The loop from [w] on, [d] nanoseconds having been slept since [from]. *)
Lemma wait_loop_ends cs from turns w d :
  sw_slept w = (sw_slept from + d)%N → (sw_tick from <= sw_tick w)%nat →
  (d < Z.to_N timeout * 1000000000 + 100000000)%N →
  (Z.to_N timeout * 1000000000 + 100000000 <= d + N.of_nat turns * 100000000)%N →
  let w' := (run (stress_exec env) (wait_loop cs total timeout (sw_now env from) turns) w).1 in
  waited (sw_main w') = true ∧ (sw_now env from + Z.to_N timeout * 1000000000 <= sw_now env w')%N.
Proof.
  revert w d. induction turns as [|turns IH]; intros w d Hs Ht Hd Henough; [lia|].
  cbv zeta. cbn [wait_loop]. unfold TotalClientAcks, TotalClientChatPushes.
  unfold mbind, prog_bind. rewrite run_bind.
  pose proof (run_total SAckCount cs 0 w ltac:(repeat split; cbn; lia)) as H1.
  destruct (run _ (total_of SAckCount cs 0) w) as [w1 acks]. cbn [fst] in H1.
  rewrite run_bind.
  pose proof (run_total SPushCount cs 0 w1 ltac:(repeat split; cbn; lia)) as H2.
  destruct (run _ (total_of SPushCount cs 0) w1) as [w2 pushes]. cbn [fst] in H2.
  assert (later w w2) as (Hs2 & Ht2 & _) by (by etrans). clear H1 H2 w1.
  cbn [bind trigger run stress_exec fst snd].
  assert (sw_now env w2 = se_clock env (sw_tick w2) + (sw_slept from + d))%N as Hnow
    by (unfold sw_now; congruence).
  assert (sw_now env from = se_clock env (sw_tick from) + sw_slept from)%N as Hfrom by done.
  pose proof (clock_mono (sw_tick from) (sw_tick w2) ltac:(lia)) as Hmono.
  pose proof (clock_bound (sw_tick w2)) as Hbound.
  set (e := (sw_now env w2 - sw_now env from)%N).
  assert (e = se_clock env (sw_tick w2) - se_clock env (sw_tick from) + d)%N as He by lia.
  pose proof (N.div_mod e 1000000000 ltac:(done)) as Hdiv.
  pose proof (N.mod_lt e 1000000000 ltac:(done)) as Hmod.
  assert (Z.to_N (timeout + 1) = Z.to_N timeout + 1)%N as Hsucc by lia. rewrite Hsucc in Hbound.
  assert (e < 2147483648000000000)%N as Hlt by lia. clearbody e.
  generalize dependent (e mod 1000000000)%N. generalize dependent (e / 1000000000)%N. intros q r Hdiv Hmod.
  rewrite int32_small by lia.
  destruct (Z.leb_spec timeout (Z.of_N q)) as [Hover|Hnot].
  - cbn [trigger run stress_exec fst]. split; [done|].
    pose proof (clock_mono (sw_tick from) (S (S (S (sw_tick w2)))) ltac:(lia)) as Hm1.
    pose proof (clock_mono (sw_tick w2) (S (S (S (sw_tick w2)))) ltac:(lia)) as Hm2.
    rewrite Hfrom. unfold sw_now. cbn. rewrite Hs2, Hs. lia.
  - cbn [run stress_exec]. apply (IH _ (d + 100000000)%N); [cbn; lia|cbn; lia|lia|lia].
Qed.

Lemma wait_all_ends cs turns w :
  (10 * Z.to_nat timeout < turns)%nat →
  let w' := (run (stress_exec env) (wait_all cs total timeout turns) w).1 in
  waited (sw_main w') = true ∧ (sw_now env w + Z.to_N timeout * 1000000000 <= sw_now env w')%N.
Proof.
  intros Hturns. cbv zeta. unfold wait_all, TotalClientLoginResponses, mbind, prog_bind.
  cbn [trigger bind run stress_exec]. set (w0 := sw_step (sw_step w id) (set_main _)).
  rewrite run_bind.
  pose proof (wait_loop_ends cs w0 turns (sw_step w0 id) 0) as H. cbv zeta in H.
  destruct (run _ (wait_loop _ _ _ _ _) _) as [w1 []]. cbn [bind trigger run stress_exec]. rewrite run_bind.
  pose proof (run_total SLoginCount cs 0 (sw_step w1 id) ltac:(repeat split; cbn; lia)) as (Hs & Ht & Hw).
  destruct (run _ (total_of _ _ _) _) as [w2 n]. cbn [trigger run stress_exec fst snd] in *.
  destruct H as [H1 H2]; [cbn; lia|cbn; lia|lia|lia|].
  split; [cbn; rewrite Hw; exact H1|]. cbn in Hs, Ht. unfold sw_now in *. cbn in *. rewrite Hs.
  pose proof (clock_mono (sw_tick w) (S (S (sw_tick w))) ltac:(lia)).
  pose proof (clock_mono (sw_tick w1) (S (sw_tick w2)) ltac:(lia)). lia.
Qed.
End waiting.

(** The wait ends, and not before its deadline.  If the clock does not go
    back and the run stays under 68 years, [10 * timeout + 1] turns of the loop
    are enough for it to be left, and then [timeout] seconds have passed, even
    when every acknowledgement had arrived before. *)
Theorem wait_terminates env total timeout cs turns w :
  (∀ i j, (i <= j)%nat → (se_clock env i <= se_clock env j)%N) →
  (∀ i, (se_clock env i + Z.to_N (timeout + 1) * 1000000000 < 2147483648000000000)%N) →
  0 <= timeout → (10 * Z.to_nat timeout < turns)%nat →
  let w' := (run (stress_exec env) (wait_all cs total timeout turns) w).1 in
  waited (sw_main w') = true ∧ (sw_now env w + Z.to_N timeout * 1000000000 <= sw_now env w')%N.
Proof. intros Hmono Hbound Hpos Hturns. by apply wait_all_ends. Qed.

Definition still_env : stress_env := {| se_client := se_client stress_world_env; se_clock := λ _, 0%N |}.

Lemma wait_terminates_witness :
  let w' := (run (stress_exec still_env) (wait_all [0%nat] 1 2 21) stress_2.1).1 in
  waited (sw_main w') = true ∧ (sw_now still_env stress_2.1 + 2 * 1000000000 <= sw_now still_env w')%N.
Proof.
  apply (wait_terminates still_env 1 2 [0%nat] 21 stress_2.1); [done| |done|cbn; lia].
  intros i. vm_compute. reflexivity.
Defined.

(** ** Arguments *)

(** Every argument of the driver is a positive [int], whatever the text. *)
Lemma ParsePositiveInt_range value fallback :
  1 <= fallback < 2147483648 → 1 <= ParsePositiveInt value fallback < 2147483648.
Proof.
  intros Hf. destruct value as [text|]; cbn; [|done]. unfold atoi. case_match eqn:H; [|done].
  apply Z.ltb_lt in H. unfold int32 in *.
  pose proof (Z.mod_pos_bound ((strtol text).1 + 2147483648) 4294967296 eq_refl). lia.
Qed.

(** The expected number of messages of arguments the driver accepts can be out
    of the range of [int]; wrapped around it can be 0, which any run reaches. *)
Lemma total_overflows :
  let a := main_arguments ["65536"; "65536"] in
  arg_clients a * arg_messages a = 4294967296 ∧ total_messages (arg_clients a) (arg_messages a) = 0.
Proof. vm_compute. done. Qed.
