(* ===== verification/StressSummary.v ===== *)
(** * The summary of the stress driver

    The variables of its main thread under the interleavings with the threads of
    the clients, and what the summary it prints may be relied on for. *)

From S2P Require Import Prelude Decimal Message WireInstance Codec Prog Client Stress StressFacts.
Local Open Scope Z_scope.

(** ** Programs that leave the variables of the main thread alone *)

Definition assigns {X} (e : stressE X) : bool := if e is SMain _ then true else false.

Definition silent {A} (p : stress A) : Prop := all_ops (λ _ e, assigns e = false) (λ _ _ _, True) p.

Lemma silent_op {X} (e : stressE X) : assigns e = false → silent (trigger e).
Proof. by split. Qed.

Lemma silent_bind {A B} (p : stress A) (f : A → stress B) :
  silent p → (∀ x, silent (f x)) → silent (p ≫= f).
Proof. apply all_ops_bind. Qed.

Lemma silent_on_client {A} i (p : cli A) : silent (on_client i p).
Proof. induction p as [x|X e k IH]; [done|]. split; [done|]. intros x _. apply IH. Qed.

Lemma silent_total get (cs : list nat) n : (∀ i, assigns (get i) = false) → silent (total_of get cs n).
Proof. intros Hg. revert n. induction cs as [|i cs IH]; intros n; [done|]. split; [done|]. intros x _. apply IH. Qed.

Section summary.
Context {P : Protobuf}.

Lemma silent_start cs : silent (start_clients cs).
Proof.
  induction cs as [|i cs IH]; [done|]. cbn [start_clients]. apply silent_bind; [by apply silent_op|].
  intros _. apply silent_bind; [apply silent_on_client|]. intros [|]; [done|].
  apply silent_bind; [apply silent_on_client|done].
Qed.

Lemma silent_sender n m i : silent (sender n m i).
Proof.
  apply all_ops_for_each. intros k. apply silent_bind; [apply silent_on_client|].
  by intros [|]; apply silent_op.
Qed.

Lemma silent_close g : silent (close_worker g).
Proof. apply all_ops_for_each. intros i. apply silent_on_client. Qed.

(** ** Following the main thread

    [tracks Q p m t]: run from the variables [m] at a time not before [t], [p]
    ends with a value, variables and a time for which [Q] holds, whatever the
    answers, as long as time does not go back. *)
Definition op_tracks {X} (e : stressE X) (m : main_locals) (t : N) :
    (X → main_locals → N → Prop) → Prop :=
  match e in stressE X return (X → main_locals → N → Prop) → Prop with
  | SMain assign => λ r, r tt (assign m) t
  | SNow => λ r, ∀ n, (t <= n)%N → r n m n
  | _ => λ r, ∀ x, r x m t
  end.

Fixpoint tracks {A} (Q : A → main_locals → N → Prop) (p : stress A) (m : main_locals) (t : N) : Prop :=
  match p with
  | Ret x => Q x m t
  | Do e k => op_tracks e m t (λ x, tracks Q (k x))
  end.

Lemma op_tracks_mono {X} (e : stressE X) m t (r r' : X → main_locals → N → Prop) :
  op_tracks e m t r → (∀ x m t, r x m t → r' x m t) → op_tracks e m t r'.
Proof. intros H Hr. destruct e; cbn in *; auto. Qed.

Lemma tracks_bind {A B} (p : stress A) (f : A → stress B) Q m t :
  tracks (λ x, tracks Q (f x)) p m t → tracks Q (p ≫= f) m t.
Proof.
  unfold mbind, prog_bind. revert m t. induction p as [x|X e k IH]; intros m t H; [done|]. cbn in *.
  eapply op_tracks_mono; [exact H|]. auto.
Qed.

Lemma tracks_mono {A} (p : stress A) (Q Q' : A → main_locals → N → Prop) m t :
  tracks Q p m t → (∀ x m t, Q x m t → Q' x m t) → tracks Q' p m t.
Proof.
  intros H HQ. revert m t H. induction p as [x|X e k IH]; intros m t H; cbn in *; [auto|].
  eapply op_tracks_mono; [exact H|]. auto.
Qed.

Lemma tracks_silent {A} (p : stress A) (Q : A → main_locals → N → Prop) m t :
  silent p → (∀ x t', (t <= t')%N → Q x m t') → tracks Q p m t.
Proof.
  revert t. induction p as [x|X e k IH]; intros t Hp HQ; cbn in *; [by apply HQ|].
  destruct Hp as [He Hk]. destruct e; try done; cbn; intros; (apply IH; [by apply Hk|]); try done.
  intros y t' Ht'. apply HQ. lia.
Qed.

Section interleaved.
Context (env : stress_env).
Context (clock_mono : ∀ i j, (i <= j)%nat → (se_clock env i <= se_clock env j)%N).

Lemma exec_time X (e : stressE X) w : (sw_now env w <= sw_now env (stress_exec env X e w).1)%N.
Proof.
  assert (∀ d, (sw_now env w <= se_clock env (S (sw_tick w)) + (sw_slept w + d))%N) as H.
  { intros d. unfold sw_now. pose proof (clock_mono (sw_tick w) (S (sw_tick w)) ltac:(lia)). lia. }
  pose proof (H 0%N) as H0. rewrite N.add_0_r in H0.
  destruct e; cbn; try exact H0; [|apply H]. by destruct (client_exec _ _ _ _).
Qed.

Lemma exec_silent X (e : stressE X) w :
  assigns e = false → sw_main (stress_exec env X e w).1 = sw_main w.
Proof. destruct e; cbn; try done. by destruct (client_exec _ _ _ _). Qed.

(** One operation of a program that is followed. *)
Lemma exec_tracked X (e : stressE X) r w t :
  op_tracks e (sw_main w) t r → (t <= sw_now env w)%N →
  ∃ t', r (stress_exec env X e w).2 (sw_main (stress_exec env X e w).1) t' ∧
    (t' <= sw_now env (stress_exec env X e w).1)%N.
Proof.
  intros H Ht. pose proof (exec_time X e w) as Hn.
  destruct (assigns e) eqn:He.
  - destruct e; try done. exists t. split; [apply H|]. by etrans.
  - rewrite exec_silent by done. destruct e; try done;
      try (exists t; split; [apply H|by etrans]).
    exists (sw_now env w). split; [by apply H|done].
Qed.

(** A thread that is followed, among threads that leave its variables alone. *)
Definition followed (Q : unit → main_locals → N → Prop) (s : stress_world * list (stress unit)) : Prop :=
  ∃ p ts t, s.2 = p :: ts ∧ tracks Q p (sw_main s.1) t ∧ (t <= sw_now env s.1)%N ∧ Forall silent ts.

Lemma followed_step Q s s' : tstep (stress_exec env) s s' → followed Q s → followed Q s'.
Proof.
  intros Hstep (p & ts & t & Hs & Hp & Ht & Hts). destruct Hstep as [w l i X e k Hi].
  cbn [fst snd] in *. subst l. destruct i as [|i]; cbn in Hi.
  - injection Hi as ->. cbn in Hp. destruct (exec_tracked X e _ w t Hp Ht) as (t' & Hp' & Ht').
    by eexists _, ts, t'.
  - rewrite Forall_lookup in Hts. destruct (Hts _ _ Hi) as [He Hk].
    exists p, (<[i := k (stress_exec env X e w).2]> ts), t. cbn [fst snd]. split_and!; [done| | |].
    + by rewrite exec_silent.
    + etrans; [exact Ht|apply exec_time].
    + apply Forall_insert; [by apply Forall_lookup|]. by apply Hk.
Qed.

(** A phase of the main thread alone. *)
Lemma tracked_phase Q p s s' t :
  phase env [p] s s' → Forall silent s.2 → tracks Q p (sw_main s.1) t → (t <= sw_now env s.1)%N →
  Forall silent s'.2 ∧ ∃ t', Q tt (sw_main s'.1) t' ∧ (t' <= sw_now env s'.1)%N.
Proof.
  intros (qs & Hsteps & Hlen & Hqs) Hts Hp Ht.
  assert (followed Q (s.1, [p] ++ s.2)) as Hf by (by exists p, s.2, t).
  assert (followed Q (s'.1, qs ++ s'.2)) as (p' & ts & t' & Hs & Hp' & Ht' & Hts').
  { induction Hsteps as [|x y z Hxy _ IH]; [done|]. by apply IH; [..|eapply followed_step]. }
  destruct qs as [|q [|]]; [done| |done]. cbn in Hs. injection Hs as <- <-.
  apply Forall_singleton in Hqs as ->. split; [done|]. by exists t'.
Qed.

(** A phase of threads that leave the variables alone. *)
Lemma silent_phase ps s s' :
  phase env ps s s' → Forall silent ps → Forall silent s.2 →
  Forall silent s'.2 ∧ sw_main s'.1 = sw_main s.1 ∧ (sw_now env s.1 <= sw_now env s'.1)%N.
Proof.
  intros (qs & Hsteps & _ & _) Hps Hts.
  assert (Forall silent (ps ++ s.2)) as Hall by (by apply Forall_app).
  change s.1 with (s.1, ps ++ s.2).1. change s'.1 with (s'.1, qs ++ s'.2).1.
  change (ps ++ s.2) with (s.1, ps ++ s.2).2 in Hall.
  enough (∀ x y, rtc (tstep (stress_exec env)) x y → Forall silent x.2 →
    Forall silent y.2 ∧ sw_main y.1 = sw_main x.1 ∧ (sw_now env x.1 <= sw_now env y.1)%N) as H.
  { destruct (H _ _ Hsteps Hall) as (H1 & H2 & H3). by apply Forall_app in H1 as [_ H1]. }
  clear -clock_mono. induction 1 as [x|x y z Hxy _ IH]; intros Hx; [by split_and!|].
  destruct Hxy as [w l i X e k Hi]. cbn [fst snd] in *. rewrite Forall_lookup in Hx.
  destruct (Hx _ _ Hi) as [He Hk].
  destruct IH as (H1 & H2 & H3); [apply Forall_insert; [by apply Forall_lookup|by apply Hk]|].
  split_and!; [done|by rewrite H2, exec_silent|]. etrans; [apply exec_time|exact H3].
Qed.
End interleaved.

(** ** The variables of the main thread *)

Lemma start_all_tracks n m t :
  tracks (λ _ m t, started m = Some true → (started_at m <= t)%N) (start_all n) m t.
Proof.
  apply tracks_bind, tracks_silent; [apply silent_start|]. intros [|] t' Ht'; cbn; [|done]. by intros _ now.
Qed.

Definition completed_within (from to : N) (at_ : option N) : Prop :=
  if at_ is Some a then (from <= a <= to)%N else True.

Lemma completed_within_later from to to' at_ :
  (to <= to')%N → completed_within from to at_ → completed_within from to' at_.
Proof. intros Ht. destruct at_; cbn; [lia|done]. Qed.

Lemma completed_within_now total count from to now at_ :
  (from <= now)%N → (to <= now)%N → completed_within from to at_ →
  completed_within from now (completed total count now at_).
Proof. intros Hf Ht H. destruct at_; cbn in *; [lia|]. case_match; cbn; [lia|done]. Qed.

Lemma completed_reached total count now at_ :
  total <= count → is_Some (completed total count now at_).
Proof. intros H%Z.leb_le. destruct at_; cbn; [done|]. by rewrite H. Qed.

(** The last poll set what it reached. *)
Definition poll_noted (total : Z) (m : main_locals) : Prop :=
  (total <= client_acks m → is_Some (ack_completed_at m)) ∧
  (total <= client_pushes m → is_Some (push_completed_at m)).

Definition sends_done (m : main_locals) (t : N) : Prop :=
  (started_at m <= send_finished_at m <= t)%N ∧
  completed_within (send_finished_at m) t (ack_completed_at m) ∧
  completed_within (send_finished_at m) t (push_completed_at m).

Lemma sends_done_later m t t' : (t <= t')%N → sends_done m t → sends_done m t'.
Proof.
  intros Ht (H & Ha & Hp). split; [lia|]. split; by eapply completed_within_later.
Qed.

Lemma sends_done_polled total acks pushes now m t :
  (t <= now)%N → sends_done m t → sends_done (set_polled total acks pushes now m) now.
Proof.
  intros Ht (H & Ha & Hp). split; [cbn; lia|].
  split; (eapply completed_within_now; [|exact Ht|done]); cbn; lia.
Qed.

Lemma tracks_total {B} get cs n (f : Z → stress B) Q m t :
  (∀ i, assigns (get i) = false) → (∀ x t', (t <= t')%N → tracks Q (f x) m t') →
  tracks Q (total_of get cs n ≫= f) m t.
Proof. intros Hg Hf. apply tracks_bind, tracks_silent; [by apply silent_total|exact Hf]. Qed.

Lemma wait_loop_tracks cs total timeout from turns m t :
  sends_done m t → waited m = false →
  tracks (λ _ m t, sends_done m t ∧ (waited m = true → poll_noted total m))
    (wait_loop cs total timeout from turns) m t.
Proof.
  revert m t. induction turns as [|turns IH]; intros m t Hm Hw; cbn [wait_loop].
  { split; [done|congruence]. }
  apply tracks_total; [done|]. intros acks t1 Ht1. apply tracks_total; [done|]. intros pushes t2 Ht2.
  cbn [tracks op_tracks mbind prog_bind bind trigger]. intros now Hnow.
  assert (sends_done (set_polled total acks pushes now m) now) as Hm'
    by (eapply sends_done_polled; [|exact Hm]; lia).
  case_match.
  - cbn [tracks op_tracks trigger]. split; [exact Hm'|]. intros _. split; apply completed_reached.
  - cbn [tracks op_tracks bind trigger]. intros _. by apply IH.
Qed.

Lemma wait_all_tracks cs total timeout turns m t :
  (started_at m <= t)%N →
  tracks (λ _ m t, sends_done m (finished_at m) ∧ (waited m = true → poll_noted total m))
    (wait_all cs total timeout turns) m t.
Proof.
  intros Ht. unfold wait_all. cbn [tracks op_tracks mbind prog_bind bind trigger].
  intros sent Hsent from Hfrom. apply tracks_bind. eapply tracks_mono.
  { apply wait_loop_tracks; [|done]. by split; [cbn; lia|]. }
  intros _ m' t' [Hm' Hw]. cbn [tracks op_tracks bind trigger]. intros finished Hfin.
  apply tracks_total; [done|]. intros logins t'' _. cbn [tracks op_tracks trigger].
  split; [|exact Hw]. by apply (sends_done_later m' t').
Qed.

(** ** The durations *)

Lemma elapsed_between a b c :
  (a <= b <= c)%N → 0 <= elapsed_ms a b <= elapsed_ms a c.
Proof.
  intros H. unfold elapsed_ms. split; [apply Z.quot_pos; lia|apply Z.quot_le_mono; lia].
Qed.

Lemma sends_done_elapsed m :
  sends_done m (finished_at m) →
  0 <= send_elapsed_ms m ∧ send_elapsed_ms m <= ack_elapsed_ms m <= total_elapsed_ms m ∧
  send_elapsed_ms m <= push_elapsed_ms m <= total_elapsed_ms m.
Proof.
  intros (H & Ha & Hp). unfold send_elapsed_ms, ack_elapsed_ms, push_elapsed_ms, total_elapsed_ms.
  assert (∀ at_, completed_within (send_finished_at m) (finished_at m) at_ →
    (send_finished_at m <= default (finished_at m) at_ <= finished_at m)%N) as Hat
    by (intros [a|]; cbn; lia).
  apply Hat in Ha, Hp.
  destruct (elapsed_between (started_at m) (send_finished_at m)
    (default (finished_at m) (ack_completed_at m))) as [? ?]; [lia|].
  destruct (elapsed_between (started_at m) (send_finished_at m)
    (default (finished_at m) (push_completed_at m))) as [? ?]; [lia|].
  destruct (elapsed_between (started_at m) (default (finished_at m) (ack_completed_at m))
    (finished_at m)) as [? ?]; [lia|].
  destruct (elapsed_between (started_at m) (default (finished_at m) (push_completed_at m))
    (finished_at m)) as [? ?]; [lia|]. lia.
Qed.

Lemma summary_divisors w name a b : (name, inr (a, b)) ∈ stress_summary w → 0 < b.
Proof.
  assert (∀ n c ms, (name, inr (a, b)) ∈ throughput n c ms → 0 < b) as Ht.
  { intros n c ms. unfold throughput. case_match eqn:H; [|by intros ?%elem_of_nil].
    intros [= -> _ ->]%list_elem_of_singleton. by apply Z.ltb_lt. }
  unfold stress_summary. cbv zeta. rewrite !elem_of_app. intros [H|[H|[H|H]]]; [|by eapply Ht..].
  repeat (apply elem_of_cons in H as [H|H]; [by injection H; intros; subst|]). by apply elem_of_nil in H.
Qed.

(** The summary of the driver can be relied on.  Whatever the server does and
    however the threads interleave, as long as the clock does not go back, the
    durations printed are in order (sending, then all acknowledgements, and all
    pushes, then the end), no quotient has a divisor that is not positive, and
    when the driver returns 0 the times of the acknowledgements and of the pushes
    are times at which a poll had seen all of them, not the end of the wait. *)
Theorem summary_reliable env client_count messages timeout others s code :
  (∀ i j, (i <= j)%nat → (se_clock env i <= se_clock env j)%N) → Forall client_program others →
  RunStressTest env client_count messages timeout (new_stress, others) s code →
  let m := sw_main s.1 in
  started m = Some true →
  (0 <= send_elapsed_ms m ∧ send_elapsed_ms m <= ack_elapsed_ms m <= total_elapsed_ms m ∧
   send_elapsed_ms m <= push_elapsed_ms m <= total_elapsed_ms m) ∧
  (∀ name a b, (name, inr (a, b)) ∈ stress_summary s.1 → 0 < b) ∧
  (code = 0 → ∃ a p, ack_completed_at m = Some a ∧ push_completed_at m = Some p).
Proof.
  intros Hmono Hothers Hrun m Hst.
  assert (Forall silent others) as Hsilent.
  { eapply Forall_impl; [exact Hothers|]. intros p (i & q & ->). apply silent_on_client. }
  assert (∀ n, Forall silent (StopClientsConcurrently n)) as Hstop
    by (intros n; apply Forall_fmap, Forall_true; intros g; apply silent_close).
  inversion Hrun as [? s1 s2 Hp1 Hnot Hp2|turns ? s1 s2 s3 s4 Hp1 Hyes Hp2 Hp3 Hw Hp4]; subst.
  - eapply tracked_phase in Hp1 as [Hs1 _]; [|done|done|apply (start_all_tracks _ _ 0)|lia].
    apply silent_phase in Hp2 as (_ & Hm & _); [|done..]. unfold m in Hst. congruence.
  - eapply tracked_phase in Hp1 as (Hs1 & t1 & Ht1 & Hle1); [|done|done|apply (start_all_tracks _ _ 0)|lia].
    apply silent_phase in Hp2 as (Hs2 & Hm2 & Hle2);
      [|done|apply Forall_fmap, Forall_true; intros i; apply silent_sender|done].
    eapply tracked_phase in Hp3 as (Hs3 & t3 & H3 & _);
      [|done|done|apply (wait_all_tracks _ _ _ _ _ t1)|by etrans]; [|rewrite Hm2; by apply Ht1].
    destruct H3 as [Hdone Hpoll].
    apply silent_phase in Hp4 as (_ & Hm4 & _); [|done..]. unfold m. rewrite Hm4.
    split; [by apply sends_done_elapsed|]. split; [apply summary_divisors|]. intros Hcode.
    unfold exit_code in Hcode. rewrite Hm4 in Hcode. case_match eqn:Hc; [|done].
    apply andb_true_iff in Hc as [[_ Ha%Z.leb_le]%andb_true_iff Hpu%Z.leb_le].
    destruct (Hpoll Hw) as [Hack Hpush]. destruct (Hack Ha) as [a ->], (Hpush Hpu) as [p ->]. by exists a, p.
Qed.
End summary.

Lemma summary_reliable_witness :
  let m := sw_main stress_4.1 in
  stress_summary stress_4.1 !! 10%nat = Some ("server_ack_throughput", inr (1000, 23000)) ∧
  (0 <= send_elapsed_ms m ∧ send_elapsed_ms m <= ack_elapsed_ms m <= total_elapsed_ms m ∧
   send_elapsed_ms m <= push_elapsed_ms m <= total_elapsed_ms m) ∧
  (∀ name a b, (name, inr (a, b)) ∈ stress_summary stress_4.1 → 0 < b) ∧
  (0 = 0 → ∃ a p, ack_completed_at m = Some a ∧ push_completed_at m = Some p).
Proof.
  split; [vm_compute; reflexivity|].
  apply (summary_reliable stress_world_env 1 1 1 its_receiver stress_4 0).
  - intros i j Hij. cbn. lia.
  - apply Forall_singleton. by exists 0%nat, (receiverLoop 3 []).
  - assert (exit_code (total_messages 1 1) stress_4.1 = 0) as <- by (vm_compute; reflexivity).
    exact stress_run.
  - vm_compute. reflexivity.
Defined.
